(* ===== verification/_CoqProject ===== *)
-Q . S2P
Prelude.v
GroupQueue.v
Topics.v
TopicFilter.v
Grants.v
Authz.v
Elements.v
Keys.v
StoreData.v
StoreScan.v
StoreSpec.v
StoreInv.v
StoreOpen.v
StoreAppend.v
StoreGroup.v
StoreQueue.v
StoreRepl.v
StoreCursor.v
StorePrune.v
StoreRetention.v
StoreCompact.v
Signals.v
StoreOps.v
Readers.v
Redelivery.v
Link.v
Uplink.v
UplinkRun.v
Ledger.v
Admission.v
Ingest.v
IngestSpec.v
Doors.v
DoorsRun.v
Queued.v
Pruner.v
PrunerSpec.v
PrunerRefresh.v
StoreRegistry.v
Registry.v
RegistrySpec.v
