(* ===== verification/Prelude.v ===== *)
(** * Colca: verification development

    Colca (Go, under [src/]) is a node of a tree of MQTT brokers that share one
    unified namespace. Producers publish retained state, metrics and commands at
    topics [root/v1/_Contract/node/path...]; every node keeps the records in
    durable streams, replicates what flows up to its parent and what flows down to
    its children, authorizes every reader and writer against grants, and answers
    consumers that hold cursors. This library models the parts that decide
    correctness and proves what they promise.

    ** The program and its model

    - The topic language ([plugins/uns]): [Topics] (parsing, contract classes,
      streams, mount rewriting between levels of the tree: [uns.go], [root.go],
      [retired.go]), [TopicFilter] ([topicfilter.go]), [Grants] (the grant grammar
      of [authz.go]), [Authz] (entries, zones, [Authorize] and everything that asks
      it, cursor ownership: [authz.go], [redelivery.go]), [Elements] (ancestry and
      the element index: [ancestry.go], [elements.go]; the scope the engine hands to
      authorization).
    - The store ([internal/store]), a Pebble database under a few mutexes. [Keys] is
      [keys.go] with the index keys, down to the bytes. [StoreData] holds the data
      of [store.go] as records, the database as a finite map from keys to typed
      values, Pebble's atomic batch, and [addRecord]. [StoreScan] is iteration in
      offset order. [StoreSpec] is the specification every append is shown to
      refine: [put_record]. [StoreInv] is the invariant [Inv]. [StoreOpen] is
      [OpenWithOptions]; [StoreAppend] the append paths of [store.go], [move.go],
      [replication_policy.go] and the group commit of [appendgroup.go], with
      [StoreGroup] their theorems; [StoreRepl] [replgroup.go] and the adoption of a
      child's incarnation; [StoreCursor] the cursors of [store.go],
      [cursorgroup.go] and [incarnation.go]; [StorePrune] the retention operations
      of [store.go], [compact.go] and [evict.go], with [StoreRetention] and
      [StoreCompact] their theorems; [StoreOps] the machine of all operations.
    - [GroupQueue] is the commit queue of [groupcommit.go] as a machine of
      concurrent callers, for any requests and any commit; [StoreQueue] is
      [Append], the queue over the group commit of appends.
    - [Signals] ([signalprune.go]) is per-signal retention, the one removal that
      walks the signal index. [Readers] holds the paged reads of [readpage.go] and
      [store.go], through the signal index ([sigindex.go]) and the target index
      ([targetindex.go]), and the search by time ([seekts.go]).
    - [Redelivery] ([internal/engine/redelivery.go] with [plugins/uns/redelivery.go]) is
      the delivery of commands to machines over a cursor of the commands stream.
    - [Link] is the uplink of [internal/repl]: the pages and batches of a push, what
      the parent does with it, the handshake, the verdicts on restored stores, re-sync,
      records set aside. [Uplink] has its lemmas, [UplinkRun] the machine of a child,
      its parent and the messages between them.
    - The doors ([internal/engine]). [Ledger] is the memory of commands and their
      answers ([ledger.go]), the answers taken on behalf of others and the denials that
      repeat ([audit.go], [audit_repeats.go]). [Admission] is what a publish is checked
      for ([contracts.go], [producer.go], [routes.go] and the payload checks of
      [plugins/uns]). [Ingest] is every door of [engine.go], [batch.go] and
      [exec_admin.go], from its checks to the record, the bus, the ledger and the
      executor, which is a function of the node's state given to the door. [IngestSpec]
      says what each step of a door does, [Doors] what each door does, and [DoorsRun]
      what runs of calls to them do. [Queued] is [queued.go]: commands that wait for a
      child or a machine, and their answers when they are refused or dropped.
    - [StoreRegistry] ([internal/store/registry.go]) and [Registry] ([internal/registry])
      are the registry of identities: its batches in the store, the indexes in memory,
      and enrolment, draining, revocation and retirement. [RegistrySpec] has the theorems.
    - [Pruner] ([internal/retention/pruner.go] with the policy of [internal/config]) is
      the retention pruner: a pass over a stream with the cursors in its way, its marker
      and answers, and the refresh of entities it owes. [others] is what the rest of the
      node does to the store between two of its steps. [PrunerSpec] and [PrunerRefresh]
      have the theorems.

    ** How the code is translated

    A Go function is a Coq function of the same name; a method takes and returns the
    [Store] it changes; an error is [Err] of [result], and [let!] is the early
    return. [uint64] offsets and byte counts are [N]; timestamps are [Z]. Offsets
    and byte counts cannot reach 2^64 in a store that fits a disk, so additions do
    not wrap in the model; where the code adds a configured limit to a count the
    wrap is written out ([wrap64] in [policyScan]). Maps are [gmap]s; a Go map's
    iteration order is the map's own order and no theorem depends on it. The clock,
    random ids and the predicates callers pass in are arguments. Each call takes
    [Faults]: which batch writes and whether the synced apply fail, so every theorem
    speaks of error paths too. A value in the database is the struct it encodes;
    what the code needs of JSON beyond that is the class [Codec], whose instances
    are arbitrary. An operation that reads without the mutex and commits under it
    takes the older store or snapshot as a separate argument.

    Channels that wake readers, metrics and logging are not state of the model.

    ** What the theorems show

    - The store. [run_inv] and [run_append_only]: every store of every run, with
      failing writes, stale scans and restarts, satisfies [Inv] and is an
      append-only log. [restart_resumes]: crash recovery. Group commits are
      equivalent to their requests one by one ([commitAppends_sequential],
      [commitReplicated_one_by_one], [commitAcks_forward]) and atomic
      ([commitAppendBatch_all_or_nothing]); replication is exactly once
      ([replicate_exactly_once], [AdoptChildStore_resets]); compare-and-append and
      moves do what they say ([AppendIfKVUnchanged_cas], [AppendAdvancing_once],
      [MoveRetained_moves]); incarnations and re-syncs are single steps
      ([ReincarnateFrom_once], [ResyncParent_atomic]). Retention removes exactly
      what it says and never passes a reader ([PruneScanned_exact],
      [prune_window_acks], [policyScan_spec], [Gap_spec]); compaction keeps values
      and unread retractions ([Compact_keeps_values]); eviction ends
      ([evict_all_ends]); per-signal retention keeps each signal's window and the
      value in force when it opens ([PruneSignals_keeps_value],
      [deleteSignalRecords_exact]). The byte keys are injective and the ranges exact
      ([encode_injective], [key_range_exact]).
    - Concurrency. The commit queue serializes its callers and never deadlocks
      ([queue_serializes], [queue_finishes]), so concurrent appends are one after
      the other ([concurrent_appends]).
    - Readers. Paging is complete ([ReadRecordsBounded_complete]), the indexed reads
      agree with the scan ([ReadSignals_exact], [ReadTarget_exact]) and the search by
      time finds the boundary ([SeekTS_spec]).
    - Authorization. A granted subscription shows only what single reads would
      ([subscription_sound]); commands need a grant that covers them
      ([ActCmd_needs_grant]); grants mean the same subtree at a parent and a child
      ([grant_same_subtree]); more grants never mean less ([Authorize_mono]);
      cursors are isolated between identities ([cursor_isolation]) up to the one
      entry that validation lets through ([ulid_c_owns_local_cursors]).
    - The topic language: parsing, filters, grants and mount rewriting are round
      trips and decide their specifications ([Parse_spec], [MatchFilter_spec],
      [FormatGrant_ParseGrant], [strip_insert_all], [CommandTarget_spec]).
    - Commands. None is passed over and none handed twice ([redelivery_no_loss],
      [redelivery_at_most_once]); a replay ends, in order and within its cap
      ([ReplayOwedCommands_spec]). Whatever the doors, a command with a correlation id is
      taken once ([command_once], over [ledger_once]), and its answer reaches who asked
      ([ledger_recipient]).
    - The doors. What a client or a person stores passed every check and is stored as
      published under their name ([client_door_sound], [human_door_sound]); a refusal
      changes nothing but the audit ([refused_changes_nothing]), in which denials are
      written or counted, never dropped ([audit_repeats_conserved]); and nothing is on
      the bus that is not in the store ([bus_is_durable]). The executor and the plugin's
      observer are arguments; they only have to write through the node ([env_ok]), which
      an executor of the node's own write operations does ([perform_ok]).
    - The registry. In every run the indexes in memory, the entries on disk and a registry
      loaded after a restart are the same, and no two identities share a key, a name or
      an element ([registry_runs]), so their cursors are isolated
      ([registered_isolated]); retiring a child takes what is the child's and nothing
      else ([retire_exact]).
    - Retention. A pass leaves no consumer behind unnoticed ([no_silent_loss]) and no
      command unanswered ([dropped_are_answered]), an owed refresh is given up only when
      it is complete ([refresh_completes]), and a valid policy bounds what it says it
      bounds ([retention_policy_sound], [keep_forever_spec]). What runs beside the pass is
      arbitrary as long as it appends and moves cursors forward ([Beside]), or retires
      entries and writes at the head ([Restated]).
    - Replication over the link. In every run with messages lost, delayed and repeated,
      failing writes, restarts and a parent put back to a backup, nothing the cursor
      passed is missing unnoticed ([uplink_no_loss]), records arrive in order and once
      ([uplink_in_order]), and one handshake repairs a restored parent
      ([uplink_repair]). A push cannot place a record outside its mount
      ([handleReplicate_confined]); batches and re-sync plans are exact
      ([fitReplicationBatch_largest], [planReplay_exact]). The backups of a run hold a
      mark of every stream the parent has one of: [judge_unmarked] shows what happens
      otherwise. The child's own store never goes back in a run; a push reads its
      cursor, its page and its mark in one step, and the epoch and the parent it names
      possibly earlier.

    ** Bounds and fuel

    [match_filter] runs with the length of the filter plus one: each step consumes a
    level of it, and [MatchFilter_spec] is stated of [MatchFilter] itself.
    [commit_appends] runs with the length of the group: each batch takes a request
    ([commitAppends_fuel]). [merge_oldest] runs with the length of the journal: each
    turn drops an entry. [evict_all] takes its fuel as an argument and
    [evict_all_ends] says how much is enough. [sig_rounds] and [read_all] run with
    one more than the offsets left to the head, since every round and every page
    moves past one; [seek_loop] with one more than the width of its interval, which
    every turn narrows; [replay_loop] with one more than the offsets to the head and
    [fit_search] with the length of the batch, which every turn shrinks; [take_runes] and
    [rune_count] with the length of the text, of which every rune takes a byte;
    [drop_pages] and [drop_loop] with one more than the offsets left, since a page that
    does not move ends them; the theorems are stated of these bounds. [refresh_loop]
    takes its fuel as an argument, since others may file new entries ahead of it;
    [refresh_completes] says how much is enough when they do not.

    ** Not modelled

    JSON bytes and payload validation; command execution ([exec_*.go]); the
    transports (MQTT broker hooks, HTTP handlers, the HTTP of the replication client
    and server with its limits, and the downlink stream), which call the operations
    modelled here; the pruner's pass over single signals and its timer; the historian,
    token verification, blob and secret stores, metrics, the other blocks of the
    configuration and process wiring. *)

From stdpp Require Export gmap strings list sorting.
From Stdlib Require Export ZArith Lia.
From Stdlib Require Import Ascii.

(** ** Notations *)

Declare Scope go_scope.
Delimit Scope go_scope with go.

(** Go's [==] on comparable values. *)
Notation "x == y" := (bool_decide (x = y)) (at level 70, no associativity) : go_scope.
Notation "x != y" := (negb (bool_decide (x = y))) (at level 70, no associativity) : go_scope.

(** A fallible Go function: a value, or the error it returned. *)
Inductive result (E A : Type) : Type :=
| Ok (a : A)
| Err (e : E).
Arguments Ok {E A} a.
Arguments Err {E A} e.

(** [x, err := c; if err != nil { return err }; k]. *)
Notation "'let!' x ':=' c 'in' k" :=
  (match c with Ok x => k | Err e => Err e end)
  (at level 10, x pattern, c at level 100, k at level 200, only parsing) : go_scope.

Definition is_ok {E A} (r : result E A) : bool :=
  match r with Ok _ => true | Err _ => false end.

(** ** Automation *)

Create HintDb go discriminated.

(** Splits boolean hypotheses and goals into their propositions. *)
Ltac bool_simp :=
  repeat match goal with
  | H : (_ && _)%bool = true |- _ => apply andb_true_iff in H as [? ?]
  | H : (_ || _)%bool = false |- _ => apply orb_false_iff in H as [? ?]
  | H : negb _ = true |- _ => apply negb_true_iff in H
  | H : negb _ = false |- _ => apply negb_false_iff in H
  | H : bool_decide _ = true |- _ => apply bool_decide_eq_true in H
  | H : bool_decide _ = false |- _ => apply bool_decide_eq_false in H
  end.

(** Rewrites the goal's tests with the hypotheses that decide them. *)
Ltac use_bools :=
  repeat match goal with
  | H : ?b = true |- context [?b] => rewrite H
  | H : ?b = false |- context [?b] => rewrite H
  | H : ~ ?P |- context [bool_decide ?P] => rewrite (bool_decide_eq_false_2 P H)
  end.

(** ** Go strings

    A Go string is a sequence of bytes, here a [string] of [ascii]. *)

Section strings.

Implicit Types (s t p : string) (c : ascii).

Definition len s : Z := Z.of_nat (String.length s).

(** [strings.CutPrefix]. *)
Fixpoint CutPrefix s p {struct p} : option string :=
  match p, s with
  | "", _ => Some s
  | String a p', String b s' => if (a == b)%go then CutPrefix s' p' else None
  | String _ _, "" => None
  end.

(** [strings.HasPrefix]. *)
Definition HasPrefix s p : bool :=
  match CutPrefix s p with Some _ => true | None => false end.

(** [strings.TrimPrefix]. *)
Definition TrimPrefix s p : string :=
  match CutPrefix s p with Some t => t | None => s end.

(** [strings.HasSuffix]. *)
Fixpoint HasSuffix s p : bool :=
  (s == p)%go || match s with "" => false | String _ s' => HasSuffix s' p end.

(** [strings.TrimSuffix]. *)
Fixpoint TrimSuffix s p : string :=
  if (s == p)%go then ""
  else match s with "" => "" | String c s' => String c (TrimSuffix s' p) end.

(** [strings.Contains]. *)
Fixpoint Contains s p : bool :=
  HasPrefix s p || match s with "" => false | String _ s' => Contains s' p end.

(** Whether the byte [c] occurs in [s] ([strings.IndexByte(s, c) >= 0]). *)
Fixpoint has_byte c s : bool :=
  match s with "" => false | String b s' => (b == c)%go || has_byte c s' end.

(** [strings.ContainsAny]. *)
Fixpoint ContainsAny s chars : bool :=
  match s with "" => false | String b s' => has_byte b chars || ContainsAny s' chars end.

(** [strings.Cut] at a one-byte separator: [None] when it does not occur. *)
Fixpoint Cut s c : option (string * string) :=
  match s with
  | "" => None
  | String b s' =>
      if (b == c)%go then Some ("", s')
      else match Cut s' c with
           | Some (before, after) => Some (String b before, after)
           | None => None
           end
  end.

(** Split at the last occurrence of [c]. *)
Fixpoint CutLast s c : option (string * string) :=
  match s with
  | "" => None
  | String b s' =>
      match CutLast s' c with
      | Some (before, after) => Some (String b before, after)
      | None => if (b == c)%go then Some ("", s') else None
      end
  end.

(** [strings.Split] at a one-byte separator. The result is never empty. *)
Fixpoint Split s c : list string :=
  match s with
  | "" => [""]
  | String b s' =>
      if (b == c)%go then "" :: Split s' c
      else match Split s' c with
           | [] => [String b ""]
           | h :: t => String b h :: t
           end
  end.

(** [strings.SplitN] at a one-byte separator, for a positive [n]: at most [n]
    pieces, the last one the unsplit rest. *)
Fixpoint SplitN s c (n : nat) : list string :=
  match n with
  | O => []
  | S O => [s]
  | S n' => match Cut s c with
            | Some (before, after) => before :: SplitN after c n'
            | None => [s]
            end
  end.

(** [strings.Join] with a one-byte separator. *)
Fixpoint Join (l : list string) c : string :=
  match l with
  | [] => ""
  | [s] => s
  | s :: l' => s +:+ String c (Join l' c)
  end.

(** [sort.Strings]. *)
Definition sort_strings (l : list string) : list string := merge_sort String.le l.

End strings.

Abbreviation slash := "/"%char.
Abbreviation comma := ","%char.
Abbreviation colon := ":"%char.

(** ** Lemmas on strings *)

Section string_lemmas.

Implicit Types (s t p : string) (c : ascii).

Lemma app_nil_l s : "" +:+ s = s.
Proof. done. Qed.

Lemma app_cons_l a s t : String a s +:+ t = String a (s +:+ t).
Proof. done. Qed.

Lemma app_nil_r_s s : s +:+ "" = s.
Proof. induction s as [|a s IH]; [done|]. by rewrite app_cons_l, IH. Qed.

Lemma app_assoc_s s t p : s +:+ (t +:+ p) = (s +:+ t) +:+ p.
Proof. induction s as [|a s IH]; [done|]. by rewrite !app_cons_l, IH. Qed.

Lemma app_cons_r s a t : s +:+ String a t = (s +:+ String a "") +:+ t.
Proof. by rewrite <- app_assoc_s. Qed.

Lemma length_app_s s t : String.length (s +:+ t) = String.length s + String.length t.
Proof. induction s as [|a s IH]; [done|]. rewrite app_cons_l. simpl. by rewrite IH. Qed.

Lemma has_byte_app c s t : has_byte c (s +:+ t) = has_byte c s || has_byte c t.
Proof.
  induction s as [|a s IH]; [done|]. rewrite app_cons_l. simpl. rewrite IH.
  by rewrite orb_assoc.
Qed.

Lemma CutPrefix_Some s p t : CutPrefix s p = Some t <-> s = p +:+ t.
Proof.
  revert s. induction p as [|a p IH]; intros s; simpl.
  { rewrite app_nil_l. naive_solver. }
  destruct s as [|b s]; [naive_solver|]. rewrite app_cons_l.
  case_bool_decide; [rewrite IH; naive_solver|naive_solver].
Qed.

Lemma HasPrefix_spec s p : HasPrefix s p = true <-> exists t, s = p +:+ t.
Proof.
  unfold HasPrefix. split.
  - destruct (CutPrefix s p) as [t|] eqn:E; [|done]. intros _.
    exists t. by apply CutPrefix_Some.
  - intros [t ->]. destruct (CutPrefix (p +:+ t) p) eqn:E; [done|].
    by rewrite (proj2 (CutPrefix_Some _ _ t) eq_refl) in E.
Qed.

Lemma HasPrefix_app p t : HasPrefix (p +:+ t) p = true.
Proof. apply HasPrefix_spec. by exists t. Qed.

Lemma TrimPrefix_app p t : TrimPrefix (p +:+ t) p = t.
Proof. unfold TrimPrefix. by rewrite (proj2 (CutPrefix_Some _ _ t) eq_refl). Qed.

Lemma Cut_Some s c before after :
  Cut s c = Some (before, after) <->
  s = before +:+ String c after /\ has_byte c before = false.
Proof.
  revert before. induction s as [|b s IH]; intros before; simpl.
  { split; [done|]. intros [H _]. by destruct before. }
  case_bool_decide as Hb.
  - subst. split; [by intros [= <- <-]|]. destruct before as [|d before].
    + rewrite app_nil_l. by intros [[= ->] _].
    + rewrite app_cons_l. simpl. intros [[= -> _] H].
      by rewrite bool_decide_eq_true_2 in H.
  - destruct (Cut s c) as [[x y]|] eqn:E.
    + split.
      * intros [= <- <-]. destruct (proj1 (IH x) eq_refl) as [-> Hx].
        rewrite app_cons_l. simpl. by rewrite Hx, bool_decide_eq_false_2.
      * intros [Hs Hn]. destruct before as [|d before]; [by injection Hs as -> _|].
        rewrite app_cons_l in Hs. injection Hs as <- Hs. simpl in Hn. bool_simp.
        by injection (proj2 (IH before) (conj Hs H0)) as -> ->.
    + split; [done|]. intros [Hs Hn]. destruct before as [|d before]; [by injection Hs as -> _|].
      rewrite app_cons_l in Hs. injection Hs as <- Hs. simpl in Hn. bool_simp.
      by specialize (proj2 (IH before) (conj Hs H0)).
Qed.

Lemma Cut_None s c : Cut s c = None <-> has_byte c s = false.
Proof.
  induction s as [|b s IH]; simpl; [done|].
  case_bool_decide; simpl; [done|].
  destruct (Cut s c) as [[]|]; [|by rewrite <- IH].
  split; [done|]. intros H'. by apply IH in H'.
Qed.

Lemma CutLast_Some s c before after :
  CutLast s c = Some (before, after) <->
  s = before +:+ String c after /\ has_byte c after = false.
Proof.
  assert (HN : forall s, CutLast s c = None <-> has_byte c s = false).
  { clear. induction s as [|b s IH]; simpl; [done|].
    destruct (CutLast s c) as [[]|]; case_bool_decide; simpl; naive_solver. }
  revert before after. induction s as [|b s IH]; intros before after; simpl.
  { split; [done|]. intros [H _]. by destruct before. }
  destruct (CutLast s c) as [[x y]|] eqn:E.
  - destruct (proj1 (IH x y) eq_refl) as [-> Hy]. split.
    + by intros [= <- <-].
    + intros [Hs Ha]. destruct before as [|d before].
      * injection Hs as -> <-. rewrite has_byte_app in Ha. simpl in Ha.
        rewrite bool_decide_eq_true_2 in Ha by done. by rewrite orb_true_r in Ha.
      * rewrite app_cons_l in Hs. injection Hs as <- Hs.
        by injection (proj2 (IH before after) (conj Hs Ha)) as -> ->.
  - apply HN in E. case_bool_decide as Hb; split.
    + intros [= <- <-]. by subst.
    + intros [Hs Ha]. destruct before as [|d before]; [by injection Hs as <- ->|].
      rewrite app_cons_l in Hs. injection Hs as <- ->.
      rewrite has_byte_app in E. simpl in E.
      rewrite bool_decide_eq_true_2 in E by done. by rewrite orb_true_r in E.
    + done.
    + intros [Hs Ha]. destruct before as [|d before]; [by injection Hs as ->|].
      rewrite app_cons_l in Hs. injection Hs as <- ->.
      rewrite has_byte_app in E. simpl in E.
      rewrite bool_decide_eq_true_2 in E by done. by rewrite orb_true_r in E.
Qed.

Lemma Split_not_nil s c : Split s c <> [].
Proof. destruct s as [|b s]; [done|]. simpl. case_bool_decide; [done|]. by destruct (Split s c). Qed.

Lemma Split_cons_inv s c : exists h l, Split s c = h :: l.
Proof. pose proof (Split_not_nil s c). destruct (Split s c); naive_solver. Qed.

(** A string without the separator is one piece. *)
Lemma Split_single s c : has_byte c s = false -> Split s c = [s].
Proof.
  induction s as [|b s IH]; simpl; [done|]. intros H. bool_simp.
  rewrite bool_decide_eq_false_2 by done. by rewrite IH.
Qed.

Lemma Split_app_sep s t c : has_byte c s = false -> Split (s +:+ String c t) c = s :: Split t c.
Proof.
  induction s as [|b s IH]; simpl; intros H.
  - rewrite ?app_nil_l. simpl. by rewrite bool_decide_eq_true_2.
  - bool_simp. rewrite ?app_cons_l. simpl. rewrite bool_decide_eq_false_2 by done.
    by rewrite IH.
Qed.

(** Joining a prefix and a suffix at a separator concatenates their pieces. *)
Lemma Split_app s t c : Split (s +:+ String c t) c = Split s c ++ Split t c.
Proof.
  induction s as [|b s IH]; simpl.
  - rewrite ?app_nil_l. simpl. by rewrite bool_decide_eq_true_2.
  - rewrite ?app_cons_l. simpl. case_bool_decide; [by rewrite IH|].
    rewrite IH. destruct (Split_cons_inv s c) as (h & l & ->). done.
Qed.

Lemma Split_Cut s c :
  Split s c = match Cut s c with
              | Some (before, after) => before :: Split after c
              | None => [s]
              end.
Proof.
  destruct (Cut s c) as [[x y]|] eqn:E.
  - apply Cut_Some in E as [-> H]. by apply Split_app_sep.
  - by apply Split_single, Cut_None.
Qed.

(** No piece contains the separator. *)
Lemma Split_no_sep s c : Forall (fun x => has_byte c x = false) (Split s c).
Proof.
  induction s as [|b s IH]; simpl; [by repeat constructor|].
  case_bool_decide as Hb; [by constructor|].
  destruct (Split_cons_inv s c) as (h & l & E). rewrite E in *.
  inversion IH; subst. constructor; [|done]. simpl. by rewrite bool_decide_eq_false_2.
Qed.

Lemma Join_cons x l c : l <> [] -> Join (x :: l) c = x +:+ String c (Join l c).
Proof. by destruct l. Qed.

Lemma Join_Split s c : Join (Split s c) c = s.
Proof.
  induction s as [|b s IH]; [done|]. simpl. case_bool_decide as Hb.
  - rewrite Join_cons by apply Split_not_nil. by rewrite IH, Hb.
  - destruct (Split_cons_inv s c) as (h & l & E). rewrite E in *.
    destruct l as [|h' l]; simpl in *; [by rewrite IH|].
    by rewrite app_cons_l, IH.
Qed.

Lemma Split_Join l c :
  l <> [] -> Forall (fun x => has_byte c x = false) l -> Split (Join l c) c = l.
Proof.
  intros Hl H. induction H as [|x l Hx H IH]; [done|].
  destruct l as [|y l]; [by apply Split_single|].
  rewrite Join_cons by done. rewrite Split_app_sep by done. by rewrite IH.
Qed.

Lemma Split_inj s t c : Split s c = Split t c -> s = t.
Proof. intros H. by rewrite <- (Join_Split s c), <- (Join_Split t c), H. Qed.

Lemma Join_app l1 l2 c : l1 <> [] -> l2 <> [] ->
  Join (l1 ++ l2) c = Join l1 c +:+ String c (Join l2 c).
Proof.
  intros H1 H2. induction l1 as [|x l1 IH]; [done|]. destruct l1 as [|y l1].
  - simpl. by destruct l2.
  - change ((x :: y :: l1) ++ l2) with (x :: (y :: l1) ++ l2).
    rewrite !Join_cons by done. rewrite IH by done.
    by rewrite <- app_assoc_s, app_cons_l.
Qed.

(** [SplitN] is [Split] with everything past piece [n - 1] joined again. *)
Lemma SplitN_Split s c n :
  SplitN s c (S n) =
  if bool_decide (length (Split s c) <= n) then Split s c
  else take n (Split s c) ++ [Join (drop n (Split s c)) c].
Proof.
  revert s. induction n as [|n IH]; intros s.
  - rewrite bool_decide_eq_false_2.
    + simpl. by rewrite drop_0, Join_Split.
    + destruct (Split_cons_inv s c) as (h & t & ->). simpl. lia.
  - cbn [SplitN]. rewrite (Split_Cut s c).
    destruct (Cut s c) as [[x y]|] eqn:E.
    + change (match n with 0 => [y] | S _ => match Cut y c with
        | Some (before, after) => before :: SplitN after c n | None => [y] end end)
        with (SplitN y c (S n)).
      rewrite IH. simpl. repeat case_bool_decide; [done|lia|lia|done].
    + by rewrite bool_decide_eq_true_2 by (simpl; lia).
Qed.

(** Extending a path by a separator and more is appending pieces. *)
Lemma Split_HasPrefix_sep s p c :
  HasPrefix s (p +:+ String c "") = true <->
  exists l, l <> [] /\ Split s c = Split p c ++ l.
Proof.
  rewrite HasPrefix_spec. split.
  - intros [t ->]. exists (Split t c). split; [apply Split_not_nil|].
    rewrite <- app_assoc_s. apply Split_app.
  - intros (l & Hl & H). exists (Join l c). rewrite <- app_assoc_s, app_cons_l, app_nil_l.
    rewrite <- (Join_Split s c), H, Join_app; [|apply Split_not_nil|done].
    by rewrite Join_Split.
Qed.

Lemma ContainsAny_has_byte s b chars :
  ContainsAny s chars = false -> has_byte b chars = true -> has_byte b s = false.
Proof.
  induction s as [|a s IH]; simpl; [done|]. intros H Hb. bool_simp.
  rewrite IH by done. destruct (bool_decide_reflect (a = b)); [congruence|done].
Qed.

Lemma ContainsAny_false s chars :
  (forall b, has_byte b chars = true -> has_byte b s = false) -> ContainsAny s chars = false.
Proof.
  induction s as [|a s IH]; simpl; [done|]. intros H.
  apply orb_false_iff. split.
  - destruct (has_byte a chars) eqn:E; [|done]. apply H in E. simpl in E.
    by rewrite bool_decide_eq_true_2 in E.
  - apply IH. intros b Hb. specialize (H b Hb). simpl in H. by bool_simp.
Qed.

Lemma has_byte_Join c d l :
  c <> d -> Forall (fun x => has_byte c x = false) l -> has_byte c (Join l d) = false.
Proof.
  intros Hcd H. induction H as [|x l Hx H IH]; [done|].
  destruct l as [|y l]; [done|]. rewrite Join_cons by done.
  rewrite has_byte_app. cbn [has_byte]. rewrite Hx, IH.
  by rewrite bool_decide_eq_false_2.
Qed.

Lemma TrimSuffix_app s p : TrimSuffix (s +:+ p) p = s.
Proof.
  induction s as [|a s IH].
  - rewrite app_nil_l. destruct p; cbn [TrimSuffix]; by rewrite bool_decide_eq_true_2.
  - rewrite app_cons_l. cbn [TrimSuffix]. rewrite bool_decide_eq_false_2; [by rewrite IH|].
    intros H. apply (f_equal String.length) in H. simpl in H. rewrite length_app_s in H. lia.
Qed.

Lemma SplitN_sep s t c n :
  has_byte c s = false -> SplitN (s +:+ String c t) c (S (S n)) = s :: SplitN t c (S n).
Proof. intros H. cbn [SplitN]. by rewrite (proj2 (Cut_Some _ _ s t) (conj eq_refl H)). Qed.

Lemma SplitN_none s c n : has_byte c s = false -> SplitN s c (S n) = [s].
Proof. intros H. destruct n; [done|]. cbn [SplitN]. by rewrite (proj2 (Cut_None s c) H). Qed.

End string_lemmas.

#[global] Arguments CutPrefix : simpl never.
#[global] Arguments SplitN : simpl never.

#[export] Hint Resolve Split_not_nil Split_no_sep : go.

(** ** Sorted strings *)

Lemma sort_strings_perm l : sort_strings l ≡ₚ l.
Proof. apply merge_sort_Permutation. Qed.

Lemma sort_strings_sorted l : Sorted String.le (sort_strings l).
Proof. apply Sorted_merge_sort, _. Qed.

Lemma sort_strings_id l : Sorted String.le l -> sort_strings l = l.
Proof.
  intros H. eapply (Sorted_unique String.le); [apply sort_strings_sorted|done|].
  apply sort_strings_perm.
Qed.

Lemma sort_strings_nil l : sort_strings l = [] <-> l = [].
Proof.
  split; [|by intros ->]. intros H. apply Permutation_nil_r. by rewrite <- H, sort_strings_perm.
Qed.

(** ** Lists *)

Lemma omap_cons {A B} (f : A -> option B) x (l : list A) :
  omap f (x :: l) = match f x with Some y => y :: omap f l | None => omap f l end.
Proof. done. Qed.
