(* ===== verification/GroupQueue.v ===== *)
(** * The group commit queue ([internal/store/groupcommit.go])

    Concurrent callers of [groupQueue.run] as a step relation: one caller per
    request, one step per section under [q.mu], per channel operation, per write of
    a request's [finished] and per commit. A channel of capacity one is a bit, full
    or empty, and a send to a full one blocks. The theorems: the queue commits every
    request once and in arrival order, answers a caller only after the commit that
    holds its request, never runs two commits at a time, never blocks for good and
    ends after a bounded number of steps. *)

From S2P Require Export Prelude.
From stdpp Require Import functions relations.

Open Scope list_scope.

Definition maxGroupRecords : nat := 4096.

Section queue.
Context {R : Type} `{EqDecision R}.
(** [records] of a [groupMember]. *)
Context (records : R -> nat).
(** The state [commit] writes, results of requests included. *)
Context {S : Type} (commit : list R -> S -> S).

(** ** Operations *)

(** [takeGroup]'s loop: the first [n] requests, [taken] records of them so far. *)
Fixpoint take_loop (n taken : nat) (pending : list R) : list R * list R :=
  match pending with
  | [] => ([], [])
  | r :: rest =>
      if bool_decide (n = 0) || bool_decide (taken + records r <= maxGroupRecords)
      then let '(group, rest) := take_loop (1 + n) (taken + records r) rest in (r :: group, rest)
      else ([], pending)
  end.

Definition takeGroup (pending : list R) : list R * list R := take_loop 0 0 pending.

(** Where a caller is in [run]. *)
Inductive PC :=
| Idle                          (* has not called yet *)
| Counted                       (* its records are in [queued] *)
| Waiting                       (* blocked on its wake channel *)
| Leading                       (* about to take a group *)
| Committing (group : list R)   (* about to commit it *)
| Marking (todo group : list R) (* setting [finished] of what is left *)
| Waking (todo : list R)        (* leadership is handed on; wakes what is left *)
| Leaving                       (* about to leave [queued] *)
| Returned.

(** The queue, the waiters' [finished] and [wake], the callers, what the commits
    wrote. [arrived] and [commits] are history: requests in the order they entered
    [pending], and groups in the order they were committed. *)
Record Queue := mkQueue {
  pending : list R;
  leading : bool;
  queued : nat;
  finished : R -> bool;
  wake : R -> bool;
  pcs : R -> PC;
  written : S;
  arrived : list R;
  commits : list (list R);
}.

Definition newQueue (s : S) : Queue :=
  mkQueue [] false 0 (fun _ => false) (fun _ => false) (fun _ => Idle) s [] [].

Definition goto (r : R) (pc : PC) (q : Queue) : Queue :=
  mkQueue (pending q) (leading q) (queued q) (finished q) (wake q) (<[r := pc]> (pcs q)) (written q) (arrived q) (commits q).

Definition add_queued (n : nat) (q : Queue) : Queue :=
  mkQueue (pending q) (leading q) (queued q + n) (finished q) (wake q) (pcs q) (written q) (arrived q) (commits q).

Definition sub_queued (n : nat) (q : Queue) : Queue :=
  mkQueue (pending q) (leading q) (queued q - n) (finished q) (wake q) (pcs q) (written q) (arrived q) (commits q).

Definition enqueue (r : R) (q : Queue) : Queue :=
  mkQueue (pending q ++ [r]) true (queued q) (finished q) (wake q) (pcs q) (written q) (arrived q ++ [r]) (commits q).

Definition set_pending (rest : list R) (q : Queue) : Queue :=
  mkQueue rest (leading q) (queued q) (finished q) (wake q) (pcs q) (written q) (arrived q) (commits q).

Definition set_leading (b : bool) (q : Queue) : Queue :=
  mkQueue (pending q) b (queued q) (finished q) (wake q) (pcs q) (written q) (arrived q) (commits q).

Definition set_finished (r : R) (q : Queue) : Queue :=
  mkQueue (pending q) (leading q) (queued q) (<[r := true]> (finished q)) (wake q) (pcs q) (written q) (arrived q) (commits q).

Definition set_wake (r : R) (b : bool) (q : Queue) : Queue :=
  mkQueue (pending q) (leading q) (queued q) (finished q) (<[r := b]> (wake q)) (pcs q) (written q) (arrived q) (commits q).

Definition do_commit (group : list R) (q : Queue) : Queue :=
  mkQueue (pending q) (leading q) (queued q) (finished q) (wake q) (pcs q) (commit group (written q)) (arrived q)
    (commits q ++ [group]).

(** The next step of caller [r], if it is not blocked: [run], one step at a time. *)
Definition run_step (r : R) (q : Queue) : option Queue :=
  match pcs q r with
  | Idle => Some (goto r Counted (add_queued (records r) q))
  | Counted =>
      let lead := negb (leading q) in
      Some (goto r (if lead then Leading else Waiting) (enqueue r q))
  | Waiting =>
      if wake q r
      then Some (goto r (if finished q r then Leaving else Leading) (set_wake r false q))
      else None
  | Leading =>
      let '(group, rest) := takeGroup (pending q) in
      Some (goto r (Committing group) (set_pending rest q))
  | Committing group => Some (goto r (Marking group group) (do_commit group q))
  | Marking (r' :: todo) group => Some (goto r (Marking todo group) (set_finished r' q))
  | Marking [] group =>
      match pending q with
      | p :: _ => if wake q p then None else Some (goto r (Waking group) (set_wake p true q))
      | [] => Some (goto r (Waking group) (set_leading false q))
      end
  | Waking (r' :: todo) =>
      if bool_decide (r' = r) then Some (goto r (Waking todo) q)
      else if wake q r' then None else Some (goto r (Waking todo) (set_wake r' true q))
  | Waking [] => Some (goto r Leaving q)
  | Leaving => Some (goto r Returned (sub_queued (records r) q))
  | Returned => None
  end.

(** ** Runs *)

Context (callers : list R).

Definition step (q q' : Queue) : Prop := exists r, r ∈ callers /\ run_step r q = Some q'.

(** The groups committed so far, in order. *)
Definition committed (q : Queue) : list R := concat (commits q).

(** A caller that leads, and the group it has taken and not committed. *)
Definition leads (pc : PC) : bool := match pc with Leading | Committing _ | Marking _ _ => true | _ => false end.
Definition inflight (pc : PC) : list R := match pc with Committing group => group | _ => [] end.
(** The requests a caller still has to mark finished, and those it still has to wake. *)
Definition unmarked (pc : PC) : list R := match pc with Marking todo _ => todo | _ => [] end.
Definition owed (pc : PC) : list R :=
  match pc with Committing group | Marking _ group => group | Waking todo => todo | _ => [] end.
Definition entered (pc : PC) : bool := match pc with Idle | Counted => false | _ => true end.
Definition counts (pc : PC) : bool := match pc with Idle | Returned => false | _ => true end.
Definition answered (pc : PC) : bool := match pc with Waking _ | Leaving | Returned => true | _ => false end.

Definition in_flight (pcs : R -> PC) (r : R) : nat := if counts (pcs r) then records r else 0.

(** The request whose caller leads or has been handed leadership. *)
Definition holds_baton (q : Queue) (l : R) : Prop :=
  match pcs q l with
  | Leading => head (pending q) = Some l
  | Committing group => head group = Some l
  | Marking _ group => l ∈ group
  | Waiting => wake q l = true /\ finished q l = false /\ head (pending q) = Some l
  | _ => False
  end.

Definition baton_ok (q : Queue) (baton : option R) : Prop :=
  leading q = bool_decide (is_Some baton)
  /\ (forall l, baton = Some l -> holds_baton q l)
  /\ (forall r, baton <> Some r -> leads (pcs q r) = false /\ (wake q r = true -> finished q r = true))
  /\ (baton = None -> pending q = []).

Record QInv (q : Queue) (baton : option R) : Prop := {
  q_callers : arrived q ⊆ callers;
  q_nodup : NoDup (arrived q);
  q_order : arrived q = committed q ++ from_option (fun l => inflight (pcs q l)) [] baton ++ pending q;
  q_entered : forall r, entered (pcs q r) = true <-> r ∈ arrived q;
  q_baton : baton_ok q baton;
  q_finished : forall r, finished q r = true <-> r ∈ committed q /\ forall l, r ∉ unmarked (pcs q l);
  q_marking : forall l todo group, pcs q l = Marking todo group -> NoDup todo /\ todo ⊆ group /\ group ⊆ committed q;
  q_waking : forall l todo, pcs q l = Waking todo -> todo ⊆ committed q;
  q_owed : forall l r, r ∈ owed (pcs q l) -> r <> l -> pcs q r = Waiting /\ wake q r = false;
  q_owed_once : forall l, NoDup (owed (pcs q l));
  q_owner : forall l1 l2 r, r ∈ owed (pcs q l1) -> r ∈ owed (pcs q l2) -> l1 = l2;
  q_waiting : forall r, pcs q r = Waiting -> wake q r = true \/ r ∈ pending q \/ exists l, l <> r /\ r ∈ owed (pcs q l);
  q_wake : forall r, wake q r = true -> pcs q r = Waiting;
  q_answered : forall r, answered (pcs q r) = true -> finished q r = true;
  q_queued : queued q = sum_list (in_flight (pcs q) <$> callers);
}.

(** ** [takeGroup] *)

Lemma take_loop_app n taken p : let '(group, rest) := take_loop n taken p in p = group ++ rest.
Proof.
  revert n taken; induction p as [|r p IH]; intros n taken; simpl; [done|].
  destruct (_ || _); [|done]. specialize (IH (1 + n) (taken + records r)).
  destruct (take_loop _ _ p). simpl. by rewrite IH.
Qed.

Lemma take_loop_bound n taken p : n <> 0 -> taken <= maxGroupRecords ->
  let '(group, rest) := take_loop n taken p in
  taken + sum_list (records <$> group) <= maxGroupRecords
  /\ forall r, head rest = Some r -> maxGroupRecords < taken + sum_list (records <$> group) + records r.
Proof.
  revert n taken; induction p as [|r p IH]; intros n taken Hn Ht; cbn [take_loop]; [simpl; split; [lia|done]|].
  rewrite (bool_decide_eq_false_2 (n = 0)) by done. simpl orb. case_bool_decide as E.
  - specialize (IH (1 + n) (taken + records r)). destruct (take_loop _ _ p) as [group rest].
    destruct IH as [I1 I2]; [lia|done|]. cbn [fmap list_fmap sum_list]. simpl in *. split; [lia|].
    intros r' Hr'. specialize (I2 r' Hr'). lia.
  - simpl. split; [lia|]. intros r' [= <-]. lia.
Qed.

Lemma takeGroup_head r p : exists group, fst (takeGroup (r :: p)) = r :: group.
Proof. unfold takeGroup; simpl. destruct (take_loop _ _ p) as [group rest]. by exists group. Qed.

(** ** The invariant *)

(** Case split on every request a step may have updated. *)
Ltac upd := repeat match goal with
  | |- context [<[?r := _]> _ ?x] =>
      destruct (decide (x = r)) as [->|]; [rewrite ?fn_lookup_insert in * | rewrite ?(fn_lookup_insert_ne _ r x) in * by congruence]
  | H : context [<[?r := _]> _ ?x] |- _ =>
      destruct (decide (x = r)) as [->|]; [rewrite ?fn_lookup_insert in * | rewrite ?(fn_lookup_insert_ne _ r x) in * by congruence]
  end.

Lemma sum_in_flight (cs : list R) pcs r pc : NoDup cs -> r ∈ cs ->
  sum_list (in_flight (<[r := pc]> pcs) <$> cs) + in_flight pcs r
  = sum_list (in_flight pcs <$> cs) + (if counts pc then records r else 0).
Proof.
  assert (Hi : forall x, in_flight (<[r := pc]> pcs) x = if decide (x = r) then (if counts pc then records r else 0) else in_flight pcs x).
  { intros x. unfold in_flight. case_decide as E; [subst; by rewrite fn_lookup_insert|by rewrite fn_lookup_insert_ne by done]. }
  assert (Hn : forall cs, r ∉ cs -> in_flight (<[r := pc]> pcs) <$> cs =@{list nat} in_flight pcs <$> cs).
  { intros l Hl. apply list_fmap_ext. intros i x Hx. rewrite Hi, decide_False; [done|].
    intros ->. by apply Hl, list_elem_of_lookup_2 with i. }
  induction cs as [|c cs IH]; intros Hnd Hin; [by apply elem_of_nil in Hin|].
  apply NoDup_cons in Hnd as [Hc Hnd]. rewrite !fmap_cons. cbn [sum_list_with]. rewrite Hi.
  destruct (decide (c = r)) as [E|E].
  { subst c. rewrite Hn by done. unfold id. lia. }
  apply elem_of_cons in Hin as [->|Hin]; [done|].
  specialize (IH Hnd Hin). unfold id in *. lia.
Qed.


(** What a step that only moves one caller leaves to show: its own case, the others
    being as before. *)
Ltac queue_simpl := unfold goto, add_queued, sub_queued, enqueue, set_pending, set_leading, set_finished, set_wake, do_commit, committed in *;
  cbn [pending leading queued finished wake pcs written arrived commits] in *.

Lemma baton_of q b r : QInv q b -> b = Some r -> holds_baton q r.
Proof. intros HI. apply (q_baton _ _ HI). Qed.

Lemma not_baton q b r : QInv q b -> leads (pcs q r) = false -> pcs q r <> Waiting -> b <> Some r.
Proof.
  intros HI H1 H2 E. pose proof (baton_of _ _ _ HI E) as Hb. unfold holds_baton in Hb. by destruct (pcs q r).
Qed.

(** A caller that moves between two points with the same part in the queue. *)
Definition same_part (pc pc' : PC) : Prop :=
  leads pc = false /\ leads pc' = false /\ pc <> Waiting /\ pc' <> Waiting
  /\ owed pc = [] /\ owed pc' = [] /\ entered pc = entered pc' /\ (answered pc' = true -> answered pc = true).

Lemma not_leads_parts pc : leads pc = false -> inflight pc = [] /\ unmarked pc = [].
Proof. by destruct pc. Qed.

Lemma inv_move q b r pc' n : NoDup callers -> r ∈ callers -> QInv q b -> same_part (pcs q r) pc' ->
  n + in_flight (pcs q) r = queued q + (if counts pc' then records r else 0) ->
  QInv (goto r pc' (mkQueue (pending q) (leading q) n (finished q) (wake q) (pcs q) (written q) (arrived q) (commits q))) b.
Proof.
  intros Hnd Hr HI (L & L' & W & W' & O & O' & En & An) Hn.
  pose proof (not_baton _ _ _ HI L W) as Hb.
  destruct (not_leads_parts _ L) as [Il Ul], (not_leads_parts _ L') as [Il' Ul'].
  assert (V : forall x, owed (<[r := pc']> (pcs q) x) = owed (pcs q x)) by (intros x; upd; congruence).
  assert (U : forall x, unmarked (<[r := pc']> (pcs q) x) = unmarked (pcs q x)) by (intros x; upd; congruence).
  assert (WW : forall x, <[r := pc']> (pcs q) x = Waiting <-> pcs q x = Waiting) by (intros x; upd; naive_solver).
  constructor; queue_simpl; try apply HI.
  - rewrite (q_order _ _ HI). destruct b as [l|]; [|done]; simpl. by rewrite fn_lookup_insert_ne by congruence.
  - intros x. rewrite <- (q_entered _ _ HI). upd; [by rewrite En|done].
  - destruct (q_baton _ _ HI) as (B1 & B2 & B3 & B4). split_and!; try done; unfold holds_baton in *; queue_simpl.
    + intros l ->. specialize (B2 l eq_refl). by rewrite fn_lookup_insert_ne by congruence.
    + intros x Hx. specialize (B3 x Hx). upd; naive_solver.
  - intros x. setoid_rewrite U. apply HI.
  - intros l todo group E. upd; [by subst|]. by apply (q_marking _ _ HI l).
  - intros l todo E. upd; [subst; simpl in O'; subst; apply list_subseteq_nil|]. by apply (q_waking _ _ HI l).
  - intros l x. rewrite V, WW. apply HI.
  - intros l. rewrite V. apply HI.
  - intros l1 l2 x. rewrite !V. apply HI.
  - intros x. rewrite WW. setoid_rewrite V. apply HI.
  - intros x. rewrite WW. apply HI.
  - intros x Hx. apply (q_answered _ _ HI). upd; auto.
  - pose proof (sum_in_flight callers (pcs q) r pc' Hnd Hr) as E. rewrite (q_queued _ _ HI) in Hn. lia.
Qed.

Lemma committed_arrived q b r : QInv q b -> r ∈ committed q -> r ∈ arrived q.
Proof. intros HI Hr. rewrite (q_order _ _ HI), elem_of_app. by left. Qed.

Lemma finished_false q b r : QInv q b -> r ∉ committed q -> finished q r = false.
Proof. intros HI Hr. apply not_true_is_false. rewrite (q_finished _ _ HI). naive_solver. Qed.

Lemma wake_false q b r : QInv q b -> pcs q r <> Waiting -> wake q r = false.
Proof. intros HI Hr. apply not_true_is_false. intros Hw. by apply (q_wake _ _ HI) in Hw. Qed.

Lemma owed_not q b l r : QInv q b -> r ∈ owed (pcs q l) -> r <> l -> pcs q r <> Waiting -> False.
Proof. intros HI H1 H2 H3. by destruct (q_owed _ _ HI l r H1 H2). Qed.

Lemma inv_enqueue q b r : NoDup callers -> r ∈ callers -> QInv q b -> pcs q r = Counted ->
  QInv (goto r (if negb (leading q) then Leading else Waiting) (enqueue r q)) (if leading q then b else Some r).
Proof.
  intros Hnd Hr HI Hpc. set (pc' := if negb (leading q) then Leading else Waiting).
  assert (P' : owed pc' = [] /\ inflight pc' = [] /\ unmarked pc' = [] /\ entered pc' = true /\ counts pc' = true /\ answered pc' = false)
    by (unfold pc'; by destruct (leading q)). destruct P' as (PO & PI & PU & PE & PC' & PA).
  assert (Hna : r ∉ arrived q) by (rewrite <- (q_entered _ _ HI), Hpc; done).
  assert (Hbr : b <> Some r) by (apply (not_baton _ _ _ HI); by rewrite Hpc).
  assert (Hw : wake q r = false) by (apply (wake_false _ _ _ HI); by rewrite Hpc).
  assert (V : forall x, owed (<[r := pc']> (pcs q) x) = owed (pcs q x)) by (intros x; upd; rewrite ?Hpc; done).
  assert (U : forall x, unmarked (<[r := pc']> (pcs q) x) = unmarked (pcs q x)) by (intros x; upd; rewrite ?Hpc; done).
  destruct (q_baton _ _ HI) as (B1 & B2 & B3 & B4).
  constructor; queue_simpl; try apply HI.
  - apply list_subseteq_app_iff_l. split; [apply HI|]. intros x ->%list_elem_of_singleton. done.
  - apply NoDup_app. split_and!; [apply HI| |apply NoDup_singleton]. intros x Hx ->%list_elem_of_singleton. done.
  - rewrite (q_order _ _ HI), <- !app_assoc. do 2 f_equal. destruct b as [l|]; simpl.
    + rewrite bool_decide_eq_true_2 in B1 by done. rewrite B1; simpl. by rewrite fn_lookup_insert_ne by congruence.
    + rewrite bool_decide_eq_false_2 in B1 by (by intros []). rewrite B1; simpl. rewrite fn_lookup_insert. by rewrite PI.
  - intros x. rewrite elem_of_app, list_elem_of_singleton, <- (q_entered _ _ HI). upd; [naive_solver|]. naive_solver.
  - unfold baton_ok, holds_baton; queue_simpl. destruct (leading q) eqn:Hl; split_and!.
    + done.
    + intros l ->. specialize (B2 l eq_refl). unfold holds_baton in B2. rewrite fn_lookup_insert_ne by congruence.
      destruct (pcs q l); try done; destruct (pending q); naive_solver.
    + intros x Hx. specialize (B3 x Hx). upd; [|done]. split; [done|congruence].
    + intros ->. done.
    + by rewrite bool_decide_eq_true_2.
    + intros l [= <-]. rewrite fn_lookup_insert. unfold pc'; simpl. rewrite B4; [done|].
      destruct b; [|done]. by rewrite bool_decide_eq_true_2 in B1.
    + intros x Hx. rewrite fn_lookup_insert_ne by congruence. apply B3.
      intros ->. by rewrite bool_decide_eq_true_2 in B1.
    + done.
  - intros x. setoid_rewrite U. apply HI.
  - intros l todo group E. upd; [by rewrite E in PI, PU, PO; simpl in *; subst; split_and!; [apply NoDup_nil_2|apply list_subseteq_nil..]|]. by apply (q_marking _ _ HI l).
  - intros l todo E. upd; [by rewrite E in PA|]. by apply (q_waking _ _ HI l).
  - intros l x. rewrite V. intros H1 H2. destruct (q_owed _ _ HI l x H1 H2). upd; [congruence|done].
  - intros l. rewrite V. apply HI.
  - intros l1 l2 x. rewrite !V. apply HI.
  - intros x. setoid_rewrite V. rewrite elem_of_app, list_elem_of_singleton. upd; [naive_solver|].
    intros Hx. destruct (q_waiting _ _ HI x Hx) as [|[]]; naive_solver.
  - intros x Hx. upd; [congruence|]. by apply (q_wake _ _ HI).
  - intros x Hx. apply (q_answered _ _ HI). upd; [congruence|done].
  - pose proof (sum_in_flight callers (pcs q) r pc' Hnd Hr) as E. unfold in_flight in E at 2. rewrite Hpc, PC' in E. simpl in E.
    rewrite (q_queued _ _ HI). lia.
Qed.

Lemma inv_wake q b r : NoDup callers -> r ∈ callers -> QInv q b -> pcs q r = Waiting -> wake q r = true ->
  QInv (goto r (if finished q r then Leaving else Leading) (set_wake r false q)) b.
Proof.
  intros Hnd Hr HI Hpc Hwk. set (pc' := if finished q r then Leaving else Leading).
  assert (P' : owed pc' = [] /\ inflight pc' = [] /\ unmarked pc' = [] /\ entered pc' = true /\ counts pc' = true
               /\ (answered pc' = true -> finished q r = true) /\ pc' <> Waiting)
    by (unfold pc'; by destruct (finished q r)). destruct P' as (PO & PI & PU & PE & PC' & PA & PW).
  assert (V : forall x, owed (<[r := pc']> (pcs q) x) = owed (pcs q x)) by (intros x; upd; rewrite ?Hpc; done).
  assert (U : forall x, unmarked (<[r := pc']> (pcs q) x) = unmarked (pcs q x)) by (intros x; upd; rewrite ?Hpc; done).
  assert (Ow : forall l, r ∈ owed (pcs q l) -> False).
  { intros l Hl. destruct (decide (r = l)) as [->|Hne]; [by rewrite Hpc in Hl; apply elem_of_nil in Hl|].
    destruct (q_owed _ _ HI l r Hl Hne). congruence. }
  destruct (q_baton _ _ HI) as (B1 & B2 & B3 & B4).
  constructor; queue_simpl; try apply HI.
  - rewrite (q_order _ _ HI). destruct b as [l|]; [|done]; simpl. upd; [by rewrite Hpc, PI|done].
  - intros x. rewrite <- (q_entered _ _ HI). upd; [by rewrite Hpc, PE|done].
  - unfold baton_ok, holds_baton; queue_simpl. split_and!; try done.
    + intros l ->. specialize (B2 l eq_refl). unfold holds_baton in B2. upd; [|by destruct (pcs q l)].
      rewrite Hpc in B2. destruct B2 as (_ & Hf & Hh). unfold pc'. by rewrite Hf.
    + intros x Hx. specialize (B3 x Hx). upd; [|done]. destruct B3 as [_ B3]. unfold pc'. by rewrite B3.
  - intros x. setoid_rewrite U. apply HI.
  - intros l todo group E. upd; [unfold pc' in E; by destruct (finished q r)|]. by apply (q_marking _ _ HI l).
  - intros l todo E. upd; [unfold pc' in E; by destruct (finished q r)|]. by apply (q_waking _ _ HI l).
  - intros l x. rewrite V. intros H1 H2. destruct (q_owed _ _ HI l x H1 H2). upd; [by destruct (Ow l)|done].
  - intros l. rewrite V. apply HI.
  - intros l1 l2 x. rewrite !V. apply HI.
  - intros x. setoid_rewrite V. upd; [done|]. apply HI.
  - intros x Hx. upd; [done|]. by apply (q_wake _ _ HI).
  - intros x Hx. upd; [auto|]. by apply (q_answered _ _ HI).
  - pose proof (sum_in_flight callers (pcs q) r pc' Hnd Hr) as E. unfold in_flight in E at 2. rewrite Hpc, PC' in E. simpl in E.
    rewrite (q_queued _ _ HI). lia.
Qed.

(** A caller that leads holds the baton. *)
Lemma leader_baton q b r : QInv q b -> leads (pcs q r) = true -> b = Some r.
Proof.
  intros HI Hl. destruct (decide (b = Some r)) as [|Hb]; [done|]. destruct (q_baton _ _ HI) as (_ & _ & B3 & _).
  destruct (B3 r Hb). congruence.
Qed.

(** Two callers that lead are one. *)
Lemma one_leader q b r1 r2 : QInv q b -> leads (pcs q r1) = true -> leads (pcs q r2) = true -> r1 = r2.
Proof. intros HI H1 H2. apply (leader_baton _ _ _ HI) in H1, H2. congruence. Qed.

Lemma pending_uncommitted q b r : QInv q b -> r ∈ pending q -> r ∈ arrived q /\ r ∉ committed q.
Proof.
  intros HI Hr. pose proof (q_nodup _ _ HI) as Hnd. rewrite (q_order _ _ HI) in *. apply NoDup_app in Hnd as (_ & Hd & _).
  split; [rewrite !elem_of_app; tauto|]. intros Hc. apply (Hd r Hc), elem_of_app. by right.
Qed.

Lemma pending_waiting q b r : QInv q b -> r ∈ pending q -> b <> Some r -> pcs q r = Waiting /\ wake q r = false.
Proof.
  intros HI Hr Hb. destruct (pending_uncommitted _ _ _ HI Hr) as [Ha%(q_entered _ _ HI) Hf%(finished_false _ _ _ HI)].
  destruct (q_baton _ _ HI) as (_ & _ & B3 & _). destruct (B3 r Hb) as [L B].
  assert (An : answered (pcs q r) <> true) by (intros An; apply (q_answered _ _ HI) in An; congruence).
  destruct (pcs q r); try done. split; [done|]. destruct (wake q r); [|done]. by rewrite B in Hf.
Qed.

Lemma pending_unowed q b l r : QInv q b -> r ∈ pending q -> r ∉ owed (pcs q l).
Proof.
  intros HI Hr Hl. destruct (pending_uncommitted _ _ _ HI Hr) as [_ Hc].
  destruct (pcs q l) eqn:E; simpl in Hl; try by apply elem_of_nil in Hl.
  - assert (b = Some l) as -> by (apply (leader_baton _ _ _ HI); by rewrite E).
    pose proof (q_nodup _ _ HI) as Hnd. rewrite (q_order _ _ HI) in Hnd. simpl in Hnd. rewrite E in Hnd. simpl in Hnd.
    apply NoDup_app in Hnd as (_ & _ & (_ & Hd & _)%NoDup_app). by apply (Hd r).
  - by apply Hc, (q_marking _ _ HI l _ _ E).
  - by apply Hc, (q_waking _ _ HI l _ E).
Qed.

Lemma inv_take q b r group rest : NoDup callers -> r ∈ callers -> QInv q b -> pcs q r = Leading ->
  takeGroup (pending q) = (group, rest) -> QInv (goto r (Committing group) (set_pending rest q)) b.
Proof.
  intros Hnd Hr HI Hpc Ht.
  assert (Hb : b = Some r) by (apply (leader_baton _ _ _ HI); by rewrite Hpc). subst b.
  pose proof (baton_of _ _ _ HI eq_refl) as Hh. unfold holds_baton in Hh. rewrite Hpc in Hh.
  pose proof (take_loop_app 0 0 (pending q)) as Ha. unfold takeGroup in Ht. rewrite Ht in Ha.
  assert (Hg : head group = Some r).
  { destruct (pending q) as [|r0 p0]; [done|]. injection Hh as ->. destruct (takeGroup_head r p0) as [g Hg].
    unfold takeGroup in Hg. by rewrite Ht in Hg; simpl in Hg; subst. }
  pose proof (q_order _ _ HI) as Ho. simpl in Ho. rewrite Hpc, Ha in Ho. simpl in Ho.
  assert (Hng : NoDup group) by (pose proof (q_nodup _ _ HI) as Hnda; rewrite Ho in Hnda; by apply NoDup_app in Hnda as (_ & _ & [? _]%NoDup_app)).
  assert (Hgp : group ⊆ pending q) by (rewrite Ha; intros x Hx; apply elem_of_app; by left).
  destruct (q_baton _ _ HI) as (B1 & B2 & B3 & B4).
  constructor; queue_simpl; try apply HI.
  - simpl. rewrite fn_lookup_insert. simpl. by rewrite Ho.
  - intros x. rewrite <- (q_entered _ _ HI). upd; [by rewrite Hpc|done].
  - unfold baton_ok, holds_baton; queue_simpl. split_and!; try done.
    + intros l [= <-]. by rewrite fn_lookup_insert.
    + intros x Hx. rewrite fn_lookup_insert_ne by congruence. by apply B3.
  - intros x. rewrite (q_finished _ _ HI). split; intros [H1 H2]; (split; [done|]); intros l; specialize (H2 l); upd; rewrite ?Hpc; set_solver.
  - intros l todo g E. upd; [done|]. by apply (q_marking _ _ HI l).
  - intros l todo E. upd; [done|]. by apply (q_waking _ _ HI l).
  - intros l x. destruct (decide (l = r)) as [->|Hlr]; [rewrite fn_lookup_insert|rewrite (fn_lookup_insert_ne _ r l) by congruence]; simpl; intros H1 H2.
    + rewrite fn_lookup_insert_ne by congruence. apply (pending_waiting _ _ _ HI); [by apply Hgp|congruence].
    + destruct (q_owed _ _ HI l x H1 H2). upd; [congruence|done].
  - intros l. upd; [done|]. apply HI.
  - intros l1 l2 x H1 H2. upd; try done; [by destruct (pending_unowed _ _ l1 x HI); [apply Hgp|]|by destruct (pending_unowed _ _ l2 x HI); [apply Hgp|]|by apply (q_owner _ _ HI _ _ x)].
  - intros x. upd; [done|]. intros Hx. destruct (q_waiting _ _ HI x Hx) as [|[Hp|(l & Hl & Hlx)]]; [by left| |].
    + rewrite Ha in Hp. apply elem_of_app in Hp as [Hp|Hp]; [|by right; left]. right; right. exists r. by rewrite fn_lookup_insert.
    + right; right. exists l. split; [done|]. upd; [by rewrite Hpc in Hlx; apply elem_of_nil in Hlx|done].
  - intros x Hx. pose proof (q_wake _ _ HI x Hx). upd; [congruence|done].
  - intros x Hx. apply (q_answered _ _ HI). by upd.
  - pose proof (sum_in_flight callers (pcs q) r (Committing group) Hnd Hr) as E. unfold in_flight in E at 2. rewrite Hpc in E. simpl in E.
    rewrite (q_queued _ _ HI). lia.
Qed.

Lemma unmarked_leader q b l r : QInv q b -> r ∈ unmarked (pcs q l) -> b = Some l /\ r ∈ owed (pcs q l).
Proof.
  intros HI Hr. destruct (pcs q l) eqn:E; simpl in Hr; try by apply elem_of_nil in Hr.
  split; [apply (leader_baton _ _ _ HI); by rewrite E|]. by apply (q_marking _ _ HI l _ _ E).
Qed.

Lemma inv_commit q b r group : NoDup callers -> r ∈ callers -> QInv q b -> pcs q r = Committing group ->
  QInv (goto r (Marking group group) (do_commit group q)) b.
Proof.
  intros Hnd Hr HI Hpc.
  assert (Hb : b = Some r) by (apply (leader_baton _ _ _ HI); by rewrite Hpc). subst b.
  pose proof (baton_of _ _ _ HI eq_refl) as Hh. unfold holds_baton in Hh. rewrite Hpc in Hh.
  pose proof (q_order _ _ HI) as Ho. simpl in Ho. rewrite Hpc in Ho. simpl in Ho.
  pose proof (q_nodup _ _ HI) as Hda. rewrite Ho, app_assoc in Hda. apply NoDup_app in Hda as (Hdg & _ & _).
  apply NoDup_app in Hdg as (_ & Hdg & Hng).
  assert (Hun : forall l x, x ∈ unmarked (pcs q l) -> False).
  { intros l x Hx. destruct (unmarked_leader _ _ _ _ HI Hx) as [[= <-] _]. rewrite Hpc in Hx. by apply elem_of_nil in Hx. }
  assert (V : forall x, owed (<[r := Marking group group]> (pcs q) x) = owed (pcs q x)) by (intros x; upd; rewrite ?Hpc; done).
  destruct (q_baton _ _ HI) as (B1 & B2 & B3 & B4).
  constructor; queue_simpl; try apply HI; rewrite ?concat_app in *; cbn [concat] in *; rewrite ?app_nil_r in *.
  - simpl. rewrite fn_lookup_insert. simpl. by rewrite <- app_assoc.
  - intros x. rewrite <- (q_entered _ _ HI). upd; [by rewrite Hpc|done].
  - unfold baton_ok, holds_baton; queue_simpl. split_and!; try done.
    + intros l [= <-]. rewrite fn_lookup_insert. by apply head_Some_elem_of.
    + intros x Hx. rewrite fn_lookup_insert_ne by congruence. by apply B3.
  - intros x. rewrite (q_finished _ _ HI), elem_of_app. split.
    + intros [H1 H2]. split; [by left|]. intros l. upd; [|done]. simpl. intros Hx. by apply (Hdg x).
    + intros [H1 H2]. pose proof (H2 r) as H3. rewrite fn_lookup_insert in H3. simpl in H3. split; [tauto|]. intros l Hx. by apply (Hun l x).
  - intros l todo g E. upd; [injection E as <- <-; split_and!; [done..|set_solver]|].
    destruct (q_marking _ _ HI l _ _ E) as (? & ? & ?). unfold committed in *. set_solver.
  - intros l todo E. upd; [done|]. pose proof (q_waking _ _ HI l _ E). unfold committed in *. set_solver.
  - intros l x. rewrite V. intros H1 H2. destruct (q_owed _ _ HI l x H1 H2). upd; [congruence|done].
  - intros l. rewrite V. apply HI.
  - intros l1 l2 x. rewrite !V. apply HI.
  - intros x. setoid_rewrite V. upd; [done|]. apply HI.
  - intros x Hx. pose proof (q_wake _ _ HI x Hx). upd; [congruence|done].
  - intros x Hx. apply (q_answered _ _ HI). by upd.
  - pose proof (sum_in_flight callers (pcs q) r (Marking group group) Hnd Hr) as E. unfold in_flight in E at 2. rewrite Hpc in E. simpl in E.
    rewrite (q_queued _ _ HI). lia.
Qed.

Lemma inv_mark q b r x todo group : NoDup callers -> r ∈ callers -> QInv q b -> pcs q r = Marking (x :: todo) group ->
  QInv (goto r (Marking todo group) (set_finished x q)) b.
Proof.
  intros Hnd Hr HI Hpc.
  assert (Hb : b = Some r) by (apply (leader_baton _ _ _ HI); by rewrite Hpc). subst b.
  destruct (q_marking _ _ HI _ _ _ Hpc) as ([Hxt Hnt]%NoDup_cons & Hsub & Hsc).
  assert (Hun : forall l y, y ∈ unmarked (pcs q l) -> l = r) by (intros l y Hy; destruct (unmarked_leader _ _ _ _ HI Hy) as [[= ->] _]; done).
  assert (V : forall y, owed (<[r := Marking todo group]> (pcs q) y) = owed (pcs q y)) by (intros y; upd; rewrite ?Hpc; done).
  destruct (q_baton _ _ HI) as (B1 & B2 & B3 & B4).
  constructor; queue_simpl; try apply HI.
  - rewrite (q_order _ _ HI). simpl. by rewrite fn_lookup_insert, Hpc.
  - intros y. rewrite <- (q_entered _ _ HI). upd; [by rewrite Hpc|done].
  - unfold baton_ok, holds_baton; queue_simpl. split_and!; try done.
    + intros l [= <-]. rewrite fn_lookup_insert. pose proof (B2 r eq_refl) as H. unfold holds_baton in H. by rewrite Hpc in H.
    + intros y Hy. rewrite fn_lookup_insert_ne by congruence. destruct (B3 y Hy) as [? H]. split; [done|]. intros Hw. upd; auto.
  - intros y. destruct (decide (y = x)) as [->|Hne]; [rewrite fn_lookup_insert|rewrite fn_lookup_insert_ne by congruence].
    + split; [|done]. intros _. split; [apply Hsc, Hsub; left|]. intros l. destruct (decide (l = r)) as [->|Hl].
      * by rewrite fn_lookup_insert.
      * rewrite fn_lookup_insert_ne by congruence. intros Hx%Hun. done.
    + rewrite (q_finished _ _ HI). split; intros [H1 H2]; (split; [done|]); intros l; specialize (H2 l); upd; rewrite ?Hpc in *; simpl in *; set_solver.
  - intros l todo' g E. upd; [injection E as <- <-; split_and!; set_solver|]. by apply (q_marking _ _ HI l).
  - intros l todo' E. upd; [done|]. by apply (q_waking _ _ HI l).
  - intros l y. rewrite V. intros H1 H2. destruct (q_owed _ _ HI l y H1 H2). upd; [congruence|done].
  - intros l. rewrite V. apply HI.
  - intros l1 l2 y. rewrite !V. apply HI.
  - intros y. setoid_rewrite V. upd; [done|]. apply HI.
  - intros y Hy. pose proof (q_wake _ _ HI y Hy). upd; [congruence|done].
  - intros y Hy. destruct (decide (y = r)) as [->|]; [by rewrite fn_lookup_insert in Hy|].
    rewrite fn_lookup_insert_ne in Hy by congruence. apply (q_answered _ _ HI) in Hy. by upd.
  - pose proof (sum_in_flight callers (pcs q) r (Marking todo group) Hnd Hr) as E. unfold in_flight in E at 2. rewrite Hpc in E. simpl in E.
    rewrite (q_queued _ _ HI). lia.
Qed.

Lemma marked_finished q b r group : QInv q b -> pcs q r = Marking [] group -> forall x, x ∈ group -> finished q x = true.
Proof.
  intros HI Hpc x Hx. apply (q_finished _ _ HI). destruct (q_marking _ _ HI _ _ _ Hpc) as (_ & _ & Hsc).
  split; [by apply Hsc|]. intros l Hl. destruct (unmarked_leader _ _ _ _ HI Hl) as [Hb _].
  assert (b = Some r) as -> by (apply (leader_baton _ _ _ HI); by rewrite Hpc). injection Hb as ->.
  rewrite Hpc in Hl. by apply elem_of_nil in Hl.
Qed.

(** Handing leadership on, to the oldest pending request or to nobody. *)
Lemma inv_handoff q b r group (next : option R) : NoDup callers -> r ∈ callers -> QInv q b -> pcs q r = Marking [] group ->
  next = head (pending q) ->
  QInv (goto r (Waking group) (mkQueue (pending q) (bool_decide (is_Some next)) (queued q) (finished q)
          (from_option (fun p => <[p := true]> (wake q)) (wake q) next) (pcs q) (written q) (arrived q) (commits q))) next.
Proof.
  intros Hnd Hr HI Hpc Hn.
  assert (Hb : b = Some r) by (apply (leader_baton _ _ _ HI); by rewrite Hpc). subst b.
  destruct (q_marking _ _ HI _ _ _ Hpc) as (_ & _ & Hsc). pose proof (marked_finished _ _ _ _ HI Hpc) as Hfin.
  assert (Hrg : r ∈ group) by (pose proof (baton_of _ _ _ HI eq_refl) as Hh; unfold holds_baton in Hh; by rewrite Hpc in Hh).
  assert (Hp : forall p, next = Some p -> p ∈ pending q /\ p <> r /\ p ∉ committed q).
  { intros p ->. symmetry in Hn. apply head_Some_elem_of in Hn. split; [done|]. destruct (pending_uncommitted _ _ _ HI Hn).
    split; [|done]. intros ->. auto. }
  assert (V : forall y, owed (<[r := Waking group]> (pcs q) y) = owed (pcs q y)) by (intros y; upd; rewrite ?Hpc; done).
  assert (U : forall y, unmarked (<[r := Waking group]> (pcs q) y) = unmarked (pcs q y)) by (intros y; upd; rewrite ?Hpc; done).
  assert (Wk : forall y, next <> Some y -> from_option (fun p => <[p := true]> (wake q)) (wake q) next y = wake q y).
  { intros y Hy. destruct next as [p|]; simpl; [|done]. by rewrite fn_lookup_insert_ne by congruence. }
  destruct (q_baton _ _ HI) as (B1 & B2 & B3 & B4).
  constructor; queue_simpl; try apply HI.
  - rewrite (q_order _ _ HI). simpl. rewrite Hpc; simpl. destruct next as [p|]; simpl; [|done].
    destruct (Hp p eq_refl) as (Hpp & Hpr & _). rewrite fn_lookup_insert_ne by congruence.
    by rewrite (proj1 (pending_waiting _ _ _ HI Hpp ltac:(congruence))).
  - intros y. rewrite <- (q_entered _ _ HI). upd; [by rewrite Hpc|done].
  - unfold baton_ok, holds_baton; queue_simpl. split_and!; try done.
    + intros p ->. destruct (Hp p eq_refl) as (Hpp & Hpr & Hpc'). rewrite fn_lookup_insert_ne by congruence.
      rewrite (proj1 (pending_waiting _ _ _ HI Hpp ltac:(congruence))). simpl. rewrite fn_lookup_insert.
      by rewrite (finished_false _ _ _ HI Hpc').
    + intros y Hy. rewrite Wk by done. upd; [split; [done|]; intros _; by apply Hfin|]. by apply B3; congruence.
    + intros ->. by destruct (pending q).
  - intros y. setoid_rewrite U. apply HI.
  - intros l todo g E. upd; [done|]. by apply (q_marking _ _ HI l).
  - intros l todo E. upd; [by injection E as <-|]. by apply (q_waking _ _ HI l).
  - intros l y. rewrite V. intros H1 H2. destruct (q_owed _ _ HI l y H1 H2). rewrite Wk; [upd; [congruence|done]|].
    intros Hy. destruct (Hp y Hy) as [Hyp _]. by apply (pending_unowed _ _ l _ HI Hyp).
  - intros l. rewrite V. apply HI.
  - intros l1 l2 y. rewrite !V. apply HI.
  - intros y. setoid_rewrite V. destruct (decide (y = r)) as [->|Hyr]; [by rewrite fn_lookup_insert|].
    rewrite fn_lookup_insert_ne by congruence. destruct (decide (next = Some y)) as [->|Hy]; [|rewrite Wk by done; apply HI].
    simpl. rewrite fn_lookup_insert. by left.
  - intros y. destruct (decide (next = Some y)) as [E|Hy].
    + intros _. destruct (Hp y E) as (Hyp & Hyr & _). rewrite fn_lookup_insert_ne by congruence.
      by apply (pending_waiting _ _ _ HI Hyp); congruence.
    + rewrite Wk by done. intros Hw. pose proof (q_wake _ _ HI y Hw). upd; [congruence|done].
  - intros y Hy. upd; [by apply Hfin|]. by apply (q_answered _ _ HI).
  - pose proof (sum_in_flight callers (pcs q) r (Waking group) Hnd Hr) as E. unfold in_flight in E at 2. rewrite Hpc in E. simpl in E.
    rewrite (q_queued _ _ HI). lia.
Qed.

Lemma waking_finished q b r todo : QInv q b -> pcs q r = Waking todo -> forall x, x ∈ todo -> finished q x = true.
Proof.
  intros HI Hpc x Hx. apply (q_finished _ _ HI). split; [by apply (q_waking _ _ HI r _ Hpc)|].
  intros l Hl. destruct (unmarked_leader _ _ _ _ HI Hl) as [_ Ho].
  assert (l = r) as -> by (apply (q_owner _ _ HI _ _ x); [done|by rewrite Hpc]). rewrite Hpc in Hl. by apply elem_of_nil in Hl.
Qed.

Lemma inv_waking q b r x todo : NoDup callers -> r ∈ callers -> QInv q b -> pcs q r = Waking (x :: todo) ->
  QInv (goto r (Waking todo) (if bool_decide (x = r) then q else set_wake x true q)) b.
Proof.
  intros Hnd Hr HI Hpc. pose proof (waking_finished _ _ _ _ HI Hpc x ltac:(left)) as Hfx.
  assert (Hbr : b <> Some r) by (apply (not_baton _ _ _ HI); by rewrite Hpc).
  pose proof (q_owed_once _ _ HI r) as Hod. rewrite Hpc in Hod. simpl in Hod. apply NoDup_cons in Hod as [Hxt Hnt].
  assert (Hxw : x <> r -> pcs q x = Waiting /\ wake q x = false) by (intros Hne; apply (q_owed _ _ HI r); [rewrite Hpc; left|done]).
  set (q' := if bool_decide (x = r) then q else set_wake x true q).
  assert (Q' : pending q' = pending q /\ leading q' = leading q /\ queued q' = queued q /\ finished q' = finished q /\ pcs q' = pcs q
               /\ arrived q' = arrived q /\ commits q' = commits q) by (unfold q'; case_bool_decide; done).
  destruct Q' as (Q1 & Q2 & Q3 & Q4 & Q5 & Q6 & Q7).
  assert (Wk : forall y, wake q' y = true <-> wake q y = true \/ (y = x /\ x <> r)).
  { intros y. unfold q'. case_bool_decide; [naive_solver|]. simpl. upd; naive_solver. }
  assert (Uo : forall l y, y ∈ owed (<[r := Waking todo]> (pcs q) l) <-> y ∈ owed (pcs q l) /\ (l = r -> y <> x)).
  { intros l y. upd; rewrite ?Hpc; simpl; set_solver. }
  assert (U : forall y, unmarked (<[r := Waking todo]> (pcs q) y) = unmarked (pcs q y)) by (intros y; upd; rewrite ?Hpc; done).
  destruct (q_baton _ _ HI) as (B1 & B2 & B3 & B4).
  constructor; queue_simpl; rewrite ?Q1, ?Q2, ?Q3, ?Q4, ?Q5, ?Q6, ?Q7; try apply HI.
  - rewrite (q_order _ _ HI). destruct b as [l|]; simpl; [|done]. by rewrite fn_lookup_insert_ne by congruence.
  - intros y. rewrite <- (q_entered _ _ HI). upd; [by rewrite Hpc|done].
  - unfold baton_ok, holds_baton; queue_simpl; rewrite ?Q1, ?Q2, ?Q4, ?Q5. split_and!; try done.
    + intros l ->. specialize (B2 l eq_refl). unfold holds_baton in B2. rewrite fn_lookup_insert_ne by congruence.
      destruct (pcs q l); try done. rewrite Wk. naive_solver.
    + intros y Hy. specialize (B3 y Hy). rewrite Wk. upd; naive_solver.
  - intros y. setoid_rewrite U. apply HI.
  - intros l t g E. upd; [done|]. by apply (q_marking _ _ HI l).
  - intros l t E. upd; [injection E as <-; pose proof (q_waking _ _ HI _ _ Hpc); set_solver|]. by apply (q_waking _ _ HI l).
  - intros l y. rewrite Uo. intros [H1 H3] H2. destruct (q_owed _ _ HI l y H1 H2) as [Hy Hyw]. split; [upd; [congruence|done]|].
    apply not_true_is_false. rewrite Wk. intros [?|[-> ?]]; [congruence|]. apply H3; [|done].
    apply (q_owner _ _ HI _ _ x); [done|rewrite Hpc; left].
  - intros l. upd; [done|]. apply HI.
  - intros l1 l2 y. rewrite !Uo. intros [H1 _] [H2 _]. by apply (q_owner _ _ HI _ _ y).
  - intros y. destruct (decide (y = r)) as [->|Hyr]; [by rewrite fn_lookup_insert|]. rewrite fn_lookup_insert_ne, Wk by congruence.
    intros Hy. destruct (decide (y = x)) as [->|Hyx]; [tauto|]. destruct (q_waiting _ _ HI y Hy) as [|[|(l & ? & ?)]]; [tauto..|].
    right; right. exists l. rewrite Uo. tauto.
  - intros y. rewrite Wk. intros Hy. assert (pcs q y = Waiting) by (destruct Hy as [Hy|[-> Hy]]; [by apply HI|by apply Hxw]). upd; [congruence|done].
  - intros y Hy. apply (q_answered _ _ HI). upd; [by rewrite Hpc|done].
  - pose proof (sum_in_flight callers (pcs q) r (Waking todo) Hnd Hr) as E. unfold in_flight in E at 2. rewrite Hpc in E. simpl in E.
    rewrite (q_queued _ _ HI). lia.
Qed.

Lemma inv_new s : QInv (newQueue s) None.
Proof.
  constructor; try by intros.
  - apply list_subseteq_nil.
  - constructor.
  - intros r. simpl. by rewrite elem_of_nil.
  - intros r. unfold committed; simpl. rewrite elem_of_nil. naive_solver.
  - intros l r Hr. by apply elem_of_nil in Hr.
  - intros l. constructor.
  - intros l1 l2 r Hr. by apply elem_of_nil in Hr.
  - simpl. induction callers as [|c cs IH]; [done|]. exact IH.
Qed.

Lemma inv_step q b q' : NoDup callers -> QInv q b -> step q q' -> exists b', QInv q' b'.
Proof.
  intros Hnd HI (r & Hr & E). unfold run_step in E. destruct (pcs q r) as [| | | |group|[|x todo] group|[|x todo]| |] eqn:Hpc.
  - injection E as <-. exists b. apply (inv_move q b r Counted (queued q + records r)); try done.
    + by rewrite Hpc.
    + unfold in_flight. rewrite Hpc. simpl. lia.
  - injection E as <-. eexists. by apply inv_enqueue.
  - destruct (wake q r) eqn:Hw; [|done]. injection E as <-. exists b. by apply inv_wake.
  - destruct (takeGroup (pending q)) as [group rest] eqn:Ht. injection E as <-. exists b. by apply inv_take.
  - injection E as <-. exists b. by apply inv_commit.
  - pose proof (inv_handoff q b r group _ Hnd Hr HI Hpc eq_refl) as H'.
    pose proof (q_baton _ _ HI) as (B1 & _). assert (Hl : leading q = true).
    { rewrite B1, (leader_baton _ _ r HI) by (by rewrite Hpc). done. }
    destruct (pending q) as [|p rest] eqn:Hp; simpl in H'.
    + injection E as <-. eexists. unfold set_leading. rewrite Hp. exact H'.
    + destruct (wake q p); [done|]. injection E as <-. eexists. unfold set_wake. rewrite Hp, Hl. exact H'.
  - injection E as <-. exists b. by apply (inv_mark q b r x).
  - injection E as <-. exists b. apply (inv_move q b r Leaving (queued q)); try done; [by rewrite Hpc|].
    unfold in_flight. rewrite Hpc. done.
  - exists b. pose proof (inv_waking q b r x todo Hnd Hr HI Hpc) as H'. destruct (bool_decide (x = r)); [by injection E as <-|].
    destruct (wake q x); [done|]. by injection E as <-.
  - injection E as <-. exists b. apply (inv_move q b r Returned (queued q - records r)); try done.
    + by rewrite Hpc.
    + pose proof (sum_in_flight callers (pcs q) r Returned Hnd Hr) as E'. unfold in_flight in *. rewrite Hpc in *. simpl in *.
      rewrite (q_queued _ _ HI). unfold in_flight. lia.
  - done.
Qed.

Lemma inv_reachable s q : NoDup callers -> rtc step (newQueue s) q -> exists b, QInv q b.
Proof.
  intros Hnd Hr. cut (exists b, QInv (newQueue s) b); [|exists None; apply inv_new].
  induction Hr as [|q1 q2 q3 Hs _ IH]; [done|]. intros [b HI]. apply IH. by apply (inv_step q1 b).
Qed.

(** ** What was committed *)

(** A group [takeGroup] may give: never empty, within the bound unless it is one
    request that is too large for it. *)
Definition sound_group (group : list R) : Prop :=
  group <> [] /\ (sum_list (records <$> group) <= maxGroupRecords \/ exists r, group = [r]).

Lemma takeGroup_sound p group rest : takeGroup p = (group, rest) -> p <> [] ->
  sound_group group /\ p = group ++ rest
  /\ forall r, head rest = Some r -> maxGroupRecords < sum_list (records <$> group) + records r.
Proof.
  intros Ht Hp. pose proof (take_loop_app 0 0 p) as Ha. unfold takeGroup in Ht. rewrite Ht in Ha.
  destruct p as [|r p]; [done|]. cbn [take_loop] in Ht. rewrite bool_decide_eq_true_2 in Ht by done. cbn [orb] in Ht.
  destruct (decide (records r <= maxGroupRecords)) as [Hle|Hgt].
  - pose proof (take_loop_bound 1 (records r) p ltac:(lia) Hle) as Hb. simpl in Ht.
    destruct (take_loop 1 (records r) p) as [g rest'] eqn:E. injection Ht as <- <-. destruct Hb as [H1 H2].
    split_and!; [split; [done|]; left; rewrite fmap_cons; cbn [sum_list_with]; unfold id in *; lia|done|].
    intros x Hx. specialize (H2 x Hx). rewrite fmap_cons; cbn [sum_list_with]; unfold id in *; lia.
  - assert (E : take_loop 1 (records r) p = ([], p)).
    { destruct p as [|x p]; [done|]. cbn [take_loop]. rewrite (bool_decide_eq_false_2 (1 = 0)), bool_decide_eq_false_2 by lia. done. }
    simpl in Ht. rewrite E in Ht. injection Ht as <- <-. split_and!; [split; [done|]; right; by exists r|done|].
    intros x _. rewrite fmap_cons; cbn [sum_list_with]; unfold id in *; lia.
Qed.

Definition WInv (s : S) (q : Queue) : Prop :=
  written q = fold_left (fun s group => commit group s) (commits q) s
  /\ Forall sound_group (commits q)
  /\ forall l group, pcs q l = Committing group -> sound_group group.

Lemma winv_step s q b q' : QInv q b -> step q q' -> WInv s q -> WInv s q'.
Proof.
  intros HI (r & Hr & E) (W1 & W2 & W3). unfold run_step in E.
  destruct (pcs q r) as [| | | |group|[|x todo] group|[|x todo]| |] eqn:Hpc; [..|done];
    repeat match type of E with context [match ?x with _ => _ end] => destruct x eqn:? end; try done; injection E as <-;
    split_and!; queue_simpl; try done; try (intros l' g' E; upd; [done|by apply (W3 l')]).
  all: try (intros l' g' E; destruct (decide (l' = r)) as [->|]; [rewrite fn_lookup_insert in E; by destruct (finished q r), (leading q)
                                     |rewrite fn_lookup_insert_ne in E by congruence; by apply (W3 l')]).
  - intros l' g' E. upd; [|by apply (W3 l')]. injection E as <-. eapply (takeGroup_sound (pending q)); [done|].
    intros Hp. pose proof (baton_of _ _ _ HI (leader_baton _ _ r HI ltac:(by rewrite Hpc))) as Hh. unfold holds_baton in Hh.
    by rewrite Hpc, Hp in Hh.
  - rewrite W1, fold_left_app. done.
  - apply Forall_app. split; [done|]. apply Forall_singleton. by apply (W3 r).
Qed.

Lemma winv_reachable s q : NoDup callers -> rtc step (newQueue s) q -> WInv s q.
Proof.
  intros Hnd Hr. cut ((exists b, QInv (newQueue s) b) /\ WInv s (newQueue s)).
  - induction Hr as [|q1 q2 q3 Hs _ IH]; [tauto|]. intros [[b HI] HW]. apply IH. split; [by apply (inv_step q1 b)|].
    by apply (winv_step s q1 b).
  - split; [exists None; apply inv_new|]. split_and!; [done|constructor|done].
Qed.

(** ** Progress and termination *)

(** The steps a caller still has before it, with what it has taken. *)
Definition weight (pc : PC) : nat :=
  match pc with
  | Idle => 12 | Counted => 11 | Waiting => 7 | Leading => 6
  | Committing group => 5 + 2 * length group
  | Marking todo group => 4 + length todo + length group
  | Waking todo => 2 + length todo
  | Leaving => 1 | Returned => 0
  end.

Definition measure (q : Queue) : nat := sum_list ((fun r => weight (pcs q r)) <$> callers) + 3 * length (pending q).

Lemma sum_weight (cs : list R) pcs r pc : NoDup cs -> r ∈ cs ->
  sum_list ((fun x => weight (<[r := pc]> pcs x)) <$> cs) + weight (pcs r) = sum_list ((fun x => weight (pcs x)) <$> cs) + weight pc.
Proof.
  assert (Hn : forall cs, r ∉ cs -> (fun x => weight (<[r := pc]> pcs x)) <$> cs =@{list nat} (fun x => weight (pcs x)) <$> cs).
  { intros l Hl. apply list_fmap_ext. intros i x Hx. rewrite fn_lookup_insert_ne; [done|].
    intros ->. by apply Hl, list_elem_of_lookup_2 with i. }
  induction cs as [|c cs IH]; intros Hnd Hin; [by apply elem_of_nil in Hin|].
  apply NoDup_cons in Hnd as [Hc Hnd]. rewrite !fmap_cons. cbn [sum_list_with].
  destruct (decide (c = r)) as [->|E].
  { rewrite Hn, fn_lookup_insert by done. unfold id. lia. }
  rewrite fn_lookup_insert_ne by congruence. apply elem_of_cons in Hin as [->|Hin]; [done|].
  specialize (IH Hnd Hin). unfold id in *. lia.
Qed.

Lemma step_measure q q' : NoDup callers -> step q q' -> measure q' < measure q.
Proof.
  intros Hnd (r & Hr & E). unfold run_step in E. unfold measure.
  assert (Hw : forall pc, sum_list ((fun x => weight (<[r := pc]> (pcs q) x)) <$> callers) + weight (pcs q r)
               = sum_list ((fun x => weight (pcs q x)) <$> callers) + weight pc) by (intros pc; by apply sum_weight).
  destruct (pcs q r) as [| | | |group|[|x todo] group|[|x todo]| |] eqn:Hpc; [..|done];
    repeat match type of E with context [match ?x with _ => _ end] => destruct x eqn:? end; try done; injection E as <-; queue_simpl;
    try match goal with |- context [<[r := ?pc]> _] => specialize (Hw pc) end; simpl in Hw; try lia.
  1, 2: rewrite length_app; simpl; lia.
  2, 3: match goal with H : pending _ = _ |- _ => rewrite H in *; lia end.
  match goal with H : takeGroup _ = _ |- _ => pose proof (take_loop_app 0 0 (pending q)) as Ha; unfold takeGroup in H; rewrite H in Ha end.
  rewrite Ha, length_app. lia.
Qed.

(** A caller that has called and not returned is blocked only while another can
    move. *)
Lemma progress q b r : QInv q b -> r ∈ callers -> pcs q r <> Returned -> exists q', step q q'.
Proof.
  intros HI Hr Hnr.
  assert (Go : forall l, l ∈ callers -> is_Some (run_step l q) -> exists q', step q q') by (intros l Hl [q' E]; by exists q', l).
  assert (Ar : forall l, entered (pcs q l) = true -> l ∈ callers) by (intros l Hl; by apply (q_callers _ _ HI), (q_entered _ _ HI)).
  (* whoever holds the baton, or still wakes others, can move *)
  assert (Baton : forall l, b = Some l -> exists q', step q q').
  { intros l ->. pose proof (baton_of _ _ _ HI eq_refl) as Hh. unfold holds_baton in Hh.
    apply (Go l); [apply Ar; by destruct (pcs q l)|]. unfold run_step. destruct (pcs q l) as [| | | |g|[|x todo] g| | |] eqn:E; try done.
    - destruct Hh as [-> _]. by eexists.
    - destruct (takeGroup _). by eexists.
    - destruct (pending q) as [|p rest] eqn:Ep; [by eexists|].
      assert (Hp : p ∈ pending q) by (rewrite Ep; left). destruct (pending_uncommitted _ _ _ HI Hp) as [_ Hpc].
      destruct (pending_waiting _ _ _ HI Hp) as [_ ->]; [|by eexists]. intros [= <-].
      by apply Hpc, (q_marking _ _ HI _ _ _ E). }
  assert (Waker : forall l todo, pcs q l = Waking todo -> exists q', step q q').
  { intros l todo E. apply (Go l); [apply Ar; by rewrite E|]. unfold run_step. rewrite E. destruct todo as [|x todo]; [by eexists|].
    case_bool_decide as Hx; [by eexists|]. destruct (q_owed _ _ HI l x) as [_ ->]; [rewrite E; left|done|by eexists]. }
  destruct (pcs q r) as [| | | |g|todo g|todo| |] eqn:E; try (by apply (Waker r todo));
    try (apply (Baton r), (leader_baton _ _ _ HI); by rewrite E); try (apply (Go r); [done|unfold run_step; rewrite E; by eexists]).
  destruct (q_waiting _ _ HI r E) as [Hw|[Hp|(l & Hl & Ho)]].
  - apply (Go r); [done|]. unfold run_step. rewrite E, Hw. by eexists.
  - destruct b as [l|]; [by apply (Baton l)|]. destruct (q_baton _ _ HI) as (_ & _ & _ & B4). by rewrite B4 in Hp by done; apply elem_of_nil in Hp.
  - destruct (pcs q l) as [| | | |g|t g|t| |] eqn:El; simpl in Ho; try by apply elem_of_nil in Ho.
    + apply (Baton l), (leader_baton _ _ _ HI). by rewrite El.
    + apply (Baton l), (leader_baton _ _ _ HI). by rewrite El.
    + by apply (Waker l t).
Qed.

Lemma nsteps_measure n q q' : NoDup callers -> nsteps step n q q' -> n + measure q' <= measure q.
Proof.
  intros Hnd Hs. induction Hs as [|n q1 q2 q3 Hs _ IH]; [lia|]. apply step_measure in Hs; [lia|done].
Qed.

Lemma measure_new s : measure (newQueue s) = 12 * length callers.
Proof.
  unfold measure; simpl. rewrite Nat.add_0_r. induction callers as [|c cs IH]; [done|].
  rewrite fmap_cons. cbn [sum_list_with length]. unfold id at 1. rewrite IH. lia.
Qed.

(** ** Theorems *)

(** The queue serializes: whatever the interleaving, at most one caller leads at
    a time, so commits never overlap; the commits hold every request at most once, in
    the order of arrival, in groups that are never empty and within
    [maxGroupRecords] unless one request alone is larger; what was written is those
    commits one after the other; and a caller returns only after a commit that holds
    its request. *)
Theorem queue_serializes s q : NoDup callers -> rtc step (newQueue s) q ->
  committed q `prefix_of` arrived q /\ NoDup (arrived q)
  /\ Forall sound_group (commits q)
  /\ written q = fold_left (fun s group => commit group s) (commits q) s
  /\ (forall r, pcs q r = Returned -> r ∈ committed q)
  /\ (forall r1 r2, leads (pcs q r1) = true -> leads (pcs q r2) = true -> r1 = r2).
Proof.
  intros Hnd Hr. destruct (inv_reachable s q Hnd Hr) as [b HI]. destruct (winv_reachable s q Hnd Hr) as (W1 & W2 & _).
  split_and!; [|apply HI|done|done| |].
  - rewrite (q_order _ _ HI). by eexists.
  - intros r E. apply (q_finished _ _ HI), (q_answered _ _ HI). by rewrite E.
  - intros r1 r2. by apply (one_leader _ _ _ _ HI).
Qed.

(** C31: No caller waits for good: a queue with [n] callers takes at most [12 n] steps,
    however they interleave, and as long as a caller has not returned some caller can
    step, so no send blocks and no wake-up is lost. When nothing can step every
    caller has returned, every request was committed exactly once, nobody leads and
    [queued] is back to zero. *)
Theorem queue_finishes s n q : NoDup callers -> nsteps step n (newQueue s) q ->
  n <= 12 * length callers
  /\ ((exists q', step q q')
      \/ (forall r, r ∈ callers -> pcs q r = Returned) /\ committed q ≡ₚ callers /\ leading q = false /\ queued q = 0).
Proof.
  intros Hnd Hn. pose proof (nsteps_measure _ _ _ Hnd Hn) as Hm. rewrite measure_new in Hm. split; [lia|].
  destruct (inv_reachable s q Hnd) as [b HI]; [by apply rtc_nsteps_2 with n|].
  destruct (decide (Exists (fun r => match pcs q r with Returned => false | _ => true end = true) callers)) as [(r & Hr & E)%Exists_exists|Hall].
  { left. apply (progress q b r); [done..|]. by destruct (pcs q r). }
  right. assert (HR : forall r, r ∈ callers -> pcs q r = Returned).
  { intros r Hr. destruct (pcs q r) eqn:E; try done; exfalso; apply Hall, Exists_exists; exists r; by rewrite E. }
  split_and!; [done| | |].
  - apply NoDup_Permutation; [|done|].
    + pose proof (q_nodup _ _ HI) as H. rewrite (q_order _ _ HI) in H. by apply NoDup_app in H as [? _].
    + intros r. split; intros Hr.
      * by apply (q_callers _ _ HI), (committed_arrived _ _ _ HI).
      * apply (q_finished _ _ HI), (q_answered _ _ HI). by rewrite HR.
  - destruct (q_baton _ _ HI) as (-> & B2 & _ & _). apply bool_decide_eq_false_2. intros [l ->]. specialize (B2 l eq_refl).
    unfold holds_baton in B2. destruct (decide (l ∈ callers)) as [Hl|Hl]; [by rewrite (HR l Hl) in B2|].
    assert (entered (pcs q l) = true) as He%(q_entered _ _ HI)%(q_callers _ _ HI) by (by destruct (pcs q l)). done.
  - rewrite (q_queued _ _ HI). clear - HR. induction callers as [|c cs IH]; [done|]. rewrite fmap_cons. cbn [sum_list_with].
    unfold in_flight at 1. rewrite HR by left. unfold id at 1. simpl. apply IH. intros r Hr. apply HR. by right.
Qed.

(** A schedule: which caller steps next. *)
Fixpoint exec (schedule : list R) (q : Queue) : option Queue :=
  match schedule with
  | [] => Some q
  | r :: schedule => run_step r q ≫= exec schedule
  end.

Lemma exec_nsteps schedule q q' : Forall (.∈ callers) schedule -> exec schedule q = Some q' -> nsteps step (length schedule) q q'.
Proof.
  revert q. induction schedule as [|r sch IH]; intros q HF E; simpl in *; [injection E as <-; constructor|].
  apply Forall_cons in HF as [Hr HF]. destruct (run_step r q) as [q1|] eqn:E1; [|done]. simpl in E.
  econstructor; [by exists r|]. by apply IH.
Qed.
End queue.

(** ** Examples *)

(** Three callers; the third request is too large to share a group. *)
Definition demo_records (r : nat) : nat := if bool_decide (r = 3) then 5000 else 1.
Definition demo_commit (group : list nat) (s : list nat) : list nat := s ++ group.
Definition demo_callers : list nat := [1; 2; 3].
Definition demo_schedule : list nat :=
  [1; 1; 2; 2; 3; 3; 1; 1; 1; 1; 1; 1; 1; 1; 1; 2; 2; 3; 3; 3; 3; 3; 3; 3; 3].

Definition demo_queue (n : nat) : Queue :=
  default (newQueue []) (exec demo_records demo_commit (take n demo_schedule) (newQueue [])).

Lemma demo_steps n : length (take n demo_schedule) = n ->
  match exec demo_records demo_commit (take n demo_schedule) (newQueue []) with Some _ => true | None => false end = true ->
  nsteps (step demo_records demo_commit demo_callers) n (newQueue []) (demo_queue n).
Proof.
  intros E Hs. rewrite <- E at 1. unfold demo_queue. apply exec_nsteps; [|by destruct (exec _ _ _ _)].
  apply Forall_take. repeat constructor; set_solver.
Qed.

Lemma demo_callers_nodup : NoDup demo_callers.
Proof. by apply (bool_decide_unpack _). Qed.

Lemma queue_serializes_witness :
  commits (demo_queue 20) = [[1; 2]; [3]] /\ written (demo_queue 20) = [1; 2; 3]
  /\ (pcs (demo_queue 20) 2 = Returned -> 2 ∈ committed (demo_queue 20)) /\ pcs (demo_queue 20) 2 = Returned
  /\ Forall (sound_group demo_records) (commits (demo_queue 20)).
Proof.
  pose proof (queue_serializes demo_records demo_commit demo_callers [] (demo_queue 20) demo_callers_nodup
                (rtc_nsteps_2 _ _ _ (demo_steps 20 eq_refl eq_refl))) as (_ & _ & H3 & _ & H5 & _).
  split_and!; try reflexivity; [apply H5|exact H3].
Defined.

Lemma queue_finishes_witness :
  (forall r, r ∈ demo_callers -> pcs (demo_queue 25) r = Returned) /\ committed (demo_queue 25) = [1; 2; 3]
  /\ (exists q', step demo_records demo_commit demo_callers (demo_queue 6) q').
Proof.
  split_and!; [|reflexivity|].
  - destruct (queue_finishes demo_records demo_commit demo_callers [] 25 (demo_queue 25) demo_callers_nodup
                (demo_steps 25 eq_refl eq_refl)) as [_ [(q' & r & Hr & E)|[H _]]]; [|exact H].
    exfalso. unfold demo_callers in Hr. repeat (apply elem_of_cons in Hr as [->|Hr]; [vm_compute in E; discriminate E|]).
    by apply elem_of_nil in Hr.
  - destruct (queue_finishes demo_records demo_commit demo_callers [] 6 (demo_queue 6) demo_callers_nodup
                (demo_steps 6 eq_refl eq_refl)) as [_ [H|[H _]]]; [exact H|].
    specialize (H 1 ltac:(left)). discriminate H.
Defined.
