(* ===== verification/Topics.v ===== *)
(** * Topics: the UNS topic grammar, contract classes and mount rewriting

    Models [plugins/uns/uns.go] (topics, classes, streams, mounts),
    [plugins/uns/root.go], [plugins/uns/retired.go], the topic half of
    [plugins/uns/replication_policy.go] and [CommandTarget] of
    [plugins/uns/redelivery.go].

    The process-wide topic root is a package variable in the code; here every
    function that reads it takes it as the argument [root]. *)

From S2P Require Import Prelude.
From Stdlib Require Import Ascii.
Local Open Scope go_scope.
Local Open Scope Z_scope.

(** ** The topic root ([root.go]) *)

Definition DefaultRoot : string := "colca".
Definition Version : string := "v1".

(** [root atomic.Pointer[string]]: nil until [SetRoot] succeeds. *)
Definition Root (st : option string) : string :=
  match st with Some r => r | None => DefaultRoot end.

Definition Prefix (root : string) : string := root +:+ "/" +:+ Version +:+ "/".

Definition byte_between (lo hi c : ascii) : bool :=
  (N.leb (N_of_ascii lo) (N_of_ascii c) && N.leb (N_of_ascii c) (N_of_ascii hi))%bool.

Definition letterOrDigit (c : ascii) : bool :=
  byte_between "a" "z" c || byte_between "A" "Z" c || byte_between "0" "9" c.

(** The loop of [ValidRoot]; [first] is [i == 0]. *)
Fixpoint valid_root_bytes (first : bool) (r : string) : bool :=
  match r with
  | "" => true
  | String c r' =>
      if letterOrDigit c || (negb first && ((c == "-"%char) || (c == "_"%char) || (c == "."%char)))
      then valid_root_bytes false r'
      else false
  end.

Definition ValidRoot (r : string) : bool :=
  if (r == "") || (64 <? len r) then false else valid_root_bytes true r.

(** [SetRoot]: an invalid root is refused and the previous one stays. *)
Definition SetRoot (st : option string) (r : string) : option string * bool :=
  if ValidRoot r then (Some r, true) else (st, false).

(** [SetRootFromEnv], on the value of [COLCA_TOPIC_ROOT]. *)
Definition SetRootFromEnv (st : option string) (env : string) : option string * bool :=
  SetRoot st (if env == "" then DefaultRoot else env).

(** ** Classes and topics ([uns.go]) *)

Inductive Class :=
| ClassNone
| ClassData
| ClassEntity
| ClassDefinition
| ClassCmd
| ClassAck
| ClassGap
| ClassAudit
| ClassAlarm
| ClassLog
| ClassAnnotation.

#[export] Instance Class_eq_dec : EqDecision Class.
Proof. solve_decision. Defined.

Record Parsed := mkParsed {
  PrefixSeg : string;
  VersionSeg : string;
  Contract : string;
  NodeID : string;
  Path : string;
}.

#[export] Instance Parsed_eq_dec : EqDecision Parsed.
Proof. solve_decision. Defined.

Definition MaxTopicBytes : Z := 65535.

Definition IsUns (root topic : string) : bool := HasPrefix topic (root +:+ "/").

Inductive ParseError :=
| ErrTopicTooLong (bytes : Z)
| ErrTooFewSegments (n : nat)
| ErrNoContract (segment : string).

Definition Parse (topic : string) : result ParseError Parsed :=
  if MaxTopicBytes <? len topic then Err (ErrTopicTooLong (len topic))
  else match Split topic slash with
       | s0 :: s1 :: s2 :: s3 :: s4 :: rest =>
           if HasPrefix s2 "_"
           then Ok (mkParsed s0 s1 s2 s3 (Join (s4 :: rest) slash))
           else Err (ErrNoContract s2)
       | seg => Err (ErrTooFewSegments (length seg))
       end.

Definition PersonalAccessTokenContract : string := "_PersonalAccessToken".

Definition entityContracts : list string :=
  ["_EnrolledIdentity"; "_Node"; "_ServiceDetails"; "_SystemElement"; "_Signal";
   "_Constant"; "_ExternalReference"; "_Resource"; "_EditOperation";
   "_AlarmNotificationConfig"; "_NotificationConfigStatus"; "_Finding";
   "_AlarmState"; "_AlarmSilence"; "_AlarmSubscription"].

Definition definitionContracts : list string :=
  ["_Group"; "_MetadataType"; "_AnnotationType"; "_DataModel"; "_ExternalSystem";
   "_SemanticTag"; PersonalAccessTokenContract].

(** Whether a contract is one of a list ([contract == a || contract == b ...]). *)
Definition one_of (contract : string) (l : list string) : bool :=
  bool_decide (contract ∈ l).

Definition ClassOf (contract : string) : Class :=
  if contract == "_Metric" then ClassData
  else if (contract == "_AlarmStateChange") || (contract == "_NotificationDispatched") then ClassAlarm
  else if contract == "_Annotation" then ClassAnnotation
  else if contract == "_Log" then ClassLog
  else if one_of contract entityContracts then ClassEntity
  else if one_of contract definitionContracts then ClassDefinition
  else if contract == "_Ack" then ClassAck
  else if contract == "_StreamGap" then ClassGap
  else if contract == "_AuditEvent" then ClassAudit
  else if HasPrefix contract "_Cmd" then ClassCmd
  else ClassNone.

Definition IsState (c : Class) : bool :=
  (c == ClassData) || (c == ClassEntity) || (c == ClassDefinition).
Definition IsKnown (c : Class) : bool := c != ClassNone.
Definition IsCommand (c : Class) : bool := c == ClassCmd.
Definition IsAck (c : Class) : bool := c == ClassAck.
Definition IsOwnedState (c : Class) : bool := (c == ClassData) || (c == ClassEntity).
Definition IsCommandAuthoredState (c : Class) : bool := (c == ClassEntity) || (c == ClassDefinition).
Definition IsCommandAuthoredEvent (c : Class) : bool := c == ClassAnnotation.
Definition IsDefinition (c : Class) : bool := c == ClassDefinition.
Definition IsLog (c : Class) : bool := c == ClassLog.
Definition IsAudit (c : Class) : bool := c == ClassAudit.
Definition NeedsStateRefresh (c : Class) : bool := c == ClassEntity.

Definition KeepsActorWitness (topic : string) : bool :=
  match Parse topic with Ok p => IsCommand (ClassOf (Contract p)) | Err _ => false end.

Definition ValidActorKind (kind : string) : bool :=
  one_of kind ["human"; "service"; "node"; "system"; "anonymous"].

Definition FlowsUp (c : Class) : bool :=
  (c == ClassData) || (c == ClassEntity) || (c == ClassAck) || (c == ClassGap) ||
  (c == ClassAudit) || (c == ClassAlarm) || (c == ClassAnnotation) || (c == ClassLog).

Definition StreamFor (c : Class) : string :=
  match c with
  | ClassData => "metrics"
  | ClassEntity => "entities"
  | ClassDefinition => "definitions"
  | ClassCmd | ClassAck => "commands"
  | ClassAudit => "audit"
  | ClassAlarm => "alarms"
  | ClassAnnotation => "annotations"
  | ClassLog => "logs"
  | ClassGap | ClassNone => ""
  end.

Definition GapStream (p : Parsed) : string :=
  match CutLast (Path p) slash with
  | Some (_, last) => last
  | None => Path p
  end.

Definition MatchesUplinkStream (c : Class) (p : Parsed) (stream : string) : bool :=
  if negb (FlowsUp c) then false
  else if c == ClassGap then GapStream p == stream
  else StreamFor c == stream.

(** A Go map; iteration order is not specified, so nothing below depends on it. *)
Definition manifestClasses : gmap string Class :=
  list_to_map
    [("data", ClassData); ("entity", ClassEntity); ("definition", ClassDefinition);
     ("cmd", ClassCmd); ("ack", ClassAck); ("audit", ClassAudit); ("alarm", ClassAlarm);
     ("annotation", ClassAnnotation); ("log", ClassLog)].

Definition ClassFromManifest (name : string) : option Class := manifestClasses !! name.

Definition ManifestClassNames : list string :=
  sort_strings ((map_to_list manifestClasses).*1).

(** Adds a stream to a set unless it is the empty name
    ([if stream := ...; stream != "" { set[stream] = true }]). *)
Definition add_stream (stream : string) (set : gset string) : gset string :=
  if stream == "" then set else {[stream]} ∪ set.

Definition uplinkStreamSet : gset string :=
  foldr (fun e set => if negb (FlowsUp e.2) then set else add_stream (StreamFor e.2) set)
    ∅ (map_to_list manifestClasses).

Definition IsUplinkStream (stream : string) : bool := bool_decide (stream ∈ uplinkStreamSet).

Definition UplinkStreams : list string := sort_strings (elements uplinkStreamSet).

Definition nodePrivateContracts : gset string := {["_EditOperation"]}.

Definition IsNodePrivate (contract : string) : bool :=
  bool_decide (contract ∈ nodePrivateContracts).

Definition add_private_streams (set : gset string) : gset string :=
  foldr (fun contract set => add_stream (StreamFor (ClassOf contract)) set)
    set (elements nodePrivateContracts).

Definition NodePrivateStreams : list string := sort_strings (elements (add_private_streams ∅)).

Definition partialUplinkStreams : gset string :=
  add_private_streams
    (foldr (fun e set => if negb (FlowsUp e.2) then add_stream (StreamFor e.2) set else set)
       {[StreamFor ClassLog]} (map_to_list manifestClasses)).

Definition UplinkCarriesEveryRecord (stream : string) : bool :=
  negb (bool_decide (stream ∈ partialUplinkStreams)).

Definition IsMetric (contract : string) : bool := contract == "_Metric".

Definition FetchLogsVerb : string := "fetchLogs".
Definition FetchLogsAckKey : string := "_fetchLogsAck".

Definition FetchLogsAck (topic : string) : option string :=
  if negb (HasSuffix topic ("/" +:+ FetchLogsVerb)) || negb (Contains topic "/_Ack/") then None
  else match Parse topic with
       | Ok p => if Contract p != "_Ack" then None else Some (Path p)
       | Err _ => None
       end.

Definition SignalTopicForMetric (root : string) (p : Parsed) : string :=
  Prefix root +:+ "_Signal/" +:+ NodeID p +:+ "/" +:+ Path p.

(** [MetricSignalKey] of [replication_policy.go]: path, node and topic. *)
Definition MetricSignalKey (root topic : string) : option (string * string * string) :=
  match Parse topic with
  | Ok p => if negb (IsMetric (Contract p)) then None
            else Some (Path p, NodeID p, SignalTopicForMetric root p)
  | Err _ => None
  end.

Definition DecidesReplication (topic : string) : bool :=
  match Parse topic with Ok p => Contract p == "_Signal" | Err _ => false end.

Definition DownlinkCursorPrefix : string := "downlink:".
Definition DownlinkDefCursorPrefix : string := "downlink-def:".
Definition UplinkCursor (parentPubkey : string) : string := "up:" +:+ parentPubkey.
Definition DownlinkCursor (parentPubkey : string) : string := "down:" +:+ parentPubkey.
Definition DownlinkDefCursor (parentPubkey : string) : string := "down-def:" +:+ parentPubkey.

Definition MountInsert (topic mount : string) : string :=
  match SplitN topic slash 5 with
  | [s0; s1; s2; s3; s4] => Join [s0; s1; s2; s3; mount +:+ "/" +:+ s4] slash
  | _ => topic
  end.

Definition UnderMount (path mount : string) : bool :=
  (mount != "") && HasPrefix path (mount +:+ "/").

Definition MountStrip (topic mount : string) : string * bool :=
  match SplitN topic slash 5 with
  | [s0; s1; s2; s3; s4] =>
      match CutPrefix s4 (mount +:+ "/") with
      | Some rest => (Join [s0; s1; s2; s3; rest] slash, true)
      | None => (topic, false)
      end
  | _ => (topic, false)
  end.

(** ** Retired contracts ([retired.go]) *)

Definition retiredContracts : gset string := {["_ClockDefinition"; "_ClockProgress"]}.
Definition IsRetired (contract : string) : bool := bool_decide (contract ∈ retiredContracts).
Definition RetiredTopic (topic : string) : bool :=
  match Parse topic with Ok p => IsRetired (Contract p) | Err _ => false end.

(** ** Command targets ([redelivery.go]) *)

(** The loop [for i := range seg] of [CommandTarget]: [n] levels cut off the
    front of [rest]. *)
Fixpoint cut_levels (n : nat) (rest : string) : option (list string * string) :=
  match n with
  | O => Some ([], rest)
  | S n' => match Cut rest slash with
            | None => None
            | Some (seg, rest') =>
                match cut_levels n' rest' with
                | Some (segs, r) => Some (seg :: segs, r)
                | None => None
                end
            end
  end.

Definition CommandTarget (topic : string) : option string :=
  if MaxTopicBytes <? len topic then None
  else match cut_levels 4 topic with
       | Some ([_; _; contract; node], _) =>
           if negb (HasPrefix contract "_") || (node == "") || negb (IsCommand (ClassOf contract))
           then None else Some node
       | _ => None
       end.

(** ** Specification: what a topic is *)

(** The topic a decomposition stands for. *)
Definition render (p : Parsed) : string :=
  Join [PrefixSeg p; VersionSeg p; Contract p; NodeID p; Path p] slash.

(** The decompositions [Parse] yields: four single-segment levels, the third a
    contract name. The path is any string. *)
Definition wf_parsed (p : Parsed) : Prop :=
  has_byte slash (PrefixSeg p) = false /\ has_byte slash (VersionSeg p) = false /\
  has_byte slash (Contract p) = false /\ has_byte slash (NodeID p) = false /\
  HasPrefix (Contract p) "_" = true.

(** The decomposition one hop up: the mount heads the path. *)
Definition at_mount (mount : string) (p : Parsed) : Parsed :=
  mkParsed (PrefixSeg p) (VersionSeg p) (Contract p) (NodeID p) (mount +:+ "/" +:+ Path p).

(** ** Lemmas *)

(** The four header levels of a split topic. *)
Lemma Split_header a b c d path :
  has_byte slash a = false -> has_byte slash b = false ->
  has_byte slash c = false -> has_byte slash d = false ->
  Split (Join [a; b; c; d; path] slash) slash = a :: b :: c :: d :: Split path slash.
Proof. intros. simpl. by rewrite !Split_app_sep. Qed.

Lemma Split_render p :
  wf_parsed p ->
  Split (render p) slash = PrefixSeg p :: VersionSeg p :: Contract p :: NodeID p :: Split (Path p) slash.
Proof. intros (?&?&?&?&?). by apply Split_header. Qed.

(** A topic splits into five levels iff it is four slash-free levels and a rest. *)
Lemma SplitN_5 topic a b c d path :
  SplitN topic slash 5 = [a; b; c; d; path] <->
  has_byte slash a = false /\ has_byte slash b = false /\
  has_byte slash c = false /\ has_byte slash d = false /\
  topic = Join [a; b; c; d; path] slash.
Proof.
  rewrite SplitN_Split. split.
  - pose proof (Split_no_sep topic slash) as Hn.
    case_bool_decide as Hl.
    + intros H. rewrite H in Hl. simpl in Hl. lia.
    + destruct (Split topic slash) as [|x0 [|x1 [|x2 [|x3 [|x4 l]]]]] eqn:E;
        simpl in Hl; try lia.
      intros [= -> -> -> -> <-]. rewrite !Forall_cons in Hn. destruct_and!.
      repeat split; try done. rewrite <- (Join_Split topic slash), E. done.
  - intros (?&?&?&?&->). rewrite Split_header by done. simpl.
    destruct (Split_cons_inv path slash) as (h & l & E).
    rewrite bool_decide_eq_false_2 by (rewrite E; simpl; lia).
    rewrite drop_0, Join_Split. done.
Qed.

Lemma SplitN_Join5 a b c d path :
  has_byte slash a = false -> has_byte slash b = false ->
  has_byte slash c = false -> has_byte slash d = false ->
  SplitN (Join [a; b; c; d; path] slash) slash 5 = [a; b; c; d; path].
Proof. intros. by apply SplitN_5. Qed.

(** What [SplitN] does on everything else: fewer than five pieces. *)
Lemma SplitN_5_cases topic :
  (exists a b c d path, SplitN topic slash 5 = [a; b; c; d; path]) \/
  (length (SplitN topic slash 5) < 5)%nat.
Proof.
  rewrite SplitN_Split. case_bool_decide as Hl; [right; lia|].
  destruct (Split topic slash) as [|x0 [|x1 [|x2 [|x3 [|x4 l]]]]]; simpl in Hl; try lia.
  left. simpl. eauto 10.
Qed.

Ltac splitN5 topic :=
  let H := fresh "Hshort" in
  destruct (SplitN_5_cases topic) as [(?a & ?b & ?c & ?d & ?path & E5)|H];
  [|destruct (SplitN topic slash 5) as [|? [|? [|? [|? [|? [|? ?]]]]]]; simpl in H; try lia].

(** [cut_levels] reads the first levels [Split] would produce. *)
Lemma cut_levels_Split n topic :
  cut_levels n topic =
  if bool_decide (length (Split topic slash) <= n)%nat then None
  else Some (take n (Split topic slash), Join (drop n (Split topic slash)) slash).
Proof.
  revert topic. induction n as [|n IH]; intros topic.
  - rewrite bool_decide_eq_false_2; [by rewrite drop_0, Join_Split|].
    destruct (Split_cons_inv topic slash) as (h & l & ->). simpl. lia.
  - cbn [cut_levels]. rewrite (Split_Cut topic slash).
    destruct (Cut topic slash) as [[x y]|] eqn:E.
    + rewrite IH. repeat case_bool_decide; simpl in *; first [done|lia].
    + by rewrite bool_decide_eq_true_2 by (simpl; lia).
Qed.

Lemma Parse_levels topic :
  Parse topic =
  if MaxTopicBytes <? len topic then Err (ErrTopicTooLong (len topic))
  else match SplitN topic slash 5 with
       | [s0; s1; s2; s3; path] =>
           if HasPrefix s2 "_" then Ok (mkParsed s0 s1 s2 s3 path) else Err (ErrNoContract s2)
       | _ => Err (ErrTooFewSegments (length (Split topic slash)))
       end.
Proof.
  unfold Parse. case_match; [done|]. rewrite SplitN_Split.
  destruct (Split topic slash) as [|x0 [|x1 [|x2 [|x3 [|x4 l]]]]]; done.
Qed.

Lemma Parse_render p :
  len (render p) <= MaxTopicBytes -> wf_parsed p -> Parse (render p) = Ok p.
Proof.
  intros Hlen Hwf. rewrite Parse_levels.
  destruct (Z.ltb_spec MaxTopicBytes (len (render p))); [lia|].
  destruct Hwf as (?&?&?&?&Hc). unfold render.
  rewrite SplitN_Join5 by done.
  rewrite Hc. by destruct p.
Qed.

Lemma Parse_inv topic p :
  Parse topic = Ok p -> len topic <= MaxTopicBytes /\ wf_parsed p /\ topic = render p.
Proof.
  rewrite Parse_levels. destruct (Z.ltb_spec MaxTopicBytes (len topic)); [done|].
  splitN5 topic; try done. rewrite E5.
  destruct (HasPrefix c "_") eqn:Hc; [|done]. intros [= <-].
  apply SplitN_5 in E5 as (?&?&?&?&?). done.
Qed.

Lemma MountInsert_levels a b c d path mount :
  has_byte slash a = false -> has_byte slash b = false ->
  has_byte slash c = false -> has_byte slash d = false ->
  MountInsert (Join [a; b; c; d; path] slash) mount =
  Join [a; b; c; d; mount +:+ "/" +:+ path] slash.
Proof.
  intros. unfold MountInsert.
  by rewrite SplitN_Join5.
Qed.

Lemma MountStrip_levels a b c d path mount :
  has_byte slash a = false -> has_byte slash b = false ->
  has_byte slash c = false -> has_byte slash d = false ->
  MountStrip (Join [a; b; c; d; mount +:+ "/" +:+ path] slash) mount =
  (Join [a; b; c; d; path] slash, true).
Proof.
  intros. unfold MountStrip.
  rewrite SplitN_Join5 by done.
  by rewrite (proj2 (CutPrefix_Some _ _ path)) by by rewrite app_assoc_s.
Qed.

(** The topics with a hierarchy path: five levels or more. *)
Definition five_levels (topic : string) : bool :=
  bool_decide (5 <= length (Split topic slash))%nat.

Lemma five_levels_spec topic :
  five_levels topic = true <->
  exists a b c d path, has_byte slash a = false /\ has_byte slash b = false /\
    has_byte slash c = false /\ has_byte slash d = false /\
    topic = Join [a; b; c; d; path] slash.
Proof.
  unfold five_levels. rewrite bool_decide_eq_true. split.
  - intros Hl. pose proof (Split_no_sep topic slash) as Hn.
    destruct (Split topic slash) as [|x0 [|x1 [|x2 [|x3 [|x4 l]]]]] eqn:E; simpl in Hl; try lia.
    rewrite !Forall_cons in Hn. destruct_and!.
    exists x0, x1, x2, x3, (Join (x4 :: l) slash). repeat split; try done.
    by rewrite <- (Join_Split topic slash), E.
  - intros (a&b&c&d&path&?&?&?&?&->). rewrite Split_header by done. simpl.
    destruct (Split_cons_inv path slash) as (h & l & ->). simpl. lia.
Qed.

Lemma MountInsert_five topic mount :
  five_levels topic = true -> five_levels (MountInsert topic mount) = true.
Proof.
  rewrite !five_levels_spec. intros (a&b&c&d&path&?&?&?&?&->).
  rewrite MountInsert_levels by done. by exists a, b, c, d, (mount +:+ "/" +:+ path).
Qed.

(** One hop up and back down. *)
Lemma MountStrip_insert topic mount :
  five_levels topic = true -> MountStrip (MountInsert topic mount) mount = (topic, true).
Proof.
  rewrite five_levels_spec. intros (a&b&c&d&path&?&?&?&?&->).
  rewrite MountInsert_levels by done. by apply MountStrip_levels.
Qed.

Lemma GapStream_at_mount mount p : GapStream (at_mount mount p) = GapStream p.
Proof.
  unfold GapStream, at_mount. simpl.
  destruct (CutLast (Path p) slash) as [[x y]|] eqn:E.
  - apply CutLast_Some in E as [-> Hy].
    rewrite (proj2 (CutLast_Some _ _ (mount +:+ "/" +:+ x) y)); [done|].
    split; [|done]. by rewrite <- !app_assoc_s.
  - destruct (has_byte slash (Path p)) eqn:Hp.
    + exfalso. revert E Hp. induction (Path p) as [|b s IH]; simpl; [done|].
      destruct (CutLast s slash) as [[]|]; [done|].
      case_bool_decide; [done|]. intros _ Hs. by apply IH.
    + rewrite (proj2 (CutLast_Some _ _ mount (Path p))); [done|]. by split.
Qed.

(** ** Properties *)

(** C40: [Parse] accepts exactly the topics of at most 65535 bytes that are a
    prefix, a version, a contract name starting with ["_"], a node id and a
    non-optional path joined by ["/"], and returns exactly those parts: parsing
    and printing are inverse to each other. *)
Theorem Parse_spec topic p :
  Parse topic = Ok p <-> len topic <= MaxTopicBytes /\ wf_parsed p /\ topic = render p.
Proof.
  split; [apply Parse_inv|]. intros (Hlen & Hwf & ->). by apply Parse_render.
Qed.

(** The in-place scan of [CommandTarget] answers as [Parse] and [ClassOf] do,
    on every topic: the node of a command, nothing for any other record and
    nothing for a command without a node. *)
Theorem CommandTarget_spec topic :
  CommandTarget topic =
  match Parse topic with
  | Ok p => if IsCommand (ClassOf (Contract p)) && (NodeID p != "") then Some (NodeID p) else None
  | Err _ => None
  end.
Proof.
  unfold CommandTarget, Parse. case_match; [done|]. rewrite cut_levels_Split.
  destruct (Split topic slash) as [|x0 [|x1 [|x2 [|x3 [|x4 l]]]]]; try done. simpl.
  destruct (HasPrefix x2 "_"); [|done]. simpl.
  case_bool_decide; simpl; destruct (IsCommand (ClassOf x2)); done.
Qed.

(** [MountStrip] succeeds exactly on what [MountInsert] produces for the same
    mount, and gives the original topic back: a record handed down a hop is the
    record that would have risen it. *)
Theorem MountStrip_spec topic mount topic' :
  MountStrip topic mount = (topic', true) <->
  five_levels topic' = true /\ topic = MountInsert topic' mount.
Proof.
  split; [|intros [H ->]; by apply MountStrip_insert].
  unfold MountStrip. splitN5 topic; try done. rewrite E5.
  apply SplitN_5 in E5 as (?&?&?&?&->).
  destruct (CutPrefix path (mount +:+ "/")) as [rest|] eqn:E; [|done].
  intros [= <-]. apply CutPrefix_Some in E as ->. split.
  - apply five_levels_spec. by exists a, b, c, d, rest.
  - etrans; [|symmetry; by apply (MountInsert_levels a b c d rest mount)].
    by rewrite <- app_assoc_s.
Qed.

(** The uplink rewrite over several hops, nearest mount first, and the downlink
    rewrite back, farthest first. *)
Definition insert_all (mounts : list string) (topic : string) : string :=
  foldl MountInsert topic mounts.

Fixpoint strip_all (mounts : list string) (topic : string) : string * bool :=
  match mounts with
  | [] => (topic, true)
  | m :: ms => match MountStrip topic m with
               | (t, true) => strip_all ms t
               | (t, false) => (t, false)
               end
  end.

Lemma strip_all_app ms ms' topic :
  strip_all (ms ++ ms') topic =
  match strip_all ms topic with (t, true) => strip_all ms' t | r => r end.
Proof.
  revert topic. induction ms as [|m ms IH]; intros topic; [done|]. simpl.
  destruct (MountStrip topic m) as [t []]; [apply IH|done].
Qed.

(** Across any number of levels, stripping the mounts on the way down undoes
    inserting them on the way up: a command's answer and the command meet at the
    same topic at every level of the tree. *)
Theorem strip_insert_all mounts topic :
  five_levels topic = true -> strip_all (rev mounts) (insert_all mounts topic) = (topic, true).
Proof.
  revert topic. induction mounts as [|m mounts IH]; intros topic H; [done|]. simpl.
  rewrite strip_all_app, IH by by apply MountInsert_five.
  simpl. by rewrite MountStrip_insert.
Qed.

Lemma strip_insert_all_witness :
  strip_all (rev ["edge1"; "site1"]) (insert_all ["edge1"; "site1"] "colca/v1/_Metric/n/l/t")
  = ("colca/v1/_Metric/n/l/t", true).
Proof. apply strip_insert_all. vm_compute. reflexivity. Defined.

(** A path lies under a mount exactly when its segments strictly extend the
    mount's segments (so ["werk10/x"] is not under ["werk1"]), and nothing lies
    under the empty mount. *)
Theorem UnderMount_spec path mount :
  UnderMount path mount = true <->
  mount <> "" /\ exists below, below <> [] /\ Split path slash = Split mount slash ++ below.
Proof.
  unfold UnderMount. rewrite andb_true_iff, negb_true_iff, bool_decide_eq_false.
  by rewrite (Split_HasPrefix_sep path mount slash).
Qed.

Lemma elem_of_add_stream x stream set :
  x ∈ add_stream stream set <-> (x = stream /\ stream <> "") \/ x ∈ set.
Proof. unfold add_stream. case_bool_decide; set_solver. Qed.

Lemma manifest_classes_complete c :
  c <> ClassNone -> c <> ClassGap -> exists name, (name, c) ∈ map_to_list manifestClasses.
Proof.
  intros Hn Hg. setoid_rewrite elem_of_map_to_list.
  destruct c; try done;
    [exists "data"|exists "entity"|exists "definition"|exists "cmd"|exists "ack"
    |exists "audit"|exists "alarm"|exists "log"|exists "annotation"]; vm_compute; done.
Qed.

Lemma elem_of_uplinkStreamSet stream :
  stream ∈ uplinkStreamSet <->
  exists e, e ∈ map_to_list manifestClasses /\ FlowsUp e.2 = true /\
            StreamFor e.2 = stream /\ stream <> "".
Proof.
  unfold uplinkStreamSet. induction (map_to_list manifestClasses) as [|e l IH]; simpl.
  - split; [set_solver|]. intros (e & H & _). by apply elem_of_nil in H.
  - setoid_rewrite elem_of_cons. destruct (FlowsUp e.2) eqn:Hf; simpl.
    + rewrite elem_of_add_stream, IH. naive_solver.
    + rewrite IH. naive_solver congruence.
Qed.

(** A child may replicate onto a stream exactly when it is the stream of some
    class that flows up; so onto every upward stream and never onto
    ["definitions"], whose class flows down. *)
Theorem IsUplinkStream_spec stream :
  IsUplinkStream stream = true <->
  stream <> "" /\ exists c, FlowsUp c = true /\ StreamFor c = stream.
Proof.
  unfold IsUplinkStream. rewrite bool_decide_eq_true, elem_of_uplinkStreamSet. split.
  - intros (e & _ & ? & ? & ?). eauto.
  - intros (Hs & c & Hf & <-).
    destruct (manifest_classes_complete c) as [name Hin]; [by intros ->|by intros ->|].
    exists (name, c). done.
Qed.

(** Every known class travels in exactly one direction: up, or down as a
    command or a definition. *)
Theorem flow_direction c :
  IsKnown c = true -> FlowsUp c = negb (IsCommand c || IsDefinition c).
Proof. by destruct c. Qed.

Lemma flow_direction_witness : FlowsUp ClassAck = negb (IsCommand ClassAck || IsDefinition ClassAck).
Proof. apply flow_direction. reflexivity. Defined.

(** Whether a rising record belongs to the stream its push names does not
    change when a hop inserts a mount: a gap marker keeps naming the stream it
    describes at every ancestor. *)
Theorem MatchesUplinkStream_hop c p mount stream :
  MatchesUplinkStream c (at_mount mount p) stream = MatchesUplinkStream c p stream.
Proof. unfold MatchesUplinkStream. by rewrite GapStream_at_mount. Qed.

Lemma elem_of_partialUplinkStreams stream :
  stream ∈ partialUplinkStreams <-> stream ∈ ["commands"; "definitions"; "entities"; "logs"].
Proof.
  assert (partialUplinkStreams = list_to_set ["commands"; "definitions"; "entities"; "logs"]) as ->
    by (apply (bool_decide_eq_true_1 _); vm_compute; done).
  apply elem_of_list_to_set.
Qed.

(** On a stream whose offsets the parent checks for gaps, every record a node
    can store rises: its class flows up and its contract is not node-private. *)
Theorem UplinkCarriesEveryRecord_sound stream contract :
  UplinkCarriesEveryRecord stream = true ->
  stream <> "" -> StreamFor (ClassOf contract) = stream ->
  FlowsUp (ClassOf contract) = true /\ IsNodePrivate contract = false.
Proof.
  unfold UplinkCarriesEveryRecord. rewrite negb_true_iff, bool_decide_eq_false.
  rewrite elem_of_partialUplinkStreams. intros Hp Hs Hc. split.
  - destruct (ClassOf contract); simpl in *; try done; subst; exfalso; set_solver.
  - unfold IsNodePrivate, nodePrivateContracts. apply bool_decide_eq_false.
    intros ->%elem_of_singleton. vm_compute in Hc. subst. set_solver.
Qed.

Lemma UplinkCarriesEveryRecord_sound_witness :
  FlowsUp (ClassOf "_Metric") = true /\ IsNodePrivate "_Metric" = false.
Proof.
  apply (UplinkCarriesEveryRecord_sound "metrics" "_Metric"); [vm_compute; reflexivity|done|].
  vm_compute; reflexivity.
Defined.

(** The root setter keeps the process root valid. *)
Lemma Root_valid st r : ValidRoot (Root st) = true -> ValidRoot (Root (SetRoot st r).1) = true.
Proof. unfold SetRoot. intros H. by destruct (ValidRoot r) eqn:E. Qed.

Lemma valid_root_bytes_no_slash first r : valid_root_bytes first r = true -> has_byte slash r = false.
Proof.
  revert first. induction r as [|c r IH]; intros first; cbn [valid_root_bytes has_byte]; [done|].
  case_match eqn:E; [|done]. intros H. apply orb_false_iff. split; [|by eapply IH].
  apply bool_decide_eq_false. intros ->. by destruct first.
Qed.

Lemma ValidRoot_no_slash r : ValidRoot r = true -> has_byte slash r = false.
Proof. unfold ValidRoot. case_match; [done|]. apply valid_root_bytes_no_slash. Qed.

(** The signal a metric asks for decides replication, when the metric's topic is
    under the root in force: both topics are equally long, so neither is refused
    for its length. *)
Lemma MetricSignalKey_decides root topic path node signal :
  ValidRoot root = true -> HasPrefix topic (Prefix root) = true ->
  MetricSignalKey root topic = Some (path, node, signal) -> DecidesReplication signal = true.
Proof.
  intros Hroot Hp. unfold MetricSignalKey. destruct (Parse topic) as [p|] eqn:E; [|done].
  destruct (IsMetric (Contract p)) eqn:Em; [|done]. intros [= <- <- <-].
  apply Parse_inv in E as (Hlen & Hwf & Htopic). unfold IsMetric in Em. bool_simp.
  apply ValidRoot_no_slash in Hroot as Hs. apply HasPrefix_spec in Hp as [rest Hrest].
  assert (PrefixSeg p = root /\ VersionSeg p = Version) as [Er Ev].
  { apply (f_equal (fun x => Split x slash)) in Hrest. rewrite Htopic, Split_render in Hrest by done.
    unfold Prefix in Hrest. rewrite <- !app_assoc_s in Hrest.
    change ("/" +:+ (Version +:+ ("/" +:+ rest))) with (String slash (Version +:+ String slash rest)) in Hrest.
    rewrite !Split_app_sep in Hrest by done. by injection Hrest as -> -> _. }
  set (q := mkParsed root Version "_Signal" (NodeID p) (Path p)).
  assert (SignalTopicForMetric root p = render q) as ->.
  { unfold SignalTopicForMetric, Prefix, render, q; simpl. by rewrite <- !app_assoc_s. }
  unfold DecidesReplication. rewrite Parse_render; [done| |].
  - replace (len (render q)) with (len topic); [done|]. rewrite Htopic. unfold render, q, len.
    cbn [PrefixSeg VersionSeg Contract NodeID Path Join]. rewrite Er, Ev, Em. rewrite !length_app_s. done.
  - unfold wf_parsed, q in *; simpl. naive_solver.
Qed.

(** Whatever sequence of roots a process is given, the root in force is a
    valid one, a single non-empty topic segment, and a topic built under it is
    recognised as this namespace's. *)
Theorem SetRoot_segment (rs : list string) (rest : string) :
  let root := Root (foldl (fun st r => (SetRoot st r).1) None rs) in
  ValidRoot root = true /\ has_byte slash root = false /\ root <> "" /\
  IsUns root (Prefix root +:+ rest) = true.
Proof.
  intros root.
  assert (H : ValidRoot root = true).
  { unfold root. assert (H0 : ValidRoot (Root None) = true) by reflexivity. revert H0.
    generalize (None : option string). induction rs as [|r rs IH]; intros st H; [done|].
    apply IH. by apply Root_valid. }
  split; [done|]. split; [by apply ValidRoot_no_slash|]. split.
  - intros E. by rewrite E in H.
  - unfold IsUns. apply HasPrefix_spec. unfold Prefix.
    exists (Version +:+ "/" +:+ rest). by rewrite !app_assoc_s.
Qed.
