(* ===== verification/TopicFilter.v ===== *)
(** * TopicFilter: MQTT topic filters

    Models [plugins/uns/topicfilter.go]. The reference is MQTT's level-by-level
    definition of a match, as an inductive relation on the levels of the filter
    and of the topic. *)

From S2P Require Import Prelude.
Local Open Scope go_scope.

(** ** The code *)

(** The loop of [ValidFilter] over the remaining levels. *)
Fixpoint valid_levels (levels : list string) : bool :=
  match levels with
  | [] => true
  | level :: rest =>
      if ContainsAny level "+#" && (level != "+") && (level != "#") then false
      else if (level == "#") && negb (bool_decide (rest = [])) then false
      else valid_levels rest
  end.

Definition ValidFilter (f : string) : bool :=
  if f == "" then false else valid_levels (Split f slash).

(** [strings.Cut] with its three results. *)
Definition Cut3 (s : string) : string * string * bool :=
  match Cut s slash with
  | Some (before, after) => (before, after, true)
  | None => (s, "", false)
  end.

(** The [for] loop of [MatchFilter]. Every turn that does not return shortens
    the filter, so as many turns as it has bytes, plus one, are enough:
    [MatchFilter_spec] has no side condition on the fuel. *)
Fixpoint match_filter (fuel : nat) (f topic : string) : bool :=
  match fuel with
  | O => false
  | S fuel' =>
      let '(level, rest, more) := Cut3 f in
      if level == "#" then true
      else
        let '(tlevel, trest, tmore) := Cut3 topic in
        if (level != "+") && (level != tlevel) then false
        else if negb more || negb tmore
        then (more == tmore) || (more && (rest == "#"))
        else match_filter fuel' rest trest
  end.

Definition MatchFilter (f topic : string) : bool := match_filter (S (String.length f)) f topic.

(** ** The specification *)

(** One level of a filter against one level of a topic. *)
Definition level_ok (level tlevel : string) : Prop :=
  level <> "#" /\ (level = "+" \/ level = tlevel).

(** MQTT matching: ["+"] is any one level, ["#"] any number of levels below the
    level it follows, that level itself included. *)
Inductive Matches : list string -> list string -> Prop :=
| Matches_hash fs ts : Matches ("#" :: fs) ts
| Matches_last l t : level_ok l t -> Matches [l] [t]
| Matches_parent l t : level_ok l t -> Matches [l; "#"] [t]
| Matches_level l t fs ts :
    level_ok l t -> fs <> [] -> ts <> [] -> Matches fs ts -> Matches (l :: fs) (t :: ts).

(** ** Lemmas *)

Lemma Cut3_Split s :
  exists before after more, Cut3 s = (before, after, more) /\
    Split s slash = before :: (if more then Split after slash else []) /\
    (more = false -> after = "") /\
    (more = true -> (String.length after < String.length s)%nat).
Proof.
  unfold Cut3. rewrite (Split_Cut s slash).
  destruct (Cut s slash) as [[x y]|] eqn:E.
  - exists x, y, true. repeat split; try done. intros _.
    apply Cut_Some in E as [-> _]. rewrite length_app_s. simpl. lia.
  - by exists s, "", false.
Qed.

Lemma Split_eq_single s x : has_byte slash x = false -> Split s slash = [x] <-> s = x.
Proof.
  intros Hx. split; [|intros ->; by apply Split_single].
  intros H. by rewrite <- (Join_Split s slash), H.
Qed.

Lemma match_filter_spec fuel f topic :
  (String.length f < fuel)%nat ->
  match_filter fuel f topic = true <-> Matches (Split f slash) (Split topic slash).
Proof.
  revert f topic. induction fuel as [|fuel IH]; intros f topic Hfuel; [lia|]. cbn [match_filter].
  destruct (Cut3_Split f) as (level & rest & more & -> & -> & Hr & Hlen).
  destruct (Cut3_Split topic) as (tlevel & trest & tmore & -> & -> & Ht & _).
  case_bool_decide as Hh; [subst; split; [constructor|done]|].
  destruct ((level != "+") && (level != tlevel)) eqn:Hl.
  { bool_simp. split; [done|]. intros HM. inversion HM; subst; unfold level_ok in *; naive_solver. }
  assert (Hok : level_ok level tlevel).
  { split; [done|]. apply andb_false_iff in Hl.
    rewrite !negb_false_iff, !bool_decide_eq_true in Hl. done. }
  destruct more, tmore; simpl.
  - rewrite IH by (specialize (Hlen eq_refl); lia). split.
    + intros HM. constructor; auto with go.
    + intros HM. inversion HM; subst; [done|..|done].
      * exfalso. by eapply Split_not_nil.
      * exfalso. by eapply Split_not_nil.
  - rewrite bool_decide_eq_true. split.
    + intros ->. by apply Matches_parent.
    + intros HM. inversion HM; subst; [done|..|done].
      * exfalso. by eapply Split_not_nil.
      * by apply (Split_eq_single rest "#").
  - split; [done|]. intros HM. inversion HM; subst; [done|..|done].
    exfalso. by eapply Split_not_nil.
  - split; [|done]. intros _. by constructor.
Qed.

(** ** Properties *)

(** C38: [MatchFilter] decides MQTT topic matching: it terminates on every filter
    and topic and answers true exactly when the levels match, including that
    ["a/#"] matches ["a"] itself. *)
Theorem MatchFilter_spec f topic :
  MatchFilter f topic = true <-> Matches (Split f slash) (Split topic slash).
Proof. apply match_filter_spec. lia. Qed.

Lemma valid_levels_spec levels :
  valid_levels levels = true <->
  forall i level, levels !! i = Some level ->
    (level = "+" \/ level = "#" \/ ContainsAny level "+#" = false) /\
    (level = "#" -> S i = length levels).
Proof.
  induction levels as [|l ls IH]; simpl; [split; [|done]; intros _ i level H; by rewrite lookup_nil in H|].
  split.
  - destruct (ContainsAny l "+#" && (l != "+") && (l != "#")) eqn:Hw; [done|].
    destruct ((l == "#") && _) eqn:Hh; [done|].
    intros H [|i] level Hi; simpl in Hi.
    + injection Hi as <-. split.
      * destruct (ContainsAny l "+#"); [|by right; right]. simpl in Hw.
        apply andb_false_iff in Hw. rewrite !negb_false_iff, !bool_decide_eq_true in Hw. naive_solver.
      * intros ->. simpl in Hh. apply negb_false_iff, bool_decide_eq_true in Hh. by subst.
    + destruct (proj1 IH H i level Hi) as [? H2]. split; [done|]. intros E. by rewrite (H2 E).
  - intros H. destruct (H 0%nat l eq_refl) as [Hw Hh].
    replace (ContainsAny l "+#" && (l != "+") && (l != "#")) with false.
    2: { symmetry. destruct Hw as [->|[->| ->]]; done. }
    replace ((l == "#") && negb (bool_decide (ls = []))) with false.
    2: { symmetry. case_bool_decide as E; [|done]. specialize (Hh E). destruct ls; [done|simpl in Hh; lia]. }
    apply IH. intros i level Hi. destruct (H (S i) level Hi) as [? H2]. split; [done|].
    intros E. specialize (H2 E). lia.
Qed.

(** [ValidFilter] accepts exactly the non-empty filters in which ["+"] and
    ["#"] stand for whole levels and ["#"] only for the last one. *)
Theorem ValidFilter_spec f :
  ValidFilter f = true <->
  f <> "" /\ forall i level, Split f slash !! i = Some level ->
    (level = "+" \/ level = "#" \/ ContainsAny level "+#" = false) /\
    (level = "#" -> S i = length (Split f slash)).
Proof.
  unfold ValidFilter. case_bool_decide as E; [naive_solver|]. rewrite valid_levels_spec. naive_solver.
Qed.
