(* ===== verification/Grants.v ===== *)
(** * Grants: the grant grammar

    Models the grant half of [plugins/uns/authz.go]: [Grant], [CmdClasses],
    [FormatGrant], [ParseGrant], [parseZone], [parseNodeZone], [NodeRelative],
    [ValidElementID] and [CmdClass]. *)

From S2P Require Import Prelude.
Local Open Scope go_scope.

(** ** The code *)

Record Grant := mkGrant {
  Verb : string;
  Element : string;
  Classes : list string;
}.

#[export] Instance Grant_eq_dec : EqDecision Grant.
Proof. solve_decision. Defined.

Inductive GrantError :=
| ErrElementID (id : string)        (** an element is named by identity, not by path *)
| ErrReadShape | ErrWriteShape | ErrAdminShape | ErrCmdShape
| ErrAdminZone                      (** zone-scoped admin is reserved *)
| ErrNoClass                        (** a cmd grant needs at least one class *)
| ErrUnknownClass (c : string)
| ErrVerb (v : string)
| ErrEmptyZone
| ErrUnknownZone (z : string)
| ErrNodePath.                      (** a path of names is needed below $node *)

Definition ValidElementID (id : string) : result GrantError unit :=
  if ContainsAny id "/+#:" then Err (ErrElementID id) else Ok tt.

Definition NodeZone : string := "$node".

(** [NodeRelative]: the path below the node, when the element is node-relative. *)
Definition NodeRelative (element : string) : option string :=
  if element == NodeZone then Some ""
  else CutPrefix element (NodeZone +:+ "/").

(** Hazard classes; a Go map used as a set. *)
Definition cmdClasses : gset string :=
  {["acknowledge"; "annotate"; "param"; "operate"; "maintain"; "configure"; "admin"]}.

Definition known_class (c : string) : bool := bool_decide (c ∈ cmdClasses).

Definition CmdClasses : list string := sort_strings (elements cmdClasses).

(** The first element of a list that fails a test: [for ... { if bad { return } }]. *)
Definition first_unknown (classes : list string) : option string :=
  snd <$> list_find (fun c => known_class c = false) classes.

Definition FormatGrant (g : Grant) : result GrantError string :=
  let element := if Element g == "#" then "" else Element g in
  let zone := if element != "" then element +:+ "/#" else "#" in
  if Verb g == "read" then Ok ("read:" +:+ zone)
  else if Verb g == "write" then Ok ("write:" +:+ zone)
  else if Verb g == "admin" then
    if element != "" then Err ErrAdminZone else Ok "admin:#"
  else if Verb g == "cmd" then
    if bool_decide (Classes g = []) then Err ErrNoClass
    else
      let classes := sort_strings (Classes g) in
      match first_unknown classes with
      | Some c => Err (ErrUnknownClass c)
      | None => Ok ("cmd:" +:+ zone +:+ ":" +:+ Join classes comma)
      end
  else Err (ErrVerb (Verb g)).

(** A segment of a path below [$node]. *)
Definition bad_node_segment (seg : string) : bool := (seg == "") || ContainsAny seg "+#:$".

Definition parseNodeZone (z : string) : result GrantError string :=
  match NodeRelative z with
  | None => Err (ErrUnknownZone z)
  | Some path =>
      if path == "" then Ok NodeZone
      else if existsb bad_node_segment (Split path slash) then Err ErrNodePath
      else Ok z
  end.

Definition parseZone (z : string) : result GrantError string :=
  if z == "#" then Ok "#"
  else
    let z := TrimSuffix z "/#" in
    if z == "" then Err ErrEmptyZone
    else if HasPrefix z "$" then parseNodeZone z
    else let! _ := ValidElementID z in Ok z.

Definition ParseGrant (s : string) : result GrantError Grant :=
  match SplitN s colon 3 with
  | verb :: args =>
      if verb == "read" then
        match args with
        | [zone] => let! z := parseZone zone in Ok (mkGrant "read" z [])
        | _ => Err ErrReadShape
        end
      else if verb == "write" then
        match args with
        | [zone] => let! z := parseZone zone in Ok (mkGrant "write" z [])
        | _ => Err ErrWriteShape
        end
      else if verb == "admin" then
        match args with
        | [zone] =>
            let! z := parseZone zone in
            if z != "#" then Err ErrAdminZone else Ok (mkGrant "admin" "#" [])
        | _ => Err ErrAdminShape
        end
      else if verb == "cmd" then
        match args with
        | [zone; classes] =>
            let! z := parseZone zone in
            if classes == "" then Err ErrNoClass
            else match first_unknown (Split classes comma) with
                 | Some c => Err (ErrUnknownClass c)
                 | None => Ok (mkGrant "cmd" z (Split classes comma))
                 end
        | _ => Err ErrCmdShape
        end
      else Err (ErrVerb verb)
  | [] => Err (ErrVerb "")
  end.

(** [CmdClass]: the hazard class of a command contract; unknown ones get the
    highest. *)
Definition CmdClass (contract : string) : string :=
  if contract == "_CmdAcknowledge" then "acknowledge"
  else if contract == "_CmdParam" then "param"
  else if contract == "_CmdOperate" then "operate"
  else if contract == "_CmdMaintain" then "maintain"
  else if (contract == "_CmdConfigure") || (contract == "_CmdEdit") then "configure"
  else "admin".

(** ** Specification: the grants the grammar can express *)

(** The zones: everything, one element, the node, or a path below the node. *)
Definition valid_zone (z : string) : bool :=
  (z == "#") || (z == NodeZone) ||
  match CutPrefix z (NodeZone +:+ "/") with
  | Some path => negb (existsb bad_node_segment (Split path slash))
  | None => (z != "") && negb (HasPrefix z "$") && negb (ContainsAny z "/+#:")
  end.

Definition valid_grant (g : Grant) : bool :=
  valid_zone (Element g) &&
  if Verb g == "cmd" then
    negb (bool_decide (Classes g = [])) && forallb known_class (Classes g)
  else
    ((Verb g == "read") || (Verb g == "write") || ((Verb g == "admin") && (Element g == "#"))) &&
    bool_decide (Classes g = []).

(** A grant as [FormatGrant] writes it: its classes in order. *)
Definition canonical (g : Grant) : Grant := mkGrant (Verb g) (Element g) (sort_strings (Classes g)).

(** The grant as text, its classes as they stand. *)
Definition zone_text (z : string) : string := if z == "#" then "#" else z +:+ "/#".

Definition grant_text (g : Grant) : string :=
  if Verb g == "cmd" then "cmd:" +:+ zone_text (Element g) +:+ ":" +:+ Join (Classes g) comma
  else if Verb g == "admin" then "admin:#"
  else Verb g +:+ ":" +:+ zone_text (Element g).

(** ** Lemmas *)

Lemma first_unknown_None classes : first_unknown classes = None <-> forallb known_class classes = true.
Proof.
  unfold first_unknown. rewrite fmap_None, list_find_None, forallb_forall, Forall_forall.
  setoid_rewrite list_elem_of_In. split; intros H x Hx; specialize (H x Hx);
    destruct (known_class x); done.
Qed.

Lemma known_class_sep c b : known_class c = true -> b = comma \/ b = colon -> has_byte b c = false.
Proof.
  unfold known_class. rewrite bool_decide_eq_true. intros H Hb.
  unfold cmdClasses in H. rewrite !elem_of_union, !elem_of_singleton in H.
  destruct_or!; by subst.
Qed.

Lemma node_path_no_colon path :
  existsb bad_node_segment (Split path slash) = false -> has_byte colon path = false.
Proof.
  intros H. rewrite <- (Join_Split path slash). apply has_byte_Join; [done|].
  apply Forall_forall. intros x Hx. eapply (ContainsAny_has_byte _ _ "+#:$"); [|done].
  apply list_elem_of_In in Hx.
  destruct (bad_node_segment x) eqn:E; unfold bad_node_segment in E.
  - assert (existsb bad_node_segment (Split path slash) = true) by (apply existsb_exists; eauto).
    congruence.
  - by apply orb_false_iff in E as [_ E].
Qed.

Lemma parseNodeZone_Ok z e : HasPrefix z "$" = true -> parseNodeZone z = Ok e -> valid_zone e = true.
Proof.
  intros _. unfold parseNodeZone, NodeRelative, valid_zone. case_bool_decide as Hz.
  - intros [= <-]. by rewrite orb_true_r.
  - destruct (CutPrefix z (NodeZone +:+ "/")) as [path|] eqn:E; [|done].
    case_bool_decide; [intros [= <-]; by rewrite orb_true_r|].
    destruct (existsb _ _) eqn:Hb; [done|]. intros [= <-]. rewrite E, Hb. by rewrite orb_true_r.
Qed.

Lemma NodeZone_dollar z path : CutPrefix z (NodeZone +:+ "/") = Some path -> HasPrefix z "$" = true.
Proof. intros ->%CutPrefix_Some. apply HasPrefix_spec. by eexists. Qed.

(** [parseZone] yields valid zones only. *)
Lemma parseZone_Ok z e : parseZone z = Ok e -> valid_zone e = true.
Proof.
  unfold parseZone. case_bool_decide; [by intros [= <-]|].
  case_bool_decide as He; [done|].
  destruct (HasPrefix (TrimSuffix z "/#") "$") eqn:Hd; [by apply parseNodeZone_Ok|].
  unfold ValidElementID. destruct (ContainsAny _ _) eqn:Hc; [done|]. intros [= <-].
  unfold valid_zone. destruct (CutPrefix _ _) as [path|] eqn:E.
  - apply NodeZone_dollar in E. congruence.
  - rewrite (bool_decide_eq_false_2 _ He), Hd, Hc. by rewrite orb_true_r.
Qed.

(** ... and reads every valid zone back from its text. *)
Lemma parseZone_text z : valid_zone z = true -> parseZone (zone_text z) = Ok z.
Proof.
  unfold zone_text, parseZone. intros Hv. destruct (decide (z = "#")) as [->|H1]; [done|].
  rewrite (bool_decide_eq_false_2 _ H1).
  rewrite bool_decide_eq_false_2.
  2: { intros H. apply (f_equal String.length) in H. rewrite length_app_s in H. simpl in H. lia. }
  rewrite TrimSuffix_app. unfold valid_zone in Hv.
  rewrite (bool_decide_eq_false_2 _ H1) in Hv. simpl in Hv.
  destruct (decide (z = NodeZone)) as [->|H2]; [done|].
  rewrite (bool_decide_eq_false_2 _ H2) in Hv. simpl in Hv.
  destruct (CutPrefix z (NodeZone +:+ "/")) as [path|] eqn:E.
  - rewrite bool_decide_eq_false_2 by (intros ->; done).
    rewrite (NodeZone_dollar _ _ E). unfold parseNodeZone, NodeRelative.
    rewrite (bool_decide_eq_false_2 _ H2), E. apply negb_true_iff in Hv. rewrite Hv.
    rewrite bool_decide_eq_false_2; [done|]. intros ->. done.
  - bool_simp. unfold ValidElementID. by use_bools.
Qed.

Lemma zone_text_no_colon z : valid_zone z = true -> has_byte colon (zone_text z) = false.
Proof.
  unfold zone_text. intros Hv. case_bool_decide as H1; [done|]. rewrite has_byte_app.
  apply orb_false_iff. split; [|done]. unfold valid_zone in Hv.
  rewrite (bool_decide_eq_false_2 _ H1) in Hv. simpl in Hv.
  destruct (decide (z = NodeZone)) as [->|H2]; [done|].
  rewrite (bool_decide_eq_false_2 _ H2) in Hv. simpl in Hv.
  destruct (CutPrefix z (NodeZone +:+ "/")) as [path|] eqn:E.
  - apply CutPrefix_Some in E as ->. rewrite has_byte_app. apply orb_false_iff.
    split; [done|]. by apply node_path_no_colon, negb_true_iff.
  - bool_simp. by eapply ContainsAny_has_byte.
Qed.

Lemma classes_roundtrip classes :
  classes <> [] -> forallb known_class classes = true ->
  Split (Join classes comma) comma = classes /\ Join classes comma <> "" .
Proof.
  intros Hn H. split.
  - apply Split_Join; [done|]. apply Forall_forall. intros x Hx.
    rewrite forallb_forall in H. apply (known_class_sep x); [|by left]. by apply H, list_elem_of_In.
  - destruct classes as [|c cs]; [done|]. simpl in H. apply andb_true_iff in H as [Hc _].
    destruct c as [|a c]; [by vm_compute in Hc|]. by destruct cs.
Qed.

(** Reading a grant's text gives the grant. *)
Lemma ParseGrant_text g : valid_grant g = true -> ParseGrant (grant_text g) = Ok g.
Proof.
  unfold valid_grant, grant_text, ParseGrant. destruct g as [verb z classes]. simpl.
  intros [Hz H]%andb_true_iff. pose proof (zone_text_no_colon z Hz) as Hc.
  pose proof (parseZone_text z Hz) as Hp. case_bool_decide as Hv.
  - bool_simp. subst. destruct (classes_roundtrip classes) as [Hs Hne]; [done..|].
    change ("cmd:" +:+ zone_text z +:+ ":" +:+ Join classes comma)
      with ("cmd" +:+ String colon (zone_text z +:+ String colon (Join classes comma))).
    rewrite !SplitN_sep by done. cbn [SplitN].
    simpl. rewrite Hp. rewrite bool_decide_eq_false_2 by done. rewrite Hs.
    by rewrite (proj2 (first_unknown_None classes)).
  - apply andb_true_iff in H as [H ->%bool_decide_eq_true].
    apply orb_true_iff in H as [[H|H]%orb_true_iff|H].
    + bool_simp. subst. simpl.
      rewrite app_nil_l, SplitN_none by done. by rewrite Hp.
    + bool_simp. subst. simpl.
      rewrite app_nil_l, SplitN_none by done. by rewrite Hp.
    + bool_simp. by subst.
Qed.

Lemma parse_zone_grant verb zone s z :
  (match parseZone zone with Ok z => Ok (mkGrant verb z []) | Err e => Err e end)
    = Ok (E := GrantError) s ->
  z = Element s -> Verb s = verb /\ Classes s = [] /\ valid_zone z = true.
Proof.
  destruct (parseZone zone) as [z'|e] eqn:E; [|done]. intros [= <-] ->.
  by apply parseZone_Ok in E.
Qed.

(** What is read is a valid grant. *)
Lemma ParseGrant_valid s g : ParseGrant s = Ok g -> valid_grant g = true.
Proof.
  unfold ParseGrant, valid_grant. destruct (SplitN s colon 3) as [|verb args]; [done|].
  case_bool_decide; [destruct args as [|zone [|]]; try done|].
  { intros H'. eapply parse_zone_grant in H' as (-> & -> & ->); done. }
  case_bool_decide; [destruct args as [|zone [|]]; try done|].
  { intros H'. eapply parse_zone_grant in H' as (-> & -> & ->); done. }
  case_bool_decide; [destruct args as [|zone [|]]; try done|].
  { destruct (parseZone zone) as [z|e]; [|done].
    destruct (z != "#"); [done|]. by intros [= <-]. }
  case_bool_decide; [|done]. destruct args as [|zone [|classes [|]]]; try done.
  destruct (parseZone zone) as [z|e] eqn:Ez; [|done]. case_bool_decide; [done|].
  destruct (first_unknown (Split classes comma)) eqn:Ec; [done|]. intros [= <-].
  apply first_unknown_None in Ec. simpl. rewrite (parseZone_Ok _ _ Ez), Ec.
  rewrite bool_decide_eq_false_2; [done|]. apply Split_not_nil.
Qed.

Lemma forallb_Permutation_eq {A} (f : A -> bool) l l' : l ≡ₚ l' -> forallb f l = forallb f l'.
Proof. induction 1 as [|x l l' _ IH|x y l|l l' l'' _ IH1 _ IH2]; simpl; [done|by rewrite IH| |congruence].
  by rewrite !andb_assoc, (andb_comm (f x)). Qed.

Lemma valid_grant_canonical g : valid_grant (canonical g) = valid_grant g.
Proof.
  unfold valid_grant, canonical. simpl.
  assert (Hn : bool_decide (sort_strings (Classes g) = []) = bool_decide (Classes g = []))
    by (apply bool_decide_ext, sort_strings_nil).
  rewrite Hn. by rewrite (forallb_Permutation_eq _ _ _ (sort_strings_perm (Classes g))).
Qed.

Lemma FormatGrant_text g : valid_grant g = true -> FormatGrant g = Ok (grant_text (canonical g)).
Proof.
  intros Hv. pose proof Hv as H. unfold valid_grant in H. apply andb_true_iff in H as [Hz H].
  unfold FormatGrant, grant_text, zone_text, canonical. destruct g as [verb z classes]. simpl in *.
  set (zone := if (if z == "#" then "" else z) != "" then (if z == "#" then "" else z) +:+ "/#" else "#").
  assert (Hzone : zone = if z == "#" then "#" else z +:+ "/#").
  { unfold zone. destruct (decide (z = "#")) as [->|H1]; [done|].
    rewrite !(bool_decide_eq_false_2 _ H1). rewrite bool_decide_eq_false_2; [done|]. by intros ->. }
  rewrite <- Hzone. clearbody zone. destruct (decide (verb = "cmd")) as [->|Hc].
  - simpl in *. bool_simp. use_bools.
    rewrite (proj2 (first_unknown_None (sort_strings classes))); [done|].
    by rewrite (forallb_Permutation_eq _ _ _ (sort_strings_perm classes)).
  - rewrite (bool_decide_eq_false_2 _ Hc) in H |- *.
    apply andb_true_iff in H as [[[H|H]%orb_true_iff|H]%orb_true_iff _]; bool_simp; by subst.
Qed.

(** ** Properties *)

(** C39: A grant that the grammar can express is written and read back unchanged,
    up to the order of its command classes, which [FormatGrant] sorts; a grant
    whose classes are already in order is read back exactly. *)
Theorem FormatGrant_ParseGrant g :
  valid_grant g = true ->
  exists s, FormatGrant g = Ok s /\ ParseGrant s = Ok (canonical g) /\
            (Sorted String.le (Classes g) -> ParseGrant s = Ok g).
Proof.
  intros H. exists (grant_text (canonical g)). split; [by apply FormatGrant_text|].
  assert (Hp : ParseGrant (grant_text (canonical g)) = Ok (canonical g))
    by (apply ParseGrant_text; by rewrite valid_grant_canonical).
  split; [done|]. intros Hs. rewrite Hp. unfold canonical.
  rewrite (sort_strings_id _ Hs). by destruct g.
Qed.

Lemma FormatGrant_ParseGrant_witness :
  exists s, FormatGrant (mkGrant "cmd" "line1" ["operate"; "param"]) = Ok s /\
    ParseGrant s = Ok (mkGrant "cmd" "line1" ["operate"; "param"]).
Proof.
  destruct (FormatGrant_ParseGrant (mkGrant "cmd" "line1" ["operate"; "param"])) as (s & H1 & H2 & _);
    [vm_compute; reflexivity|].
  exists s. split; [exact H1|]. rewrite H2. vm_compute. reflexivity.
Defined.

(** Nothing outside the grammar gets in: what [ParseGrant] accepts is exactly
    the grants whose verb is known, whose zone is everything, one element or a
    node-relative path, which name known command classes if and only if they are
    command grants, and whose admin zone is everything. *)
Theorem ParseGrant_range g : (exists s, ParseGrant s = Ok g) <-> valid_grant g = true.
Proof.
  split; [intros [s H]; by eapply ParseGrant_valid|].
  intros H. exists (grant_text g). by apply ParseGrant_text.
Qed.
