(* ===== verification/Authz.v ===== *)
(** * Authz: identities and the authorization decision

    Models the rest of [plugins/uns/authz.go] (registry entries, doors, zones,
    [Authorize]) and the cursor rules of [plugins/uns/redelivery.go]. A [*Entry]
    that may be nil is an [option Entry]; methods the code only calls on an
    entry take the entry itself. *)

From S2P Require Import Prelude Topics TopicFilter Grants.
From Stdlib Require Import Ascii.
Local Open Scope go_scope.

(** ** Entries *)

Definition KindExternal : string := "external".
Definition KindNode : string := "node".
Definition KindLocal : string := "local".
Definition KindHuman : string := "human".

Record Entry := mkEntry {
  ULID : string;
  Pubkey : string;
  Kind : string;
  Name : string;
  ElementOf : string;            (** the field [Element] *)
  EntryGrants : list string;     (** the field [Grants] *)
  Groups : list string;
  DisplayName : string;
  ServiceClient : string;
  Email : string;
  SignedInHere : bool;
  Credential : string;
  Status : string;
}.

Definition StatusActive : string := "active".
Definition StatusDraining : string := "draining".

Definition with_entry (e : option Entry) (f : Entry -> bool) : bool :=
  match e with Some e => f e | None => false end.

Definition IsDraining (e : option Entry) : bool := with_entry e (fun e => Status e == StatusDraining).

Definition MarkDraining (e : Entry) : Entry :=
  mkEntry (ULID e) (Pubkey e) (Kind e) (Name e) (ElementOf e) (EntryGrants e) (Groups e)
    (DisplayName e) (ServiceClient e) (Email e) (SignedInHere e) (Credential e) StatusDraining.

Definition CanDrain (e : option Entry) : bool := with_entry e (fun e => Kind e == KindNode).
Definition ReplicatesUp (e : option Entry) : bool := with_entry e (fun e => Kind e == KindNode).

Definition LocalCursorPrefix : string := "c/".

Definition CursorPrefix (e : Entry) : string :=
  if Kind e == KindLocal then LocalCursorPrefix +:+ Name e +:+ "/" else ULID e +:+ "/".

Definition CatalogueName (e : Entry) : string := if Name e != "" then Name e else ULID e.

Inductive Door := DoorMQTT | DoorHTTP | DoorRepl | DoorLocal.

Definition MayUseDoor (e : option Entry) (d : Door) : bool :=
  with_entry e (fun e =>
    match d with
    | DoorMQTT | DoorHTTP => Kind e == KindExternal
    | DoorRepl => Kind e == KindNode
    | DoorLocal => Kind e == KindLocal
    end).

Definition MayPublishContract (e : option Entry) (contract : string) : bool :=
  with_entry e (fun e => if Kind e == KindHuman then contract != "_CmdConfigure" else true).

(** [hex.DecodeString] succeeds: an even number of hex digits. *)
Definition hex_digit (c : ascii) : bool :=
  byte_between "0" "9" c || byte_between "a" "f" c || byte_between "A" "F" c.

Fixpoint hex_string (s : string) : bool :=
  match s with
  | "" => true
  | String a (String b s') => hex_digit a && hex_digit b && hex_string s'
  | String _ "" => false
  end.

Inductive EntryError :=
| ErrNoULID | ErrPubkeyLength | ErrPubkeyHex | ErrNoName | ErrNameSegment | ErrLocalKey
| ErrHumanEntry | ErrKind | ErrUnplaced | ErrElement (e : GrantError) | ErrStatus
| ErrDrainKind | ErrGrant (e : GrantError) | ErrAdminGrant | ErrNodeGrant.

(** The loop of [Validate] over the grants. *)
Fixpoint validate_grants (grants : list string) : result EntryError unit :=
  match grants with
  | [] => Ok tt
  | g :: rest =>
      match ParseGrant g with
      | Err e => Err (ErrGrant e)
      | Ok pg =>
          if Verb pg == "admin" then Err ErrAdminGrant
          else match NodeRelative (Element pg) with
               | Some _ => Err ErrNodeGrant
               | None => validate_grants rest
               end
      end
  end.

(** The kind switch of [Validate]. *)
Definition validate_kind (e : Entry) : result EntryError unit :=
  if (Kind e == KindExternal) || (Kind e == KindNode) then
    if negb (bool_decide (len (Pubkey e) = 64%Z)) then Err ErrPubkeyLength
    else if negb (hex_string (Pubkey e)) then Err ErrPubkeyHex else Ok tt
  else if Kind e == KindLocal then
    if Name e == "" then Err ErrNoName
    else if ContainsAny (Name e) "/+#" then Err ErrNameSegment
    else if Pubkey e != "" then Err ErrLocalKey else Ok tt
  else if Kind e == KindHuman then Err ErrHumanEntry
  else Err ErrKind.

Definition Validate (e : Entry) : result EntryError unit :=
  if ULID e == "" then Err ErrNoULID
  else
    let! _ := validate_kind e in
    if (ElementOf e == "") && (Kind e != KindLocal) then Err ErrUnplaced
    else
      let! _ := (if ElementOf e != "" then
                   match ValidElementID (ElementOf e) with Ok _ => Ok tt | Err x => Err (ErrElement x) end
                 else Ok tt) in
      if negb ((Status e == "") || (Status e == StatusActive) || (Status e == StatusDraining))
      then Err ErrStatus
      else if (Status e == StatusDraining) && (Kind e != KindNode) then Err ErrDrainKind
      else validate_grants (EntryGrants e).

(** The loop of [TokenEntry]: every grant must parse. *)
Fixpoint parse_all (grants : list string) : result GrantError unit :=
  match grants with
  | [] => Ok tt
  | g :: rest => let! _ := ParseGrant g in parse_all rest
  end.

(** [TokenEntry]: the ephemeral entry of a verified token. *)
Definition TokenEntry (sub : string) (grants : list string) : result EntryError Entry :=
  if sub == "" then Err ErrNoULID
  else match parse_all grants with
       | Err e => Err (ErrGrant e)
       | Ok _ => Ok (mkEntry sub "" KindHuman "" "" grants [] "" "" "" true "" "")
       end.

Definition parsed_grant (g : string) : option Grant :=
  match ParseGrant g with Ok pg => Some pg | Err _ => None end.

(** The entry's grants of one verb, in order; one that does not parse counts as
    absent ([if err != nil || pg.Verb != verb { continue }]). *)
Definition grants_of (verb : string) (e : Entry) : list Grant :=
  filter (fun pg => Verb pg = verb) (omap parsed_grant (EntryGrants e)).

Definition IsAdmin (e : option Entry) : bool :=
  with_entry e (fun e => negb (bool_decide (grants_of "admin" e = []))).

Definition IsLocal (e : option Entry) : bool := with_entry e (fun e => Kind e == KindLocal).
Definition MayPublishAudit (e : option Entry) : bool := with_entry e (fun e => Kind e == KindLocal).
Definition IsHuman (e : option Entry) : bool := with_entry e (fun e => Kind e == KindHuman).

Definition ActorLabel (e : option Entry) : string :=
  match e with
  | None => ""
  | Some e => if Kind e == KindHuman then DisplayName e else Name e
  end.

Definition ActorKind (e : option Entry) : string :=
  match e with
  | None => ""
  | Some e =>
      if Kind e == KindHuman then "human"
      else if Kind e == KindNode then "node"
      else if (Kind e == KindExternal) || (Kind e == KindLocal) then "service"
      else ""
  end.

Definition MayImplicitlyConfigure (e : option Entry) (contract : string) : bool :=
  with_entry e (fun e => (Kind e == KindLocal) && (ElementOf e == "") && (contract == "_CmdConfigure")).

Definition AppNotificationSenders : list string := ["api"; "hub-api"].

Definition IsAppNotificationSender (name : string) : bool :=
  existsb (fun sender => name == sender) AppNotificationSenders.

Definition IsAppNotificationPath (path : string) : bool :=
  match Cut path slash with
  | Some (id, action) =>
      (action == "notify") && (id != "") && is_ok (ValidElementID id) && negb (Contains id "_")
  | None => false
  end.

Definition MayImplicitlyDeliverAppNotification (e : option Entry) (contract path : string) : bool :=
  with_entry e (fun e =>
    (Kind e == KindLocal) && (ElementOf e == "") && IsAppNotificationSender (Name e) &&
    (contract == "_CmdOperate") && IsAppNotificationPath path).

Definition SeesActorWitness (e : option Entry) : bool :=
  with_entry e (fun e => (Kind e == KindLocal) && (ElementOf e == "")).

(** ** Where elements are *)

(** The interface [Scope] (with [Namespace]): what a node knows about where an
    element is. The node's own implementation is in [Elements.v]. *)
Record Scope := mkScope {
  PathOf : string -> option string;
  Reaches : string -> bool;
  Binds : string -> bool;
}.

Definition coverPath (zone path : string) : bool :=
  if zone == "#" then true else (path == zone) || HasPrefix path (zone +:+ "/").

(** [zoneOf]; a nil scope is [None]. *)
Definition zoneOf (sc : option Scope) (elementID : string) : option string :=
  if elementID == "#" then Some "#"
  else match sc with
       | None => None
       | Some sc =>
           if elementID == "" then None
           else if Reaches sc elementID then Some "#"
           else PathOf sc elementID
       end.

Definition grantZone (sc : option Scope) (e : option Entry) (element : string) : option string :=
  match NodeRelative element with
  | Some path =>
      if negb (with_entry e (fun e => (Kind e == KindHuman) && SignedInHere e)) then None
      else if path == "" then Some "#" else Some path
  | None => zoneOf sc element
  end.

Definition grant_zones (sc : option Scope) (e : Entry) (verb : string) : list string :=
  omap (fun pg => grantZone sc (Some e) (Element pg)) (grants_of verb e).

Definition readZones (sc : option Scope) (e : Entry) : list string :=
  (if (Kind e == KindLocal) && (ElementOf e == "") then ["#"]
   else match zoneOf sc (ElementOf e) with Some zone => [zone] | None => [] end)
  ++ grant_zones sc e "read".

Definition writeZones (sc : option Scope) (e : Entry) : list string :=
  (if Kind e == KindLocal then
     if ElementOf e == "" then ["#"]
     else match zoneOf sc (ElementOf e) with Some zone => [zone] | None => [] end
   else [])
  ++ grant_zones sc e "write".

Definition AuthorizeCmdAt (sc : option Scope) (e : option Entry) (class path : string) : bool :=
  with_entry e (fun e =>
    existsb (fun pg =>
      match grantZone sc (Some e) (Element pg) with
      | Some zone => coverPath zone path && bool_decide (class ∈ Classes pg)
      | None => false
      end) (grants_of "cmd" e)).

Definition MayReadFetchLogsAck (sc : option Scope) (e : option Entry) (topic actorID : string) : bool :=
  match FetchLogsAck topic with
  | None => true
  | Some path =>
      match e with
      | None => false
      | Some en =>
          if (actorID != "") && (ULID en == actorID) then true
          else AuthorizeCmdAt sc e (CmdClass "_CmdAdmin") path
      end
  end.

Definition AuthorizedAtExecutor (contract : string) : bool := contract == "_CmdEdit".

Definition HoldsCmdClass (e : option Entry) (class : string) : bool :=
  with_entry e (fun e => existsb (fun pg => bool_decide (class ∈ Classes pg)) (grants_of "cmd" e)).

Definition readActs : gset string := {["subscribe"; "unsubscribe"]}.

Definition cutLast (path : string) : option (string * string) := CutLast path slash.

Definition ReadAuthorizedAct (contract path : string) : option string :=
  if contract != "_CmdOperate" then None
  else match cutLast path with
       | None => None
       | Some (place, action) =>
           if negb (bool_decide (action ∈ readActs)) || (place == "") then None else Some place
       end.

(** Whether one of a list of zones covers a path. *)
Definition zones_cover (zones : list string) (path : string) : bool :=
  existsb (fun z => coverPath z path) zones.

Definition ClassesAt (sc : option Scope) (e : option Entry) (contract path : string) : list string :=
  match e with
  | None => []
  | Some en =>
      let place := match ReadAuthorizedAct contract path with Some p => p | None => path end in
      sort_strings
        ((if zones_cover (readZones sc en) place then ["read"] else [])
         ++ filter (fun class => AuthorizeCmdAt sc e class place = true) (elements cmdClasses))
  end.

(** ** The decision *)

Inductive Action := ActSub | ActReadRecord | ActCmd | ActPub.

Definition localServiceRead (root : string) (e : Entry) (topic : string) : bool :=
  if negb (IsLocal (Some e)) then false
  else match Split topic slash with
       | p0 :: p1 :: p2 :: _ :: _ => (p0 == root) && (p1 == Version) && (p2 == "_ServiceDetails")
       | _ => false
       end.

Definition isReservedFilter (filter : string) : bool := HasPrefix filter "$".

(** The loop of [fixedPathPrefix] from segment [i] on. *)
Fixpoint fixed_segments (i : nat) (seg : list string) : list string :=
  match seg with
  | [] => []
  | s :: rest =>
      if s == "#" then []
      else if (i <? 4)%nat then fixed_segments (S i) rest
      else if s == "+" then []
      else s :: fixed_segments (S i) rest
  end.

(** [fixedPathPrefix]: [None] when the filter cannot match below the root. *)
Definition fixedPathPrefix (root filter : string) : option string :=
  let seg := Split filter slash in
  let s0 := default "" (head seg) in
  if (s0 != root) && (s0 != "+") && (s0 != "#") then None
  else Some (Join (fixed_segments 0 seg) slash).

Definition Authorize (root : string) (sc : option Scope) (e : Entry) (a : Action) (topic : string) : bool :=
  match a with
  | ActReadRecord =>
      match Parse topic with
      | Err _ => false
      | Ok p =>
          if localServiceRead root e topic then true
          else zones_cover (readZones sc e) (Path p)
      end
  | ActSub =>
      if isReservedFilter topic then false
      else if localServiceRead root e topic then true
      else match fixedPathPrefix root topic with
           | None => true
           | Some fixed =>
               existsb (fun z => (z == "#") || ((fixed != "") && coverPath z fixed)) (readZones sc e)
           end
  | ActCmd =>
      match Parse topic with
      | Err _ => false
      | Ok p =>
          if ClassOf (Contract p) != ClassCmd then false
          else match ReadAuthorizedAct (Contract p) (Path p) with
               | Some place => zones_cover (readZones sc e) place
               | None =>
                   let class := CmdClass (Contract p) in
                   if AuthorizedAtExecutor (Contract p)
                   then HoldsCmdClass (Some e) class || HoldsCmdClass (Some e) "annotate" ||
                        HoldsCmdClass (Some e) "operate" || HoldsCmdClass (Some e) "param"
                   else AuthorizeCmdAt sc (Some e) class (Path p)
               end
      end
  | ActPub =>
      match Parse topic with
      | Err _ => false
      | Ok p => zones_cover (writeZones sc e) (Path p)
      end
  end.

Definition AuthorizeBrowse (sc : option Scope) (e : Entry) (path : string) : bool :=
  existsb (fun z => coverPath z path || HasPrefix z (path +:+ "/")) (readZones sc e).

(** [FilterContract]: the contract a filter names at its third level. *)
Definition FilterContract (root filter : string) : option string :=
  match Split filter slash with
  | s0 :: s1 :: s2 :: _ =>
      if (s0 != root) && (s0 != "+") then None
      else if (s1 == "#") || (s2 == "+") || (s2 == "#") then None
      else Some s2
  | _ => None
  end.

Definition SubscriptionPath (root filter : string) : option string := fixedPathPrefix root filter.

(** ** Cursors ([redelivery.go]) *)

Definition commandCursorSuffix : string := "cmd".
Definition CommandCursor (e : Entry) : string := CursorPrefix e +:+ commandCursorSuffix.

Definition OwnsCursor (e : option Entry) (cursor : string) : bool :=
  with_entry e (fun e =>
    if negb (HasPrefix cursor (CursorPrefix e)) then false else cursor != CommandCursor e).

Definition SystemConsumers : list string := ["historian"].

Definition identityCursor (cursor : string) : bool :=
  if existsb (fun name => HasPrefix cursor (LocalCursorPrefix +:+ name +:+ "/")) SystemConsumers
  then false
  else match Cut (TrimPrefix cursor LocalCursorPrefix) slash with
       | Some (prefix, rest) =>
           (prefix != "") && (rest != "") && (rest != commandCursorSuffix) && negb (Contains prefix ":")
       | None => false
       end.

Definition MayRetireCursor (sc : option Scope) (e : option Entry) (cursor : string) : bool :=
  with_entry e (fun en =>
    if negb (identityCursor cursor) then false
    else existsb (fun pg =>
      match grantZone sc e (Element pg) with
      | Some zone => (zone == "#") && bool_decide ("admin" ∈ Classes pg)
      | None => false
      end) (grants_of "cmd" en)).

(** ** Specification vocabulary *)

Definition with_grants (e : Entry) (gs : list string) : Entry :=
  mkEntry (ULID e) (Pubkey e) (Kind e) (Name e) (ElementOf e) gs (Groups e)
    (DisplayName e) (ServiceClient e) (Email e) (SignedInHere e) (Credential e) (Status e).

(** [e] holds a grant, as parsed. *)
Definition holds (e : Entry) (pg : Grant) : Prop :=
  exists g, g ∈ EntryGrants e /\ ParseGrant g = Ok pg.

(** ** Lemmas *)

Lemma existsb_elem {A} (f : A -> bool) l : existsb f l = true <-> exists x, x ∈ l /\ f x = true.
Proof. rewrite existsb_exists. by setoid_rewrite list_elem_of_In. Qed.

Lemma elem_of_grants_of verb e pg : pg ∈ grants_of verb e <-> holds e pg /\ Verb pg = verb.
Proof.
  unfold grants_of, holds. rewrite list_elem_of_filter, list_elem_of_omap.
  unfold parsed_grant. split.
  - intros (Hv & g & Hg & E). destruct (ParseGrant g) eqn:?; naive_solver.
  - intros ((g & Hg & E) & Hv). split; [done|]. exists g. by rewrite E.
Qed.

Lemma coverPath_spec z path :
  coverPath z path = true <->
  z = "#" \/ exists below, Split path slash = Split z slash ++ below.
Proof.
  unfold coverPath. case_bool_decide as Hz; [naive_solver|].
  rewrite orb_true_iff, bool_decide_eq_true.
  rewrite (Split_HasPrefix_sep path z slash). split.
  - intros [->|(l & _ & H)]; right; [exists []; by rewrite app_nil_r|eauto].
  - intros [|[l H]]; [done|]. destruct l as [|x l].
    + left. apply (Split_inj _ _ slash). by rewrite H, app_nil_r.
    + right. by exists (x :: l).
Qed.

Lemma zones_cover_spec zones path :
  zones_cover zones path = true <-> exists z, z ∈ zones /\ coverPath z path = true.
Proof. apply existsb_elem. Qed.

Lemma elem_of_grant_zones sc e verb z :
  z ∈ grant_zones sc e verb <->
  exists pg, holds e pg /\ Verb pg = verb /\ grantZone sc (Some e) (Element pg) = Some z.
Proof.
  unfold grant_zones. rewrite list_elem_of_omap. setoid_rewrite elem_of_grants_of. naive_solver.
Qed.

(** The segments a filter fixes are the segments of every topic it matches. *)
Lemma fixed_segments_prefix i fs ts :
  Matches fs ts -> fixed_segments i fs `prefix_of` drop (4 - i) ts.
Proof.
  intros HM. revert i. induction HM as [fs ts|l t [Hh Hl]|l t [Hh Hl]|l t fs ts [Hh Hl] _ _ HM IH]; intros i.
  - simpl. apply prefix_nil.
  - cbn [fixed_segments]. rewrite bool_decide_eq_false_2 by done.
    destruct (Nat.ltb_spec i 4); [apply prefix_nil|].
    case_bool_decide; [apply prefix_nil|]. destruct Hl as [| ->]; [done|].
    by replace (4 - i) with 0 by lia.
  - cbn [fixed_segments]. rewrite bool_decide_eq_false_2 by done.
    destruct (Nat.ltb_spec i 4); [simpl; apply prefix_nil|].
    case_bool_decide; [apply prefix_nil|]. destruct Hl as [| ->]; [done|].
    by replace (4 - i) with 0 by lia.
  - cbn [fixed_segments]. rewrite bool_decide_eq_false_2 by done.
    destruct (Nat.ltb_spec i 4).
    + replace (4 - i) with (S (4 - S i)) by lia. simpl. apply IH.
    + case_bool_decide; [apply prefix_nil|]. destruct Hl as [| ->]; [done|].
      specialize (IH (S i)). replace (4 - i) with 0 by lia. replace (4 - S i) with 0 in IH by lia.
      rewrite drop_0 in *. by apply prefix_cons.
Qed.

Lemma fixed_segments_sub i fs : fixed_segments i fs ⊆ fs.
Proof.
  revert i. induction fs as [|f fs IH]; intros i; cbn [fixed_segments]; [done|].
  repeat case_match; set_solver.
Qed.

Lemma Split_fixed f i :
  Join (fixed_segments i (Split f slash)) slash <> "" ->
  Split (Join (fixed_segments i (Split f slash)) slash) slash = fixed_segments i (Split f slash).
Proof.
  intros Hne. apply Split_Join.
  - intros H. by rewrite H in Hne.
  - apply Forall_forall. intros x Hx%fixed_segments_sub.
    pose proof (Split_no_sep f slash) as H. rewrite Forall_forall in H. by apply H.
Qed.

(** A parsed topic under the root starts with the root. *)
Lemma IsUns_head root topic :
  has_byte slash root = false -> IsUns root topic = true ->
  exists rest, Split topic slash = root :: rest.
Proof.
  intros Hr. unfold IsUns. rewrite (Split_HasPrefix_sep topic root slash).
  rewrite (Split_single root) by done. intros (l & _ & H). eauto.
Qed.

Lemma Parse_Split topic p :
  Parse topic = Ok p ->
  Split topic slash = PrefixSeg p :: VersionSeg p :: Contract p :: NodeID p :: Split (Path p) slash.
Proof. intros (_ & Hwf & ->)%Parse_inv. by apply Split_render. Qed.

(** The fixed part of a matching filter covers the topic's path. *)
Lemma cover_fixed root f topic p z fixed :
  Matches (Split f slash) (Split topic slash) -> Parse topic = Ok p ->
  fixedPathPrefix root f = Some fixed -> fixed <> "" ->
  coverPath z fixed = true -> coverPath z (Path p) = true.
Proof.
  intros HM Hp Hf Hne. unfold fixedPathPrefix in Hf. case_match; [done|].
  injection Hf as <-. apply (fixed_segments_prefix 0) in HM as [l HM].
  rewrite (Parse_Split _ _ Hp) in HM. simpl in HM. rewrite drop_0 in HM.
  rewrite !coverPath_spec. intros [->|[below Hb]]; [by left|]. right.
  rewrite Split_fixed in Hb by done. rewrite HM, Hb. exists (below ++ l). by rewrite app_assoc.
Qed.

(** A filter outside the root matches no topic under it. *)
Lemma plain_filter_no_match root f topic :
  has_byte slash root = false -> IsUns root topic = true ->
  fixedPathPrefix root f = None -> ~ Matches (Split f slash) (Split topic slash).
Proof.
  intros Hr Hu Hf HM. destruct (IsUns_head _ _ Hr Hu) as [rest Ht].
  unfold fixedPathPrefix in Hf. case_match eqn:E; [|done]. clear Hf. bool_simp.
  rewrite Ht in HM. inversion HM as [? ? Hs|? ? [? Hl] Hs|? ? [? Hl] Hs|? ? ? ? [? Hl] _ _ _ Hs]; subst;
    rewrite <- Hs in *; naive_solver.
Qed.

Lemma localServiceRead_match root e f topic p :
  ValidRoot root = true -> Parse topic = Ok p ->
  Matches (Split f slash) (Split topic slash) ->
  localServiceRead root e f = true -> localServiceRead root e topic = true.
Proof.
  intros Hr Hp HM. unfold localServiceRead. case_match; [done|].
  rewrite (Parse_Split _ _ Hp) in HM |- *.
  destruct (Split f slash) as [|p0 [|p1 [|p2 [|p3 l]]]]; try done.
  intros Hl. bool_simp. subst.
  assert (Hw : root <> "+" /\ root <> "#") by (split; intros ->; done).
  inversion HM as [| | |? ? ? ? [_ H0] _ _ HM1]; subst; [naive_solver|].
  inversion HM1 as [| | |? ? ? ? [_ H1] _ _ HM2]; subst.
  inversion HM2 as [| | |? ? ? ? [_ H2] _ _ HM3]; subst.
  destruct H0 as [| <-]; [naive_solver|]. destruct H1 as [| <-]; [done|]. destruct H2 as [| <-]; [done|].
  by rewrite !bool_decide_eq_true_2.
Qed.

(** ** Properties of the decision *)

(** C11: No subscription shows more than reading does: whenever a filter is granted
    and matches a record's topic under the root, reading that record is granted
    too. This includes wildcard filters, the ["a/#"] parent match and the service
    directory exception, for every scope and every entry. *)
Theorem subscription_sound root sc e filter topic p :
  ValidRoot root = true ->
  Authorize root sc e ActSub filter = true ->
  MatchFilter filter topic = true -> IsUns root topic = true -> Parse topic = Ok p ->
  Authorize root sc e ActReadRecord topic = true.
Proof.
  intros Hr Hs HM%MatchFilter_spec Hu Hp. simpl in Hs |- *. rewrite Hp.
  destruct (isReservedFilter filter); [done|].
  destruct (localServiceRead root e filter) eqn:Hloc.
  { by rewrite (localServiceRead_match _ _ _ _ _ Hr Hp HM Hloc). }
  destruct (localServiceRead root e topic); [done|].
  destruct (fixedPathPrefix root filter) as [fixed|] eqn:Hf.
  - apply existsb_elem in Hs as (z & Hz & Hc). apply zones_cover_spec. exists z. split; [done|].
    apply orb_true_iff in Hc as [->%bool_decide_eq_true|Hc]; [done|]. bool_simp.
    by eapply cover_fixed.
  - exfalso. eapply plain_filter_no_match; eauto. by apply ValidRoot_no_slash.
Qed.

(** A press bridge outside the deployment, placed at an element of [line1]. *)
Definition demo_scope : option Scope :=
  Some (mkScope (fun id => if id == "el-line1" then Some "line1" else None) (fun _ => false) (fun _ => false)).

Definition demo_entry : Entry :=
  mkEntry "01PRESS" "" KindExternal "" "el-press" ["read:el-line1/#"; "cmd:el-line1/#:operate"] [] "" "" ""
    false "" "".

Lemma subscription_sound_witness :
  Authorize "colca" demo_scope demo_entry ActReadRecord "colca/v1/_Metric/n1/line1/press3/temp" = true.
Proof.
  apply (subscription_sound "colca" demo_scope demo_entry "colca/v1/+/+/line1/#"
           "colca/v1/_Metric/n1/line1/press3/temp"
           (mkParsed "colca" "v1" "_Metric" "n1" "line1/press3/temp"));
    vm_compute; reflexivity.
Defined.

Lemma readZones_spec sc e z :
  z ∈ readZones sc e <->
  (if (Kind e == KindLocal) && (ElementOf e == "") then z = "#" else zoneOf sc (ElementOf e) = Some z) \/
  z ∈ grant_zones sc e "read".
Proof.
  unfold readZones. rewrite elem_of_app. case_match; [by rewrite list_elem_of_singleton|].
  destruct (zoneOf sc (ElementOf e)); [rewrite list_elem_of_singleton|rewrite elem_of_nil]; naive_solver.
Qed.

Lemma writeZones_spec sc e z :
  z ∈ writeZones sc e <->
  (Kind e = KindLocal /\
   if ElementOf e == "" then z = "#" else zoneOf sc (ElementOf e) = Some z) \/
  z ∈ grant_zones sc e "write".
Proof.
  unfold writeZones. rewrite elem_of_app. case_bool_decide as Hk; [|rewrite elem_of_nil; naive_solver].
  case_match; [rewrite list_elem_of_singleton; naive_solver|].
  destruct (zoneOf sc (ElementOf e)); [rewrite list_elem_of_singleton|rewrite elem_of_nil]; naive_solver.
Qed.

(** Publishing owned state is granted exactly by position or by an explicit
    write grant: only a local service writes by its position (the whole node when
    unplaced), and every other write needs a write grant whose zone covers the
    path. An external identity's placement gives it no write. *)
Theorem ActPub_spec root sc e topic :
  Authorize root sc e ActPub topic = true <->
  exists p z, Parse topic = Ok p /\ coverPath z (Path p) = true /\
    ((Kind e = KindLocal /\
      if ElementOf e == "" then z = "#" else zoneOf sc (ElementOf e) = Some z) \/
     exists pg, holds e pg /\ Verb pg = "write" /\ grantZone sc (Some e) (Element pg) = Some z).
Proof.
  simpl. destruct (Parse topic) as [p|]; [|naive_solver].
  rewrite zones_cover_spec. setoid_rewrite writeZones_spec. setoid_rewrite elem_of_grant_zones.
  naive_solver.
Qed.

Lemma AuthorizeCmdAt_spec sc e class path :
  AuthorizeCmdAt sc (Some e) class path = true <->
  exists pg z, holds e pg /\ Verb pg = "cmd" /\ class ∈ Classes pg /\
    grantZone sc (Some e) (Element pg) = Some z /\ coverPath z path = true.
Proof.
  simpl. rewrite existsb_elem. setoid_rewrite elem_of_grants_of. split.
  - intros (pg & [Hh Hv] & H). destruct (grantZone _ _ _) as [z|] eqn:E; [|done].
    apply andb_true_iff in H as [? ?%bool_decide_eq_true]. eauto 10.
  - intros (pg & z & ? & ? & ? & Hz & ?). exists pg. split; [done|]. rewrite Hz.
    apply andb_true_iff. split; [done|]. by apply bool_decide_eq_true.
Qed.

Lemma HoldsCmdClass_spec e class :
  HoldsCmdClass (Some e) class = true <->
  exists pg, holds e pg /\ Verb pg = "cmd" /\ class ∈ Classes pg.
Proof.
  simpl. rewrite existsb_elem. setoid_rewrite elem_of_grants_of.
  setoid_rewrite bool_decide_eq_true. naive_solver.
Qed.



(** *** Grants only add *)

Lemma holds_mono e gs pg : EntryGrants e ⊆ gs -> holds e pg -> holds (with_grants e gs) pg.
Proof. intros H (g & Hg & Hp). exists g. split; [by apply H|done]. Qed.

Lemma grantZone_with_grants sc e gs el :
  grantZone sc (Some (with_grants e gs)) el = grantZone sc (Some e) el.
Proof. done. Qed.

Lemma grant_zones_mono sc e gs verb z :
  EntryGrants e ⊆ gs -> z ∈ grant_zones sc e verb -> z ∈ grant_zones sc (with_grants e gs) verb.
Proof. rewrite !elem_of_grant_zones. intros Hs (pg & Hh & ? & ?). exists pg. eauto using holds_mono. Qed.

Lemma readZones_mono sc e gs z :
  EntryGrants e ⊆ gs -> z ∈ readZones sc e -> z ∈ readZones sc (with_grants e gs).
Proof. intros Hs. rewrite !readZones_spec. intros [H|H]; [by left|right; by apply grant_zones_mono]. Qed.

Lemma writeZones_mono sc e gs z :
  EntryGrants e ⊆ gs -> z ∈ writeZones sc e -> z ∈ writeZones sc (with_grants e gs).
Proof. intros Hs. rewrite !writeZones_spec. intros [H|H]; [by left|right; by apply grant_zones_mono]. Qed.

Lemma existsb_mono {A} (f : A -> bool) l l' :
  (forall x, x ∈ l -> x ∈ l') -> existsb f l = true -> existsb f l' = true.
Proof. rewrite !existsb_elem. naive_solver. Qed.

Lemma AuthorizeCmdAt_mono sc e gs class path :
  EntryGrants e ⊆ gs -> AuthorizeCmdAt sc (Some e) class path = true ->
  AuthorizeCmdAt sc (Some (with_grants e gs)) class path = true.
Proof.
  intros Hs. rewrite !AuthorizeCmdAt_spec. intros (pg & z & Hh & H). exists pg, z.
  eauto using holds_mono.
Qed.

Lemma HoldsCmdClass_mono e gs class :
  EntryGrants e ⊆ gs -> HoldsCmdClass (Some e) class = true ->
  HoldsCmdClass (Some (with_grants e gs)) class = true.
Proof. intros Hs. rewrite !HoldsCmdClass_spec. intros (pg & Hh & H). exists pg. eauto using holds_mono. Qed.

(** Grants only add: giving an entry more grants never takes a permission
    away, whatever the action and topic. *)
Theorem Authorize_mono root sc e gs a topic :
  EntryGrants e ⊆ gs ->
  Authorize root sc e a topic = true -> Authorize root sc (with_grants e gs) a topic = true.
Proof.
  intros Hs. destruct a; simpl.
  - destruct (isReservedFilter topic); [done|].
    change (localServiceRead root (with_grants e gs) topic) with (localServiceRead root e topic).
    destruct (localServiceRead root e topic); [done|]. destruct (fixedPathPrefix root topic); [|done].
    apply existsb_mono. intros z. by apply readZones_mono.
  - destruct (Parse topic) as [p|]; [|done].
    change (localServiceRead root (with_grants e gs) topic) with (localServiceRead root e topic).
    destruct (localServiceRead root e topic); [done|].
    apply existsb_mono. intros z. by apply readZones_mono.
  - destruct (Parse topic) as [p|]; [|done]. destruct (_ != _); [done|].
    destruct (ReadAuthorizedAct _ _).
    + apply existsb_mono. intros z. by apply readZones_mono.
    + destruct (AuthorizedAtExecutor _); [|by apply AuthorizeCmdAt_mono].
      rewrite !orb_true_iff. intuition eauto using HoldsCmdClass_mono.
  - destruct (Parse topic) as [p|]; [|done].
    apply existsb_mono. intros z. by apply writeZones_mono.
Qed.

Lemma Authorize_mono_witness :
  Authorize "colca" demo_scope (with_grants demo_entry ("write:el-line1/#" :: EntryGrants demo_entry))
    ActReadRecord "colca/v1/_Metric/n1/line1/t" = true.
Proof. apply Authorize_mono; [set_solver|vm_compute; reflexivity]. Defined.

(** *** Grants that give nothing *)

(** The decision reads the entry's grants only through its read, write and
    command grants. *)
Lemma Authorize_ext root sc e gs a topic :
  (forall verb, verb ∈ ["read"; "write"; "cmd"] ->
     grants_of verb (with_grants e gs) = grants_of verb e) ->
  Authorize root sc (with_grants e gs) a topic = Authorize root sc e a topic.
Proof.
  intros H.
  assert (Hr : readZones sc (with_grants e gs) = readZones sc e).
  { unfold readZones, grant_zones. by rewrite (H "read") by set_solver. }
  assert (Hw : writeZones sc (with_grants e gs) = writeZones sc e).
  { unfold writeZones, grant_zones. by rewrite (H "write") by set_solver. }
  assert (Hc : grants_of "cmd" (with_grants e gs) = grants_of "cmd" e) by (apply H; set_solver).
  unfold Authorize, AuthorizeCmdAt, HoldsCmdClass. cbn [with_entry]. by rewrite Hr, Hw, Hc.
Qed.

Definition is_admin_grant (g : string) : Prop := exists pg, ParseGrant g = Ok pg /\ Verb pg = "admin".

#[export] Instance is_admin_grant_dec g : Decision (is_admin_grant g).
Proof.
  unfold is_admin_grant. destruct (ParseGrant g) as [pg|]; [|right; naive_solver].
  destruct (decide (Verb pg = "admin")); [left; eauto|right; naive_solver].
Defined.

(** An admin grant unlocks the admin routes only: removing every admin grant
    from an entry changes no decision about reading, subscribing, commanding or
    publishing. *)
Theorem admin_grants_widen_nothing root sc e a topic :
  Authorize root sc (with_grants e (filter (fun g => ~ is_admin_grant g) (EntryGrants e))) a topic =
  Authorize root sc e a topic.
Proof.
  apply Authorize_ext. intros verb Hv. unfold grants_of. simpl.
  induction (EntryGrants e) as [|g gs IH]; [done|]. rewrite filter_cons.
  destruct (decide (~ is_admin_grant g)) as [Ha|Ha].
  - simpl. destruct (parsed_grant g); [|apply IH]. rewrite !filter_cons. case_decide; [f_equal|]; apply IH.
  - apply dec_stable in Ha as (pg & Hp & Hpv). simpl. unfold parsed_grant at 2. rewrite Hp.
    rewrite filter_cons, decide_False; [apply IH|]. intros <-. rewrite Hpv in Hv. set_solver.
Qed.

Definition is_node_grant (g : string) : Prop :=
  exists pg, ParseGrant g = Ok pg /\ is_Some (NodeRelative (Element pg)).

#[export] Instance is_node_grant_dec g : Decision (is_node_grant g).
Proof.
  unfold is_node_grant. destruct (ParseGrant g) as [pg|]; [|right; naive_solver].
  destruct (decide (is_Some (NodeRelative (Element pg)))); [left; eauto|right; naive_solver].
Defined.

(** The entry without its node-relative grants. *)
Definition without_node_grants (e : Entry) : Entry :=
  with_grants e (filter (fun g => ~ is_node_grant g) (EntryGrants e)).

Lemma grant_zones_without_node sc e verb :
  SignedInHere e = false -> grant_zones sc (without_node_grants e) verb = grant_zones sc e verb.
Proof.
  intros Hs. set (f := fun pg => grantZone sc (Some e) (Element pg)).
  assert (H : forall gs : list string,
    omap f (filter (fun pg => Verb pg = verb) (omap parsed_grant (filter (fun g => ~ is_node_grant g) gs))) =
    omap f (filter (fun pg => Verb pg = verb) (omap parsed_grant gs))); [|apply H].
  induction gs as [|g gs IH]; [done|]. rewrite filter_cons.
  assert (Hc : forall g (gs : list string), omap parsed_grant (g :: gs) =
    match ParseGrant g with Ok pg => pg :: omap parsed_grant gs | Err _ => omap parsed_grant gs end).
  { intros g' gs'. simpl. unfold parsed_grant at 1. by destruct (ParseGrant g'). }
  destruct (decide (~ is_node_grant g)) as [Ha|Ha]; rewrite !Hc.
  - destruct (ParseGrant g) as [pg|]; [|done]. rewrite !filter_cons. case_decide; [|done].
    rewrite !omap_cons. by rewrite IH.
  - apply dec_stable in Ha as (pg & -> & path & Hp). rewrite filter_cons. case_decide; [|done].
    rewrite omap_cons. replace (f pg) with (@None string); [done|]. unfold f, grantZone. rewrite Hp. simpl.
    by rewrite Hs, andb_false_r.
Qed.

(** A node-relative grant names the node its holder signed in at: for a person
    who signed in elsewhere it opens nothing here. Their reads, subscriptions and
    publications, and every command position, are decided as if they did not hold
    it. *)
Theorem node_grants_elsewhere root sc e a topic class path :
  SignedInHere e = false -> a <> ActCmd ->
  Authorize root sc (without_node_grants e) a topic = Authorize root sc e a topic /\
  AuthorizeCmdAt sc (Some (without_node_grants e)) class path =
    AuthorizeCmdAt sc (Some e) class path.
Proof.
  intros Hs Ha. split.
  - assert (Hr : readZones sc (without_node_grants e) = readZones sc e).
    { unfold readZones. by rewrite grant_zones_without_node. }
    assert (Hw : writeZones sc (without_node_grants e) = writeZones sc e).
    { unfold writeZones. by rewrite grant_zones_without_node. }
    unfold Authorize. destruct a; [..|done|]; by rewrite ?Hr, ?Hw.
  - apply eq_true_iff_eq. rewrite !AuthorizeCmdAt_spec. unfold holds. simpl. split.
    + intros (pg & z & (g & Hg & ?) & ?). apply list_elem_of_filter in Hg as [_ Hg]. eauto 10.
    + intros (pg & z & (g & Hg & Hp) & Hv & Hc & Hz & ?). exists pg, z. split; [|done].
      exists g. split; [|done]. apply list_elem_of_filter. split; [|done].
      intros (pg' & Hp' & path' & Hn). rewrite Hp in Hp'. injection Hp' as <-.
      unfold grantZone in Hz. rewrite Hn in Hz. simpl in Hz. by rewrite Hs, andb_false_r in Hz.
Qed.

(** An operator of any machine, seen at a node they did not sign in at. *)
Definition demo_visitor : Entry :=
  mkEntry "sub-1" "" KindHuman "" "" ["read:$node/#"; "read:el-line1/#"] [] "" "" "" false "" "".

Lemma node_grants_elsewhere_witness :
  Authorize "colca" demo_scope (without_node_grants demo_visitor) ActReadRecord
    "colca/v1/_Metric/n1/line2/t" =
  Authorize "colca" demo_scope demo_visitor ActReadRecord "colca/v1/_Metric/n1/line2/t".
Proof.
  apply (node_grants_elsewhere "colca" demo_scope demo_visitor ActReadRecord
           "colca/v1/_Metric/n1/line2/t" "" ""); [reflexivity|discriminate].
Defined.

(** ** Properties of entries *)

(** What enrollment guarantees of a registry entry. *)
Record valid_entry (e : Entry) : Prop := {
  ve_ulid : ULID e <> "";
  ve_kind : Kind e = KindExternal \/ Kind e = KindNode \/ Kind e = KindLocal;
  ve_key : Kind e <> KindLocal -> len (Pubkey e) = 64%Z /\ hex_string (Pubkey e) = true;
  ve_local : Kind e = KindLocal ->
    Name e <> "" /\ ContainsAny (Name e) "/+#" = false /\ Pubkey e = "";
  ve_placed : Kind e <> KindLocal -> ElementOf e <> "";
  ve_element : ContainsAny (ElementOf e) "/+#:" = false;
  ve_status : Status e = "" \/ Status e = StatusActive \/ Status e = StatusDraining;
  ve_drain : Status e = StatusDraining -> Kind e = KindNode;
  ve_grants : forall g, g ∈ EntryGrants e -> exists pg,
    ParseGrant g = Ok pg /\ Verb pg <> "admin" /\ NodeRelative (Element pg) = None;
}.

Lemma validate_grants_Ok gs :
  validate_grants gs = Ok tt <->
  forall g, g ∈ gs -> exists pg,
    ParseGrant g = Ok pg /\ Verb pg <> "admin" /\ NodeRelative (Element pg) = None.
Proof.
  induction gs as [|g gs IH]; simpl; [split; [by intros _ g ?%elem_of_nil|done]|].
  setoid_rewrite elem_of_cons. destruct (ParseGrant g) as [pg|] eqn:Hp.
  - case_bool_decide; [naive_solver congruence|].
    destruct (NodeRelative (Element pg)) eqn:Hn; [naive_solver congruence|]. rewrite IH. naive_solver.
  - split; [done|]. intros H. destruct (H g) as (pg & ? & _); [by left|]. congruence.
Qed.

Lemma validate_kind_Ok e :
  validate_kind e = Ok tt <->
  (Kind e = KindExternal \/ Kind e = KindNode \/ Kind e = KindLocal) /\
  (Kind e <> KindLocal -> len (Pubkey e) = 64%Z /\ hex_string (Pubkey e) = true) /\
  (Kind e = KindLocal -> Name e <> "" /\ ContainsAny (Name e) "/+#" = false /\ Pubkey e = "").
Proof.
  unfold validate_kind. destruct ((Kind e == KindExternal) || (Kind e == KindNode)) eqn:Hk.
  - apply orb_true_iff in Hk. rewrite !bool_decide_eq_true in Hk.
    assert (Kind e <> KindLocal) by (destruct Hk as [-> | ->]; done).
    case_bool_decide; simpl; [|naive_solver].
    destruct (hex_string (Pubkey e)) eqn:Hh; simpl; naive_solver congruence.
  - bool_simp. case_bool_decide as Hl.
    + case_bool_decide; [naive_solver|]. destruct (ContainsAny _ _) eqn:Hc; [naive_solver congruence|].
      case_bool_decide; simpl; naive_solver.
    + case_bool_decide; naive_solver.
Qed.

(** Enrollment accepts exactly the well-formed entries: an external service,
    a node or a local service (never a person); keyed kinds with a 64-digit hex
    key and a placement, local ones with a one-segment name and no key; draining
    only for nodes; and only grants that parse, none of them admin or
    node-relative. *)
Theorem Validate_spec e : Validate e = Ok tt <-> valid_entry e.
Proof.
  unfold Validate, ValidElementID. case_bool_decide as Hu; [split; [done|intros []; done]|].
  destruct (validate_kind e) as [[]|err] eqn:Hk.
  2: { split; [done|]. intros [? H1 H2 H3 _ _ _ _ _].
       by rewrite (proj2 (validate_kind_Ok e) (conj H1 (conj H2 H3))) in Hk. }
  apply validate_kind_Ok in Hk as (Hk1 & Hk2 & Hk3).
  assert (Hel : (if ElementOf e != "" then
                   match (if ContainsAny (ElementOf e) "/+#:" then Err (ErrElementID (ElementOf e)) else Ok tt)
                   with Ok _ => Ok tt | Err x => Err (ErrElement x) end
                 else Ok tt) = if ContainsAny (ElementOf e) "/+#:"
                               then Err (ErrElement (ErrElementID (ElementOf e))) else Ok tt).
  { destruct (decide (ElementOf e = "")) as [->|H]; [done|].
    rewrite (bool_decide_eq_false_2 _ H). by destruct (ContainsAny (ElementOf e) "/+#:"). }
  rewrite Hel. destruct ((ElementOf e == "") && (Kind e != KindLocal)) eqn:Hp.
  { bool_simp. split; [done|]. intros []; naive_solver. }
  apply andb_false_iff in Hp. rewrite negb_false_iff, bool_decide_eq_true, bool_decide_eq_false in Hp.
  destruct (ContainsAny (ElementOf e) "/+#:") eqn:Hc; [split; [done|intros []; congruence]|].
  destruct ((Status e == "") || (Status e == StatusActive) || (Status e == StatusDraining)) eqn:Hs; simpl.
  2: { bool_simp. split; [done|]. intros []; naive_solver. }
  rewrite !orb_true_iff, !bool_decide_eq_true in Hs.
  destruct ((Status e == StatusDraining) && (Kind e != KindNode)) eqn:Hd.
  { bool_simp. split; [done|]. intros []; naive_solver. }
  apply andb_false_iff in Hd. rewrite negb_false_iff, bool_decide_eq_true, bool_decide_eq_false in Hd.
  rewrite validate_grants_Ok. split; [intros Hg; split; naive_solver|intros []; naive_solver].
Qed.

(** *** Cursors *)

(** An identity whose cursor names are one segment deep below its own prefix. *)
Definition segment_identity (e : Entry) : Prop :=
  if Kind e == KindLocal then has_byte slash (Name e) = false
  else has_byte slash (ULID e) = false /\ ULID e <> "c".

Lemma OwnsCursor_prefix e cursor : OwnsCursor (Some e) cursor = true -> HasPrefix cursor (CursorPrefix e) = true.
Proof. simpl. by destruct (HasPrefix cursor (CursorPrefix e)). Qed.

Lemma CursorPrefix_Split e cursor :
  segment_identity e -> HasPrefix cursor (CursorPrefix e) = true ->
  exists l, l <> [] /\
    Split cursor slash = (if Kind e == KindLocal then ["c"; Name e] else [ULID e]) ++ l.
Proof.
  unfold segment_identity, CursorPrefix. case_bool_decide.
  - intros Hn. change (LocalCursorPrefix +:+ Name e +:+ "/") with (("c/" +:+ Name e) +:+ "/").
    rewrite (Split_HasPrefix_sep cursor ("c/" +:+ Name e) slash).
    change ("c/" +:+ Name e) with ("c" +:+ String slash (Name e)).
    rewrite Split_app. by rewrite (Split_single (Name e)).
  - intros [Hu _]. rewrite (Split_HasPrefix_sep cursor (ULID e) slash).
    by rewrite (Split_single (ULID e)).
Qed.

(** No identity can move another one's cursor: two identities that own the
    same cursor have the same cursor prefix, provided ULIDs and names are single
    segments and no ULID is ["c"], the segment that heads local cursors. *)
Theorem cursor_isolation e1 e2 cursor :
  segment_identity e1 -> segment_identity e2 ->
  OwnsCursor (Some e1) cursor = true -> OwnsCursor (Some e2) cursor = true ->
  CursorPrefix e1 = CursorPrefix e2.
Proof.
  intros H1 H2 Ho1%OwnsCursor_prefix Ho2%OwnsCursor_prefix.
  destruct (CursorPrefix_Split _ _ H1 Ho1) as (l1 & _ & E1).
  destruct (CursorPrefix_Split _ _ H2 Ho2) as (l2 & _ & E2).
  rewrite E1 in E2. clear Ho1 Ho2 E1. unfold segment_identity, CursorPrefix in *.
  repeat case_bool_decide; simpl in E2; destruct_and?; simplify_eq; congruence.
Qed.

Definition demo_service (name : string) : Entry :=
  mkEntry "01SVC" "" KindLocal name "" [] [] "" "" "" false "" "".

Lemma cursor_isolation_witness :
  CursorPrefix (demo_service "api") = CursorPrefix (demo_service "api").
Proof.
  apply (cursor_isolation (demo_service "api") (demo_service "api") "c/api/x");
    vm_compute; reflexivity.
Defined.

(** A keyed identity enrolled under the ULID ["c"]. *)
Definition demo_c : Entry :=
  mkEntry "c" "0000000000000000000000000000000000000000000000000000000000000000"
    KindExternal "" "el-press" [] [] "" "" "" false "" "".

(** C35: The proviso is needed: enrollment accepts a keyed identity whose ULID is
    ["c"], and that identity owns every cursor of every local service, the
    historian's included. *)
Theorem ulid_c_owns_local_cursors name rest :
  Validate demo_c = Ok tt /\
  (name +:+ "/" +:+ rest <> "cmd" ->
   OwnsCursor (Some demo_c) (CursorPrefix (demo_service name) +:+ rest) = true).
Proof.
  split; [vm_compute; reflexivity|]. intros Hr.
  assert (HE : CursorPrefix (demo_service name) +:+ rest = "c/" +:+ (name +:+ "/" +:+ rest)).
  { change (CursorPrefix (demo_service name)) with ("c/" +:+ name +:+ "/").
    by rewrite <- !app_assoc_s. }
  cbn [OwnsCursor with_entry]. rewrite HE. change (CursorPrefix demo_c) with "c/".
  rewrite HasPrefix_app. cbn [negb]. apply negb_true_iff, bool_decide_eq_false.
  change (CommandCursor demo_c) with ("c/" +:+ "cmd"). intros H. apply Hr.
  by apply (String.app_inj "c/") in H.
Qed.

Lemma ulid_c_owns_local_cursors_witness :
  OwnsCursor (Some demo_c) (CursorPrefix (demo_service "historian") +:+ "metrics") = true.
Proof. apply (ulid_c_owns_local_cursors "historian" "metrics"). discriminate. Defined.

Lemma Contains_has_byte c s : Contains s (String c "") = has_byte c s.
Proof.
  induction s as [|a s IH]; [done|]. cbn [Contains has_byte]. rewrite IH. f_equal.
  unfold HasPrefix, CutPrefix. repeat case_bool_decide; congruence.
Qed.

Lemma identityCursor_colon prefix rest :
  HasPrefix (prefix +:+ rest) LocalCursorPrefix = false ->
  has_byte colon prefix = true -> has_byte slash prefix = false ->
  identityCursor (prefix +:+ rest) = false.
Proof.
  intros Hp Hc Hs. unfold identityCursor. case_match; [done|].
  assert (TrimPrefix (prefix +:+ rest) LocalCursorPrefix = prefix +:+ rest) as ->.
  { unfold TrimPrefix. unfold HasPrefix in Hp. by destruct (CutPrefix _ _). }
  destruct (Cut (prefix +:+ rest) slash) as [[x y]|] eqn:E; [|done].
  apply Cut_Some in E as [E Hx]. rewrite (Contains_has_byte colon x).
  replace (has_byte colon x) with true; [by rewrite andb_false_r|]. symmetry.
  clear -E Hc Hs. revert x E. induction prefix as [|a prefix IH]; intros x E; [done|].
  simpl in Hc, Hs. bool_simp. destruct x as [|b x].
  - rewrite app_nil_l, app_cons_l in E. naive_solver.
  - rewrite !app_cons_l in E. injection E as <- E. simpl.
    case_bool_decide; simpl in *; [done|]. by apply IH.
Qed.

(** No operator right retires a cursor the node itself depends on: not the
    historian's, not a command delivery floor, and not a replication cursor, in
    either direction and for any parent key or child. *)
Theorem MayRetireCursor_protects sc e x (d : Entry) :
  MayRetireCursor sc e (LocalCursorPrefix +:+ "historian/" +:+ x) = false /\
  MayRetireCursor sc e (DownlinkCursorPrefix +:+ x) = false /\
  MayRetireCursor sc e (DownlinkDefCursorPrefix +:+ x) = false /\
  MayRetireCursor sc e (UplinkCursor x) = false /\
  MayRetireCursor sc e (DownlinkCursor x) = false /\
  MayRetireCursor sc e (DownlinkDefCursor x) = false /\
  (segment_identity d -> MayRetireCursor sc e (CommandCursor d) = false).
Proof.
  assert (H : forall cursor, identityCursor cursor = false -> MayRetireCursor sc e cursor = false).
  { intros cursor Hc. destruct e; [|done]. simpl. by rewrite Hc. }
  repeat split; try (apply H; by apply identityCursor_colon).
  - apply H. unfold identityCursor. cbn [existsb SystemConsumers].
    change (HasPrefix _ _) with (HasPrefix ("c/historian/" +:+ x) "c/historian/") at 1.
    by rewrite HasPrefix_app.
  - intros Hd. apply H. unfold identityCursor. case_match eqn:Hsys; [done|].
    unfold CommandCursor, CursorPrefix, segment_identity in *. destruct (Kind d == KindLocal).
    + change ((LocalCursorPrefix +:+ Name d +:+ "/") +:+ commandCursorSuffix)
        with (LocalCursorPrefix +:+ (Name d +:+ "/") +:+ commandCursorSuffix).
      rewrite TrimPrefix_app, <- app_assoc_s.
      rewrite (proj2 (Cut_Some _ _ (Name d) commandCursorSuffix)) by by split.
      change (commandCursorSuffix != commandCursorSuffix) with false. by rewrite andb_false_r.
    + destruct Hd as [Hu Hn].
      assert (TrimPrefix ((ULID d +:+ "/") +:+ commandCursorSuffix) LocalCursorPrefix =
              ULID d +:+ String slash commandCursorSuffix) as ->.
      { rewrite <- app_assoc_s. unfold TrimPrefix.
        destruct (CutPrefix _ LocalCursorPrefix) as [t|] eqn:E; [|done]. exfalso.
        apply CutPrefix_Some in E. apply Hn.
        assert (Hc : Cut (LocalCursorPrefix +:+ t) slash = Some (ULID d, commandCursorSuffix))
          by (rewrite <- E; by apply Cut_Some).
        change (LocalCursorPrefix +:+ t) with ("c" +:+ String slash t) in Hc.
        rewrite (proj2 (Cut_Some _ _ "c" t)) in Hc by by split. congruence. }
      rewrite (proj2 (Cut_Some _ _ (ULID d) commandCursorSuffix)) by by split.
      change (commandCursorSuffix != commandCursorSuffix) with false. by rewrite andb_false_r.
Qed.

Lemma MayRetireCursor_protects_witness :
  MayRetireCursor demo_scope (Some demo_entry) (CommandCursor (demo_service "api")) = false.
Proof.
  apply (MayRetireCursor_protects demo_scope (Some demo_entry) "" (demo_service "api")).
  vm_compute. reflexivity.
Defined.

(** *** Browsing, filters and witnessed classes *)

(** The folders a caller may see form a tree: every readable path is visible,
    and every folder above a visible one is visible too, so a tree view never
    shows a node it cannot reach. *)
Theorem AuthorizeBrowse_upward sc e path below :
  AuthorizeBrowse sc e (path +:+ "/" +:+ below) = true -> AuthorizeBrowse sc e path = true.
Proof.
  unfold AuthorizeBrowse. rewrite !existsb_elem. intros (z & Hz & H). exists z. split; [done|].
  apply orb_true_iff. apply orb_true_iff in H as [H|H].
  - apply coverPath_spec in H as [->|[l H]]; [by left|].
    change (path +:+ "/" +:+ below) with (path +:+ String slash below) in H.
    rewrite Split_app in H. rewrite coverPath_spec.
    rewrite (Split_HasPrefix_sep z path slash).
    apply app_eq_inv in H as [(k & H1 & H2)|(k & H1 & H2)].
    + left. right. by exists k.
    + destruct k as [|x k]; [|right; by exists (x :: k)].
      left. right. exists []. rewrite app_nil_r in *. done.
  - right. apply HasPrefix_spec in H as [t ->]. apply HasPrefix_spec.
    exists (below +:+ "/" +:+ t). by rewrite <- !app_assoc_s.
Qed.

Lemma AuthorizeBrowse_upward_witness : AuthorizeBrowse demo_scope demo_entry "line1" = true.
Proof. apply (AuthorizeBrowse_upward _ _ "line1" "press3"). vm_compute. reflexivity. Defined.

(** A filter that names a contract matches records of that contract only, so
    refusing a filter that names an undefined contract loses its holder nothing. *)
Theorem FilterContract_sound root filter topic p contract :
  ValidRoot root = true -> FilterContract root filter = Some contract ->
  MatchFilter filter topic = true -> Parse topic = Ok p -> Contract p = contract.
Proof.
  intros Hr Hf HM%MatchFilter_spec Hp. rewrite (Parse_Split _ _ Hp) in HM. unfold FilterContract in Hf.
  destruct (Split filter slash) as [|s0 [|s1 [|s2 l]]]; try done.
  destruct ((s0 != root) && (s0 != "+")) eqn:E0; [done|].
  destruct ((s1 == "#") || (s2 == "+") || (s2 == "#")) eqn:E1; [done|]. injection Hf as <-.
  bool_simp. inversion HM as [| | |? ? ? ? _ _ _ HM1]; subst.
  { rewrite andb_false_iff, !negb_false_iff, !bool_decide_eq_true in E0. by destruct E0 as [<-|]. }
  inversion HM1 as [| | |? ? ? ? _ _ _ HM2]; subst; [done|].
  inversion HM2 as [|? ? [_ Hl]|? ? [_ Hl]|? ? ? ? [_ Hl]]; subst; naive_solver.
Qed.

Lemma FilterContract_sound_witness :
  Contract (mkParsed "colca" "v1" "_Metric" "n1" "a/b") = "_Metric".
Proof.
  apply (FilterContract_sound "colca" "colca/v1/_Metric/#" "colca/v1/_Metric/n1/a/b");
    vm_compute; reflexivity.
Defined.

(** What a door witnesses about an actor is exactly what they hold at the
    command's place: ["read"] when a read zone covers it, and a command class
    when a command grant of that class does; sorted, as recorded. *)
Theorem ClassesAt_spec sc e contract path c :
  let place := match ReadAuthorizedAct contract path with Some p => p | None => path end in
  Sorted String.le (ClassesAt sc (Some e) contract path) /\
  (c ∈ ClassesAt sc (Some e) contract path <->
   (c = "read" /\ zones_cover (readZones sc e) place = true) \/
   (known_class c = true /\ AuthorizeCmdAt sc (Some e) c place = true)).
Proof.
  intros place. unfold ClassesAt. fold place. split; [apply sort_strings_sorted|].
  rewrite sort_strings_perm, elem_of_app, list_elem_of_filter, elem_of_elements.
  unfold known_class. rewrite bool_decide_eq_true.
  destruct (zones_cover (readZones sc e) place); [rewrite list_elem_of_singleton|rewrite elem_of_nil];
    naive_solver.
Qed.
