(* ===== verification/Elements.v ===== *)
(** * Elements: where elements and nodes are

    Models [plugins/uns/ancestry.go], [plugins/uns/elements.go] and the node's
    [scope] of [internal/engine/engine.go], which implements the [Scope]
    interface the authorization decision is proved against.

    Decoding an element record (encoding/json, field [id]) is a parameter: the
    theorems hold for any decoder. *)

From S2P Require Import Prelude Topics Grants Authz.
Local Open Scope go_scope.

(** ** Ancestry ([ancestry.go]) *)

Record Ancestor := mkAncestor { AncestorElement : string; AncestorName : string }.

Abbreviation Ancestry := (list Ancestor).

Definition AncestryPrefix (a : Ancestry) : string := Join (AncestorName <$> a) slash.

Definition Covers (a : Ancestry) (elementID : string) : bool :=
  if elementID == "" then false else existsb (fun step => AncestorElement step == elementID) a.

Definition AncestryBinds (a : Ancestry) (elementID : string) : bool :=
  (elementID != "") && match last a with Some step => AncestorElement step == elementID | None => false end.

(** The loop of [Extend]: [local] is the mount walked so far, in the parent's
    frame. *)
Fixpoint extend_walk (IDAt : string -> option string) (local : string) (segs : list string) : Ancestry :=
  match segs with
  | [] => []
  | seg :: rest =>
      if seg == "" then extend_walk IDAt local rest
      else
        let local := if local == "" then seg else local +:+ "/" +:+ seg in
        mkAncestor (default "" (IDAt local)) seg :: extend_walk IDAt local rest
  end.

Definition Extend (a : Ancestry) (IDAt : string -> option string) (mount : string) : Ancestry :=
  a ++ extend_walk IDAt "" (Split mount slash).

(** ** The element index ([elements.go]) *)

Record ElementIndex := mkIndex {
  loaded : bool;
  byID : gmap string string;
  byPath : gmap string string;
}.

Definition NewElementIndex : ElementIndex := mkIndex false ∅ ∅.

Section index.

(** [json.Unmarshal] into [placedElement], and its [ID]. *)
Variable element_id : string -> option string.

Definition apply_record (x : ElementIndex) (path payload : string) : ElementIndex :=
  let x := match byPath x !! path with
           | Some old =>
               mkIndex (loaded x)
                 (if bool_decide (byID x !! old = Some path) then delete old (byID x) else byID x)
                 (delete path (byPath x))
           | None => x
           end in
  if payload == "" then x
  else match element_id payload with
       | Some id => if id == "" then x
                    else mkIndex (loaded x) (<[id := path]> (byID x)) (<[path := id]> (byPath x))
       | None => x
       end.

Definition Observe (x : ElementIndex) (contract topic payload : string) : ElementIndex :=
  if contract != "_SystemElement" then x
  else match Parse topic with
       | Err _ => x
       | Ok p => if negb (loaded x) then x else apply_record x (Path p) payload
       end.

(** [load]: [records] is what [KVScanAll("_SystemElement")] returns, path and
    payload of each. *)
Definition load (records : list (string * string)) (x : ElementIndex) : ElementIndex :=
  if loaded x then x
  else let x := foldl (fun x r => apply_record x r.1 r.2) x records in
       mkIndex true (byID x) (byPath x).

(** [PathOf] and [IDAt] on a loaded index. *)
Definition IndexPathOf (x : ElementIndex) (elementID : string) : option string :=
  if elementID == "" then None else byID x !! elementID.

Definition IDAt (x : ElementIndex) (path : string) : option string := byPath x !! path.

Definition IndexCovers (x : ElementIndex) (elementID topicPath : string) : bool :=
  match IndexPathOf x elementID with
  | None => false
  | Some base => (topicPath == base) || HasPrefix topicPath (base +:+ "/")
  end.

(** ** The node's scope ([engine.go]) *)

(** [scope]: the index answers for what this node holds, the ancestry for what is
    above it; [None] until the parent taught the node its position. *)
Definition node_scope (x : ElementIndex) (ancestry : option Ancestry) : Scope :=
  mkScope (IndexPathOf x)
    (fun id => match ancestry with Some a => Covers a id | None => false end)
    (fun id => match ancestry with Some a => AncestryBinds a id | None => false end).

(** ** Specification of the index *)

(** The element a record's payload places, if any. *)
Definition placed (payload : string) : option string :=
  if payload == "" then None
  else match element_id payload with
       | Some id => if id == "" then None else Some id
       | None => None
       end.

(** The element at a path after a history of records, and the path an element was
    last written at. *)
Definition id_at (history : list (string * string)) (path : string) : option string :=
  foldl (fun cur r => if r.1 == path then placed r.2 else cur) None history.

Definition last_written (history : list (string * string)) (id : string) : option string :=
  foldl (fun cur r => if bool_decide (placed r.2 = Some id) then Some r.1 else cur) None history.

Definition replay (history : list (string * string)) : ElementIndex :=
  foldl (fun x r => apply_record x r.1 r.2) NewElementIndex history.

Lemma foldl_snoc_r {A B} (f : A -> B -> A) a (l : list B) b : foldl f a (l ++ [b]) = f (foldl f a l) b.
Proof. by rewrite foldl_app. Qed.

(** [apply_record] in one step: the path's old element goes, the new one comes. *)
Lemma apply_record_byPath x path payload p :
  byPath (apply_record x path payload) !! p = if p == path then placed payload else byPath x !! p.
Proof.
  unfold apply_record, placed. destruct (decide (p = path)) as [->|Hne].
  - rewrite (bool_decide_eq_true_2 (path = path)) by done.
    destruct (byPath x !! path) eqn:E; simpl; repeat case_match; simpl;
      rewrite ?lookup_insert_eq, ?lookup_delete_eq; congruence.
  - rewrite (bool_decide_eq_false_2 _ Hne).
    destruct (byPath x !! path) eqn:E; simpl; repeat case_match; simpl;
      rewrite ?lookup_insert_ne, ?lookup_delete_ne by done; congruence.
Qed.

Lemma apply_record_byID x path payload id :
  (forall i, byID x !! i = Some path -> byPath x !! path = Some i) ->
  byID (apply_record x path payload) !! id =
  if bool_decide (placed payload = Some id) then Some path
  else if bool_decide (byID x !! id = Some path) then None else byID x !! id.
Proof.
  intros Hinv. set (b := if bool_decide (byID x !! id = Some path) then None else byID x !! id).
  assert (Hb : (match byPath x !! path with
                | Some old => if bool_decide (byID x !! old = Some path) then delete old (byID x) else byID x
                | None => byID x
                end) !! id = b).
  { unfold b. destruct (byPath x !! path) as [old|] eqn:E.
    - repeat case_bool_decide.
      + assert (old = id) as -> by (apply Hinv in H0; congruence). apply lookup_delete_eq.
      + rewrite lookup_delete_ne; [done|]. intros ->. done.
      + assert (old = id) as -> by (apply Hinv in H0; congruence). done.
      + done.
    - case_bool_decide as H; [apply Hinv in H; congruence|done]. }
  assert (Hs : byID (apply_record x path payload) =
    let m := match byPath x !! path with
             | Some old => if bool_decide (byID x !! old = Some path) then delete old (byID x) else byID x
             | None => byID x
             end in
    match placed payload with Some i => <[i := path]> m | None => m end).
  { unfold apply_record, placed. destruct (byPath x !! path); simpl; repeat case_match; done. }
  rewrite Hs. simpl. destruct (placed payload) as [i|].
  - destruct (decide (i = id)) as [->|]; [by rewrite lookup_insert_eq, bool_decide_eq_true_2|].
    rewrite lookup_insert_ne by done. by rewrite bool_decide_eq_false_2 by congruence.
  - by rewrite bool_decide_eq_false_2.
Qed.

Lemma replay_spec history :
  (forall path, byPath (replay history) !! path = id_at history path) /\
  (forall id path, byID (replay history) !! id = Some path <->
     last_written history id = Some path /\ id_at history path = Some id).
Proof.
  unfold replay. induction history as [|r history [IHp IHi]] using rev_ind.
  { split; [done|]. intros id path. split; [done|]. by intros [? _]. }
  rewrite foldl_snoc_r. set (x := foldl _ _ history) in *.
  assert (Hat : forall p, id_at (history ++ [r]) p = if r.1 == p then placed r.2 else id_at history p)
    by (intros; unfold id_at; by rewrite foldl_snoc_r).
  assert (Hlw : forall i, last_written (history ++ [r]) i =
    if bool_decide (placed r.2 = Some i) then Some r.1 else last_written history i)
    by (intros; unfold last_written; by rewrite foldl_snoc_r).
  split.
  - intros p. rewrite apply_record_byPath, IHp, Hat.
    destruct (decide (p = r.1)) as [->|]; [by rewrite !bool_decide_eq_true_2|].
    by rewrite !bool_decide_eq_false_2 by congruence.
  - intros id p. rewrite apply_record_byID.
    2: { intros i Hi. rewrite IHp. by apply IHi in Hi as [_ Hi]. }
    rewrite Hat, Hlw. destruct (decide (placed r.2 = Some id)) as [Hpl|Hpl].
    + rewrite !(bool_decide_eq_true_2 _ Hpl). split.
      * intros [= <-]. by rewrite bool_decide_eq_true_2.
      * by intros [? _].
    + rewrite !(bool_decide_eq_false_2 _ Hpl).
      destruct (decide (r.1 = p)) as [<-|Hne].
      * rewrite (bool_decide_eq_true_2 (r.1 = r.1)) by done.
        case_bool_decide; [|split; [done|naive_solver]]. split; [done|naive_solver].
      * rewrite (bool_decide_eq_false_2 _ Hne). rewrite <- IHi. case_bool_decide; [|done].
        split; [done|congruence].
Qed.

(** The position and payload an observed record contributes. *)
Definition element_record (r : string * string * string) : option (string * string) :=
  let '(contract, topic, payload) := r in
  if contract != "_SystemElement" then None
  else match Parse topic with Ok p => Some (Path p, payload) | Err _ => None end.

(** A running index: loaded from the store's records, then observing. *)
Definition run_index (records : list (string * string)) (observed : list (string * string * string)) :
  ElementIndex :=
  foldl (fun x r => Observe x r.1.1 r.1.2 r.2) (load records NewElementIndex) observed.

Lemma apply_record_unloaded x x' path payload :
  byID x = byID x' -> byPath x = byPath x' ->
  byID (apply_record x path payload) = byID (apply_record x' path payload) /\
  byPath (apply_record x path payload) = byPath (apply_record x' path payload).
Proof.
  intros Hi Hp. unfold apply_record. rewrite Hi, Hp.
  destruct (byPath x' !! path); simpl; repeat case_match; simpl; by rewrite ?Hi, ?Hp.
Qed.

Lemma apply_record_loaded x path payload : loaded (apply_record x path payload) = loaded x.
Proof. unfold apply_record. destruct (byPath x !! path); simpl; repeat case_match; done. Qed.

Lemma run_index_replay records observed :
  byID (run_index records observed) = byID (replay (records ++ omap element_record observed)) /\
  byPath (run_index records observed) = byPath (replay (records ++ omap element_record observed)).
Proof.
  assert (H : loaded (run_index records observed) = true /\
    byID (run_index records observed) = byID (replay (records ++ omap element_record observed)) /\
    byPath (run_index records observed) = byPath (replay (records ++ omap element_record observed)));
    [|apply H].
  unfold run_index. induction observed as [|[[c t] pl] observed IH] using rev_ind.
  { simpl. by rewrite app_nil_r. }
  rewrite foldl_snoc_r, omap_app, app_assoc. set (x := foldl _ _ observed) in *.
  destruct IH as (Hl & Hi & Hp). unfold Observe. simpl.
  destruct (c != "_SystemElement") eqn:Hc; simpl; [by rewrite app_nil_r|].
  destruct (Parse t) as [p|]; simpl; [|by rewrite app_nil_r].
  rewrite Hl. simpl. rewrite apply_record_loaded. split; [done|].
  unfold replay. rewrite foldl_snoc_r. by apply apply_record_unloaded.
Qed.

(** C36: The element index is the projection of the element records it has seen,
    whether loaded from the store or observed as they arrive: the element at a
    path is what the last record there placed, and an element's path is the last
    position it was written at, as long as that position still holds it. So a
    move, which commits the new position before it retires the old one, never
    loses the element. *)
Theorem ElementIndex_spec records observed path id :
  let history := records ++ omap element_record observed in
  IDAt (run_index records observed) path = id_at history path /\
  (IndexPathOf (run_index records observed) id = Some path <->
   id <> "" /\ last_written history id = Some path /\ id_at history path = Some id).
Proof.
  intros history. destruct (run_index_replay records observed) as [Hi Hp].
  destruct (replay_spec history) as [Rp Ri]. unfold IDAt, IndexPathOf. rewrite Hp, Hi.
  split; [apply Rp|]. case_bool_decide; [naive_solver|]. unfold history in *. rewrite Ri. naive_solver.
Qed.

End index.

(** ** Ancestry lemmas *)

Lemma extend_walk_names IDAt local segs :
  AncestorName <$> extend_walk IDAt local segs = filter (fun s => s <> "") segs.
Proof.
  revert local. induction segs as [|s segs IH]; intros local; [done|]. simpl. rewrite filter_cons.
  case_bool_decide; [by rewrite decide_False by naive_solver|].
  rewrite decide_True by done. simpl. f_equal. apply IH.
Qed.

(** The position a walk has reached. *)
Definition walked (local : string) (segs : list string) : string :=
  if local == "" then Join segs slash else Join (local :: segs) slash.

Lemma extend_walk_elements IDAt local segs step :
  Forall (fun s => s <> "") segs ->
  step ∈ extend_walk IDAt local segs <->
  exists s1 s2 s, segs = s1 ++ s :: s2 /\
    step = mkAncestor (default "" (IDAt (walked local (s1 ++ [s])))) s.
Proof.
  intros Hs. revert local. induction Hs as [|s segs Hne Hs IH]; intros local.
  { simpl. rewrite elem_of_nil. split; [done|]. by intros ([|] & ? & ? & ? & _). }
  cbn [extend_walk]. rewrite (bool_decide_eq_false_2 _ Hne), elem_of_cons, IH.
  set (local' := if local == "" then s else local +:+ "/" +:+ s).
  assert (Hl : local' <> "").
  { unfold local'. case_bool_decide; [done|]. by destruct local. }
  assert (Hw : forall l, walked local' l = walked local (s :: l)).
  { intros l. unfold walked. rewrite (bool_decide_eq_false_2 _ Hl). unfold local'.
    case_bool_decide; [done|]. destruct l as [|a l]; [done|].
    rewrite !Join_cons by done. by rewrite <- app_assoc_s. }
  split.
  - intros [->|(s1 & s2 & x & -> & ->)].
    + exists [], segs, s. split; [done|]. simpl. rewrite <- (Hw []). unfold walked.
      by rewrite (bool_decide_eq_false_2 _ Hl).
    + exists (s :: s1), s2, x. split; [done|]. by rewrite Hw.
  - intros ([|y s1] & s2 & x & [= -> ->] & ->).
    + left. simpl. rewrite <- (Hw []). unfold walked. by rewrite (bool_decide_eq_false_2 _ Hl).
    + right. exists s1, s2, x. split; [done|]. by rewrite Hw.
Qed.

Lemma Covers_spec a id :
  Covers a id = true <-> id <> "" /\ exists step, step ∈ a /\ AncestorElement step = id.
Proof.
  unfold Covers. case_bool_decide; [naive_solver|]. rewrite existsb_elem.
  setoid_rewrite bool_decide_eq_true. naive_solver.
Qed.

Lemma Covers_app a b id : Covers (a ++ b) id = Covers a id || Covers b id.
Proof. unfold Covers. case_bool_decide; [done|]. apply existsb_app. Qed.

(** A child learns its exact position: the path of its ancestry is the parent's
    path followed by the mount's segments, empty segments left out, whether or
    not elements were placed along the way. *)
Theorem Extend_prefix a IDAt mount :
  AncestryPrefix (Extend a IDAt mount) =
  Join ((AncestorName <$> a) ++ filter (fun s => s <> "") (Split mount slash)) slash.
Proof. unfold AncestryPrefix, Extend. by rewrite fmap_app, extend_walk_names. Qed.

(** ** The same grant at a parent and its child *)

(** What a grant on an element covers at a node. *)
Definition covers_at (sc : Scope) (id path : string) : bool :=
  match zoneOf (Some sc) id with Some z => coverPath z path | None => false end.

Section hop.

Context (parent child : ElementIndex) (above : Ancestry) (mount : string).

(** The mount is a path of names. *)
Hypothesis mount_segments : Forall (fun s => s <> "") (Split mount slash).
(** The parent's index has one position per element and no wildcard paths. *)
Hypothesis parent_bijective :
  forall id p, id <> "" -> IndexPathOf parent id = Some p <-> IDAt parent p = Some id.
Hypothesis parent_paths :
  forall id p, IndexPathOf parent id = Some p -> "#" ∉ Split p slash.
(** Replication: the child holds exactly the parent's elements below the mount,
    in its own frame. *)
Hypothesis replicated :
  forall id r, IndexPathOf child id = Some r <-> IndexPathOf parent id = Some (mount +:+ "/" +:+ r).

Let parent_scope := node_scope parent (Some above).
Let child_scope := node_scope child (Some (Extend above (IDAt parent) mount)).

Lemma walk_Covers id :
  id <> "" ->
  Covers (extend_walk (IDAt parent) "" (Split mount slash)) id = true <->
  exists q l, IndexPathOf parent id = Some q /\ Split mount slash = Split q slash ++ l.
Proof using mount_segments parent_bijective.
  intros Hid. rewrite Covers_spec. setoid_rewrite (extend_walk_elements _ _ _ _ mount_segments). split.
  - intros (_ & step & (s1 & s2 & s & Hm & ->) & Hs). simpl in Hs.
    exists (Join (s1 ++ [s]) slash), s2. split.
    + apply parent_bijective; [done|]. unfold walked in Hs. rewrite bool_decide_eq_true_2 in Hs by done.
      unfold IDAt in *. destruct (byPath parent !! Join (s1 ++ [s]) slash) eqn:E; simpl in Hs; congruence.
    + rewrite Split_Join.
      * by rewrite <- app_assoc.
      * by destruct s1.
      * pose proof (Split_no_sep mount slash) as H. rewrite Hm in H.
        rewrite cons_middle, app_assoc in H. by apply Forall_app in H as [H _].
  - intros (q & l & Hq & Hm). split; [done|].
    assert (exists s1 s, Split q slash = s1 ++ [s]) as (s1 & s & Hs).
    { destruct (exists_last (Split_not_nil q slash)) as (s1 & s & ->). eauto. }
    eexists. split; [exists s1, l, s; split; [|reflexivity]; by rewrite Hm, Hs, <- app_assoc|].
    simpl. unfold walked. rewrite bool_decide_eq_true_2 by done. rewrite <- Hs, Join_Split.
    apply parent_bijective in Hq; [|done]. by rewrite Hq.
Qed.

Lemma coverPath_below z path rest :
  "#" ∉ Split z slash ->
  coverPath z (path +:+ "/" +:+ rest) = true <->
  exists l, Split path slash ++ Split rest slash = Split z slash ++ l.
Proof.
  intros Hz. rewrite coverPath_spec.
  change (path +:+ "/" +:+ rest) with (path +:+ String slash rest). rewrite Split_app.
  split; [|naive_solver]. intros [->|H]; [|done]. simpl in Hz. set_solver.
Qed.


End hop.

(** A site with a line and a press, and the edge node attached at the line. *)
Definition demo_site : ElementIndex :=
  mkIndex true (<["el-line" := "hall/line"]> {["el-press" := "hall/line/press"]})
    (<["hall/line" := "el-line"]> {["hall/line/press" := "el-press"]}).

Definition demo_edge : ElementIndex :=
  mkIndex true {["el-press" := "press"]} {["press" := "el-press"]}.

Lemma demo_site_lookup id p :
  byID demo_site !! id = Some p <->
  (id = "el-line" /\ p = "hall/line") \/ (id = "el-press" /\ p = "hall/line/press").
Proof.
  unfold demo_site. cbn [byID]. rewrite lookup_insert_Some, lookup_singleton_Some. naive_solver.
Qed.


(** An element record whose payload is its id. *)
Definition demo_decode (payload : string) : option string := Some payload.

