(* ===== verification/Keys.v ===== *)
(** * The keys of the store

    [internal/store/keys.go] and the key functions of [sigindex.go],
    [targetindex.go] and [kvindex.go]. A key is a list of parts separated by
    NUL bytes, the first of them naming its family, and for some families an
    8-byte big-endian offset behind one more NUL. [Key] keeps the parts apart
    and [encode] writes the bytes Pebble sees. The theorems show that nothing
    is lost by it: encoded keys are never confused, they sort as their offsets
    do, and every byte range the store deletes or iterates holds exactly one
    family of keys. *)

From S2P Require Export Prelude Topics.
From Stdlib Require Import Ascii.

Open Scope string_scope.
Open Scope go_scope.

Record Key := mkKey { parts : list string; suffix : option N }.

#[export] Instance Key_eq_dec : EqDecision Key.
Proof. solve_decision. Defined.

#[export] Instance Key_countable : Countable Key.
Proof.
  by apply (inj_countable' (fun k => (parts k, suffix k)) (fun p => mkKey (fst p) (snd p))); intros [].
Defined.

(** ** The families *)

Definition streamKey (stream : string) (off : N) : Key := mkKey ["s"; stream] (Some off).
Definition metaKey (stream : string) : Key := mkKey ["m"; stream] None.
Definition kvKey (path nodeID topic : string) : Key := mkKey ["k"; path; nodeID; topic] None.
Definition cursorKey (name stream : string) : Key := mkKey ["c"; name; stream] None.
Definition ctKey (name stream : string) : Key := mkKey ["ct"; name; stream] None.
Definition hwmKey (child stream : string) : Key := mkKey ["h"; child; stream] None.
Definition storeIDKey : Key := mkKey ["i"; ""] None.
Definition childStoreKey (child : string) : Key := mkKey ["u"; child] None.
Definition lwmKey (stream : string) : Key := mkKey ["l"; stream] None.
Definition bytesKey (stream : string) : Key := mkKey ["b"; stream] None.
Definition rpKey (stream : string) : Key := mkKey ["rp"; stream] None.
Definition journalKey (stream : string) (first : N) : Key := mkKey ["j"; stream] (Some first).
Definition incarnationChangeKey : Key := mkKey ["ic"; ""] None.
Definition parentStateKey (parent : string) : Key := mkKey ["p"; parent] None.
Definition ackedKey (parent stream : string) : Key := mkKey ["pa"; parent; stream] None.
Definition sigKey (stream signalID : string) (off : N) : Key := mkKey ["si"; stream; signalID] (Some off).
Definition indexedKey (stream : string) : Key := mkKey ["ix"; stream] None.
Definition targetKey (stream target : string) (off : N) : Key := mkKey ["ti"; stream; target] (Some off).

Definition contractOf (topic : string) : option string :=
  match Parse topic with
  | Ok p => if Contract p == "" then None else Some (Contract p)
  | Err _ => None
  end.

Definition kvIndexKey (path nodeID topic : string) : option Key :=
  match contractOf topic with
  | Some contract => Some (mkKey ["x"; contract; path; nodeID; topic] None)
  | None => None
  end.

(** ** The bytes *)

Abbreviation nul := "000"%char.
Abbreviation one := "001"%char.

(** [be64], byte by byte; [n] bytes of it. *)
Fixpoint be_bytes (n : nat) (v : N) : string :=
  match n with
  | O => ""
  | S n => be_bytes n (v / 256) +:+ String (ascii_of_N (v mod 256)) ""
  end.

Definition be64 (v : N) : string := be_bytes 8 v.
Arguments be64 : simpl never.

(** [binary.BigEndian.Uint64]. *)
Fixpoint be_value (acc : N) (s : string) : N :=
  match s with
  | "" => acc
  | String c s => be_value (acc * 256 + N_of_ascii c) s
  end.

Fixpoint drop_bytes (n : nat) (s : string) : string :=
  match n, s with
  | S n, String _ s => drop_bytes n s
  | _, _ => s
  end.

Definition offsetOf (key : string) : option N :=
  if (len key <? 8)%Z then None
  else Some (be_value 0 (drop_bytes (String.length key - 8) key)).

Definition encode (k : Key) : string :=
  Join (parts k) nul +:+ match suffix k with Some off => String nul (be64 off) | None => "" end.

(** The bounds of the range deletes and scans. [streamBounds] are those of a
    stream scan or prune. *)
Definition streamBounds (stream : string) (a b : N) : string * string :=
  (encode (streamKey stream a), encode (streamKey stream b)).
Definition hwmChildEnd (child : string) : string := "h" +:+ String nul child +:+ String one "".
Definition journalBounds (stream : string) : string * string :=
  ("j" +:+ String nul stream +:+ String nul "", "j" +:+ String nul stream +:+ String one "").
Definition ackedBounds : string * string :=
  ("pa" +:+ String nul "", "pa" +:+ String one "").
(** The bounds of [scanU64Pairs]: [{prefix, 0x00}] and [{prefix, 0x01}]. *)
Definition scanBounds (prefix : string) : string * string :=
  (prefix +:+ String nul "", prefix +:+ String one "").

(** Pebble's key order, [bytes.Compare]. *)
Fixpoint bytes_lt (x y : string) : bool :=
  match x, y with
  | _, "" => false
  | "", String _ _ => true
  | String a x, String b y =>
      if a == b then bytes_lt x y else (N_of_ascii a <? N_of_ascii b)%N
  end.

Definition in_range (bounds : string * string) (k : string) : bool :=
  negb (bytes_lt k (fst bounds)) && bytes_lt k (snd bounds).

(** The ranges the store deletes or walks, by what they are meant to hold. *)
Inductive KeyRange :=
| StreamRange (stream : string) (a b : N)
| HwmRange (child : string)
| AckedRange
| JournalRange (stream : string)
| CursorRange.

Definition bounds (r : KeyRange) : string * string :=
  match r with
  | StreamRange stream a b => streamBounds stream a b
  | HwmRange child => (encode (hwmKey child ""), hwmChildEnd child)
  | AckedRange => ackedBounds
  | JournalRange stream => journalBounds stream
  | CursorRange => scanBounds "c"
  end.

Definition in_keys (r : KeyRange) (k : Key) : bool :=
  match r, parts k, suffix k with
  | StreamRange stream a b, [tag; name], Some off =>
      (tag == "s") && (name == stream) && (a <=? off)%N && (off <? b)%N
  | HwmRange child, [tag; name; _], None => (tag == "h") && (name == child)
  | AckedRange, [tag; _; _], None => tag == "pa"
  | JournalRange stream, [tag; name], Some _ => (tag == "j") && (name == stream)
  | CursorRange, [tag; _; _], None => tag == "c"
  | _, _, _ => false
  end.

(** ** Well-formed keys

    Names are free of NUL bytes (they are ULIDs, stream names, public keys,
    paths and topics) and an offset is a [uint64]. *)

(** The number of names of a family, and whether an offset follows. *)
Definition schema (tag : string) : option (nat * bool) :=
  if one_of tag ["m"; "i"; "u"; "l"; "b"; "rp"; "ic"; "p"; "ix"] then Some (1, false)
  else if one_of tag ["s"; "j"] then Some (1, true)
  else if one_of tag ["c"; "ct"; "h"; "pa"] then Some (2, false)
  else if one_of tag ["si"; "ti"] then Some (2, true)
  else if one_of tag ["k"] then Some (3, false)
  else if one_of tag ["x"] then Some (4, false)
  else None.

Definition uint64 (n : N) : Prop := (n < 2 ^ 64)%N.

Definition wf_key (k : Key) : Prop :=
  match parts k with
  | tag :: names =>
      schema tag = Some (length names, bool_decide (is_Some (suffix k)))
      /\ Forall (fun p => has_byte nul p = false) (tag :: names)
      /\ from_option uint64 True (suffix k)
  | [] => False
  end.

(** Reads the parts of a key back: [n] names up to the next NUL each, then the
    rest. *)
Fixpoint cut_names (n : nat) (s : string) : option (list string * string) :=
  match n with
  | O => Some ([], s)
  | S n => match Cut s nul with
           | Some (p, rest) => match cut_names n rest with
                               | Some (ps, rest) => Some (p :: ps, rest)
                               | None => None
                               end
           | None => None
           end
  end.

Definition decode (s : string) : option Key :=
  match Cut s nul with
  | Some (tag, rest) =>
      match schema tag with
      | Some (n, true) =>
          match cut_names n rest with
          | Some (ps, off) => Some (mkKey (tag :: ps) (Some (be_value 0 off)))
          | None => None
          end
      | Some (n, false) =>
          match cut_names (n - 1) rest with
          | Some (ps, last) => Some (mkKey (tag :: ps ++ [last]) None)
          | None => None
          end
      | None => None
      end
  | None => None
  end.

(** ** Lemmas *)

Section bytes.

Implicit Types (s x y u w : string).

Lemma length_be_bytes n (v : N) : String.length (be_bytes n v) = n.
Proof. revert v; induction n as [|n IH]; intros v; simpl; [done|]. rewrite length_app_s, IH. simpl. lia. Qed.

Lemma be_value_app acc s x : be_value acc (s +:+ x) = be_value (be_value acc s) x.
Proof. revert acc; induction s as [|c s IH]; intros acc; simpl; [done|apply IH]. Qed.

Lemma be_value_be_bytes n (v : N) : be_value 0 (be_bytes n v) = (v mod 256 ^ N.of_nat n)%N.
Proof.
  revert v; induction n as [|n IH]; intros v.
  { simpl. by rewrite N.mod_1_r. }
  cbn [be_bytes]. rewrite be_value_app, IH. simpl.
  rewrite N_ascii_embedding by (apply N.mod_lt; lia).
  rewrite Nat2N.inj_succ, N.pow_succ_r', N.Div0.mod_mul_r. lia.
Qed.

Lemma be64_value off : uint64 off -> be_value 0 (be64 off) = off.
Proof. intros H. unfold be64. rewrite be_value_be_bytes. apply N.mod_small. exact H. Qed.

Lemma drop_bytes_app s x : drop_bytes (String.length s) (s +:+ x) = x.
Proof. induction s; simpl; done. Qed.

Lemma offsetOf_be64 s off : uint64 off -> offsetOf (s +:+ be64 off) = Some off.
Proof.
  intros Hoff. unfold offsetOf, len. rewrite length_app_s. unfold be64 at 1. rewrite length_be_bytes.
  destruct (Z.ltb_spec (Z.of_nat (String.length s + 8)) 8) as [H|_]; [lia|].
  unfold be64. rewrite length_be_bytes, Nat.add_sub, drop_bytes_app.
  f_equal. exact (be64_value off Hoff).
Qed.

Lemma bytes_lt_irrefl x : bytes_lt x x = false.
Proof. induction x as [|a x IH]; simpl; [done|]. by rewrite bool_decide_eq_true_2. Qed.

Lemma bytes_lt_app s x y : bytes_lt (s +:+ x) (s +:+ y) = bytes_lt x y.
Proof. induction s as [|a s IH]; simpl; [done|]. by rewrite bool_decide_eq_true_2. Qed.

Lemma ascii_N_inj a b : N_of_ascii a = N_of_ascii b -> a = b.
Proof. intros H. by rewrite <- (ascii_N_embedding a), <- (ascii_N_embedding b), H. Qed.

(** What lies between two keys with a common prefix has that prefix too. *)
Lemma in_range_prefix s u (v : string) x :
  in_range (s +:+ u, s +:+ v) x = true <-> exists w, x = s +:+ w /\ in_range (u, v) w = true.
Proof.
  unfold in_range; simpl. revert x; induction s as [|a s IH]; intros x.
  { simpl. split; [by exists x | by intros (w & -> & ?)]. }
  destruct x as [|b x].
  - simpl. split; [done | intros (w & Hw & _); discriminate].
  - simpl. destruct (decide (b = a)) as [->|Hne].
    + rewrite !bool_decide_eq_true_2 by done. rewrite IH. split.
      * intros (w & -> & H). by exists w.
      * intros (w & [= ->] & H). by exists w.
    + rewrite !bool_decide_eq_false_2 by congruence. split.
      * intros H. bool_simp. exfalso. apply Hne, ascii_N_inj.
        apply N.ltb_ge in H. apply N.ltb_lt in H0. lia.
      * intros (w & [= -> _] & _). done.
Qed.

(** One byte decides: what starts at NUL and ends before 1 continues a NUL. *)
Lemma in_range_nul s x :
  in_range (s +:+ String nul "", s +:+ String one "") x = true <-> exists w, x = s +:+ String nul w.
Proof.
  rewrite in_range_prefix. unfold in_range; simpl. split.
  - intros (w & -> & H). destruct w as [|a w]; simpl in H; [done|].
    destruct (decide (a = nul)) as [->|Hn]; [by exists w|].
    rewrite (bool_decide_eq_false_2 _ Hn) in H. destruct (decide (a = one)) as [->|Ho].
    { rewrite (bool_decide_eq_true_2 (one = one)) in H by done.
      destruct w; simpl in H; bool_simp; discriminate. }
    rewrite (bool_decide_eq_false_2 _ Ho) in H. bool_simp.
    apply N.ltb_lt in H0. change (N_of_ascii one) with 1%N in H0.
    destruct Hn. apply ascii_N_inj. change (N_of_ascii nul) with 0%N. lia.
  - intros (w & ->). exists (String nul w). split; [done|]. simpl. by destruct w.
Qed.

Lemma digits_inj (x y a b : N) :
  (x < 256 -> y < 256 -> x + 256 * a = y + 256 * b -> x = y /\ a = b)%N.
Proof. lia. Qed.

Lemma digits_lt (x y a b : N) :
  (x < 256 -> y < 256 -> a <> b -> x + 256 * a < y + 256 * b <-> a < b)%N.
Proof. lia. Qed.

Lemma be_bytes_inj n a b :
  (a mod 256 ^ N.of_nat n = b mod 256 ^ N.of_nat n)%N -> be_bytes n a = be_bytes n b.
Proof.
  revert a b; induction n as [|n IH]; intros p q H; [done|].
  cbn [be_bytes]. rewrite Nat2N.inj_succ, N.pow_succ_r', !N.Div0.mod_mul_r in H.
  apply digits_inj in H as [H1 H2]; [|by apply N.mod_lt..].
  by rewrite (IH _ _ H2), H1.
Qed.

Lemma bytes_lt_snoc x y c d : String.length x = String.length y ->
  bytes_lt (x +:+ String c "") (y +:+ String d "")
  = bytes_lt x y || ((x == y) && (N_of_ascii c <? N_of_ascii d)%N).
Proof.
  revert y; induction x as [|p x IH]; intros [|q y] Hl; try discriminate Hl; simpl.
  - case_bool_decide as E; [subst; by rewrite N.ltb_irrefl | done].
  - case_bool_decide as E.
    + subst q. rewrite IH by (simpl in Hl; lia). f_equal. f_equal.
      apply bool_decide_ext. split; [congruence | by intros [= ->]].
    + rewrite (bool_decide_eq_false_2 (String p x = String q y)) by congruence.
      simpl. by rewrite orb_false_r.
Qed.

(** Big-endian bytes sort as numbers. *)
Lemma be_bytes_lt n a b :
  bytes_lt (be_bytes n a) (be_bytes n b) = (a mod 256 ^ N.of_nat n <? b mod 256 ^ N.of_nat n)%N.
Proof.
  revert a b; induction n as [|n IH]; intros a b; cbn [be_bytes].
  { simpl. by rewrite !N.mod_1_r. }
  rewrite bytes_lt_snoc, IH by (by rewrite !length_be_bytes).
  rewrite !N_ascii_embedding by (apply N.mod_lt; lia).
  rewrite Nat2N.inj_succ, N.pow_succ_r', !N.Div0.mod_mul_r.
  case_bool_decide as E.
  - apply (f_equal (be_value 0)) in E. rewrite !be_value_be_bytes in E. rewrite E, N.ltb_irrefl. simpl.
    apply eq_true_iff_eq. rewrite !N.ltb_lt. by rewrite <- N.add_lt_mono_r.
  - assert ((a / 256) mod 256 ^ N.of_nat n <> (b / 256) mod 256 ^ N.of_nat n)%N by (by intros ?%be_bytes_inj).
    rewrite andb_false_l, orb_false_r. apply eq_true_iff_eq. rewrite !N.ltb_lt.
    symmetry. apply digits_lt; [by apply N.mod_lt..|done].
Qed.

Lemma be64_lt a b : uint64 a -> uint64 b -> bytes_lt (be64 a) (be64 b) = (a <? b)%N.
Proof. intros Ha Hb. unfold be64. rewrite be_bytes_lt. by rewrite !N.mod_small. Qed.

End bytes.

(** Right-nested concatenations with literals spelled out. *)
Ltac str_norm := repeat (rewrite app_cons_l || rewrite app_nil_l || rewrite <- app_assoc_s); rewrite ?app_nil_r_s.

Section keys.

Implicit Types (s : string) (k : Key).

Lemma nul_free_app p rest : has_byte nul p = false -> Cut (p +:+ String nul rest) nul = Some (p, rest).
Proof. intros Hp. apply Cut_Some. split; done. Qed.

Lemma cut_names_Join names rest :
  Forall (fun p => has_byte nul p = false) names ->
  cut_names (length names) (match names with [] => rest | _ => Join names nul +:+ String nul rest end)
  = Some (names, rest).
Proof.
  induction names as [|p names IH]; intros Hf; [done|].
  inversion_clear Hf as [|?? Hp Hf']. cbn [length cut_names]. destruct names as [|q names].
  - cbn [Join]. by rewrite nul_free_app.
  - rewrite Join_cons by done. rewrite <- app_assoc_s, app_cons_l, nul_free_app by done.
    specialize (IH Hf'). cbv iota in IH. by rewrite IH.
Qed.

Lemma cut_names_last names last :
  Forall (fun p => has_byte nul p = false) names ->
  cut_names (length names) (Join (names ++ [last]) nul) = Some (names, last).
Proof.
  induction names as [|p names IH]; intros Hf; [done|].
  inversion_clear Hf as [|?? Hp Hf']. rewrite <- app_comm_cons, Join_cons by (by destruct names).
  simpl. by rewrite nul_free_app, IH.
Qed.

Lemma schema_arity tag n b : schema tag = Some (n, b) -> 0 < n.
Proof. unfold schema. intros H. repeat (case_match; simplify_eq; try lia). Qed.

Lemma encode_cons tag name names sfx :
  encode (mkKey (tag :: name :: names) sfx)
  = tag +:+ String nul (encode (mkKey (name :: names) sfx)).
Proof. unfold encode. cbn [parts suffix]. by rewrite Join_cons, <- app_assoc_s, app_cons_l. Qed.

Lemma decode_encode k : wf_key k -> decode (encode k) = Some k.
Proof.
  destruct k as [[|tag names] sfx]; [done|]. unfold wf_key; cbn [parts suffix].
  intros (Hs & Hf & Hoff). pose proof (schema_arity _ _ _ Hs) as Hn.
  inversion_clear Hf as [|?? Ht Hnames]. destruct names as [|name names]; [simpl in Hn; lia|].
  unfold decode. rewrite encode_cons, nul_free_app, Hs by done. unfold encode; cbn [parts suffix].
  destruct sfx as [off|]; rewrite ?(bool_decide_eq_true_2 _ (mk_is_Some _ _ eq_refl)).
  - pose proof (cut_names_Join (name :: names) (be64 off) Hnames) as E. cbn [length] in E |- *.
    rewrite E. by rewrite be64_value.
  - rewrite bool_decide_eq_false_2 by (by intros []). rewrite app_nil_r_s. cbn [length].
    destruct (exists_last (l := name :: names)) as (ps & last & E); [done|].
    rewrite E in Hnames |- *. apply Forall_app in Hnames as [Hps _].
    assert (S (length names) - 1 = length ps) as ->.
    { apply (f_equal length) in E. rewrite length_app in E. simpl in E. lia. }
    by rewrite cut_names_last.
Qed.

(** Only a key of its own family starts like a stream, journal, mark or cursor
    key. *)
Lemma decode_offset tag name w :
  schema tag = Some (1, true) -> has_byte nul tag = false -> has_byte nul name = false ->
  decode (tag +:+ String nul (name +:+ String nul w)) = Some (mkKey [tag; name] (Some (be_value 0 w))).
Proof. intros Hs Ht Hn. unfold decode. rewrite nul_free_app, Hs by done. simpl. by rewrite nul_free_app. Qed.

Lemma wf_key_of_prefix k tag n b w :
  wf_key k -> schema tag = Some (n, b) -> has_byte nul tag = false ->
  encode k = tag +:+ String nul w -> exists names, parts k = tag :: names /\ length names = n.
Proof.
  destruct k as [[|t names] sfx]; [done|]. unfold wf_key; cbn [parts suffix].
  intros (Hs & Hf & _) Hs' Ht E. pose proof (schema_arity _ _ _ Hs) as Hn.
  destruct names as [|name names]; [simpl in Hn; lia|].
  inversion_clear Hf as [|?? Ht' _]. rewrite encode_cons in E.
  apply (f_equal (fun x => Cut x nul)) in E. rewrite !nul_free_app in E by done. simplify_eq.
  eexists; split; [done|]. congruence.
Qed.

(** A key that continues [tag NUL name NUL] has [name] as its first name. *)
Lemma wf_key_of_prefix2 k tag b name w :
  wf_key k -> schema tag = Some (2, b) -> has_byte nul tag = false -> has_byte nul name = false ->
  encode k = tag +:+ String nul (name +:+ String nul w) ->
  exists last, parts k = [tag; name; last].
Proof.
  intros Hk Hs Ht Hn E.
  destruct (wf_key_of_prefix k tag 2 b _ Hk Hs Ht E) as (names & Hp & Hl).
  destruct k as [ps sfx]. cbn [parts] in Hp; subst ps.
  destruct names as [|p [|q [|]]]; try discriminate Hl.
  destruct Hk as (_ & Hf & _). rewrite !encode_cons in E.
  inversion_clear Hf as [|?? _ Hf']. inversion_clear Hf' as [|?? Hp _].
  apply (f_equal (fun x => Cut x nul)) in E. rewrite !nul_free_app in E by done. injection E as E.
  apply (f_equal (fun x => Cut x nul)) in E. rewrite !nul_free_app in E by done. injection E as -> _.
  by exists q.
Qed.

End keys.

(** A stream is stored in offset order: between the keys of offsets [a] and [b]
    lie exactly the keys of the offsets from [a] up to [b]. *)
Lemma stream_range_exact stream a b k :
  has_byte nul stream = false -> uint64 a -> uint64 b -> wf_key k ->
  in_range (encode (streamKey stream a), encode (streamKey stream b)) (encode k) = true
  <-> exists off, k = streamKey stream off /\ (a <= off < b)%N /\ offsetOf (encode k) = Some off.
Proof.
  intros Hs Ha Hb Hk.
  assert (E : forall off, encode (streamKey stream off) = ("s" +:+ String nul (stream +:+ String nul "")) +:+ be64 off).
  { intros off. unfold streamKey. rewrite encode_cons. unfold encode; cbn [parts suffix Join].
    by str_norm. }
  rewrite !E, in_range_prefix. split.
  - intros (w & Hw & Hr).
    assert (k = streamKey stream (be_value 0 w)) as Hkw.
    { apply (f_equal decode) in Hw. rewrite decode_encode in Hw by done.
      replace ((_ +:+ _) +:+ w) with ("s" +:+ String nul (stream +:+ String nul w)) in Hw
        by (by str_norm).
      rewrite decode_offset in Hw by done. by injection Hw. }
    remember (be_value 0 w) as off eqn:Heq. clear Heq. subst k. destruct Hk as (_ & _ & Hoff). simpl in Hoff.
    exists off. rewrite E in Hw |- *. apply (f_equal (fun x => CutPrefix x ("s" +:+ String nul (stream +:+ String nul "")))) in Hw.
    rewrite !(proj2 (CutPrefix_Some _ _ _) eq_refl) in Hw. injection Hw as <-.
    unfold in_range in Hr; cbn [fst snd] in Hr. rewrite !be64_lt in Hr by done. bool_simp.
    apply N.ltb_ge in H. apply N.ltb_lt in H0. split; [done|split; [lia|]]. by apply offsetOf_be64.
  - intros (off & -> & Hoff & _). exists (be64 off). rewrite E. split; [done|].
    unfold uint64 in *. unfold in_range; cbn [fst snd]. rewrite !be64_lt by (unfold uint64; lia).
    apply andb_true_iff. rewrite negb_true_iff, N.ltb_ge, N.ltb_lt. lia.
Qed.

Lemma family_ranges_exact name k :
  has_byte nul name = false -> wf_key k ->
  (in_range (encode (hwmKey name ""), hwmChildEnd name) (encode k) = true
     <-> exists stream, k = hwmKey name stream)
  /\ (in_range ackedBounds (encode k) = true <-> exists parent stream, k = ackedKey parent stream)
  /\ (in_range (journalBounds name) (encode k) = true <-> exists first, k = journalKey name first)
  /\ (in_range (scanBounds "c") (encode k) = true <-> exists cursor stream, k = cursorKey cursor stream).
Proof.
  intros Hn Hk. pose proof Hk as Hk'. unfold journalBounds, ackedBounds, scanBounds, hwmChildEnd.
  assert (none : forall tag n ps, schema tag = Some (n, false) -> parts k = tag :: ps -> suffix k = None).
  { intros tag n ps Hs Hp. unfold wf_key in Hk'. rewrite Hp in Hk'. destruct Hk' as (Hs' & _ & _).
    rewrite Hs in Hs'. destruct (suffix k) eqn:E; [|done].
    rewrite (bool_decide_eq_true_2 _ (mk_is_Some _ _ eq_refl)) in Hs'. congruence. }
  repeat split.
  - replace (encode (hwmKey name "")) with (("h" +:+ String nul name) +:+ String nul "")
      by (unfold encode, hwmKey; cbn [parts suffix Join]; by str_norm).
    rewrite app_assoc_s, in_range_nul. intros (w & Hw).
    rewrite <- app_assoc_s, app_cons_l in Hw.
    destruct (wf_key_of_prefix2 k "h" false name w Hk eq_refl eq_refl Hn Hw) as (last & Hp).
    pose proof (none "h" 2 _ eq_refl Hp). exists last. destruct k; simpl in *; by subst.
  - intros (stream & ->).
    replace (encode (hwmKey name "")) with (("h" +:+ String nul name) +:+ String nul "")
      by (unfold encode, hwmKey; cbn [parts suffix Join]; by str_norm).
    rewrite app_assoc_s, in_range_nul. exists stream. unfold encode, hwmKey; cbn [parts suffix Join]. by str_norm.
  - rewrite in_range_nul. intros (w & Hw).
    destruct (wf_key_of_prefix k "pa" 2 false w Hk eq_refl eq_refl Hw) as (names & Hp & Hl).
    destruct names as [|p [|q [|]]]; try discriminate Hl.
    pose proof (none "pa" 2 _ eq_refl Hp). exists p, q. destruct k; simpl in *; by subst.
  - intros (p & q & ->). rewrite in_range_nul. exists (p +:+ String nul q).
    unfold encode, ackedKey; cbn [parts suffix Join]. by str_norm.
  - rewrite !app_assoc_s, in_range_nul. intros (w & Hw). rewrite <- app_assoc_s, (app_cons_l nul) in Hw.
    apply (f_equal decode) in Hw. rewrite decode_encode, decode_offset in Hw by done.
    injection Hw as ->. by eexists.
  - intros (first & ->). rewrite !app_assoc_s, in_range_nul. exists (be64 first).
    unfold encode, journalKey; cbn [parts suffix Join]. by str_norm.
  - rewrite in_range_nul. intros (w & Hw).
    destruct (wf_key_of_prefix k "c" 2 false w Hk eq_refl eq_refl Hw) as (names & Hp & Hl).
    destruct names as [|p [|q [|]]]; try discriminate Hl.
    pose proof (none "c" 2 _ eq_refl Hp). exists p, q. destruct k; simpl in *; by subst.
  - intros (p & q & ->). rewrite in_range_nul. exists (p +:+ String nul q).
    unfold encode, cursorKey; cbn [parts suffix Join]. by str_norm.
Qed.

(** ** Theorems *)

(** Encoded keys are never confused: two well-formed keys of any families with
    the same bytes are the same key, so the typed key-value store of this
    development and the byte store of the code hold the same entries. *)
Theorem encode_injective k1 k2 :
  wf_key k1 -> wf_key k2 -> encode k1 = encode k2 -> k1 = k2.
Proof.
  intros H1 H2 E. apply (f_equal decode) in E. rewrite !decode_encode in E by done. congruence.
Qed.

Lemma encode_injective_witness :
  wf_key (cursorKey "t" "metrics") /\
  cursorKey "t" "metrics" = cursorKey "t" (String.append "met" "rics").
Proof.
  assert (W : wf_key (cursorKey "t" "metrics")) by (repeat split; repeat constructor).
  split; [exact W|].
  exact (encode_injective (cursorKey "t" "metrics") (cursorKey "t" (String.append "met" "rics"))
           W W eq_refl).
Defined.

Definition wf_range (r : KeyRange) : Prop :=
  match r with
  | StreamRange stream a b => has_byte nul stream = false /\ uint64 a /\ uint64 b
  | HwmRange name | JournalRange name => has_byte nul name = false
  | AckedRange | CursorRange => True
  end.

(** Each byte range the store deletes or walks holds exactly the keys it is
    meant for: a stream scan or prune the records of its stream from the first
    offset up to the last, in offset order; [AdoptChildStore] the marks of one
    child and not those of a child whose name continues it; [reincarnate] the
    marks parents confirmed; a journal read the journal of its stream; the
    cursor scan the cursors and not their [ct] timestamps. *)
Theorem key_range_exact r k :
  wf_range r -> wf_key k -> in_range (bounds r) (encode k) = in_keys r k.
Proof.
  intros Hr Hk. apply eq_true_iff_eq. destruct r as [stream a b|child| |stream|]; simpl in Hr; unfold bounds.
  - destruct Hr as (Hs & Ha & Hb). unfold streamBounds. rewrite (stream_range_exact stream a b k) by done.
    split.
    + intros (off & -> & Hoff & _). simpl. rewrite !bool_decide_eq_true_2 by done. simpl.
      apply andb_true_iff. rewrite N.leb_le, N.ltb_lt. done.
    + destruct k as [[|tag [|name []]] [off|]]; simpl; try done. intros H. bool_simp. subst.
      exists off. rewrite N.leb_le in *. rewrite N.ltb_lt in *. split; [done|split; [done|]].
      unfold encode. cbn [parts suffix]. rewrite (app_cons_r _ nul). apply offsetOf_be64. apply Hk.
  - rewrite (proj1 (family_ranges_exact child k Hr Hk)). split.
    + intros (stream & ->). simpl. by rewrite !bool_decide_eq_true_2.
    + destruct k as [[|tag [|name [|last []]]] []]; simpl; try done. intros H. bool_simp. subst. by exists last.
  - rewrite (proj1 (proj2 (family_ranges_exact "" k eq_refl Hk))). split.
    + intros (parent & stream & ->). done.
    + destruct k as [[|tag [|name [|last []]]] []]; simpl; try done. intros H. bool_simp. subst. by exists name, last.
  - rewrite (proj1 (proj2 (proj2 (family_ranges_exact stream k Hr Hk)))). split.
    + intros (first & ->). simpl. by rewrite !bool_decide_eq_true_2.
    + destruct k as [[|tag [|name []]] [off|]]; simpl; try done. intros H. bool_simp. subst. by exists off.
  - rewrite (proj2 (proj2 (proj2 (family_ranges_exact "" k eq_refl Hk)))). split.
    + intros (parent & stream & ->). done.
    + destruct k as [[|tag [|name [|last []]]] []]; simpl; try done. intros H. bool_simp. subst. by exists name, last.
Qed.

Lemma key_range_exact_witness :
  in_range (bounds (HwmRange "e1")) (encode (hwmKey "e12" "logs")) = false
  /\ in_range (bounds (StreamRange "logs" 2 300)) (encode (streamKey "logs" 256)) = true.
Proof.
  split.
  - apply (key_range_exact (HwmRange "e1") (hwmKey "e12" "logs")); [done | repeat split; repeat constructor].
  - apply (key_range_exact (StreamRange "logs" 2 300) (streamKey "logs" 256));
      [done | repeat split; repeat constructor].
Defined.
