(* ===== verification/StoreData.v ===== *)
(** * The store: data, batches and the record write

    [internal/store]: what a store keeps, on disk and in memory, Pebble's atomic
    batch, and [addRecord], the one place that writes a stream record with its
    index entries and its current-state entry.

    The database is a finite map from [Key] to typed values: a value is kept as
    the Go struct it encodes, so reading it back is reading the struct. What the
    code needs of the JSON encoding beyond that (the length of an encoded record,
    the two payload fields it looks at) is the class [Codec]. A write into a batch
    or its synced apply can fail; [Faults] says which ones do in a call. *)

From S2P Require Export Prelude Topics Keys.

Open Scope string_scope.
Open Scope go_scope.

(** ** Data *)

Definition streams : list string :=
  ["metrics"; "entities"; "commands"; "definitions"; "audit"; "alarms"; "annotations"; "logs"].

(** [Record] of [store.go], a record to append. *)
Record Rec := mkRec {
  r_SourceLocalOnly : bool;
  r_Topic : string;
  r_Payload : string;
  r_TS : Z;
  r_WrittenBy : string;
  r_OriginOffset : N;
  r_ActorID : string;
  r_ActorLabel : string;
  r_ActorKind : string;
  r_ActorGroups : list string;
  r_ActorClient : string;
  r_ActorEmail : string;
  r_ActorClasses : list string;
  r_ActorCredential : string;
  r_Door : string;
  r_KVPath : string;
  r_KVNode : string;
  r_Delete : bool;
}.

(** The stored encoding of a stream record. *)
Record recEnc := mkRecEnc {
  e_SourceLocalOnly : bool;
  e_Topic : string;
  e_Payload : string;
  e_TS : Z;
  e_WrittenBy : string;
  e_OriginOffset : N;
  e_ActorID : string;
  e_ActorLabel : string;
  e_ActorKind : string;
  e_ActorGroups : list string;
  e_ActorClient : string;
  e_ActorEmail : string;
  e_ActorClasses : list string;
  e_ActorCredential : string;
  e_Door : string;
  e_SignalID : string;
}.

(** The stored encoding of a current-state entry. *)
Record kvEnc := mkKVEnc {
  k_Topic : string;
  k_Payload : string;
  k_TS : Z;
  k_Offset : N;
  k_OriginOffset : N;
  k_WrittenBy : string;
  k_ActorID : string;
  k_ActorLabel : string;
  k_ActorKind : string;
}.

Record journalEnc := mkJournalEnc {
  j_To : N;
  j_FirstTS : Z;
  j_LastTS : Z;
  j_Coalesced : bool;
}.

Record IncarnationChange := mkIncarnationChange {
  ic_Previous : string;
  ic_Reason : string;
  ic_AtMS : N;
}.

#[export] Instance recEnc_eq_dec : EqDecision recEnc.
Proof. solve_decision. Defined.
#[export] Instance kvEnc_eq_dec : EqDecision kvEnc.
Proof. solve_decision. Defined.
#[export] Instance journalEnc_eq_dec : EqDecision journalEnc.
Proof. solve_decision. Defined.
#[export] Instance IncarnationChange_eq_dec : EqDecision IncarnationChange.
Proof. solve_decision. Defined.

(** A stored value, by what it encodes: a record, a current-state entry, an
    8-byte counter, the two counters of a refresh range, a journal entry, plain
    bytes, an incarnation change, or nothing. *)
Inductive Val :=
| VRec (e : recEnc)
| VKV (e : kvEnc)
| VU64 (n : N)
| VRange (from to : N)
| VJournal (e : journalEnc)
| VBytes (s : string)
| VChange (c : IncarnationChange)
| VEmpty.

#[export] Instance Val_eq_dec : EqDecision Val.
Proof. solve_decision. Defined.

Abbreviation DB := (gmap Key Val).

(** ** What the code reads of JSON *)

Class Codec := {
  (** The topic root in force ([uns.Root]). *)
  topic_root : string;
  (** The [signal_id] of a metric payload, [None] when it does not decode. *)
  json_signal_id : string -> option string;
  (** The [replication_policy] of a signal payload: [None] when the payload does
      not decode, [Some None] when it has none. *)
  json_policy : string -> option (option string);
  (** The encoded length of a record. *)
  rec_len : recEnc -> N;
}.

Inductive StoreErr :=
| EUnknownStream (stream : string)
| ERecordTooLarge (stream : string) (i : nat)
| EInvalidPolicy
| EDecode
| EBatch (k : Key)
| EApply
| ENoProjection
| EInvalidSkip
| EConcurrentPrune
| EConcurrentRemoval
| EBeyondNext
| EMaxScan
| ECancelled.

(** ** Batches *)

Inductive BatchOp :=
| BSet (k : Key) (v : Val)
| BDelete (k : Key)
| BDeleteRange (r : KeyRange).

Definition Batch : Type := list BatchOp.

Definition apply_op (db : DB) (op : BatchOp) : DB :=
  match op with
  | BSet k v => <[k := v]> db
  | BDelete k => delete k db
  | BDeleteRange r => filter (fun kv => in_keys r (fst kv) = false) db
  end.

Definition apply_batch (b : Batch) (db : DB) : DB := foldl apply_op db b.

Arguments apply_batch : simpl never.

(** The faults of one call: which batch writes fail (encoding the value or
    adding it), and whether the synced apply does. *)
Record Faults := mkFaults {
  write_fails : Key -> bool;
  apply_fails : bool;
}.

Definition no_faults : Faults := mkFaults (fun _ => false) false.

(** [b.Set] and [b.Delete]. *)
Definition bset (f : Faults) (k : Key) (v : Val) (b : Batch) : result StoreErr Batch :=
  if write_fails f k then Err (EBatch k) else Ok (b ++ [BSet k v])%list.
Definition bdelete (f : Faults) (k : Key) (b : Batch) : result StoreErr Batch :=
  if write_fails f k then Err (EBatch k) else Ok (b ++ [BDelete k])%list.

(** [db.Apply(b, pebble.Sync)]: all of the batch, or nothing of it. *)
Definition commit (f : Faults) (b : Batch) (db : DB) : result StoreErr DB :=
  if apply_fails f then Err EApply else Ok (apply_batch b db).

(** ** The store *)

Record cachedPolicy := mkCachedPolicy { cp_value : Val; cp_localOnly : bool }.

Record Store := mkStore {
  db : DB;
  next : gmap string N;
  lwm : gmap string N;
  bytes : gmap string N;
  holes : gmap string N;
  adopted : gmap string string;
  hwms : gmap (string * string) N;
  policies : gmap Key cachedPolicy;
  id : string;
  idMinted : bool;
  maxRecordBytes : N;
}.

Definition set_db (d : DB) (s : Store) : Store :=
  mkStore d (next s) (lwm s) (bytes s) (holes s) (adopted s) (hwms s) (policies s) (id s) (idMinted s) (maxRecordBytes s).
Definition set_next (n : gmap string N) (s : Store) : Store :=
  mkStore (db s) n (lwm s) (bytes s) (holes s) (adopted s) (hwms s) (policies s) (id s) (idMinted s) (maxRecordBytes s).
Definition set_lwm (l : gmap string N) (s : Store) : Store :=
  mkStore (db s) (next s) l (bytes s) (holes s) (adopted s) (hwms s) (policies s) (id s) (idMinted s) (maxRecordBytes s).
Definition set_bytes (b : gmap string N) (s : Store) : Store :=
  mkStore (db s) (next s) (lwm s) b (holes s) (adopted s) (hwms s) (policies s) (id s) (idMinted s) (maxRecordBytes s).
Definition set_holes (h : gmap string N) (s : Store) : Store :=
  mkStore (db s) (next s) (lwm s) (bytes s) h (adopted s) (hwms s) (policies s) (id s) (idMinted s) (maxRecordBytes s).
Definition set_adopted (a : gmap string string) (s : Store) : Store :=
  mkStore (db s) (next s) (lwm s) (bytes s) (holes s) a (hwms s) (policies s) (id s) (idMinted s) (maxRecordBytes s).
Definition set_hwms (h : gmap (string * string) N) (s : Store) : Store :=
  mkStore (db s) (next s) (lwm s) (bytes s) (holes s) (adopted s) h (policies s) (id s) (idMinted s) (maxRecordBytes s).
Definition set_policies (p : gmap Key cachedPolicy) (s : Store) : Store :=
  mkStore (db s) (next s) (lwm s) (bytes s) (holes s) (adopted s) (hwms s) p (id s) (idMinted s) (maxRecordBytes s).
Definition set_id (i : string) (minted : bool) (s : Store) : Store :=
  mkStore (db s) (next s) (lwm s) (bytes s) (holes s) (adopted s) (hwms s) (policies s) i minted (maxRecordBytes s).
Definition SetMaxRecordBytes (limit : N) (s : Store) : Store :=
  mkStore (db s) (next s) (lwm s) (bytes s) (holes s) (adopted s) (hwms s) (policies s) (id s) (idMinted s) limit.

(** Computes the fields of an updated store and nothing else. *)
Ltac store_simpl :=
  cbn [db next lwm bytes holes adopted hwms policies id idMinted maxRecordBytes
       set_db set_next set_lwm set_bytes set_holes set_adopted set_hwms set_policies set_id SetMaxRecordBytes].
Ltac store_simpl_in H :=
  cbn [db next lwm bytes holes adopted hwms policies id idMinted maxRecordBytes
       set_db set_next set_lwm set_bytes set_holes set_adopted set_hwms set_policies set_id SetMaxRecordBytes] in H.

(** A Go map of counters read at a key: absent is zero. *)
Definition at_ (m : gmap string N) (stream : string) : N := default 0%N (m !! stream).

Definition NextOffset (s : Store) (stream : string) : N := at_ (next s) stream.
Lemma at_insert_eq m stream n : at_ (<[stream := n]> m) stream = n.
Proof. unfold at_. by rewrite lookup_insert_eq. Qed.

Lemma at_insert_ne m stream stream' n : stream <> stream' -> at_ (<[stream := n]> m) stream' = at_ m stream'.
Proof. intros. unfold at_. by rewrite lookup_insert_ne. Qed.

Definition LWM (s : Store) (stream : string) : N := at_ (lwm s) stream.
Definition StreamBytes (s : Store) (stream : string) : N := at_ (bytes s) stream.

(** ** Reading single entries *)

(** [readU64]: the counter at [k], or [dflt] when the key is absent or holds
    something else. *)
Definition readU64 (d : DB) (k : Key) (dflt : N) : N :=
  match d !! k with Some (VU64 n) => n | _ => dflt end.

(** [readCounter]: the same, but anything else at the key is an error. *)
Definition readCounter (d : DB) (k : Key) (dflt : N) : result StoreErr N :=
  match d !! k with
  | None => Ok dflt
  | Some (VU64 n) => Ok n
  | Some _ => Err EDecode
  end.

(** [kvEntryLocked]. *)
Definition kvEntry (d : DB) (path node topic : string) : option kvEnc :=
  match d !! kvKey path node topic with Some (VKV e) => Some e | _ => None end.

Definition originOffset (origin local : N) : N := if (origin != 0%N) then origin else local.

(** [kvOffsets]: the local and the origin offset of a current-state entry. *)
Definition kvOffsets (d : DB) (path node topic : string) : option (N * N) :=
  match kvEntry d path node topic with
  | Some e => Some (k_Offset e, originOffset (k_OriginOffset e) (k_Offset e))
  | None => None
  end.

(** The stored record at an offset. *)
Definition record_at (d : DB) (stream : string) (off : N) : option recEnc :=
  match d !! streamKey stream off with Some (VRec e) => Some e | _ => None end.

(** ** Writing a record *)

(** [uns.MetricSignalID]. *)
Definition MetricSignalID `{Codec} (topic payload : string) : string :=
  match Parse topic with
  | Ok p => if negb (IsMetric (Contract p)) then "" else default "" (json_signal_id payload)
  | Err _ => ""
  end.

(** [uns.SignalSourceLocalOnly]. *)
Definition SignalSourceLocalOnly `{Codec} (signal : string) : result StoreErr bool :=
  match json_policy signal with
  | None => Err EDecode
  | Some None => Ok false
  | Some (Some policy) =>
      if policy == "replicate_to_parents" then Ok false
      else if policy == "source_local_only" then Ok true
      else Err EInvalidPolicy
  end.

Definition recordTarget (topic : string) : string := default "" (CommandTarget topic).

Definition actorWitness (rec : Rec) : string * list string :=
  if (r_ActorEmail rec == "") && (r_ActorClasses rec == []) || negb (KeepsActorWitness (r_Topic rec))
  then ("", []) else (r_ActorEmail rec, r_ActorClasses rec).

Definition setKV (f : Faults) (path node topic : string) (e : kvEnc) (b : Batch) : result StoreErr Batch :=
  let! b := bset f (kvKey path node topic) (VKV e) b in
  match kvIndexKey path node topic with
  | Some ik => bset f ik VEmpty b
  | None => Ok b
  end.

Definition deleteKV (f : Faults) (path node topic : string) (b : Batch) : result StoreErr Batch :=
  let! b := bdelete f (kvKey path node topic) b in
  match kvIndexKey path node topic with
  | Some ik => bdelete f ik b
  | None => Ok b
  end.

Section write.
Context `{Codec}.

(** The signal id [addRecord] keeps with a record: a metric's, or the reserved
    key of a [fetchLogs] ack. *)
Definition record_signal (rec : Rec) : string :=
  let signalID := MetricSignalID (r_Topic rec) (r_Payload rec) in
  match FetchLogsAck (r_Topic rec) with
  | Some _ => if signalID == "" then FetchLogsAckKey else signalID
  | None => signalID
  end.

(** The encoding of [rec] at offset [off]. *)
Definition encode_rec (off : N) (rec : Rec) : recEnc :=
  let '(email, classes) := actorWitness rec in
  let credential := if KeepsActorWitness (r_Topic rec) then r_ActorCredential rec else "" in
  mkRecEnc (r_SourceLocalOnly rec) (r_Topic rec) (r_Payload rec) (r_TS rec) (r_WrittenBy rec)
    (originOffset (r_OriginOffset rec) off) (r_ActorID rec) (r_ActorLabel rec) (r_ActorKind rec)
    (r_ActorGroups rec) (r_ActorClient rec) email classes credential (r_Door rec) (record_signal rec).

(** The current-state entry of [rec] written at offset [off]. *)
Definition encode_kv (off : N) (rec : Rec) : kvEnc :=
  mkKVEnc (r_Topic rec) (r_Payload rec) (r_TS rec) off (originOffset (r_OriginOffset rec) off)
    (r_WrittenBy rec) (r_ActorID rec) (r_ActorLabel rec) (r_ActorKind rec).

(** The byte cost of a stored record, [len(key) + len(value)]. *)
Definition rec_size (stream : string) (off : N) (e : recEnc) : N :=
  (N.of_nat (String.length (encode (streamKey stream off))) + rec_len e)%N.

Definition addRecord (f : Faults) (stream : string) (off : N) (rec : Rec) (b : Batch)
    : result StoreErr (Batch * N) :=
  let e := encode_rec off rec in
  let! b := bset f (streamKey stream off) (VRec e) b in
  let! b := if e_SignalID e != "" then bset f (sigKey stream (e_SignalID e) off) VEmpty b else Ok b in
  let target := recordTarget (r_Topic rec) in
  let! b := if target != "" then bset f (targetKey stream target off) VEmpty b else Ok b in
  let! b := if r_KVPath rec != "" then
              if r_Delete rec then deleteKV f (r_KVPath rec) (r_KVNode rec) (r_Topic rec) b
              else setKV f (r_KVPath rec) (r_KVNode rec) (r_Topic rec) (encode_kv off rec) b
            else Ok b in
  Ok (b, rec_size stream off e).

(** [setHead]: the new head with the mark that its records are indexed. *)
Definition setHead (f : Faults) (stream : string) (n : N) (b : Batch) : result StoreErr Batch :=
  let! b := bset f (metaKey stream) (VU64 n) b in
  bset f (indexedKey stream) (VU64 n) b.

End write.
