(* ===== verification/StoreScan.v ===== *)
(** * The store: ordered scans

    A Pebble iterator over a family of keys that end in an offset visits them in
    offset order. [scan] is that visit; [records] the records of a stream,
    [readJournal] its prune journal. A scan is determined by what it holds and
    that it is sorted ([sorted_unique]), so the effect of a batch on it is shown
    by looking at single keys. *)

From S2P Require Export StoreData.

Open Scope string_scope.
Open Scope list_scope.
Open Scope go_scope.

(** ** Definitions *)

Definition off_le {A} (x y : N * A) : Prop := (fst x <= fst y)%N.
Definition off_lt {A} (x y : N * A) : Prop := (fst x < fst y)%N.

#[export] Instance off_le_dec {A} : RelDecision (@off_le A).
Proof. intros x y. unfold off_le. apply _. Defined.
#[export] Instance off_le_total {A} : Total (@off_le A).
Proof. intros x y. unfold off_le. lia. Qed.
#[export] Instance off_le_trans {A} : Transitive (@off_le A).
Proof. intros x y z. unfold off_le. lia. Qed.
#[export] Instance off_lt_trans {A} : Transitive (@off_lt A).
Proof. intros x y z. unfold off_lt. lia. Qed.

(** The offset of a key of family [t] and stream [stream]. *)
Definition off_of (t stream : string) (k : Key) : option N :=
  match parts k, suffix k with
  | [t'; name], Some off => if (t' == t) && (name == stream) then Some off else None
  | _, _ => None
  end.

Definition scan_entry {A} (t stream : string) (get : N -> Val -> option A) (kv : Key * Val) : option (N * A) :=
  match off_of t stream (fst kv) with
  | Some off => match get off (snd kv) with Some a => Some (off, a) | None => None end
  | None => None
  end.

(** Every entry of a family, decoded by [get], in offset order. *)
Definition scan {A} (t stream : string) (get : N -> Val -> option A) (d : DB) : list (N * A) :=
  merge_sort off_le (omap (scan_entry t stream get) (map_to_list d)).

Definition as_record (off : N) (v : Val) : option recEnc := match v with VRec e => Some e | _ => None end.

(** The records of a stream with their offsets, in offset order. *)
Definition records (d : DB) (stream : string) : list (N * recEnc) := scan "s" stream as_record d.

(** The records of [scanStream] over [[from, upTo)]. *)
Definition scanStream (d : DB) (stream : string) (from upTo : N) : list (N * recEnc) :=
  filter (fun x => (from <= fst x < upTo)%N) (records d stream).

Definition sumN {A} (f : A -> N) (l : list A) : N := foldr (fun x acc => f x + acc)%N 0%N l.

(** The live bytes of a stream, the unit [b/{stream}] counts. *)
Definition live_bytes `{Codec} (d : DB) (stream : string) : N :=
  sumN (fun x => rec_size stream (fst x) (snd x)) (records d stream).

Record PruneSpan := mkPruneSpan {
  ps_From : N;
  ps_To : N;
  ps_FirstTS : Z;
  ps_LastTS : Z;
  ps_Coalesced : bool;
  ps_Shed : N;
}.

Definition as_span (first : N) (v : Val) : option PruneSpan :=
  match v with
  | VJournal e => Some (mkPruneSpan first (j_To e) (j_FirstTS e) (j_LastTS e) (j_Coalesced e) 0)
  | _ => None
  end.

(** [readJournal], oldest entry first. *)
Definition readJournal (d : DB) (stream : string) : list PruneSpan := snd <$> scan "j" stream as_span d.

(** ** Lemmas *)

Lemma off_of_Some t stream k off : off_of t stream k = Some off <-> k = mkKey [t; stream] (Some off).
Proof.
  unfold off_of. destruct k as [[|t' [|name []]] [o|]]; simpl; try (split; [done | discriminate]).
  destruct (decide (t' = t)) as [->|], (decide (name = stream)) as [->|];
    rewrite ?bool_decide_eq_true_2, ?bool_decide_eq_false_2 by done; simpl; naive_solver.
Qed.

Section scan.
Context {A : Type} (t stream : string) (get : N -> Val -> option A).

Lemma elem_of_scan d off a :
  (off, a) ∈ scan t stream get d <-> exists v, d !! mkKey [t; stream] (Some off) = Some v /\ get off v = Some a.
Proof.
  unfold scan. rewrite merge_sort_Permutation, list_elem_of_omap. split.
  - intros ([k v] & Hkv & E). apply elem_of_map_to_list in Hkv. unfold scan_entry in E; simpl in E.
    destruct (off_of t stream k) as [o|] eqn:Eo; [|done]. apply off_of_Some in Eo as ->.
    destruct (get o v) eqn:Eg; [|done]. injection E as -> ->. by exists v.
  - intros (v & Hv & Hg). exists (mkKey [t; stream] (Some off), v).
    split; [by apply elem_of_map_to_list|]. unfold scan_entry; simpl.
    rewrite (proj2 (off_of_Some t stream _ off)) by done. by rewrite Hg.
Qed.

Lemma scan_entries_NoDup (l : list (Key * Val)) :
  NoDup (fst <$> l) -> NoDup (fst <$> omap (scan_entry t stream get) l).
Proof.
  induction l as [|[k v] l IH]; intros Hnd; [constructor|].
  apply NoDup_cons in Hnd as [Hk Hnd]. rewrite omap_cons.
  destruct (scan_entry t stream get (k, v)) as [[off a]|] eqn:E; [|by apply IH].
  rewrite fmap_cons. apply NoDup_cons. split; [|by apply IH].
  intros Hin. apply list_elem_of_fmap in Hin as ([off' a'] & Hoff & Hin). simpl in Hoff; subst off'.
  apply list_elem_of_omap in Hin as ([k' v'] & Hin & E'). unfold scan_entry in E, E'; simpl in E, E'.
  destruct (off_of t stream k) as [o|] eqn:Eo; [|done]. destruct (off_of t stream k') as [o'|] eqn:Eo'; [|done].
  destruct (get o v), (get o' v'); simplify_eq. apply off_of_Some in Eo, Eo'. subst.
  apply Hk. by apply (list_elem_of_fmap_2 fst) in Hin.
Qed.

Lemma scan_sorted d : StronglySorted off_lt (scan t stream get d).
Proof.
  assert (Hnd : NoDup (fst <$> scan t stream get d)).
  { unfold scan. rewrite merge_sort_Permutation. apply scan_entries_NoDup, NoDup_fst_map_to_list. }
  assert (Hs : StronglySorted off_le (scan t stream get d)) by (apply StronglySorted_merge_sort; apply _).
  induction Hs as [|x l Hs IH Hx]; constructor; apply NoDup_cons in Hnd as [Hnx Hnd]; [by apply IH|].
  apply Forall_forall. intros y Hy. rewrite Forall_forall in Hx. specialize (Hx y Hy).
  unfold off_le in Hx. unfold off_lt. destruct (decide (fst x = fst y)) as [E|]; [|lia].
  destruct Hnx. rewrite E. by apply list_elem_of_fmap_2.
Qed.

End scan.

Lemma sorted_unique {A} (l1 l2 : list (N * A)) :
  StronglySorted off_lt l1 -> StronglySorted off_lt l2 -> (forall x, x ∈ l1 <-> x ∈ l2) -> l1 = l2.
Proof.
  assert (Hnd : forall l : list (N * A), StronglySorted off_lt l -> NoDup l).
  { induction 1 as [|x l Hs IH Hx]; constructor; [|done]. rewrite Forall_forall in Hx.
    intros Hin. specialize (Hx x Hin). unfold off_lt in Hx. lia. }
  assert (AntiSymm (=) (@off_lt A)) by (intros x y; unfold off_lt; lia).
  intros H1 H2 Heq. apply (StronglySorted_unique off_lt); [done..|]. apply NoDup_Permutation; auto.
Qed.

Lemma sorted_filter {A} (P : N * A -> Prop) `{forall x, Decision (P x)} (l : list (N * A)) :
  StronglySorted off_lt l -> StronglySorted off_lt (filter P l).
Proof.
  induction 1 as [|x l Hs IH Hx]; [constructor|]. rewrite filter_cons. case_decide; [|done].
  constructor; [done|]. rewrite Forall_forall in Hx |- *. intros y [_ Hy]%list_elem_of_filter. auto.
Qed.

Lemma sorted_snoc {A} (l : list (N * A)) x :
  StronglySorted off_lt l -> Forall (fun y => off_lt y x) l -> StronglySorted off_lt (l ++ [x]).
Proof.
  intros Hs Hf. apply StronglySorted_app. repeat split; [|done|repeat constructor].
  intros y z Hy Hz. apply list_elem_of_singleton in Hz as ->. rewrite Forall_forall in Hf. auto.
Qed.

Lemma sumN_app {A} (f : A -> N) l1 l2 : sumN f (l1 ++ l2) = (sumN f l1 + sumN f l2)%N.
Proof. induction l1 as [|x l1 IH]; simpl; [done|]. rewrite IH. lia. Qed.

Lemma sumN_filter {A} (f : A -> N) (P : A -> Prop) `{forall x, Decision (P x)} l :
  sumN f l = (sumN f (filter P l) + sumN f (filter (fun x => ~ P x) l))%N.
Proof.
  induction l as [|x l IH]; [done|]. rewrite !filter_cons. simpl. rewrite IH.
  case_decide; case_decide; simpl; try tauto; lia.
Qed.

(** ** The records of a stream *)

Lemma elem_of_records d stream off e : (off, e) ∈ records d stream <-> record_at d stream off = Some e.
Proof.
  unfold records. rewrite elem_of_scan. unfold record_at, streamKey, as_record. split.
  - intros (v & -> & Hv). done.
  - destruct (d !! _) as [v|]; [|done]. intros Hv. exists v. split; [done|]. destruct v; naive_solver.
Qed.

Lemma records_sorted d stream : StronglySorted off_lt (records d stream).
Proof. apply scan_sorted. Qed.

Lemma records_ext d d' stream :
  (forall off, record_at d' stream off = record_at d stream off) -> records d' stream = records d stream.
Proof.
  intros Heq. apply sorted_unique; [apply records_sorted..|]. intros [off e].
  by rewrite !elem_of_records, Heq.
Qed.

Lemma records_snoc d d' stream n e :
  (forall off x, record_at d stream off = Some x -> off < n)%N ->
  (forall off, record_at d' stream off = if decide (off = n) then Some e else record_at d stream off) ->
  records d' stream = records d stream ++ [(n, e)].
Proof.
  intros Hlt Heq. apply sorted_unique; [apply records_sorted| |].
  - apply sorted_snoc; [apply records_sorted|]. apply Forall_forall. intros [off x] Hx.
    apply elem_of_records in Hx. by apply Hlt in Hx.
  - intros [off x]. rewrite elem_of_app, list_elem_of_singleton, !elem_of_records, Heq.
    case_decide as E; [subst|naive_solver].
    split; [intros [= <-]; by right | intros [Hx|[= <-]]; [|done]].
    apply Hlt in Hx. lia.
Qed.

Lemma records_filter d d' stream (P : N -> Prop) `{forall off, Decision (P off)} :
  (forall off, record_at d' stream off = if decide (P off) then record_at d stream off else None) ->
  records d' stream = filter (fun x => P (fst x)) (records d stream).
Proof.
  intros Heq. apply sorted_unique; [apply records_sorted|apply sorted_filter, records_sorted|].
  intros [off x]. rewrite list_elem_of_filter, !elem_of_records, Heq. simpl. case_decide; naive_solver.
Qed.
