(* ===== verification/StoreSpec.v ===== *)
(** * The store: what an append means

    [put_record] is the specification of every append: one record at the head of
    its stream, with its index entries, its current-state entry, the new head and
    the new byte count. The operations of the store build larger batches in
    several ways; the lemmas of this file let each of them be shown equal to a
    sequence of [put_record]s. [StreamInv] is the well-formedness of a stream. *)

From S2P Require Export StoreData.

Open Scope string_scope.
Open Scope list_scope.
Open Scope go_scope.

(** ** Batches, one key at a time *)

Definition op_at (k : Key) (op : BatchOp) (o : option Val) : option Val :=
  match op with
  | BSet k' v => if decide (k' = k) then Some v else o
  | BDelete k' => if decide (k' = k) then None else o
  | BDeleteRange r => if in_keys r k then None else o
  end.

Definition batch_at (k : Key) (b : Batch) (o : option Val) : option Val := foldl (flip (op_at k)) o b.

Definition touches (op : BatchOp) (k : Key) : bool :=
  match op with BSet k' _ | BDelete k' => k' == k | BDeleteRange r => in_keys r k end.

Lemma lookup_apply_op d op k : apply_op d op !! k = op_at k op (d !! k).
Proof.
  destruct op as [k' v|k'|r]; simpl.
  - apply lookup_insert.
  - apply lookup_delete.
  - destruct (in_keys r k) eqn:E.
    + apply map_lookup_filter_None. right. intros v _. simpl. congruence.
    + destruct (d !! k) as [v|] eqn:Ed.
      * by apply map_lookup_filter_Some.
      * apply map_lookup_filter_None. by left.
Qed.

Lemma lookup_apply_batch b d k : apply_batch b d !! k = batch_at k b (d !! k).
Proof.
  unfold apply_batch, batch_at. revert d; induction b as [|op b IH]; intros d; simpl; [done|].
  by rewrite IH, lookup_apply_op.
Qed.

Lemma batch_at_app k b1 b2 o : batch_at k (b1 ++ b2) o = batch_at k b2 (batch_at k b1 o).
Proof. apply foldl_app. Qed.

Lemma apply_batch_app b1 b2 d : apply_batch (b1 ++ b2) d = apply_batch b2 (apply_batch b1 d).
Proof. apply foldl_app. Qed.

Lemma op_at_untouched k op o : touches op k = false -> op_at k op o = o.
Proof. destruct op; simpl; intros; repeat case_decide; try case_match; bool_simp; congruence. Qed.

Lemma batch_at_untouched k b o : Forall (fun op => touches op k = false) b -> batch_at k b o = o.
Proof.
  unfold batch_at. revert o; induction b as [|op b IH]; intros o Hf; simpl; [done|].
  inversion_clear Hf. rewrite op_at_untouched by done. by apply IH.
Qed.

(** What a family of keys is not written by: the record writes leave every key
    alone that is not a record, an index entry or current state. *)
Definition tag (k : Key) : string := match parts k with t :: _ => t | [] => "" end.

(** Decides the membership of a literal tag in a literal list. *)
Ltac tag_in := apply (bool_decide_unpack _); vm_compute; exact I.

Definition record_tags : list string := ["s"; "si"; "ti"; "k"; "x"].
Definition head_tags : list string := ["m"; "ix"; "b"].

(** ** The batch of one record *)

Section spec.
Context `{Codec}.

Definition kv_ops (off : N) (rec : Rec) : Batch :=
  if r_KVPath rec != "" then
    let key := kvKey (r_KVPath rec) (r_KVNode rec) (r_Topic rec) in
    let index := kvIndexKey (r_KVPath rec) (r_KVNode rec) (r_Topic rec) in
    if r_Delete rec then BDelete key :: match index with Some ik => [BDelete ik] | None => [] end
    else BSet key (VKV (encode_kv off rec)) :: match index with Some ik => [BSet ik VEmpty] | None => [] end
  else [].

Definition sig_ops (stream : string) (off : N) (rec : Rec) : Batch :=
  if record_signal rec != "" then [BSet (sigKey stream (record_signal rec) off) VEmpty] else [].

Definition target_ops (stream : string) (off : N) (rec : Rec) : Batch :=
  let target := recordTarget (r_Topic rec) in
  if target != "" then [BSet (targetKey stream target off) VEmpty] else [].

Definition record_ops (stream : string) (off : N) (rec : Rec) : Batch :=
  [BSet (streamKey stream off) (VRec (encode_rec off rec))]
  ++ sig_ops stream off rec ++ target_ops stream off rec ++ kv_ops off rec.

Arguments record_ops : simpl never.

Definition head_batch (stream : string) (n live : N) : Batch :=
  [BSet (metaKey stream) (VU64 n); BSet (indexedKey stream) (VU64 n); BSet (bytesKey stream) (VU64 live)].

Definition cost (stream : string) (off : N) (rec : Rec) : N := rec_size stream off (encode_rec off rec).

Lemma bset_Ok f k v b b' : bset f k v b = Ok b' -> b' = (b ++ [BSet k v])%list.
Proof. unfold bset. case_match; congruence. Qed.

Lemma bdelete_Ok f k b b' : bdelete f k b = Ok b' -> b' = (b ++ [BDelete k])%list.
Proof. unfold bdelete. case_match; congruence. Qed.

Lemma e_SignalID_encode off rec : e_SignalID (encode_rec off rec) = record_signal rec.
Proof. unfold encode_rec. by destruct (actorWitness rec). Qed.

Lemma e_Topic_encode off rec : e_Topic (encode_rec off rec) = r_Topic rec.
Proof. unfold encode_rec. by destruct (actorWitness rec). Qed.

Lemma e_Payload_encode off rec : e_Payload (encode_rec off rec) = r_Payload rec.
Proof. unfold encode_rec. by destruct (actorWitness rec). Qed.

Lemma e_TS_encode off rec : e_TS (encode_rec off rec) = r_TS rec.
Proof. unfold encode_rec. by destruct (actorWitness rec). Qed.

Lemma e_OriginOffset_encode off rec : e_OriginOffset (encode_rec off rec) = originOffset (r_OriginOffset rec) off.
Proof. unfold encode_rec. by destruct (actorWitness rec). Qed.

Lemma addRecord_Ok f stream off rec b b' n :
  addRecord f stream off rec b = Ok (b', n) ->
  b' = (b ++ record_ops stream off rec)%list /\ n = cost stream off rec.
Proof.
  unfold addRecord, record_ops, sig_ops, target_ops, kv_ops, setKV, deleteKV, cost.
  rewrite e_SignalID_encode. intros E.
  repeat (match type of E with
          | context [bset ?f ?k ?v ?b] =>
              let B := fresh in destruct (bset f k v b) as [?|?] eqn:B; [apply bset_Ok in B; subst|discriminate E]
          | context [bdelete ?f ?k ?b] =>
              let B := fresh in destruct (bdelete f k b) as [?|?] eqn:B; [apply bdelete_Ok in B; subst|discriminate E]
          | context [if ?c then _ else _] => destruct c
          | context [match kvIndexKey ?a ?b ?c with _ => _ end] => destruct (kvIndexKey a b c)
          end; cbn beta iota in E);
  injection E as <- <-; (split; [|done]); rewrite <- ?app_assoc; simpl; rewrite ?app_nil_r; done.
Qed.

Lemma addRecord_no_fault stream off rec b :
  addRecord no_faults stream off rec b = Ok ((b ++ record_ops stream off rec)%list, cost stream off rec).
Proof.
  destruct (addRecord no_faults stream off rec b) as [[b' n]|e] eqn:E.
  - by apply addRecord_Ok in E as [-> ->].
  - exfalso. revert E. unfold addRecord, setKV, deleteKV, bset, bdelete; simpl.
    repeat case_match; congruence.
Qed.

Lemma setHead_Ok f stream n b b' :
  setHead f stream n b = Ok b' -> b' = (b ++ [BSet (metaKey stream) (VU64 n); BSet (indexedKey stream) (VU64 n)])%list.
Proof.
  unfold setHead. destruct (bset f _ _ b) as [b1|] eqn:E1; [|done]. intros E2.
  apply bset_Ok in E1, E2. subst. by rewrite <- app_assoc.
Qed.

(** ** The specification *)

Definition put_record (stream : string) (s : Store) (rec : Rec) : Store :=
  let off := at_ (next s) stream in
  let live := (at_ (bytes s) stream + cost stream off rec)%N in
  set_bytes (<[stream := live]> (bytes s))
    (set_next (<[stream := off + 1]> (next s))%N
       (set_db (apply_batch (record_ops stream off rec ++ head_batch stream (off + 1) live) (db s)) s)).

Definition put_records (stream : string) (recs : list Rec) (s : Store) : Store :=
  foldl (put_record stream) s recs.

Fixpoint records_ops (stream : string) (off : N) (recs : list Rec) : Batch :=
  match recs with
  | [] => []
  | rec :: recs => (record_ops stream off rec ++ records_ops stream (off + 1) recs)%list
  end.

Fixpoint costs (stream : string) (off : N) (recs : list Rec) : N :=
  match recs with
  | [] => 0
  | rec :: recs => (cost stream off rec + costs stream (off + 1) recs)%N
  end.

Lemma touches_tag op k : touches op k = true ->
  match op with BSet k' _ | BDelete k' => tag k = tag k' | BDeleteRange _ => True end.
Proof. destruct op; simpl; intros; bool_simp; by subst. Qed.

Lemma kvIndexKey_tag path node topic ik : kvIndexKey path node topic = Some ik -> tag ik = "x".
Proof. unfold kvIndexKey. case_match; [|done]. by intros [= <-]. Qed.

Lemma untouched_set k k' v : tag k <> tag k' -> touches (BSet k' v) k = false.
Proof. intros Hne. simpl. apply bool_decide_eq_false_2; by intros ->. Qed.

Lemma untouched_record k stream off v :
  tag k <> "s" -> Forall (fun op => touches op k = false) [BSet (streamKey stream off) v].
Proof. intros Hne. constructor; [by apply untouched_set | constructor]. Qed.

Lemma kv_ops_untouched off rec k :
  tag k <> "k" -> tag k <> "x" -> Forall (fun op => touches op k = false) (kv_ops off rec).
Proof.
  intros Hk Hx. unfold kv_ops. cbv zeta. destruct (_ != ""); [|constructor].
  destruct (r_Delete rec), (kvIndexKey _ _ _) as [ik|] eqn:E; rewrite ?Forall_cons, Forall_nil;
    repeat split; simpl; apply bool_decide_eq_false_2; intros <-; try done;
    apply kvIndexKey_tag in E; done.
Qed.

Lemma sig_ops_untouched stream off rec k :
  tag k <> "si" -> Forall (fun op => touches op k = false) (sig_ops stream off rec).
Proof. intros Hk. unfold sig_ops. case_match; constructor; [by apply untouched_set | constructor]. Qed.

Lemma target_ops_untouched stream off rec k :
  tag k <> "ti" -> Forall (fun op => touches op k = false) (target_ops stream off rec).
Proof.
  intros Hk. unfold target_ops. cbv zeta. case_match; constructor; [by apply untouched_set | constructor].
Qed.

Lemma record_ops_untouched stream off rec k :
  tag k ∉ record_tags -> Forall (fun op => touches op k = false) (record_ops stream off rec).
Proof.
  unfold record_tags. rewrite !not_elem_of_cons. intros (H1 & H2 & H3 & H4 & H5 & _).
  unfold record_ops. rewrite !Forall_app. repeat split.
  - by apply untouched_record.
  - by apply sig_ops_untouched.
  - by apply target_ops_untouched.
  - by apply kv_ops_untouched.
Qed.

Lemma records_ops_untouched stream off recs k :
  tag k ∉ record_tags -> Forall (fun op => touches op k = false) (records_ops stream off recs).
Proof.
  intros Hk. revert off; induction recs as [|rec recs IH]; intros off; cbn [records_ops]; [constructor|].
  apply Forall_app. split; [by apply record_ops_untouched | apply IH].
Qed.

Lemma head_batch_untouched stream n live k :
  tag k ∉ head_tags -> Forall (fun op => touches op k = false) (head_batch stream n live).
Proof.
  intros Hk. repeat constructor; simpl; apply bool_decide_eq_false_2; intros <-; apply Hk; set_solver.
Qed.

(** What a record's batch leaves at each kind of key. *)
Lemma record_ops_stream stream off rec st o v :
  batch_at (streamKey st o) (record_ops stream off rec) v
  = if decide (st = stream /\ o = off) then Some (VRec (encode_rec off rec)) else v.
Proof.
  unfold record_ops. rewrite !batch_at_app.
  rewrite (batch_at_untouched _ (kv_ops off rec)) by (by apply kv_ops_untouched).
  rewrite (batch_at_untouched _ (target_ops stream off rec)) by (by apply target_ops_untouched).
  rewrite (batch_at_untouched _ (sig_ops stream off rec)) by (by apply sig_ops_untouched).
  unfold batch_at; simpl. unfold streamKey. repeat case_decide; naive_solver.
Qed.

Lemma record_ops_sig stream off rec st sid o v :
  batch_at (sigKey st sid o) (record_ops stream off rec) v
  = if decide (st = stream /\ o = off /\ sid = record_signal rec /\ sid <> "") then Some VEmpty else v.
Proof.
  unfold record_ops. rewrite !batch_at_app.
  rewrite (batch_at_untouched _ (kv_ops off rec)) by (by apply kv_ops_untouched).
  rewrite (batch_at_untouched _ (target_ops stream off rec)) by (by apply target_ops_untouched).
  rewrite (batch_at_untouched _ [_]) by (by apply untouched_record).
  unfold sig_ops, batch_at, sigKey. repeat (case_bool_decide || case_decide); simpl;
    repeat case_decide; naive_solver.
Qed.

Lemma record_ops_target stream off rec st t o v :
  batch_at (targetKey st t o) (record_ops stream off rec) v
  = if decide (st = stream /\ o = off /\ t = recordTarget (r_Topic rec) /\ t <> "") then Some VEmpty else v.
Proof.
  unfold record_ops. rewrite !batch_at_app.
  rewrite (batch_at_untouched _ (kv_ops off rec)) by (by apply kv_ops_untouched).
  rewrite (batch_at_untouched _ (sig_ops stream off rec)) by (by apply sig_ops_untouched).
  rewrite (batch_at_untouched _ [_]) by (by apply untouched_record).
  unfold target_ops, batch_at, targetKey. repeat (case_bool_decide || case_decide); simpl;
    repeat case_decide; naive_solver.
Qed.

Lemma record_ops_kv stream off rec path node topic v :
  batch_at (kvKey path node topic) (record_ops stream off rec) v
  = if decide (r_KVPath rec <> "" /\ path = r_KVPath rec /\ node = r_KVNode rec /\ topic = r_Topic rec)
    then if r_Delete rec then None else Some (VKV (encode_kv off rec)) else v.
Proof.
  unfold record_ops. rewrite !batch_at_app.
  rewrite (batch_at_untouched _ (target_ops stream off rec)) by (by apply target_ops_untouched).
  rewrite (batch_at_untouched _ (sig_ops stream off rec)) by (by apply sig_ops_untouched).
  rewrite (batch_at_untouched _ [_]) by (by apply untouched_record).
  unfold kv_ops. case_bool_decide as HP; simpl; [by rewrite decide_False by naive_solver|].
  assert (forall ik, kvIndexKey (r_KVPath rec) (r_KVNode rec) (r_Topic rec) = Some ik ->
                     kvKey path node topic <> ik) as Hik.
  { intros ik E Hik. apply kvIndexKey_tag in E. by rewrite <- Hik in E. }
  unfold kvKey in *. destruct (r_Delete rec), (kvIndexKey _ _ _) as [ik|] eqn:E;
    unfold batch_at; simpl; repeat case_decide; naive_solver.
Qed.

Lemma kvIndexKey_inj path node topic path' node' topic' ik :
  kvIndexKey path node topic = Some ik -> kvIndexKey path' node' topic' = Some ik ->
  path = path' /\ node = node' /\ topic = topic'.
Proof. unfold kvIndexKey. repeat case_match; naive_solver. Qed.

Lemma record_ops_index stream off rec path node topic ik v :
  kvIndexKey path node topic = Some ik ->
  batch_at ik (record_ops stream off rec) v
  = if decide (r_KVPath rec <> "" /\ path = r_KVPath rec /\ node = r_KVNode rec /\ topic = r_Topic rec)
    then if r_Delete rec then None else Some VEmpty else v.
Proof.
  intros Hik. pose proof (kvIndexKey_tag _ _ _ _ Hik) as Htag.
  unfold record_ops. rewrite !batch_at_app.
  rewrite (batch_at_untouched _ (target_ops stream off rec)) by (apply target_ops_untouched; by rewrite Htag).
  rewrite (batch_at_untouched _ (sig_ops stream off rec)) by (apply sig_ops_untouched; by rewrite Htag).
  rewrite (batch_at_untouched _ [_]) by (apply untouched_record; by rewrite Htag).
  unfold kv_ops. case_bool_decide as HP; simpl; [by rewrite decide_False by naive_solver|].
  assert (Hk : kvKey (r_KVPath rec) (r_KVNode rec) (r_Topic rec) <> ik) by (intros <-; done).
  destruct (kvIndexKey (r_KVPath rec) (r_KVNode rec) (r_Topic rec)) as [ik'|] eqn:E.
  - destruct (decide (ik' = ik)) as [->|Hne].
    + destruct (kvIndexKey_inj _ _ _ _ _ _ _ Hik E) as (-> & -> & ->). rewrite decide_True by done.
      destruct (r_Delete rec); unfold batch_at; simpl; repeat case_decide; done.
    + rewrite decide_False by naive_solver.
      destruct (r_Delete rec); unfold batch_at; simpl; repeat case_decide; done.
  - rewrite decide_False by naive_solver.
    destruct (r_Delete rec); unfold batch_at; simpl; repeat case_decide; done.
Qed.

(** Later heads replace earlier ones. *)
Lemma head_batch_absorb stream n live n' live' ops d :
  (forall k, tag k ∈ head_tags -> Forall (fun op => touches op k = false) ops) ->
  apply_batch (ops ++ head_batch stream n' live') (apply_batch (head_batch stream n live) d)
  = apply_batch (ops ++ head_batch stream n' live') d.
Proof.
  intros Hops. apply map_eq. intros k. rewrite !lookup_apply_batch, !batch_at_app.
  destruct (decide (tag k ∈ head_tags)) as [Hk|Hk].
  - rewrite (batch_at_untouched k ops) by auto. rewrite (batch_at_untouched k ops (d !! k)) by auto.
    unfold batch_at, head_batch; simpl. by repeat case_decide.
  - by rewrite (batch_at_untouched k (head_batch stream n live)) by (by apply head_batch_untouched).
Qed.

Lemma head_tags_not_record k : tag k ∈ head_tags -> tag k ∉ record_tags.
Proof.
  unfold head_tags, record_tags. rewrite !elem_of_cons, elem_of_nil.
  intros Hk Hr. destruct Hk as [E|[E|[E|[]]]]; rewrite E in Hr; naive_solver.
Qed.

(** A sequence of puts is one batch. *)
Lemma put_records_eq stream rec recs s :
  put_records stream (rec :: recs) s
  = let off := at_ (next s) stream in
    let n := (off + N.of_nat (length (rec :: recs)))%N in
    let live := (at_ (bytes s) stream + costs stream off (rec :: recs))%N in
    set_bytes (<[stream := live]> (bytes s))
      (set_next (<[stream := n]> (next s))
         (set_db (apply_batch (records_ops stream off (rec :: recs) ++ head_batch stream n live) (db s)) s)).
Proof.
  revert rec s; induction recs as [|rec' recs IH]; intros rec s.
  { unfold put_records; cbn [foldl records_ops costs length]. unfold put_record.
    by rewrite app_nil_r, N.add_0_r. }
  change (put_records stream (rec :: rec' :: recs) s)
    with (put_records stream (rec' :: recs) (put_record stream s rec)).
  rewrite IH. clear IH. unfold put_record. store_simpl. rewrite !at_insert_eq, !insert_insert_eq.
  set (off := at_ (next s) stream). cbv zeta.
  replace (off + 1 + N.of_nat (length (rec' :: recs)))%N
    with (off + N.of_nat (length (rec :: rec' :: recs)))%N by (simpl length; lia).
  rewrite <- (N.add_assoc (at_ (bytes s) stream)).
  change (records_ops stream off (rec :: rec' :: recs))
    with (record_ops stream off rec ++ records_ops stream (off + 1) (rec' :: recs)).
  rewrite (apply_batch_app (record_ops stream off rec)), head_batch_absorb.
  - by rewrite <- apply_batch_app, <- app_assoc.
  - intros k Hk. by apply records_ops_untouched, head_tags_not_record.
Qed.

End spec.
