(* ===== verification/StoreInv.v ===== *)
(** * The store: its invariant

    [Inv] says what holds of a store between operations: the records of a
    stream lie between its low-water mark and its head; a stream accounts for its bytes exactly and is indexed
    completely; the counters on disk are those in memory, so a restart resumes;
    every current-state entry is the projection of the record it names; the
    prune journal partitions what was pruned; the caches agree with the disk. *)

From S2P Require Export StoreSpec StoreScan.

Open Scope string_scope.
Open Scope list_scope.
Open Scope go_scope.

Section inv.
Context `{Codec}.

(** ** Definitions *)

Record StreamInv (d : DB) (stream : string) (lo hi live : N) : Prop := {
  si_range : forall off v, d !! streamKey stream off = Some v -> (lo <= off < hi)%N /\ exists e, v = VRec e;
  si_bytes : live = live_bytes d stream;
  si_sig : forall sid off, is_Some (d !! sigKey stream sid off)
             <-> sid <> "" /\ exists e, record_at d stream off = Some e /\ e_SignalID e = sid;
  si_target : forall off e, record_at d stream off = Some e -> recordTarget (e_Topic e) <> "" ->
                is_Some (d !! targetKey stream (recordTarget (e_Topic e)) off);
}.

(** The counters of a stream: what memory holds is what a restart reads. *)
Record CounterInv (s : Store) (stream : string) : Prop := {
  ci_bounds : (1 <= LWM s stream <= NextOffset s stream)%N;
  ci_next : readCounter (db s) (metaKey stream) 1 = Ok (NextOffset s stream);
  ci_indexed : readCounter (db s) (indexedKey stream) 1 = Ok (NextOffset s stream);
  ci_lwm : readCounter (db s) (lwmKey stream) 1 = Ok (LWM s stream);
  ci_bytes : readCounter (db s) (bytesKey stream) 0 = Ok (StreamBytes s stream);
}.

(** A current-state entry carries the value of the record at its offset, for as
    long as the stream keeps that record. *)
Definition kv_ok (d : DB) (heads : gmap string N) (topic : string) (e : kvEnc) : Prop :=
  k_Topic e = topic /\ k_OriginOffset e <> 0%N /\
  exists stream, stream ∈ streams /\ (k_Offset e < at_ heads stream)%N /\
    forall r, record_at d stream (k_Offset e) = Some r ->
      e_Topic r = topic /\ e_Payload r = k_Payload e /\ e_TS r = k_TS e /\ e_OriginOffset r = k_OriginOffset e.

Record KVInv (d : DB) (heads : gmap string N) : Prop := {
  kv_entries : forall path node topic v, d !! kvKey path node topic = Some v ->
                 exists e, v = VKV e /\ kv_ok d heads topic e;
  kv_index : forall path node topic ik, kvIndexKey path node topic = Some ik ->
               (is_Some (d !! ik) <-> is_Some (d !! kvKey path node topic));
}.

(** The journal's spans continue each other from [lo] up to [hi]. *)
Fixpoint chained (lo hi : N) (spans : list PruneSpan) : Prop :=
  match spans with
  | [] => lo = hi
  | sp :: spans => ps_From sp = lo /\ (lo <= ps_To sp)%N /\ chained (ps_To sp + 1) hi spans
  end.

Definition journalCap : nat := 64.

Record JournalInv (d : DB) (stream : string) (mark : N) : Prop := {
  ji_typed : forall first v, d !! journalKey stream first = Some v -> exists e, v = VJournal e;
  ji_chained : chained 1 mark (readJournal d stream);
  ji_cap : length (readJournal d stream) <= journalCap;
}.

(** The caches: a mark held in memory is the one on disk, so is the incarnation
    adopted from a child, and a cached policy is what its value says. *)
Record CacheInv (s : Store) : Prop := {
  ca_hwms : forall child stream n, hwms s !! (child, stream) = Some n -> readU64 (db s) (hwmKey child stream) 0 = n;
  ca_adopted : forall child i, adopted s !! child = Some i -> db s !! childStoreKey child = Some (VBytes i);
  ca_policies : forall k c, policies s !! k = Some c ->
                  exists e, cp_value c = VKV e /\ SignalSourceLocalOnly (k_Payload e) = Ok (cp_localOnly c);
  ca_id : db s !! storeIDKey = Some (VBytes (id s));
}.

Record Inv (s : Store) : Prop := {
  inv_stream : forall stream, stream ∈ streams ->
                 StreamInv (db s) stream (LWM s stream) (NextOffset s stream) (StreamBytes s stream);
  inv_counter : forall stream, stream ∈ streams -> CounterInv s stream;
  inv_unknown : forall stream, stream ∉ streams -> NextOffset s stream = 0%N;
  inv_dom : forall stream, stream ∈ streams -> is_Some (bytes s !! stream);
  inv_kv : KVInv (db s) (next s);
  inv_journal : forall stream, stream ∈ streams -> JournalInv (db s) stream (LWM s stream);
  inv_refresh : forall stream v, stream ∈ streams -> db s !! rpKey stream = Some v ->
                  exists a b, v = VRange a b /\ (a < b)%N;
  inv_cache : CacheInv s;
}.

(** ** Frames: what an operation that leaves some families alone preserves *)

Definition same_tags (T : list string) (d d' : DB) : Prop := forall k, tag k ∈ T -> d' !! k = d !! k.

Lemma same_tags_incl T T' d d' : Forall (fun t => t ∈ T') T -> same_tags T' d d' -> same_tags T d d'.
Proof. intros Hi Hd k Hk. apply Hd. rewrite Forall_forall in Hi. auto. Qed.

Lemma record_at_frame d d' : same_tags ["s"] d d' -> forall stream off, record_at d' stream off = record_at d stream off.
Proof. intros Hd stream off. unfold record_at. by rewrite Hd by tag_in. Qed.

Lemma StreamInv_frame d d' stream lo hi live :
  same_tags ["s"; "si"; "ti"] d d' -> StreamInv d stream lo hi live -> StreamInv d' stream lo hi live.
Proof.
  intros Hd [H1 H2 H3 H4].
  assert (Hr : forall off, record_at d' stream off = record_at d stream off).
  { intros off. apply record_at_frame. eapply same_tags_incl; [|exact Hd]; tag_in. }
  split.
  - intros off v. rewrite Hd by tag_in. apply H1.
  - unfold live_bytes in *. by rewrite (records_ext d d').
  - intros sid off. rewrite Hd by tag_in. setoid_rewrite Hr. apply H3.
  - intros off e. rewrite Hr, Hd by tag_in. apply H4.
Qed.

Lemma readCounter_frame d d' k n : d' !! k = d !! k -> readCounter d' k n = readCounter d k n.
Proof. unfold readCounter. by intros ->. Qed.

Lemma KVInv_frame d d' heads :
  same_tags ["s"; "k"; "x"] d d' -> KVInv d heads -> KVInv d' heads.
Proof.
  intros Hd [H1 H2].
  assert (Hr : forall stream off, record_at d' stream off = record_at d stream off).
  { apply record_at_frame. eapply same_tags_incl; [|exact Hd]; tag_in. }
  split.
  - intros path node topic v. rewrite Hd by tag_in. intros Hv.
    destruct (H1 _ _ _ _ Hv) as (e & -> & He). exists e. split; [done|].
    unfold kv_ok in *. by setoid_rewrite Hr.
  - intros path node topic ik Hik. rewrite !Hd; [by apply H2|tag_in|].
    apply kvIndexKey_tag in Hik. rewrite Hik. tag_in.
Qed.

Lemma journal_frame d d' stream : same_tags ["j"] d d' -> readJournal d' stream = readJournal d stream.
Proof.
  intros Hd. unfold readJournal. f_equal. apply sorted_unique; [apply scan_sorted..|].
  intros [off a]. rewrite !elem_of_scan. by rewrite Hd by tag_in.
Qed.

Lemma JournalInv_frame d d' stream mark :
  same_tags ["j"] d d' -> JournalInv d stream mark -> JournalInv d' stream mark.
Proof.
  intros Hd [H1 H2 H3]. rewrite <- (journal_frame d d') in H2, H3 by done. split; [|done..].
  intros first v. rewrite Hd by tag_in. apply H1.
Qed.

Definition inv_tags : list string := ["s"; "si"; "ti"; "k"; "x"; "m"; "ix"; "l"; "b"; "j"; "h"; "u"; "rp"].

(** An operation on families [Inv] does not speak of preserves it; so does one
    that changes the store's id on disk and in memory. *)
Lemma Inv_frame_id s s' :
  same_tags inv_tags (db s) (db s') ->
  next s' = next s -> lwm s' = lwm s -> bytes s' = bytes s -> hwms s' = hwms s ->
  adopted s' = adopted s -> policies s' = policies s -> db s' !! storeIDKey = Some (VBytes (id s')) -> Inv s -> Inv s'.
Proof.
  intros Hd Hn Hl Hb Hh Ha Hp Hi [I1 I2 I3 I3' I4 I5 I5' I6].
  assert (forall k, tag k ∈ inv_tags -> db s' !! k = db s !! k) as Hk by done.
  unfold NextOffset, LWM, StreamBytes in *. split; unfold NextOffset, LWM, StreamBytes; rewrite ?Hn, ?Hl, ?Hb.
  - intros stream Hs. apply (StreamInv_frame (db s)); [|by auto]. eapply same_tags_incl; [|done]. tag_in.
  - intros stream Hs. destruct (I2 stream Hs).
    split; unfold NextOffset, LWM, StreamBytes; rewrite ?Hn, ?Hl, ?Hb; [done|..];
      (erewrite readCounter_frame; [done|]); apply Hk; tag_in.
  - done.
  - done.
  - apply (KVInv_frame (db s)); [|done]. eapply same_tags_incl; [|done]. tag_in.
  - intros stream Hs. apply (JournalInv_frame (db s)); [|by auto]. eapply same_tags_incl; [|done]. tag_in.
  - intros stream v Hs. rewrite Hk by tag_in. by apply I5'.
  - destruct I6 as [C1 C2 C3 C4]. split; rewrite ?Hh, ?Ha, ?Hp; [..|done|done].
    + intros child stream n E. unfold readU64. rewrite Hk by tag_in. by apply C1.
    + intros child i E. rewrite Hk by tag_in. by apply C2.
Qed.

Lemma Inv_frame s s' :
  same_tags ("i" :: inv_tags) (db s) (db s') ->
  next s' = next s -> lwm s' = lwm s -> bytes s' = bytes s -> hwms s' = hwms s ->
  adopted s' = adopted s -> policies s' = policies s -> id s' = id s -> Inv s -> Inv s'.
Proof.
  intros Hd Hn Hl Hb Hh Ha Hp Hi HI. apply (Inv_frame_id s); [|done..| |done].
  - eapply same_tags_incl; [|done]. tag_in.
  - rewrite Hi, Hd by tag_in. apply (ca_id _ (inv_cache s HI)).
Qed.

Lemma originOffset_pos origin local : local <> 0%N -> originOffset origin local <> 0%N.
Proof. unfold originOffset. case_bool_decide; done. Qed.

(** ** One append *)

Section put.
Variables (stream : string) (s : Store) (rec : Rec).
Let off := NextOffset s stream.
Let s' := put_record stream s rec.
Hypothesis Hs : stream ∈ streams.
Hypothesis HI : Inv s.

Lemma lookup_put k : tag k ∉ head_tags -> db s' !! k = batch_at k (record_ops stream off rec) (db s !! k).
Proof.
  intros Hk. unfold s', put_record. store_simpl. rewrite lookup_apply_batch, batch_at_app.
  by rewrite (batch_at_untouched k (head_batch _ _ _)) by (by apply head_batch_untouched).
Qed.

Lemma lookup_put_other k : tag k ∉ head_tags -> tag k ∉ record_tags -> db s' !! k = db s !! k.
Proof. intros Hk Hr. rewrite lookup_put by done. apply batch_at_untouched. by apply record_ops_untouched. Qed.

Lemma record_at_put st o :
  record_at (db s') st o = if decide (st = stream /\ o = off) then Some (encode_rec off rec) else record_at (db s) st o.
Proof.
  unfold record_at. rewrite lookup_put by tag_in. rewrite record_ops_stream. by case_decide.
Qed.

Lemma put_head st : tag (metaKey st) = "m" /\
  db s' !! metaKey st = (if decide (st = stream) then Some (VU64 (off + 1)) else db s !! metaKey st) /\
  db s' !! indexedKey st = (if decide (st = stream) then Some (VU64 (off + 1)) else db s !! indexedKey st) /\
  db s' !! bytesKey st = (if decide (st = stream) then Some (VU64 (StreamBytes s' stream)) else db s !! bytesKey st).
Proof.
  split; [done|]. unfold s', put_record, StreamBytes. store_simpl. rewrite at_insert_eq.
  rewrite !lookup_apply_batch, !batch_at_app, !(batch_at_untouched _ (record_ops _ _ _)) by (apply record_ops_untouched; tag_in).
  unfold batch_at, head_batch; simpl. unfold metaKey, indexedKey, bytesKey.
  repeat split; repeat case_decide; naive_solver.
Qed.

Lemma put_next st : NextOffset s' st = if decide (st = stream) then (off + 1)%N else NextOffset s st.
Proof.
  unfold s', put_record, NextOffset. store_simpl. case_decide; [subst; apply at_insert_eq|by apply at_insert_ne].
Qed.

Lemma put_live st :
  StreamBytes s' st = if decide (st = stream) then (StreamBytes s stream + cost stream off rec)%N else StreamBytes s st.
Proof.
  unfold s', put_record, StreamBytes. store_simpl. case_decide; [subst; apply at_insert_eq|by apply at_insert_ne].
Qed.

Lemma put_lwm st : LWM s' st = LWM s st.
Proof. done. Qed.

Lemma put_fresh o e : record_at (db s) stream o = Some e -> (o < off)%N.
Proof.
  intros E. unfold record_at in E. destruct (db s !! streamKey stream o) as [v|] eqn:Ev; [|done].
  by apply (si_range _ _ _ _ _ (inv_stream s HI stream Hs)) in Ev as [[_ ?] _].
Qed.

Lemma put_stream_inv st : st ∈ streams ->
  StreamInv (db s') st (LWM s' st) (NextOffset s' st) (StreamBytes s' st).
Proof.
  intros Hst. destruct (inv_stream s HI st Hst) as [H1 H2 H3 H4].
  pose proof (ci_bounds _ _ (inv_counter s HI stream Hs)) as Hb. fold off in Hb.
  rewrite put_lwm, put_next, put_live. split.
  - intros o v. rewrite lookup_put, record_ops_stream by tag_in.
    case_decide as E.
    + destruct E as [-> ->]. rewrite decide_True by done. intros [= <-]. split; [lia | by eexists].
    + intros Hv. apply H1 in Hv as [? ?]. split; [|done]. case_decide; [subst|lia]. fold off in H0. lia.
  - case_decide as E; [subst st|].
    + unfold live_bytes. rewrite (records_snoc (db s) (db s') stream off (encode_rec off rec)).
      * rewrite sumN_app, H2. simpl. unfold cost, live_bytes. lia.
      * apply put_fresh.
      * intros o. rewrite record_at_put. repeat case_decide; naive_solver.
    + rewrite H2. unfold live_bytes. by rewrite (records_ext (db s) (db s')) by
        (intros o; rewrite record_at_put, decide_False by naive_solver; done).
  - intros sid o. rewrite lookup_put, record_ops_sig, record_at_put by tag_in. case_decide as E.
    + destruct E as (-> & -> & -> & Hne). rewrite decide_True by done. split; [intros _|by eexists].
      split; [done|]. eexists. split; [done|]. by rewrite e_SignalID_encode.
    + rewrite H3. case_decide as E'; [destruct E' as [-> ->]|done].
      split.
      * intros (_ & e & He & _). apply put_fresh in He. lia.
      * intros (Hne & e & [= <-] & He). rewrite e_SignalID_encode in He. naive_solver.
  - intros o e. rewrite record_at_put, lookup_put, record_ops_target by tag_in. case_decide as E.
    + destruct E as [-> ->]. intros [= <-]. rewrite e_TS_encode || rewrite e_Topic_encode. intros Hne.
      rewrite decide_True by done. by eexists.
    + intros He Hne. rewrite decide_False by naive_solver. by apply H4.
Qed.

Lemma put_counter_inv st : st ∈ streams -> CounterInv s' st.
Proof.
  intros Hst. destruct (inv_counter s HI st Hst) as [C1 C2 C3 C4 C5].
  destruct (put_head st) as (_ & E1 & E2 & E3).
  split; rewrite ?put_lwm, ?put_next; unfold readCounter.
  - case_decide; subst; unfold off; lia.
  - rewrite E1. by case_decide.
  - rewrite E2. by case_decide.
  - rewrite lookup_put_other by tag_in. done.
  - rewrite E3. case_decide; [by subst|]. rewrite put_live. by rewrite decide_False.
Qed.

Lemma put_kv_inv : KVInv (db s') (next s').
Proof.
  destruct (inv_kv s HI) as [K1 K2].
  assert (Hnext : forall st, (at_ (next s) st <= at_ (next s') st)%N).
  { intros st. change (NextOffset s st <= NextOffset s' st)%N. rewrite put_next. case_decide; subst; unfold off; lia. }
  split.
  - intros path node topic v. rewrite lookup_put, record_ops_kv by tag_in.
    case_decide as E.
    + destruct E as (Hp & -> & -> & ->). destruct (r_Delete rec); [done|]. intros [= <-].
      eexists. split; [done|]. split; [done|]. split.
      { cbn [k_OriginOffset encode_kv]. apply originOffset_pos.
        pose proof (ci_bounds _ _ (inv_counter s HI stream Hs)). unfold off. lia. }
      exists stream. split; [done|].
      split; [change (off < NextOffset s' stream)%N; rewrite put_next, decide_True by done; lia|].
      intros r. rewrite record_at_put. cbn [k_Offset encode_kv]. rewrite decide_True by done. intros [= <-].
      by rewrite e_Topic_encode, e_Payload_encode, e_TS_encode, e_OriginOffset_encode.
    + intros Hv. destruct (K1 _ _ _ _ Hv) as (e & -> & Ht & Ho & st & Hst & Hoff & Hr).
      exists e. split; [done|]. split; [done|]. split; [done|]. exists st. split; [done|].
      split; [specialize (Hnext st); lia|].
      intros r. rewrite record_at_put. case_decide as E'; [|apply Hr].
      destruct E' as [-> E']. change (at_ (next s) stream) with off in Hoff. lia.
  - intros path node topic ik Hik.
    pose proof (kvIndexKey_tag _ _ _ _ Hik) as Htag.
    rewrite !lookup_put by (rewrite ?Htag; tag_in). rewrite record_ops_kv.
    rewrite (record_ops_index stream off rec path node topic ik) by done.
    case_decide; [|by apply K2]. destruct (r_Delete rec); [|by split; eexists].
    split; intros []; done.
Qed.

Lemma put_record_inv : Inv s'.
Proof.
  split.
  - apply put_stream_inv.
  - apply put_counter_inv.
  - intros st Hst. rewrite put_next, decide_False by (intros ->; done). by apply (inv_unknown s HI).
  - intros st Hst. unfold s', put_record. store_simpl. rewrite lookup_insert. case_decide; [by eexists|].
    by apply (inv_dom s HI).
  - apply put_kv_inv.
  - intros st Hst. rewrite put_lwm. apply (JournalInv_frame (db s)); [|by apply (inv_journal s HI)].
    intros k Hk. apply list_elem_of_singleton in Hk. apply lookup_put_other; rewrite Hk; tag_in.
  - intros st v Hst. rewrite lookup_put_other by tag_in. by apply (inv_refresh s HI).
  - destruct (inv_cache s HI) as [C1 C2 C3 C4]. split; [..|done|].
    + intros child st n E. unfold readU64. rewrite lookup_put_other by tag_in. by apply C1.
    + intros child i E. rewrite lookup_put_other by tag_in. by apply C2.
    + by rewrite lookup_put_other by tag_in.
Qed.

End put.

Lemma put_records_inv stream recs s : stream ∈ streams -> Inv s -> Inv (put_records stream recs s).
Proof.
  intros Hs. revert s. induction recs as [|rec recs IH]; intros s HI; [done|].
  apply (IH (put_record stream s rec)). by apply put_record_inv.
Qed.

End inv.
