(* ===== verification/StoreOpen.v ===== *)
(** * The store: opening it

    [OpenWithOptions] restores every stream's head, low-water mark and byte
    count and refuses a store it cannot trust; [loadOrMintStoreID] gives a store
    its incarnation. The rebuild of the indexes of a store an older version wrote
    ([openIndexes]) is not modelled: a store this version wrote needs none. *)

From S2P Require Export StoreInv.

Open Scope string_scope.
Open Scope list_scope.
Open Scope go_scope.

Section open.
Context `{Codec}.

(** [validateRefreshPending]. *)
Definition validateRefreshPending (d : DB) (stream : string) : result StoreErr unit :=
  match d !! rpKey stream with
  | None => Ok ()
  | Some (VRange from to) => if (to <=? from)%N then Err EDecode else Ok ()
  | Some _ => Err EDecode
  end.

(** [readJournal] refuses an entry that does not decode. *)
Definition journal_decodes (d : DB) (stream : string) : bool :=
  forallb (fun kv => match off_of "j" stream (fst kv), snd kv with
                     | Some _, VJournal _ => true
                     | Some _, _ => false
                     | None, _ => true
                     end) (map_to_list d).

(** The counters of one stream, restored. *)
Definition open_stream (d : DB) (stream : string) (s : Store) : result StoreErr Store :=
  let! nx := readCounter d (metaKey stream) 1 in
  let! lo := readCounter d (lwmKey stream) 1 in
  let! live := readCounter d (bytesKey stream) 0 in
  if negb (journal_decodes d stream) then Err EDecode
  else let! _ := validateRefreshPending d stream in
  Ok (set_bytes (<[stream := live]> (bytes s))
        (set_lwm (<[stream := lo]> (lwm s)) (set_next (<[stream := nx]> (next s)) s))).

Fixpoint open_streams (d : DB) (l : list string) (s : Store) : result StoreErr Store :=
  match l with
  | [] => Ok s
  | stream :: l => let! s := open_stream d stream s in open_streams d l s
  end.

(** [loadOrMintStoreID]: the id, whether it was minted, and the database with it;
    [mint] is the random id. *)
Definition loadOrMintStoreID (f : Faults) (mint : string) (d : DB) : result StoreErr (DB * string * bool) :=
  match d !! storeIDKey with
  | Some (VBytes i) => Ok (d, i, false)
  | Some _ => Err EDecode
  | None => if apply_fails f then Err EApply else Ok (<[storeIDKey := VBytes mint]> d, mint, true)
  end.

(** [OpenWithOptions] of the database at hand. *)
Definition Open (f : Faults) (mint : string) (d : DB) : result StoreErr Store :=
  let! s := open_streams d streams (mkStore d ∅ ∅ ∅ ∅ ∅ ∅ ∅ "" false 0) in
  let! (d, i, minted) := loadOrMintStoreID f mint d in
  Ok (set_id i minted (set_db d s)).

(** ** Lemmas *)

Lemma open_stream_ok s0 stream s :
  Inv s0 -> stream ∈ streams ->
  open_stream (db s0) stream s
  = Ok (set_bytes (<[stream := StreamBytes s0 stream]> (bytes s))
          (set_lwm (<[stream := LWM s0 stream]> (lwm s)) (set_next (<[stream := NextOffset s0 stream]> (next s)) s))).
Proof.
  intros HI Hs. destruct (inv_counter s0 HI stream Hs) as [_ C2 _ C4 C5].
  unfold open_stream. rewrite C2, C4, C5.
  assert (journal_decodes (db s0) stream = true) as ->.
  { unfold journal_decodes. apply forallb_forall. intros [k v] Hkv. simpl.
    apply list_elem_of_In, elem_of_map_to_list in Hkv.
    destruct (off_of "j" stream k) as [first|] eqn:E; [|done]. apply off_of_Some in E as ->.
    by destruct (ji_typed _ _ _ (inv_journal s0 HI stream Hs) first v Hkv) as [e ->]. }
  cbn [negb]. assert (validateRefreshPending (db s0) stream = Ok ()) as ->; [|done].
  unfold validateRefreshPending. destruct (db s0 !! rpKey stream) as [v|] eqn:E; [|done].
  destruct (inv_refresh s0 HI stream v Hs E) as (a & b & -> & Hab).
  by destruct (N.leb_spec b a); [lia|].
Qed.

(** What the restored counters are, stream by stream. *)
Lemma open_streams_ok s0 l s :
  Inv s0 -> Forall (fun st => st ∈ streams) l -> NoDup l ->
  exists s', open_streams (db s0) l s = Ok s'
    /\ (forall st, NextOffset s' st = if decide (st ∈ l) then NextOffset s0 st else NextOffset s st)
    /\ (forall st, LWM s' st = if decide (st ∈ l) then LWM s0 st else LWM s st)
    /\ (forall st, StreamBytes s' st = if decide (st ∈ l) then StreamBytes s0 st else StreamBytes s st)
    /\ (forall st, st ∈ l -> is_Some (bytes s' !! st)) /\ (forall st, is_Some (bytes s !! st) -> is_Some (bytes s' !! st))
    /\ db s' = db s /\ hwms s' = hwms s /\ adopted s' = adopted s /\ policies s' = policies s.
Proof.
  intros HI. revert s; induction l as [|stream l IH]; intros s Hl Hnd; cbn [open_streams].
  { exists s. repeat split; try done. intros st Hst. by apply not_elem_of_nil in Hst. }
  apply Forall_cons in Hl as [Hs Hl]. apply NoDup_cons in Hnd as [Hn Hnd].
  rewrite open_stream_ok by done. cbv beta iota.
  match goal with |- context [open_streams _ _ ?s1] => destruct (IH s1 Hl Hnd) as (s' & -> & E1 & E2 & E3 & D1 & D2 & E4) end.
  exists s'. split; [done|]. split; [|split; [|split; [|split; [|split; [|exact E4]]]]].
  - intros st. rewrite E1. unfold NextOffset at 2; store_simpl.
    rewrite (decide_ext _ _ _ _ (elem_of_cons l st stream)). destruct (decide (st = stream)) as [->|Hne].
    + rewrite decide_False, decide_True by auto. apply at_insert_eq.
    + rewrite at_insert_ne by done. repeat case_decide; naive_solver.
  - intros st. rewrite E2. unfold LWM at 2; store_simpl.
    rewrite (decide_ext _ _ _ _ (elem_of_cons l st stream)). destruct (decide (st = stream)) as [->|Hne].
    + rewrite decide_False, decide_True by auto. apply at_insert_eq.
    + rewrite at_insert_ne by done. repeat case_decide; naive_solver.
  - intros st. rewrite E3. unfold StreamBytes at 2; store_simpl.
    rewrite (decide_ext _ _ _ _ (elem_of_cons l st stream)). destruct (decide (st = stream)) as [->|Hne].
    + rewrite decide_False, decide_True by auto. apply at_insert_eq.
    + rewrite at_insert_ne by done. repeat case_decide; naive_solver.
  - intros st [->|Hst]%elem_of_cons; [|by apply D1]. apply D2. store_simpl. rewrite lookup_insert_eq. by eexists.
  - intros st Hst. apply D2. store_simpl. rewrite lookup_insert. case_decide; [by eexists|done].
Qed.

(** The store a first start creates. *)
Definition fresh (mint : string) : Store :=
  match Open no_faults mint ∅ with Ok s => s | Err _ => mkStore ∅ ∅ ∅ ∅ ∅ ∅ ∅ ∅ "" false 0 end.

(** Decides a statement about each of the eight streams. *)
Lemma forall_streams (P : string -> Prop) : Forall P streams -> forall stream, stream ∈ streams -> P stream.
Proof. intros Hf stream Hs. rewrite Forall_forall in Hf. auto. Qed.

Lemma fresh_lookup mint k : db (fresh mint) !! k = if decide (k = storeIDKey) then Some (VBytes mint) else None.
Proof.
  assert (db (fresh mint) = <[storeIDKey := VBytes mint]> (∅ : gmap Key Val)) as -> by reflexivity.
  rewrite lookup_insert. repeat case_decide; congruence || apply lookup_empty.
Qed.

Lemma fresh_inv mint : Inv (fresh mint).
Proof.
  assert (Hno : forall k, tag k <> "i" -> db (fresh mint) !! k = None).
  { intros k Hk. rewrite fresh_lookup. rewrite decide_False; [done|]. by intros ->. }
  assert (Hrec : forall stream off, record_at (db (fresh mint)) stream off = None).
  { intros stream off. unfold record_at. by rewrite Hno. }
  assert (Hrecs : forall stream, records (db (fresh mint)) stream = []).
  { intros stream. destruct (records _ _) as [|[off e] l] eqn:E; [done|].
    assert ((off, e) ∈ records (db (fresh mint)) stream) as Hin by (rewrite E; by left).
    apply elem_of_records in Hin. by rewrite Hrec in Hin. }
  split.
  - intros stream Hs. split.
    + intros off v. by rewrite Hno.
    + unfold live_bytes. rewrite Hrecs. simpl. revert stream Hs. apply forall_streams. by repeat constructor.
    + intros sid off. rewrite Hno by done. rewrite Hrec. split; [by intros []|naive_solver].
    + intros off e. by rewrite Hrec.
  - apply forall_streams. repeat (apply Forall_cons; split; [split; [done|..]; unfold readCounter; by rewrite Hno|]). constructor.
  - intros stream Hs. unfold NextOffset, at_. change (next (fresh mint)) with (next (fresh "")).
    assert (next (fresh "") = list_to_map ((fun st => (st, 1%N)) <$> reverse streams)) as -> by reflexivity.
    rewrite not_elem_of_list_to_map_1; [done|]. rewrite <- list_fmap_compose. intros Hin.
    apply list_elem_of_fmap in Hin as (st & -> & Hin). simpl in Hs. by rewrite elem_of_reverse in Hin.
  - apply forall_streams. repeat (apply Forall_cons; split; [by eexists|]). constructor.
  - split.
    + intros path node topic v. by rewrite Hno.
    + intros path node topic ik Hik. apply kvIndexKey_tag in Hik. rewrite !Hno by (rewrite ?Hik; done). done.
  - intros stream Hs. assert (readJournal (db (fresh mint)) stream = []) as HJ.
    { unfold readJournal. destruct (scan _ _ _ _) as [|[off a] l] eqn:E; [done|].
      assert ((off, a) ∈ scan "j" stream as_span (db (fresh mint))) as Hin by (rewrite E; by left).
      apply elem_of_scan in Hin as (v & Hv & _). by rewrite Hno in Hv. }
    split; rewrite ?HJ; [intros first v; by rewrite Hno| |simpl; lia].
    simpl. clear HJ. revert stream Hs. apply forall_streams. by repeat constructor.
  - intros stream v Hs. by rewrite Hno.
  - split.
    + intros child stream n. done.
    + done.
    + done.
    + rewrite fresh_lookup. done.
Qed.

(** ** Reopening *)

(** Reopening the database of any store that satisfies the invariant succeeds and
    changes nothing on disk. *)
Lemma Open_ok f mint s :
  Inv s ->
  exists s', Open f mint (db s) = Ok s' /\ db s' = db s /\ id s' = id s /\ idMinted s' = false /\ Inv s'
    /\ forall stream, stream ∈ streams ->
         NextOffset s' stream = NextOffset s stream /\ LWM s' stream = LWM s stream
         /\ StreamBytes s' stream = StreamBytes s stream.
Proof.
  intros HI. unfold Open.
  destruct (open_streams_ok s streams (mkStore (db s) ∅ ∅ ∅ ∅ ∅ ∅ ∅ "" false 0) HI)
    as (s1 & -> & E1 & E2 & E3 & Dom & _ & E4 & E5 & E6 & E7).
  { apply Forall_forall. done. }
  { apply (bool_decide_unpack _). by vm_compute. }
  unfold loadOrMintStoreID. rewrite (ca_id s (inv_cache s HI)).
  eexists. split; [done|]. split; [done|]. split; [done|]. split; [done|].
  assert (Hk : forall stream, stream ∈ streams ->
    NextOffset s1 stream = NextOffset s stream /\ LWM s1 stream = LWM s stream /\ StreamBytes s1 stream = StreamBytes s stream).
  { intros stream Hs. by rewrite E1, E2, E3, !decide_True. }
  split; [|exact Hk]. destruct HI as [I1 I2 I3 I3' I4 I5 I6 [C1 C2 C3 C4]].
  split; store_simpl.
  - intros stream Hs. destruct (Hk stream Hs) as (A & B & C).
    change (StreamInv (db s) stream (LWM s1 stream) (NextOffset s1 stream) (StreamBytes s1 stream)).
    rewrite A, B, C. by apply I1.
  - intros stream Hs. destruct (Hk stream Hs) as (A & B & C). destruct (I2 stream Hs) as [D1 D2 D3 D4 D5].
    split; [change (1 <= LWM s1 stream <= NextOffset s1 stream)%N|..]; store_simpl;
      [by rewrite A, B|rewrite D2|rewrite D3|rewrite D4|rewrite D5]; f_equal; done.
  - intros stream Hs. change (NextOffset s1 stream = 0%N). by rewrite E1, decide_False.
  - exact Dom.
  - destruct I4 as [K1 K2]. split; [|done]. intros path node topic v Hv.
    destruct (K1 _ _ _ _ Hv) as (e & -> & Ht & Ho & st & Hst & Hoff & Hr). exists e. split; [done|]. split; [done|]. split; [done|].
    exists st. split; [done|]. split; [|done]. change (k_Offset e < NextOffset s1 st)%N.
    destruct (Hk st Hst) as (A & _). rewrite A. done.
  - intros stream Hs. change (JournalInv (db s) stream (LWM s1 stream)).
    destruct (Hk stream Hs) as (_ & B & _). rewrite B. by apply I5.
  - done.
  - split; store_simpl; [by rewrite E5|by rewrite E6|by rewrite E7|done].
Qed.

End open.

(** ** A small instance

    The decoders of a toy payload format, for the examples: a metric's payload is
    its signal id, a signal's its policy. *)

Definition demo_codec : Codec := {|
  topic_root := "colca";
  json_signal_id := fun payload => Some payload;
  json_policy := fun payload => if payload == "" then Some None else Some (Some payload);
  rec_len := fun e => N.of_nat (String.length (e_Topic e) + String.length (e_Payload e));
|}.

Definition demo_rec (topic payload path node : string) (del : bool) : Rec :=
  mkRec false topic payload 7 "w" 0 "" "" "" [] "" "" [] "" "" path node del.

Definition demo_store : Store := fresh "store-1".

Lemma demo_store_inv : @Inv demo_codec demo_store.
Proof. apply fresh_inv. Qed.
