(* ===== verification/StoreAppend.v ===== *)
(** * The store: appends

    [Append] and its group commit ([appendgroup.go]), [AppendAdvancing],
    [AppendIfKVUnchanged] ([store.go]) and [MoveRetained] ([move.go]). Every
    operation runs under the write lock, so it is one step from a store to the
    next; it returns the new store with its result. *)

From S2P Require Export StoreInv.

Open Scope string_scope.
Open Scope list_scope.
Open Scope go_scope.

Section append.
Context `{Codec}.

(** ** The replication policy of a metric ([replication_policy.go]) *)

Definition policyCacheMax : nat := 2 ^ 16.

Definition metricSourceLocalOnly (rec : Rec) (s : Store) : Store * result StoreErr bool :=
  match MetricSignalKey topic_root (r_Topic rec) with
  | None => (s, Ok false)
  | Some (path, node, signalTopic) =>
      let key := kvKey path node signalTopic in
      match db s !! key with
      | None => (s, Ok false)
      | Some value =>
          let decide_now :=
            match value with
            | VKV entry =>
                match SignalSourceLocalOnly (k_Payload entry) with
                | Ok localOnly =>
                    let cache := if Nat.leb policyCacheMax (size (policies s)) then ∅ else policies s in
                    (set_policies (<[key := mkCachedPolicy value localOnly]> cache) s, Ok localOnly)
                | Err e => (s, Err e)
                end
            | _ => (s, Err EDecode)
            end in
          match policies s !! key with
          | Some cached => if cp_value cached == value then (s, Ok (cp_localOnly cached)) else decide_now
          | None => decide_now
          end
      end
  end.

(** ** Checks and writes *)

(** The index of the first record over the cap. *)
Fixpoint first_too_large (limit : N) (i : nat) (recs : list Rec) : option nat :=
  match recs with
  | [] => None
  | rec :: recs => if (limit <? N.of_nat (String.length (r_Payload rec)))%N then Some i
                   else first_too_large limit (S i) recs
  end.

Fixpoint local_only_all (recs : list Rec) (s : Store) : Store * result StoreErr (list bool) :=
  match recs with
  | [] => (s, Ok [])
  | rec :: recs =>
      match metricSourceLocalOnly rec s with
      | (s, Err e) => (s, Err e)
      | (s, Ok l) => match local_only_all recs s with
                     | (s, Err e) => (s, Err e)
                     | (s, Ok ls) => (s, Ok (l :: ls))
                     end
      end
  end.

(** [checkAppend]: the record cap, then the policy of each metric. *)
Definition checkAppend (stream : string) (recs : list Rec) (s : Store)
    : Store * result StoreErr (option (list bool)) :=
  match (if (0 <? maxRecordBytes s)%N then first_too_large (maxRecordBytes s) 0 recs else None) with
  | Some i => (s, Err (ERecordTooLarge stream i))
  | None =>
      if stream != "metrics" then (s, Ok None)
      else match local_only_all recs s with
           | (s, Ok ls) => (s, Ok (Some ls))
           | (s, Err e) => (s, Err e)
           end
  end.

Definition with_local_only (l : bool) (rec : Rec) : Rec :=
  mkRec l (r_Topic rec) (r_Payload rec) (r_TS rec) (r_WrittenBy rec) (r_OriginOffset rec)
    (r_ActorID rec) (r_ActorLabel rec) (r_ActorKind rec) (r_ActorGroups rec) (r_ActorClient rec)
    (r_ActorEmail rec) (r_ActorClasses rec) (r_ActorCredential rec) (r_Door rec) (r_KVPath rec)
    (r_KVNode rec) (r_Delete rec).

(** The records as [writeAppend] stores them: [checkAppend]'s answers filled in. *)
Fixpoint decided (recs : list Rec) (localOnly : option (list bool)) : list Rec :=
  match recs, localOnly with
  | rec :: recs, Some (l :: ls) => with_local_only l rec :: decided recs (Some ls)
  | _, _ => recs
  end.

Fixpoint write_all (f : Faults) (stream : string) (recs : list Rec) (off added : N) (b : Batch)
    : result StoreErr (Batch * N * N) :=
  match recs with
  | [] => Ok (b, off, added)
  | rec :: recs =>
      let! (b, n) := addRecord f stream off rec b in
      write_all f stream recs (off + 1)%N (added + n)%N b
  end.

(** [writeAppend]: the batch, the next offset and the bytes added. *)
Definition writeAppend (f : Faults) (stream : string) (recs : list Rec) (localOnly : option (list bool))
    (off : N) (b : Batch) : result StoreErr (Batch * N * N) :=
  write_all f stream (decided recs localOnly) off 0 b.

(** ** A commit of its own *)

Record CursorAdvance := mkCursorAdvance { ca_Name : string; ca_Stream : string; ca_To : N }.

Definition advance_ops (f : Faults) (now : N) (adv : option CursorAdvance) (b : Batch) : result StoreErr Batch :=
  match adv with
  | None => Ok b
  | Some adv =>
      let! b := bset f (cursorKey (ca_Name adv) (ca_Stream adv)) (VU64 (ca_To adv)) b in
      bset f (ctKey (ca_Name adv) (ca_Stream adv)) (VU64 now) b
  end.

Definition appendAdvancingLocked (f : Faults) (now : N) (stream : string) (recs : list Rec)
    (adv : option CursorAdvance) (s : Store) : Store * result StoreErr (N * N) :=
  let first := at_ (next s) stream in
  if first == 0%N then (s, Err (EUnknownStream stream))
  else match checkAppend stream recs s with
  | (s, Err e) => (s, Err e)
  | (s, Ok localOnly) =>
      let built :=
        let! (b, off, added) := writeAppend f stream recs localOnly first [] in
        let liveBytes := (at_ (bytes s) stream + added)%N in
        let! b := setHead f stream off b in
        let! b := bset f (bytesKey stream) (VU64 liveBytes) b in
        let! b := advance_ops f now adv b in
        let! d := commit f b (db s) in
        Ok (d, off, liveBytes) in
      match built with
      | Err e => (s, Err e)
      | Ok (d, off, liveBytes) =>
          (set_bytes (<[stream := liveBytes]> (bytes s))
             (set_next (<[stream := off]> (next s)) (set_db d s)),
           Ok (first, (off - 1)%N))
      end
  end.

(** [AppendAdvancing]: [None] when the cursor already stands at or past the
    target, and nothing is written. *)
Definition AppendAdvancing (f : Faults) (now : N) (stream : string) (recs : list Rec) (adv : CursorAdvance)
    (s : Store) : Store * result StoreErr (option (N * N)) :=
  if recs == [] then (s, Ok None)
  else if (ca_To adv <=? readU64 (db s) (cursorKey (ca_Name adv) (ca_Stream adv)) 1)%N then (s, Ok None)
  else match appendAdvancingLocked f now stream recs (Some adv) s with
       | (s, Ok r) => (s, Ok (Some r))
       | (s, Err e) => (s, Err e)
       end.

Definition appendLocked (f : Faults) (stream : string) (recs : list Rec) (s : Store)
    : Store * result StoreErr (N * N) := appendAdvancingLocked f 0 stream recs None s.

Definition with_origin (origin : N) (rec : Rec) : Rec :=
  mkRec (r_SourceLocalOnly rec) (r_Topic rec) (r_Payload rec) (r_TS rec) (r_WrittenBy rec) origin
    (r_ActorID rec) (r_ActorLabel rec) (r_ActorKind rec) (r_ActorGroups rec) (r_ActorClient rec)
    (r_ActorEmail rec) (r_ActorClasses rec) (r_ActorCredential rec) (r_Door rec) (r_KVPath rec)
    (r_KVNode rec) (r_Delete rec).

(** [AppendIfKVUnchanged]: [None] when the entry was retired or superseded. *)
Definition AppendIfKVUnchanged (f : Faults) (stream : string) (rec : Rec) (ifKVOffset : N) (s : Store)
    : Store * result StoreErr (option N) :=
  if r_KVPath rec == "" then (s, Err ENoProjection)
  else match kvOffsets (db s) (r_KVPath rec) (r_KVNode rec) (r_Topic rec) with
  | None => (s, Ok None)
  | Some (cur, origin) =>
      if cur != ifKVOffset then (s, Ok None)
      else match appendLocked f stream [with_origin origin rec] s with
           | (s, Ok (first, _)) => (s, Ok (Some first))
           | (s, Err e) => (s, Err e)
           end
  end.

(** ** Moving retained records ([move.go]) *)

Record RetainedMove := mkRetainedMove {
  mv_Node : string;
  mv_FromPath : string;
  mv_FromTopic : string;
  mv_ToPath : string;
  mv_ToTopic : string;
}.

Definition plain_rec (topic payload : string) (ts : Z) (writtenBy actorID actorLabel actorKind path node : string)
    (del : bool) : Rec :=
  mkRec false topic payload ts writtenBy 0 actorID actorLabel actorKind [] "" "" [] "" "" path node del.

(** What one move appends: the restatement, unless the destination is taken,
    and the tombstone. *)
Definition move_records (d : DB) (by_ : Rec) (move : RetainedMove) : list Rec :=
  match kvEntry d (mv_FromPath move) (mv_Node move) (mv_FromTopic move) with
  | None => []
  | Some held =>
      ((match kvEntry d (mv_ToPath move) (mv_Node move) (mv_ToTopic move) with
        | None => [plain_rec (mv_ToTopic move) (k_Payload held) (k_TS held) (k_WrittenBy held)
                     (k_ActorID held) (k_ActorLabel held) (k_ActorKind held) (mv_ToPath move) (mv_Node move) false]
        | Some _ => []
        end)
       ++ [plain_rec (mv_FromTopic move) "" (r_TS by_) (r_WrittenBy by_) (r_ActorID by_)
             (r_ActorLabel by_) (r_ActorKind by_) (mv_FromPath move) (mv_Node move) true])%list
  end.

Definition MoveRetained (f : Faults) (stream : string) (moves : list RetainedMove) (by_ : Rec) (s : Store)
    : Store * result StoreErr (list Rec * N) :=
  let written := mjoin (move_records (db s) by_ <$> moves) in
  if written == [] then (s, Ok ([], 0%N))
  else match appendLocked f stream written s with
       | (s, Ok (first, _)) => (s, Ok (written, first))
       | (s, Err e) => (s, Err e)
       end.

(** ** Group commit ([appendgroup.go]) *)

Record appendRequest := mkAppendRequest { ar_stream : string; ar_recs : list Rec }.

(** What the loop over a group has gathered: the heads and byte counts to be, the
    streams with a committed request in first-seen order, the batch, and the
    answers so far in request order. *)
Record AppendAcc := mkAppendAcc {
  aa_next : gmap string N;
  aa_bytes : gmap string N;
  aa_grown : list string;
  aa_batch : Batch;
  aa_results : list (result StoreErr (N * N));
}.

Definition add_new (x : string) (l : list string) : list string :=
  if bool_decide (x ∈ l) then l else (l ++ [x])%list.

Definition acc_result (r : result StoreErr (N * N)) (acc : AppendAcc) : AppendAcc :=
  mkAppendAcc (aa_next acc) (aa_bytes acc) (aa_grown acc) (aa_batch acc) (aa_results acc ++ [r]).

(** The loop body. An error of the outer result is a half-written request: it
    fails the whole group. *)
Definition append_step (f : Faults) (r : appendRequest) (acc : AppendAcc) (s : Store)
    : Store * result StoreErr AppendAcc :=
  let stream := ar_stream r in
  let known := bool_decide (is_Some (aa_next acc !! stream)) in
  let off := at_ (next s) stream in
  if negb known && (off == 0%N) then (s, Ok (acc_result (Err (EUnknownStream stream)) acc))
  else
    let acc := if known then acc
               else mkAppendAcc (<[stream := off]> (aa_next acc)) (<[stream := at_ (bytes s) stream]> (aa_bytes acc))
                      (aa_grown acc) (aa_batch acc) (aa_results acc) in
    match checkAppend stream (ar_recs r) s with
    | (s, Err e) => (s, Ok (acc_result (Err e) acc))
    | (s, Ok localOnly) =>
        let first := at_ (aa_next acc) stream in
        match writeAppend f stream (ar_recs r) localOnly first (aa_batch acc) with
        | Err e => (s, Err e)
        | Ok (b, off, added) =>
            (s, Ok (mkAppendAcc (<[stream := off]> (aa_next acc))
                      (<[stream := at_ (aa_bytes acc) stream + added]> (aa_bytes acc))%N
                      (add_new stream (aa_grown acc)) b
                      (aa_results acc ++ [Ok (first, (off - 1)%N)])))
        end
    end.

Fixpoint append_loop (f : Faults) (group : list appendRequest) (acc : AppendAcc) (s : Store)
    : Store * result StoreErr AppendAcc :=
  match group with
  | [] => (s, Ok acc)
  | r :: group =>
      match append_step f r acc s with
      | (s, Ok acc) => append_loop f group acc s
      | (s, Err e) => (s, Err e)
      end
  end.

(** The heads and byte counters of the grown streams. *)
Fixpoint head_ops (f : Faults) (grown : list string) (heads live : gmap string N) (b : Batch)
    : result StoreErr Batch :=
  match grown with
  | [] => Ok b
  | stream :: grown =>
      let! b := setHead f stream (at_ heads stream) b in
      let! b := bset f (bytesKey stream) (VU64 (at_ live stream)) b in
      head_ops f grown heads live b
  end.

(** A group's answers after a commit that failed: its successes become the
    error. *)
Definition fail_committed {A} (e : StoreErr) (results : list (result StoreErr A)) : list (result StoreErr A) :=
  (fun r => match r with Ok _ => Err e | Err e' => Err e' end) <$> results.

(** The counters of the grown streams, published. *)
Definition publish (grown : list string) (from to : gmap string N) : gmap string N :=
  foldl (fun m stream => <[stream := at_ from stream]> m) to grown.

Definition commitAppendBatch (f : Faults) (group : list appendRequest) (s : Store)
    : Store * list (result StoreErr (N * N)) :=
  match append_loop f group (mkAppendAcc ∅ ∅ [] [] []) s with
  | (s, Err e) => (s, (fun _ => Err e) <$> group)
  | (s, Ok acc) =>
      if aa_grown acc == [] then (s, aa_results acc)
      else
        let built := let! b := head_ops f (aa_grown acc) (aa_next acc) (aa_bytes acc) (aa_batch acc) in
                     commit f b (db s) in
        match built with
        | Err e => (s, fail_committed e (aa_results acc))
        | Ok d => (set_bytes (publish (aa_grown acc) (aa_bytes acc) (bytes s))
                     (set_next (publish (aa_grown acc) (aa_next acc) (next s)) (set_db d s)),
                   aa_results acc)
        end
  end.

Definition writesSignal (recs : list Rec) : bool :=
  existsb (fun rec => (r_KVPath rec != "") && DecidesReplication (r_Topic rec)) recs.

(** The inner loop of [commitAppends]: the requests of the next batch, and the
    rest. *)
Fixpoint take_batch (signal : bool) (group : list appendRequest) : list appendRequest * list appendRequest :=
  match group with
  | r :: group' =>
      if negb signal || (ar_stream r != "metrics") then
        let '(batch, rest) := take_batch (signal || writesSignal (ar_recs r)) group' in (r :: batch, rest)
      else ([], group)
  | [] => ([], [])
  end.

(** [commitAppends]; [fs] are the faults of its batches, one after the other.
    Each batch takes at least one request, so a fuel of the group's length is
    enough ([commitAppends_fuel]). *)
Fixpoint commit_appends (fuel : nat) (fs : nat -> Faults) (group : list appendRequest) (s : Store)
    : Store * list (result StoreErr (N * N)) :=
  match fuel with
  | O => (s, [])
  | S fuel =>
      match group with
      | [] => (s, [])
      | _ => let '(batch, rest) := take_batch false group in
             let '(s, r1) := commitAppendBatch (fs 0) batch s in
             let '(s, r2) := commit_appends fuel (fun n => fs (S n)) rest s in
             (s, r1 ++ r2)%list
      end
  end.

Definition commitAppends (fs : nat -> Faults) (group : list appendRequest) (s : Store)
    : Store * list (result StoreErr (N * N)) := commit_appends (length group) fs group s.

(** ** The policy cache *)

(** What the policy of a metric's signal says, read from the store. *)
Definition policy_of (d : DB) (rec : Rec) : result StoreErr bool :=
  match MetricSignalKey topic_root (r_Topic rec) with
  | None => Ok false
  | Some (path, node, signalTopic) =>
      match d !! kvKey path node signalTopic with
      | None => Ok false
      | Some (VKV entry) => SignalSourceLocalOnly (k_Payload entry)
      | Some _ => Err EDecode
      end
  end.

(** The cached policies say what their values say. *)
Definition policies_ok (ps : gmap Key cachedPolicy) : Prop :=
  forall k c, ps !! k = Some c ->
    exists e, cp_value c = VKV e /\ SignalSourceLocalOnly (k_Payload e) = Ok (cp_localOnly c).

Lemma set_policies_id s : set_policies (policies s) s = s.
Proof. by destruct s. Qed.

Lemma metricSourceLocalOnly_eq rec s : policies_ok (policies s) ->
  exists ps, metricSourceLocalOnly rec s = (set_policies ps s, policy_of (db s) rec) /\ policies_ok ps.
Proof.
  intros Hok. unfold metricSourceLocalOnly, policy_of.
  destruct (MetricSignalKey _ _) as [[[path node] topic]|]; [|exists (policies s); by rewrite set_policies_id].
  set (k := kvKey path node topic).
  destruct (db s !! k) as [v|]; [|exists (policies s); by rewrite set_policies_id]. cbv zeta.
  destruct (policies s !! k) as [c|] eqn:Ec.
  1: destruct (decide (cp_value c = v)) as [<-|Hne].
  { rewrite bool_decide_eq_true_2 by done. exists (policies s). rewrite set_policies_id.
    destruct (Hok _ _ Ec) as (e & -> & He). by rewrite He. }
  1: rewrite bool_decide_eq_false_2 by done.
  all: destruct v as [|e| | | | | |]; try (exists (policies s); by rewrite set_policies_id).
  all: destruct (SignalSourceLocalOnly (k_Payload e)) as [l|er] eqn:El;
    [|exists (policies s); by rewrite set_policies_id].
  all: eexists; split; [done|]; intros k' c'; rewrite lookup_insert; case_decide; [intros [= <-]; by exists e|].
  all: destruct (Nat.leb _ _); [by rewrite lookup_empty | apply Hok].
Qed.

Fixpoint policies_of (d : DB) (recs : list Rec) : result StoreErr (list bool) :=
  match recs with
  | [] => Ok []
  | rec :: recs => let! l := policy_of d rec in let! ls := policies_of d recs in Ok (l :: ls)
  end.

Lemma local_only_all_eq recs s : policies_ok (policies s) ->
  exists ps, local_only_all recs s = (set_policies ps s, policies_of (db s) recs) /\ policies_ok ps.
Proof.
  revert s; induction recs as [|rec recs IH]; intros s Hok; simpl.
  { exists (policies s). by rewrite set_policies_id. }
  destruct (metricSourceLocalOnly_eq rec s Hok) as (ps & -> & Hps).
  destruct (policy_of (db s) rec) as [l|e]; [|by exists ps].
  destruct (IH (set_policies ps s) Hps) as (ps' & E & Hps'). rewrite E. store_simpl.
  destruct (policies_of (db s) recs) as [ls|e]; by exists ps'.
Qed.

(** What [checkAppend] decides, without its cache. *)
Definition check_ref (d : DB) (limit : N) (stream : string) (recs : list Rec) : result StoreErr (option (list bool)) :=
  match (if (0 <? limit)%N then first_too_large limit 0 recs else None) with
  | Some i => Err (ERecordTooLarge stream i)
  | None => if stream != "metrics" then Ok None else let! ls := policies_of d recs in Ok (Some ls)
  end.

Lemma checkAppend_eq stream recs s : policies_ok (policies s) ->
  exists ps, checkAppend stream recs s = (set_policies ps s, check_ref (db s) (maxRecordBytes s) stream recs)
             /\ policies_ok ps.
Proof.
  intros Hok. unfold checkAppend, check_ref.
  destruct (if (0 <? maxRecordBytes s)%N then _ else _); [exists (policies s); by rewrite set_policies_id|].
  destruct (_ != _); [exists (policies s); by rewrite set_policies_id|].
  destruct (local_only_all_eq recs s Hok) as (ps & E & Hps). rewrite E.
  destruct (policies_of (db s) recs); by exists ps.
Qed.

(** ** A commit of its own is a sequence of puts *)

Lemma write_all_Ok f stream recs off added b b' n a :
  write_all f stream recs off added b = Ok (b', n, a) ->
  b' = b ++ records_ops stream off recs /\ n = (off + N.of_nat (length recs))%N
  /\ a = (added + costs stream off recs)%N.
Proof.
  revert off added b; induction recs as [|rec recs IH]; intros off added b E; cbn [write_all] in E.
  { injection E as <- <- <-. simpl. rewrite app_nil_r. split; [done|]. split; lia. }
  destruct (addRecord f stream off rec b) as [[b1 n1]|] eqn:E1; [|done].
  apply addRecord_Ok in E1 as [-> ->]. apply IH in E as (-> & -> & ->).
  cbn [records_ops costs length]. rewrite <- app_assoc. split; [done|]. split; lia.
Qed.

Lemma write_all_no_fault stream recs off added b :
  write_all no_faults stream recs off added b
  = Ok (b ++ records_ops stream off recs, (off + N.of_nat (length recs))%N, (added + costs stream off recs)%N).
Proof.
  destruct (write_all no_faults stream recs off added b) as [[[b' n] a]|e] eqn:E.
  - by apply write_all_Ok in E as (-> & -> & ->).
  - exfalso. revert off added b E. induction recs as [|rec recs IH]; intros off added b; cbn [write_all]; [done|].
    rewrite addRecord_no_fault. apply IH.
Qed.

Lemma length_decided recs lo : length (decided recs lo) = length recs.
Proof. revert lo; induction recs as [|r recs IH]; intros [[|]|]; simpl; auto. Qed.

Definition advance_batch (now : N) (adv : option CursorAdvance) : Batch :=
  match adv with
  | Some adv => [BSet (cursorKey (ca_Name adv) (ca_Stream adv)) (VU64 (ca_To adv));
                 BSet (ctKey (ca_Name adv) (ca_Stream adv)) (VU64 now)]
  | None => []
  end.

Lemma advance_ops_Ok f now adv b b' : advance_ops f now adv b = Ok b' -> b' = b ++ advance_batch now adv.
Proof.
  destruct adv as [adv|]; simpl; [|intros [= <-]; by rewrite app_nil_r].
  destruct (bset f _ _ b) as [b1|] eqn:E; [|done]. apply bset_Ok in E as ->.
  intros E%bset_Ok. subst. by rewrite <- app_assoc.
Qed.

(** The outcome of one append of its own: [lo] are the answers of [check_ref]. *)
Definition append_outcome (now : N) (stream : string) (recs : list Rec) (lo : option (list bool))
    (adv : option CursorAdvance) (s : Store) : Store :=
  let s := put_records stream (decided recs lo) s in
  set_db (apply_batch (advance_batch now adv) (db s)) s.

Lemma appendAdvancingLocked_eq f now stream recs adv s s' r :
  policies_ok (policies s) -> recs <> [] ->
  appendAdvancingLocked f now stream recs adv s = (s', r) ->
  exists ps, policies_ok ps /\
    match r with
    | Err _ => s' = set_policies ps s
    | Ok (first, last) =>
        exists lo, check_ref (db s) (maxRecordBytes s) stream recs = Ok lo
        /\ NextOffset s stream <> 0%N /\ first = NextOffset s stream
        /\ (last + 1 = first + N.of_nat (length recs))%N
        /\ s' = append_outcome now stream recs lo adv (set_policies ps s)
    end.
Proof.
  intros Hok Hne. unfold appendAdvancingLocked. cbv zeta.
  case_bool_decide as H0. { intros [= <- <-]. exists (policies s). by rewrite set_policies_id. }
  destruct (checkAppend_eq stream recs s Hok) as (ps & -> & Hps).
  destruct (check_ref (db s) (maxRecordBytes s) stream recs) as [lo|e]; [|intros [= <- <-]; by exists ps].
  store_simpl. unfold writeAppend.
  destruct (write_all f stream (decided recs lo) (at_ (next s) stream) 0 []) as [[[b off] added]|e] eqn:Ew;
    [|intros [= <- <-]; by exists ps].
  apply write_all_Ok in Ew as (-> & -> & ->).
  destruct (setHead f stream _ _) as [b|] eqn:Eh; [|intros [= <- <-]; by exists ps]. apply setHead_Ok in Eh as ->.
  destruct (bset f _ _ _) as [b|] eqn:Eb; [|intros [= <- <-]; by exists ps]. apply bset_Ok in Eb as ->.
  destruct (advance_ops f now adv _) as [b|] eqn:Ea; [|intros [= <- <-]; by exists ps]. apply advance_ops_Ok in Ea as ->.
  unfold commit. destruct (apply_fails f); [intros [= <- <-]; by exists ps|].
  intros [= <- <-]. exists ps. split; [done|]. exists lo. split; [done|]. split; [done|]. split; [done|].
  rewrite length_decided. split; [destruct recs; [done|simpl length; unfold NextOffset; lia]|].
  unfold append_outcome. destruct recs as [|rec recs]; [done|].
  destruct (decided (rec :: recs) lo) as [|rec' recs'] eqn:Ed.
  { apply (f_equal length) in Ed. by rewrite length_decided in Ed. }
  rewrite put_records_eq. store_simpl. cbv zeta. rewrite <- Ed, length_decided, N.add_0_l.
  rewrite <- !app_assoc, !apply_batch_app. done.
Qed.

End append.
