(* ===== verification/StoreGroup.v ===== *)
(** * The store: appends are atomic, ordered and indistinguishable from one by one

    The theorems of [StoreAppend]. A group of requests becomes one batch; what
    the batch means at any point of its construction is [virtual], the store its
    commit would leave. Each request moves [virtual] as a commit of its own
    would, which gives both the invariant and the equivalence. *)

From S2P Require Export StoreAppend StoreOpen.

Open Scope string_scope.
Open Scope list_scope.
Open Scope go_scope.

Section group.
Context `{Codec}.

(** ** The store a batch would leave *)

Definition heads (grown : list string) (nx live : gmap string N) : Batch :=
  mjoin ((fun st => head_batch st (at_ nx st) (at_ live st)) <$> grown).

Definition virtual (acc : AppendAcc) (s : Store) : Store :=
  set_bytes (publish (aa_grown acc) (aa_bytes acc) (bytes s))
    (set_next (publish (aa_grown acc) (aa_next acc) (next s))
       (set_db (apply_batch (aa_batch acc ++ heads (aa_grown acc) (aa_next acc) (aa_bytes acc)) (db s)) s)).

(** What the loop maintains: an open stream has a head and a byte count, those of
    the store until the stream grows, and the batch writes records only. *)
Record AccInv (acc : AppendAcc) (s : Store) : Prop := {
  ai_grown : forall st, st ∈ aa_grown acc -> is_Some (aa_next acc !! st);
  ai_known : forall st n, aa_next acc !! st = Some n -> NextOffset s st <> 0%N /\ n <> 0%N;
  ai_open : forall st n, aa_next acc !! st = Some n -> st ∉ aa_grown acc ->
              n = NextOffset s st /\ at_ (aa_bytes acc) st = StreamBytes s st;
  ai_batch : forall k, tag k ∉ record_tags -> Forall (fun op => touches op k = false) (aa_batch acc);
  ai_empty : aa_grown acc = [] -> aa_batch acc = [] /\ Forall (fun r => is_ok r = false) (aa_results acc);
}.

Lemma lookup_publish grown from to st :
  publish grown from to !! st = if decide (st ∈ grown) then Some (at_ from st) else to !! st.
Proof.
  unfold publish. revert to; induction grown as [|g grown IH]; intros to; simpl.
  { done. }
  rewrite IH, lookup_insert. destruct (decide (st ∈ grown)).
  - rewrite decide_True by set_solver. done.
  - case_decide; [subst; by rewrite decide_True by set_solver|].
    by rewrite decide_False by set_solver.
Qed.

Lemma elem_of_add_new x y l : y ∈ add_new x l <-> y = x \/ y ∈ l.
Proof. unfold add_new. case_bool_decide; set_solver. Qed.

Lemma publish_add_new stream grown from to n :
  publish (add_new stream grown) (<[stream := n]> from) to = <[stream := n]> (publish grown from to).
Proof.
  apply map_eq. intros st. rewrite lookup_publish, lookup_insert, lookup_publish.
  rewrite (decide_ext _ _ _ _ (elem_of_add_new stream st grown)). destruct (decide (stream = st)) as [<-|Hne].
  - rewrite decide_True by (by left). by rewrite at_insert_eq.
  - rewrite at_insert_ne by done. repeat case_decide; naive_solver.
Qed.

Lemma publish_open stream grown from to n :
  stream ∉ grown -> publish grown (<[stream := n]> from) to = publish grown from to.
Proof.
  intros Hn. apply map_eq. intros st. rewrite !lookup_publish. case_decide; [|done].
  by rewrite at_insert_ne by (intros ->; done).
Qed.

Lemma heads_untouched grown nx live k : tag k ∉ head_tags ->
  Forall (fun op => touches op k = false) (heads grown nx live).
Proof.
  intros Hk. unfold heads. induction grown as [|g grown IH]; [constructor|].
  rewrite fmap_cons. cbn [mjoin list_join]. apply Forall_app. split; [by apply head_batch_untouched|apply IH].
Qed.

(** The stream of a head key, and whether it is the byte counter. *)
Definition head_of (k : Key) : option (string * bool) :=
  match parts k, suffix k with
  | [t; st], None => if (t == "m") || (t == "ix") then Some (st, false)
                     else if t == "b" then Some (st, true) else None
  | _, _ => None
  end.

Lemma batch_at_head_batch stream n live k o :
  batch_at k (head_batch stream n live) o
  = match head_of k with
    | Some (st, isb) => if decide (st = stream) then Some (VU64 (if isb then live else n)) else o
    | None => o
    end.
Proof.
  unfold batch_at, head_batch; simpl. unfold metaKey, indexedKey, bytesKey, head_of.
  destruct k as [[|t [|st []]] [x|]]; simpl; try (by repeat (rewrite decide_False by congruence)).
  destruct (decide (t = "m")) as [->|]; [|destruct (decide (t = "ix")) as [->|]; [|destruct (decide (t = "b")) as [->|]]];
    rewrite ?bool_decide_eq_true_2, ?bool_decide_eq_false_2 by done; simpl;
    repeat case_decide; naive_solver.
Qed.

Lemma batch_at_heads grown nx live k o :
  batch_at k (heads grown nx live) o
  = match head_of k with
    | Some (st, isb) => if decide (st ∈ grown) then Some (VU64 (at_ (if isb then live else nx) st)) else o
    | None => o
    end.
Proof.
  unfold heads. revert o; induction grown as [|g grown IH]; intros o.
  { destruct (head_of k) as [[st isb]|]; [|done]. by rewrite decide_False by (apply not_elem_of_nil). }
  rewrite fmap_cons. cbn [mjoin list_join]. rewrite batch_at_app, IH, batch_at_head_batch.
  destruct (head_of k) as [[st isb]|]; [|done].
  destruct (decide (st ∈ grown)); [by rewrite decide_True by set_solver|].
  case_decide; [subst; rewrite decide_True by set_solver; by destruct isb|].
  by rewrite decide_False by set_solver.
Qed.

Lemma head_of_tag k x : head_of k = Some x -> tag k ∉ record_tags.
Proof.
  unfold head_of, tag. destruct k as [[|t [|st []]] [|]]; simpl; try done.
  destruct (decide (t = "m")) as [->|]; [intros _; tag_in|].
  destruct (decide (t = "ix")) as [->|]; [intros _; tag_in|].
  destruct (decide (t = "b")) as [->|]; [intros _; tag_in|].
  by rewrite !bool_decide_eq_false_2.
Qed.

(** Records written at the end of the batch, under the newer heads, are records
    put after the store the batch would leave. *)
Lemma heads_step b ops stream grown nx live n l d :
  (forall k, tag k ∉ record_tags -> Forall (fun op => touches op k = false) b) ->
  (forall k, tag k ∉ record_tags -> Forall (fun op => touches op k = false) ops) ->
  apply_batch ((b ++ ops) ++ heads (add_new stream grown) (<[stream := n]> nx) (<[stream := l]> live)) d
  = apply_batch (ops ++ head_batch stream n l) (apply_batch (b ++ heads grown nx live) d).
Proof.
  intros Hb Hops. apply map_eq. intros k.
  rewrite !lookup_apply_batch, !batch_at_app, !batch_at_heads, batch_at_head_batch.
  destruct (head_of k) as [[st isb]|] eqn:Eh; [|done].
  apply head_of_tag in Eh. rewrite !(batch_at_untouched k ops) by auto.
  rewrite (decide_ext _ _ _ _ (elem_of_add_new stream st grown)).
  destruct (decide (st = stream)) as [->|Hne].
  - rewrite decide_True by (by left). destruct isb; by rewrite at_insert_eq.
  - destruct (decide (st ∈ grown)); [rewrite decide_True by (by right)|rewrite decide_False by naive_solver; done].
    destruct isb; by rewrite at_insert_ne by done.
Qed.

(** ** One request *)

(** The accumulator once a request's stream is open. *)
Definition open_acc (stream : string) (acc : AppendAcc) (s : Store) : AppendAcc :=
  if bool_decide (is_Some (aa_next acc !! stream)) then acc
  else mkAppendAcc (<[stream := NextOffset s stream]> (aa_next acc))
         (<[stream := StreamBytes s stream]> (aa_bytes acc)) (aa_grown acc) (aa_batch acc) (aa_results acc).

Lemma heads_open stream grown nx live n l :
  stream ∉ grown -> heads grown (<[stream := n]> nx) (<[stream := l]> live) = heads grown nx live.
Proof.
  intros Hn. unfold heads. f_equal. apply list_fmap_ext. intros i st Hst.
  apply list_elem_of_lookup_2 in Hst. by rewrite !at_insert_ne by (intros ->; done).
Qed.

Lemma open_acc_eq stream acc s :
  AccInv acc s -> NextOffset s stream <> 0%N ->
  AccInv (open_acc stream acc s) s /\ virtual (open_acc stream acc s) s = virtual acc s
  /\ is_Some (aa_next (open_acc stream acc s) !! stream) /\ aa_results (open_acc stream acc s) = aa_results acc.
Proof.
  intros HA Hk. unfold open_acc. case_bool_decide as Ho; [done|].
  destruct HA as [A1 A2 A3 A4 A5].
  assert (Hg : stream ∉ aa_grown acc) by (intros Hg; by apply Ho, A1).
  split; [split; cbn [aa_next aa_bytes aa_grown aa_batch aa_results]|split; [|split]].
  - intros st Hst. rewrite lookup_insert_ne by (intros ->; done). auto.
  - intros st n. rewrite lookup_insert. case_decide; [subst; by intros [= <-]|apply A2].
  - intros st n. rewrite lookup_insert. case_decide; [subst|].
    + intros [= <-] _. by rewrite at_insert_eq.
    + rewrite at_insert_ne by done. apply A3.
  - done.
  - done.
  - unfold virtual; cbn [aa_next aa_bytes aa_grown aa_batch aa_results].
    by rewrite !publish_open, heads_open by done.
  - cbn [aa_next]. rewrite lookup_insert_eq. by eexists.
  - done.
Qed.

(** The answer to a request: the error of its check, or its offsets. *)
Definition answer (first : N) (recs : list Rec) (lo : result StoreErr (option (list bool))) : result StoreErr (N * N) :=
  match lo with
  | Err e => Err e
  | Ok _ => Ok (first, (first + N.of_nat (length recs) - 1)%N)
  end.

(** The check of a request, its stream included. *)
Definition request_check (d : DB) (s : Store) (r : appendRequest) : result StoreErr (option (list bool)) :=
  if NextOffset s (ar_stream r) == 0%N then Err (EUnknownStream (ar_stream r))
  else check_ref d (maxRecordBytes s) (ar_stream r) (ar_recs r).

(** What a request does to a store. *)
Definition request_effect (r : appendRequest) (lo : result StoreErr (option (list bool))) (s : Store) : Store :=
  match lo with
  | Ok lo => put_records (ar_stream r) (decided (ar_recs r) lo) s
  | Err _ => s
  end.

Lemma virtual_next acc s stream n :
  AccInv acc s -> aa_next acc !! stream = Some n ->
  NextOffset (virtual acc s) stream = n /\ StreamBytes (virtual acc s) stream = at_ (aa_bytes acc) stream.
Proof.
  intros HA Hn. unfold NextOffset, StreamBytes, virtual, at_. store_simpl. rewrite !lookup_publish.
  destruct (decide (stream ∈ aa_grown acc)) as [Hg|Hg].
  - unfold at_. by rewrite Hn.
  - destruct (ai_open acc s HA stream n Hn Hg) as [-> E]. split; [done|]. symmetry. exact E.
Qed.

(** A request moves the store the batch would leave as its own commit would, or
    is refused and leaves it alone. *)
Lemma append_step_eq r acc s :
  policies_ok (policies s) -> AccInv acc s -> ar_recs r <> [] ->
  exists ps acc',
    append_step no_faults r acc s = (set_policies ps s, Ok acc') /\ policies_ok ps
    /\ AccInv acc' (set_policies ps s)
    /\ aa_results acc' = aa_results acc
         ++ [answer (NextOffset (virtual acc s) (ar_stream r)) (ar_recs r) (request_check (db s) s r)]
    /\ virtual acc' (set_policies ps s)
       = request_effect r (request_check (db s) s r) (set_policies ps (virtual acc s))
    /\ exists off, aa_batch acc' = aa_batch acc
         ++ match request_check (db s) s r with
            | Ok lo => records_ops (ar_stream r) off (decided (ar_recs r) lo)
            | Err _ => []
            end.
Proof.
  intros Hok HA Hne. unfold append_step, request_check. cbv zeta.
  fold (NextOffset s (ar_stream r)). set (stream := ar_stream r).
  destruct (decide (NextOffset s stream = 0%N)) as [H0|H0].
  { (* an unknown stream *)
    rewrite (bool_decide_eq_false_2 (is_Some (aa_next acc !! stream))), (bool_decide_eq_true_2 _ H0)
      by (intros [n Hn]; by apply (ai_known acc s HA) in Hn as [? _]).
    exists (policies s). eexists. rewrite set_policies_id. split; [done|]. split; [done|].
    destruct HA as [A1 A2 A3 A4 A5]. split; [split; try done|split; [done|]].
    - intros Hg. destruct (A5 Hg) as [? ?]. split; [done|]. apply Forall_app. by repeat constructor.
    - unfold request_effect. split; [by rewrite <- (set_policies_id (virtual acc s))|].
      exists 0%N. by rewrite app_nil_r. }
  rewrite (bool_decide_eq_false_2 _ H0), andb_false_r.
  change (at_ (bytes s) stream) with (StreamBytes s stream). fold (open_acc stream acc s).
  destruct (open_acc_eq stream acc s HA H0) as (HA' & HV & [n Hn] & HR).
  destruct (checkAppend_eq stream (ar_recs r) s Hok) as (ps & -> & Hps). exists ps.
  assert (HB : aa_batch (open_acc stream acc s) = aa_batch acc) by (unfold open_acc; by case_bool_decide).
  rewrite <- HV, <- HR, <- HB. set (acc1 := open_acc stream acc s) in *. clearbody acc1. clear HV HR HB HA.
  destruct (virtual_next acc1 s stream n HA' Hn) as [Vn Vb]. rewrite Vn.
  destruct HA' as [A1 A2 A3 A4 A5].
  destruct (check_ref (db s) (maxRecordBytes s) stream (ar_recs r)) as [lo|e].
  2: { eexists. split; [done|]. split; [done|].
       split; [split; try done|split; [done|split; [done|exists 0%N; by rewrite app_nil_r]]].
       intros Hg. destruct (A5 Hg) as [? ?]. split; [done|]. apply Forall_app. by repeat constructor. }
  unfold writeAppend. rewrite write_all_no_fault, length_decided, N.add_0_l.
  assert (at_ (aa_next acc1) stream = n) as -> by (unfold at_; by rewrite Hn).
  eexists. split; [done|]. split; [done|]. split; [|split; [done|split; [|by exists n]]].
  - split; cbn [aa_next aa_bytes aa_grown aa_batch aa_results].
    + intros st Hst. apply elem_of_add_new in Hst. rewrite lookup_insert. case_decide; [by eexists|].
      apply A1. naive_solver.
    + intros st m. rewrite lookup_insert. case_decide; [|apply A2]. subst. intros [= <-].
      split; [done|]. apply A2 in Hn. lia.
    + intros st m. rewrite lookup_insert, elem_of_add_new. case_decide; [naive_solver|].
      intros E Hst. rewrite at_insert_ne by done. apply A3; naive_solver.
    + intros k Hk. apply Forall_app. split; [by apply A4|by apply records_ops_untouched].
    + intros E. exfalso. assert (stream ∈ add_new stream (aa_grown acc1)) by (apply elem_of_add_new; by left).
      rewrite E in H1. by apply not_elem_of_nil in H1.
  - unfold request_effect. fold stream. destruct (ar_recs r) as [|rec recs] eqn:Er; [done|].
    destruct (decided (rec :: recs) lo) as [|rec' recs'] eqn:Ed.
    { apply (f_equal length) in Ed. by rewrite length_decided in Ed. }
    rewrite put_records_eq. cbv zeta. rewrite <- Ed, length_decided.
    change (at_ (next (set_policies ps (virtual acc1 s))) stream) with (NextOffset (virtual acc1 s) stream).
    change (at_ (bytes (set_policies ps (virtual acc1 s))) stream) with (StreamBytes (virtual acc1 s) stream).
    rewrite Vn, Vb. unfold virtual. cbn [aa_next aa_bytes aa_grown aa_batch aa_results]. store_simpl.
    rewrite !publish_add_new, heads_step; [done|done|].
    intros k Hk. by apply records_ops_untouched.
Qed.

(** ** A whole batch *)

Definition empty_acc : AppendAcc := mkAppendAcc ∅ ∅ [] [] [].

Lemma empty_acc_inv s : AccInv empty_acc s.
Proof.
  split; cbn [aa_next aa_bytes aa_grown aa_batch aa_results empty_acc].
  - intros st Hst. by apply not_elem_of_nil in Hst.
  - intros st n E. by rewrite lookup_empty in E.
  - intros st n E. by rewrite lookup_empty in E.
  - constructor.
  - by split; [|constructor].
Qed.

Lemma virtual_not_grown acc s : AccInv acc s -> aa_grown acc = [] -> virtual acc s = s.
Proof.
  intros HA Hg. destruct (ai_empty acc s HA Hg) as [Hb _]. unfold virtual. rewrite Hg, Hb. by destruct s.
Qed.

Definition nonempty (group : list appendRequest) : Prop := Forall (fun r => ar_recs r <> []) group.

Lemma put_unknown st s stream recs :
  NextOffset s stream <> 0%N -> NextOffset (put_records stream recs s) st = 0%N <-> NextOffset s st = 0%N.
Proof.
  intros Hk. destruct recs as [|rec recs]; [done|]. rewrite put_records_eq. cbv zeta. unfold NextOffset in *. store_simpl.
  destruct (decide (stream = st)) as [<-|]; [rewrite at_insert_eq; lia|by rewrite at_insert_ne].
Qed.

Lemma virtual_known acc s stream :
  AccInv acc s -> NextOffset (virtual acc s) stream = 0%N <-> NextOffset s stream = 0%N.
Proof.
  intros HA. destruct (decide (NextOffset s stream = 0%N)) as [H0|H0].
  - split; [done|intros _]. unfold NextOffset, virtual, at_. store_simpl. rewrite lookup_publish.
    rewrite decide_False; [done|]. intros Hg. destruct (ai_grown _ _ HA _ Hg) as [n Hn].
    by apply (ai_known _ _ HA) in Hn as [? _].
  - destruct (open_acc_eq stream acc s HA H0) as (HA1 & HV1 & [n Hn] & _).
    destruct (virtual_next _ _ _ _ HA1 Hn) as [En _]. rewrite <- HV1, En.
    apply (ai_known _ _ HA1) in Hn as [_ ?]. done.
Qed.

(** The loop without faults never fails as a whole. [Q] is any property of the
    store the batch would leave that an accepted request preserves. *)
Lemma append_loop_eq (Q : Store -> Prop) group acc s :
  (forall stream recs v, NextOffset v stream <> 0%N -> Q v -> Q (put_records stream recs v)) ->
  (forall ps v, policies_ok ps -> Q v -> Q (set_policies ps v)) ->
  policies_ok (policies s) -> AccInv acc s -> nonempty group -> Q (virtual acc s) ->
  exists ps acc', append_loop no_faults group acc s = (set_policies ps s, Ok acc') /\ policies_ok ps
    /\ AccInv acc' (set_policies ps s) /\ Q (virtual acc' (set_policies ps s)).
Proof.
  intros HQ HQp. revert acc s; induction group as [|r group IH]; intros acc s Hok HA Hne Hv.
  { exists (policies s), acc. by rewrite set_policies_id. }
  apply Forall_cons in Hne as [Hr Hne].
  destruct (append_step_eq r acc s Hok HA Hr) as (ps & acc' & Es & Hps & HA' & _ & HV & _).
  cbn [append_loop]. rewrite Es. apply (IH acc' (set_policies ps s)); try done.
  rewrite HV. unfold request_check, request_effect. case_bool_decide as H0; [by apply HQp|].
  destruct (check_ref _ _ _ _); [|by apply HQp]. apply HQ; [|by apply HQp].
  change (NextOffset (virtual acc s) (ar_stream r) <> 0%N). by rewrite virtual_known.
Qed.

(** *** Faults *)

Lemma bset_fault f k v b b' : bset f k v b = Ok b' -> bset no_faults k v b = Ok b'.
Proof. unfold bset; simpl. case_match; congruence. Qed.

Lemma writeAppend_fault f stream recs lo off b x :
  writeAppend f stream recs lo off b = Ok x -> writeAppend no_faults stream recs lo off b = Ok x.
Proof.
  unfold writeAppend. destruct x as [[b' n] a]. intros E. apply write_all_Ok in E as (-> & -> & ->).
  apply write_all_no_fault.
Qed.

Lemma append_loop_fault f group acc s s' acc' :
  append_loop f group acc s = (s', Ok acc') -> append_loop no_faults group acc s = (s', Ok acc').
Proof.
  revert acc s; induction group as [|r group IH]; intros acc s; cbn [append_loop]; [done|].
  destruct (append_step f r acc s) as [s1 [acc1|e]] eqn:E; [|done]. intros El.
  assert (append_step no_faults r acc s = (s1, Ok acc1)) as ->; [|by apply IH].
  revert E. unfold append_step. cbv zeta. destruct (_ && _)%bool; [done|].
  destruct (checkAppend _ _ _) as [s2 [lo|e]]; [|done].
  destruct (writeAppend f _ _ _ _ _) as [x|] eqn:Ew; [|done]. by rewrite (writeAppend_fault _ _ _ _ _ _ _ Ew).
Qed.

(** A loop that fails has only touched the policy cache. *)
Lemma append_loop_state f group acc s s' r :
  policies_ok (policies s) -> append_loop f group acc s = (s', r) ->
  exists ps, s' = set_policies ps s /\ policies_ok ps.
Proof.
  revert acc s; induction group as [|q group IH]; intros acc s Hok; cbn [append_loop].
  { intros [= <- _]. exists (policies s). by rewrite set_policies_id. }
  unfold append_step. cbv zeta.
  destruct (_ && _)%bool; [apply IH; done|].
  destruct (checkAppend_eq (ar_stream q) (ar_recs q) s Hok) as (ps & -> & Hps).
  destruct (check_ref _ _ _ _) as [lo|e].
  - destruct (writeAppend f _ _ _ _ _) as [[[b off] added]|e].
    + intros E. apply IH in E as (ps' & -> & Hps'); [|done]. by exists ps'.
    + intros [= <- _]. by exists ps.
  - intros E. apply IH in E as (ps' & -> & Hps'); [|done]. by exists ps'.
Qed.

Lemma head_ops_Ok f grown nx live b b' : head_ops f grown nx live b = Ok b' -> b' = b ++ heads grown nx live.
Proof.
  revert b; induction grown as [|g grown IH]; intros b; cbn [head_ops].
  { intros [= <-]. unfold heads; simpl. by rewrite app_nil_r. }
  destruct (setHead f g _ b) as [b1|] eqn:E1; [|done]. apply setHead_Ok in E1 as ->.
  destruct (bset f _ _ _) as [b2|] eqn:E2; [|done]. apply bset_Ok in E2 as ->.
  intros E. apply IH in E as ->. unfold heads. rewrite fmap_cons. cbn [mjoin list_join].
  rewrite <- !app_assoc. done.
Qed.

Lemma head_ops_no_fault grown nx live b : head_ops no_faults grown nx live b = Ok (b ++ heads grown nx live).
Proof.
  destruct (head_ops no_faults grown nx live b) as [b'|e] eqn:E; [by apply head_ops_Ok in E as ->|].
  exfalso. revert b E. induction grown as [|g grown IH]; intros b; simpl; [done|apply IH].
Qed.

(** A batch that commits leaves what its loop says, and one that does not leaves
    the store alone and confirms nothing. *)
Lemma commitAppendBatch_eq f group s s' results :
  policies_ok (policies s) -> nonempty group -> commitAppendBatch f group s = (s', results) ->
  exists ps acc, append_loop no_faults group empty_acc s = (set_policies ps s, Ok acc)
    /\ policies_ok ps /\ AccInv acc (set_policies ps s)
    /\ ((s' = virtual acc (set_policies ps s) /\ results = aa_results acc)
        \/ (exists ps', s' = set_policies ps' s /\ policies_ok ps' /\ Forall (fun r => is_ok r = false) results)).
Proof.
  intros Hok Hne E.
  destruct (append_loop_eq (fun _ => True) group empty_acc s) as (ps & acc & El & Hps & HA & _); try done.
  { apply empty_acc_inv. }
  exists ps, acc. split; [done|]. split; [done|]. split; [done|].
  unfold commitAppendBatch in E. fold empty_acc in E.
  destruct (append_loop f group empty_acc s) as [s1 [acc1|e]] eqn:Ef.
  - apply append_loop_fault in Ef. rewrite El in Ef. injection Ef as <- <-.
    case_bool_decide as Hg.
    { left. injection E as <- <-. by rewrite virtual_not_grown. }
    destruct (head_ops f _ _ _ _) as [b|e] eqn:Eh; [|right].
    + apply head_ops_Ok in Eh as ->. unfold commit in E.
      destruct (apply_fails f); [right|left; by injection E as <- <-].
      injection E as <- <-. exists ps. split; [done|]. split; [done|].
      unfold fail_committed. apply Forall_fmap, Forall_forall. intros [] _; done.
    + injection E as <- <-. exists ps. split; [done|]. split; [done|].
      unfold fail_committed. apply Forall_fmap, Forall_forall. intros [] _; done.
  - right. apply append_loop_state in Ef as (ps1 & -> & Hps1); [|done].
    injection E as <- <-. exists ps1. split; [done|]. split; [done|].
    apply Forall_fmap, Forall_forall. done.
Qed.

Lemma policies_ok_of_inv s : Inv s -> policies_ok (policies s).
Proof. intros HI. exact (ca_policies s (inv_cache s HI)). Qed.

Lemma set_policies_inv ps s : policies_ok ps -> Inv s -> Inv (set_policies ps s).
Proof.
  intros Hps [I1 I2 I3 I3' I4 I5 I6 [C1 C2 C3 C4]]. split; try done.
  intros stream Hs. by destruct (I2 stream Hs).
Qed.

Lemma known_stream s stream : Inv s -> NextOffset s stream <> 0%N -> stream ∈ streams.
Proof.
  intros HI Hk. destruct (decide (stream ∈ streams)); [done|]. by apply (inv_unknown s HI) in n.
Qed.

Lemma commitAppendBatch_inv f group s :
  nonempty group -> Inv s -> Inv (fst (commitAppendBatch f group s)).
Proof.
  intros Hne HI. pose proof (policies_ok_of_inv s HI) as Hok.
  destruct (commitAppendBatch f group s) as [s' results] eqn:E. simpl.
  destruct (commitAppendBatch_eq f group s s' results Hok Hne E) as (ps & acc & El & Hps & HA & Hc).
  destruct Hc as [[-> _]|(ps' & -> & Hps' & _)]; [|by apply set_policies_inv].
  destruct (append_loop_eq Inv group empty_acc s) as (ps2 & acc2 & El2 & _ & _ & HV); try done.
  - intros stream recs v Hv HIv. apply put_records_inv; [by apply (known_stream v)|done].
  - intros. by apply set_policies_inv.
  - apply empty_acc_inv.
  - by rewrite virtual_not_grown by (apply empty_acc_inv || done).
  - rewrite El in El2. injection El2 as E1 <-. rewrite <- E1 in HV. done.
Qed.

(** ** One by one *)

(** The requests, each a commit of its own. *)
Fixpoint append_each (group : list appendRequest) (s : Store) : Store * list (result StoreErr (N * N)) :=
  match group with
  | [] => (s, [])
  | r :: group =>
      let '(s, a) := appendLocked no_faults (ar_stream r) (ar_recs r) s in
      let '(s, rs) := append_each group s in (s, a :: rs)
  end.

(** A store without its policy cache, which no answer depends on. *)
Definition forget (s : Store) : Store := set_policies ∅ s.

Lemma forget_put stream recs s : forget (put_records stream recs s) = put_records stream recs (forget s).
Proof. revert s; induction recs as [|rec recs IH]; intros s; [done|]. apply IH. Qed.

Lemma appendLocked_no_fault r s :
  policies_ok (policies s) -> ar_recs r <> [] ->
  exists ps, policies_ok ps /\
    appendLocked no_faults (ar_stream r) (ar_recs r) s
    = (request_effect r (request_check (db s) s r) (set_policies ps s),
       answer (NextOffset s (ar_stream r)) (ar_recs r) (request_check (db s) s r)).
Proof.
  intros Hok Hne. unfold appendLocked.
  destruct (appendAdvancingLocked no_faults 0 (ar_stream r) (ar_recs r) None s) as [s' a] eqn:E.
  pose proof E as E'. revert E. unfold appendAdvancingLocked. cbv zeta. unfold request_check.
  case_bool_decide as H0.
  { rewrite bool_decide_eq_true_2 by done. intros [= <- <-]. exists (policies s). by rewrite set_policies_id. }
  rewrite bool_decide_eq_false_2 by done.
  destruct (checkAppend_eq (ar_stream r) (ar_recs r) s Hok) as (ps & -> & Hps).
  destruct (check_ref _ _ _ _) as [lo|e] eqn:Ec; [|intros [= <- <-]; by exists ps].
  destruct a as [[first last]|e].
  - intros _. apply appendAdvancingLocked_eq in E' as (ps' & Hps' & lo' & Ec' & _ & -> & Hl & ->); [|done..].
    rewrite Ec in Ec'. injection Ec' as <-. exists ps'. split; [done|]. unfold request_effect, append_outcome, answer.
    f_equal; [by destruct (put_records _ _ _)|]. do 2 f_equal. lia.
  - unfold writeAppend. rewrite write_all_no_fault. done.
Qed.

(** Records a node's own metrics follow: their topic is under the root in force. *)
Definition admitted (r : appendRequest) : Prop :=
  ar_stream r = "metrics" -> Forall (fun rec => HasPrefix (r_Topic rec) (Prefix topic_root) = true) (ar_recs r).

(** No signal is in the batch yet. *)
Definition quiet (acc : AppendAcc) : Prop :=
  forall path node topic, DecidesReplication topic = true ->
    Forall (fun op => touches op (kvKey path node topic) = false) (aa_batch acc).

Lemma kvKey_untouched stream off rec path node topic :
  DecidesReplication topic = true -> (r_KVPath rec != "") && DecidesReplication (r_Topic rec) = false ->
  Forall (fun op => touches op (kvKey path node topic) = false) (record_ops stream off rec).
Proof.
  intros Ht Hr. unfold record_ops. rewrite !Forall_app. repeat split.
  - by apply untouched_record.
  - by apply sig_ops_untouched.
  - by apply target_ops_untouched.
  - unfold kv_ops. cbv zeta. destruct (r_KVPath rec != "") eqn:Ep; [|constructor]. simpl in Hr.
    assert (forall ik, kvIndexKey (r_KVPath rec) (r_KVNode rec) (r_Topic rec) = Some ik -> (ik == kvKey path node topic) = false).
    { intros ik E. apply bool_decide_eq_false_2. intros ->. by apply kvIndexKey_tag in E. }
    assert ((kvKey (r_KVPath rec) (r_KVNode rec) (r_Topic rec) == kvKey path node topic) = false).
    { apply bool_decide_eq_false_2. unfold kvKey. intros [= _ _ E]. congruence. }
    destruct (r_Delete rec), (kvIndexKey _ _ _) as [ik|]; repeat constructor; simpl; auto.
Qed.

Lemma records_ops_quiet stream off recs lo path node topic :
  DecidesReplication topic = true -> writesSignal recs = false ->
  Forall (fun op => touches op (kvKey path node topic) = false) (records_ops stream off (decided recs lo)).
Proof.
  intros Ht. revert off lo; induction recs as [|rec recs IH]; intros off lo Hw; [by destruct lo|].
  unfold writesSignal in Hw. simpl in Hw. apply orb_false_iff in Hw as [Hr Hw].
  destruct lo as [[|l ls]|]; cbn [decided records_ops]; apply Forall_app; (split; [by apply kvKey_untouched|]).
  - replace recs with (decided recs (Some [])) by (by destruct recs). by apply IH.
  - by apply IH.
  - replace recs with (decided recs None) by (by destruct recs). by apply IH.
Qed.

Lemma policy_of_quiet acc s rec :
  ValidRoot topic_root = true -> HasPrefix (r_Topic rec) (Prefix topic_root) = true -> quiet acc ->
  policy_of (db (virtual acc s)) rec = policy_of (db s) rec.
Proof.
  intros Hroot Hp Hq. unfold policy_of. destruct (MetricSignalKey _ _) as [[[path node] topic]|] eqn:E; [|done].
  apply MetricSignalKey_decides in E; [|done..].
  unfold virtual. store_simpl. rewrite lookup_apply_batch, batch_at_app.
  rewrite (batch_at_untouched _ (heads _ _ _)) by (apply heads_untouched; tag_in).
  by rewrite batch_at_untouched by (by apply Hq).
Qed.

Lemma request_check_agree acc s r :
  ValidRoot topic_root = true -> AccInv acc s -> admitted r -> (ar_stream r = "metrics" -> quiet acc) ->
  request_check (db (virtual acc s)) (virtual acc s) r = request_check (db s) s r.
Proof.
  intros Hroot HA Had Hq. unfold request_check.
  rewrite (bool_decide_ext _ _ (virtual_known acc s (ar_stream r) HA)). case_bool_decide; [done|].
  unfold check_ref. change (maxRecordBytes (virtual acc s)) with (maxRecordBytes s).
  destruct (if (0 <? maxRecordBytes s)%N then _ else _); [done|].
  case_bool_decide as Hm; [|done]. cbn [negb]. specialize (Had Hm). specialize (Hq Hm).
  assert (policies_of (db (virtual acc s)) (ar_recs r) = policies_of (db s) (ar_recs r)) as ->; [|done].
  clear Hm. induction (ar_recs r) as [|rec recs IH]; [done|]. apply Forall_cons in Had as [H1 H2].
  cbn [policies_of]. rewrite (policy_of_quiet acc s) by done. by rewrite IH.
Qed.

(** The batch so far stands for the requests committed one by one. *)
Record Sim (acc : AppendAcc) (s v : Store) : Prop := {
  sim_acc : AccInv acc s;
  sim_s : policies_ok (policies s);
  sim_v : policies_ok (policies v);
  sim_eq : forget (virtual acc s) = forget v;
}.

Lemma forget_fields s v : forget s = forget v ->
  db s = db v /\ next s = next v /\ bytes s = bytes v /\ maxRecordBytes s = maxRecordBytes v.
Proof. destruct s, v. unfold forget, set_policies; simpl. by intros [= -> -> -> -> -> -> -> -> -> ->]. Qed.

Lemma sim_step r acc s v :
  ValidRoot topic_root = true -> Sim acc s v -> ar_recs r <> [] -> admitted r ->
  (ar_stream r = "metrics" -> quiet acc) ->
  exists s' acc', append_step no_faults r acc s = (s', Ok acc')
    /\ Sim acc' s' (fst (appendLocked no_faults (ar_stream r) (ar_recs r) v))
    /\ aa_results acc' = aa_results acc ++ [snd (appendLocked no_faults (ar_stream r) (ar_recs r) v)]
    /\ (quiet acc -> writesSignal (ar_recs r) = false -> quiet acc').
Proof.
  intros Hroot [HA Hs Hv Heq] Hne Had Hq.
  destruct (append_step_eq r acc s Hs HA Hne) as (ps & acc' & Es & Hps & HA' & HR & HV & off & HB).
  destruct (appendLocked_no_fault r v Hv Hne) as (ps' & Hps' & ->).
  destruct (forget_fields _ _ Heq) as (Ed & En & _ & Em).
  assert (request_check (db v) v r = request_check (db s) s r) as Erc.
  { rewrite <- (request_check_agree acc s r) by done. unfold request_check, NextOffset. by rewrite Ed, En, Em. }
  exists (set_policies ps s), acc'. split; [done|]. rewrite Erc. split; [|split].
  - split; [done|done| |].
    + simpl. unfold request_effect. destruct (request_check _ _ _); [|done].
      assert (forall st recs u, policies (put_records st recs u) = policies u) as Hpol.
      { intros st recs. induction recs as [|rec recs IH]; intros u; [done|]. apply (IH (put_record st u rec)). }
      by rewrite Hpol.
    + rewrite HV. simpl. unfold request_effect. destruct (request_check _ _ _); [|exact Heq].
      rewrite !forget_put. f_equal. exact Heq.
  - rewrite HR. unfold NextOffset. cbn [snd]. by rewrite En.
  - intros Hqa Hw path node topic Ht. rewrite HB. apply Forall_app. split; [by apply Hqa|].
    destruct (request_check _ _ _); [by apply records_ops_quiet|constructor].
Qed.

Lemma take_batch_sim group signal batch rest acc s v :
  ValidRoot topic_root = true -> take_batch signal group = (batch, rest) ->
  Sim acc s v -> nonempty group -> Forall admitted group -> (signal = false -> quiet acc) ->
  exists s' acc', append_loop no_faults batch acc s = (s', Ok acc')
    /\ Sim acc' s' (fst (append_each batch v))
    /\ aa_results acc' = aa_results acc ++ snd (append_each batch v).
Proof.
  intros Hroot. revert signal batch acc s v.
  induction group as [|r group IH]; intros signal batch acc s v Et HS Hne Had Hq; cbn [take_batch] in Et.
  { injection Et as <- <-. exists s, acc. split; [done|]. split; [done|]. by rewrite app_nil_r. }
  apply Forall_cons in Hne as [Hr Hne]. apply Forall_cons in Had as [Ha Had].
  destruct (negb signal || (ar_stream r != "metrics")) eqn:Ec.
  2: { injection Et as <- <-. exists s, acc. split; [done|]. split; [done|]. by rewrite app_nil_r. }
  destruct (take_batch (signal || writesSignal (ar_recs r)) group) as [batch' rest'] eqn:Et'.
  injection Et as <- <-.
  assert (Hqr : ar_stream r = "metrics" -> quiet acc).
  { intros Hm. rewrite Hm in Ec. destruct signal; [done|]. by apply Hq. }
  destruct (sim_step r acc s v Hroot HS Hr Ha Hqr) as (s1 & acc1 & E1 & HS1 & HR1 & Hq1).
  destruct (IH _ _ acc1 s1 _ Et' HS1 Hne Had) as (s2 & acc2 & E2 & HS2 & HR2).
  { intros [Hsig Hw]%orb_false_iff. apply Hq1; [by apply Hq|done]. }
  exists s2, acc2. cbn [append_loop append_each]. rewrite E1. split; [done|].
  destruct (appendLocked no_faults (ar_stream r) (ar_recs r) v) as [v1 a]. simpl in HS2, HR2, HR1.
  destruct (append_each batch' v1) as [v2 rs]. simpl in *. split; [done|].
  rewrite HR2, HR1, <- app_assoc. done.
Qed.

Lemma take_batch_app signal group batch rest :
  take_batch signal group = (batch, rest) -> group = batch ++ rest.
Proof.
  revert signal batch; induction group as [|r group IH]; intros signal batch; cbn [take_batch].
  { by intros [= <- <-]. }
  destruct (_ || _); [|by intros [= <- <-]].
  destruct (take_batch _ group) as [b' r'] eqn:E. intros [= <- <-]. apply IH in E. by rewrite E.
Qed.

(** Each batch takes a request, so the length of the group is fuel enough. *)
Lemma commitAppends_fuel fuel fs group s : length group <= fuel ->
  commit_appends fuel fs group s = commitAppends fs group s.
Proof.
  unfold commitAppends.
  enough (Hn : forall n m fs group s, length group <= n -> length group <= m ->
            commit_appends n fs group s = commit_appends m fs group s) by (intros; by apply Hn).
  clear. induction n as [|n IH]; intros m fs group s Hn Hm.
  { destruct group; [|simpl in Hn; lia]. by destruct m. }
  destruct m as [|m]; [destruct group; [done|simpl in Hm; lia]|]. cbn [commit_appends]. destruct group as [|r group]; [done|].
  destruct (take_batch false (r :: group)) as [batch rest] eqn:Et. pose proof (take_batch_app _ _ _ _ Et) as Ea.
  assert (Hb : 1 <= length batch).
  { cbn [take_batch negb orb] in Et. destruct (take_batch _ group) as [b' r']. injection Et as <- _. simpl. lia. }
  apply (f_equal length) in Ea. rewrite length_app in Ea. destruct (commitAppendBatch (fs 0) batch s) as [s1 r1].
  rewrite (IH m) by (simpl in *; lia). done.
Qed.

Lemma append_each_app g1 g2 s :
  append_each (g1 ++ g2) s
  = (fst (append_each g2 (fst (append_each g1 s))), snd (append_each g1 s) ++ snd (append_each g2 (fst (append_each g1 s)))).
Proof.
  revert s; induction g1 as [|r g1 IH]; intros s; [cbn [app append_each fst snd]; by destruct (append_each g2 s)|].
  cbn [app append_each]. destruct (appendLocked _ _ _ _) as [s1 a]. rewrite IH.
  by destruct (append_each g1 s1).
Qed.

Lemma commitAppendBatch_sim group batch rest s v :
  ValidRoot topic_root = true -> take_batch false group = (batch, rest) ->
  nonempty group -> Forall admitted group ->
  policies_ok (policies s) -> policies_ok (policies v) -> forget s = forget v ->
  let '(s', rs) := commitAppendBatch no_faults batch s in
  policies_ok (policies s') /\ policies_ok (policies (fst (append_each batch v)))
  /\ forget s' = forget (fst (append_each batch v)) /\ rs = snd (append_each batch v).
Proof.
  intros Hroot Et Hne Had Hs Hv Heq.
  assert (HS : Sim empty_acc s v).
  { split; [apply empty_acc_inv|done|done|]. by rewrite virtual_not_grown by (apply empty_acc_inv || done). }
  destruct (take_batch_sim group false batch rest empty_acc s v Hroot Et HS Hne Had) as (s' & acc' & El & HS' & HR).
  { intros _ path node topic _. constructor. }
  unfold commitAppendBatch. fold empty_acc. rewrite El. destruct HS' as [HA Hs' Hv' Heq'].
  case_bool_decide as Hg.
  { rewrite virtual_not_grown in Heq' by done. done. }
  rewrite head_ops_no_fault. unfold commit; simpl. done.
Qed.

Lemma commit_appends_sim fuel group s v :
  ValidRoot topic_root = true -> length group <= fuel -> nonempty group -> Forall admitted group ->
  policies_ok (policies s) -> policies_ok (policies v) -> forget s = forget v ->
  policies_ok (policies (fst (commit_appends fuel (fun _ => no_faults) group s)))
  /\ policies_ok (policies (fst (append_each group v)))
  /\ forget (fst (commit_appends fuel (fun _ => no_faults) group s)) = forget (fst (append_each group v))
  /\ snd (commit_appends fuel (fun _ => no_faults) group s) = snd (append_each group v).
Proof.
  intros Hroot. revert group s v. induction fuel as [|fuel IH]; intros group s v Hl Hne Had Hs Hv Heq.
  { destruct group; [done|simpl in Hl; lia]. }
  destruct group as [|r group]; [done|]. cbn [commit_appends].
  destruct (take_batch false (r :: group)) as [batch rest] eqn:Et.
  pose proof (commitAppendBatch_sim _ _ _ s v Hroot Et Hne Had Hs Hv Heq) as Hb.
  destruct (commitAppendBatch no_faults batch s) as [s1 r1]. destruct Hb as (Hs1 & Hv1 & Heq1 & ->).
  assert (length rest <= length group).
  { cbn [take_batch] in Et. simpl in Et. destruct (take_batch (writesSignal (ar_recs r)) group) as [b' r'] eqn:Et'.
    injection Et as <- <-. apply take_batch_app in Et' as ->. rewrite length_app. lia. }
  apply take_batch_app in Et. rewrite Et in Hne, Had |- *.
  unfold nonempty in Hne. rewrite Forall_app in Hne, Had.
  destruct (IH rest s1 (fst (append_each batch v))) as (P1 & P2 & E1 & E2); try done; [simpl in Hl; lia|apply Hne|apply Had|].
  rewrite append_each_app.
  destruct (commit_appends fuel (fun _ => no_faults) rest s1) as [s2 r2]. simpl in *.
  by rewrite E1, E2.
Qed.

(** ** Theorems *)

(** C10: Group commit is invisible: when the disk does not fail, a group of appends
    committed in as few synced batches as [commitAppends] chooses leaves the same
    store (streams, indexes, current state, heads and byte counters) and gives
    every caller the same offsets or error as committing the requests one at a
    time in queue order. A metric behind a signal in the queue is decided by that
    signal either way. *)
Theorem commitAppends_sequential group s :
  ValidRoot topic_root = true -> Inv s -> nonempty group -> Forall admitted group ->
  forget (fst (commitAppends (fun _ => no_faults) group s)) = forget (fst (append_each group s))
  /\ snd (commitAppends (fun _ => no_faults) group s) = snd (append_each group s).
Proof.
  intros Hroot HI Hne Had. pose proof (policies_ok_of_inv s HI). by apply (commit_appends_sim (length group) group s s).
Qed.

(** A group commits as a whole or not at all: whatever write into the batch
    fails, or if the synced apply does, either the batch has the outcome it has
    without faults, or no stream, index, current-state entry, head or byte count
    changed and no caller of the group is told its records are stored. *)
Theorem commitAppendBatch_all_or_nothing f group s s' results :
  Inv s -> nonempty group -> commitAppendBatch f group s = (s', results) ->
  commitAppendBatch no_faults group s = (s', results)
  \/ (forget s' = forget s /\ Forall (fun r => is_ok r = false) results).
Proof.
  intros HI Hne E. pose proof (policies_ok_of_inv s HI) as Hok.
  destruct (commitAppendBatch_eq f group s s' results Hok Hne E) as (ps & acc & El & Hps & HA & Hc).
  destruct Hc as [[-> ->]|(ps' & -> & _ & Hf)]; [left|by right].
  unfold commitAppendBatch. fold empty_acc. rewrite El. case_bool_decide as Hg.
  - by rewrite virtual_not_grown.
  - by rewrite head_ops_no_fault.
Qed.

Lemma appendLocked_inv f now stream recs adv s :
  recs <> [] -> Inv s -> Inv (fst (appendAdvancingLocked f now stream recs adv s)).
Proof.
  intros Hne HI. destruct (appendAdvancingLocked f now stream recs adv s) as [s' r] eqn:E. simpl.
  apply appendAdvancingLocked_eq in E as (ps & Hps & Hr); [|by apply policies_ok_of_inv|done].
  destruct r as [[first last]|e]; [|subst; by apply set_policies_inv].
  destruct Hr as (lo & _ & Hk & _ & _ & ->). unfold append_outcome.
  set (s1 := put_records stream (decided recs lo) (set_policies ps s)).
  assert (HI1 : Inv s1).
  { apply put_records_inv; [by apply (known_stream s)|by apply set_policies_inv]. }
  apply (Inv_frame s1); try done. store_simpl. intros k Hk'. rewrite lookup_apply_batch.
  apply batch_at_untouched. destruct adv as [adv|]; simpl; [|constructor].
  repeat constructor; apply bool_decide_eq_false_2; intros <-; revert Hk'; tag_in.
Qed.

(** Storing what was read elsewhere and recording how far it was read are one
    step: an [AppendAdvancing] that succeeds wrote its records and put the cursor
    exactly at its target, and repeating it, with whatever records and after
    whatever the disk does, changes nothing; one that is skipped found the cursor
    there already; one that fails moved neither. So a command handed down twice is
    stored once. *)
Theorem AppendAdvancing_once f now stream recs adv s s' r :
  Inv s -> AppendAdvancing f now stream recs adv s = (s', r) ->
  let pos d := readU64 d (cursorKey (ca_Name adv) (ca_Stream adv)) 1 in
  match r with
  | Ok (Some (first, last)) =>
      (pos (db s) < ca_To adv)%N /\ pos (db s') = ca_To adv
      /\ first = NextOffset s stream /\ NextOffset s' stream = (last + 1)%N
      /\ (last + 1 = first + N.of_nat (length recs))%N
      /\ forall f' now' stream' recs', AppendAdvancing f' now' stream' recs' adv s' = (s', Ok None)
  | Ok None => s' = s /\ (recs = [] \/ (ca_To adv <= pos (db s))%N)
  | Err _ => forget s' = forget s
  end.
Proof.
  intros HI. unfold AppendAdvancing. cbv zeta.
  case_bool_decide as Hne; [intros [= <- <-]; auto|].
  destruct (N.leb_spec (ca_To adv) (readU64 (db s) (cursorKey (ca_Name adv) (ca_Stream adv)) 1)) as [Hle|Hlt];
    [intros [= <- <-]; auto|].
  destruct (appendAdvancingLocked f now stream recs (Some adv) s) as [s1 [[first last]|e]] eqn:E;
    intros [= <- <-]; apply appendAdvancingLocked_eq in E as (ps & Hps & Hr); try done; try (by apply policies_ok_of_inv);
    [|by subst].
  destruct Hr as (lo & _ & Hk & -> & Hl & ->).
  set (s2 := put_records stream (decided recs lo) (set_policies ps s)).
  assert (readU64 (db (append_outcome now stream recs lo (Some adv) (set_policies ps s)))
            (cursorKey (ca_Name adv) (ca_Stream adv)) 1 = ca_To adv) as Hpos.
  { unfold append_outcome, readU64. store_simpl. rewrite lookup_apply_batch. unfold batch_at, advance_batch; simpl.
    by repeat case_decide. }
  split; [done|]. split; [done|]. split; [done|]. split; [|split; [done|]].
  - unfold append_outcome, NextOffset. store_simpl. destruct recs as [|rec recs]; [done|].
    destruct (decided (rec :: recs) lo) as [|rec' recs'] eqn:Ed.
    { apply (f_equal length) in Ed. by rewrite length_decided in Ed. }
    rewrite put_records_eq. cbv zeta. store_simpl. rewrite at_insert_eq, <- Ed, length_decided, Hl. done.
  - intros f' now' stream' recs'. case_bool_decide; [done|]. rewrite Hpos.
    by rewrite (proj2 (N.leb_le _ _)) by lia.
Qed.

(** What the last writer of a current-state key leaves there. *)
Lemma kvEntry_put_last stream l1 rec l2 s path node topic :
  r_KVPath rec <> "" -> path = r_KVPath rec -> node = r_KVNode rec -> topic = r_Topic rec ->
  Forall (fun q => (r_KVPath q, r_KVNode q, r_Topic q) <> (path, node, topic)) l2 ->
  kvEntry (db (put_records stream (l1 ++ rec :: l2) s)) path node topic
  = if r_Delete rec then None else Some (encode_kv (NextOffset (put_records stream l1 s) stream) rec).
Proof.
  intros Hp -> -> -> Hl2. unfold put_records. rewrite foldl_app. fold (put_records stream l1 s).
  cbn [foldl]. set (s1 := put_records stream l1 s). unfold kvEntry.
  assert (H1 : db (put_record stream s1 rec) !! kvKey (r_KVPath rec) (r_KVNode rec) (r_Topic rec)
    = if r_Delete rec then None else Some (VKV (encode_kv (NextOffset s1 stream) rec))).
  { rewrite (lookup_put stream s1 rec) by tag_in. rewrite record_ops_kv. by rewrite decide_True. }
  revert H1. generalize (put_record stream s1 rec) as s2. intros s2 H2.
  assert (H3 : db (foldl (put_record stream) s2 l2) !! kvKey (r_KVPath rec) (r_KVNode rec) (r_Topic rec)
    = db s2 !! kvKey (r_KVPath rec) (r_KVNode rec) (r_Topic rec)).
  { clear H2. revert s2; induction l2 as [|q l2 IH]; intros s2; [done|]. apply Forall_cons in Hl2 as [Hq Hl2].
    cbn [foldl]. rewrite IH by done. rewrite (lookup_put stream s2 q) by tag_in. rewrite record_ops_kv.
    rewrite decide_False; [done|]. intros (_ & E1 & E2 & E3). apply Hq. congruence. }
  rewrite H3, H2. by destruct (r_Delete rec).
Qed.

Lemma decided_one rec lo : exists l, decided [rec] lo = [with_local_only l rec].
Proof. destruct lo as [[|l ls]|]; [|by exists l|]; exists (r_SourceLocalOnly rec); by destruct rec. Qed.

(** A refresh is a compare-and-swap: it writes only if the entry still stands at
    the offset its snapshot was taken at, and then the entry stands at the new
    offset with the refreshed payload and the origin offset it had, so no ancestor
    takes the restatement for a new version; an entry that was retired or
    superseded meanwhile is left exactly as it is, and a failure changes nothing. *)
Theorem AppendIfKVUnchanged_cas f stream rec expected s s' r :
  Inv s -> AppendIfKVUnchanged f stream rec expected s = (s', r) ->
  let entry d := kvEntry d (r_KVPath rec) (r_KVNode rec) (r_Topic rec) in
  match r with
  | Ok (Some off) =>
      exists e, entry (db s) = Some e /\ k_Offset e = expected /\ off = NextOffset s stream
        /\ if r_Delete rec then entry (db s') = None
           else exists e', entry (db s') = Some e' /\ k_Offset e' = off /\ k_Payload e' = r_Payload rec
                           /\ k_OriginOffset e' = k_OriginOffset e
  | Ok None => s' = s /\ forall e, entry (db s) = Some e -> k_Offset e <> expected
  | Err _ => forget s' = forget s
  end.
Proof.
  intros HI. unfold AppendIfKVUnchanged, kvOffsets. cbv zeta.
  case_bool_decide as Hp; [by intros [= <- <-]|].
  destruct (kvEntry (db s) (r_KVPath rec) (r_KVNode rec) (r_Topic rec)) as [e|] eqn:Ee; [|by intros [= <- <-]].
  case_bool_decide as Ho; cbn [negb]; [|intros [= <- <-]; split; [done|intros ? [= <-]; done]].
  destruct (appendLocked f stream _ s) as [s1 [[first last]|er]] eqn:E; intros [= <- <-];
    apply appendAdvancingLocked_eq in E as (ps & Hps & Hr); try done; try (by apply policies_ok_of_inv); [|by subst].
  destruct Hr as (lo & _ & _ & -> & _ & ->). exists e. split; [done|]. split; [done|]. split; [done|].
  assert (Horig : k_OriginOffset e <> 0%N).
  { unfold kvEntry in Ee. destruct (db s !! _) as [v|] eqn:Ev; [|done]. destruct v; try done. injection Ee as ->.
    by destruct (kv_entries _ _ (inv_kv s HI) _ _ _ _ Ev) as (? & [= <-] & _ & ? & _). }
  set (rec' := with_origin (originOffset (k_OriginOffset e) (k_Offset e)) rec).
  destruct (decided_one rec' lo) as [l Hl].
  assert (kvEntry (db (append_outcome 0 stream [rec'] lo None (set_policies ps s)))
            (r_KVPath rec) (r_KVNode rec) (r_Topic rec)
          = if r_Delete rec then None else Some (encode_kv (NextOffset s stream) (with_local_only l rec'))) as ->.
  { unfold append_outcome. store_simpl. rewrite Hl.
    exact (kvEntry_put_last stream [] (with_local_only l rec') [] (set_policies ps s) _ _ _ Hp eq_refl eq_refl eq_refl ltac:(constructor)). }
  destruct (r_Delete rec); [done|]. eexists. split; [done|]. split; [done|]. split; [done|].
  unfold rec', encode_kv, with_local_only, with_origin, originOffset; simpl.
  rewrite (bool_decide_eq_false_2 (k_OriginOffset e = 0%N)) by done. simpl.
  by rewrite bool_decide_eq_false_2.
Qed.

(** ** Moving retained records *)

(** A current-state position: path, node and topic. *)
Abbreviation position := (string * string * string)%type.
Definition rec_position (rec : Rec) : position := (r_KVPath rec, r_KVNode rec, r_Topic rec).
Definition from_position (m : RetainedMove) : position := (mv_FromPath m, mv_Node m, mv_FromTopic m).
Definition to_position (m : RetainedMove) : position := (mv_ToPath m, mv_Node m, mv_ToTopic m).

(** What a reader of a position sees: value, timestamp and attribution. *)
Definition kv_view (d : DB) (pos : position) : option (string * Z * list string) :=
  let '(path, node, topic) := pos in
  match kvEntry d path node topic with
  | Some e => Some (k_Payload e, k_TS e, [k_WrittenBy e; k_ActorID e; k_ActorLabel e; k_ActorKind e])
  | None => None
  end.

Definition kv_step (pos : position) (o : option (string * Z * list string)) (rec : Rec) : option (string * Z * list string) :=
  if decide (r_KVPath rec <> "" /\ pos = rec_position rec)
  then if r_Delete rec then None
       else Some (r_Payload rec, r_TS rec, [r_WrittenBy rec; r_ActorID rec; r_ActorLabel rec; r_ActorKind rec])
  else o.

Lemma kv_view_put stream s rec pos : kv_view (db (put_record stream s rec)) pos = kv_step pos (kv_view (db s) pos) rec.
Proof.
  destruct pos as [[path node] topic]. unfold kv_view, kv_step, kvEntry, rec_position.
  rewrite (lookup_put stream s rec) by tag_in. rewrite record_ops_kv.
  repeat case_decide; try naive_solver. by destruct (r_Delete rec).
Qed.

Lemma kv_view_decided stream recs lo s pos :
  kv_view (db (put_records stream (decided recs lo) s)) pos = foldl (kv_step pos) (kv_view (db s) pos) recs.
Proof.
  revert lo s; induction recs as [|rec recs IH]; intros lo s; [by destruct lo|].
  assert (forall u, kv_view (db (put_records stream (rec :: recs) u)) pos = foldl (kv_step pos) (kv_view (db u) pos) (rec :: recs)) as Hid.
  { intros u. specialize (IH None). assert (decided recs None = recs) as E by (by destruct recs). rewrite E in IH.
    unfold put_records. cbn [foldl]. fold (put_records stream recs (put_record stream u rec)).
    by rewrite IH, kv_view_put. }
  destruct lo as [[|l ls]|]; [apply Hid| |apply Hid].
  cbn [decided]. unfold put_records. cbn [foldl]. fold (put_records stream (decided recs (Some ls)) (put_record stream s (with_local_only l rec))).
  rewrite IH, kv_view_put. done.
Qed.

Lemma kv_steps_other pos o recs :
  Forall (fun rec => rec_position rec <> pos) recs -> foldl (kv_step pos) o recs = o.
Proof.
  revert o; induction recs as [|rec recs IH]; intros o Hf; [done|]. apply Forall_cons in Hf as [Hr Hf].
  cbn [foldl]. unfold kv_step at 2. rewrite decide_False by naive_solver. by apply IH.
Qed.

Definition move_positions (m : RetainedMove) : list position := [from_position m; to_position m].

Lemma move_records_positions d by_ moves pos :
  pos ∉ mjoin (move_positions <$> moves) ->
  Forall (fun rec => rec_position rec <> pos) (mjoin (move_records d by_ <$> moves)).
Proof.
  induction moves as [|m moves IH]; intros Hp; [constructor|].
  rewrite fmap_cons in Hp. rewrite fmap_cons. cbn [mjoin list_join] in Hp |- *.
  rewrite elem_of_app in Hp. apply Forall_app. split; [|apply IH; tauto].
  assert (from_position m <> pos /\ to_position m <> pos) as [Hf Ht].
  { split; intros <-; apply Hp; left; unfold move_positions; set_solver. }
  unfold move_records. destruct (kvEntry d _ _ _); [|constructor].
  destruct (kvEntry d (mv_ToPath m) _ _); repeat constructor; done.
Qed.

(** [MoveRetained] moves each record that exists, completely and without loss:
    when it succeeds on moves of pairwise different positions, every source that
    held a record is retired, its destination shows the same value, timestamp and
    attribution unless something already stood there, which is then kept, and a
    move whose source held nothing changes neither end; when it fails, nothing
    changed. *)
Theorem MoveRetained_moves f stream moves by_ s s' r :
  Inv s -> Forall (fun m => mv_FromPath m <> "" /\ mv_ToPath m <> "") moves ->
  NoDup (mjoin (move_positions <$> moves)) ->
  MoveRetained f stream moves by_ s = (s', r) ->
  match r with
  | Err _ => forget s' = forget s
  | Ok _ => forall m, m ∈ moves ->
      kv_view (db s') (from_position m) = None
      /\ kv_view (db s') (to_position m)
         = match kv_view (db s) (to_position m) with
           | Some held => Some held
           | None => kv_view (db s) (from_position m)
           end
  end.
Proof.
  intros HI Hpaths Hnd. unfold MoveRetained. cbv zeta.
  set (written := mjoin (move_records (db s) by_ <$> moves)).
  assert (Hfold : forall m, m ∈ moves ->
    foldl (kv_step (from_position m)) (kv_view (db s) (from_position m)) written = None
    /\ foldl (kv_step (to_position m)) (kv_view (db s) (to_position m)) written
       = match kv_view (db s) (to_position m) with Some held => Some held | None => kv_view (db s) (from_position m) end).
  { intros m Hm. apply list_elem_of_split in Hm as (m1 & m2 & ->).
    apply Forall_app in Hpaths as [_ [[Hfp Htp] _]%Forall_cons].
    rewrite fmap_app, fmap_cons, join_app in Hnd. cbn [mjoin list_join] in Hnd.
    apply NoDup_app in Hnd as (_ & Hd1 & Hnd). apply NoDup_app in Hnd as (Hmm & Hd2 & _).
    unfold written. rewrite fmap_app, fmap_cons, join_app. cbn [mjoin list_join].
    assert (Hout : forall pos, pos ∈ move_positions m ->
      Forall (fun rec => rec_position rec <> pos) (mjoin (move_records (db s) by_ <$> m1))
      /\ Forall (fun rec => rec_position rec <> pos) (mjoin (move_records (db s) by_ <$> m2))).
    { intros pos Hpos. split; apply move_records_positions; [|by apply Hd2].
      intros Hin. apply (Hd1 _ Hin). apply elem_of_app. by left. }
    assert (Hne : from_position m <> to_position m).
    { intros E. unfold move_positions in Hmm. rewrite E in Hmm. apply NoDup_cons in Hmm as [Hn _]. apply Hn. by left. }
    destruct (Hout (from_position m) ltac:(by left)) as [F1 F2].
    destruct (Hout (to_position m) ltac:(right; by left)) as [T1 T2].
    rewrite !foldl_app, !(kv_steps_other _ _ _ F1), !(kv_steps_other _ _ _ T1), !(kv_steps_other _ _ _ F2), !(kv_steps_other _ _ _ T2).
    unfold kv_view, from_position, to_position, move_records in *.
    destruct (kvEntry (db s) (mv_FromPath m) (mv_Node m) (mv_FromTopic m)) as [held|] eqn:Ef;
      destruct (kvEntry (db s) (mv_ToPath m) (mv_Node m) (mv_ToTopic m)) as [taken|] eqn:Et;
      unfold kv_step, rec_position; simpl; repeat case_decide; naive_solver. }
  case_bool_decide as Hw.
  { intros [= <- <-] m Hm. specialize (Hfold m Hm). rewrite Hw in Hfold. exact Hfold. }
  destruct (appendLocked f stream written s) as [s1 [[first last]|e]] eqn:E; intros [= <- <-];
    apply appendAdvancingLocked_eq in E as (ps & Hps & Hr); try done; try (by apply policies_ok_of_inv); [|by subst].
  destruct Hr as (lo & _ & _ & _ & _ & ->). intros m Hm. unfold append_outcome. store_simpl.
  change (apply_batch (advance_batch 0 None) ?d) with d. rewrite !kv_view_decided. by apply Hfold.
Qed.

End group.

(** ** Examples *)

Section examples.
#[local] Existing Instance demo_codec.

Definition demo_signal : Rec := demo_rec "colca/v1/_Signal/n/a" "source_local_only" "a" "n" false.
Definition demo_metric : Rec := demo_rec "colca/v1/_Metric/n/a" "sig" "a" "n" false.

(** A signal, then a metric that it decides, then a refused request. *)
Definition demo_group : list appendRequest :=
  [mkAppendRequest "entities" [demo_signal]; mkAppendRequest "metrics" [demo_metric]; mkAppendRequest "none" [demo_metric]].

Lemma commitAppends_sequential_witness :
  snd (commitAppends (fun _ => no_faults) demo_group demo_store) = snd (append_each demo_group demo_store)
  /\ snd (append_each demo_group demo_store) = [Ok (1, 1); Ok (1, 1); Err (EUnknownStream "none")]%N
  /\ (e_SourceLocalOnly <$> record_at (db (fst (commitAppends (fun _ => no_faults) demo_group demo_store))) "metrics" 1) = Some true.
Proof.
  split; [|split; vm_compute; reflexivity].
  apply (commitAppends_sequential demo_group demo_store); [reflexivity | exact demo_store_inv | |].
  - repeat constructor; discriminate.
  - repeat constructor; intros E; try discriminate E; repeat constructor.
Defined.

Definition demo_faults : Faults := mkFaults (fun _ => false) true.

Lemma commitAppendBatch_all_or_nothing_witness :
  commitAppendBatch no_faults demo_group demo_store = commitAppendBatch demo_faults demo_group demo_store
  \/ forget (fst (commitAppendBatch demo_faults demo_group demo_store)) = forget demo_store
     /\ Forall (fun r => is_ok r = false) (snd (commitAppendBatch demo_faults demo_group demo_store)).
Proof.
  destruct (commitAppendBatch demo_faults demo_group demo_store) as [s' rs] eqn:E.
  apply (commitAppendBatch_all_or_nothing demo_faults demo_group demo_store s' rs demo_store_inv); [|exact E].
  repeat constructor; discriminate.
Defined.

Definition demo_advance : CursorAdvance := mkCursorAdvance "down:parent" "commands" 5.

Lemma AppendAdvancing_once_witness :
  let s' := fst (AppendAdvancing no_faults 9 "commands" [demo_metric] demo_advance demo_store) in
  AppendAdvancing no_faults 10 "commands" [demo_metric] demo_advance s' = (s', Ok None).
Proof.
  destruct (AppendAdvancing no_faults 9 "commands" [demo_metric] demo_advance demo_store) as [s' r] eqn:E.
  assert (r = Ok (Some (1, 1)%N)) as -> by (apply (f_equal snd) in E; vm_compute in E; by subst r).
  exact (proj2 (proj2 (proj2 (proj2 (proj2 (AppendAdvancing_once _ _ _ _ _ demo_store s' _ demo_store_inv E)))))
           no_faults 10%N "commands" [demo_metric]).
Defined.

Lemma AppendIfKVUnchanged_cas_witness :
  fst (AppendIfKVUnchanged no_faults "entities" demo_signal 4 demo_store) = demo_store
  /\ forall e, kvEntry (db demo_store) "a" "n" "colca/v1/_Signal/n/a" = Some e -> k_Offset e <> 4%N.
Proof.
  exact (AppendIfKVUnchanged_cas no_faults "entities" demo_signal 4 demo_store demo_store (Ok None)
           demo_store_inv ltac:(vm_compute; reflexivity)).
Defined.

Definition demo_move : RetainedMove := mkRetainedMove "n" "a" "colca/v1/_Signal/n/a" "b" "colca/v1/_Signal/n/b".

Lemma demo_signal_inv : Inv (put_record "entities" demo_store demo_signal).
Proof. apply put_record_inv; [tag_in | exact demo_store_inv]. Qed.

Lemma MoveRetained_moves_witness :
  let s := put_record "entities" demo_store demo_signal in
  let s' := fst (MoveRetained no_faults "entities" [demo_move] demo_signal s) in
  kv_view (db s') (from_position demo_move) = None
  /\ kv_view (db s') (to_position demo_move) = kv_view (db s) (from_position demo_move).
Proof.
  set (s := put_record "entities" demo_store demo_signal). cbv zeta.
  destruct (MoveRetained no_faults "entities" [demo_move] demo_signal s) as [s' r] eqn:E.
  assert (Hr : match r with Ok _ => True | Err _ => False end).
  { apply (f_equal snd) in E. vm_compute in E. subst r. exact I. }
  pose proof (MoveRetained_moves no_faults "entities" [demo_move] demo_signal s s' r demo_signal_inv
    ltac:(repeat constructor; discriminate) ltac:(apply (bool_decide_unpack _); vm_compute; exact I) E) as Hm.
  destruct r; [|destruct Hr]. exact (Hm demo_move ltac:(by left)).
Defined.

End examples.
