(* ===== verification/StoreQueue.v ===== *)
(** * Concurrent appends

    [Append] of [store.go] is [groupQueue.run] with [commitAppends]: the queue of
    [GroupQueue] over the group commit of [StoreAppend]. Together they make
    concurrent appends linearizable: whatever the interleaving of the callers, the
    store and every answer are those of the appends one at a time, in the order the
    requests entered the queue. *)

From S2P Require Export GroupQueue StoreGroup.

Open Scope string_scope.
Open Scope list_scope.
Open Scope go_scope.

Section appends.
Context `{Codec}.
(** The callers, each with the request it makes. *)
Context {R : Type} `{EqDecision R} (request : R -> appendRequest).

(** [records] of an [appendRequest]. *)
Definition append_records (r : R) : nat := length (ar_recs (request r)).

(** [commitAppends] as the queue runs it: the store, and the answers it writes into
    the requests. *)
Definition append_commit (group : list R) (st : Store * list (R * result StoreErr (N * N)))
    : Store * list (R * result StoreErr (N * N)) :=
  let '(s, answers) := st in
  let '(s, rs) := commitAppends (fun _ => no_faults) (request <$> group) s in
  (s, answers ++ zip group rs).

(** Callers of [Append]. *)
Definition appending (callers : list R) : Queue -> Queue -> Prop := GroupQueue.step append_records append_commit callers.

(** Requests that reach the queue: [Append] answers an empty one itself. *)
Definition append_callers (callers : list R) : Prop :=
  NoDup callers /\ nonempty (request <$> callers) /\ Forall admitted (request <$> callers).

Lemma append_each_length group s : length (snd (append_each group s)) = length group.
Proof.
  revert s; induction group as [|r group IH]; intros s; [done|]. cbn [append_each].
  destruct (appendLocked _ _ _ _) as [s1 a]. specialize (IH s1). destruct (append_each group s1). simpl in *. lia.
Qed.

Lemma append_commits groups s v answers :
  ValidRoot topic_root = true -> nonempty (request <$> concat groups) -> Forall admitted (request <$> concat groups) ->
  policies_ok (policies s) -> policies_ok (policies v) -> forget s = forget v ->
  let '(s', answers') := fold_left (fun st group => append_commit group st) groups (s, answers) in
  forget s' = forget (fst (append_each (request <$> concat groups) v))
  /\ answers' = answers ++ zip (concat groups) (snd (append_each (request <$> concat groups) v)).
Proof.
  intros Hroot. revert s v answers. induction groups as [|g groups IH]; intros s v answers Hne Had Hs Hv Heq.
  { simpl. by rewrite app_nil_r. }
  cbn [concat fold_left] in *. unfold nonempty in *. rewrite fmap_app, Forall_app in *.
  destruct Hne as [Hne1 Hne2], Had as [Had1 Had2].
  destruct (commit_appends_sim (length (request <$> g)) (request <$> g) s v) as (P1 & P2 & E1 & E2); try done.
  unfold append_commit at 2, commitAppends. destruct (commit_appends _ _ _ s) as [s1 r1]. simpl in P1, E1, E2.
  specialize (IH s1 (fst (append_each (request <$> g) v)) (answers ++ zip g r1) Hne2 Had2 P1 P2 E1).
  destruct (fold_left _ groups _) as [s' answers']. destruct IH as [F1 F2]. rewrite append_each_app. simpl.
  split; [done|]. rewrite F2, E2, <- app_assoc. f_equal. symmetry. apply zip_with_app. by rewrite append_each_length, length_fmap.
Qed.

(** C27: Concurrent appends are linearizable: at any moment of any interleaving of the
    callers, the store and the answers written so far are those of appending the
    committed requests one at a time in the order they entered the queue, and a
    caller that has returned has its answer there. *)
Theorem concurrent_appends callers s q :
  ValidRoot topic_root = true -> Inv s -> append_callers callers ->
  rtc (appending callers) (newQueue (s, [])) q ->
  let each := append_each (request <$> committed q) s in
  committed q `prefix_of` arrived q
  /\ forget (fst (written q)) = forget (fst each)
  /\ snd (written q) = zip (committed q) (snd each)
  /\ forall r, pcs q r = Returned -> exists answer, (r, answer) ∈ snd (written q).
Proof.
  intros Hroot HI (Hnd & Hne & Had) Hr each.
  destruct (inv_reachable append_records append_commit callers _ _ Hnd Hr) as [b HQ].
  destruct (winv_reachable append_records append_commit callers _ _ Hnd Hr) as (HW & _ & _).
  assert (Hsub : committed q ⊆ callers) by (intros x Hx; by apply (q_callers _ _ _ _ HQ), (committed_arrived _ _ _ _ _ HQ)).
  assert (HF : forall P, Forall P (request <$> callers) -> Forall P (request <$> committed q)).
  { intros P HP. rewrite Forall_fmap, Forall_forall in *. auto. }
  pose proof (policies_ok_of_inv s HI) as Hp.
  pose proof (append_commits (commits q) s s [] Hroot (HF _ Hne) (HF _ Had) Hp Hp eq_refl) as Hc.
  rewrite <- HW in Hc. destruct (written q) as [s' answers]. destruct Hc as [E1 E2]. simpl in E2 |- *. unfold each, committed.
  split_and!; [rewrite (q_order _ _ _ _ HQ); by eexists|done|done|].
  intros r E. assert (Hrc : r ∈ committed q) by (apply (q_finished _ _ _ _ HQ), (q_answered _ _ _ _ HQ); by rewrite E).
  apply list_elem_of_lookup in Hrc as [i Hi]. rewrite E2.
  destruct (lookup_lt_is_Some_2 (snd (append_each (request <$> committed q) s)) i) as [a Ha].
  { rewrite append_each_length, length_fmap. by apply lookup_lt_Some in Hi. }
  exists a. apply list_elem_of_lookup. exists i. apply lookup_zip_with_Some. by exists r, a.
Qed.
End appends.

(** ** Examples *)

Section examples.
#[local] Existing Instance demo_codec.

(** Two callers, a signal and a metric it decides: the second enters the queue while
    the first leads. *)
Definition demo_request (r : bool) : appendRequest :=
  if r then mkAppendRequest "entities" [demo_signal] else mkAppendRequest "metrics" [demo_metric].

Definition demo_appends : Queue :=
  default (newQueue (demo_store, []))
    (exec (append_records demo_request) (append_commit demo_request)
       [true; true; false; false; true; true; true; true; true; true; true; true; true; false; false] (newQueue (demo_store, []))).

Lemma concurrent_appends_witness :
  snd (written demo_appends) = [(true, Ok (1, 1)); (false, Ok (1, 1))]%N
  /\ committed demo_appends = [true; false]
  /\ snd (written demo_appends) = zip (committed demo_appends) (snd (append_each (demo_request <$> committed demo_appends) demo_store)).
Proof.
  split_and!; [vm_compute; reflexivity..|].
  refine (proj1 (proj2 (proj2 (concurrent_appends demo_request [true; false] demo_store demo_appends _ _ _ _)))).
  - reflexivity.
  - exact demo_store_inv.
  - split_and!; [by apply (bool_decide_unpack _)|repeat constructor; discriminate|].
    repeat constructor; intros E; try discriminate E; repeat constructor.
  - eapply rtc_nsteps_2, (exec_nsteps _ _ [true; false] [true; true; false; false; true; true; true; true; true; true; true; true; true; false; false]).
    + repeat constructor; set_solver.
    + unfold demo_appends. match goal with |- ?x = _ => assert (Hs : match x with Some _ => true | None => false end = true) by (vm_compute; reflexivity) end.
      by destruct (exec _ _ _ _).
Defined.
End examples.
