(* ===== verification/StoreRepl.v ===== *)
(** * The store: replicated records

    [ApplyReplicated] and its group commit ([replgroup.go]), the high-water marks
    ([HWMGet] and its cache) and [AdoptChildStore] ([store.go]). A mark is the
    highest offset of a child's stream this store has applied; records at or
    below it are dropped as replays. *)

From S2P Require Export StoreGroup.

Open Scope string_scope.
Open Scope list_scope.
Open Scope go_scope.

(** ** Definitions *)

Record ReplRecord := mkReplRecord {
  rp_SkipFrom : N;
  rp_ChildOffset : N;
  rp_OriginOffset : N;
  rp_Topic : string;
  rp_Payload : string;
  rp_TS : Z;
  rp_WrittenBy : string;
  rp_ActorID : string;
  rp_ActorLabel : string;
  rp_ActorKind : string;
  rp_ActorGroups : list string;
  rp_ActorClient : string;
  rp_ActorEmail : string;
  rp_ActorClasses : list string;
  rp_ActorCredential : string;
  rp_KVPath : string;
  rp_KVNode : string;
  rp_Delete : bool;
}.

Record replRequest := mkReplRequest { rq_child : string; rq_stream : string; rq_recs : list ReplRecord }.

(** What [ApplyReplicated] returns. *)
Record ReplResult := mkReplResult { rr_applied : list ReplRecord; rr_hwm : N; rr_err : option StoreErr }.

(** [HWMGet]: from memory, or read once and kept. *)
Definition HWMGet (child stream : string) (s : Store) : Store * N :=
  match hwms s !! (child, stream) with
  | Some n => (s, n)
  | None => let n := readU64 (db s) (hwmKey child stream) 0 in
            (set_hwms (<[(child, stream) := n]> (hwms s)) s, n)
  end.

(** [hwmsCommitted]: the marks of a committed batch. *)
Definition hwmsCommitted (marks : gmap (string * string) N) (s : Store) : Store :=
  set_hwms (marks ∪ hwms s) s.

(** [hwmsDropped]: a child's marks are forgotten. *)
Definition hwmsDropped (child : string) (s : Store) : Store :=
  set_hwms (filter (fun kv => fst (fst kv) <> child) (hwms s)) s.

Section repl.
Context `{Codec}.

(** A record of a child that predates origin offsets: its own offset is the
    owner's. *)
Definition with_child_origin (rec : ReplRecord) : ReplRecord :=
  if rp_OriginOffset rec == 0%N then
    mkReplRecord (rp_SkipFrom rec) (rp_ChildOffset rec) (rp_ChildOffset rec) (rp_Topic rec) (rp_Payload rec)
      (rp_TS rec) (rp_WrittenBy rec) (rp_ActorID rec) (rp_ActorLabel rec) (rp_ActorKind rec) (rp_ActorGroups rec)
      (rp_ActorClient rec) (rp_ActorEmail rec) (rp_ActorClasses rec) (rp_ActorCredential rec) (rp_KVPath rec)
      (rp_KVNode rec) (rp_Delete rec)
  else rec.

(** The record [buildReplicated] stores. *)
Definition to_rec (rec : ReplRecord) : Rec :=
  mkRec false (rp_Topic rec) (rp_Payload rec) (rp_TS rec) (rp_WrittenBy rec) (rp_OriginOffset rec)
    (rp_ActorID rec) (rp_ActorLabel rec) (rp_ActorKind rec) (rp_ActorGroups rec) (rp_ActorClient rec)
    (rp_ActorEmail rec) (rp_ActorClasses rec) (rp_ActorCredential rec) "" (rp_KVPath rec) (rp_KVNode rec)
    (rp_Delete rec).

Definition invalid_skip (stream : string) (rec : ReplRecord) : bool :=
  (rp_SkipFrom rec != 0%N)
  && ((stream != "metrics") || (rp_ChildOffset rec <? rp_SkipFrom rec)%N || (rp_Topic rec != "") || (rp_Payload rec != "")).

(** What the loop of [buildReplicated] has gathered. *)
Record Built := mkBuilt {
  bu_applied : list ReplRecord;
  bu_hwm : N;
  bu_next : N;
  bu_added : N;
  bu_own : Batch;
}.

Fixpoint build_loop (f : Faults) (stream : string) (recs : list ReplRecord) (a : Built) : result StoreErr Built :=
  match recs with
  | [] => Ok a
  | rec :: recs =>
      if invalid_skip stream rec then Err EInvalidSkip
      else if (rp_ChildOffset rec <=? bu_hwm a)%N then build_loop f stream recs a
      else if rp_SkipFrom rec != 0%N then
        build_loop f stream recs (mkBuilt (bu_applied a ++ [rec]) (rp_ChildOffset rec) (bu_next a) (bu_added a) (bu_own a))
      else
        let rec := with_child_origin rec in
        let! (own, n) := addRecord f stream (bu_next a) (to_rec rec) (bu_own a) in
        build_loop f stream recs
          (mkBuilt (bu_applied a ++ [rec]) (rp_ChildOffset rec) (bu_next a + 1)%N (bu_added a + n)%N own)
  end.

(** [buildReplicated]: the records above [prev], and their batch. *)
Definition buildReplicated (f : Faults) (r : replRequest) (prev off : N) : result StoreErr Built :=
  build_loop f (rq_stream r) (rq_recs r) (mkBuilt [] prev off 0 []).

(** What the loop of [commitReplicated] has gathered: the opened streams in
    first-seen order with their heads and byte counts to be, the new marks, the
    batch, whether any request is in it, and the answers. *)
Record ReplAcc := mkReplAcc {
  ra_opened : list string;
  ra_next : gmap string N;
  ra_bytes : gmap string N;
  ra_hwms : gmap (string * string) N;
  ra_batch : Batch;
  ra_committed : bool;
  ra_results : list (replRequest * ReplResult);
}.

Definition ra_result (r : replRequest) (x : ReplResult) (acc : ReplAcc) : ReplAcc :=
  mkReplAcc (ra_opened acc) (ra_next acc) (ra_bytes acc) (ra_hwms acc) (ra_batch acc) (ra_committed acc)
    (ra_results acc ++ [(r, x)]).

Definition repl_open (stream : string) (acc : ReplAcc) (s : Store) : ReplAcc :=
  match ra_next acc !! stream with
  | Some _ => acc
  | None => mkReplAcc (ra_opened acc ++ [stream]) (<[stream := at_ (next s) stream]> (ra_next acc))
              (<[stream := at_ (bytes s) stream]> (ra_bytes acc)) (ra_hwms acc) (ra_batch acc) (ra_committed acc)
              (ra_results acc)
  end.

Definition repl_step (f : Faults) (r : replRequest) (acc : ReplAcc) (s : Store) : Store * ReplAcc :=
  let stream := rq_stream r in
  let key := (rq_child r, stream) in
  if bool_decide (ra_next acc !! stream = None) && (at_ (next s) stream == 0%N) then
    let '(s, h) := HWMGet (rq_child r) stream s in
    (s, ra_result r (mkReplResult [] h (Some (EUnknownStream stream))) acc)
  else
    let acc := repl_open stream acc s in
    let '(s, prev) := match ra_hwms acc !! key with
                      | Some h => (s, h)
                      | None => HWMGet (rq_child r) stream s
                      end in
    match buildReplicated f r prev (at_ (ra_next acc) stream) with
    | Err e => (s, ra_result r (mkReplResult [] prev (Some e)) acc)
    | Ok bu =>
        if bu_applied bu == [] then (s, ra_result r (mkReplResult [] (bu_hwm bu) None) acc)
        else (s, mkReplAcc (ra_opened acc) (<[stream := bu_next bu]> (ra_next acc))
                   (<[stream := at_ (ra_bytes acc) stream + bu_added bu]> (ra_bytes acc))%N
                   (<[key := bu_hwm bu]> (ra_hwms acc)) (ra_batch acc ++ bu_own bu) true
                   (ra_results acc ++ [(r, mkReplResult (bu_applied bu) (bu_hwm bu) None)]))
    end.

Fixpoint repl_loop (f : Faults) (group : list replRequest) (acc : ReplAcc) (s : Store) : Store * ReplAcc :=
  match group with
  | [] => (s, acc)
  | r :: group => let '(s, acc) := repl_step f r acc s in repl_loop f group acc s
  end.

(** The streams whose head moved. *)
Definition moved (acc : ReplAcc) (s : Store) : list string :=
  filter (fun stream => at_ (ra_next acc) stream <> at_ (next s) stream) (ra_opened acc).

Fixpoint mark_ops (f : Faults) (marks : list (string * string * N)) (b : Batch) : result StoreErr Batch :=
  match marks with
  | [] => Ok b
  | (child, stream, h) :: marks => let! b := bset f (hwmKey child stream) (VU64 h) b in mark_ops f marks b
  end.

(** The answers after a commit that failed: the committed requests applied
    nothing and stand where they stood. *)
Fixpoint fail_replicated (e : StoreErr) (results : list (replRequest * ReplResult)) (s : Store)
    : Store * list ReplResult :=
  match results with
  | [] => (s, [])
  | (r, x) :: results =>
      if rr_applied x == [] then let '(s, xs) := fail_replicated e results s in (s, x :: xs)
      else let '(s, h) := HWMGet (rq_child r) (rq_stream r) s in
           let '(s, xs) := fail_replicated e results s in (s, mkReplResult [] h (Some e) :: xs)
  end.

Definition commitReplicated (f : Faults) (group : list replRequest) (s : Store) : Store * list ReplResult :=
  let '(s, acc) := repl_loop f group (mkReplAcc [] ∅ ∅ ∅ [] false []) s in
  if negb (ra_committed acc) then (s, snd <$> ra_results acc)
  else
    let built := let! b := head_ops f (moved acc s) (ra_next acc) (ra_bytes acc) (ra_batch acc) in
                 let! b := mark_ops f (map_to_list (ra_hwms acc)) b in
                 commit f b (db s) in
    match built with
    | Err e => fail_replicated e (ra_results acc) s
    | Ok d =>
        (set_bytes (publish (ra_opened acc) (ra_bytes acc) (bytes s))
           (set_next (publish (ra_opened acc) (ra_next acc) (next s))
              (hwmsCommitted (ra_hwms acc) (set_db d s))),
         snd <$> ra_results acc)
    end.

(** ** A child's store ([AdoptChildStore]) *)

Definition AdoptChildStore (f : Faults) (child i : string) (s : Store) : Store * result StoreErr bool :=
  if i == "" then (s, Ok false)
  else if bool_decide (adopted s !! child = Some i) then (s, Ok false)
  else
    let prev := match db s !! childStoreKey child with Some (VBytes p) => p | _ => "" end in
    if prev == i then (set_adopted (<[child := i]> (adopted s)) s, Ok false)
    else
      let reset := prev != "" in
      let b := if reset then [BDeleteRange (HwmRange child)] else [] in
      let built := let! b := bset f (childStoreKey child) (VBytes i) b in commit f b (db s) in
      match built with
      | Err e => (s, Err e)
      | Ok d => let s := set_db d s in
                let s := if reset then hwmsDropped child s else s in
                (set_adopted (<[child := i]> (adopted s)) s, Ok reset)
      end.

(** [ChildStore]: the incarnation a child last replicated from. *)
Definition ChildStore (child : string) (s : Store) : string :=
  match adopted s !! child with
  | Some known => known
  | None => match db s !! childStoreKey child with Some (VBytes p) => p | _ => "" end
  end.

(** ** What a request applies *)

Definition is_data (rec : ReplRecord) : bool := rp_SkipFrom rec == 0%N.

(** The records above a mark, each above the one before it. *)
Fixpoint above (h : N) (recs : list ReplRecord) : list ReplRecord :=
  match recs with
  | [] => []
  | rec :: recs =>
      if (rp_ChildOffset rec <=? h)%N then above h recs
      else (if is_data rec then with_child_origin rec else rec) :: above (rp_ChildOffset rec) recs
  end.

(** The mark after them. *)
Definition last_offset (h : N) (applied : list ReplRecord) : N := foldl (fun _ rec => rp_ChildOffset rec) h applied.

(** The records of [applied] a stream stores. *)
Definition stored (applied : list ReplRecord) : list Rec := to_rec <$> filter (fun rec => is_data rec = true) applied.

Lemma with_child_origin_offset rec : rp_ChildOffset (with_child_origin rec) = rp_ChildOffset rec.
Proof. unfold with_child_origin. by case_bool_decide. Qed.

Lemma is_data_with_child_origin rec : is_data (with_child_origin rec) = is_data rec.
Proof. unfold with_child_origin. by destruct (rp_OriginOffset rec == 0%N). Qed.

Lemma build_loop_Ok f stream recs a a' :
  build_loop f stream recs a = Ok a' ->
  let new := above (bu_hwm a) recs in
  a' = mkBuilt (bu_applied a ++ new) (last_offset (bu_hwm a) new) (bu_next a + N.of_nat (length (stored new)))
         (bu_added a + costs stream (bu_next a) (stored new)) (bu_own a ++ records_ops stream (bu_next a) (stored new)).
Proof.
  revert a; induction recs as [|rec recs IH]; intros a E; cbn [build_loop above] in *.
  { injection E as <-. destruct a; simpl. by rewrite !app_nil_r, !N.add_0_r. }
  destruct (invalid_skip stream rec); [done|]. destruct (N.leb_spec (rp_ChildOffset rec) (bu_hwm a)); [by apply IH|].
  unfold is_data at 1 2 3 4 5. destruct (decide (rp_SkipFrom rec = 0%N)) as [Hs|Hs].
  - rewrite (bool_decide_eq_true_2 _ Hs) in E |- *. cbn [negb] in E.
    destruct (addRecord f stream (bu_next a) (to_rec (with_child_origin rec)) (bu_own a)) as [[own n]|] eqn:Ea; [|done].
    apply addRecord_Ok in Ea as [-> ->]. apply IH in E. cbn [bu_applied bu_hwm bu_next bu_added bu_own] in E.
    rewrite with_child_origin_offset in E. rewrite E.
    unfold stored, last_offset. rewrite filter_cons, decide_True
      by (rewrite is_data_with_child_origin; by apply bool_decide_eq_true_2).
    cbn [fmap list_fmap length records_ops costs foldl]. rewrite with_child_origin_offset, <- !app_assoc.
    f_equal; lia.
  - rewrite (bool_decide_eq_false_2 _ Hs) in E |- *. cbn [negb] in E. apply IH in E.
    cbn [bu_applied bu_hwm bu_next bu_added bu_own] in E. rewrite E.
    unfold stored, last_offset. rewrite filter_cons, decide_False
      by (unfold is_data; rewrite (bool_decide_eq_false_2 _ Hs); done).
    cbn [foldl]. by rewrite <- !app_assoc.
Qed.

(** A request applies [above], unless a skip range in it is malformed or a write
    into its own batch fails. *)
Lemma buildReplicated_Ok f r prev off bu :
  buildReplicated f r prev off = Ok bu ->
  let new := above prev (rq_recs r) in
  bu = mkBuilt new (last_offset prev new) (off + N.of_nat (length (stored new)))
         (costs (rq_stream r) off (stored new)) (records_ops (rq_stream r) off (stored new)).
Proof. intros E. by apply build_loop_Ok in E. Qed.

Lemma build_loop_no_fault stream recs a :
  Forall (fun rec => invalid_skip stream rec = false) recs -> exists a', build_loop no_faults stream recs a = Ok a'.
Proof.
  revert a; induction recs as [|rec recs IH]; intros a Hf; cbn [build_loop]; [by eexists|].
  apply Forall_cons in Hf as [-> Hf]. destruct (_ <=? _)%N; [by apply IH|]. destruct (_ != _); [by apply IH|].
  rewrite addRecord_no_fault. by apply IH.
Qed.

(** ** Marks *)

Definition put_mark (child stream : string) (h : N) (s : Store) : Store :=
  set_hwms (<[(child, stream) := h]> (hwms s)) (set_db (<[hwmKey child stream := VU64 h]> (db s)) s).

Definition mark (s : Store) (child stream : string) : N := readU64 (db s) (hwmKey child stream) 0.

(** A mark in memory is the mark on disk. *)
Definition hwms_ok (s : Store) : Prop := forall child stream n, hwms s !! (child, stream) = Some n -> mark s child stream = n.

Lemma HWMGet_eq child stream s : hwms_ok s ->
  exists hs, HWMGet child stream s = (set_hwms hs s, mark s child stream) /\ hwms_ok (set_hwms hs s).
Proof.
  intros Hok. unfold HWMGet. destruct (hwms s !! (child, stream)) as [n|] eqn:E.
  - exists (hwms s). rewrite (Hok _ _ _ E). by destruct s.
  - eexists. split; [done|]. intros c st n. store_simpl. rewrite lookup_insert. case_decide; [|apply Hok].
    simplify_eq. by intros [= <-].
Qed.

Definition mark_batch (marks : list (string * string * N)) : Batch :=
  (fun m => BSet (hwmKey (fst (fst m)) (snd (fst m))) (VU64 (snd m))) <$> marks.

Lemma mark_ops_Ok f marks b b' : mark_ops f marks b = Ok b' -> b' = b ++ mark_batch marks.
Proof.
  revert b; induction marks as [|[[c st] h] marks IH]; intros b; cbn [mark_ops].
  { intros [= <-]. by rewrite app_nil_r. }
  destruct (bset f _ _ b) as [b1|] eqn:E; [|done]. apply bset_Ok in E as ->. intros E. apply IH in E as ->.
  by rewrite <- app_assoc.
Qed.

Lemma mark_ops_no_fault marks b : mark_ops no_faults marks b = Ok (b ++ mark_batch marks).
Proof.
  revert b; induction marks as [|[[c st] h] marks IH]; intros b; cbn [mark_ops]; [by rewrite app_nil_r|].
  unfold bset; simpl. rewrite IH. by rewrite <- app_assoc.
Qed.

Definition mark_of (k : Key) : option (string * string) :=
  match parts k, suffix k with
  | [t; child; stream], None => if t == "h" then Some (child, stream) else None
  | _, _ => None
  end.

Lemma mark_of_Some k child stream : mark_of k = Some (child, stream) <-> k = hwmKey child stream.
Proof.
  unfold mark_of, hwmKey. destruct k as [[|t [|c [|st []]]] [|]]; simpl; try (split; [done|congruence]).
  case_bool_decide; [subst; naive_solver|]. split; [done|]. congruence.
Qed.

Lemma batch_at_marks (m : gmap (string * string) N) k o :
  batch_at k (mark_batch (map_to_list m)) o
  = match mark_of k with
    | Some key => match m !! key with Some h => Some (VU64 h) | None => o end
    | None => o
    end.
Proof.
  assert (Hgen : forall l : list (string * string * N), NoDup (fst <$> l) ->
    batch_at k (mark_batch l) o
    = match mark_of k with
      | Some key => match (list_to_map l : gmap (string * string) N) !! key with Some h => Some (VU64 h) | None => o end
      | None => o
      end).
  2: { rewrite Hgen by apply NoDup_fst_map_to_list. by rewrite list_to_map_to_list. }
  intros l. revert o. induction l as [|[[c st] h] l IH]; intros o Hnd.
  { simpl. by destruct (mark_of k) as [key|]; [rewrite lookup_empty|]. }
  rewrite fmap_cons in Hnd. apply NoDup_cons in Hnd as [Hn Hnd].
  unfold mark_batch. rewrite fmap_cons. unfold batch_at. cbn [foldl]. fold (batch_at k). unfold flip at 2.
  change (foldl (flip (op_at k)) ?x (?g <$> l)) with (batch_at k (mark_batch l) x). rewrite IH by done. cbn [fst snd].
  unfold op_at. destruct (mark_of k) as [[c' st']|] eqn:Ek.
  - apply mark_of_Some in Ek as ->. simpl. rewrite lookup_insert.
    destruct (decide (hwmKey c st = hwmKey c' st')) as [E|E].
    + injection E as <- <-. rewrite decide_True by done.
      by rewrite not_elem_of_list_to_map_1.
    + rewrite decide_False; [done|]. intros [= <- <-]. done.
  - rewrite decide_False; [done|]. intros <-. assert (mark_of (hwmKey c st) = Some (c, st)) by (by apply mark_of_Some). congruence.
Qed.

(** ** The store a replicated batch would leave *)

Definition marks_batch (acc : ReplAcc) : Batch := mark_batch (map_to_list (ra_hwms acc)).

Definition virtual_repl (acc : ReplAcc) (s : Store) : Store :=
  set_bytes (publish (ra_opened acc) (ra_bytes acc) (bytes s))
    (set_next (publish (ra_opened acc) (ra_next acc) (next s))
       (hwmsCommitted (ra_hwms acc)
          (set_db (apply_batch ((ra_batch acc ++ heads (moved acc s) (ra_next acc) (ra_bytes acc)) ++ marks_batch acc) (db s)) s))).

Record ReplAccInv (acc : ReplAcc) (s : Store) : Prop := {
  ri_opened : forall st, st ∈ ra_opened acc <-> is_Some (ra_next acc !! st);
  ri_known : forall st n, ra_next acc !! st = Some n ->
               NextOffset s st <> 0%N /\ (NextOffset s st <= n)%N
               /\ (n = NextOffset s st -> ra_bytes acc !! st = bytes s !! st);
  ri_batch : forall k, tag k ∉ record_tags -> Forall (fun op => touches op k = false) (ra_batch acc);
  ri_hwms : forall child st h, ra_hwms acc !! (child, st) = Some h -> is_Some (ra_next acc !! st);
  ri_dom : forall st, NextOffset s st <> 0%N -> is_Some (bytes s !! st);
  ri_empty : ra_committed acc = false ->
               ra_batch acc = [] /\ ra_hwms acc = ∅ /\ (forall st n, ra_next acc !! st = Some n -> n = NextOffset s st)
               /\ Forall (fun x => rr_applied (snd x) = []) (ra_results acc);
}.

Lemma ReplAccInv_hwms acc s hs : ReplAccInv acc s -> ReplAccInv acc (set_hwms hs s).
Proof. by intros [? ? ? ? ? ?]. Qed.

Lemma lookup_next s st : NextOffset s st <> 0%N -> next s !! st = Some (NextOffset s st).
Proof. unfold NextOffset, at_. by destruct (next s !! st). Qed.

Lemma elem_of_moved acc s st :
  st ∈ moved acc s <-> at_ (ra_next acc) st <> at_ (next s) st /\ st ∈ ra_opened acc.
Proof. unfold moved. by rewrite list_elem_of_filter. Qed.

Lemma mark_of_not_head k key : mark_of k = Some key -> head_of k = None /\ tag k ∉ record_tags.
Proof. destruct key as [child stream]. intros ->%mark_of_Some. split; [done|tag_in]. Qed.

(** The disk after the batch, key by key. *)
Lemma virtual_repl_lookup acc s k : ReplAccInv acc s ->
  db (virtual_repl acc s) !! k
  = match head_of k, mark_of k with
    | Some (st, isb), _ => if decide (st ∈ moved acc s) then Some (VU64 (at_ (if isb then ra_bytes acc else ra_next acc) st))
                           else db s !! k
    | None, Some key => match ra_hwms acc !! key with Some h => Some (VU64 h) | None => db s !! k end
    | None, None => batch_at k (ra_batch acc) (db s !! k)
    end.
Proof.
  intros HA. unfold virtual_repl, marks_batch, hwmsCommitted. store_simpl.
  rewrite lookup_apply_batch, !batch_at_app, batch_at_marks, batch_at_heads.
  destruct (head_of k) as [[st isb]|] eqn:Eh.
  - destruct (mark_of k) as [key|] eqn:Em; [apply mark_of_not_head in Em as [? _]; congruence|].
    apply head_of_tag in Eh. by rewrite (batch_at_untouched k (ra_batch acc)) by (by apply (ri_batch acc s HA)).
  - destruct (mark_of k) as [key|] eqn:Em; [|done]. destruct (mark_of_not_head _ _ Em) as [_ Ht].
    by rewrite (batch_at_untouched k (ra_batch acc)) by (by apply (ri_batch acc s HA)).
Qed.

Lemma Store_eq s s' :
  db s = db s' -> next s = next s' -> lwm s = lwm s' -> bytes s = bytes s' -> holes s = holes s' ->
  adopted s = adopted s' -> hwms s = hwms s' -> policies s = policies s' -> id s = id s' -> idMinted s = idMinted s' ->
  maxRecordBytes s = maxRecordBytes s' -> s = s'.
Proof. destruct s, s'; simpl; congruence. Qed.

(** Opening a stream changes nothing. *)
Lemma repl_open_inv stream acc s :
  ReplAccInv acc s -> NextOffset s stream <> 0%N -> ReplAccInv (repl_open stream acc s) s.
Proof.
  intros HA Hk. unfold repl_open. destruct (ra_next acc !! stream) as [n|] eqn:En; [done|].
  destruct HA as [A1 A2 A3 Ah A4 A5]. destruct (A4 stream Hk) as [live Hlive].
  assert (Hlv : at_ (bytes s) stream = live) by (unfold at_; by rewrite Hlive).
  split; cbn [ra_opened ra_next ra_bytes ra_hwms ra_batch ra_committed ra_results].
  - intros st. rewrite elem_of_app, list_elem_of_singleton, A1, lookup_insert.
    case_decide; [subst; split; [by eexists|by right]|]. naive_solver.
  - intros st n. rewrite !lookup_insert. case_decide as E; [rewrite <- E|apply A2]. intros [= <-].
    split; [done|]. split; [unfold NextOffset; lia|]. by rewrite Hlive, Hlv.
  - done.
  - intros child st h Hh. rewrite lookup_insert. case_decide; [by eexists|by eapply Ah].
  - done.
  - intros Hc. destruct (A5 Hc) as (? & ? & ? & ?). split; [done|]. split; [done|]. split; [|done].
    intros st n. rewrite lookup_insert. case_decide; [subst; by intros [= <-]|auto].
Qed.

Lemma repl_open_virtual stream acc s :
  ReplAccInv acc s -> NextOffset s stream <> 0%N -> virtual_repl (repl_open stream acc s) s = virtual_repl acc s.
Proof.
  intros HA Hk. pose proof (repl_open_inv stream acc s HA Hk) as HA'.
  pose proof (virtual_repl_lookup (repl_open stream acc s) s) as L'. pose proof (virtual_repl_lookup acc s) as L.
  revert HA' L'. unfold repl_open. destruct (ra_next acc !! stream) as [n|] eqn:En; [done|].
  destruct HA as [A1 A2 A3 Ah A4 A5]. destruct (A4 stream Hk) as [live Hlive].
  assert (Hlv : at_ (bytes s) stream = live) by (unfold at_; by rewrite Hlive).
  assert (Hno : stream ∉ ra_opened acc) by (rewrite A1, En; by intros []).
  set (acc1 := mkReplAcc _ _ _ _ _ _ _). intros HA' L'.
  assert (Hm : forall st, st ∈ moved acc1 s <-> st ∈ moved acc s).
  { intros st. rewrite !elem_of_moved. cbn [ra_opened ra_next acc1].
    rewrite elem_of_app, list_elem_of_singleton. destruct (decide (stream = st)) as [<-|Hne].
    - rewrite at_insert_eq. naive_solver.
    - rewrite at_insert_ne by done. naive_solver. }
  apply Store_eq; try done.
  - apply map_eq. intros k. rewrite L', L by done. cbn [ra_hwms ra_batch ra_bytes ra_next acc1].
    destruct (head_of k) as [[st isb]|]; [|done]. rewrite (decide_ext _ _ _ _ (Hm st)). case_decide as E; [|done].
    apply elem_of_moved in E as [_ E]. assert (stream <> st) by (intros <-; done).
    destruct isb; by rewrite at_insert_ne.
  - unfold virtual_repl. store_simpl. apply map_eq. intros st. rewrite !lookup_publish. cbn [ra_opened ra_next acc1].
    destruct (decide (stream = st)) as [<-|Hne].
    + rewrite decide_True by (rewrite elem_of_app, list_elem_of_singleton; by right).
      rewrite decide_False by done. rewrite at_insert_eq, lookup_next by done. done.
    + rewrite at_insert_ne by done. assert (st ∈ ra_opened acc ++ [stream] <-> st ∈ ra_opened acc) as E
        by (rewrite elem_of_app, list_elem_of_singleton; naive_solver). by rewrite (decide_ext _ _ _ _ E).
  - unfold virtual_repl. store_simpl. apply map_eq. intros st. rewrite !lookup_publish. cbn [ra_opened ra_bytes acc1].
    destruct (decide (stream = st)) as [<-|Hne].
    + rewrite decide_True by (rewrite elem_of_app, list_elem_of_singleton; by right).
      rewrite decide_False by done. by rewrite at_insert_eq, Hlive, Hlv.
    + rewrite at_insert_ne by done. assert (st ∈ ra_opened acc ++ [stream] <-> st ∈ ra_opened acc) as E
        by (rewrite elem_of_app, list_elem_of_singleton; naive_solver). by rewrite (decide_ext _ _ _ _ E).
Qed.

Lemma virtual_repl_next acc s stream n :
  ReplAccInv acc s -> ra_next acc !! stream = Some n ->
  NextOffset (virtual_repl acc s) stream = n
  /\ StreamBytes (virtual_repl acc s) stream = at_ (ra_bytes acc) stream
  /\ next (virtual_repl acc s) !! stream = Some n.
Proof.
  intros HA Hn. unfold NextOffset, StreamBytes, virtual_repl, at_. store_simpl. rewrite !lookup_publish.
  rewrite !decide_True by (apply (ri_opened acc s HA); by eexists). unfold at_. by rewrite Hn.
Qed.

(** What an applied request does to a store. *)
Definition repl_effect (r : replRequest) (applied : list ReplRecord) (h : N) (s : Store) : Store :=
  put_mark (rq_child r) (rq_stream r) h (put_records (rq_stream r) (stored applied) s).

(** The accumulator after a request that applies [recs]. *)
Definition repl_acc_apply (r : replRequest) (recs : list Rec) (h : N) (x : ReplResult) (acc : ReplAcc) : ReplAcc :=
  let stream := rq_stream r in
  let off := at_ (ra_next acc) stream in
  mkReplAcc (ra_opened acc) (<[stream := off + N.of_nat (length recs)]> (ra_next acc))%N
    (<[stream := at_ (ra_bytes acc) stream + costs stream off recs]> (ra_bytes acc))%N
    (<[(rq_child r, stream) := h]> (ra_hwms acc)) (ra_batch acc ++ records_ops stream off recs) true
    (ra_results acc ++ [(r, x)]).

Lemma repl_apply_inv r recs h x acc s :
  ReplAccInv acc s -> is_Some (ra_next acc !! rq_stream r) -> ReplAccInv (repl_acc_apply r recs h x acc) s.
Proof.
  intros [A1 A2 A3 Ah A4 A5] [n Hn]. unfold repl_acc_apply. cbv zeta.
  assert (at_ (ra_next acc) (rq_stream r) = n) as -> by (unfold at_; by rewrite Hn).
  split; cbn [ra_opened ra_next ra_bytes ra_hwms ra_batch ra_committed ra_results].
  - intros st. rewrite A1, lookup_insert. case_decide; [subst; rewrite Hn; split; by eexists|done].
  - intros st m. rewrite !lookup_insert. case_decide as E; [rewrite <- E|apply A2]. intros [= <-].
    destruct (A2 _ _ Hn) as (B1 & B2 & B3). split; [done|]. split; [lia|]. intros E'.
    assert (recs = []) as -> by (destruct recs; [done|simpl in E'; lia]).
    assert (n = NextOffset s (rq_stream r)) as E2 by (simpl in E'; lia). specialize (B3 E2). simpl. rewrite N.add_0_r.
    unfold at_. rewrite B3. by destruct (A4 _ B1) as [b ->].
  - intros k Hk. apply Forall_app. split; [by apply A3|by apply records_ops_untouched].
  - intros child st m. rewrite !lookup_insert. case_decide as E; [injection E as _ <-; rewrite decide_True by done; by eexists|].
    intros Hh. case_decide; [by eexists|by eapply Ah].
  - done.
  - done.
Qed.

Lemma lookup_put_records stream recs s k :
  db (put_records stream recs s) !! k
  = match head_of k with
    | Some (st, isb) =>
        if decide (st = stream /\ recs <> []) then
          Some (VU64 (if isb then StreamBytes s stream + costs stream (NextOffset s stream) recs
                      else NextOffset s stream + N.of_nat (length recs))%N)
        else db s !! k
    | None => batch_at k (records_ops stream (NextOffset s stream) recs) (db s !! k)
    end.
Proof.
  destruct recs as [|rec recs].
  { destruct (head_of k) as [[st isb]|]; [by rewrite decide_False by naive_solver|done]. }
  rewrite put_records_eq. cbv zeta. store_simpl. rewrite lookup_apply_batch, batch_at_app, batch_at_head_batch.
  destruct (head_of k) as [[st isb]|] eqn:Eh; [|done].
  rewrite batch_at_untouched by (apply records_ops_untouched; by eapply head_of_tag).
  destruct (decide (st = stream)) as [->|]; [by rewrite decide_True by done|by rewrite decide_False by naive_solver].
Qed.

(** [put_records] changes the disk, the head and the byte count only. *)
Lemma put_records_rest stream recs s :
  let s' := put_records stream recs s in
  lwm s' = lwm s /\ holes s' = holes s /\ adopted s' = adopted s /\ hwms s' = hwms s /\ policies s' = policies s
  /\ id s' = id s /\ idMinted s' = idMinted s /\ maxRecordBytes s' = maxRecordBytes s.
Proof. revert s; induction recs as [|rec recs IH]; intros s; [done|]. apply (IH (put_record stream s rec)). Qed.

Lemma elem_of_moved_apply r recs h x acc s n st :
  ReplAccInv acc s -> ra_next acc !! rq_stream r = Some n ->
  st ∈ moved (repl_acc_apply r recs h x acc) s <-> st ∈ moved acc s \/ (st = rq_stream r /\ recs <> []).
Proof.
  intros HA Hn. destruct (ri_known acc s HA _ _ Hn) as (_ & Hle & _).
  assert (Hat : at_ (ra_next acc) (rq_stream r) = n) by (unfold at_; by rewrite Hn).
  assert (Hop : rq_stream r ∈ ra_opened acc) by (apply (ri_opened acc s HA); by eexists).
  rewrite !elem_of_moved. unfold repl_acc_apply; cbn [ra_opened ra_next]. rewrite Hat. unfold NextOffset in Hle.
  destruct (decide (st = rq_stream r)) as [->|Hne].
  - rewrite at_insert_eq, Hat. destruct recs as [|rec recs]; simpl length; [rewrite N.add_0_r; naive_solver|].
    split; [intros _; by right|intros _]. split; [lia|done].
  - rewrite at_insert_ne by congruence. naive_solver.
Qed.

Lemma repl_apply_db r recs h x acc s k :
  ReplAccInv acc s -> is_Some (ra_next acc !! rq_stream r) ->
  db (virtual_repl (repl_acc_apply r recs h x acc) s) !! k
  = db (put_mark (rq_child r) (rq_stream r) h (put_records (rq_stream r) recs (virtual_repl acc s))) !! k.
Proof.
  intros HA [n Hn]. pose proof (repl_apply_inv r recs h x acc s HA (mk_is_Some _ _ Hn)) as HA'.
  destruct (virtual_repl_next acc s _ n HA Hn) as (Vn & Vb & _).
  assert (Hat : at_ (ra_next acc) (rq_stream r) = n) by (unfold at_; by rewrite Hn).
  pose proof (fun st => elem_of_moved_apply r recs h x acc s n st HA Hn) as Hmv.
  set (acc' := repl_acc_apply r recs h x acc) in *.
  assert (ra_next acc' = <[rq_stream r := n + N.of_nat (length recs)]> (ra_next acc)
    /\ ra_bytes acc' = <[rq_stream r := at_ (ra_bytes acc) (rq_stream r) + costs (rq_stream r) n recs]> (ra_bytes acc)
    /\ ra_hwms acc' = <[(rq_child r, rq_stream r) := h]> (ra_hwms acc)
    /\ ra_batch acc' = ra_batch acc ++ records_ops (rq_stream r) n recs)%N as (F1 & F2 & F3 & F4)
    by (unfold acc', repl_acc_apply; cbn [ra_next ra_bytes ra_hwms ra_batch]; by rewrite Hat).
  clearbody acc'. rewrite virtual_repl_lookup by done. unfold put_mark. store_simpl.
  rewrite lookup_insert, lookup_put_records, Vn, Vb, virtual_repl_lookup by done. rewrite F1, F2, F3, F4.
  destruct (head_of k) as [[st isb]|] eqn:Eh.
  - rewrite (decide_False (P := hwmKey (rq_child r) (rq_stream r) = k)) by (intros <-; discriminate Eh).
    rewrite (decide_ext _ _ _ _ (Hmv st)).
    destruct (decide (st = rq_stream r)) as [->|Hst].
    + destruct recs as [|rec recs].
      * rewrite (decide_False (P := rq_stream r = rq_stream r /\ _)) by naive_solver. simpl. rewrite !N.add_0_r.
        assert (rq_stream r ∈ moved acc s \/ rq_stream r = rq_stream r /\ @nil Rec <> [] <-> rq_stream r ∈ moved acc s) as E by naive_solver.
        rewrite (decide_ext _ _ _ _ E). case_decide; [|done]. destruct isb; by rewrite at_insert_eq, ?Hat.
      * rewrite decide_True by (by right). rewrite decide_True by done. destruct isb; by rewrite at_insert_eq.
    + rewrite (decide_False (P := st = rq_stream r /\ _)) by naive_solver.
      assert (st ∈ moved acc s \/ st = rq_stream r /\ recs <> [] <-> st ∈ moved acc s) as E by naive_solver.
      rewrite (decide_ext _ _ _ _ E). case_decide; [|done]. destruct isb; by rewrite at_insert_ne by congruence.
  - destruct (decide (hwmKey (rq_child r) (rq_stream r) = k)) as [<-|Hne].
    { rewrite (proj2 (mark_of_Some _ _ _) eq_refl). by rewrite lookup_insert_eq. }
    destruct (mark_of k) as [key|] eqn:Em; [|by rewrite batch_at_app].
    rewrite lookup_insert_ne by (intros <-; apply mark_of_Some in Em; congruence).
    destruct (mark_of_not_head _ _ Em) as [_ Ht]. by rewrite batch_at_untouched by (by apply records_ops_untouched).
Qed.

Lemma repl_apply_virtual r applied h x acc s :
  ReplAccInv acc s -> is_Some (ra_next acc !! rq_stream r) ->
  virtual_repl (repl_acc_apply r (stored applied) h x acc) s = repl_effect r applied h (virtual_repl acc s).
Proof.
  intros HA Hs. pose proof Hs as [n Hn]. unfold repl_effect. set (recs := stored applied).
  destruct (virtual_repl_next acc s _ n HA Hn) as (Vn & Vb & Vl).
  assert (Hat : at_ (ra_next acc) (rq_stream r) = n) by (unfold at_; by rewrite Hn).
  assert (Hop : rq_stream r ∈ ra_opened acc) by (apply (ri_opened acc s HA); by eexists).
  assert (Ean : ra_opened acc = add_new (rq_stream r) (ra_opened acc))
    by (unfold add_new; by rewrite bool_decide_eq_true_2).
  destruct (put_records_rest (rq_stream r) recs (virtual_repl acc s)) as (R1 & R2 & R3 & R4 & R5 & R6 & R7 & R8).
  apply Store_eq; [apply map_eq; intros k; by apply repl_apply_db| | | |..];
    unfold put_mark; store_simpl; rewrite ?R1, ?R2, ?R3, ?R4, ?R5, ?R6, ?R7, ?R8; try done.
  - unfold virtual_repl at 1, repl_acc_apply. store_simpl. cbn [ra_opened ra_next]. rewrite Ean, publish_add_new, Hat.
    fold (next (virtual_repl acc s)). destruct recs as [|rec recs'].
    + simpl. rewrite N.add_0_r. by apply insert_id.
    + rewrite put_records_eq. cbv zeta. store_simpl. unfold NextOffset in Vn. by rewrite Vn.
  - unfold virtual_repl at 1, repl_acc_apply. store_simpl. cbn [ra_opened ra_bytes]. rewrite Ean, publish_add_new, Hat.
    destruct recs as [|rec recs'].
    + simpl. rewrite N.add_0_r. apply insert_id. by rewrite lookup_publish, decide_True.
    + rewrite put_records_eq. cbv zeta. store_simpl. unfold NextOffset in Vn. unfold StreamBytes in Vb. by rewrite Vn, Vb.
  - unfold virtual_repl, hwmsCommitted, repl_acc_apply. store_simpl. cbn [ra_hwms]. by rewrite insert_union_l.
Qed.

(** ** The specification of one push *)

(** A store without its caches, which no answer depends on. *)
Definition no_cache (s : Store) : Store := set_hwms ∅ (forget s).

Definition repl_outcome (f : Faults) (r : replRequest) (s : Store) : Store * ReplResult :=
  let prev := mark s (rq_child r) (rq_stream r) in
  if NextOffset s (rq_stream r) == 0%N then (s, mkReplResult [] prev (Some (EUnknownStream (rq_stream r))))
  else match buildReplicated f r prev (NextOffset s (rq_stream r)) with
       | Err e => (s, mkReplResult [] prev (Some e))
       | Ok bu => if bu_applied bu == [] then (s, mkReplResult [] (bu_hwm bu) None)
                  else (repl_effect r (bu_applied bu) (bu_hwm bu) s, mkReplResult (bu_applied bu) (bu_hwm bu) None)
       end.

Fixpoint repl_each (f : Faults) (group : list replRequest) (s : Store) : Store * list ReplResult :=
  match group with
  | [] => (s, [])
  | r :: group => let '(s, x) := repl_outcome f r s in
                  let '(s, xs) := repl_each f group s in (s, x :: xs)
  end.

Lemma no_cache_fields s v : no_cache s = no_cache v -> db s = db v /\ next s = next v.
Proof. destruct s, v. unfold no_cache, forget, set_policies, set_hwms; simpl. by intros [= -> -> _ _ _ _ _ _ _]. Qed.

Lemma no_cache_effect r applied h s v :
  no_cache s = no_cache v -> no_cache (repl_effect r applied h s) = no_cache (repl_effect r applied h v).
Proof.
  assert (forall u, no_cache (repl_effect r applied h u) = no_cache (repl_effect r applied h (no_cache u))) as Hu.
  { intros u. unfold repl_effect. generalize (stored applied) as recs. intros recs. revert u.
    induction recs as [|rec recs IH]; intros u; [done|]. exact (IH (put_record (rq_stream r) u rec)). }
  intros E. by rewrite (Hu s), (Hu v), E.
Qed.

Lemma no_cache_outcome f r s v :
  no_cache s = no_cache v ->
  snd (repl_outcome f r s) = snd (repl_outcome f r v)
  /\ no_cache (fst (repl_outcome f r s)) = no_cache (fst (repl_outcome f r v)).
Proof.
  intros E. destruct (no_cache_fields _ _ E) as [Ed En]. unfold repl_outcome, mark, NextOffset. rewrite Ed, En.
  case_bool_decide; [done|]. destruct (buildReplicated _ _ _ _) as [bu|]; [|done].
  case_bool_decide; [done|]. split; [done|]. by apply no_cache_effect.
Qed.

Lemma mark_virtual acc s child stream : ReplAccInv acc s ->
  mark (virtual_repl acc s) child stream
  = match ra_hwms acc !! (child, stream) with Some h => h | None => mark s child stream end.
Proof.
  intros HA. unfold mark, readU64. rewrite virtual_repl_lookup by done.
  rewrite (proj2 (mark_of_Some _ _ _) eq_refl). simpl. by destruct (ra_hwms acc !! (child, stream)).
Qed.

Lemma virtual_repl_unknown acc s stream : ReplAccInv acc s -> ra_next acc !! stream = None ->
  NextOffset (virtual_repl acc s) stream = NextOffset s stream.
Proof.
  intros HA Hn. unfold NextOffset, virtual_repl, at_. store_simpl. rewrite lookup_publish, decide_False; [done|].
  rewrite (ri_opened acc s HA), Hn. by intros [].
Qed.

Lemma ra_result_inv r x acc s : rr_applied x = [] -> ReplAccInv acc s -> ReplAccInv (ra_result r x acc) s.
Proof.
  intros Hx [A1 A2 A3 Ah A4 A5]. split; try done. intros Hc. destruct (A5 Hc) as (? & ? & ? & ?).
  repeat split; try done. cbn [ra_results ra_result]. apply Forall_app. by repeat constructor.
Qed.

(** One request moves the store the batch would leave as a push of its own. *)
Lemma repl_step_eq f r acc s :
  hwms_ok s -> ReplAccInv acc s ->
  exists hs acc', repl_step f r acc s = (set_hwms hs s, acc') /\ hwms_ok (set_hwms hs s)
    /\ ReplAccInv acc' (set_hwms hs s)
    /\ ra_results acc' = ra_results acc ++ [(r, snd (repl_outcome f r (virtual_repl acc s)))]
    /\ no_cache (virtual_repl acc' (set_hwms hs s)) = no_cache (fst (repl_outcome f r (virtual_repl acc s))).
Proof.
  intros Hok HA. unfold repl_step. cbv zeta.
  assert (Hget : exists hs h, HWMGet (rq_child r) (rq_stream r) s = (set_hwms hs s, h) /\ hwms_ok (set_hwms hs s)
    /\ h = mark s (rq_child r) (rq_stream r)).
  { destruct (HWMGet_eq (rq_child r) (rq_stream r) s Hok) as (hs & ? & ?). by exists hs, (mark s (rq_child r) (rq_stream r)). }
  destruct Hget as (hs0 & h0 & Eget & Hok0 & Hh0).
  destruct (decide (NextOffset s (rq_stream r) = 0%N)) as [H0|H0].
  { assert (Hnone : ra_next acc !! rq_stream r = None).
    { destruct (ra_next acc !! rq_stream r) as [n|] eqn:E; [|done]. by apply (ri_known acc s HA) in E as [? _]. }
    rewrite (bool_decide_eq_true_2 _ Hnone), (bool_decide_eq_true_2 _ H0). cbn [andb]. rewrite Eget.
    exists hs0. eexists. split; [done|]. split; [done|]. split; [by apply ra_result_inv, ReplAccInv_hwms|].
    unfold repl_outcome. rewrite virtual_repl_unknown, bool_decide_eq_true_2, mark_virtual by done.
    split; [|done]. cbn [ra_results ra_result snd]. do 4 f_equal. rewrite Hh0.
    destruct (ra_hwms acc !! _) as [h|] eqn:Eh; [|done]. apply (ri_hwms acc s HA) in Eh. rewrite Hnone in Eh. by destruct Eh. }
  rewrite (bool_decide_eq_false_2 (at_ (next s) (rq_stream r) = 0%N)), andb_false_r by done.
  rewrite <- (repl_open_virtual (rq_stream r) acc s HA H0).
  assert (ra_results (repl_open (rq_stream r) acc s) = ra_results acc
    /\ is_Some (ra_next (repl_open (rq_stream r) acc s) !! rq_stream r)) as [HR Ho].
  { unfold repl_open. destruct (ra_next acc !! rq_stream r) eqn:E; [split; [done|by rewrite E]|].
    split; [done|]. cbn [ra_next]. rewrite lookup_insert_eq. by eexists. }
  rewrite <- HR. pose proof (repl_open_inv (rq_stream r) acc s HA H0) as HA1.
  set (acc1 := repl_open (rq_stream r) acc s) in *. clearbody acc1. clear HA HR acc.
  pose proof Ho as [n Hn]. destruct (virtual_repl_next acc1 s _ n HA1 Hn) as (Vn & _ & _).
  assert (Hprev : exists hs, match ra_hwms acc1 !! (rq_child r, rq_stream r) with
      | Some h => (s, h) | None => HWMGet (rq_child r) (rq_stream r) s end
      = (set_hwms hs s, mark (virtual_repl acc1 s) (rq_child r) (rq_stream r)) /\ hwms_ok (set_hwms hs s)).
  { rewrite mark_virtual by done. destruct (ra_hwms acc1 !! _); [exists (hwms s); by destruct s|].
    exists hs0. rewrite Eget, Hh0. done. }
  destruct Hprev as (hs & -> & Hoks). exists hs.
  unfold repl_outcome. rewrite Vn, bool_decide_eq_false_2 by (by apply (ri_known acc1 s HA1) in Hn as (? & ? & _); lia).
  assert (at_ (ra_next acc1) (rq_stream r) = n) as -> by (unfold at_; by rewrite Hn).
  destruct (buildReplicated f r _ n) as [bu|e] eqn:Eb.
  2: { eexists. split; [done|]. split; [done|]. split; [by apply ra_result_inv, ReplAccInv_hwms|]. done. }
  case_bool_decide as Ha.
  { eexists. split; [done|]. split; [done|]. split; [by apply ra_result_inv, ReplAccInv_hwms|]. done. }
  apply buildReplicated_Ok in Eb. cbv zeta in Eb. rewrite Eb. cbn [bu_applied bu_hwm bu_next bu_added bu_own].
  set (applied := above _ _). set (h := last_offset _ _). set (x := mkReplResult applied h None).
  exists (repl_acc_apply r (stored applied) h x acc1).
  assert (at_ (ra_next acc1) (rq_stream r) = n) as Hat by (unfold at_; by rewrite Hn).
  split; [unfold repl_acc_apply; cbv zeta; by rewrite Hat|]. split; [done|].
  split; [by apply ReplAccInv_hwms, repl_apply_inv|]. split; [done|]. cbn [fst].
  rewrite <- (repl_apply_virtual r applied h x acc1 s HA1 Ho). done.
Qed.

Definition empty_repl_acc : ReplAcc := mkReplAcc [] ∅ ∅ ∅ [] false [].

Lemma empty_repl_inv s : Inv s -> ReplAccInv empty_repl_acc s /\ virtual_repl empty_repl_acc s = s.
Proof.
  intros HI. split; [split; cbn [ra_opened ra_next ra_bytes ra_hwms ra_batch ra_committed ra_results empty_repl_acc]|].
  - intros st. rewrite lookup_empty. split; [intros Hst; by apply not_elem_of_nil in Hst|by intros []].
  - intros st n E. by rewrite lookup_empty in E.
  - constructor.
  - intros child st h E. by rewrite lookup_empty in E.
  - intros st Hst. apply (inv_dom s HI). by apply (known_stream s).
  - intros _. repeat split; done.
  - apply Store_eq; try done. unfold virtual_repl, hwmsCommitted. store_simpl. cbn [ra_hwms empty_repl_acc]. by rewrite (left_id_L ∅ (∪)).
Qed.

Lemma hwms_ok_of_inv s : Inv s -> hwms_ok s.
Proof. intros HI. exact (ca_hwms s (inv_cache s HI)). Qed.

Lemma repl_loop_eq f group acc s v :
  hwms_ok s -> ReplAccInv acc s -> no_cache (virtual_repl acc s) = no_cache v ->
  exists hs acc', repl_loop f group acc s = (set_hwms hs s, acc') /\ hwms_ok (set_hwms hs s)
    /\ ReplAccInv acc' (set_hwms hs s)
    /\ snd <$> ra_results acc' = (snd <$> ra_results acc) ++ snd (repl_each f group v)
    /\ no_cache (virtual_repl acc' (set_hwms hs s)) = no_cache (fst (repl_each f group v)).
Proof.
  revert acc s v; induction group as [|r group IH]; intros acc s v Hok HA Hv; cbn [repl_loop repl_each].
  { exists (hwms s), acc. assert (set_hwms (hwms s) s = s) as -> by (by destruct s). by rewrite app_nil_r. }
  destruct (repl_step_eq f r acc s Hok HA) as (hs & acc1 & -> & Hok1 & HA1 & HR1 & HV1).
  destruct (no_cache_outcome f r _ _ Hv) as [Ho1 Ho2]. rewrite Ho1 in HR1. rewrite Ho2 in HV1.
  destruct (repl_outcome f r v) as [v1 x]. cbn [fst snd] in *.
  destruct (IH acc1 (set_hwms hs s) v1 Hok1 HA1 HV1) as (hs' & acc' & -> & Hok' & HA' & HR' & HV').
  exists hs', acc'. destruct (repl_each f group v1) as [v2 xs]. cbn [fst snd] in *.
  split; [done|]. split; [done|]. split; [done|]. split; [|done].
  rewrite HR', HR1, fmap_app, <- app_assoc. done.
Qed.

Lemma virtual_not_committed acc s :
  ReplAccInv acc s -> ra_committed acc = false -> no_cache (virtual_repl acc s) = no_cache s.
Proof.
  intros HA Hc. destruct (ri_empty acc s HA Hc) as (Hb & Hh & Hn & _).
  assert (Hmv : forall st, st ∉ moved acc s).
  { intros st [Hne Hop]%elem_of_moved. apply (ri_opened acc s HA) in Hop as [n E].
    apply Hne. unfold at_ at 1. rewrite E. by apply Hn. }
  apply Store_eq; try done; store_simpl.
  - apply map_eq. intros k. change (db (no_cache ?u)) with (db u). rewrite virtual_repl_lookup by done. rewrite Hb, Hh.
    destruct (head_of k) as [[st isb]|]; [by rewrite decide_False by apply Hmv|].
    destruct (mark_of k) as [[c st]|]; [|done]. by rewrite lookup_empty.
  - unfold virtual_repl. store_simpl. apply map_eq. intros st. change (next (no_cache ?u)) with (next u). store_simpl.
    rewrite lookup_publish. case_decide as Ho; [|done]. apply (ri_opened acc s HA) in Ho as [n E].
    unfold at_. rewrite E. destruct (ri_known acc s HA _ _ E) as (Hk & _). rewrite (lookup_next s st Hk). f_equal. symmetry. by apply Hn in E.
  - unfold virtual_repl. store_simpl. apply map_eq. intros st. change (bytes (no_cache ?u)) with (bytes u). store_simpl.
    rewrite lookup_publish. case_decide as Ho; [|done]. apply (ri_opened acc s HA) in Ho as [n E].
    destruct (ri_known acc s HA _ _ E) as (Hk & _ & Hbs). specialize (Hbs (Hn _ _ E)).
    unfold at_. rewrite Hbs. by destruct (ri_dom acc s HA _ Hk) as [b ->].
Qed.

Lemma fail_replicated_eq e results s : hwms_ok s ->
  exists hs, fst (fail_replicated e results s) = set_hwms hs s /\ hwms_ok (set_hwms hs s)
    /\ Forall (fun x => rr_applied x = []) (snd (fail_replicated e results s)).
Proof.
  revert s; induction results as [|[r x] results IH]; intros s Hok; cbn [fail_replicated].
  { exists (hwms s). assert (set_hwms (hwms s) s = s) as -> by (by destruct s). by split; [|split; [|constructor]]. }
  case_bool_decide as Ha.
  - destruct (IH s Hok) as (hs & E & Hok' & Hf). destruct (fail_replicated e results s) as [s1 xs]. simpl in *.
    exists hs. by split; [|split; [|constructor]].
  - destruct (HWMGet_eq (rq_child r) (rq_stream r) s Hok) as (hs & -> & Hok1).
    destruct (IH (set_hwms hs s) Hok1) as (hs' & E & Hok' & Hf).
    destruct (fail_replicated e results (set_hwms hs s)) as [s1 xs]. simpl in *.
    exists hs'. by split; [|split; [|constructor]].
Qed.

(** What a group of pushes does: as one by one, or nothing. *)
Lemma commitReplicated_eq f group s : Inv s ->
  hwms_ok (fst (commitReplicated f group s)) /\
  ((no_cache (fst (commitReplicated f group s)) = no_cache (fst (repl_each f group s))
    /\ snd (commitReplicated f group s) = snd (repl_each f group s))
   \/ (no_cache (fst (commitReplicated f group s)) = no_cache s
       /\ Forall (fun x => rr_applied x = []) (snd (commitReplicated f group s)) /\ f <> no_faults)).
Proof.
  intros HI. destruct (empty_repl_inv s HI) as [HA0 HV0].
  destruct (repl_loop_eq f group empty_repl_acc s s (hwms_ok_of_inv s HI) HA0) as (hs & acc & El & Hok & HA & HR & HV);
    [by rewrite HV0|].
  unfold commitReplicated. fold empty_repl_acc. rewrite El. simpl in HR.
  destruct (ra_committed acc) eqn:Hc; cbn [negb].
  2: { split; [done|]. left. split; [|exact HR]. rewrite <- HV. cbn [fst]. by rewrite virtual_not_committed. }
  destruct (head_ops f _ _ _ _) as [b|e] eqn:Eh.
  - apply head_ops_Ok in Eh as ->. destruct (mark_ops f _ _) as [b|e] eqn:Em.
    + apply mark_ops_Ok in Em as ->. unfold commit. destruct (apply_fails f) eqn:Ea.
      * destruct (fail_replicated_eq EApply (ra_results acc) (set_hwms hs s) Hok) as (hs' & -> & Hok' & Hf).
        split; [done|]. right. split; [done|]. split; [done|]. intros ->. done.
      * cbn [fst snd]. split.
        -- change (hwms_ok (virtual_repl acc (set_hwms hs s))). intros child st n Hn.
           rewrite mark_virtual by done. unfold virtual_repl, hwmsCommitted in Hn. store_simpl_in Hn.
           apply lookup_union_Some_raw in Hn as [->|[-> Hn]]; [done|]. by apply Hok.
        -- left. split; [|exact HR]. by rewrite <- HV.
    + destruct (fail_replicated_eq e (ra_results acc) (set_hwms hs s) Hok) as (hs' & -> & Hok' & Hf).
      split; [done|]. right. split; [done|]. split; [done|]. intros ->. by rewrite mark_ops_no_fault in Em.
  - destruct (fail_replicated_eq e (ra_results acc) (set_hwms hs s) Hok) as (hs' & -> & Hok' & Hf).
    split; [done|]. right. split; [done|]. split; [done|]. intros ->. by rewrite head_ops_no_fault in Eh.
Qed.

(** ** The invariant *)

Lemma put_mark_inv child stream h s : Inv s -> Inv (put_mark child stream h s).
Proof.
  intros HI. set (s1 := set_db (<[hwmKey child stream := VU64 h]> (db s)) (set_hwms ∅ s)).
  assert (Hne : forall k, tag k <> "h" -> db s1 !! k = db s !! k).
  { intros k Hk. unfold s1. store_simpl. rewrite lookup_insert_ne; [done|]. by intros <-. }
  destruct HI as [I1 I2 I3 I3' I4 I5 I6 [C1 C2 C3 C4]]. unfold put_mark.
  assert (Hsame : forall T, Forall (fun t => t <> "h") T -> same_tags T (db s) (db s1)).
  { intros T HT k Hk. apply Hne. rewrite Forall_forall in HT. by apply HT. }
  split; store_simpl; fold (db s1).
  - intros st Hst. apply (StreamInv_frame (db s)); [apply Hsame; tag_in|by apply I1].
  - intros st Hst. destruct (I2 st Hst) as [D1 D2 D3 D4 D5]. split; [done|..]; store_simpl;
      (erewrite readCounter_frame; [done|]); by apply Hne.
  - done.
  - done.
  - apply (KVInv_frame (db s)); [apply Hsame; tag_in|done].
  - intros st Hst. apply (JournalInv_frame (db s)); [apply Hsame; tag_in|by apply I5].
  - intros st v Hst. change (db s1 !! rpKey st = Some v -> exists a b, v = VRange a b /\ (a < b)%N). rewrite Hne by done. by apply I6.
  - split; store_simpl.
    + intros c st n. rewrite lookup_insert. unfold readU64. case_decide as E.
      * injection E as <- <-. rewrite lookup_insert_eq. by intros [= <-].
      * rewrite lookup_insert_ne by (unfold hwmKey; congruence). apply C1.
    + intros c i Hc. rewrite lookup_insert_ne by done. by apply C2.
    + done.
    + by rewrite lookup_insert_ne by done.
Qed.

Lemma repl_outcome_inv f r s : Inv s -> Inv (fst (repl_outcome f r s)).
Proof.
  intros HI. unfold repl_outcome. cbv zeta. case_bool_decide as H0; [done|].
  destruct (buildReplicated _ _ _ _) as [bu|]; [|done]. case_bool_decide; [done|].
  apply put_mark_inv, put_records_inv; [by apply (known_stream s)|done].
Qed.

Lemma repl_each_inv f group s : Inv s -> Inv (fst (repl_each f group s)).
Proof.
  revert s; induction group as [|r group IH]; intros s HI; [done|]. cbn [repl_each].
  pose proof (repl_outcome_inv f r s HI) as H1. destruct (repl_outcome f r s) as [s1 x]. simpl in H1.
  specialize (IH s1 H1). by destruct (repl_each f group s1).
Qed.

(** [Inv] does not depend on the caches beyond their agreement with the disk. *)
Lemma Inv_no_cache s s' :
  Inv s -> no_cache s' = no_cache s -> hwms_ok s' -> policies_ok (policies s') -> Inv s'.
Proof.
  intros [I1 I2 I3 I3' I4 I5 I6 [C1 C2 C3 C4]] E Hh Hp. destruct s, s'.
  unfold no_cache, forget, set_policies, set_hwms in E; simpl in E. injection E as -> -> -> -> -> -> -> -> ->.
  split; try done.
  intros stream Hs. by destruct (I2 stream Hs).
Qed.

Lemma policies_commitReplicated f group s :
  policies (fst (commitReplicated f group s)) = policies s.
Proof.
  assert (Hget : forall c st u, policies (fst (HWMGet c st u)) = policies u).
  { intros c st u. unfold HWMGet. by destruct (hwms u !! _). }
  assert (Hloop : forall g acc u, policies (fst (repl_loop f g acc u)) = policies u).
  { induction g as [|r g IH]; intros acc u; [done|]. cbn [repl_loop].
    assert (policies (fst (repl_step f r acc u)) = policies u) as <-; [|by destruct (repl_step f r acc u); apply IH].
    unfold repl_step. cbv zeta. destruct (_ && _)%bool.
    - specialize (Hget (rq_child r) (rq_stream r) u). by destruct (HWMGet _ _ _).
    - destruct (ra_hwms _ !! _) as [h|].
      + destruct (buildReplicated _ _ _ _) as [bu|]; [|done]. by case_bool_decide.
      + specialize (Hget (rq_child r) (rq_stream r) u). destruct (HWMGet _ _ _) as [u' h].
        destruct (buildReplicated _ _ _ _) as [bu|]; [|done]. by case_bool_decide. }
  assert (Hfail : forall e xs u, policies (fst (fail_replicated e xs u)) = policies u).
  { intros e. induction xs as [|[r x] xs IH]; intros u; [done|]. cbn [fail_replicated]. case_bool_decide.
    - specialize (IH u). by destruct (fail_replicated e xs u).
    - specialize (Hget (rq_child r) (rq_stream r) u). destruct (HWMGet _ _ u) as [u' h]. simpl in Hget.
      specialize (IH u'). destruct (fail_replicated e xs u'). simpl in *. congruence. }
  unfold commitReplicated. specialize (Hloop group empty_repl_acc s). fold empty_repl_acc.
  destruct (repl_loop f group empty_repl_acc s) as [s1 acc]. simpl in Hloop.
  destruct (negb _); [done|]. destruct (match head_ops _ _ _ _ _ with Ok _ => _ | Err _ => _ end); [done|]. by rewrite Hfail.
Qed.

Lemma commitReplicated_inv f group s : Inv s -> Inv (fst (commitReplicated f group s)).
Proof.
  intros HI. destruct (commitReplicated_eq f group s HI) as [Hok [[E _]|[E _]]].
  - apply (Inv_no_cache (fst (repl_each f group s))); [by apply repl_each_inv|done|done|].
    rewrite policies_commitReplicated. by apply policies_ok_of_inv.
  - apply (Inv_no_cache s); [done|done|done|]. rewrite policies_commitReplicated. by apply policies_ok_of_inv.
Qed.

(** ** Retries *)

Definition norm (rec : ReplRecord) : ReplRecord := if is_data rec then with_child_origin rec else rec.

Lemma norm_offset rec : rp_ChildOffset (norm rec) = rp_ChildOffset rec.
Proof. unfold norm. case_match; [apply with_child_origin_offset|done]. Qed.

Definition increasing (L : list ReplRecord) : Prop := StronglySorted (fun a b => rp_ChildOffset a < rp_ChildOffset b)%N L.

Lemma above_old h l1 l2 : Forall (fun rec => rp_ChildOffset rec <= h)%N l1 -> above h (l1 ++ l2) = above h l2.
Proof.
  induction 1 as [|rec l1 Hr _ IH]; [done|]. cbn [app above].
  by destruct (N.leb_spec (rp_ChildOffset rec) h); [|lia].
Qed.

Lemma above_new h l : increasing l -> Forall (fun rec => h < rp_ChildOffset rec)%N l -> above h l = norm <$> l.
Proof.
  intros Hs. revert h. induction Hs as [|rec l Hs IH Hr]; intros h Hf; [done|].
  apply Forall_cons in Hf as [Hh _]. cbn [above fmap list_fmap].
  destruct (N.leb_spec (rp_ChildOffset rec) h); [lia|]. f_equal. by apply IH.
Qed.

Lemma last_offset_app h l1 l2 : last_offset h (l1 ++ l2) = last_offset (last_offset h l1) l2.
Proof. apply foldl_app. Qed.

Lemma last_offset_norm h l : last_offset h (norm <$> l) = last_offset h l.
Proof.
  unfold last_offset. revert h; induction l as [|rec l IH]; intros h; [done|]. cbn [fmap list_fmap foldl].
  by rewrite norm_offset, IH.
Qed.

(** In a log of increasing offsets the last offset of a prefix separates it from
    the rest. *)
Lemma last_offset_split l1 l2 :
  increasing (l1 ++ l2) -> Forall (fun rec => 0 < rp_ChildOffset rec)%N (l1 ++ l2) ->
  Forall (fun rec => rp_ChildOffset rec <= last_offset 0 l1)%N l1
  /\ Forall (fun rec => last_offset 0 l1 < rp_ChildOffset rec)%N l2.
Proof.
  intros Hs Hpos. destruct (decide (l1 = [])) as [->|Hne]; [split; [constructor|exact Hpos]|].
  destruct (exists_last Hne) as (l & x & ->). rewrite last_offset_app. cbn [last_offset foldl].
  unfold increasing in Hs. apply StronglySorted_app in Hs as (H12 & H1 & _). apply StronglySorted_app in H1 as (H1 & _ & _).
  split.
  - apply Forall_app. split; [|by repeat constructor]. apply Forall_forall. intros y Hy.
    specialize (H1 y x Hy ltac:(by left)). lia.
  - apply Forall_forall. intros y Hy. apply (H12 x y); [|done]. apply elem_of_app. right. by left.
Qed.

Lemma put_mark_put child stream h st recs s :
  put_records st recs (put_mark child stream h s) = put_mark child stream h (put_records st recs s).
Proof.
  revert s; induction recs as [|rec recs IH]; intros s; [done|].
  change (put_records st (rec :: recs) ?u) with (put_records st recs (put_record st u rec)). rewrite <- IH. f_equal.
  unfold put_record, put_mark. store_simpl. apply Store_eq; try done. store_simpl.
  apply map_eq. intros k. rewrite lookup_apply_batch, !lookup_insert. case_decide as E.
  - subst k. apply batch_at_untouched. apply Forall_app.
    split; [apply record_ops_untouched; tag_in|apply head_batch_untouched; tag_in].
  - by rewrite lookup_apply_batch.
Qed.

Lemma put_records_app stream l1 l2 s :
  put_records stream (l1 ++ l2) s = put_records stream l2 (put_records stream l1 s).
Proof. apply foldl_app. Qed.

Lemma stored_app l1 l2 : stored (l1 ++ l2) = stored l1 ++ stored l2.
Proof. unfold stored. by rewrite filter_app, fmap_app. Qed.

Section log.
Variables (child stream : string) (L : list ReplRecord) (s : Store).

(** The store that holds the first [n] records of the log. *)
Definition delivered (n : nat) : Store :=
  if decide (n = 0) then s
  else put_mark child stream (last_offset 0 (take n L)) (put_records stream (stored (norm <$> take n L)) s).

(** A push of the records [i] to [j] of the log. *)
Definition push (w : nat * nat) : replRequest := mkReplRequest child stream (drop (fst w) (take (snd w) L)).

Fixpoint contiguous (n : nat) (ws : list (nat * nat)) : Prop :=
  match ws with
  | [] => True
  | (i, j) :: ws => i <= n /\ j <= length L /\ contiguous (max n j) ws
  end.

Definition reached (n : nat) (ws : list (nat * nat)) : nat := foldl (fun n w => max n (snd w)) n ws.

Hypothesis Hinc : increasing L.
Hypothesis Hpos : Forall (fun rec => 0 < rp_ChildOffset rec)%N L.
Hypothesis Hskip : Forall (fun rec => invalid_skip stream rec = false) L.
Hypothesis Hstream : NextOffset s stream <> 0%N.
Hypothesis Hfresh : mark s child stream = 0%N.

Lemma mark_put_records recs u : mark (put_records stream recs u) child stream = mark u child stream.
Proof.
  unfold mark, readU64. rewrite lookup_put_records. unfold head_of; simpl.
  by rewrite batch_at_untouched by (apply records_ops_untouched; tag_in).
Qed.

Lemma mark_delivered n : mark (delivered n) child stream = last_offset 0 (take n L).
Proof.
  unfold delivered. case_decide; [subst; by rewrite take_0|].
  unfold put_mark, mark, readU64. store_simpl. by rewrite lookup_insert_eq.
Qed.

Lemma known_delivered n : NextOffset (delivered n) stream <> 0%N.
Proof.
  unfold delivered. case_decide; [done|]. unfold put_mark, NextOffset. store_simpl.
  fold (NextOffset (put_records stream (stored (norm <$> take n L)) s) stream). by rewrite put_unknown.
Qed.

Lemma above_window n i j : i <= n -> n <= length L ->
  above (last_offset 0 (take n L)) (drop i (take j L)) = norm <$> drop n (take j L).
Proof.
  intros Hi Hn. pose proof (last_offset_split (take n L) (drop n L)) as Hsp. rewrite take_drop in Hsp.
  destruct (Hsp Hinc Hpos) as [Hle Hlt]. rewrite Forall_forall in Hle.
  destruct (decide (j <= n)) as [Hj|Hj].
  - rewrite (drop_ge (take j L) n) by (rewrite length_take; lia).
    rewrite <- (app_nil_r (drop i (take j L))), above_old; [done|].
    apply Forall_forall. intros rec Hrec. apply Hle.
    apply list_elem_of_lookup in Hrec as [k Hk]. rewrite lookup_drop in Hk. apply lookup_take_Some in Hk as [Hk Hlt'].
    apply list_elem_of_lookup. exists (i + k). apply lookup_take_Some. split; [done|lia].
  - assert (take j L = take n L ++ drop n (take j L)) as Etj.
    { rewrite <- (take_drop n (take j L)) at 1. f_equal. rewrite take_take. f_equal. lia. }
    rewrite Etj at 1. rewrite drop_app_le by (rewrite length_take; lia). rewrite above_old.
    + apply above_new.
      * unfold increasing in *. rewrite <- (take_drop j L), Etj, <- app_assoc in Hinc.
        apply StronglySorted_app in Hinc as (_ & _ & Hinc'). by apply StronglySorted_app in Hinc' as (_ & ? & _).
      * apply Forall_forall. intros rec Hrec. rewrite Forall_forall in Hlt. apply Hlt.
        apply list_elem_of_lookup in Hrec as [k Hk]. rewrite lookup_drop in Hk. apply lookup_take_Some in Hk as [Hk _].
        apply list_elem_of_lookup. exists k. by rewrite lookup_drop.
    + apply Forall_forall. intros rec Hrec. apply Hle. apply list_elem_of_lookup in Hrec as [k Hk].
      rewrite lookup_drop in Hk. apply list_elem_of_lookup. by exists (i + k).
Qed.

Lemma delivered_step n i j : i <= n -> n <= length L -> j <= length L ->
  fst (repl_outcome no_faults (push (i, j)) (delivered n)) = delivered (max n j)
  /\ rr_hwm (snd (repl_outcome no_faults (push (i, j)) (delivered n))) = last_offset 0 (take (max n j) L)
  /\ rr_err (snd (repl_outcome no_faults (push (i, j)) (delivered n))) = None.
Proof.
  intros Hi Hn Hj. unfold repl_outcome. cbv zeta. cbn [rq_child rq_stream rq_recs push fst snd].
  rewrite bool_decide_eq_false_2, mark_delivered by apply known_delivered.
  destruct (build_loop_no_fault stream (drop i (take j L)) (mkBuilt [] (last_offset 0 (take n L)) (NextOffset (delivered n) stream) 0 [])) as [bu Eb].
  { apply Forall_drop, Forall_take. done. }
  change (buildReplicated no_faults (push (i, j)) ?p ?o) with (build_loop no_faults stream (drop i (take j L)) (mkBuilt [] p o 0 [])).
  rewrite Eb. apply build_loop_Ok in Eb. cbn [bu_hwm bu_applied bu_next bu_added bu_own app] in Eb. rewrite above_window in Eb by done. subst bu.
  cbn [bu_applied bu_hwm]. rewrite last_offset_norm, <- last_offset_app.
  destruct (decide (j <= n)) as [Hjn|Hjn].
  - rewrite (drop_ge (take j L) n) by (rewrite length_take; lia). rewrite bool_decide_eq_true_2 by done.
    rewrite app_nil_r. by replace (max n j) with n by lia.
  - replace (max n j) with j by lia.
    assert (Etj : take n L ++ drop n (take j L) = take j L).
    { rewrite <- (take_drop n (take j L)) at 2. f_equal. rewrite take_take. f_equal. lia. }
    rewrite bool_decide_eq_false_2.
    2: { intros E. apply (f_equal length) in E. rewrite length_fmap, length_drop, length_take in E. simpl in E. lia. }
    cbn [fst snd rr_hwm rr_err]. rewrite Etj. split; [|done].
    unfold repl_effect, delivered. cbn [rq_child rq_stream push]. rewrite (decide_False (P := j = 0)) by lia.
    assert (put_records stream (stored (norm <$> take j L)) s
      = put_records stream (stored (norm <$> drop n (take j L))) (put_records stream (stored (norm <$> take n L)) s)) as ->.
    { rewrite <- put_records_app, <- stored_app, <- fmap_app, Etj. done. }
    case_decide as H0; [subst n; by rewrite take_0|].
    rewrite put_mark_put. unfold put_mark. store_simpl. by rewrite !insert_insert_eq.
Qed.

(** The pushes, one after the other. *)
Fixpoint push_all (ws : list (nat * nat)) (u : Store) : Store :=
  match ws with
  | [] => u
  | w :: ws => push_all ws (fst (commitReplicated no_faults [push w] u))
  end.

Lemma commitReplicated_single r u : Inv u ->
  no_cache (fst (commitReplicated no_faults [r] u)) = no_cache (fst (repl_outcome no_faults r u))
  /\ snd (commitReplicated no_faults [r] u) = [snd (repl_outcome no_faults r u)].
Proof.
  intros HI. destruct (commitReplicated_eq no_faults [r] u HI) as [_ [[E1 E2]|(_ & _ & Hf)]]; [|done].
  cbn [repl_each] in E1, E2. destruct (repl_outcome no_faults r u). done.
Qed.

Lemma push_all_delivered n ws u :
  Inv u -> n <= length L -> contiguous n ws -> no_cache u = no_cache (delivered n) ->
  no_cache (push_all ws u) = no_cache (delivered (reached n ws)).
Proof.
  revert n u; induction ws as [|[i j] ws IH]; intros n u HI Hn Hc Hu; [done|].
  destruct Hc as (Hi & Hj & Hc). cbn [push_all]. unfold reached. cbn [foldl snd]. fold (reached (max n j) ws).
  destruct (commitReplicated_single (push (i, j)) u HI) as [E _].
  destruct (no_cache_outcome no_faults (push (i, j)) _ _ Hu) as [_ E'].
  destruct (delivered_step n i j Hi Hn Hj) as (E'' & _).
  apply IH; [by apply commitReplicated_inv|lia|done|]. by rewrite E, E', E''.
Qed.

End log.

(** ** Theorems *)

(** C2: Replication is exactly once and in order, whatever is retried: a child whose
    log has increasing offsets pushes any windows of it, each starting no later
    than what has arrived so far, overlapping and repeated at will; in the end the
    parent holds exactly the longest prefix pushed, every record stored once, in
    log order, at consecutive local offsets, and the mark names its last offset. *)
Theorem replicate_exactly_once child stream L ws s :
  Inv s -> increasing L -> Forall (fun rec => 0 < rp_ChildOffset rec)%N L ->
  Forall (fun rec => invalid_skip stream rec = false) L ->
  stream ∈ streams -> mark s child stream = 0%N -> contiguous L 0 ws ->
  no_cache (push_all child stream L ws s) = no_cache (delivered child stream L s (reached 0 ws)).
Proof.
  intros HI Hinc Hpos Hskip Hs Hm Hc. apply push_all_delivered; try done; [|lia].
  pose proof (ci_bounds _ _ (inv_counter s HI stream Hs)). lia.
Qed.

(** Pushes of many children in one synced commit are as good as one commit each:
    the group leaves the store and gives every child the applied records, mark or
    error it would have got on its own, a malformed request failing alone; or, when
    the commit fails, nothing changed on disk or in any head, byte count or mark,
    and no child is told anything was applied. *)
Theorem commitReplicated_one_by_one f group s :
  Inv s ->
  let '(s', xs) := commitReplicated f group s in
  (no_cache s' = no_cache (fst (repl_each f group s)) /\ xs = snd (repl_each f group s))
  \/ (no_cache s' = no_cache s /\ Forall (fun x => rr_applied x = []) xs /\ f <> no_faults).
Proof.
  intros HI. destruct (commitReplicated_eq f group s HI) as [_ Hc].
  destruct (commitReplicated f group s) as [s' xs]. exact Hc.
Qed.

(** ** A rebuilt child *)

Lemma adopt_lookup child i (reset : bool) d k :
  apply_batch ((if reset then [BDeleteRange (HwmRange child)] else []) ++ [BSet (childStoreKey child) (VBytes i)]) d !! k
  = if decide (childStoreKey child = k) then Some (VBytes i)
    else if reset && in_keys (HwmRange child) k then None else d !! k.
Proof.
  rewrite lookup_apply_batch, batch_at_app. unfold batch_at at 1. cbn [foldl flip op_at].
  case_decide; [done|]. destruct reset; [|done]. unfold batch_at. cbn [foldl flip op_at andb]. by destruct (in_keys _ _).
Qed.

Lemma in_hwm_range child k : in_keys (HwmRange child) k = true -> tag k = "h".
Proof.
  unfold in_keys, tag. destruct k as [[|t [|name [|last []]]] []]; simpl; try done. intros. bool_simp. by subst.
Qed.

Lemma AdoptChildStore_cases f child i s s' r :
  AdoptChildStore f child i s = (s', r) ->
  (exists e, r = Err e /\ s' = s)
  \/ (r = Ok false /\ s' = s /\ (i = "" \/ adopted s !! child = Some i))
  \/ (r = Ok false /\ s' = set_adopted (<[child := i]> (adopted s)) s /\ i <> "" /\ db s !! childStoreKey child = Some (VBytes i))
  \/ (exists reset prev, r = Ok reset /\ i <> "" /\ prev <> i /\ reset = (prev != "")
       /\ prev = match db s !! childStoreKey child with Some (VBytes p) => p | _ => "" end
       /\ let d := apply_batch ((if reset then [BDeleteRange (HwmRange child)] else []) ++ [BSet (childStoreKey child) (VBytes i)]) (db s) in
          s' = set_adopted (<[child := i]> (adopted s)) (if reset then hwmsDropped child (set_db d s) else set_db d s)).
Proof.
  unfold AdoptChildStore. case_bool_decide as Hi; [intros [= <- <-]; auto 10|].
  case_bool_decide as Ha; [intros [= <- <-]; auto 10|]. cbv zeta.
  set (prev := match db s !! childStoreKey child with Some (VBytes p) => p | _ => "" end).
  case_bool_decide as Hp.
  { intros [= <- <-]. right; right; left. split; [done|]. split; [done|]. split; [done|].
    unfold prev in Hp. destruct (db s !! childStoreKey child) as [[]|]; try congruence. }
  destruct (bset f _ _ _) as [b|] eqn:Eb; [|intros [= <- <-]; eauto]. apply bset_Ok in Eb as ->.
  unfold commit. destruct (apply_fails f); [intros [= <- <-]; eauto|].
  intros [= <- <-]. right; right; right. exists (prev != ""), prev. repeat split; try done.
  by destruct (prev != "").
Qed.

Lemma AdoptChildStore_inv f child i s : Inv s -> Inv (fst (AdoptChildStore f child i s)).
Proof.
  intros HI. destruct (AdoptChildStore f child i s) as [s' r] eqn:E. simpl.
  destruct (AdoptChildStore_cases _ _ _ _ _ _ E) as [(e & _ & ->)|[(_ & -> & _)|[(_ & -> & _ & Hd)|(reset & prev & _ & _ & _ & _ & _ & ->)]]];
    [done|done| |].
  - destruct HI as [I1 I2 I3 I3' I4 I5 I6 [C1 C2 C3 C4]]. split; try done; [intros stream Hs; by destruct (I2 stream Hs)|].
    split; try done. store_simpl. intros c j. rewrite lookup_insert. case_decide; [subst; by intros [= <-]|apply C2].
  - set (d := apply_batch _ _). pose proof (fun k => adopt_lookup child i reset (db s) k) as Hl. fold d in Hl.
    assert (Hne : forall k, tag k <> "h" -> tag k <> "u" -> d !! k = db s !! k).
    { intros k Hh Hu. rewrite Hl, decide_False by (intros <-; done).
      destruct (in_keys (HwmRange child) k) eqn:Ek; [by apply in_hwm_range in Ek|]. by rewrite andb_false_r. }
    destruct HI as [I1 I2 I3 I3' I4 I5 I6 [C1 C2 C3 C4]].
    set (s1 := set_adopted _ _).
    assert (db s1 = d /\ next s1 = next s /\ lwm s1 = lwm s /\ bytes s1 = bytes s /\ policies s1 = policies s /\ id s1 = id s
      /\ adopted s1 = <[child := i]> (adopted s)
      /\ hwms s1 = if reset then filter (fun kv => fst (fst kv) <> child) (hwms s) else hwms s) as (F1 & F2 & F3 & F4 & F5 & F6 & F7 & F8)
      by (unfold s1, hwmsDropped; by destruct reset).
    assert (Hsame : forall T, Forall (fun t => t <> "h" /\ t <> "u") T -> same_tags T (db s) (db s1)).
    { intros T HT k Hk. rewrite F1. rewrite Forall_forall in HT. by apply Hne; apply HT. }
    clearbody s1. split; unfold LWM, NextOffset, StreamBytes in *; rewrite ?F2, ?F3, ?F4.
    + intros st Hst. apply (StreamInv_frame (db s)); [apply Hsame; tag_in|by apply I1].
    + intros st Hst. destruct (I2 st Hst) as [D1 D2 D3 D4 D5]. split; unfold LWM, NextOffset, StreamBytes in *; rewrite ?F2, ?F3, ?F4, ?F1; [done|..];
        (erewrite readCounter_frame; [done|]); by apply Hne.
    + done.
    + done.
    + apply (KVInv_frame (db s)); [apply Hsame; tag_in|done].
    + intros st Hst. apply (JournalInv_frame (db s)); [apply Hsame; tag_in|by apply I5].
    + intros st v Hst. rewrite F1, Hne by done. by apply I6.
    + split; rewrite ?F5, ?F6, ?F7, ?F8, ?F1; [| |done|by rewrite Hne].
      * intros c st n Hn. unfold readU64. rewrite Hl, decide_False by (unfold childStoreKey, hwmKey; congruence).
        destruct reset; cbn [andb]; [|by apply C1].
        apply map_lookup_filter_Some in Hn as [Hn Hc]. simpl in Hc.
        assert (in_keys (HwmRange child) (hwmKey c st) = false) as ->; [|by apply C1].
        simpl. by apply bool_decide_eq_false_2.
      * intros c j. rewrite lookup_insert. case_decide as Ec; [subst; intros [= <-]; rewrite Hl; by rewrite decide_True|].
        intros Hc. rewrite Hl, decide_False by (unfold childStoreKey; congruence). simpl. rewrite andb_false_r. by apply C2.
Qed.

(** A rebuilt child starts over and loses nothing: when a child reports an
    incarnation other than the one recorded, every mark kept of it is cleared, on
    disk and in memory, so its new offsets are not taken for replays; another
    child's marks, even one whose name continues its name, stay; a first or
    unchanged incarnation clears nothing; a failed write changes nothing. *)
Theorem AdoptChildStore_resets f child i s s' r :
  Inv s -> i <> "" -> AdoptChildStore f child i s = (s', r) ->
  match r with
  | Err _ => s' = s
  | Ok reset =>
      ChildStore child s' = i
      /\ (reset = true <-> ChildStore child s <> "" /\ ChildStore child s <> i)
      /\ (forall c st, mark s' c st = if reset && (c == child) then 0%N else mark s c st)
      /\ (forall c st, snd (HWMGet c st s') = mark s' c st)
      /\ next s' = next s /\ forall stream off, record_at (db s') stream off = record_at (db s) stream off
  end.
Proof.
  intros HI Hi E. pose proof (AdoptChildStore_inv f child i s HI) as HI'. rewrite E in HI'. simpl in HI'.
  assert (Hget : forall c st, snd (HWMGet c st s') = mark s' c st).
  { intros c st. by destruct (HWMGet_eq c st s' (hwms_ok_of_inv s' HI')) as (hs & -> & _). }
  assert (Hcs : ChildStore child s = match db s !! childStoreKey child with Some (VBytes p) => p | _ => "" end).
  { unfold ChildStore. destruct (adopted s !! child) as [j|] eqn:Ea; [|done].
    by rewrite (ca_adopted s (inv_cache s HI) _ _ Ea). }
  destruct (AdoptChildStore_cases _ _ _ _ _ _ E) as [(e & -> & ->)|[(-> & -> & [?|Ha])|[(-> & -> & _ & Hd)|(reset & prev & -> & _ & Hp & Hr & Hprev & ->)]]];
    [done|done|..].
  - assert (ChildStore child s = i) as Ei by (unfold ChildStore; by rewrite Ha).
    split; [done|]. split; [split; [done|intros [_ ?]; congruence]|]. done.
  - assert (ChildStore child s = i) as Ei by (by rewrite Hcs, Hd).
    split; [unfold ChildStore; store_simpl; by rewrite lookup_insert_eq|]. split; [split; [done|intros [_ ?]; congruence]|]. done.
  - rewrite <- Hprev in Hcs. rewrite Hcs. set (d := apply_batch _ _) in *.
    assert (Hdb : forall u, db (set_adopted u (if reset then hwmsDropped child (set_db d s) else set_db d s)) = d) by (by destruct reset).
    split; [unfold ChildStore; store_simpl; by destruct reset; store_simpl; rewrite lookup_insert_eq|].
    split; [rewrite Hr, negb_true_iff, bool_decide_eq_false; naive_solver|].
    split; [|split; [exact Hget|split; [by destruct reset|]]].
    + intros c st. unfold mark, readU64. rewrite Hdb. unfold d. rewrite adopt_lookup, decide_False by (unfold childStoreKey, hwmKey; congruence).
      change (in_keys (HwmRange child) (hwmKey c st)) with (c == child). by destruct (reset && (c == child)).
    + intros stream off. unfold record_at. rewrite Hdb. unfold d. rewrite adopt_lookup, decide_False by (unfold childStoreKey, streamKey; congruence).
      change (in_keys (HwmRange child) (streamKey stream off)) with false. by rewrite andb_false_r.
Qed.

End repl.

(** ** Examples *)

Section examples.
#[local] Existing Instance demo_codec.

Definition demo_push (off skip : N) (topic : string) : ReplRecord :=
  mkReplRecord skip off 0 topic "" 7 "" "" "" "" [] "" "" [] "" "" "" false.

(** A record, a skipped range, a record. *)
Definition demo_log : list ReplRecord :=
  [demo_push 2 0 "colca/v1/_Metric/n/a"; demo_push 5 3 ""; demo_push 6 0 "colca/v1/_Metric/n/b"].

Lemma replicate_exactly_once_witness :
  let s' := push_all "e1" "metrics" demo_log [(0, 2); (0, 2); (1, 3); (0, 1)] demo_store in
  no_cache s' = no_cache (delivered "e1" "metrics" demo_log demo_store 3)
  /\ NextOffset s' "metrics" = 3%N /\ mark s' "e1" "metrics" = 6%N.
Proof.
  split; [|split; vm_compute; reflexivity].
  apply (replicate_exactly_once "e1" "metrics" demo_log [(0, 2); (0, 2); (1, 3); (0, 1)] demo_store demo_store_inv).
  - repeat constructor.
  - repeat constructor.
  - repeat constructor.
  - tag_in.
  - reflexivity.
  - vm_compute. repeat split; repeat constructor.
Defined.

Lemma commitReplicated_one_by_one_witness :
  let f := demo_faults in let group := [mkReplRequest "e1" "metrics" demo_log] in
  let '(s', xs) := commitReplicated f group demo_store in
  (no_cache s' = no_cache (fst (repl_each f group demo_store)) /\ xs = snd (repl_each f group demo_store))
  \/ (no_cache s' = no_cache demo_store /\ Forall (fun x => rr_applied x = []) xs /\ f <> no_faults).
Proof. exact (commitReplicated_one_by_one demo_faults [mkReplRequest "e1" "metrics" demo_log] demo_store demo_store_inv). Defined.

(** A store that has a mark of a child. *)
Definition demo_adopted : Store :=
  put_mark "e1" "metrics" 6 (fst (AdoptChildStore no_faults "e1" "first" demo_store)).

Lemma demo_adopted_inv : Inv demo_adopted.
Proof. apply put_mark_inv, AdoptChildStore_inv, demo_store_inv. Qed.

Lemma AdoptChildStore_resets_witness :
  let s' := fst (AdoptChildStore no_faults "e1" "second" demo_adopted) in
  ChildStore "e1" s' = "second" /\ mark demo_adopted "e1" "metrics" = 6%N /\ mark s' "e1" "metrics" = 0%N.
Proof.
  destruct (AdoptChildStore no_faults "e1" "second" demo_adopted) as [s' r] eqn:E. cbn [fst].
  assert (r = Ok true) as -> by (apply (f_equal snd) in E; vm_compute in E; by subst r).
  destruct (AdoptChildStore_resets no_faults "e1" "second" demo_adopted s' (Ok true) demo_adopted_inv ltac:(discriminate) E)
    as (H1 & _ & H2 & _).
  split; [exact H1|]. split; [reflexivity|]. rewrite H2. reflexivity.
Defined.

End examples.
