(* ===== verification/StoreCursor.v ===== *)
(** * The store: cursors and incarnations

    Consumer cursors ([store.go]), their group commit ([cursorgroup.go]), and
    what the store remembers of its parents and of its own incarnation
    ([incarnation.go]). Cursor moves run under their own lock, so each operation
    is one step. *)

From S2P Require Export StoreRepl.

Open Scope string_scope.
Open Scope list_scope.
Open Scope go_scope.

(** ** Reading *)

Definition CursorGet (s : Store) (name stream : string) : N := readU64 (db s) (cursorKey name stream) 1.

(** [CursorLookup]: the position, and whether the cursor exists. *)
Definition CursorLookup (s : Store) (name stream : string) : N * bool :=
  match db s !! cursorKey name stream with Some (VU64 n) => (n, true) | _ => (1%N, false) end.

Definition CursorStart (s : Store) (name stream : string) : N * bool :=
  let '(pos, saved) := CursorLookup s name stream in
  if saved : bool then (pos, true) else (LWM s stream, false).

Record CursorInfo := mkCursorInfo { ci_Name : string; ci_Stream : string; ci_Position : N; ci_LastAdvanceMS : N }.

(** [CursorSnapshot] over [scanU64Pairs('c')]. Its order is that of the map. *)
Definition cursor_info (d : DB) (kv : Key * Val) : option CursorInfo :=
  match parts (fst kv), suffix (fst kv), snd kv with
  | [t; name; stream], None, VU64 pos =>
      if t == "c" then Some (mkCursorInfo name stream pos (readU64 d (ctKey name stream) 0)) else None
  | _, _, _ => None
  end.

Definition CursorSnapshot (d : DB) : list CursorInfo := omap (cursor_info d) (map_to_list d).

(** [ProtectedCursors]: the cursors of [stream] that still hold retention back,
    and the stale ones. Times are in milliseconds; a [window] of zero or less
    never overrides. *)
Definition is_stale (now window : Z) (c : CursorInfo) : bool :=
  let last := if ci_LastAdvanceMS c == 0%N then now else Z.of_N (ci_LastAdvanceMS c) in
  (0 <? window)%Z && (window <? now - last)%Z.

Definition ProtectedCursors (s : Store) (stream : string) (now window : Z) : list CursorInfo * list CursorInfo :=
  let of_stream := filter (fun c => ci_Stream c = stream) (CursorSnapshot (db s)) in
  (filter (fun c => is_stale now window c = false) of_stream, filter (fun c => is_stale now window c = true) of_stream).

(** ** Acks *)

Record ackRequest := mkAckRequest {
  ak_name : string;
  ak_stream : string;
  ak_off : N;
  ak_marked : bool;
  ak_parent : string;
  ak_mark : N;
}.

(** What the loop of [commitAcks] has gathered. *)
Record AckAcc := mkAckAcc {
  kc_positions : gmap Key N;
  kc_marks : gmap Key N;
  kc_batch : Batch;
  kc_moved : list bool;
}.

Definition ack_step (f : Faults) (now : N) (d : DB) (r : ackRequest) (acc : AckAcc) : result StoreErr AckAcc :=
  let key := cursorKey (ak_name r) (ak_stream r) in
  let cur := match kc_positions acc !! key with Some p => p | None => readU64 d key 1 end in
  let moves := (cur <? ak_off r)%N in
  let! (positions, b) :=
    (if moves then
       let! b := bset f key (VU64 (ak_off r)) (kc_batch acc) in
       let! b := bset f (ctKey (ak_name r) (ak_stream r)) (VU64 now) b in
       Ok (<[key := ak_off r]> (kc_positions acc), b)
     else Ok (kc_positions acc, kc_batch acc)) in
  let! (marks, b) :=
    (if ak_marked r then
       let k := ackedKey (ak_parent r) (ak_stream r) in
       let prev := match kc_marks acc !! k with Some p => p | None => readU64 d k 0 end in
       if ak_mark r != prev then
         let! b := bset f k (VU64 (ak_mark r)) b in Ok (<[k := ak_mark r]> (kc_marks acc), b)
       else Ok (kc_marks acc, b)
     else Ok (kc_marks acc, b)) in
  Ok (mkAckAcc positions marks b (kc_moved acc ++ [moves])).

Fixpoint ack_loop (f : Faults) (now : N) (d : DB) (group : list ackRequest) (acc : AckAcc) : result StoreErr AckAcc :=
  match group with
  | [] => Ok acc
  | r :: group => let! acc := ack_step f now d r acc in ack_loop f now d group acc
  end.

(** [commitAcks]: whether each cursor moved, or the error of the group. *)
Definition commitAcks (f : Faults) (now : N) (group : list ackRequest) (s : Store) : Store * result StoreErr (list bool) :=
  match ack_loop f now (db s) group (mkAckAcc ∅ ∅ [] []) with
  | Err e => (s, Err e)
  | Ok acc =>
      if bool_decide (kc_batch acc = []) then (s, Ok (kc_moved acc))
      else match commit f (kc_batch acc) (db s) with
           | Err e => (s, Err e)
           | Ok d => (set_db d s, Ok (kc_moved acc))
           end
  end.

(** [CursorAck] and [CursorAckMarked]: the ack goes through its queue; here as a group
    of one. *)
Definition CursorAck (f : Faults) (ms : N) (name stream : string) (off : N) (s : Store) : Store * bool :=
  match commitAcks f ms [mkAckRequest name stream off false "" 0] s with
  | (s', Ok [moved]) => (s', moved)
  | (s', _) => (s', false)
  end.

Definition CursorAckMarked (f : Faults) (ms : N) (name stream : string) (off : N) (parent : string) (mark : N) (s : Store)
    : Store * result StoreErr bool :=
  match commitAcks f ms [mkAckRequest name stream off true parent mark] s with
  | (s', Ok [moved]) => (s', Ok moved)
  | (s', Ok _) => (s', Ok false)
  | (s', Err e) => (s', Err e)
  end.

(** ** Other moves *)

Definition CursorSetIfAbsent (f : Faults) (now : N) (name stream : string) (off : N) (s : Store) : Store * result StoreErr bool :=
  match db s !! cursorKey name stream with
  | Some _ => (s, Ok false)
  | None =>
      let built := let! b := bset f (cursorKey name stream) (VU64 off) [] in
                   let! b := bset f (ctKey name stream) (VU64 now) b in
                   commit f b (db s) in
      match built with Err e => (s, Err e) | Ok d => (set_db d s, Ok true) end
  end.

Definition CursorDelete (f : Faults) (name stream : string) (s : Store) : Store * result StoreErr unit :=
  let built := let! b := bdelete f (cursorKey name stream) [] in
               let! b := bdelete f (ctKey name stream) b in
               commit f b (db s) in
  match built with Err e => (s, Err e) | Ok d => (set_db d s, Ok ()) end.

(** A sighting that cannot be written is only logged. *)
Definition CursorMarkSeen (f : Faults) (name stream : string) (ts : N) (s : Store) : Store :=
  if readU64 (db s) (ctKey name stream) 0 != 0%N then s
  else if apply_fails f then s
  else set_db (<[ctKey name stream := VU64 ts]> (db s)) s.

(** ** Parents and incarnations *)

Definition AckedMark (s : Store) (parent stream : string) : N := readU64 (db s) (ackedKey parent stream) 0.

Definition ParentState (s : Store) (parent : string) : option string :=
  match db s !! parentStateKey parent with Some (VBytes b) => Some b | _ => None end.

Definition SetParentState (f : Faults) (parent state : string) (s : Store) : Store * result StoreErr unit :=
  if apply_fails f then (s, Err EApply) else (set_db (<[parentStateKey parent := VBytes state]> (db s)) s, Ok ()).

Record CursorPlacement := mkCursorPlacement { cp_Name : string; cp_Stream : string; cp_To : N }.

Fixpoint place_ops (f : Faults) (now : N) (cursors : list CursorPlacement) (b : Batch) : result StoreErr Batch :=
  match cursors with
  | [] => Ok b
  | c :: cursors =>
      let! b := bset f (cursorKey (cp_Name c) (cp_Stream c)) (VU64 (cp_To c)) b in
      let! b := bset f (ctKey (cp_Name c) (cp_Stream c)) (VU64 now) b in
      place_ops f now cursors b
  end.

Fixpoint acked_ops (f : Faults) (parent : string) (marks : list (string * N)) (b : Batch) : result StoreErr Batch :=
  match marks with
  | [] => Ok b
  | (stream, m) :: marks => let! b := bset f (ackedKey parent stream) (VU64 m) b in acked_ops f parent marks b
  end.

Definition ResyncParent (f : Faults) (now : N) (parent state : string) (cursors : list CursorPlacement)
    (marks : gmap string N) (s : Store) : Store * result StoreErr unit :=
  let built := let! b := place_ops f now cursors [] in
               let! b := acked_ops f parent (map_to_list marks) b in
               let! b := bset f (parentStateKey parent) (VBytes state) b in
               commit f b (db s) in
  match built with Err e => (s, Err e) | Ok d => (set_db d s, Ok ()) end.

(** [reincarnate]; [mint] is the random id. *)
Definition reincarnate (f : Faults) (mint : string) (now : N) (onlyFrom reason : string) (s : Store)
    : Store * result StoreErr (string * bool) :=
  let previous := id s in
  if (onlyFrom != "") && (onlyFrom != previous) then (s, Ok (previous, false))
  else
    let built := let! b := bset f storeIDKey (VBytes mint) [] in
                 let! b := bset f incarnationChangeKey (VChange (mkIncarnationChange previous reason now)) b in
                 commit f (b ++ [BDeleteRange AckedRange]) (db s) in
    match built with
    | Err e => (s, Err e)
    | Ok d => (set_id mint true (set_db d s), Ok (mint, true))
    end.

Definition Reincarnate (f : Faults) (mint : string) (now : N) (reason : string) (s : Store) :=
  reincarnate f mint now "" reason s.
Definition ReincarnateFrom (f : Faults) (mint : string) (now : N) (current reason : string) (s : Store) :=
  reincarnate f mint now current reason s.
Definition StoreID (s : Store) : string := id s.
Definition MayHaveRegressed (s : Store) : bool := negb (idMinted s).

Definition LastIncarnationChange (s : Store) : option IncarnationChange :=
  match db s !! incarnationChangeKey with Some (VChange c) => Some c | _ => None end.

(** ** Acks, one by one *)

(** What one ack does to the disk. *)
Definition ack_effect (now : N) (d : DB) (r : ackRequest) : DB :=
  let d := if (readU64 d (cursorKey (ak_name r) (ak_stream r)) 1 <? ak_off r)%N
           then <[ctKey (ak_name r) (ak_stream r) := VU64 now]> (<[cursorKey (ak_name r) (ak_stream r) := VU64 (ak_off r)]> d)
           else d in
  if ak_marked r && (ak_mark r != readU64 d (ackedKey (ak_parent r) (ak_stream r)) 0)
  then <[ackedKey (ak_parent r) (ak_stream r) := VU64 (ak_mark r)]> d else d.

Fixpoint ack_moves (now : N) (group : list ackRequest) (d : DB) : list bool :=
  match group with
  | [] => []
  | r :: group => (readU64 d (cursorKey (ak_name r) (ak_stream r)) 1 <? ak_off r)%N :: ack_moves now group (ack_effect now d r)
  end.

(** What the accumulator stands for. *)
Record AckAccInv (acc : AckAcc) (d : DB) : Prop := {
  kc_pos : forall name stream, readU64 (apply_batch (kc_batch acc) d) (cursorKey name stream) 1
             = match kc_positions acc !! cursorKey name stream with Some p => p | None => readU64 d (cursorKey name stream) 1 end;
  kc_mark : forall parent stream, readU64 (apply_batch (kc_batch acc) d) (ackedKey parent stream) 0
             = match kc_marks acc !! ackedKey parent stream with Some p => p | None => readU64 d (ackedKey parent stream) 0 end;
}.

Lemma readU64_insert d k k' v n :
  readU64 (<[k := v]> d) k' n = if decide (k = k') then (match v with VU64 m => m | _ => n end) else readU64 d k' n.
Proof. unfold readU64. rewrite lookup_insert. by case_decide. Qed.

Lemma apply_batch_snoc b k v d : apply_batch (b ++ [BSet k v]) d = <[k := v]> (apply_batch b d).
Proof. by rewrite apply_batch_app. Qed.

Lemma ack_step_Ok f now d r acc acc' :
  AckAccInv acc d -> ack_step f now d r acc = Ok acc' ->
  AckAccInv acc' d
  /\ apply_batch (kc_batch acc') d = ack_effect now (apply_batch (kc_batch acc) d) r
  /\ kc_moved acc' = kc_moved acc ++ [(readU64 (apply_batch (kc_batch acc) d) (cursorKey (ak_name r) (ak_stream r)) 1 <? ak_off r)%N].
Proof.
  intros [P1 P2] E. unfold ack_step in E. cbv zeta in E. unfold ack_effect.
  rewrite <- (P1 (ak_name r) (ak_stream r)) in E. set (d1 := apply_batch (kc_batch acc) d) in *.
  set (key := cursorKey (ak_name r) (ak_stream r)) in *. set (ak := ackedKey (ak_parent r) (ak_stream r)) in *.
  set (d2 := if (readU64 d1 key 1 <? ak_off r)%N then _ else d1).
  (* the cursor *)
  assert (Hcur : exists positions b, (if (readU64 d1 key 1 <? ak_off r)%N then
       match bset f key (VU64 (ak_off r)) (kc_batch acc) with
       | Ok b => match bset f (ctKey (ak_name r) (ak_stream r)) (VU64 now) b with
                 | Ok b => Ok (<[key := ak_off r]> (kc_positions acc), b) | Err e => Err e end
       | Err e => Err e end
     else Ok (kc_positions acc, kc_batch acc)) = Ok (positions, b)
     /\ apply_batch b d = d2
     /\ forall name stream, readU64 d2 (cursorKey name stream) 1
          = match positions !! cursorKey name stream with Some p => p | None => readU64 d (cursorKey name stream) 1 end).
  { revert E. unfold d2. destruct (readU64 d1 key 1 <? ak_off r)%N; [|intros _; by eexists _, _].
    destruct (bset f key _ _) as [b1|] eqn:B1; [|done]. apply bset_Ok in B1 as ->.
    destruct (bset f (ctKey _ _) _ _) as [b2|] eqn:B2; [|done]. apply bset_Ok in B2 as ->. intros _.
    eexists _, _. split; [done|]. rewrite !apply_batch_snoc. fold d1. split; [done|].
    intros name stream. rewrite readU64_insert, decide_False by done. rewrite readU64_insert, lookup_insert.
    case_decide; [done|]. apply P1. }
  destruct Hcur as (positions & b & Ecur & Hb & Hpos). rewrite Ecur in E. clear Ecur.
  assert (Hmk : forall parent stream, readU64 d2 (ackedKey parent stream) 0
      = match kc_marks acc !! ackedKey parent stream with Some p => p | None => readU64 d (ackedKey parent stream) 0 end).
  { intros parent stream. rewrite <- P2. fold d1. unfold d2. destruct (_ <? _)%N; [|done].
    by rewrite !readU64_insert, !decide_False by done. }
  clearbody d2. pose proof (Hmk (ak_parent r) (ak_stream r)) as Hk. fold ak in Hk. rewrite <- Hk in E. clear Hk.
  destruct (ak_marked r); cbn [andb]; [|injection E as <-; cbn [kc_batch kc_moved kc_positions kc_marks]; split; [by split; cbn [kc_batch kc_positions kc_marks]; rewrite Hb|by rewrite Hb]].
  destruct (ak_mark r != readU64 d2 ak 0); [|injection E as <-; cbn [kc_batch kc_moved kc_positions kc_marks]; split; [by split; cbn [kc_batch kc_positions kc_marks]; rewrite Hb|by rewrite Hb]].
  destruct (bset f ak _ _) as [b2|] eqn:B2; [|done]. apply bset_Ok in B2 as ->. injection E as <-.
  cbn [kc_batch kc_moved kc_positions kc_marks]. rewrite apply_batch_snoc, Hb. split; [|done].
  split; cbn [kc_batch kc_positions kc_marks]; rewrite apply_batch_snoc, Hb.
  - intros name stream. rewrite readU64_insert, decide_False by done. apply Hpos.
  - intros parent stream. rewrite readU64_insert, lookup_insert. case_decide; [done|]. apply Hmk.
Qed.

Lemma ack_loop_Ok f now d group acc acc' :
  AckAccInv acc d -> ack_loop f now d group acc = Ok acc' ->
  apply_batch (kc_batch acc') d = foldl (ack_effect now) (apply_batch (kc_batch acc) d) group
  /\ kc_moved acc' = kc_moved acc ++ ack_moves now group (apply_batch (kc_batch acc) d).
Proof.
  revert acc; induction group as [|r group IH]; intros acc HA E; cbn [ack_loop] in E.
  { injection E as <-. by rewrite app_nil_r. }
  destruct (ack_step f now d r acc) as [acc1|] eqn:E1; [|done].
  destruct (ack_step_Ok f now d r acc acc1 HA E1) as (HA1 & Hb1 & Hm1).
  destruct (IH acc1 HA1 E) as [Hb Hm]. cbn [foldl ack_moves]. rewrite Hb, Hm, Hm1, Hb1, <- app_assoc. done.
Qed.

(** A group of acks commits as its acks one by one, or changes nothing. *)
Lemma commitAcks_eq f now group s s' r :
  commitAcks f now group s = (s', r) ->
  match r with
  | Ok moved => s' = set_db (foldl (ack_effect now) (db s) group) s /\ moved = ack_moves now group (db s)
  | Err _ => s' = s
  end.
Proof.
  unfold commitAcks. intros E.
  assert (HA : AckAccInv (mkAckAcc ∅ ∅ [] []) (db s)) by (split; intros; simpl; by rewrite lookup_empty).
  destruct (ack_loop f now (db s) group _) as [acc|e] eqn:El; [|by injection E as <- <-].
  destruct (ack_loop_Ok _ _ _ _ _ _ HA El) as [Hb Hm]. simpl in Hb, Hm. change (apply_batch [] (db s)) with (db s) in Hb, Hm.
  case_bool_decide as He.
  - injection E as <- <-. rewrite He in Hb. change (apply_batch [] (db s)) with (db s) in Hb.
    rewrite <- Hb. split; [by destruct s|done].
  - unfold commit in E. destruct (apply_fails f); injection E as <- <-; [done|]. by rewrite Hb.
Qed.

(** ** What an ack leaves *)

Definition cursor_tags : list string := ["c"; "ct"; "pa"; "p"].

(** The offsets [group] acks for a cursor, and the marks it carries for a parent. *)
Definition acks_of (name stream : string) (group : list ackRequest) : list N :=
  ak_off <$> filter (fun r => ak_name r = name /\ ak_stream r = stream) group.
Definition marks_of (parent stream : string) (group : list ackRequest) : list N :=
  ak_mark <$> filter (fun r => ak_marked r = true /\ ak_parent r = parent /\ ak_stream r = stream) group.

Lemma ack_effect_cursor now d r name stream :
  readU64 (ack_effect now d r) (cursorKey name stream) 1
  = if decide (ak_name r = name /\ ak_stream r = stream)
    then N.max (readU64 d (cursorKey name stream) 1) (ak_off r) else readU64 d (cursorKey name stream) 1.
Proof.
  unfold ack_effect. cbv zeta. set (d' := if (_ <? _)%N then _ else d).
  assert (E : readU64 (if ak_marked r && (ak_mark r != readU64 d' (ackedKey (ak_parent r) (ak_stream r)) 0)
      then <[ackedKey (ak_parent r) (ak_stream r) := VU64 (ak_mark r)]> d' else d') (cursorKey name stream) 1
    = readU64 d' (cursorKey name stream) 1).
  { destruct (_ && _); [|done]. by rewrite readU64_insert, decide_False by done. }
  rewrite E. unfold d'. clear. unfold cursorKey. case_decide as Hc.
  - destruct Hc as [-> ->]. destruct (N.ltb_spec (readU64 d (mkKey ["c"; name; stream] None) 1) (ak_off r)).
    + rewrite readU64_insert, decide_False, readU64_insert, decide_True by done. lia.
    + lia.
  - destruct (_ <? _)%N; [|done].
    by rewrite readU64_insert, decide_False, readU64_insert, decide_False by naive_solver.
Qed.

Lemma ack_effect_mark now d r parent stream :
  readU64 (ack_effect now d r) (ackedKey parent stream) 0
  = if decide (ak_marked r = true /\ ak_parent r = parent /\ ak_stream r = stream) then ak_mark r
    else readU64 d (ackedKey parent stream) 0.
Proof.
  unfold ack_effect. cbv zeta. set (d' := if (_ <? _)%N then _ else d).
  assert (E : forall parent stream, readU64 d' (ackedKey parent stream) 0 = readU64 d (ackedKey parent stream) 0).
  { intros p st. unfold d'. destruct (_ <? _)%N; [|done]. by rewrite !readU64_insert, !decide_False by done. }
  destruct (ak_marked r); cbn [andb]; [|by rewrite decide_False by naive_solver].
  case_bool_decide as Hm; cbn [negb].
  - case_decide as Hc; [destruct Hc as (_ & <- & <-); done|apply E].
  - rewrite readU64_insert. unfold ackedKey at 1 2. repeat case_decide; try naive_solver; apply E.
Qed.

Lemma ack_effect_frame now d r k : tag k ∉ cursor_tags -> ack_effect now d r !! k = d !! k.
Proof.
  intros Hk. assert (H1 : forall k', tag k' ∈ cursor_tags -> k' <> k) by (intros k' Hk' <-; done).
  unfold ack_effect. cbv zeta. destruct (_ && _); destruct (_ <? _)%N;
rewrite ?lookup_insert_ne by (apply H1; tag_in); done.
Qed.

Lemma ack_effects_cursor now group d name stream :
  readU64 (foldl (ack_effect now) d group) (cursorKey name stream) 1
  = foldl N.max (readU64 d (cursorKey name stream) 1) (acks_of name stream group).
Proof.
  revert d; induction group as [|r group IH]; intros d; [done|]. cbn [foldl]. rewrite IH, ack_effect_cursor.
  unfold acks_of. rewrite filter_cons. by case_decide.
Qed.

Lemma ack_effects_mark now group d parent stream :
  readU64 (foldl (ack_effect now) d group) (ackedKey parent stream) 0
  = foldl (fun _ m => m) (readU64 d (ackedKey parent stream) 0) (marks_of parent stream group).
Proof.
  revert d; induction group as [|r group IH]; intros d; [done|]. cbn [foldl]. rewrite IH, ack_effect_mark.
  unfold marks_of. rewrite filter_cons. by case_decide.
Qed.

Lemma ack_effects_frame now group d k : tag k ∉ cursor_tags -> foldl (ack_effect now) d group !! k = d !! k.
Proof.
  intros Hk. revert d; induction group as [|r group IH]; intros d; [done|]. cbn [foldl].
  by rewrite IH, ack_effect_frame.
Qed.

Lemma ack_loop_no_fault now d group acc : exists acc', ack_loop no_faults now d group acc = Ok acc'.
Proof.
  revert acc; induction group as [|r group IH]; intros acc; [by eexists|]. cbn [ack_loop].
  assert (exists acc1, ack_step no_faults now d r acc = Ok acc1) as [acc1 ->]; [|apply IH].
  unfold ack_step, bset. simpl. repeat case_match; simplify_eq; by eexists.
Qed.

Lemma commitAcks_no_fault now group s : exists moved, snd (commitAcks no_faults now group s) = Ok moved.
Proof.
  unfold commitAcks. destruct (ack_loop_no_fault now (db s) group (mkAckAcc ∅ ∅ [] [])) as [acc ->].
  case_bool_decide; by eexists.
Qed.

Lemma max_le_foldl l n : (n <= foldl N.max n l)%N.
Proof. revert n; induction l as [|x l IH]; intros n; simpl; [lia|]. specialize (IH (N.max n x)). lia. Qed.

(** ** Incarnations *)

Lemma reincarnate_inv_db f mint now onlyFrom reason s s' i c :
  reincarnate f mint now onlyFrom reason s = (s', Ok (i, c)) ->
  if c then i = mint /\ (onlyFrom = "" \/ onlyFrom = id s) /\
    s' = set_id mint true (set_db (apply_batch
       [BSet storeIDKey (VBytes mint); BSet incarnationChangeKey (VChange (mkIncarnationChange (id s) reason now));
        BDeleteRange AckedRange] (db s)) s)
  else i = id s /\ s' = s /\ onlyFrom <> "" /\ onlyFrom <> id s.
Proof.
  unfold reincarnate. cbv zeta. destruct ((onlyFrom != "") && (onlyFrom != id s)) eqn:Eo.
  { intros E. injection E as <- <- <-. bool_simp. naive_solver. }
  assert (onlyFrom = "" \/ onlyFrom = id s).
  { repeat (case_bool_decide; simpl in Eo); naive_solver. }
  destruct (bset f storeIDKey _ []) as [b1|] eqn:B1; [|done]. apply bset_Ok in B1 as ->.
  destruct (bset f incarnationChangeKey _ _) as [b2|] eqn:B2; [|done]. apply bset_Ok in B2 as ->.
  unfold commit. destruct (apply_fails f); [done|]. intros E. injection E as <- <- <-. done.
Qed.

Lemma reincarnate_unchanged f mint now onlyFrom reason s s' e :
  reincarnate f mint now onlyFrom reason s = (s', Err e) -> s' = s.
Proof. unfold reincarnate. cbv zeta. repeat case_match; naive_solver. Qed.

Lemma reincarnate_no_fault mint now onlyFrom reason s : onlyFrom = "" \/ onlyFrom = id s ->
  exists s', reincarnate no_faults mint now onlyFrom reason s = (s', Ok (mint, true)).
Proof.
  intros Ho. unfold reincarnate. cbv zeta.
  replace ((onlyFrom != "") && (onlyFrom != id s)) with false; [by eexists|].
  destruct Ho as [->| ->]; [done|]. rewrite (bool_decide_eq_true_2 (id s = id s)) by done. by rewrite andb_false_r.
Qed.

(** ** Theorems *)

Section claims.
Context `{Codec}.

Lemma tags_disjoint (T T' : list string) (t : string) : bool_decide (Forall (fun t => t ∉ T') T) = true -> t ∈ T -> t ∉ T'.
Proof. intros HT%bool_decide_eq_true. rewrite Forall_forall in HT. auto. Qed.

(** A cursor operation writes only cursors, their times and what is kept of a
    parent, none of which the invariant speaks of. *)
Lemma cursor_frame_inv d s : (forall k, tag k ∉ cursor_tags -> d !! k = db s !! k) -> Inv s -> Inv (set_db d s).
Proof.
  intros Hd HI. apply (Inv_frame s); [|done..]. intros k Hk. store_simpl. apply Hd.
  by apply (tags_disjoint ("i" :: inv_tags) cursor_tags).
Qed.

(** [s'] differs from [s] in those families only. *)
Definition cursor_only (s s' : Store) : Prop :=
  exists d, s' = set_db d s /\ forall k, tag k ∉ cursor_tags -> d !! k = db s !! k.

Lemma cursor_only_refl s : cursor_only s s.
Proof. exists (db s). split; [by destruct s|done]. Qed.

Lemma cursor_only_inv s s' : cursor_only s s' -> Inv s -> Inv s'.
Proof. intros (d & -> & Hd). by apply cursor_frame_inv. Qed.

Lemma commitAcks_only f now group s : cursor_only s (fst (commitAcks f now group s)).
Proof.
  destruct (commitAcks f now group s) as [s' r] eqn:E. apply commitAcks_eq in E. cbn [fst].
  destruct r as [moved|e]; [|subst; apply cursor_only_refl]. destruct E as [-> _]. eexists. split; [done|].
  intros k Hk. by apply ack_effects_frame.
Qed.

Lemma commitAcks_inv f now group s : Inv s -> Inv (fst (commitAcks f now group s)).
Proof. apply cursor_only_inv, commitAcks_only. Qed.

(** A single ack. *)

Lemma CursorAck_only f ms name stream off s : cursor_only s (fst (CursorAck f ms name stream off s)).
Proof.
  unfold CursorAck. pose proof (commitAcks_only f ms [mkAckRequest name stream off false "" 0] s) as Hc.
  destruct (commitAcks _ _ _ _) as [s' [[|m [|]]|]]; exact Hc.
Qed.

Lemma CursorAck_get f ms name stream off s :
  let s' := fst (CursorAck f ms name stream off s) in
  (CursorGet s' name stream = CursorGet s name stream \/ CursorGet s' name stream = N.max (CursorGet s name stream) off)
  /\ (f = no_faults -> CursorGet s' name stream = N.max (CursorGet s name stream) off).
Proof.
  unfold CursorAck. set (r := mkAckRequest name stream off false "" 0).
  destruct (commitAcks f ms [r] s) as [s' o] eqn:E. pose proof (commitAcks_eq _ _ _ _ _ _ E) as Heq.
  assert (Hmax : forall moved, o = Ok moved -> CursorGet s' name stream = N.max (CursorGet s name stream) off).
  { intros moved ->. destruct Heq as [-> _]. unfold CursorGet. store_simpl. rewrite ack_effects_cursor.
    unfold acks_of. rewrite filter_cons, decide_True by done. done. }
  assert (Hs : fst (match o with Ok [moved] => (s', moved) | _ => (s', false) end) = s') by (by destruct o as [[|? [|]]|]).
  cbv zeta. rewrite Hs. split.
  - destruct o as [moved|e]; [right; by eapply Hmax|left; by subst].
  - intros ->. destruct (commitAcks_no_fault ms [r] s) as [moved Hm]. rewrite E in Hm. by eapply Hmax.
Qed.

Lemma CursorAckMarked_only f ms name stream off parent mark s : cursor_only s (fst (CursorAckMarked f ms name stream off parent mark s)).
Proof.
  unfold CursorAckMarked. pose proof (commitAcks_only f ms [mkAckRequest name stream off true parent mark] s) as Hc.
  destruct (commitAcks _ _ _ _) as [s' [[|m [|]]|]]; exact Hc.
Qed.

(** A marked ack moves the cursor and its mark together, or neither. *)
Lemma CursorAckMarked_get f ms name stream off parent mark s :
  let s' := fst (CursorAckMarked f ms name stream off parent mark s) in
  ((forall n st, CursorGet s' n st = CursorGet s n st) /\ (forall p st, AckedMark s' p st = AckedMark s p st) /\ f <> no_faults)
  \/ (CursorGet s' name stream = N.max (CursorGet s name stream) off /\ AckedMark s' parent stream = mark).
Proof.
  unfold CursorAckMarked. set (r := mkAckRequest name stream off true parent mark).
  destruct (commitAcks f ms [r] s) as [s' o] eqn:E. pose proof (commitAcks_eq _ _ _ _ _ _ E) as Heq.
  assert (Hs : fst (match o with Ok [moved] => (s', Ok moved) | Ok _ => (s', Ok false) | Err e => (s', Err e) end) = s')
    by (by destruct o as [[|? [|]]|]).
  cbv zeta. rewrite Hs. destruct o as [moved|e].
  - right. destruct Heq as [-> _]. unfold CursorGet, AckedMark. store_simpl. rewrite ack_effects_cursor, ack_effects_mark.
    unfold acks_of, marks_of. by rewrite !filter_cons, !decide_True by done.
  - left. subst s'. split_and!; [done..|]. intros ->. destruct (commitAcks_no_fault ms [r] s) as [m Hm]. by rewrite E in Hm.
Qed.

(** A group of acks. When the write of the group fails nothing changes. When
    it does not (and without faults it does not), every cursor ends at the
    furthest of its position and the offsets acked to it, so no interleaving of
    acks moves one back; each request learns whether its own ack moved the cursor,
    as if the acks had run one at a time; a parent's mark ends at the last one
    said; and nothing but cursors, their times and marks changes. *)
Theorem commitAcks_forward f now group s :
  let '(s', r) := commitAcks f now group s in
  match r with
  | Err _ => s' = s /\ f <> no_faults
  | Ok moved =>
      moved = ack_moves now group (db s)
      /\ (forall name stream, CursorGet s' name stream = foldl N.max (CursorGet s name stream) (acks_of name stream group))
      /\ (forall name stream, CursorGet s name stream <= CursorGet s' name stream)%N
      /\ (forall parent stream, AckedMark s' parent stream = default (AckedMark s parent stream) (last (marks_of parent stream group)))
      /\ (forall k, tag k ∉ ["c"; "ct"; "pa"] -> db s' !! k = db s !! k)
      /\ set_db (db s) s' = s
  end.
Proof.
  destruct (commitAcks f now group s) as [s' r] eqn:E. pose proof (commitAcks_eq _ _ _ _ _ _ E) as Heq.
  destruct r as [moved|e].
  - destruct Heq as [-> ->]. split; [done|]. unfold CursorGet, AckedMark. store_simpl. split_and!.
    + intros. apply ack_effects_cursor.
    + intros. rewrite ack_effects_cursor. apply max_le_foldl.
    + intros parent stream. rewrite ack_effects_mark. generalize (readU64 (db s) (ackedKey parent stream) 0).
      induction (marks_of parent stream group) as [|m l IH]; intros n; [done|]. cbn [foldl]. rewrite IH.
      rewrite last_cons. by destruct (last l).
    + intros k Hk. destruct (decide (tag k = "p")) as [Ep|]; [|apply ack_effects_frame].
      * clear E Hk. revert Ep. generalize (db s). induction group as [|r group IH]; intros d Ep; [done|].
        cbn [foldl]. rewrite IH by done. unfold ack_effect. cbv zeta.
        assert (forall k', tag k' <> "p" -> k' <> k) as Hne by (intros k' Hk' ->; done).
        destruct (_ && _), (_ <? _)%N; rewrite ?lookup_insert_ne by (by apply Hne); done.
      * unfold cursor_tags. rewrite !elem_of_cons in *. naive_solver.
    + by destruct s.
  - subst s'. split; [done|]. intros ->. destruct (commitAcks_no_fault now group s) as [m Hm].
    rewrite E in Hm. done.
Qed.

Lemma reincarnate_lookup mint change d k :
  apply_batch [BSet storeIDKey (VBytes mint); BSet incarnationChangeKey (VChange change); BDeleteRange AckedRange] d !! k
  = if in_keys AckedRange k then None
    else if decide (k = incarnationChangeKey) then Some (VChange change)
    else if decide (k = storeIDKey) then Some (VBytes mint) else d !! k.
Proof.
  rewrite lookup_apply_batch. unfold batch_at. cbn [foldl flip op_at].
  destruct (in_keys AckedRange k); [done|]. repeat case_decide; naive_solver.
Qed.

Lemma reincarnate_other mint change d k : tag k ∉ ["i"; "ic"; "pa"] ->
  apply_batch [BSet storeIDKey (VBytes mint); BSet incarnationChangeKey (VChange change); BDeleteRange AckedRange] d !! k
  = d !! k.
Proof.
  intros Hk. rewrite reincarnate_lookup. replace (in_keys AckedRange k) with false.
  { rewrite !decide_False; [done| |]; intros ->; apply Hk; tag_in. }
  symmetry. apply not_true_iff_false. intros Hin. apply Hk. unfold in_keys in Hin.
  unfold tag. destruct k as [[|t [|a [|b []]]] [o|]]; simpl in *; try done. bool_simp. subst. tag_in.
Qed.

Lemma reincarnate_inv f mint now onlyFrom reason s : Inv s -> Inv (fst (reincarnate f mint now onlyFrom reason s)).
Proof.
  intros HI. destruct (reincarnate f mint now onlyFrom reason s) as [s' [[i c]|e]] eqn:E; cbn [fst].
  2: by apply reincarnate_unchanged in E as ->.
  apply reincarnate_inv_db in E. destruct c; [|by destruct E as (_ & -> & _)]. destruct E as (-> & _ & ->).
  apply (Inv_frame_id s); [|done..|store_simpl; by rewrite reincarnate_lookup|done].
  intros k Hk. store_simpl. apply reincarnate_other. by apply (tags_disjoint inv_tags ["i"; "ic"; "pa"]).
Qed.

(** Several callers ask for a new incarnation in turn, each with its own mint. *)
Record ReincarnateCall := mkReincarnateCall { rc_faults : Faults; rc_mint : string; rc_now : N; rc_reason : string }.

Fixpoint reincarnate_each (current : string) (calls : list ReincarnateCall) (s : Store)
    : Store * list (result StoreErr (string * bool)) :=
  match calls with
  | [] => (s, [])
  | c :: calls =>
      let '(s, r) := ReincarnateFrom (rc_faults c) (rc_mint c) (rc_now c) current (rc_reason c) s in
      let '(s, rs) := reincarnate_each current calls s in (s, r :: rs)
  end.

Lemma reincarnate_each_changed current calls s :
  current <> "" -> current <> id s ->
  reincarnate_each current calls s = (s, replicate (length calls) (Ok (id s, false))).
Proof.
  intros Hc Hne. induction calls as [|c calls IH]; [done|]. cbn [reincarnate_each length replicate].
  assert (E : ReincarnateFrom (rc_faults c) (rc_mint c) (rc_now c) current (rc_reason c) s = (s, Ok (id s, false))).
  { unfold ReincarnateFrom, reincarnate. cbv zeta. by rewrite !bool_decide_eq_false_2 by done. }
  by rewrite E, IH.
Qed.

(** Several children can prove the same restore at once, and the store takes
    one new id for it. Callers that name the current id run in turn, each with a
    mint of its own: those before the first whose write succeeds get its error and
    change nothing; that one changes the id; every later one is told the id it
    took, and changes nothing. The change clears every mark kept of what a parent
    confirmed, records the id it ends, and leaves every record, counter, cursor
    and current-state entry as it was. *)
Theorem ReincarnateFrom_once calls s :
  id s <> "" -> Forall (fun c => rc_mint c <> id s) calls ->
  let '(s', rs) := reincarnate_each (id s) calls s in
  (s' = s /\ Forall (fun r => is_ok r = false) rs /\ Forall (fun c => rc_faults c <> no_faults) calls)
  \/ exists failed c later, calls = failed ++ c :: later
     /\ Forall (fun r => is_ok r = false) (take (length failed) rs)
     /\ drop (length failed) rs = Ok (rc_mint c, true) :: replicate (length later) (Ok (rc_mint c, false))
     /\ StoreID s' = rc_mint c /\ MayHaveRegressed s' = false
     /\ LastIncarnationChange s' = Some (mkIncarnationChange (id s) (rc_reason c) (rc_now c))
     /\ (forall parent stream, AckedMark s' parent stream = 0%N)
     /\ (forall k, tag k ∉ ["i"; "ic"; "pa"] -> db s' !! k = db s !! k)
     /\ s' = set_id (rc_mint c) true (set_db (db s') s).
Proof.
  intros Hid. induction calls as [|c calls IH]; intros Hm.
  { cbn [reincarnate_each]. left. by repeat split; constructor. }
  inversion Hm as [|? ? Hc Hm']; subst. specialize (IH Hm'). cbn [reincarnate_each].
  destruct (ReincarnateFrom _ _ _ _ _ _) as [s1 [[i ch]|e]] eqn:E.
  - unfold ReincarnateFrom in E. apply reincarnate_inv_db in E. destruct ch; [|naive_solver].
    destruct E as (-> & _ & ->). rewrite reincarnate_each_changed by done.
    right. exists [], c, calls. cbn [app length take drop]. split; [done|]. split; [constructor|]. split; [done|].
    split; [done|]. split; [done|]. unfold LastIncarnationChange, AckedMark, readU64. store_simpl. split_and!.
    + by rewrite reincarnate_lookup.
    + intros. by rewrite reincarnate_lookup.
    + intros. by apply reincarnate_other.
    + done.
  - assert (s1 = s) as -> by (by eapply reincarnate_unchanged).
    destruct (reincarnate_each (id s) calls s) as [s' rs].
    destruct IH as [(-> & Hr & Hf)|(failed & c' & later & -> & Hf & IH)].
    + left. split; [done|]. split; [by constructor|]. constructor; [|done]. intros Ec.
      destruct (reincarnate_no_fault (rc_mint c) (rc_now c) (id s) (rc_reason c) s) as [s2 E2]; [by right|].
      unfold ReincarnateFrom in E. rewrite Ec, E2 in E. done.
    + right. exists (c :: failed), c', later. cbn [length take drop]. split; [done|]. split; [by constructor|done].
Qed.

(** ** Resync *)

Definition placements (cursors : list CursorPlacement) (name stream : string) : list N :=
  cp_To <$> filter (fun c => cp_Name c = name /\ cp_Stream c = stream) cursors.

Lemma place_ops_Ok f now cursors b b' : place_ops f now cursors b = Ok b' ->
  b' = b ++ concat ((fun c => [BSet (cursorKey (cp_Name c) (cp_Stream c)) (VU64 (cp_To c));
                               BSet (ctKey (cp_Name c) (cp_Stream c)) (VU64 now)]) <$> cursors).
Proof.
  revert b; induction cursors as [|c cursors IH]; intros b E; cbn [place_ops] in E.
  { injection E as <-. by rewrite app_nil_r. }
  destruct (bset f (cursorKey _ _) _ _) as [b1|] eqn:B1; [|done]. apply bset_Ok in B1 as ->.
  destruct (bset f (ctKey _ _) _ _) as [b2|] eqn:B2; [|done]. apply bset_Ok in B2 as ->.
  apply IH in E as ->. by rewrite <- !app_assoc.
Qed.

Lemma acked_ops_Ok f parent marks b b' : acked_ops f parent marks b = Ok b' ->
  b' = b ++ ((fun m => BSet (ackedKey parent (fst m)) (VU64 (snd m))) <$> marks).
Proof.
  revert b; induction marks as [|[stream m] marks IH]; intros b E; cbn [acked_ops] in E.
  { injection E as <-. by rewrite app_nil_r. }
  destruct (bset f _ _ _) as [b1|] eqn:B1; [|done]. apply bset_Ok in B1 as ->.
  apply IH in E as ->. by rewrite <- app_assoc.
Qed.

Definition place_batch (now : N) (cursors : list CursorPlacement) : Batch :=
  concat ((fun c => [BSet (cursorKey (cp_Name c) (cp_Stream c)) (VU64 (cp_To c));
                     BSet (ctKey (cp_Name c) (cp_Stream c)) (VU64 now)]) <$> cursors).
Definition acked_batch (parent : string) (marks : list (string * N)) : Batch :=
  (fun m => BSet (ackedKey parent (fst m)) (VU64 (snd m))) <$> marks.

Lemma place_batch_cursor now cursors name stream o :
  batch_at (cursorKey name stream) (place_batch now cursors) o
  = match last (placements cursors name stream) with Some n => Some (VU64 n) | None => o end.
Proof.
  revert o; induction cursors as [|c cursors IH]; intros o; [done|].
  change (place_batch now (c :: cursors))
    with ([BSet (cursorKey (cp_Name c) (cp_Stream c)) (VU64 (cp_To c)); BSet (ctKey (cp_Name c) (cp_Stream c)) (VU64 now)]
          ++ place_batch now cursors).
  rewrite batch_at_app, IH. unfold placements. rewrite filter_cons. unfold batch_at. cbn [foldl flip op_at].
  rewrite (decide_False (P := ctKey _ _ = _)) by done. unfold cursorKey.
  case_decide as Hc; case_decide as Hk; try naive_solver. rewrite fmap_cons, last_cons. by destruct (last _).
Qed.

Lemma acked_batch_mark parent marks stream o : NoDup (fst <$> marks) ->
  batch_at (ackedKey parent stream) (acked_batch parent marks) o
  = match (list_to_map marks : gmap string N) !! stream with Some m => Some (VU64 m) | None => o end.
Proof.
  revert o; induction marks as [|[st m] marks IH]; intros o Hnd; [done|].
  apply NoDup_cons in Hnd as [Hst Hnd].
  change (acked_batch parent ((st, m) :: marks)) with ([BSet (ackedKey parent st) (VU64 m)] ++ acked_batch parent marks).
  rewrite batch_at_app, IH by done. cbn [list_to_map foldr fst snd]. unfold batch_at. cbn [foldl flip op_at].
  change (list_to_map ((st, m) :: marks) : gmap string N) with (<[st := m]> (list_to_map marks : gmap string N)).
  rewrite lookup_insert. unfold ackedKey. destruct (decide (st = stream)) as [<-|Hne].
  - rewrite decide_True by done. by rewrite not_elem_of_list_to_map_1.
  - by rewrite decide_False by naive_solver.
Qed.

Lemma place_batch_untouched now cursors k : tag k ∉ ["c"; "ct"] ->
  Forall (fun op => touches op k = false) (place_batch now cursors).
Proof.
  intros Hk. unfold place_batch. apply Forall_concat, Forall_fmap, Forall_forall. intros c _. cbn [compose].
  repeat constructor; apply untouched_set; intros E; apply Hk; rewrite E; tag_in.
Qed.

Lemma acked_batch_untouched parent marks k : tag k ∉ ["pa"] ->
  Forall (fun op => touches op k = false) (acked_batch parent marks).
Proof.
  intros Hk. apply Forall_fmap, Forall_forall. intros m _. cbn [compose]. apply untouched_set.
  intros E. apply Hk. rewrite E. tag_in.
Qed.

Lemma ResyncParent_eq f now parent state cursors marks s s' r :
  ResyncParent f now parent state cursors marks s = (s', r) ->
  match r with
  | Err _ => s' = s
  | Ok _ => s' = set_db (apply_batch (place_batch now cursors ++ acked_batch parent (map_to_list marks)
                                       ++ [BSet (parentStateKey parent) (VBytes state)]) (db s)) s
  end.
Proof.
  unfold ResyncParent. cbv zeta.
  destruct (place_ops f now cursors []) as [b1|] eqn:B1; [|intros E; by injection E as <- <-].
  apply place_ops_Ok in B1 as ->. destruct (acked_ops f parent _ _) as [b2|] eqn:B2; [|intros E; by injection E as <- <-].
  apply acked_ops_Ok in B2 as ->. destruct (bset f _ _ _) as [b3|] eqn:B3; [|intros E; by injection E as <- <-].
  apply bset_Ok in B3 as ->. unfold commit. destruct (apply_fails f); intros E; injection E as <- <-; [done|].
  by rewrite <- app_assoc.
Qed.

Lemma resync_untouched now parent state cursors marks k : tag k ∉ cursor_tags ->
  Forall (fun op => touches op k = false)
    (place_batch now cursors ++ acked_batch parent marks ++ [BSet (parentStateKey parent) (VBytes state)]).
Proof.
  intros Hk. rewrite !Forall_app. split_and!.
  - apply place_batch_untouched. intros Hin. apply Hk. rewrite !elem_of_cons in Hin. unfold cursor_tags.
    rewrite !elem_of_cons. naive_solver.
  - apply acked_batch_untouched. intros Hin%list_elem_of_singleton. apply Hk. rewrite Hin. tag_in.
  - repeat constructor. apply untouched_set. intros Ht. apply Hk. rewrite Ht. tag_in.
Qed.

(** A re-sync with a parent is one step. Either its write failed and the store
    is as before, or every cursor it places stands where it was placed, forward
    or back, the marks of that parent are the ones it named, and the document
    recording the re-sync is the new one: it is never recorded as done with a
    cursor still at its old place. Other cursors and other parents keep theirs. *)
Theorem ResyncParent_atomic f now parent state cursors marks s :
  let '(s', r) := ResyncParent f now parent state cursors marks s in
  match r with
  | Err _ => s' = s
  | Ok _ =>
      ParentState s' parent = Some state
      /\ (forall name stream, CursorGet s' name stream
            = default (CursorGet s name stream) (last (placements cursors name stream)))
      /\ (forall stream, AckedMark s' parent stream = default (AckedMark s parent stream) (marks !! stream))
      /\ (forall parent' stream, parent' <> parent ->
            AckedMark s' parent' stream = AckedMark s parent' stream /\ ParentState s' parent' = ParentState s parent')
      /\ (forall k, tag k ∉ cursor_tags -> db s' !! k = db s !! k)
      /\ set_db (db s) s' = s
  end.
Proof.
  destruct (ResyncParent _ _ _ _ _ _ _) as [s' r] eqn:E. apply ResyncParent_eq in E. destruct r as [[]|e]; [|done].
  subst s'. unfold ParentState, CursorGet, AckedMark, readU64. store_simpl. split_and!.
  - rewrite lookup_apply_batch, !batch_at_app. unfold batch_at at 1. cbn [foldl flip op_at]. by rewrite decide_True.
  - intros name stream. rewrite lookup_apply_batch, !batch_at_app, place_batch_cursor.
    rewrite (batch_at_untouched _ (acked_batch _ _)) by (apply acked_batch_untouched; tag_in).
    unfold batch_at. cbn [foldl flip op_at]. rewrite decide_False by done. by destruct (last _).
  - intros stream. rewrite lookup_apply_batch, !batch_at_app.
    rewrite (batch_at_untouched _ (place_batch _ _)) by (apply place_batch_untouched; tag_in).
    rewrite acked_batch_mark by apply NoDup_fst_map_to_list. rewrite list_to_map_to_list.
    unfold batch_at. cbn [foldl flip op_at]. rewrite decide_False by done. by destruct (marks !! stream).
  - intros parent' stream Hne. rewrite !lookup_apply_batch, !batch_at_app.
    rewrite !(batch_at_untouched _ (place_batch _ _)) by (apply place_batch_untouched; tag_in).
    rewrite (batch_at_untouched (parentStateKey _) (acked_batch _ _)) by (apply acked_batch_untouched; tag_in).
    rewrite (batch_at_untouched (ackedKey _ _) (acked_batch _ _)).
    2: { apply Forall_fmap, Forall_forall. intros m _. cbn [compose touches]. apply bool_decide_eq_false_2. naive_solver. }
    unfold batch_at. cbn [foldl flip op_at]. by rewrite !decide_False by naive_solver.
  - intros k Hk. by rewrite lookup_apply_batch, batch_at_untouched by (by apply resync_untouched).
  - by destruct s.
Qed.

Lemma ResyncParent_only f now parent state cursors marks s :
  cursor_only s (fst (ResyncParent f now parent state cursors marks s)).
Proof.
  destruct (ResyncParent _ _ _ _ _ _ _) as [s' r] eqn:E. apply ResyncParent_eq in E. cbn [fst].
  destruct r as [[]|]; [|subst; apply cursor_only_refl]. subst s'. eexists. split; [done|]. intros k Hk.
  by rewrite lookup_apply_batch, batch_at_untouched by (by apply resync_untouched).
Qed.

(** ** The other cursor operations *)

Lemma CursorSetIfAbsent_eq f now name stream off s s' r :
  CursorSetIfAbsent f now name stream off s = (s', r) ->
  match r with
  | Err _ => s' = s
  | Ok false => s' = s /\ is_Some (db s !! cursorKey name stream)
  | Ok true => db s !! cursorKey name stream = None
               /\ s' = set_db (<[ctKey name stream := VU64 now]> (<[cursorKey name stream := VU64 off]> (db s))) s
  end.
Proof.
  unfold CursorSetIfAbsent. destruct (db s !! cursorKey name stream) eqn:Ek; [intros E; injection E as <- <-; by eauto|].
  unfold bset, commit. destruct (write_fails f _); [intros E; by injection E as <- <-|].
  destruct (write_fails f _); [intros E; by injection E as <- <-|].
  destruct (apply_fails f); intros E; by injection E as <- <-.
Qed.

Lemma CursorSetIfAbsent_only f now name stream off s : cursor_only s (fst (CursorSetIfAbsent f now name stream off s)).
Proof.
  destruct (CursorSetIfAbsent _ _ _ _ _ _) as [s' r] eqn:E. apply CursorSetIfAbsent_eq in E. cbn [fst].
  destruct r as [[]|]; [|destruct E as [-> _]; apply cursor_only_refl|subst; apply cursor_only_refl]. destruct E as [_ ->].
  eexists. split; [done|]. intros k Hk. rewrite !lookup_insert_ne; [done|intros <-; apply Hk; tag_in..].
Qed.

Lemma CursorDelete_only f name stream s : cursor_only s (fst (CursorDelete f name stream s)).
Proof.
  unfold CursorDelete, bdelete, commit. cbv zeta. do 2 (destruct (write_fails f _); [apply cursor_only_refl|]).
  destruct (apply_fails f); [apply cursor_only_refl|]. eexists. split; [done|]. intros k Hk.
  rewrite lookup_apply_batch, batch_at_untouched; [done|].
  repeat constructor; apply bool_decide_eq_false_2; intros <-; apply Hk; tag_in.
Qed.

Lemma CursorMarkSeen_only f name stream ts s : cursor_only s (CursorMarkSeen f name stream ts s).
Proof.
  unfold CursorMarkSeen. destruct (_ != _); [apply cursor_only_refl|]. destruct (apply_fails f); [apply cursor_only_refl|].
  eexists. split; [done|]. intros k Hk. rewrite lookup_insert_ne; [done|intros <-; apply Hk; tag_in].
Qed.

Lemma SetParentState_only f parent state s : cursor_only s (fst (SetParentState f parent state s)).
Proof.
  unfold SetParentState. destruct (apply_fails f); [apply cursor_only_refl|].
  eexists. split; [done|]. intros k Hk. rewrite lookup_insert_ne; [done|intros <-; apply Hk; tag_in].
Qed.

End claims.

Section examples.
#[local] Existing Instance demo_codec.

Definition demo_calls : list ReincarnateCall :=
  [mkReincarnateCall (mkFaults (fun _ => false) true) "mint-a" 5 "restore"; mkReincarnateCall no_faults "mint-b" 6 "restore";
   mkReincarnateCall no_faults "mint-c" 7 "restore"].

Lemma ReincarnateFrom_once_witness :
  let '(s', rs) := reincarnate_each (id demo_store) demo_calls demo_store in
  (forall parent stream, AckedMark s' parent stream = 0%N)
  /\ StoreID s' = "mint-b" /\ rs = [Err EApply; Ok ("mint-b", true); Ok ("mint-b", false)].
Proof.
  assert (H1 : id demo_store <> "") by (vm_compute; discriminate).
  assert (H2 : Forall (fun c => rc_mint c <> id demo_store) demo_calls) by (repeat constructor; vm_compute; discriminate).
  pose proof (ReincarnateFrom_once demo_calls demo_store H1 H2) as Hthm.
  assert (E : StoreID (fst (reincarnate_each (id demo_store) demo_calls demo_store)) = "mint-b"
    /\ snd (reincarnate_each (id demo_store) demo_calls demo_store) = [Err EApply; Ok ("mint-b", true); Ok ("mint-b", false)])
    by (split; reflexivity).
  destruct (reincarnate_each (id demo_store) demo_calls demo_store) as [s' rs]. cbn [fst snd] in E.
  split; [|exact E]. destruct Hthm as [(-> & _ & Hf)|(failed & c & later & _ & _ & _ & _ & _ & _ & Hz & _)]; [|exact Hz].
  inversion_clear Hf as [|? ? _ Hf']. inversion_clear Hf' as [|? ? Hn _]. by destruct Hn.
Defined.

End examples.
