(* ===== verification/StorePrune.v ===== *)
(** * The store: retention

    What removes records from a stream ([store.go], [compact.go], [evict.go]):
    the policy scan and the prefix prune with its journal and refresh range,
    compaction of a latest-per-topic stream, and eviction. Each reads the stream
    without the mutex and deletes under it, so an operation is two or three steps:
    the store it read may be older than the store it writes, and the definitions
    take both. *)

From S2P Require Export StoreCursor.

Open Scope string_scope.
Open Scope list_scope.
Open Scope go_scope.

Section prune.
Context `{Codec}.

(** ** What a scan gathers *)

Record pruneStats := mkPruneStats {
  st_pruned : N;
  st_shed : N;
  st_firstTS : Z;
  st_lastTS : Z;
  st_index : list (string * N);
  st_targets : list (string * N);
}.

Definition no_stats : pruneStats := mkPruneStats 0 0 0 0 [] [].

(** [pruneStats.add]; interning the ids only shares memory. *)
Definition stats_add (stream : string) (st : pruneStats) (x : N * recEnc) : pruneStats :=
  let '(off, e) := x in
  let firstTS := if (st_pruned st =? 0)%N || (e_TS e <? st_firstTS st)%Z then e_TS e else st_firstTS st in
  let lastTS := if (st_pruned st =? 0)%N || (st_lastTS st <? e_TS e)%Z then e_TS e else st_lastTS st in
  let target := recordTarget (e_Topic e) in
  mkPruneStats (st_pruned st + 1) (st_shed st + rec_size stream off e) firstTS lastTS
    (if e_SignalID e != "" then st_index st ++ [(e_SignalID e, off)] else st_index st)
    (if target != "" then st_targets st ++ [(target, off)] else st_targets st).

Definition scanDoomed (d : DB) (stream : string) (from upTo : N) : pruneStats :=
  foldl (stats_add stream) no_stats (scanStream d stream from upTo).

Record PruneScan := mkPruneScan {
  sc_stream : string;
  sc_from : N;
  sc_upTo : N;
  sc_holes : N;
  sc_stats : pruneStats;
}.

(** ** The policy *)

Definition wrap64 (n : N) : N := (n mod 2 ^ 64)%N.

Record Policy := mkPolicy { po_maxAge : Z; po_maxBytes : N; po_liveBytes : N; po_clamp : N; po_maxScan : N }.

(** The state of the walk: target, shed, scanned, what was accounted, and the
    two flags. *)
Record PolicyAcc := mkPolicyAcc {
  pa_target : N;
  pa_shed : N;
  pa_scanned : N;
  pa_clamped : bool;
  pa_capped : bool;
  pa_stats : pruneStats;
}.

(** [policyScan]: the walk over the records from the low-water mark, with [now]
    and [po_maxAge] in milliseconds. *)
Fixpoint policy_walk (stream : string) (p : Policy) (cutoff : Z) (recs : list (N * recEnc)) (acc : PolicyAcc) : PolicyAcc :=
  match recs with
  | [] => acc
  | (off, e) :: recs =>
      if (0 <? po_maxScan p)%N && (po_maxScan p <=? pa_scanned acc)%N then
        mkPolicyAcc (pa_target acc) (pa_shed acc) (pa_scanned acc) (pa_clamped acc) true (pa_stats acc)
      else
        let scanned := (pa_scanned acc + 1)%N in
        let ageWants := (0 <? po_maxAge p)%Z && (0 <? e_TS e)%Z && (e_TS e <? cutoff)%Z in
        let sizeWants := (0 <? po_maxBytes p)%N && (wrap64 (pa_shed acc + po_maxBytes p) <? po_liveBytes p)%N in
        if negb ageWants && negb sizeWants then
          mkPolicyAcc (pa_target acc) (pa_shed acc) scanned (pa_clamped acc) (pa_capped acc) (pa_stats acc)
        else if (po_clamp p <=? off)%N then
          mkPolicyAcc (pa_target acc) (pa_shed acc) scanned true (pa_capped acc) (pa_stats acc)
        else policy_walk stream p cutoff recs
               (mkPolicyAcc (off + 1) (wrap64 (pa_shed acc + rec_size stream off e)) scanned (pa_clamped acc) (pa_capped acc)
                  (stats_add stream (pa_stats acc) (off, e)))
  end.

Definition policyScan (d : DB) (stream : string) (lo hi : N) (now : Z) (p : Policy) : PolicyAcc :=
  policy_walk stream p (now - po_maxAge p) (scanStream d stream lo hi) (mkPolicyAcc lo 0 0 false false no_stats).

Definition PolicyPruneTarget (d : DB) (stream : string) (lo hi : N) (now : Z) (p : Policy) : N * bool * bool :=
  let a := policyScan d stream lo hi now p in (pa_target a, pa_clamped a, pa_capped a).

(** [PolicyPruneScan]: [s] is the store when the hole count is read, [d] the
    snapshot the scan reads. *)
Definition PolicyPruneScan (s : Store) (d : DB) (stream : string) (lo hi : N) (now : Z) (p : Policy)
    : PruneScan * bool * bool :=
  let a := policyScan d stream lo hi now p in
  (mkPruneScan stream lo (pa_target a) (at_ (holes s) stream) (pa_stats a), pa_clamped a, pa_capped a).

(** ** The journal *)

Definition setJournal (f : Faults) (stream : string) (span : PruneSpan) (b : Batch) : result StoreErr Batch :=
  bset f (journalKey stream (ps_From span))
    (VJournal (mkJournalEnc (ps_To span) (ps_FirstTS span) (ps_LastTS span) (ps_Coalesced span))) b.

Definition merge_spans (x y : PruneSpan) : PruneSpan :=
  mkPruneSpan (ps_From x) (ps_To y) (Z.min (ps_FirstTS x) (ps_FirstTS y)) (Z.max (ps_LastTS x) (ps_LastTS y)) true 0.

(** The merge loop of [writeJournal]: each turn drops one entry. *)
Fixpoint merge_oldest (f : Faults) (fuel : nat) (stream : string) (entries : list PruneSpan) (merged : bool) (b : Batch)
    : result StoreErr (list PruneSpan * bool * Batch) :=
  match fuel, entries with
  | S fuel, x :: y :: rest =>
      if (journalCap <? length entries)%nat then
        let! b := bdelete f (journalKey stream (ps_From y)) b in
        merge_oldest f fuel stream (merge_spans x y :: rest) true b
      else Ok (entries, merged, b)
  | _, _ => Ok (entries, merged, b)
  end.

Definition writeJournal (f : Faults) (d : DB) (stream : string) (span : PruneSpan) (b : Batch) : result StoreErr Batch :=
  let entries := readJournal d stream ++ [span] in
  let! (entries', merged, b) := merge_oldest f (length entries) stream entries false b in
  let! b := match merged, entries' with true, x :: _ => setJournal f stream x b | _, _ => Ok b end in
  setJournal f stream span b.

Record GapSpan := mkGapSpan {
  g_Stream : string;
  g_FromOffset : N;
  g_ToOffset : N;
  g_FirstTS : Z;
  g_LastTS : Z;
  g_Approx : bool;
}.

Definition gap_step (g : GapSpan) (sp : PruneSpan) : GapSpan :=
  let g := if (ps_From sp <=? g_FromOffset g)%N && (g_FromOffset g <=? ps_To sp)%N
           then mkGapSpan (g_Stream g) (g_FromOffset g) (g_ToOffset g) (ps_FirstTS sp) (g_LastTS g) (ps_Coalesced sp) else g in
  if (ps_From sp <=? g_ToOffset g)%N && (g_ToOffset g <=? ps_To sp)%N
  then mkGapSpan (g_Stream g) (g_FromOffset g) (g_ToOffset g) (g_FirstTS g) (ps_LastTS sp) (g_Approx g) else g.

Definition Gap (s : Store) (stream : string) (position : N) : option GapSpan :=
  let lwm := LWM s stream in
  let position := if (position <? 1)%N then 1%N else position in
  if (lwm == 0%N) || (lwm <=? position)%N then None
  else Some (foldl gap_step (mkGapSpan stream position (lwm - 1) 0 0 false) (readJournal (db s) stream)).

(** ** The prefix prune *)

Record PruneOutcome := mkPruneOutcome { po_GapRecords : list Rec; po_Refresh : option (N * N) }.

Definition no_outcome : PruneOutcome := mkPruneOutcome [] None.

Definition refreshPending (d : DB) (stream : string) : option (N * N) :=
  match d !! rpKey stream with Some (VRange a b) => Some (a, b) | _ => None end.

(** [upTo] shrunk to the cursors of [stream] that [skip] does not exempt, the
    callback over [scanU64Pairs('c')]. *)
Definition shrink (stream : string) (skip : string -> bool) (upTo : N) (c : CursorInfo) : N :=
  if (ci_Stream c != stream) || skip (ci_Name c) then upTo
  else if (ci_Position c <? upTo)%N then ci_Position c else upTo.
Definition cursor_floor (d : DB) (stream : string) (skip : string -> bool) (upTo : N) : N :=
  foldl (shrink stream skip) upTo (CursorSnapshot d).

Fixpoint delete_all (f : Faults) (keys : list Key) (b : Batch) : result StoreErr Batch :=
  match keys with
  | [] => Ok b
  | k :: keys => let! b := bdelete f k b in delete_all f keys b
  end.

Definition refresh_ops (f : Faults) (d : DB) (stream : string) (r : option (N * N)) (b : Batch) : result StoreErr Batch :=
  match r with
  | None => Ok b
  | Some (from, to) =>
      let '(from, to) := match refreshPending d stream with
                         | Some (cf, ct) => (N.min from cf, N.max to ct)
                         | None => (from, to)
                         end in
      bset f (rpKey stream) (VRange from to) b
  end.

(** The span a prune journals and the plan sees. *)
Definition prune_span (lwm upTo : N) (stats : pruneStats) : PruneSpan :=
  mkPruneSpan lwm (upTo - 1) (st_firstTS stats) (st_lastTS stats) false (st_shed stats).

(** The batch of a prune of [[lwm, upTo)], with the new head and byte count. *)
Definition prune_batch (f : Faults) (stream : string) (lwm upTo : N) (stats : pruneStats) (out : PruneOutcome) (s : Store)
    : result StoreErr (Batch * N * N) :=
  let b := [BDeleteRange (StreamRange stream lwm upTo)] in
  let! b := delete_all f ((fun '(sid, off) => sigKey stream sid off) <$> st_index stats) b in
  let! b := delete_all f ((fun '(target, off) => targetKey stream target off) <$> st_targets stats) b in
  let! b := bset f (lwmKey stream) (VU64 upTo) b in
  let liveBytes := if (at_ (bytes s) stream <? st_shed stats)%N then 0%N else (at_ (bytes s) stream - st_shed stats)%N in
  let! (b, off, liveBytes) := write_all f stream (po_GapRecords out) (at_ (next s) stream) liveBytes b in
  let! b := if off != at_ (next s) stream then setHead f stream off b else Ok b in
  let! b := refresh_ops f (db s) stream (po_Refresh out) b in
  let! b := bset f (bytesKey stream) (VU64 liveBytes) b in
  let! b := writeJournal f (db s) stream (prune_span lwm upTo stats) b in
  Ok (b, off, liveBytes).

(** [PruneScanned]. The mutex it holds is not the one cursor moves take, so the
    cursors it rechecks, those of [seen], can be older than [s]. *)
Definition PruneScanned (f : Faults) (seen : DB) (overridden : list string) (plan : PruneSpan -> PruneOutcome)
    (scan : PruneScan) (s : Store) : Store * result StoreErr N :=
  let stream := sc_stream scan in
  let lwm := sc_from scan in
  if (sc_upTo scan <=? lwm)%N then (s, Ok 0%N)
  else if at_ (StoreData.lwm s) stream != lwm then (s, Err EConcurrentPrune)
  else if (at_ (next s) stream <? sc_upTo scan)%N then (s, Err EBeyondNext)
  else
    let upTo := cursor_floor seen stream (fun name => bool_decide (name ∈ overridden)) (sc_upTo scan) in
    if (upTo <=? lwm)%N then (s, Ok 0%N)
    else
      let stats := if (upTo != sc_upTo scan) || (at_ (holes s) stream != sc_holes scan)
                   then scanDoomed (db s) stream lwm upTo else sc_stats scan in
      let out := plan (prune_span lwm upTo stats) in
      let built := let! (b, off, liveBytes) := prune_batch f stream lwm upTo stats out s in
                   let! d := commit f b (db s) in
                   Ok (d, off, liveBytes) in
      match built with
      | Err e => (s, Err e)
      | Ok (d, off, liveBytes) =>
          (set_bytes (<[stream := liveBytes]> (bytes s))
             (set_lwm (<[stream := upTo]> (StoreData.lwm s))
                (set_next (<[stream := off]> (next s)) (set_db d s))),
           Ok (st_pruned stats))
      end.

(** [Prune]: the counters are read from [s0], the prefix is scanned in the
    snapshot [d1], and the prune commits on [s]. *)
Definition Prune (f : Faults) (s0 : Store) (d1 seen : DB) (stream : string) (upTo : N) (overridden : list string)
    (plan : PruneSpan -> PruneOutcome) (s : Store) : Store * result StoreErr N :=
  let next := at_ (next s0) stream in
  let lwm := at_ (lwm s0) stream in
  if next == 0%N then (s, Err (EUnknownStream stream))
  else if (upTo <=? lwm)%N then (s, Ok 0%N)
  else if (next <? upTo)%N then (s, Err EBeyondNext)
  else PruneScanned f seen overridden plan
         (mkPruneScan stream lwm upTo (at_ (holes s0) stream) (scanDoomed d1 stream lwm upTo)) s.

Definition ClearRefreshPending (f : Faults) (stream : string) (s : Store) : Store * result StoreErr unit :=
  if apply_fails f then (s, Err EApply) else (set_db (delete (rpKey stream) (db s)) s, Ok ()).

(** ** Compaction *)

Record CompactStats := mkCompactStats { cs_Superseded : N; cs_Tombstones : N; cs_Bytes : N }.

Definition no_compaction : CompactStats := mkCompactStats 0 0 0.

(** The latest offset of each topic. *)
Definition latest_of (recs : list (N * recEnc)) : gmap string N :=
  foldl (fun m x => <[e_Topic (snd x) := fst x]> m) ∅ recs.

Definition is_tombstone (e : recEnc) : bool := e_Payload e == "".

Definition cursorFloorLocked (d : DB) (stream : string) (next : N) : N :=
  cursor_floor d stream (fun _ => false) next.

(** The keys of a removed record: its own and its signal index entry. *)
Definition removal_keys (stream : string) (x : N * recEnc) : list Key :=
  streamKey stream (fst x) :: (if e_SignalID (snd x) != "" then [sigKey stream (e_SignalID (snd x)) (fst x)] else []).

(** The loop over the scanned records. *)
Fixpoint compact_loop (f : Faults) (stream : string) (latest : gmap string N) (floor : N) (recs : list (N * recEnc))
    (st : CompactStats) (shed : N) (b : Batch) : result StoreErr (CompactStats * N * Batch) :=
  match recs with
  | [] => Ok (st, shed, b)
  | (off, e) :: recs =>
      let remove st := let! b := delete_all f (removal_keys stream (off, e)) b in
                       compact_loop f stream latest floor recs st (shed + rec_size stream off e) b in
      if (off <? default 0 (latest !! e_Topic e))%N then remove (mkCompactStats (cs_Superseded st + 1) (cs_Tombstones st) (cs_Bytes st))
      else if is_tombstone e && (off <? floor)%N then remove (mkCompactStats (cs_Superseded st) (cs_Tombstones st + 1) (cs_Bytes st))
      else compact_loop f stream latest floor recs st shed b
  end.

(** The commit of a removal that leaves the low-water mark: the byte count goes
    down, the hole count up. *)
Definition commit_removal (f : Faults) (stream : string) (shed : N) (b : Batch) (s : Store) : result StoreErr (Store * N) :=
  let live := at_ (bytes s) stream in
  let shed := if (live <? shed)%N then live else shed in
  let! b := bset f (bytesKey stream) (VU64 (live - shed)) b in
  let! d := commit f b (db s) in
  Ok (set_bytes (<[stream := (live - shed)%N]> (bytes s))
        (set_holes (<[stream := (at_ (holes s) stream + 1)%N]> (holes s)) (set_db d s)), shed).

(** [Compact]: the counters of [s0], the scan of the snapshot [d1], the cursors
    of [seen], the commit on [s]. *)
Definition Compact (f : Faults) (s0 : Store) (d1 seen : DB) (stream : string) (s : Store)
    : Store * result StoreErr CompactStats :=
  let next0 := at_ (next s0) stream in
  let lwm0 := at_ (lwm s0) stream in
  if next0 == 0%N then (s, Err (EUnknownStream stream))
  else
    let records := scanStream d1 stream lwm0 next0 in
    if records == [] then (s, Ok no_compaction)
    else if (at_ (lwm s) stream != lwm0) || (at_ (holes s) stream != at_ (holes s0) stream) then (s, Err EConcurrentRemoval)
    else
      let floor := cursorFloorLocked seen stream (at_ (next s) stream) in
      match compact_loop f stream (latest_of records) floor records no_compaction 0 [] with
      | Err e => (s, Err e)
      | Ok (st, shed, b) =>
          if (cs_Superseded st == 0%N) && (cs_Tombstones st == 0%N) then (s, Ok st)
          else match commit_removal f stream shed b s with
               | Err e => (s, Err e)
               | Ok (s, shed) => (s, Ok (mkCompactStats (cs_Superseded st) (cs_Tombstones st) shed))
               end
      end.

(** ** Eviction *)

Record EvictStats := mkEvictStats { ev_Removed : N; ev_Bytes : N; ev_Resume : N; ev_Done : bool }.

(** The scan of [EvictRecords]: the doomed records, and where the scan stopped
    short of the head. *)
Fixpoint evict_scan (doomed : string -> bool) (maxScan scanned : N) (recs : list (N * recEnc)) (acc : list (N * recEnc))
    : list (N * recEnc) * option N :=
  match recs with
  | [] => (acc, None)
  | (off, e) :: recs =>
      if scanned == maxScan then (acc, Some off)
      else evict_scan doomed maxScan (scanned + 1) recs (if doomed (e_Topic e) then acc ++ [(off, e)] else acc)
  end.

Definition EvictRecords (f : Faults) (s0 : Store) (d1 : DB) (stream : string) (from maxScan : N) (doomed : string -> bool)
    (s : Store) : Store * result StoreErr EvictStats :=
  let next0 := at_ (next s0) stream in
  let lwm0 := at_ (lwm s0) stream in
  if next0 == 0%N then (s, Err (EUnknownStream stream))
  else if maxScan == 0%N then (s, Err EMaxScan)
  else
    let from := N.max from lwm0 in
    if (next0 <=? from)%N then (s, Ok (mkEvictStats 0 0 next0 true))
    else
      let '(out, stop) := evict_scan doomed maxScan 0 (scanStream d1 stream from next0) [] in
      let resume := default next0 stop in
      let done := bool_decide (stop = None) in
      if out == [] then (s, Ok (mkEvictStats 0 0 resume done))
      else if at_ (lwm s) stream != lwm0 then (s, Err EConcurrentPrune)
      else
        let keys := ((fun x => streamKey stream (fst x)) <$> out) ++ (out ≫= fun x => tail (removal_keys stream x)) in
        let shed := sumN (fun x => rec_size stream (fst x) (snd x)) out in
        match (let! b := delete_all f keys [] in commit_removal f stream shed b s) with
        | Err e => (s, Err e)
        | Ok (s, shed) => (s, Ok (mkEvictStats (N.of_nat (length out)) shed resume done))
        end.

(** The current-state entries of a snapshot whose topic is doomed. *)
Definition doomed_entry (doomed : string -> bool) (kv : Key * Val) : option (string * string * string) :=
  match parts (fst kv), suffix (fst kv) with
  | [t; path; node; topic], None => if (t == "k") && doomed topic then Some (path, node, topic) else None
  | _, _ => None
  end.

Fixpoint delete_entries (f : Faults) (entries : list (string * string * string)) (b : Batch) : result StoreErr Batch :=
  match entries with
  | [] => Ok b
  | (path, node, topic) :: entries => let! b := deleteKV f path node topic b in delete_entries f entries b
  end.

Definition EvictKV (f : Faults) (d1 : DB) (doomed : string -> bool) (s : Store) : Store * result StoreErr N :=
  let keys := omap (doomed_entry doomed) (map_to_list d1) in
  if keys == [] then (s, Ok 0%N)
  else match (let! b := delete_entries f keys [] in commit f b (db s)) with
       | Err e => (s, Err e)
       | Ok d => (set_db d s, Ok (N.of_nat (length keys)))
       end.
End prune.
