(* ===== verification/StoreRetention.v ===== *)
(** * The store: what retention keeps

    The theorems on [StorePrune]: a prune never passes a cursor it was not told
    to, accounts exactly for what it removes even when its scan is older than the
    store it commits on, and leaves a journal that still partitions what is gone;
    compaction keeps the value of every topic and every retraction somebody has
    not read. *)

From S2P Require Export StorePrune.

Open Scope string_scope.
Open Scope list_scope.
Open Scope go_scope.

Section retention.
Context `{Codec}.

(** ** Scans *)

Definition size_of (stream : string) (x : N * recEnc) : N := rec_size stream (fst x) (snd x).
Definition index_of (l : list (N * recEnc)) : list (string * N) :=
  (fun x => (e_SignalID (snd x), fst x)) <$> filter (fun x => e_SignalID (snd x) <> "") l.
Definition targets_of (l : list (N * recEnc)) : list (string * N) :=
  (fun x => (recordTarget (e_Topic (snd x)), fst x)) <$> filter (fun x => recordTarget (e_Topic (snd x)) <> "") l.

Lemma stats_foldl stream l st :
  st_pruned (foldl (stats_add stream) st l) = (st_pruned st + N.of_nat (length l))%N
  /\ st_shed (foldl (stats_add stream) st l) = (st_shed st + sumN (size_of stream) l)%N
  /\ st_index (foldl (stats_add stream) st l) = st_index st ++ index_of l
  /\ st_targets (foldl (stats_add stream) st l) = st_targets st ++ targets_of l.
Proof.
  revert st; induction l as [|[off e] l IH]; intros st.
  { simpl. rewrite !app_nil_r. split_and!; try done; lia. }
  cbn [foldl]. destruct (IH (stats_add stream st (off, e))) as (-> & -> & -> & ->). clear IH.
  unfold stats_add; cbn [st_pruned st_shed st_index st_targets length sumN foldr]. unfold index_of, targets_of.
  rewrite !filter_cons. cbn [fst snd]. unfold size_of at 2. cbn [fst snd]. split_and!.
  - lia.
  - unfold sumN. lia.
  - case_bool_decide; case_decide; try done. cbn [negb]. by rewrite <- app_assoc.
  - case_bool_decide; case_decide; try done. cbn [negb]. by rewrite <- app_assoc.
Qed.

Lemma scanDoomed_spec d stream from upTo :
  let l := scanStream d stream from upTo in
  let st := scanDoomed d stream from upTo in
  st_pruned st = N.of_nat (length l) /\ st_shed st = sumN (size_of stream) l
  /\ st_index st = index_of l /\ st_targets st = targets_of l.
Proof. cbv zeta. apply (stats_foldl stream _ no_stats). Qed.

Lemma elem_of_scanStream d stream from upTo off e :
  (off, e) ∈ scanStream d stream from upTo <-> (from <= off < upTo)%N /\ record_at d stream off = Some e.
Proof. unfold scanStream. by rewrite list_elem_of_filter, elem_of_records. Qed.

Lemma elem_of_index_of sid off l : (sid, off) ∈ index_of l <-> sid <> "" /\ exists e, (off, e) ∈ l /\ e_SignalID e = sid.
Proof.
  unfold index_of. rewrite list_elem_of_fmap. split.
  - intros ([o e] & [= -> ->] & [Hne Hin]%list_elem_of_filter). naive_solver.
  - intros (Hne & e & Hin & <-). exists (off, e). split; [done|]. by apply list_elem_of_filter.
Qed.

Lemma elem_of_targets_of t off l : (t, off) ∈ targets_of l -> exists e, (off, e) ∈ l.
Proof.
  unfold targets_of. rewrite list_elem_of_fmap. intros ([o e] & [= -> ->] & [_ Hin]%list_elem_of_filter). by exists e.
Qed.

(** ** Removing records *)

Lemma StreamInv_remove d d' stream lo lo' hi live shed (P : N -> Prop) `{forall off, Decision (P off)} :
  StreamInv d stream lo hi live ->
  (forall off, d' !! streamKey stream off = if decide (P off) then None else d !! streamKey stream off) ->
  (forall sid off, is_Some (d' !! sigKey stream sid off) <-> ~ P off /\ is_Some (d !! sigKey stream sid off)) ->
  (forall t off, ~ P off -> d' !! targetKey stream t off = d !! targetKey stream t off) ->
  (forall off e, ~ P off -> record_at d stream off = Some e -> (lo' <= off)%N) ->
  shed = sumN (size_of stream) (filter (fun x => P (fst x)) (records d stream)) ->
  (shed <= live)%N /\ StreamInv d' stream lo' hi (live - shed).
Proof.
  intros [H1 H2 H3 H4] Hs Hsig Ht Hlo Hshed.
  assert (Hr : forall off, record_at d' stream off = if decide (~ P off) then record_at d stream off else None).
  { intros off. unfold record_at. rewrite Hs. repeat case_decide; tauto. }
  assert (Hb : live = (shed + live_bytes d' stream)%N).
  { rewrite H2. unfold live_bytes. rewrite (records_filter d d' stream (fun off => ~ P off)) by done.
    rewrite Hshed. apply (sumN_filter _ (fun x => P (fst x))). }
  split; [lia|]. split.
  - intros off v. rewrite Hs. case_decide; [done|]. intros Hv. destruct (H1 off v Hv) as [Hr' [e ->]].
    split; [|by eexists]. split; [|lia]. apply (Hlo off e); [done|]. unfold record_at. by rewrite Hv.
  - lia.
  - intros sid off. rewrite Hsig, H3, Hr. case_decide; naive_solver.
  - intros off e. rewrite Hr. case_decide as Hp; [|done]. intros He Hne. rewrite Ht by done. by apply H4.
Qed.

(** ** The journal *)

Definition span_val (sp : PruneSpan) : Val := VJournal (mkJournalEnc (ps_To sp) (ps_FirstTS sp) (ps_LastTS sp) (ps_Coalesced sp)).

(** A span as it reads back: the shed bytes are not stored. *)
Definition stored_span (sp : PruneSpan) : PruneSpan :=
  mkPruneSpan (ps_From sp) (ps_To sp) (ps_FirstTS sp) (ps_LastTS sp) (ps_Coalesced sp) 0.

Definition at_from (sp : PruneSpan) : N * PruneSpan := (ps_From sp, sp).

Definition journal_ops (stream : string) (J : list PruneSpan) (span : PruneSpan) : Batch :=
  match J with
  | x :: y :: _ =>
      if (journalCap <=? length J)%nat
      then [BDelete (journalKey stream (ps_From y)); BSet (journalKey stream (ps_From x)) (span_val (merge_spans x y))]
      else []
  | _ => []
  end ++ [BSet (journalKey stream (ps_From span)) (span_val span)].

(** The journal with its two oldest entries merged when it is full. *)
Definition trimmed (J : list PruneSpan) : list PruneSpan :=
  match J with
  | x :: y :: rest => if (journalCap <=? length J)%nat then merge_spans x y :: rest else J
  | _ => J
  end.

Definition journal_after (J : list PruneSpan) (span : PruneSpan) : list PruneSpan := trimmed J ++ [stored_span span].

Lemma writeJournal_Ok f d stream span b b' :
  length (readJournal d stream) <= journalCap -> writeJournal f d stream span b = Ok b' ->
  b' = b ++ journal_ops stream (readJournal d stream) span.
Proof.
  unfold writeJournal, journal_ops. set (J := readJournal d stream). clearbody J. intros HJ.
  destruct (Nat.leb_spec journalCap (length J)) as [Hcap|Hcap].
  - destruct J as [|x [|y rest]]; [unfold journalCap in *; simpl in *; lia..|].
    change (length ((x :: y :: rest) ++ [span])) with (S (length (y :: rest ++ [span]))).
    generalize (length (y :: rest ++ [span])). intros fuel. cbn [app merge_oldest].
    rewrite (proj2 (Nat.ltb_lt _ _)) by (simpl in *; rewrite length_app; simpl; lia).
    destruct (bdelete f _ b) as [b1|] eqn:B1; [|done]. apply bdelete_Ok in B1 as ->.
    assert (E : forall fuel b, merge_oldest f fuel stream (merge_spans x y :: rest ++ [span]) true b
               = Ok (merge_spans x y :: rest ++ [span], true, b)).
    { intros [|n] b0; [done|]. cbn [merge_oldest]. destruct (rest ++ [span]) as [|z l] eqn:Er; [by destruct rest|].
      rewrite (proj2 (Nat.ltb_ge _ _)); [done|].
      apply (f_equal length) in Er. rewrite length_app in Er. simpl in *. lia. }
    rewrite E. cbn beta iota. unfold setJournal.
    destruct (bset f _ _ (b ++ _)) as [b2|] eqn:B2; [|done]. apply bset_Ok in B2 as ->. intros B3.
    apply bset_Ok in B3 as ->. by rewrite <- !app_assoc.
  - assert (E : merge_oldest f (length (J ++ [span])) stream (J ++ [span]) false b = Ok (J ++ [span], false, b)).
    { destruct (J ++ [span]) as [|x [|y l]] eqn:EJ; [done..|]. cbn [length merge_oldest].
      rewrite (proj2 (Nat.ltb_ge _ _)); [done|]. apply (f_equal length) in EJ. rewrite length_app in EJ. simpl in *. lia. }
    rewrite E. cbn beta iota. unfold setJournal. intros B. apply bset_Ok in B as ->. by destruct J as [|x [|y l]].
Qed.

Lemma scan_journal d stream : scan "j" stream as_span d = at_from <$> readJournal d stream.
Proof.
  unfold readJournal. rewrite <- list_fmap_compose. rewrite <- (list_fmap_id (scan _ _ _ _)) at 1.
  apply list_fmap_ext. intros i [first sp] Hi. apply list_elem_of_lookup_2, elem_of_scan in Hi as (v & _ & Hv).
  unfold as_span in Hv. destruct v; try done. by injection Hv as <-.
Qed.

Lemma chained_from lo hi l sp : chained lo hi l -> sp ∈ l -> (lo <= ps_From sp < hi)%N.
Proof.
  assert (Hle : forall l lo, chained lo hi l -> (lo <= hi)%N).
  { clear. intros l. induction l as [|x l IH]; intros lo; cbn [chained]; [intros ->; lia|].
    intros (<- & Hx & Hc). apply IH in Hc. lia. }
  revert lo; induction l as [|x l IH]; intros lo Hc Hin; [by apply elem_of_nil in Hin|].
  destruct Hc as (<- & Hx & Hc). apply elem_of_cons in Hin as [->|Hin].
  - apply Hle in Hc. lia.
  - apply (IH _ Hc) in Hin. lia.
Qed.

Lemma chained_sorted lo hi l : chained lo hi l -> StronglySorted off_lt (at_from <$> l).
Proof.
  revert lo; induction l as [|x l IH]; intros lo Hc; [constructor|]. destruct Hc as (<- & Hx & Hc).
  rewrite fmap_cons. constructor; [by eapply IH|]. apply Forall_fmap, Forall_forall. intros y Hy.
  apply (chained_from _ _ _ _ Hc) in Hy. unfold off_lt; simpl. lia.
Qed.

Lemma chained_snoc lo mid hi l sp :
  chained lo mid l -> ps_From sp = mid -> (mid <= ps_To sp)%N -> (ps_To sp + 1)%N = hi -> chained lo hi (l ++ [sp]).
Proof.
  revert lo; induction l as [|x l IH]; intros lo; cbn [chained app]; [intros ->; naive_solver|].
  intros (<- & Hx & Hc). naive_solver.
Qed.

Lemma trimmed_chained J lo hi : chained lo hi J -> chained lo hi (trimmed J).
Proof.
  unfold trimmed. destruct J as [|x [|y rest]]; [done..|]. destruct (_ <=? _)%nat; [|done].
  intros (Hx & Hx1 & Hy & Hy1 & Hc). cbn [chained merge_spans ps_From ps_To]. split_and!; [done|lia|done].
Qed.

Lemma journal_after_chained J span lo upTo :
  chained 1 lo J -> ps_From span = lo -> (lo <= ps_To span)%N -> (ps_To span + 1)%N = upTo ->
  chained 1 upTo (journal_after J span).
Proof. intros Hc Hf Hle Hto. apply (chained_snoc 1 lo); [by apply trimmed_chained|done..]. Qed.

Lemma journal_after_length J span : length J <= journalCap -> length (journal_after J span) <= journalCap.
Proof.
  intros Hl. unfold journal_after, trimmed. rewrite length_app. unfold journalCap in *.
  destruct J as [|x [|y rest]]; [simpl; lia..|]. destruct (Nat.leb_spec 64 (length (x :: y :: rest))); simpl in *; lia.
Qed.

Lemma as_span_val first sp : first = ps_From sp -> as_span first (span_val sp) = Some (stored_span sp).
Proof. by intros ->. Qed.

(** What the batch leaves at a journal key. *)
Lemma journal_ops_at stream J span first o :
  batch_at (journalKey stream first) (journal_ops stream J span) o
  = if decide (first = ps_From span) then Some (span_val span)
    else match J with
         | x :: y :: _ => if (journalCap <=? length J)%nat
             then if decide (first = ps_From x) then Some (span_val (merge_spans x y))
                  else if decide (first = ps_From y) then None else o
             else o
         | _ => o
         end.
Proof.
  unfold journal_ops, journalKey. rewrite batch_at_app. unfold batch_at at 1. cbn [foldl flip op_at].
  destruct (decide (first = ps_From span)) as [->|Hne]; [by rewrite decide_True by done|].
  rewrite decide_False by naive_solver. destruct J as [|x [|y J]]; [done..|]. destruct (_ <=? _)%nat; [|done].
  unfold batch_at. cbn [foldl flip op_at]. repeat case_decide; naive_solver.
Qed.

Lemma journal_fresh lo hi J first sp : chained lo hi J -> (first, sp) ∈ at_from <$> J -> (first < hi)%N.
Proof. intros Hc (sp' & [= -> ->] & Hin)%list_elem_of_fmap. apply (chained_from _ _ _ _ Hc) in Hin. lia. Qed.

Lemma elem_of_journal d stream first sp :
  (first, sp) ∈ at_from <$> readJournal d stream <-> exists v, d !! journalKey stream first = Some v /\ as_span first v = Some sp.
Proof. rewrite <- scan_journal. apply elem_of_scan. Qed.

(** The entries a merge leaves, other than at the merged keys. *)
Lemma elem_of_trimmed lo hi J first sp : chained lo hi J ->
  (first, sp) ∈ at_from <$> trimmed J <->
  match J with
  | x :: y :: _ => if (journalCap <=? length J)%nat
      then if decide (first = ps_From x) then sp = merge_spans x y
           else first <> ps_From y /\ (first, sp) ∈ at_from <$> J
      else (first, sp) ∈ at_from <$> J
  | _ => (first, sp) ∈ at_from <$> J
  end.
Proof.
  intros Hc. pose proof (chained_sorted _ _ _ Hc) as Hs. unfold trimmed. destruct J as [|x [|y rest]]; [done..|].
  destruct (_ <=? _)%nat; [|done].
  rewrite !fmap_cons in Hs |- *. inversion_clear Hs as [|? ? Hs' Hx]. inversion_clear Hs' as [|? ? Hs Hy].
  apply Forall_cons in Hx as [Hxy Hx]. rewrite Forall_forall in Hx, Hy. unfold off_lt, at_from in Hxy; simpl in Hxy.
  assert (Hrest : (first, sp) ∈ at_from <$> rest -> first <> ps_From x /\ first <> ps_From y).
  { intros Hin. specialize (Hx _ Hin). specialize (Hy _ Hin). unfold off_lt, at_from in Hx, Hy; simpl in Hx, Hy. lia. }
  rewrite !elem_of_cons. change (at_from (merge_spans x y)) with (ps_From x, merge_spans x y).
  change (at_from x) with (ps_From x, x). change (at_from <$> y :: rest) with ((ps_From y, y) :: (at_from <$> rest)).
  destruct (decide (first = ps_From x)); rewrite ?elem_of_cons; naive_solver.
Qed.

Lemma readJournal_after d d' stream lo upTo span :
  chained 1 lo (readJournal d stream) -> ps_From span = lo -> (lo <= ps_To span)%N -> (ps_To span + 1)%N = upTo ->
  (forall first, d' !! journalKey stream first
     = batch_at (journalKey stream first) (journal_ops stream (readJournal d stream) span) (d !! journalKey stream first)) ->
  readJournal d' stream = journal_after (readJournal d stream) span.
Proof.
  intros Hc Hf Hle Hto Hd. set (J := readJournal d stream) in *.
  assert (Heq : scan "j" stream as_span d' = at_from <$> journal_after J span).
  { apply sorted_unique; [apply scan_sorted|by eapply chained_sorted, journal_after_chained|]. intros [first sp].
    rewrite elem_of_scan. fold (journalKey stream first). setoid_rewrite Hd. setoid_rewrite journal_ops_at.
    pose proof (elem_of_journal d stream first sp) as HJ. fold J in HJ.
    pose proof (journal_fresh _ _ _ first sp (trimmed_chained _ _ _ Hc)) as Hlt.
    unfold journal_after. rewrite fmap_app, elem_of_app.
    change (at_from <$> [stored_span span]) with [(ps_From span, stored_span span)]. rewrite list_elem_of_singleton.
    destruct (decide (first = ps_From span)) as [Hsp|Hsp].
    { subst first. split.
      - intros (v & [= <-] & [= <-]). by right.
      - intros [Hin|[= ->]]; [|by eexists]. apply Hlt in Hin. lia. }
    transitivity ((first, sp) ∈ at_from <$> trimmed J); [|naive_solver].
    rewrite (elem_of_trimmed 1 lo) by done. destruct J as [|x [|y rest]]; [by rewrite HJ..|].
    destruct (_ <=? _)%nat; [|by rewrite HJ]. destruct (decide (first = ps_From x)) as [->|].
    { split; [intros (v & [= <-] & [= <-]); done|intros ->; by eexists]. }
    rewrite HJ. destruct (decide (first = ps_From y)); naive_solver. }
  unfold readJournal at 1. rewrite Heq, <- list_fmap_compose. apply list_fmap_id.
Qed.

(** ** Batches by the families they write *)

Definition writes (b : Batch) (T : list string) : Prop :=
  forall k, tag k ∉ T -> Forall (fun op => touches op k = false) b.

Lemma writes_app b1 b2 T : writes b1 T -> writes b2 T -> writes (b1 ++ b2) T.
Proof. intros H1 H2 k Hk. apply Forall_app. auto. Qed.

Lemma writes_incl b T T' : Forall (fun t => t ∈ T') T -> writes b T -> writes b T'.
Proof. rewrite Forall_forall. intros Hi Hb k Hk. apply Hb. auto. Qed.

Lemma writes_set k v : writes [BSet k v] [tag k].
Proof.
  intros k' Hk. constructor; [|constructor]. apply untouched_set. intros E. apply Hk. by apply list_elem_of_singleton.
Qed.

Lemma writes_deletes (keys : list Key) t : Forall (fun k => tag k = t) keys -> writes (BDelete <$> keys) [t].
Proof.
  intros Hks k Hk. apply Forall_fmap. rewrite Forall_forall in Hks |- *. intros k' Hin. cbn [compose touches].
  apply bool_decide_eq_false_2. intros ->. apply Hk. apply list_elem_of_singleton. auto.
Qed.

Lemma writes_stream_range stream a b : writes [BDeleteRange (StreamRange stream a b)] ["s"].
Proof.
  intros k Hk. repeat constructor. cbn [touches]. destruct k as [[|t [|n []]] [o|]]; try done. simpl.
  assert (t <> "s") by (intros ->; apply Hk; tag_in). by rewrite bool_decide_eq_false_2.
Qed.

(** Batches that write different families commute. *)
Lemma apply_batch_comm b1 b2 T1 T2 d :
  writes b1 T1 -> writes b2 T2 -> bool_decide (Forall (fun t => t ∉ T2) T1) = true ->
  apply_batch (b1 ++ b2) d = apply_batch (b2 ++ b1) d.
Proof.
  intros H1 H2 HT. apply map_eq. intros k. rewrite !lookup_apply_batch, !batch_at_app.
  destruct (decide (tag k ∈ T1)) as [Hk|Hk].
  - assert (tag k ∉ T2) as Hk2 by (by apply (tags_disjoint T1)).
    by rewrite !(batch_at_untouched k b2) by (by apply H2).
  - by rewrite !(batch_at_untouched k b1) by (by apply H1).
Qed.

Lemma delete_all_Ok f keys b b' : delete_all f keys b = Ok b' -> b' = b ++ (BDelete <$> keys).
Proof.
  revert b; induction keys as [|k keys IH]; intros b E; cbn [delete_all] in E; [injection E as <-; by rewrite app_nil_r|].
  destruct (bdelete f k b) as [b1|] eqn:B1; [|done]. apply bdelete_Ok in B1 as ->. apply IH in E as ->. by rewrite <- app_assoc.
Qed.

Lemma deletes_at k keys o : batch_at k (BDelete <$> keys) o = if decide (k ∈ keys) then None else o.
Proof.
  revert o; induction keys as [|k' keys IH]; intros o; [done|]. rewrite fmap_cons.
  change (BDelete k' :: (BDelete <$> keys)) with ([BDelete k'] ++ (BDelete <$> keys)). rewrite batch_at_app, IH.
  unfold batch_at. cbn [foldl flip op_at]. destruct (decide (k' = k)) as [->|Hne].
  - rewrite (decide_True (P := k ∈ k :: keys)) by (by left). by case_decide.
  - repeat case_decide; try done; rewrite elem_of_cons in *; naive_solver.
Qed.

(** ** The batch of a prune *)

Definition refresh_batch (d : DB) (stream : string) (r : option (N * N)) : Batch :=
  match r with
  | None => []
  | Some (from, to) =>
      [BSet (rpKey stream) (match refreshPending d stream with
                            | Some (cf, ct) => VRange (N.min from cf) (N.max to ct)
                            | None => VRange from to
                            end)]
  end.

Lemma refresh_ops_Ok f d stream r b b' : refresh_ops f d stream r b = Ok b' -> b' = b ++ refresh_batch d stream r.
Proof.
  unfold refresh_ops, refresh_batch. destruct r as [[from to]|]; [|intros [= <-]; by rewrite app_nil_r].
  destruct (refreshPending d stream) as [[cf ct]|]; apply bset_Ok.
Qed.

Definition sig_keys (stream : string) (stats : pruneStats) : list Key := (fun '(sid, off) => sigKey stream sid off) <$> st_index stats.
Definition target_keys (stream : string) (stats : pruneStats) : list Key :=
  (fun '(target, off) => targetKey stream target off) <$> st_targets stats.

Definition shed_bytes (s : Store) (stream : string) (stats : pruneStats) : N :=
  if (at_ (bytes s) stream <? st_shed stats)%N then 0%N else (at_ (bytes s) stream - st_shed stats)%N.

(** What a prune deletes, and what it writes besides its gap records. *)
Definition cut_batch (stream : string) (lwm upTo : N) (stats : pruneStats) : Batch :=
  [BDeleteRange (StreamRange stream lwm upTo)] ++ (BDelete <$> sig_keys stream stats) ++ (BDelete <$> target_keys stream stats)
  ++ [BSet (lwmKey stream) (VU64 upTo)].
Definition note_batch (stream : string) (live : N) (span : PruneSpan) (r : option (N * N)) (d : DB) : Batch :=
  refresh_batch d stream r ++ [BSet (bytesKey stream) (VU64 live)] ++ journal_ops stream (readJournal d stream) span.

Definition head_sets (stream : string) (n : N) : Batch := [BSet (metaKey stream) (VU64 n); BSet (indexedKey stream) (VU64 n)].

Lemma prune_batch_Ok f stream lwm upTo stats out s b off live :
  length (readJournal (db s) stream) <= journalCap ->
  prune_batch f stream lwm upTo stats out s = Ok (b, off, live) ->
  let n := at_ (next s) stream in let gaps := po_GapRecords out in
  off = (n + N.of_nat (length gaps))%N
  /\ live = (shed_bytes s stream stats + costs stream n gaps)%N
  /\ b = cut_batch stream lwm upTo stats
         ++ (records_ops stream n gaps ++ match gaps with [] => [] | _ => head_sets stream off end)
         ++ note_batch stream live (prune_span lwm upTo stats) (po_Refresh out) (db s).
Proof.
  intros HJ E. cbv zeta. unfold prune_batch in E. cbv zeta in E.
  destruct (delete_all f _ [BDeleteRange _]) as [b1|] eqn:B1; [|done]. apply delete_all_Ok in B1 as ->.
  destruct (delete_all f _ _) as [b2|] eqn:B2; [|done]. apply delete_all_Ok in B2 as ->.
  destruct (bset f (lwmKey stream) _ _) as [b3|] eqn:B3; [|done]. apply bset_Ok in B3 as ->.
  destruct (write_all f stream _ _ _ _) as [[[b4 o] l]|] eqn:B4; [|done]. apply write_all_Ok in B4 as (-> & -> & ->).
  destruct (if _ != _ then _ else _) as [b5|] eqn:B5; [|done].
  destruct (refresh_ops f _ _ _ b5) as [b6|] eqn:B6; [|done]. apply refresh_ops_Ok in B6 as ->.
  destruct (bset f (bytesKey stream) _ _) as [b7|] eqn:B7; [|done]. apply bset_Ok in B7 as ->.
  destruct (writeJournal f _ _ _ _) as [b8|] eqn:B8; [|done]. apply writeJournal_Ok in B8 as ->; [|done].
  injection E as <- <- <-. split; [done|]. split; [done|].
  unfold cut_batch, note_batch, sig_keys, target_keys.
  destruct (po_GapRecords out) as [|rec recs] eqn:Eg.
  - cbn [length] in B5. rewrite N.add_0_r, bool_decide_eq_true_2 in B5 by done. injection B5 as <-.
    cbn [records_ops app]. by rewrite <- !app_assoc.
  - rewrite bool_decide_eq_false_2 in B5 by (cbn [length]; lia). cbn [negb] in B5. apply setHead_Ok in B5 as ->.
    cbn [app]. by rewrite <- !app_assoc.
Qed.

Lemma writes_cons op b T : writes [op] T -> writes b T -> writes (op :: b) T.
Proof. apply (writes_app [op]). Qed.

Lemma cut_writes stream lwm upTo stats : writes (cut_batch stream lwm upTo stats) ["s"; "si"; "ti"; "l"].
Proof.
  unfold cut_batch. repeat apply writes_app.
  - eapply writes_incl; [|apply writes_stream_range]. tag_in.
  - eapply writes_incl; [|apply (writes_deletes _ "si"), Forall_fmap, Forall_forall; by intros [] _]. tag_in.
  - eapply writes_incl; [|apply (writes_deletes _ "ti"), Forall_fmap, Forall_forall; by intros [] _]. tag_in.
  - eapply writes_incl; [|apply writes_set]. tag_in.
Qed.

Lemma journal_writes stream J span : writes (journal_ops stream J span) ["j"].
Proof.
  unfold journal_ops. apply writes_app; [|apply writes_set]. intros k Hk.
  destruct J as [|x [|y J]]; [constructor..|]. destruct (_ <=? _)%nat; [|constructor].
  repeat constructor; apply bool_decide_eq_false_2; intros <-; apply Hk; tag_in.
Qed.

Lemma refresh_writes d stream r : writes (refresh_batch d stream r) ["rp"].
Proof. destruct r as [[from to]|]; [|constructor]. unfold refresh_batch. apply writes_set. Qed.

Lemma note_writes stream live span r d : writes (note_batch stream live span r d) ["rp"; "b"; "j"].
Proof.
  unfold note_batch. apply writes_app; [|apply writes_app].
  - eapply writes_incl; [|apply refresh_writes]. tag_in.
  - eapply writes_incl; [|apply writes_set]. tag_in.
  - eapply writes_incl; [|apply journal_writes]. tag_in.
Qed.

Lemma records_writes stream off recs n : writes (records_ops stream off recs ++ head_sets stream n) (record_tags ++ ["m"; "ix"]).
Proof.
  apply writes_app; intros k Hk.
  - apply records_ops_untouched. intros Hin. apply Hk. apply elem_of_app. by left.
  - repeat constructor; apply untouched_set; intros E; apply Hk; rewrite E; tag_in.
Qed.

(** The store after the prune, before its gap records. *)
Definition pruned (stream : string) (lwm upTo : N) (stats : pruneStats) (r : option (N * N)) (s : Store) : Store :=
  let live := shed_bytes s stream stats in
  set_bytes (<[stream := live]> (bytes s))
    (set_lwm (<[stream := upTo]> (StoreData.lwm s))
       (set_db (apply_batch (cut_batch stream lwm upTo stats ++ note_batch stream live (prune_span lwm upTo stats) r (db s)) (db s)) s)).

Lemma note_batch_absorb stream live live' span r d d' :
  apply_batch (note_batch stream live span r d' ++ [BSet (bytesKey stream) (VU64 live')]) d
  = apply_batch (note_batch stream live' span r d') d.
Proof.
  unfold note_batch. rewrite <- !app_assoc, !(apply_batch_app (refresh_batch d' stream r)).
  generalize (apply_batch (refresh_batch d' stream r) d). clear d. intros d.
  rewrite !(apply_batch_app [BSet _ _]).
  rewrite (apply_batch_comm _ [BSet (bytesKey stream) _] ["j"] ["b"]); [|apply journal_writes|apply writes_set|done].
  rewrite apply_batch_app. f_equal. unfold apply_batch. cbn [foldl apply_op]. by rewrite insert_insert_eq.
Qed.

(** The gap records a prune writes are an append after it. *)
Lemma prune_db_eq stream lwm upTo stats r rec recs s :
  let n := at_ (next s) stream in let gaps := rec :: recs in
  let live := (shed_bytes s stream stats + costs stream n gaps)%N in
  let off := (n + N.of_nat (length gaps))%N in
  apply_batch (cut_batch stream lwm upTo stats ++ (records_ops stream n gaps ++ head_sets stream off)
               ++ note_batch stream live (prune_span lwm upTo stats) r (db s)) (db s)
  = db (put_records stream gaps (pruned stream lwm upTo stats r s)).
Proof.
  cbv zeta. rewrite put_records_eq. cbv zeta. unfold pruned. store_simpl. rewrite !at_insert_eq.
  set (live0 := shed_bytes s stream stats). set (n := at_ (next s) stream). set (off := (n + _)%N).
  set (live := (live0 + _)%N). set (span := prune_span lwm upTo stats).
  set (RM := records_ops stream n (rec :: recs) ++ head_sets stream off).
  replace (records_ops stream n (rec :: recs) ++ head_batch stream off live) with (RM ++ [BSet (bytesKey stream) (VU64 live)])
    by (unfold RM, head_sets, head_batch; by rewrite <- app_assoc).
  rewrite !(apply_batch_app (cut_batch _ _ _ _)).
  generalize (apply_batch (cut_batch stream lwm upTo stats) (db s)). intros d.
  rewrite (apply_batch_comm RM (note_batch _ _ _ _ _) (record_tags ++ ["m"; "ix"]) ["rp"; "b"; "j"]);
    [|apply records_writes|apply note_writes|done].
  rewrite (apply_batch_comm RM [BSet _ _] (record_tags ++ ["m"; "ix"]) ["b"]);
    [|apply records_writes|apply writes_set|done].
  rewrite !apply_batch_app, <- (apply_batch_app _ [BSet _ _] d), note_batch_absorb. done.
Qed.

Lemma cursor_floor_le d stream skip upTo : (cursor_floor d stream skip upTo <= upTo)%N.
Proof.
  unfold cursor_floor. revert upTo; induction (CursorSnapshot d) as [|c l IH]; intros upTo; simpl; [lia|].
  specialize (IH (shrink stream skip upTo c)). enough (shrink stream skip upTo c <= upTo)%N by lia. clear.
  unfold shrink. destruct (_ || _); [lia|]. destruct (N.ltb_spec (ci_Position c) upTo); lia.
Qed.

(** A committed prune. *)
Lemma PruneScanned_eq f seen overridden plan scan s s' n :
  let stream := sc_stream scan in let lwm := sc_from scan in
  let upTo := cursor_floor seen stream (fun name => bool_decide (name ∈ overridden)) (sc_upTo scan) in
  let stats := if (upTo != sc_upTo scan) || (at_ (holes s) stream != sc_holes scan)
               then scanDoomed (db s) stream lwm upTo else sc_stats scan in
  let out := plan (prune_span lwm upTo stats) in
  Inv s -> stream ∈ streams -> PruneScanned f seen overridden plan scan s = (s', Ok n) ->
  (s' = s /\ n = 0%N /\ (upTo <= lwm)%N)
  \/ (lwm < upTo)%N /\ LWM s stream = lwm /\ (sc_upTo scan <= NextOffset s stream)%N /\ n = st_pruned stats
     /\ s' = put_records stream (po_GapRecords out) (pruned stream lwm upTo stats (po_Refresh out) s).
Proof.
  cbv zeta. intros HI Hs E. unfold PruneScanned in E. cbv zeta in E.
  set (stream := sc_stream scan) in *. set (lwm := sc_from scan) in *.
  set (upTo := cursor_floor _ _ _ _) in *. set (stats := if (upTo != _) || (_ != _) then _ else _) in *. set (out := plan _) in *.
  destruct (N.leb_spec (sc_upTo scan) lwm) as [Hle|Hlt].
  { injection E as <- <-. left. split; [done|]. split; [done|].
    enough (upTo <= sc_upTo scan)%N by lia. apply cursor_floor_le. }
  destruct (_ != lwm) eqn:El; [done|]. bool_simp.
  destruct (N.ltb_spec (at_ (next s) stream) (sc_upTo scan)) as [|Hn]; [done|].
  destruct (N.leb_spec upTo lwm) as [Hu|Hu]; [injection E as <- <-; by left|].
  destruct (prune_batch f stream lwm upTo stats out s) as [[[b off] live]|] eqn:Eb; [|done].
  unfold commit in E. destruct (apply_fails f); [done|]. injection E as <- <-. right.
  split; [done|]. split; [done|]. split; [done|]. split; [done|].
  apply prune_batch_Ok in Eb as (-> & -> & ->); [|apply (ji_cap _ _ _ (inv_journal s HI stream Hs))].
  destruct (po_GapRecords out) as [|rec recs] eqn:Eg.
  - unfold put_records, pruned. cbn [foldl records_ops costs app length]. rewrite !N.add_0_r.
    unfold set_bytes, set_lwm, set_next, set_db. cbn [db next StoreData.lwm bytes holes adopted hwms policies id idMinted maxRecordBytes].
    f_equal. apply insert_id. pose proof (ci_bounds _ _ (inv_counter s HI stream Hs)) as Hb.
    unfold NextOffset, at_ in *. destruct (next s !! stream); [done|]. simpl in Hb. lia.
  - rewrite prune_db_eq. rewrite put_records_eq. cbv zeta. unfold pruned. store_simpl. rewrite !at_insert_eq. 
    unfold set_bytes, set_lwm, set_next, set_db. store_simpl. by rewrite insert_insert_eq.
Qed.

(** ** A prune keeps the invariant *)

Lemma KVInv_remove d d' heads :
  same_tags ["k"; "x"] d d' -> (forall st off r, record_at d' st off = Some r -> record_at d st off = Some r) ->
  KVInv d heads -> KVInv d' heads.
Proof.
  intros Hd Hr [H1 H2]. split.
  - intros path node topic v. rewrite Hd by tag_in. intros Hv. destruct (H1 _ _ _ _ Hv) as (e & -> & Ht & Ho & st & Hst & Hlt & Hp).
    exists e. split; [done|]. split; [done|]. split; [done|]. exists st. split; [done|]. split; [done|]. auto.
  - intros path node topic ik Hik. rewrite !Hd; [by apply H2|tag_in|]. rewrite (kvIndexKey_tag _ _ _ _ Hik). tag_in.
Qed.

Lemma CacheInv_frame s s' :
  same_tags ["h"; "u"; "i"] (db s) (db s') -> hwms s' = hwms s -> adopted s' = adopted s -> policies s' = policies s ->
  id s' = id s -> CacheInv s -> CacheInv s'.
Proof.
  intros Hd Hh Ha Hp Hi [C1 C2 C3 C4]. split; rewrite ?Hh, ?Ha, ?Hp, ?Hi; [..|done|].
  - intros child st n E. unfold readU64. rewrite Hd by tag_in. by apply C1.
  - intros child i E. rewrite Hd by tag_in. by apply C2.
  - rewrite Hd by tag_in. done.
Qed.

Lemma readJournal_ext d d' stream :
  (forall first, d' !! journalKey stream first = d !! journalKey stream first) -> readJournal d' stream = readJournal d stream.
Proof.
  intros Hd. unfold readJournal. f_equal. apply sorted_unique; [apply scan_sorted..|].
  intros [off a]. rewrite !elem_of_scan. by setoid_rewrite Hd.
Qed.

(** What a scan of [[lwm, upTo)] gathered of a database. *)
Definition stats_ok (d : DB) (stream : string) (lwm upTo : N) (stats : pruneStats) : Prop :=
  let l := scanStream d stream lwm upTo in
  st_pruned stats = N.of_nat (length l) /\ st_shed stats = sumN (size_of stream) l
  /\ st_index stats = index_of l /\ st_targets stats = targets_of l.

Definition refresh_ok (r : option (N * N)) : Prop := match r with Some (a, b) => (a < b)%N | None => True end.

(** A plan asks for refreshes of ranges that hold something. *)
Definition plan_ok (plan : PruneSpan -> PruneOutcome) : Prop :=
  forall span, (ps_From span <= ps_To span)%N -> refresh_ok (po_Refresh (plan span)).

Section pruned.
Variables (stream : string) (lo upTo : N) (stats : pruneStats) (r : option (N * N)) (s : Store).
Hypothesis HI : Inv s.
Hypothesis Hs : stream ∈ streams.
Hypothesis Hlwm : LWM s stream = lo.
Hypothesis Hlt : (lo < upTo <= NextOffset s stream)%N.
Hypothesis Hstats : stats_ok (db s) stream lo upTo stats.
Hypothesis Href : refresh_ok r.
Let s' := pruned stream lo upTo stats r s.
Let l := scanStream (db s) stream lo upTo.

Lemma pruned_cut k : tag k ∈ ["s"; "si"; "ti"; "l"] -> db s' !! k = batch_at k (cut_batch stream lo upTo stats) (db s !! k).
Proof.
  intros Hk. unfold s', pruned. store_simpl. rewrite lookup_apply_batch, batch_at_app.
  rewrite (batch_at_untouched k (note_batch _ _ _ _ _)); [done|]. apply note_writes.
  by apply (tags_disjoint ["s"; "si"; "ti"; "l"]).
Qed.

Lemma pruned_note k : tag k ∉ ["s"; "si"; "ti"; "l"] ->
  db s' !! k = batch_at k (note_batch stream (shed_bytes s stream stats) (prune_span lo upTo stats) r (db s)) (db s !! k).
Proof.
  intros Hk. unfold s', pruned. store_simpl. rewrite lookup_apply_batch, batch_at_app.
  rewrite (batch_at_untouched k (cut_batch _ _ _ _)); [done|]. by apply cut_writes.
Qed.

Lemma pruned_other k : tag k ∉ ["s"; "si"; "ti"; "l"; "rp"; "b"; "j"] -> db s' !! k = db s !! k.
Proof.
  rewrite !not_elem_of_cons. intros (? & ? & ? & ? & ? & ? & ? & ?). rewrite pruned_note by (rewrite !not_elem_of_cons; done).
  apply batch_at_untouched, note_writes. rewrite !not_elem_of_cons; done.
Qed.

Lemma pruned_stream st off :
  db s' !! streamKey st off = if decide (st = stream /\ (lo <= off < upTo)%N) then None else db s !! streamKey st off.
Proof.
  rewrite pruned_cut by tag_in. unfold cut_batch. rewrite !batch_at_app, !deletes_at. unfold batch_at. cbn [foldl flip op_at].
  rewrite !(decide_False (P := streamKey st off ∈ _)), decide_False by (first [done|intros ([] & E & _)%list_elem_of_fmap; done]).
  simpl. destruct (decide (st = stream)) as [->|Hne].
  - rewrite bool_decide_eq_true_2 by done. simpl. destruct (N.leb_spec lo off), (N.ltb_spec off upTo); simpl;
      case_decide; try done; naive_solver lia.
  - rewrite bool_decide_eq_false_2, decide_False by naive_solver. done.
Qed.

Lemma pruned_sig st sid off :
  db s' !! sigKey st sid off = if decide (st = stream /\ (sid, off) ∈ index_of l) then None else db s !! sigKey st sid off.
Proof.
  destruct Hstats as (_ & _ & Hi & _). rewrite pruned_cut by tag_in. unfold cut_batch.
  rewrite !batch_at_app, !deletes_at, (batch_at_untouched _ [BDeleteRange _]) by (apply writes_stream_range; tag_in).
  unfold batch_at. cbn [foldl flip op_at]. rewrite decide_False by done.
  rewrite (decide_False (P := sigKey st sid off ∈ target_keys _ _)) by (intros ([] & E & _)%list_elem_of_fmap; done).
  apply decide_ext. unfold sig_keys. rewrite Hi, list_elem_of_fmap. split.
  - intros ([sid' off'] & [= -> -> ->] & Hin). done.
  - intros [-> Hin]. by exists (sid, off).
Qed.

Lemma pruned_target st t off : ~ (st = stream /\ (lo <= off < upTo)%N) -> db s' !! targetKey st t off = db s !! targetKey st t off.
Proof.
  intros Hn. destruct Hstats as (_ & _ & _ & Ht). rewrite pruned_cut by tag_in. unfold cut_batch.
  rewrite !batch_at_app, !deletes_at, (batch_at_untouched _ [BDeleteRange _]) by (apply writes_stream_range; tag_in).
  unfold batch_at. cbn [foldl flip op_at]. rewrite decide_False by done.
  rewrite (decide_False (P := targetKey st t off ∈ sig_keys _ _)) by (intros ([] & E & _)%list_elem_of_fmap; done).
  apply decide_False. unfold target_keys. rewrite Ht. intros ([t' off'] & [= -> -> ->] & Hin)%list_elem_of_fmap.
  apply elem_of_targets_of in Hin as [e He%elem_of_scanStream]. naive_solver.
Qed.

Lemma pruned_counters st :
  db s' !! lwmKey st = (if decide (st = stream) then Some (VU64 upTo) else db s !! lwmKey st)
  /\ db s' !! bytesKey st = (if decide (st = stream) then Some (VU64 (shed_bytes s stream stats)) else db s !! bytesKey st).
Proof.
  split.
  - rewrite pruned_cut by tag_in. unfold cut_batch. rewrite !batch_at_app, !deletes_at, (batch_at_untouched _ [BDeleteRange _]) by (apply writes_stream_range; tag_in).
    rewrite !(decide_False (P := lwmKey st ∈ _)) by (intros ([] & E & _)%list_elem_of_fmap; done).
    unfold batch_at. cbn [foldl flip op_at]. unfold lwmKey. repeat case_decide; naive_solver.
  - rewrite pruned_note by tag_in. unfold note_batch. rewrite !batch_at_app.
    rewrite (batch_at_untouched _ (journal_ops _ _ _)) by (apply journal_writes; tag_in).
    rewrite (batch_at_untouched _ (refresh_batch _ _ _)) by (apply refresh_writes; tag_in).
    unfold batch_at. cbn [foldl flip op_at]. unfold bytesKey. repeat case_decide; naive_solver.
Qed.

Lemma pruned_journal st first :
  db s' !! journalKey st first
  = if decide (st = stream)
    then batch_at (journalKey st first) (journal_ops stream (readJournal (db s) stream) (prune_span lo upTo stats)) (db s !! journalKey st first)
    else db s !! journalKey st first.
Proof.
  rewrite pruned_note by tag_in. unfold note_batch. rewrite !batch_at_app.
  rewrite (batch_at_untouched _ [BSet _ _]) by (apply writes_set; tag_in).
  rewrite (batch_at_untouched _ (refresh_batch _ _ _)) by (apply refresh_writes; tag_in).
  case_decide; [done|]. apply batch_at_untouched. unfold journal_ops, journalKey. apply Forall_app. split.
  - destruct (readJournal _ _) as [|x [|y J]]; [constructor..|]. destruct (_ <=? _)%nat; [|constructor].
    repeat constructor; apply bool_decide_eq_false_2; naive_solver.
  - repeat constructor; apply bool_decide_eq_false_2; naive_solver.
Qed.

Lemma pruned_refresh st v : db s' !! rpKey st = Some v -> st ∈ streams -> exists a b, v = VRange a b /\ (a < b)%N.
Proof.
  intros Hv Hst. rewrite pruned_note in Hv by tag_in. unfold note_batch in Hv. rewrite !batch_at_app in Hv.
  rewrite (batch_at_untouched _ (journal_ops _ _ _)) in Hv by (apply journal_writes; tag_in).
  rewrite (batch_at_untouched _ [BSet (bytesKey _) _]) in Hv by (apply writes_set; tag_in).
  unfold refresh_batch, batch_at in Hv. destruct r as [[a b]|]; [|by apply (inv_refresh s HI) in Hv].
  simpl in Hv, Href. case_decide as Ek; [|by apply (inv_refresh s HI) in Hv]. injection Hv as <-.
  unfold refreshPending. destruct (db s !! rpKey stream) as [v|] eqn:Er; [|eauto].
  destruct (inv_refresh s HI _ _ Hs Er) as (a' & b' & -> & Hab). eexists _, _. split; [done|]. lia.
Qed.

Lemma pruned_stream_inv st : st ∈ streams ->
  (st = stream -> (st_shed stats <= StreamBytes s stream)%N)
  /\ StreamInv (db s') st (if decide (st = stream) then upTo else LWM s st) (NextOffset s st)
       (StreamBytes s st - if decide (st = stream) then st_shed stats else 0).
Proof.
  intros Hst. destruct Hstats as (_ & Hshed & _ & _).
  destruct (StreamInv_remove (db s) (db s') st (LWM s st) (if decide (st = stream) then upTo else LWM s st) (NextOffset s st)
    (StreamBytes s st) (if decide (st = stream) then st_shed stats else 0) (fun off => st = stream /\ (lo <= off < upTo)%N))
    as [Hle HS].
  - by apply (inv_stream s HI).
  - intros off. apply pruned_stream.
  - intros sid off. rewrite pruned_sig.
    pose proof (si_sig _ _ _ _ _ (inv_stream s HI st Hst) sid off) as Hsig.
    case_decide as Hd; [destruct Hd as [-> Hin]|].
    + apply elem_of_index_of in Hin as (Hne & e & [Hin _]%elem_of_scanStream & _).
      split; [intros []; done|]. intros [Hn _]. by destruct Hn.
    + split; [|by intros []]. intros HS. split; [|done]. intros [-> Hr]. apply Hd. split; [done|].
      apply Hsig in HS as (Hne & e & He & <-). apply elem_of_index_of. split; [done|]. exists e.
      split; [by apply elem_of_scanStream|done].
  - intros t off Hn. by apply pruned_target.
  - intros off e Hn He. unfold record_at in He. destruct (db s !! streamKey st off) as [v|] eqn:Hv; [|done].
    destruct (si_range _ _ _ _ _ (inv_stream s HI st Hst) off v Hv) as [Hr _]. case_decide; [subst st|lia].
    destruct (N.lt_ge_cases off upTo); [|lia]. exfalso. apply Hn. split; [done|lia].
  - case_decide as E; [subst st|].
    + rewrite Hshed. f_equal. unfold scanStream. apply list_filter_iff. intros x. naive_solver.
    + symmetry. rewrite (list_filter_iff _ (fun _ => False)) by naive_solver. by induction (records _ _).
  - split; [|done]. intros ->. by rewrite decide_True in Hle.
Qed.

Lemma pruned_lwm st : LWM s' st = if decide (st = stream) then upTo else LWM s st.
Proof. unfold LWM, s', pruned. store_simpl. case_decide as E; [rewrite E; apply at_insert_eq|by apply at_insert_ne]. Qed.

Lemma pruned_bytes st : StreamBytes s' st = if decide (st = stream) then shed_bytes s stream stats else StreamBytes s st.
Proof. unfold StreamBytes, s', pruned. store_simpl. case_decide as E; [rewrite E; apply at_insert_eq|by apply at_insert_ne]. Qed.

Lemma pruned_counter_inv st : st ∈ streams -> CounterInv s' st.
Proof.
  intros Hst. destruct (inv_counter s HI st Hst) as [C1 C2 C3 C4 C5]. destruct (pruned_counters st) as [E1 E2].
  split; rewrite ?pruned_lwm, ?pruned_bytes; change (NextOffset s' st) with (NextOffset s st); unfold readCounter.
  - case_decide; [subst|]; lia.
  - by rewrite pruned_other by tag_in.
  - by rewrite pruned_other by tag_in.
  - rewrite E1. by case_decide.
  - rewrite E2. by case_decide.
Qed.

Lemma pruned_journal_inv st : st ∈ streams -> JournalInv (db s') st (LWM s' st).
Proof.
  intros Hst. destruct (inv_journal s HI st Hst) as [J1 J2 J3].
  rewrite pruned_lwm. case_decide as E; [subst st|].
  - assert (HJ : readJournal (db s') stream = journal_after (readJournal (db s) stream) (prune_span lo upTo stats)).
    { apply (readJournal_after _ _ _ lo upTo); [by rewrite Hlwm in J2|done|simpl; lia|simpl; lia|].
      intros first. rewrite pruned_journal. by rewrite decide_True. }
    rewrite Hlwm in J2. split; rewrite ?HJ.
    + intros first v. rewrite pruned_journal, decide_True, journal_ops_at by done. intros Hv.
      revert Hv. case_decide; [intros [= <-]; by eexists|].
      destruct (readJournal _ _) as [|x [|y J]]; [by apply J1..|]. destruct (_ <=? _)%nat; [|by apply J1].
      case_decide; [intros [= <-]; by eexists|]. case_decide; [done|]. by apply J1.
    + apply (journal_after_chained _ _ lo); [done|done|simpl; lia|simpl; lia].
    + by apply journal_after_length.
  - assert (HJ : readJournal (db s') st = readJournal (db s) st).
    { apply readJournal_ext. intros first. rewrite pruned_journal. by rewrite decide_False. }
    split; rewrite ?HJ; [|done..]. intros first v. rewrite pruned_journal, decide_False by done. apply J1.
Qed.

Lemma pruned_inv : Inv s'.
Proof.
  split.
  - intros st Hst. destruct (pruned_stream_inv st Hst) as [Hle HS]. rewrite pruned_lwm, pruned_bytes.
    change (NextOffset s' st) with (NextOffset s st). case_decide as E.
    + rewrite E in *. unfold shed_bytes. fold (StreamBytes s stream). rewrite (proj2 (N.ltb_ge _ _)) by auto. done.
    + by rewrite N.sub_0_r in HS.
  - apply pruned_counter_inv.
  - intros st Hst. by apply (inv_unknown s HI).
  - intros st Hst. unfold s', pruned. store_simpl. rewrite lookup_insert. case_decide; [by eexists|]. by apply (inv_dom s HI).
  - apply (KVInv_remove (db s)); [|intros st off e|apply (inv_kv s HI)].
    + intros k Hk. apply pruned_other. by apply (tags_disjoint ["k"; "x"]).
    + unfold record_at. rewrite pruned_stream. by case_decide.
  - apply pruned_journal_inv.
  - intros st v Hst Hv. by apply (pruned_refresh st).
  - apply (CacheInv_frame s); [|done..|apply (inv_cache s HI)]. intros k Hk. apply pruned_other.
    by apply (tags_disjoint ["h"; "u"; "i"]).
Qed.

End pruned.

(** ** Cursors *)

Lemma elem_of_CursorSnapshot d c :
  c ∈ CursorSnapshot d <-> d !! cursorKey (ci_Name c) (ci_Stream c) = Some (VU64 (ci_Position c))
                          /\ ci_LastAdvanceMS c = readU64 d (ctKey (ci_Name c) (ci_Stream c)) 0.
Proof.
  unfold CursorSnapshot. rewrite list_elem_of_omap. split.
  - intros ([k v] & Hkv & E). apply elem_of_map_to_list in Hkv. unfold cursor_info in E; simpl in E.
    destruct k as [[|t [|name [|stream []]]] [o|]]; simpl in E; try done. destruct v; try done.
    case_bool_decide; [|done]. injection E as <-. subst t. done.
  - intros [Hk Ht]. exists (cursorKey (ci_Name c) (ci_Stream c), VU64 (ci_Position c)).
    split; [by apply elem_of_map_to_list|]. unfold cursor_info; simpl. rewrite <- Ht. by destruct c.
Qed.

Lemma cursor_floor_min d stream skip upTo name pos :
  d !! cursorKey name stream = Some (VU64 pos) -> skip name = false -> (cursor_floor d stream skip upTo <= pos)%N.
Proof.
  intros Hk Hskip.
  assert (Hin : mkCursorInfo name stream pos (readU64 d (ctKey name stream) 0) ∈ CursorSnapshot d).
  { by apply elem_of_CursorSnapshot. }
  unfold cursor_floor. revert upTo. induction (CursorSnapshot d) as [|c l IH]; intros upTo; [by apply elem_of_nil in Hin|].
  apply elem_of_cons in Hin as [<-|Hin]; [|by apply IH]. cbn [foldl].
  assert (shrink stream skip upTo (mkCursorInfo name stream pos (readU64 d (ctKey name stream) 0)) <= pos)%N as Hle.
  { unfold shrink. cbn [ci_Stream ci_Name ci_Position]. rewrite bool_decide_eq_true_2, Hskip by done. simpl.
    destruct (N.ltb_spec pos upTo); lia. }
  enough (forall l u, foldl (shrink stream skip) u l <= u)%N as Hm by (etrans; [apply Hm|exact Hle]).
  clear. induction l as [|c l IH]; intros u; simpl; [lia|]. etrans; [apply IH|].
  unfold shrink. destruct (_ || _); [lia|]. destruct (N.ltb_spec (ci_Position c) u); lia.
Qed.

Lemma cursor_floor_attained d stream skip upTo :
  cursor_floor d stream skip upTo = upTo
  \/ exists name, skip name = false /\ d !! cursorKey name stream = Some (VU64 (cursor_floor d stream skip upTo)).
Proof.
  unfold cursor_floor.
  assert (Hall : Forall (fun c => d !! cursorKey (ci_Name c) (ci_Stream c) = Some (VU64 (ci_Position c))) (CursorSnapshot d)).
  { apply Forall_forall. intros c Hc. by apply elem_of_CursorSnapshot in Hc as [? _]. }
  revert upTo. induction Hall as [|c l Hc Hl IH]; intros upTo; [by left|]. cbn [foldl].
  destruct (IH (shrink stream skip upTo c)) as [->|]; [|by right].
  unfold shrink. destruct ((ci_Stream c != stream) || skip (ci_Name c)) eqn:E; [by left|].
  destruct (_ <? _)%N; [|by left]. right. bool_simp. subst. by exists (ci_Name c).
Qed.

(** ** Theorems on pruning *)

(** A scan that is right for the store it is used on, unless the store says that
    records were removed since. *)
Definition scan_valid (scan : PruneScan) (s : Store) : Prop :=
  LWM s (sc_stream scan) = sc_from scan -> at_ (holes s) (sc_stream scan) = sc_holes scan ->
  stats_ok (db s) (sc_stream scan) (sc_from scan) (sc_upTo scan) (sc_stats scan).

Lemma scanDoomed_ok d stream lwm upTo : stats_ok d stream lwm upTo (scanDoomed d stream lwm upTo).
Proof. apply scanDoomed_spec. Qed.

Section prune_claims.
Variables (f : Faults) (seen : DB) (overridden : list string) (plan : PruneSpan -> PruneOutcome) (scan : PruneScan) (s : Store).
Hypothesis HI : Inv s.
Hypothesis Hs : sc_stream scan ∈ streams.
Hypothesis Hscan : scan_valid scan s.
Hypothesis Hplan : plan_ok plan.
Let upTo := cursor_floor seen (sc_stream scan) (fun name => bool_decide (name ∈ overridden)) (sc_upTo scan).

Lemma PruneScanned_outcome s' n :
  PruneScanned f seen overridden plan scan s = (s', Ok n) ->
  (s' = s /\ n = 0%N)
  \/ exists stats, let out := plan (prune_span (LWM s (sc_stream scan)) upTo stats) in
     stats_ok (db s) (sc_stream scan) (LWM s (sc_stream scan)) upTo stats /\ n = st_pruned stats
     /\ (LWM s (sc_stream scan) < upTo <= NextOffset s (sc_stream scan))%N
     /\ s' = put_records (sc_stream scan) (po_GapRecords out)
               (pruned (sc_stream scan) (LWM s (sc_stream scan)) upTo stats (po_Refresh out) s)
     /\ Inv s'.
Proof.
  intros E. apply PruneScanned_eq in E; [|done..]. fold upTo in E. cbv zeta in E.
  destruct E as [(-> & -> & _)|(Hlt & Hl & Hn & -> & ->)]; [by left|right].
  set (stats := if (upTo != _) || (_ != _) then _ else _).
  assert (Hst : stats_ok (db s) (sc_stream scan) (LWM s (sc_stream scan)) upTo stats).
  { rewrite Hl. unfold stats. destruct ((upTo != sc_upTo scan) || (at_ (holes s) (sc_stream scan) != sc_holes scan)) eqn:Ed.
    - apply scanDoomed_ok.
    - bool_simp. rewrite H0. by apply Hscan. }
  assert (Hu : (LWM s (sc_stream scan) < upTo <= NextOffset s (sc_stream scan))%N).
  { rewrite Hl. pose proof (cursor_floor_le seen (sc_stream scan) (fun name => bool_decide (name ∈ overridden)) (sc_upTo scan)).
    fold upTo in H0. lia. }
  exists stats. cbv zeta. rewrite Hl in *. split; [done|]. split; [done|]. split; [done|]. split; [done|].
  apply put_records_inv; [done|]. apply pruned_inv; try done. apply Hplan. simpl. lia.
Qed.

Lemma PruneScanned_unchanged s' e : PruneScanned f seen overridden plan scan s = (s', Err e) -> s' = s.
Proof. unfold PruneScanned. cbv zeta. repeat case_match; naive_solver. Qed.

Lemma PruneScanned_inv : Inv (fst (PruneScanned f seen overridden plan scan s)).
Proof.
  destruct (PruneScanned f seen overridden plan scan s) as [s' [n|e]] eqn:E; cbn [fst].
  - apply PruneScanned_outcome in E as [[-> _]|(stats & _ & _ & _ & _ & HI')]; done.
  - by apply PruneScanned_unchanged in E as ->.
Qed.

End prune_claims.

Lemma filter_ext_in {A} (P Q : A -> Prop) `{forall x, Decision (P x)} `{forall x, Decision (Q x)} (l : list A) :
  (forall x, x ∈ l -> P x <-> Q x) -> filter P l = filter Q l.
Proof.
  induction l as [|x l IH]; intros Heq; [done|]. rewrite !filter_cons.
  rewrite IH by (intros y Hy; apply Heq; by right). assert (P x <-> Q x) by (apply Heq; by left).
  repeat case_decide; tauto.
Qed.

Lemma filter_none {A} (P : A -> Prop) `{forall x, Decision (P x)} (l : list A) : (forall x, x ∈ l -> ~ P x) -> filter P l = [].
Proof.
  induction l as [|x l IH]; intros Hn; [done|]. rewrite filter_cons, decide_False by (apply Hn; by left).
  apply IH. intros y Hy. apply Hn. by right.
Qed.

Lemma put_records_below stream recs s st off : (st = stream -> off < NextOffset s stream)%N ->
  record_at (db (put_records stream recs s)) st off = record_at (db s) st off.
Proof.
  revert s; induction recs as [|rec recs IH]; intros s Hlt; [done|].
  change (put_records stream (rec :: recs) s) with (put_records stream recs (put_record stream s rec)).
  rewrite IH, record_at_put.
  - rewrite decide_False; [done|]. intros [-> ->]. specialize (Hlt eq_refl). lia.
  - intros ->. rewrite put_next, decide_True by done. specialize (Hlt eq_refl). lia.
Qed.

Lemma put_records_lwm stream recs s st : LWM (put_records stream recs s) st = LWM s st.
Proof. revert s; induction recs as [|rec recs IH]; intros s; [done|]. apply (IH (put_record stream s rec)). Qed.

Lemma put_records_holes stream recs s : holes (put_records stream recs s) = holes s.
Proof. revert s; induction recs as [|rec recs IH]; intros s; [done|]. apply (IH (put_record stream s rec)). Qed.

Lemma put_records_other stream recs s k : tag k ∉ head_tags -> tag k ∉ record_tags ->
  db (put_records stream recs s) !! k = db s !! k.
Proof.
  intros Hh Hr. revert s; induction recs as [|rec recs IH]; intros s; [done|].
  change (put_records stream (rec :: recs) s) with (put_records stream recs (put_record stream s rec)).
  rewrite IH. by apply lookup_put_other.
Qed.

Lemma PruneScanned_floor f seen overridden plan scan s s' n :
  Inv s -> sc_stream scan ∈ streams -> scan_valid scan s -> plan_ok plan ->
  PruneScanned f seen overridden plan scan s = (s', Ok n) ->
  (forall name pos, seen !! cursorKey name (sc_stream scan) = Some (VU64 pos) -> name ∉ overridden ->
     LWM s' (sc_stream scan) <= N.max (LWM s (sc_stream scan)) pos)%N
  /\ (forall k, tag k ∈ cursor_tags -> db s' !! k = db s !! k).
Proof.
  intros HI Hs Hscan Hplan E.
  destruct (PruneScanned_outcome _ _ _ _ _ _ HI Hs Hscan Hplan _ _ E) as [[-> ->]|(stats & Hst & -> & Hu & -> & _)].
  - split; [intros; lia|done].
  - split.
    + intros name pos Hpos Hn. rewrite put_records_lwm, pruned_lwm, decide_True by done.
      etrans; [|apply N.le_max_r]. apply (cursor_floor_min seen _ _ _ name); [done|]. by apply bool_decide_eq_false_2.
    + intros k Hk. rewrite put_records_other; [apply pruned_other|..]; by apply (tags_disjoint cursor_tags).
Qed.


Lemma CursorLookup_get s name stream pos : db s !! cursorKey name stream = Some (VU64 pos) -> CursorGet s name stream = pos.
Proof. unfold CursorGet, readU64. by intros ->. Qed.

(** Acks do not wait for the prune's mutex, so they can commit between the
    prune's look at the cursors and its own commit. No consumer loses records by
    that: after the prune, the low-water mark is not past where any cursor that
    was there at the look, and was not overridden, then stands. *)
Theorem prune_window_acks f g now group overridden plan scan s0 s s' n :
  Inv s0 -> sc_stream scan ∈ streams -> scan_valid scan s -> plan_ok plan ->
  fst (commitAcks g now group s0) = s ->
  PruneScanned f (db s0) overridden plan scan s = (s', Ok n) ->
  forall name pos, db s0 !! cursorKey name (sc_stream scan) = Some (VU64 pos) -> name ∉ overridden ->
    (LWM s' (sc_stream scan) <= N.max (LWM s0 (sc_stream scan)) (CursorGet s' name (sc_stream scan)))%N.
Proof.
  intros HI Hs Hscan Hplan Ha E name pos Hpos Hn.
  assert (HIs : Inv s) by (subst s; by apply commitAcks_inv).
  assert (Hfw : LWM s (sc_stream scan) = LWM s0 (sc_stream scan)
    /\ (CursorGet s0 name (sc_stream scan) <= CursorGet s name (sc_stream scan))%N).
  { destruct (commitAcks g now group s0) as [s1 r] eqn:Eg. simpl in Ha. subst s1. pose proof (commitAcks_eq _ _ _ _ _ _ Eg) as Heq.
    destruct r; [|by subst]. destruct Heq as [-> _]. split; [done|]. unfold CursorGet. store_simpl.
    rewrite ack_effects_cursor. apply max_le_foldl. }
  destruct Hfw as [Hl Hc]. rewrite (CursorLookup_get s0 name _ pos Hpos) in Hc.
  destruct (PruneScanned_floor _ _ _ _ _ _ _ _ HIs Hs Hscan Hplan E) as [H1 H2].
  specialize (H1 name pos Hpos Hn). rewrite Hl in H1. unfold CursorGet, readU64 in *. rewrite H2 by tag_in. lia.
Qed.

(** ** Gaps *)

Definition covers (off : N) (sp : PruneSpan) : Prop := (ps_From sp <= off <= ps_To sp)%N.
#[global] Instance covers_dec off sp : Decision (covers off sp).
Proof. unfold covers. apply _. Defined.

Lemma chained_cover lo hi l off : chained lo hi l -> (lo <= off < hi)%N -> exists sp, filter (covers off) l = [sp].
Proof.
  revert lo; induction l as [|sp l IH]; intros lo; cbn [chained]; [intros ->; lia|].
  intros (<- & Hle & Hc) Hoff. rewrite filter_cons. destruct (N.le_gt_cases off (ps_To sp)) as [Hin|Hin].
  - rewrite decide_True by (unfold covers; lia). exists sp. f_equal. apply filter_none.
    intros sp' Hsp'. apply (chained_from _ _ _ _ Hc) in Hsp'. unfold covers. lia.
  - rewrite decide_False by (unfold covers; lia). apply (IH _ Hc). lia.
Qed.

Lemma gap_fold l g :
  let r := foldl gap_step g l in
  g_Stream r = g_Stream g /\ g_FromOffset r = g_FromOffset g /\ g_ToOffset r = g_ToOffset g
  /\ (g_FirstTS r, g_Approx r)
     = match last (filter (covers (g_FromOffset g)) l) with Some sp => (ps_FirstTS sp, ps_Coalesced sp) | None => (g_FirstTS g, g_Approx g) end
  /\ g_LastTS r = match last (filter (covers (g_ToOffset g)) l) with Some sp => ps_LastTS sp | None => g_LastTS g end.
Proof.
  cbv zeta. revert g; induction l as [|sp l IH]; intros g; [done|]. cbn [foldl].
  destruct (IH (gap_step g sp)) as (-> & -> & -> & -> & ->). clear IH.
  assert (Hb : forall off, (ps_From sp <=? off)%N && (off <=? ps_To sp)%N = bool_decide (covers off sp)).
  { intros off. unfold covers. destruct (N.leb_spec (ps_From sp) off), (N.leb_spec off (ps_To sp)); simpl;
      symmetry; (apply bool_decide_eq_true_2 || apply bool_decide_eq_false_2); lia. }
  assert (Hg : g_Stream (gap_step g sp) = g_Stream g /\ g_FromOffset (gap_step g sp) = g_FromOffset g
    /\ g_ToOffset (gap_step g sp) = g_ToOffset g
    /\ (g_FirstTS (gap_step g sp), g_Approx (gap_step g sp))
       = (if decide (covers (g_FromOffset g) sp) then (ps_FirstTS sp, ps_Coalesced sp) else (g_FirstTS g, g_Approx g))
    /\ g_LastTS (gap_step g sp) = (if decide (covers (g_ToOffset g) sp) then ps_LastTS sp else g_LastTS g)).
  { unfold gap_step. cbv zeta. rewrite !Hb. case_bool_decide; cbn [g_ToOffset]; case_bool_decide; repeat case_decide; done. }
  destruct Hg as (-> & -> & -> & E4 & E5). rewrite E4, E5. split_and!; try done.
  - rewrite filter_cons. destruct (decide (covers (g_FromOffset g) sp)); rewrite ?last_cons; by destruct (last _).
  - rewrite filter_cons. destruct (decide (covers (g_ToOffset g) sp)); rewrite ?last_cons; by destruct (last _).
Qed.

(** The gap a consumer is told of is what pruning took from it. A reader at or
    past the low-water mark (position 0 counts as 1) is told of none. A reader
    below it is told the range from its position up to the mark; every offset of
    that range lies in exactly one span of the journal, however often the oldest
    spans were merged; the range's start and end times are those of the spans that
    hold its ends, and it is marked approximate exactly when the span it starts in
    is a merged one. *)
Theorem Gap_spec s stream position :
  Inv s -> stream ∈ streams ->
  let p := N.max 1 position in
  match Gap s stream position with
  | None => (LWM s stream <= p)%N
  | Some g =>
      g_Stream g = stream /\ g_FromOffset g = p /\ (g_ToOffset g + 1)%N = LWM s stream /\ (p < LWM s stream)%N
      /\ (forall off, (p <= off < LWM s stream)%N -> exists sp, filter (covers off) (readJournal (db s) stream) = [sp])
      /\ (exists first, filter (covers p) (readJournal (db s) stream) = [first]
            /\ g_FirstTS g = ps_FirstTS first /\ g_Approx g = ps_Coalesced first)
      /\ exists last, filter (covers (g_ToOffset g)) (readJournal (db s) stream) = [last] /\ g_LastTS g = ps_LastTS last
  end.
Proof.
  intros HI Hs. cbv zeta. unfold Gap. cbv zeta. pose proof (ci_bounds _ _ (inv_counter s HI stream Hs)) as Hb.
  pose proof (ji_chained _ _ _ (inv_journal s HI stream Hs)) as Hc.
  replace (if (position <? 1)%N then 1%N else position) with (N.max 1 position)
    by (destruct (N.ltb_spec position 1); lia).
  set (p := N.max 1 position). rewrite bool_decide_eq_false_2 by lia. cbn [orb].
  destruct (N.leb_spec (LWM s stream) p) as [Hle|Hlt]; [done|].
  destruct (gap_fold (readJournal (db s) stream) (mkGapSpan stream p (LWM s stream - 1) 0 0 false)) as (-> & -> & -> & E4 & ->).
  cbn [g_Stream g_FromOffset g_ToOffset g_FirstTS g_LastTS g_Approx] in *.
  assert (Hcov : forall off, (p <= off < LWM s stream)%N -> exists sp, filter (covers off) (readJournal (db s) stream) = [sp]).
  { intros off Hoff. apply (chained_cover 1 (LWM s stream)); [done|lia]. }
  destruct (Hcov p) as [first Ef]; [lia|]. destruct (Hcov (LWM s stream - 1)%N) as [last_ El]; [lia|].
  rewrite Ef in E4. injection E4 as E41 E42. split_and!; try done; [lia|by exists first|].
  exists last_. by rewrite El.
Qed.
End retention.
