(* ===== verification/StoreCompact.v ===== *)
(** * The store: the retention policy, compaction and eviction

    The theorems on [policyScan], [Compact], [EvictRecords] and [EvictKV] of
    [StorePrune]. *)

From S2P Require Export StoreRetention.

Open Scope string_scope.
Open Scope list_scope.
Open Scope go_scope.

Section policy.
Context `{Codec}.
Variables (stream : string) (p : Policy) (cutoff : Z).

(** What the policy says of record [x] once [shed] bytes before it are to go: it
    is too old, or the stream is still too large. A record without a timestamp is
    never too old. *)
Definition wants (shed : N) (x : N * recEnc) : Prop :=
  (0 < po_maxAge p /\ 0 < e_TS (snd x) < cutoff)%Z \/ (0 < po_maxBytes p /\ shed + po_maxBytes p < po_liveBytes p)%N.

#[global] Instance wants_dec shed x : Decision (wants shed x).
Proof. unfold wants. apply _. Defined.

(** The walk splits the records into those it takes and the rest. *)
Record Walked (acc r : PolicyAcc) (taken rest : list (N * recEnc)) : Prop := {
  wk_stats : pa_stats r = foldl (stats_add stream) (pa_stats acc) taken;
  wk_target : pa_target r = match last taken with Some x => (fst x + 1)%N | None => pa_target acc end;
  wk_wanted : forall before x after, taken = before ++ x :: after ->
                wants (pa_shed acc + sumN (size_of stream) before) x /\ (fst x < po_clamp p)%N;
  wk_clamped : pa_clamped acc = false -> pa_clamped r = true -> exists x rest', rest = x :: rest'
                 /\ wants (pa_shed acc + sumN (size_of stream) taken) x /\ (po_clamp p <= fst x)%N;
  wk_capped : pa_capped acc = false -> pa_capped r = true -> (0 < po_maxScan p <= pa_scanned acc + N.of_nat (length taken))%N /\ rest <> [];
  wk_stop : pa_clamped r = false -> pa_capped r = false ->
              match rest with [] => True | x :: _ => ~ wants (pa_shed acc + sumN (size_of stream) taken) x end;
  wk_bound : (0 < po_maxScan p)%N -> (pa_scanned acc <= po_maxScan p)%N -> (pa_scanned acc + N.of_nat (length taken) <= po_maxScan p)%N;
}.

Lemma wants_reflect acc e off :
  (pa_shed acc + po_maxBytes p < 2 ^ 64)%N ->
  negb ((0 <? po_maxAge p)%Z && (0 <? e_TS e)%Z && (e_TS e <? cutoff)%Z)
  && negb ((0 <? po_maxBytes p)%N && (wrap64 (pa_shed acc + po_maxBytes p) <? po_liveBytes p)%N)
  = negb (bool_decide (wants (pa_shed acc) (off, e))).
Proof.
  intros Hw. unfold wrap64. rewrite N.mod_small by done. unfold wants. cbn [snd].
  destruct (Z.ltb_spec 0 (po_maxAge p)), (Z.ltb_spec 0 (e_TS e)), (Z.ltb_spec (e_TS e) cutoff), (N.ltb_spec 0 (po_maxBytes p)),
    (N.ltb_spec (pa_shed acc + po_maxBytes p) (po_liveBytes p)); cbn [andb negb];
    ((rewrite bool_decide_eq_true_2 by lia) || (rewrite bool_decide_eq_false_2 by lia)); done.
Qed.

Lemma policy_walk_spec recs acc :
  (pa_shed acc + sumN (size_of stream) recs + po_maxBytes p < 2 ^ 64)%N ->
  exists taken rest, recs = taken ++ rest /\ Walked acc (policy_walk stream p cutoff recs acc) taken rest.
Proof.
  revert acc; induction recs as [|[off e] recs IH]; intros acc Hw.
  { exists [], []. split; [done|]. cbn [policy_walk].
    split; try done; [intros [] ? ?; discriminate|congruence|congruence|cbn [length]; lia]. }
  cbn [policy_walk]. cbn [sumN foldr] in Hw. fold (sumN (size_of stream) recs) in Hw.
  assert (Hstop : forall r, pa_stats r = pa_stats acc -> pa_target r = pa_target acc ->
    (pa_clamped acc = false -> pa_clamped r = true -> wants (pa_shed acc) (off, e) /\ (po_clamp p <= off)%N) ->
    (pa_capped acc = false -> pa_capped r = true -> (0 < po_maxScan p <= pa_scanned acc)%N) ->
    (pa_clamped r = false -> pa_capped r = false -> ~ wants (pa_shed acc) (off, e)) ->
    exists taken rest, (off, e) :: recs = taken ++ rest /\ Walked acc r taken rest).
  { intros r H1 H2 H3 H4 H5. exists [], ((off, e) :: recs). split; [done|].
    split; cbn [sumN foldr length]; rewrite ?N.add_0_r; try done; [intros [] ? ? ?; done|..]; [|naive_solver].
    intros Ha Hb. destruct (H3 Ha Hb). eexists _, _. done. }
  destruct ((0 <? po_maxScan p)%N && (po_maxScan p <=? pa_scanned acc)%N) eqn:Ec.
  { apply Hstop; try done; try (cbn; congruence). intros _ _. apply andb_true_iff in Ec as [E1%N.ltb_lt E2%N.leb_le]. lia. }
  rewrite (wants_reflect acc e off) by (unfold size_of in Hw; lia).
  destruct (bool_decide (wants (pa_shed acc) (off, e))) eqn:Ew; cbn [negb].
  2: { apply bool_decide_eq_false in Ew. apply Hstop; try done; cbn; congruence. }
  apply bool_decide_eq_true in Ew. destruct (N.leb_spec (po_clamp p) off) as [Hcl|Hcl].
  { apply Hstop; try done; cbn; congruence. }
  set (acc1 := mkPolicyAcc _ _ _ _ _ _).
  assert (Hs1 : pa_shed acc1 = (pa_shed acc + size_of stream (off, e))%N).
  { unfold acc1; cbn [pa_shed]. unfold wrap64. rewrite N.mod_small; [done|]. unfold size_of in Hw; cbn [fst snd] in Hw. lia. }
  destruct (IH acc1) as (taken & rest & -> & [W1 W2 W3 W4 W5 W6 W7]); [rewrite Hs1; lia|].
  exists ((off, e) :: taken), rest. split; [done|]. rewrite Hs1 in *.
  assert (Hsum : forall l, (pa_shed acc + sumN (size_of stream) ((off, e) :: l))%N
    = (pa_shed acc + size_of stream (off, e) + sumN (size_of stream) l)%N) by (intros; simpl; lia).
  split; rewrite ?Hsum; try done.
  - rewrite W2, last_cons. by destruct (last taken).
  - intros [|y before] x after Heq; injection Heq as <- Heq; [split; [by rewrite N.add_0_r|done]|].
    rewrite Hsum. by apply (W3 before x after).
  - intros Ha Hb. destruct (W5 Ha Hb) as [Hl ?]. split; [|done]. unfold acc1 in Hl; cbn [pa_scanned] in Hl. cbn [length]. lia.
  - intros Ha Hb. apply andb_false_iff in Ec. rewrite N.ltb_ge, N.leb_gt in Ec.
    unfold acc1 in W7; cbn [pa_scanned] in W7. cbn [length]. lia.
Qed.
End policy.

Section scans.
Context `{Codec}.

Lemma scanStream_sorted d stream lo hi : StronglySorted off_lt (scanStream d stream lo hi).
Proof. apply sorted_filter, records_sorted. Qed.

Lemma scanStream_cut d stream lo hi t : (lo <= t <= hi)%N ->
  filter (fun x => fst x < t)%N (scanStream d stream lo hi) = scanStream d stream lo t
  /\ filter (fun x => ~ fst x < t)%N (scanStream d stream lo hi) = scanStream d stream t hi.
Proof. intros Ht. unfold scanStream. rewrite !list_filter_filter. split; apply filter_ext_in; intros [off e] _; simpl; lia. Qed.

Lemma filter_all {A} (P : A -> Prop) `{forall x, Decision (P x)} (l : list A) : (forall x, x ∈ l -> P x) -> filter P l = l.
Proof.
  induction l as [|x l IH]; intros Hn; [done|]. rewrite filter_cons, decide_True by (apply Hn; by left).
  f_equal. apply IH. intros y Hy. apply Hn. by right.
Qed.

(** A walk that stops after [taken] has read the records up to its target. *)
Lemma scan_taken d stream lo hi taken rest t :
  (lo <= hi)%N -> scanStream d stream lo hi = taken ++ rest ->
  t = match last taken with Some x => (fst x + 1)%N | None => lo end ->
  (lo <= t <= hi)%N /\ taken = scanStream d stream lo t /\ rest = scanStream d stream t hi.
Proof.
  intros Hle E Ht. pose proof (scanStream_sorted d stream lo hi) as Hs. rewrite E in Hs.
  apply StronglySorted_app in Hs as (Hcross & Hs1 & Hs2).
  assert (Hmem : forall x, x ∈ taken ++ rest -> (lo <= fst x < hi)%N).
  { intros [off e]. rewrite <- E. intros [? _]%elem_of_scanStream. done. }
  assert (Hb : (lo <= t <= hi)%N /\ (forall x, x ∈ taken -> fst x < t)%N /\ (forall x, x ∈ rest -> ~ fst x < t)%N).
  { destruct (last taken) as [x|] eqn:El.
    - apply last_Some in El as [l' ->]. assert (Hx : x ∈ l' ++ [x]) by (apply elem_of_app; right; by left).
      assert (Hx' : x ∈ (l' ++ [x]) ++ rest) by (apply elem_of_app; by left). pose proof (Hmem x Hx'). split; [lia|]. split.
      + intros y [Hy|Hy]%elem_of_app.
        * apply StronglySorted_app in Hs1 as (Hc & _ & _). specialize (Hc y x Hy ltac:(by left)). unfold off_lt in Hc. lia.
        * apply list_elem_of_singleton in Hy as ->. lia.
      + intros y Hy. specialize (Hcross x y Hx Hy). unfold off_lt in Hcross. lia.
    - apply last_None in El as ->. subst t. split; [lia|]. split; [by intros x ?%elem_of_nil|].
      intros x Hx. specialize (Hmem x Hx). lia. }
  destruct Hb as (Hb & Hlo & Hhi). split; [done|]. destruct (scanStream_cut d stream lo hi t Hb) as [<- <-]. rewrite E, !filter_app.
  rewrite (filter_none (fun x => (fst x < t)%N) rest) by done. rewrite app_nil_r.
  rewrite (filter_none (fun x => ~ (fst x < t)%N) taken) by (intros x Hx Hn; apply Hn; auto).
  split; symmetry; apply filter_all; done.
Qed.

(** The retention policy. The target it computes is past exactly the records it
    wants gone, read from the low-water mark: each is too old, or still over the
    byte budget once the records before it are gone. It never passes [clamp], never
    reads more than [maxScan] records, and what it accounted is the prefix up to
    the target. It stops at the first record it keeps; when it stopped at the clamp
    it says so and the next record was one it wanted. The byte sums stay below
    2^64, where the code's additions would wrap. *)
Theorem policyScan_spec d stream lo hi now p :
  (lo <= hi)%N -> (sumN (size_of stream) (scanStream d stream lo hi) + po_maxBytes p < 2 ^ 64)%N ->
  let a := policyScan d stream lo hi now p in
  let wanted := wants p (now - po_maxAge p) in
  let taken := scanStream d stream lo (pa_target a) in
  (lo <= pa_target a <= hi)%N /\ (pa_target a <= N.max lo (po_clamp p))%N
  /\ stats_ok d stream lo (pa_target a) (pa_stats a)
  /\ (forall before x after, taken = before ++ x :: after -> wanted (sumN (size_of stream) before) x)
  /\ ((0 < po_maxScan p)%N -> (N.of_nat (length taken) <= po_maxScan p)%N)
  /\ match scanStream d stream (pa_target a) hi with
     | [] => pa_clamped a = false /\ pa_capped a = false
     | x :: _ => if pa_clamped a then wanted (sumN (size_of stream) taken) x /\ (po_clamp p <= fst x)%N
                 else if pa_capped a then (0 < po_maxScan p <= N.of_nat (length taken))%N
                 else ~ wanted (sumN (size_of stream) taken) x
     end.
Proof.
  intros Hle Hw. cbv zeta. unfold policyScan. set (acc := mkPolicyAcc lo 0 0 false false no_stats).
  destruct (policy_walk_spec stream p (now - po_maxAge p) (scanStream d stream lo hi) acc) as (taken & rest & E & [W1 W2 W3 W4 W5 W6 W7]);
    [exact Hw|].
  set (a := policy_walk _ _ _ _ _) in *.
  destruct (scan_taken d stream lo hi taken rest (pa_target a) Hle E W2) as (Hb & <- & <-).
  change (pa_target acc) with lo in W2. cbn [pa_shed pa_scanned pa_clamped pa_capped acc] in *. rewrite N.add_0_l in *.
  split; [done|]. split.
  { rewrite W2. destruct (last taken) as [x|] eqn:El; [|lia]. apply last_Some in El as [l' El].
    destruct (W3 l' x [] El) as [_ Hc]. lia. }
  split.
  { unfold stats_ok. destruct (scan_taken d stream lo hi taken rest (pa_target a) Hle E W2) as (_ & <- & _). rewrite W1.
    apply (stats_foldl stream taken no_stats). }
  split; [intros before x after Ht; by apply (W3 before x after)|]. split; [intros Hp; apply W7; [done|lia]|].
  destruct rest as [|x rest'].
  - destruct (pa_clamped a); [by destruct (W4 eq_refl eq_refl) as (? & ? & ? & _)|].
    destruct (pa_capped a); [by destruct (W5 eq_refl eq_refl) as [_ ?]|done].
  - destruct (pa_clamped a); [by destruct (W4 eq_refl eq_refl) as (? & ? & [= <- <-] & ?)|].
    destruct (pa_capped a); [by destruct (W5 eq_refl eq_refl)|]. by apply W6.
Qed.
End scans.

(** ** Scattered removals *)

Section removal.
Context `{Codec}.
Variables (stream : string) (removed : list (N * recEnc)) (keys : list Key) (s : Store).
Hypothesis HI : Inv s.
Hypothesis Hs : stream ∈ streams.
Hypothesis Hrec : forall off e, (off, e) ∈ removed -> record_at (db s) stream off = Some e.
Hypothesis Hsorted : StronglySorted off_lt removed.
Hypothesis Hkeys : forall k, k ∈ keys <-> exists x, x ∈ removed /\ k ∈ removal_keys stream x.

Definition gone (off : N) : Prop := off ∈ removed.*1.

#[global] Instance gone_dec off : Decision (gone off).
Proof. unfold gone. apply _. Defined.

Lemma gone_record off : gone off <-> exists e, (off, e) ∈ removed.
Proof.
  unfold gone. rewrite list_elem_of_fmap. split; [intros ([o e] & -> & Hin); by exists e|].
  intros [e Hin]. by exists (off, e).
Qed.

Lemma elem_of_removal_keys k x :
  k ∈ removal_keys stream x <-> k = streamKey stream (fst x) \/ e_SignalID (snd x) <> "" /\ k = sigKey stream (e_SignalID (snd x)) (fst x).
Proof using.
  clear. unfold removal_keys. rewrite elem_of_cons. case_bool_decide; cbn [negb]; rewrite ?list_elem_of_singleton, ?elem_of_nil; naive_solver.
Qed.

Variables (live' : N) (s' : Store).
Hypothesis Hs' : s' = set_bytes (<[stream := live']> (bytes s))
   (set_holes (<[stream := (at_ (holes s) stream + 1)%N]> (holes s))
      (set_db (apply_batch ((BDelete <$> keys) ++ [BSet (bytesKey stream) (VU64 live')]) (db s)) s)).

Lemma removal_lookup k : k <> bytesKey stream -> db s' !! k = if decide (k ∈ keys) then None else db s !! k.
Proof.
  intros Hk. rewrite Hs'. store_simpl. rewrite lookup_apply_batch, batch_at_app, deletes_at. unfold batch_at. cbn [foldl flip op_at].
  by rewrite decide_False.
Qed.

Lemma removal_keep k : tag k ∉ ["s"; "si"; "b"] -> db s' !! k = db s !! k.
Proof.
  rewrite !not_elem_of_cons. intros (Hk1 & Hk2 & Hk3 & _). rewrite removal_lookup by (by intros ->). apply decide_False.
  rewrite Hkeys. intros (x & _ & [->|[_ ->]]%elem_of_removal_keys); done.
Qed.

Lemma removal_bytes st : db s' !! bytesKey st = if decide (st = stream) then Some (VU64 live') else db s !! bytesKey st.
Proof.
  case_decide as E.
  - rewrite E, Hs'. store_simpl. rewrite lookup_apply_batch, batch_at_app. unfold batch_at at 1. cbn [foldl flip op_at]. by rewrite decide_True.
  - rewrite removal_lookup by (by intros [= ->]). apply decide_False. rewrite Hkeys.
    intros (x & _ & [?|[_ ?]]%elem_of_removal_keys); done.
Qed.

Lemma removal_stream st off :
  db s' !! streamKey st off = if decide (st = stream /\ gone off) then None else db s !! streamKey st off.
Proof.
  rewrite removal_lookup by done. apply decide_ext. rewrite Hkeys, gone_record. split.
  - intros ([o e] & Hin & [[= -> ->]|[_ ?]]%elem_of_removal_keys); [|done]. naive_solver.
  - intros (-> & e & Hin). exists (off, e). split; [done|]. apply elem_of_removal_keys. by left.
Qed.

Lemma removal_record st off :
  record_at (db s') st off = if decide (st = stream /\ gone off) then None else record_at (db s) st off.
Proof. unfold record_at. rewrite removal_stream. by case_decide. Qed.

Lemma removal_sig st sid off : st ∈ streams ->
  is_Some (db s' !! sigKey st sid off) <-> ~ (st = stream /\ gone off) /\ is_Some (db s !! sigKey st sid off).
Proof.
  intros Hst. rewrite removal_lookup by done.
  assert (Hk : sigKey st sid off ∈ keys <-> st = stream /\ exists e, (off, e) ∈ removed /\ e_SignalID e = sid /\ sid <> "").
  { rewrite Hkeys. split.
    - intros ([o e] & Hin & [?|[Hne [= -> -> ->]]]%elem_of_removal_keys); [done|]. naive_solver.
    - intros (-> & e & Hin & <- & Hne). exists (off, e). split; [done|]. apply elem_of_removal_keys. by right. }
  case_decide as Hd.
  - split; [intros []; done|]. intros [Hn _]. apply Hk in Hd as (-> & e & Hin & _). destruct Hn. split; [done|].
    apply gone_record. by exists e.
  - split; [|by intros []]. intros HS. split; [|done]. intros [-> [e Hin]%gone_record]. apply Hd, Hk. split; [done|]. exists e.
    apply (si_sig _ _ _ _ _ (inv_stream s HI stream Hs)) in HS as (Hne & e' & He' & <-).
    rewrite (Hrec _ _ Hin) in He'. injection He' as <-. done.
Qed.

Lemma removed_filter : filter (fun x => gone (fst x)) (records (db s) stream) = removed.
Proof using Hrec Hsorted.
  apply sorted_unique; [apply sorted_filter, records_sorted|done|]. intros [off e].
  rewrite list_elem_of_filter, elem_of_records, gone_record. simpl.
  split; [|intros Hin; split; [by exists e|by apply Hrec]].
  intros [[e' Hin] He]. rewrite (Hrec _ _ Hin) in He. by injection He as ->.
Qed.

Lemma removal_shed : (sumN (size_of stream) removed <= StreamBytes s stream)%N.
Proof using HI Hs Hrec Hsorted.
  rewrite (si_bytes _ _ _ _ _ (inv_stream s HI stream Hs)). 
  change (live_bytes (db s) stream) with (sumN (size_of stream) (records (db s) stream)).
  pose proof (sumN_filter (size_of stream) (fun x => gone (fst x)) (records (db s) stream)) as E.
  rewrite removed_filter in E. lia.
Qed.

Hypothesis Hlive : live' = (StreamBytes s stream - sumN (size_of stream) removed)%N.

Lemma removal_stream_inv st : st ∈ streams ->
  StreamInv (db s') st (LWM s' st) (NextOffset s' st) (StreamBytes s' st).
Proof.
  intros Hst.
  assert (EB : StreamBytes s' st = (StreamBytes s st - if decide (st = stream) then sumN (size_of stream) removed else 0)%N).
  { rewrite Hs'. unfold StreamBytes. store_simpl. case_decide as E; [rewrite E, at_insert_eq; by rewrite Hlive|].
    rewrite at_insert_ne by done. lia. }
  assert (EL : LWM s' st = LWM s st /\ NextOffset s' st = NextOffset s st) by (by rewrite Hs').
  destruct EL as [-> ->]. rewrite EB.
  apply (StreamInv_remove (db s) (db s') st (LWM s st) (LWM s st) (NextOffset s st) _ _ (fun off => st = stream /\ gone off)).
  - by apply (inv_stream s HI).
  - apply removal_stream.
  - intros. by apply removal_sig.
  - intros. apply removal_keep. tag_in.
  - intros off e _ He. unfold record_at in He. destruct (db s !! streamKey st off) as [v|] eqn:Hv; [|done].
    by apply (si_range _ _ _ _ _ (inv_stream s HI st Hst)) in Hv as [[]].
  - case_decide as E.
    + subst st. rewrite <- removed_filter at 1. f_equal. apply filter_ext_in. naive_solver.
    + by rewrite filter_none by naive_solver.
Qed.

Lemma removal_inv : Inv s'.
Proof.
  split.
  - apply removal_stream_inv.
  - intros st Hst. destruct (inv_counter s HI st Hst) as [C1 C2 C3 C4 C5].
    assert (LWM s' st = LWM s st /\ NextOffset s' st = NextOffset s st) as [EL EN] by (by rewrite Hs').
    split; rewrite ?EL, ?EN; unfold readCounter; rewrite ?removal_keep by tag_in; try done. rewrite removal_bytes.
    assert (StreamBytes s' st = if decide (st = stream) then live' else StreamBytes s st) as ->; [|by case_decide].
    rewrite Hs'. unfold StreamBytes. store_simpl. case_decide as E; [rewrite E; apply at_insert_eq|by apply at_insert_ne].
  - intros st Hst. rewrite Hs'. by apply (inv_unknown s HI).
  - intros st Hst. rewrite Hs'. store_simpl. rewrite lookup_insert. case_decide; [by eexists|]. by apply (inv_dom s HI).
  - assert (next s' = next s) as -> by (by rewrite Hs').
    apply (KVInv_remove (db s)); [|intros st off e|apply (inv_kv s HI)].
    + intros k Hk. apply removal_keep. by apply (tags_disjoint ["k"; "x"]).
    + rewrite removal_record. by case_decide.
  - intros st Hst. assert (LWM s' st = LWM s st) as -> by (by rewrite Hs').
    apply (JournalInv_frame (db s)); [|by apply (inv_journal s HI)]. intros k Hk. apply removal_keep. by apply (tags_disjoint ["j"]).
  - intros st v Hst. rewrite removal_keep by tag_in. by apply (inv_refresh s HI).
  - apply (CacheInv_frame s); [|by rewrite Hs'..|apply (inv_cache s HI)]. intros k Hk. apply removal_keep.
    by apply (tags_disjoint ["h"; "u"; "i"]).
Qed.

End removal.

(** ** Compaction *)

Section compact.
Context `{Codec}.

Lemma commit_removal_Ok f stream shed b s s' n :
  commit_removal f stream shed b s = Ok (s', n) ->
  let live := at_ (bytes s) stream in
  n = N.min shed live
  /\ s' = set_bytes (<[stream := (live - n)%N]> (bytes s))
      (set_holes (<[stream := (at_ (holes s) stream + 1)%N]> (holes s))
         (set_db (apply_batch (b ++ [BSet (bytesKey stream) (VU64 (live - n))]) (db s)) s)).
Proof.
  unfold commit_removal. cbv zeta. set (n' := if (_ <? shed)%N then _ else shed).
  assert (n' = N.min shed (at_ (bytes s) stream)) as <- by (unfold n'; destruct (N.ltb_spec (at_ (bytes s) stream) shed); lia).
  destruct (bset f _ _ b) as [b1|] eqn:B1; [|done]. apply bset_Ok in B1 as ->.
  unfold commit. destruct (apply_fails f); [done|]. intros [= <- <-]. done.
Qed.

(** What compaction takes: a superseded record, or a retraction below the floor. *)
Definition superseded (latest : gmap string N) (x : N * recEnc) : Prop := (fst x < default 0 (latest !! e_Topic (snd x)))%N.
Definition retracted (floor : N) (x : N * recEnc) : Prop := is_tombstone (snd x) = true /\ (fst x < floor)%N.
#[global] Instance superseded_dec latest x : Decision (superseded latest x).
Proof. unfold superseded. apply _. Defined.
#[global] Instance retracted_dec floor x : Decision (retracted floor x).
Proof. unfold retracted. apply _. Defined.

Definition compacted (latest : gmap string N) (floor : N) : list (N * recEnc) -> list (N * recEnc) :=
  filter (fun x => superseded latest x \/ retracted floor x).

Lemma compact_loop_Ok f stream latest floor recs st shed b st' shed' b' :
  compact_loop f stream latest floor recs st shed b = Ok (st', shed', b') ->
  let out := compacted latest floor recs in
  shed' = (shed + sumN (size_of stream) out)%N
  /\ b' = b ++ (BDelete <$> (out ≫= removal_keys stream))
  /\ (cs_Superseded st' + cs_Tombstones st' = cs_Superseded st + cs_Tombstones st + N.of_nat (length out))%N
  /\ cs_Bytes st' = cs_Bytes st.
Proof.
  cbv zeta. revert st shed b; induction recs as [|[off e] recs IH]; intros st shed b E; cbn [compact_loop] in E.
  { injection E as <- <- <-. simpl. rewrite app_nil_r. split_and!; try done; lia. }
  assert (Htake : forall st1, (let! b := delete_all f (removal_keys stream (off, e)) b in
      compact_loop f stream latest floor recs st1 (shed + rec_size stream off e) b) = Ok (st', shed', b') ->
    shed' = (shed + sumN (size_of stream) ((off, e) :: compacted latest floor recs))%N
    /\ b' = b ++ (BDelete <$> (((off, e) :: compacted latest floor recs) ≫= removal_keys stream))
    /\ (cs_Superseded st' + cs_Tombstones st' = cs_Superseded st1 + cs_Tombstones st1 + N.of_nat (length (compacted latest floor recs)))%N
    /\ cs_Bytes st' = cs_Bytes st1).
  { intros st1. destruct (delete_all f _ b) as [b1|] eqn:B1; [|done]. apply delete_all_Ok in B1 as ->. intros E1.
    apply IH in E1 as (-> & -> & E3 & E4). split_and!; try done.
    - simpl. unfold size_of at 2. simpl. lia.
    - rewrite bind_cons, fmap_app. by rewrite <- app_assoc. }
  unfold compacted. rewrite !filter_cons. fold (compacted latest floor recs).
  destruct (N.ltb_spec off (default 0%N (latest !! e_Topic e))) as [Hsup|Hsup].
  - apply Htake in E as (-> & -> & E3 & E4). cbn [cs_Superseded cs_Tombstones] in E3, E4.
    rewrite !decide_True by (by repeat left). split_and!; try done; cbn [length]; lia.
  - destruct (is_tombstone e && (off <? floor)%N) eqn:Er.
    + apply andb_true_iff in Er as [Et Ef%N.ltb_lt].
      apply Htake in E as (-> & -> & E3 & E4). cbn [cs_Superseded cs_Tombstones] in E3, E4.
      rewrite decide_True by (right; by split). split_and!; try done; cbn [length]; lia.
    + rewrite decide_False; [by apply IH|]. intros [Hx|[Hx Hy]]; [unfold superseded in Hx; simpl in Hx; lia|].
      simpl in Hx, Hy. rewrite Hx in Er. apply N.ltb_ge in Er. lia.
Qed.

(** The latest offset of a topic in a sorted scan. *)
Lemma latest_of_spec recs t :
  latest_of recs !! t = fst <$> last (filter (fun x => e_Topic (snd x) = t) recs).
Proof.
  unfold latest_of.
  assert (Hg : forall m : gmap string N, foldl (fun (m : gmap string N) x => <[e_Topic (snd x) := fst x]> m) m recs !! t
    = match last (filter (fun x : N * recEnc => e_Topic (snd x) = t) recs) with Some x => Some (fst x) | None => m !! t end).
  { induction recs as [|x recs IH]; intros m; [done|]. cbn [foldl]. rewrite IH, filter_cons. case_decide as E.
    - rewrite last_cons. destruct (last _); [done|]. by rewrite E, lookup_insert_eq.
    - destruct (last _); [done|]. by rewrite lookup_insert_ne. }
  rewrite Hg. by destruct (last _).
Qed.

(** ** What a reader sees of a latest-per-topic stream *)

(** The last record of a topic at or after a position. *)
Definition latest_from (d : DB) (stream : string) (pos : N) (t : string) : option (N * recEnc) :=
  last (filter (fun x => (pos <= fst x)%N /\ e_Topic (snd x) = t) (records d stream)).

(** The value of a topic: none when it was never written or was retracted. *)
Definition topic_value (d : DB) (stream : string) (t : string) : option string :=
  match latest_from d stream 0 t with
  | Some (_, e) => if is_tombstone e then None else Some (e_Payload e)
  | None => None
  end.

Lemma last_sorted (l : list (N * recEnc)) x :
  StronglySorted off_lt l -> last l = Some x <-> x ∈ l /\ forall y, y ∈ l -> (fst y <= fst x)%N.
Proof.
  intros Hs. assert (Hl : forall x, last l = Some x -> x ∈ l /\ forall y, y ∈ l -> (fst y <= fst x)%N).
  { intros z [l' ->]%last_Some. apply StronglySorted_app in Hs as (Hc & _ & _). split; [apply elem_of_app; right; by left|].
    intros y [Hy|Hy]%elem_of_app; [specialize (Hc y z Hy ltac:(by left)); unfold off_lt in Hc; lia|].
    by apply list_elem_of_singleton in Hy as ->. }
  split; [apply Hl|]. intros [Hin Hmax]. destruct (last l) as [z|] eqn:El; [|apply last_None in El as ->; by apply elem_of_nil in Hin].
  destruct (Hl z eq_refl) as [Hz Hzmax]. f_equal. specialize (Hmax z Hz). specialize (Hzmax x Hin). clear Hl El.
  induction Hs as [|y l Hs IH Hy]; [by apply elem_of_nil in Hin|]. rewrite Forall_forall in Hy.
  apply elem_of_cons in Hin as [->|Hin], Hz as [->|Hz]; try done; [specialize (Hy z Hz)|specialize (Hy x Hin)|by apply IH];
    unfold off_lt in Hy; lia.
Qed.

Lemma latest_from_Some d stream pos t off e :
  latest_from d stream pos t = Some (off, e) <->
  record_at d stream off = Some e /\ e_Topic e = t /\ (pos <= off)%N
  /\ forall off' e', record_at d stream off' = Some e' -> e_Topic e' = t -> (off' <= off)%N.
Proof.
  unfold latest_from. rewrite last_sorted by apply sorted_filter, records_sorted.
  rewrite list_elem_of_filter, elem_of_records. simpl. split.
  - intros [[[Hp Ht] Hr] Hmax]. split_and!; try done. intros off' e' Hr' Ht'.
    destruct (N.le_gt_cases pos off'); [|lia]. apply (Hmax (off', e')). by rewrite list_elem_of_filter, elem_of_records.
  - intros (Hr & Ht & Hp & Hmax). split; [done|]. intros [off' e'] [[_ Ht'] Hr']%list_elem_of_filter.
    apply elem_of_records in Hr'. by apply (Hmax off' e').
Qed.

Lemma latest_from_None d stream pos t :
  latest_from d stream pos t = None <-> forall off e, record_at d stream off = Some e -> e_Topic e = t -> (off < pos)%N.
Proof.
  unfold latest_from. rewrite last_None. split.
  - intros Hn off e Hr Ht. destruct (N.lt_ge_cases off pos); [done|].
    assert ((off, e) ∈ filter (fun x => (pos <= fst x)%N /\ e_Topic (snd x) = t) (records d stream)) as Hin
      by (by rewrite list_elem_of_filter, elem_of_records).
    rewrite Hn in Hin. by apply elem_of_nil in Hin.
  - intros Hall. apply filter_none. intros [off e] Hin%elem_of_records [Hp Ht]. specialize (Hall off e Hin Ht). simpl in Hp. lia.
Qed.

(** The scan of a compaction is right for the store it commits on, unless the store
    says that records went since. *)
Definition compact_valid (s0 : Store) (d1 : DB) (stream : string) (s : Store) : Prop :=
  LWM s stream = LWM s0 stream -> at_ (holes s) stream = at_ (holes s0) stream ->
  (NextOffset s0 stream <= NextOffset s stream)%N
  /\ scanStream d1 stream (LWM s0 stream) (NextOffset s0 stream) = scanStream (db s) stream (LWM s0 stream) (NextOffset s0 stream).

Lemma Compact_unchanged f s0 d1 seen stream s s' e : Compact f s0 d1 seen stream s = (s', Err e) -> s' = s.
Proof. unfold Compact. cbv zeta. repeat case_match; naive_solver. Qed.

Lemma Compact_outcome f s0 d1 seen stream s s' st :
  Inv s -> stream ∈ streams -> compact_valid s0 d1 stream s -> Compact f s0 d1 seen stream s = (s', Ok st) ->
  let scanned := scanStream (db s) stream (LWM s stream) (NextOffset s0 stream) in
  let out := compacted (latest_of scanned) (cursorFloorLocked seen stream (NextOffset s stream)) scanned in
  (s' = s /\ cs_Bytes st = 0%N)
  \/ Inv s' /\ LWM s' stream = LWM s stream /\ NextOffset s' stream = NextOffset s stream
     /\ (StreamBytes s' stream + cs_Bytes st = StreamBytes s stream)%N
     /\ (forall off, record_at (db s') stream off = if decide (off ∈ out.*1) then None else record_at (db s) stream off)
     /\ (forall k, tag k ∉ ["s"; "si"; "b"] -> db s' !! k = db s !! k).
Proof.
  intros HI Hs Hv E. cbv zeta. unfold Compact in E. cbv zeta in E.
  destruct (_ == 0%N); [done|]. case_bool_decide as Er; [injection E as <- <-; by left|].
  destruct (_ || _) eqn:Ec; [done|]. bool_simp. fold (LWM s stream) (LWM s0 stream) in *.
  destruct (Hv H0 H1) as [Hn Hsc]. fold (NextOffset s0 stream) in *. fold (NextOffset s stream) in *.
  rewrite Hsc in *. rewrite <- H0 in *. set (scanned := scanStream _ _ _ _) in *. set (floor := cursorFloorLocked _ _ _) in *.
  destruct (compact_loop f _ _ _ _ _ _ _) as [[[st1 shed] b]|] eqn:El; [|done].
  apply compact_loop_Ok in El as (-> & -> & _ & Hb). set (out := compacted _ _ _) in *.
  rewrite N.add_0_l in *.
  destruct ((cs_Superseded st1 == 0%N) && (cs_Tombstones st1 == 0%N)) eqn:Ez.
  { injection E as <- <-. by left. }
  destruct (commit_removal _ _ _ _ _) as [[s1 shed']|] eqn:Em; [|done]. injection E as <- <-.
  apply commit_removal_Ok in Em as [Hshed Hs1]. right. cbn [app] in Hs1.
  assert (Hrec : forall off e, (off, e) ∈ out -> record_at (db s) stream off = Some e).
  { intros off e [_ [_ Hin]%elem_of_scanStream]%list_elem_of_filter. done. }
  assert (Hsorted : StronglySorted off_lt out) by (apply sorted_filter, scanStream_sorted).
  assert (Hkeys : forall k, k ∈ (out ≫= removal_keys stream) <-> exists x, x ∈ out /\ k ∈ removal_keys stream x).
  { intros k. rewrite list_elem_of_bind. naive_solver. }
  pose proof (removal_shed stream out s HI Hs Hrec Hsorted) as Hle. fold (StreamBytes s stream) in *.
  assert (shed' = sumN (size_of stream) out) as -> by lia. clear Hshed.
  split; [exact (removal_inv stream out _ s HI Hs Hrec Hsorted Hkeys _ s1 Hs1 eq_refl)|].
  split; [by rewrite Hs1|]. split; [by rewrite Hs1|].
  split; [rewrite Hs1; unfold StreamBytes in *; store_simpl; rewrite at_insert_eq; cbn [cs_Bytes]; lia|]. split.
  - intros off. rewrite (removal_record stream out _ s Hkeys _ s1 Hs1). apply decide_ext. unfold gone. naive_solver.
  - intros k Hk. by apply (removal_keep stream out _ s Hkeys _ s1 Hs1).
Qed.

(** The last record of a topic, when compaction takes it: it is a retraction below
    the floor, and nothing of the topic is left. *)
Lemma compacted_latest d stream lo n floor t off e :
  let scanned := scanStream d stream lo n in let out := compacted (latest_of scanned) floor scanned in
  (forall off' e', record_at d stream off' = Some e' -> lo <= off')%N ->
  latest_from d stream 0 t = Some (off, e) -> off ∈ out.*1 ->
  is_tombstone e = true /\ (off < floor)%N
  /\ forall off' e', record_at d stream off' = Some e' -> e_Topic e' = t -> off' ∈ out.*1.
Proof.
  cbv zeta. set (scanned := scanStream d stream lo n). intros Hlo (Hr & Ht & _ & Hmax)%latest_from_Some Hin.
  apply list_elem_of_fmap in Hin as ([o e'] & Ho & [Hc Hin]%list_elem_of_filter). simpl in Ho. subst o.
  apply elem_of_scanStream in Hin as [Hrange Hr']. rewrite Hr in Hr'. injection Hr' as <-.
  assert (Hlat : latest_of scanned !! t = Some off).
  { rewrite latest_of_spec. apply fmap_Some. exists (off, e). split; [|done].
    apply last_sorted; [apply sorted_filter, scanStream_sorted|]. split.
    - apply list_elem_of_filter. split; [done|]. by apply elem_of_scanStream.
    - intros [o e'] [Ht' [_ Hr']%elem_of_scanStream]%list_elem_of_filter. by apply (Hmax o e'). }
  assert (Hns : ~ superseded (latest_of scanned) (off, e)) by (unfold superseded; simpl; rewrite Ht, Hlat; simpl; lia).
  destruct Hc as [?|[Htomb Hfl]]; [done|]. split; [done|]. split; [done|].
  intros off' e' Hr' Ht'. apply list_elem_of_fmap. exists (off', e'). split; [done|].
  specialize (Hmax off' e' Hr' Ht'). specialize (Hlo off' e' Hr'). apply list_elem_of_filter. split.
  - destruct (decide (off' = off)) as [->|Hne].
    + rewrite Hr in Hr'. injection Hr' as <-. by right.
    + left. unfold superseded; simpl. rewrite Ht', Hlat. simpl. lia.
  - apply elem_of_scanStream. split; [lia|done].
Qed.

(** C9: compaction loses nothing a reader needs. When it fails, nothing changes.
    When it does not, the stream's invariant holds again with the byte count exactly
    lowered; the value of every topic is what it was; and a consumer at any cursor
    the pass saw still meets, from its position on, the same last record of every
    topic, so a retraction it has not read is never dropped. It holds although the
    pass read the stream before it took the lock, for whatever was appended
    meanwhile. *)
Theorem Compact_keeps_values f s0 d1 seen stream s :
  Inv s -> stream ∈ streams -> compact_valid s0 d1 stream s ->
  let '(s', r) := Compact f s0 d1 seen stream s in
  Inv s' /\
  match r with
  | Err _ => s' = s
  | Ok st =>
      (forall t, topic_value (db s') stream t = topic_value (db s) stream t)
      /\ (forall name pos t, seen !! cursorKey name stream = Some (VU64 pos) ->
            latest_from (db s') stream pos t = latest_from (db s) stream pos t)
      /\ (forall off e, record_at (db s') stream off = Some e -> record_at (db s) stream off = Some e)
      /\ (StreamBytes s' stream + cs_Bytes st = StreamBytes s stream)%N
      /\ LWM s' stream = LWM s stream /\ NextOffset s' stream = NextOffset s stream
  end.
Proof.
  intros HI Hs Hv. destruct (Compact f s0 d1 seen stream s) as [s' [st|e]] eqn:E.
  2: { apply Compact_unchanged in E as ->. done. }
  destruct (Compact_outcome _ _ _ _ _ _ _ _ HI Hs Hv E) as [[-> Hb]|(HI' & Hl & Hn & Hb & Hr & _)].
  { split; [done|]. split_and!; try done. lia. }
  set (floor := cursorFloorLocked _ _ _) in Hr. set (scanned := scanStream _ _ _ _) in Hr. set (out := compacted _ _ _) in Hr.
  assert (Hlo : forall off' e', record_at (db s) stream off' = Some e' -> (LWM s stream <= off')%N).
  { intros off' e' He. unfold record_at in He. destruct (db s !! streamKey stream off') as [v|] eqn:Hk; [|done].
    by apply (si_range _ _ _ _ _ (inv_stream s HI stream Hs)) in Hk as [[]]. }
  assert (Hsub : forall off e, record_at (db s') stream off = Some e -> record_at (db s) stream off = Some e).
  { intros off e. rewrite Hr. by case_decide. }
  assert (Hlat : forall pos t off e, latest_from (db s) stream pos t = Some (off, e) -> off ∉ out.*1 ->
                   latest_from (db s') stream pos t = Some (off, e)).
  { intros pos t off e Hlf Hout. apply latest_from_Some in Hlf as (H1 & H2 & H3 & H4). apply latest_from_Some.
    rewrite Hr, decide_False by done. split_and!; try done. intros off' e' Hr'%Hsub. by apply H4. }
  assert (Hnone : forall pos t, latest_from (db s) stream pos t = None -> latest_from (db s') stream pos t = None).
  { intros pos t Hx. rewrite latest_from_None in Hx |- *. intros off e He%Hsub. by apply Hx. }
  assert (H0 : forall pos t off e, latest_from (db s) stream pos t = Some (off, e) -> latest_from (db s) stream 0 t = Some (off, e)).
  { intros pos t off e. rewrite !latest_from_Some. naive_solver lia. }
  split; [done|]. split; [|split; [|done]].
  - intros t. unfold topic_value. destruct (latest_from (db s) stream 0 t) as [[off e]|] eqn:Hlf; [|by rewrite Hnone].
    destruct (decide (off ∈ out.*1)) as [Hin|Hout]; [|by rewrite (Hlat _ _ _ _ Hlf)].
    destruct (compacted_latest _ _ _ _ _ _ _ _ Hlo Hlf Hin) as (-> & _ & Hall).
    rewrite (proj2 (latest_from_None (db s') stream 0 t)); [done|]. intros off' e' He Ht. exfalso.
    specialize (Hall off' e' (Hsub _ _ He) Ht). rewrite Hr, decide_True in He by done. done.
  - intros name pos t Hcur. destruct (latest_from (db s) stream pos t) as [[off e]|] eqn:Hlf; [|by apply Hnone].
    apply Hlat; [done|]. intros Hin. destruct (compacted_latest _ _ _ _ _ _ _ _ Hlo (H0 _ _ _ _ Hlf) Hin) as (_ & Hfl & _).
    apply latest_from_Some in Hlf as (_ & _ & Hpos & _).
    assert (floor <= pos)%N by (apply (cursor_floor_min seen _ _ _ name); done). lia.
Qed.

(** ** Eviction *)

Lemma evict_scan_spec doomed maxScan scanned recs acc :
  (scanned <= maxScan)%N ->
  exists taken rest, recs = taken ++ rest
    /\ evict_scan doomed maxScan scanned recs acc = (acc ++ filter (fun x => doomed (e_Topic (snd x)) = true) taken, fst <$> head rest)
    /\ (rest <> [] -> (scanned + N.of_nat (length taken))%N = maxScan).
Proof.
  revert scanned acc; induction recs as [|[off e] recs IH]; intros scanned acc Hle.
  { exists [], []. simpl. by rewrite app_nil_r. }
  cbn [evict_scan]. case_bool_decide as Em.
  { exists [], ((off, e) :: recs). simpl. rewrite app_nil_r. split; [done|]. split; [done|]. intros _. lia. }
  destruct (IH (scanned + 1)%N (if doomed (e_Topic e) then acc ++ [(off, e)] else acc)) as (taken & rest & -> & -> & Hr); [lia|].
  exists ((off, e) :: taken), rest. split; [done|]. split.
  - rewrite filter_cons. cbn [snd]. destruct (doomed (e_Topic e)) eqn:Ed; [rewrite decide_True by done|by rewrite decide_False by congruence].
    by rewrite <- app_assoc.
  - intros Hne. specialize (Hr Hne). cbn [length]. lia.
Qed.

(** The records an eviction pass read are still there, unless a prune says otherwise. *)
Definition evict_valid (s0 : Store) (d1 : DB) (stream : string) (s : Store) : Prop :=
  LWM s stream = LWM s0 stream ->
  scanStream d1 stream (LWM s0 stream) (NextOffset s0 stream) = scanStream (db s) stream (LWM s0 stream) (NextOffset s0 stream).

Lemma evict_keys_iff stream (out : list (N * recEnc)) k :
  k ∈ ((fun x => streamKey stream (fst x)) <$> out) ++ (out ≫= fun x => tail (removal_keys stream x))
  <-> exists x, x ∈ out /\ k ∈ removal_keys stream x.
Proof.
  rewrite elem_of_app, list_elem_of_fmap, list_elem_of_bind. unfold removal_keys. cbn [tail]. setoid_rewrite elem_of_cons. naive_solver.
Qed.

Lemma scanStream_sub d1 d stream a b a' b' : (a <= a')%N -> (b' <= b)%N ->
  scanStream d1 stream a b = scanStream d stream a b -> scanStream d1 stream a' b' = scanStream d stream a' b'.
Proof.
  intros Ha Hb E. assert (Hf : forall d, scanStream d stream a' b' = filter (fun x => (a' <= fst x < b')%N) (scanStream d stream a b)).
  { intros d'. unfold scanStream. rewrite list_filter_filter. apply filter_ext_in. intros x _. lia. }
  by rewrite !Hf, E.
Qed.

(** Where a pass over [[start, n)] stops, and what it read. *)
Lemma evict_bounds d stream start n taken rest :
  (start < n)%N -> scanStream d stream start n = taken ++ rest -> (rest <> [] -> taken <> []) ->
  let resume := default n (fst <$> head rest) in
  ((start < n)%N -> (start < resume <= n)%N)
  /\ forall off e, (off, e) ∈ taken <-> (start <= off < resume)%N /\ record_at d stream off = Some e.
Proof.
  intros Hlt E Hne. cbv zeta. pose proof (scanStream_sorted d stream start n) as Hs. rewrite E in Hs.
  apply StronglySorted_app in Hs as (Hcross & _ & Hs2).
  assert (Hmem : forall x, x ∈ taken ++ rest <-> (start <= fst x < n)%N /\ record_at d stream (fst x) = Some (snd x)).
  { intros [off e]. rewrite <- E. apply elem_of_scanStream. }
  destruct rest as [|r rest']; simpl.
  { rewrite app_nil_r in Hmem. split; [lia|]. intros off e. apply (Hmem (off, e)). }
  assert (Hr : (start <= fst r < n)%N) by (apply (Hmem r), elem_of_app; right; by left). split.
  - intros _. split; [|lia]. destruct taken as [|x taken]; [by destruct Hne|].
    specialize (Hcross x r ltac:(by left) ltac:(by left)). unfold off_lt in Hcross.
    assert (start <= fst x < n)%N by (apply (Hmem x); by left). lia.
  - intros off e. split.
    + intros Hin. specialize (Hcross (off, e) r Hin ltac:(by left)). unfold off_lt in Hcross. simpl in Hcross.
      assert ((off, e) ∈ taken ++ r :: rest') as [? ?]%Hmem by (apply elem_of_app; by left). simpl in *. split; [lia|done].
    + intros [Ho He]. assert ((off, e) ∈ taken ++ r :: rest') as [?|Hin]%elem_of_app by (apply Hmem; simpl; split; [lia|done]); [done|].
      exfalso. inversion_clear Hs2 as [|? ? _ Hf]. rewrite Forall_forall in Hf. apply elem_of_cons in Hin as [<-|Hin]; [simpl in *; lia|].
      specialize (Hf _ Hin). unfold off_lt in Hf. simpl in *. lia.
Qed.

Lemma elem_of_evicted d d1 stream start n taken resume doomed off :
  scanStream d1 stream start n = scanStream d stream start n -> (resume <= n)%N ->
  (forall off e, (off, e) ∈ taken <-> (start <= off < resume)%N /\ record_at d1 stream off = Some e) ->
  (if decide (off ∈ (filter (fun x : N * recEnc => doomed (e_Topic (snd x)) = true) taken).*1) then None else record_at d stream off)
  = match record_at d stream off with
    | Some e => if decide ((start <= off < resume)%N /\ doomed (e_Topic e) = true) then None else Some e
    | None => None
    end.
Proof.
  intros E Hle Hmem.
  assert (Hr : forall off e, (start <= off < n)%N -> record_at d1 stream off = Some e <-> record_at d stream off = Some e).
  { intros o e Ho. pose proof (elem_of_scanStream d1 stream start n o e) as H1. rewrite E, elem_of_scanStream in H1. naive_solver. }
  destruct (record_at d stream off) as [e|] eqn:He; [|by case_decide]. apply decide_ext. rewrite list_elem_of_fmap. split.
  - intros ([o e'] & -> & [Hd [Ho He']%Hmem]%list_elem_of_filter). simpl in *. apply Hr in He'; [|lia].
    rewrite He in He'. by injection He' as ->.
  - intros [Ho Hd]. exists (off, e). split; [done|]. apply list_elem_of_filter. split; [done|]. apply Hmem. split; [done|]. apply Hr; [lia|done].
Qed.

(** One eviction pass. It fails and changes nothing, or it examines the records
    from where it was told to (never below the low-water mark) up to [Resume], at
    most [maxScan] of them; removes exactly the doomed ones among those, counts
    them and their bytes, leaves every other record, and keeps the invariant. It
    always gets somewhere: [Resume] is past the start unless the start is the head,
    and the pass that reports [Done] has reached the head it saw, so repeating it
    from [Resume] ends. *)
Lemma EvictRecords_outcome f s0 d1 stream from maxScan doomed s :
  Inv s -> stream ∈ streams -> (LWM s0 stream <= NextOffset s0 stream)%N -> evict_valid s0 d1 stream s ->
  let '(s', r) := EvictRecords f s0 d1 stream from maxScan doomed s in
  let start := N.max from (LWM s0 stream) in
  Inv s' /\
  match r with
  | Err _ => s' = s
  | Ok st =>
      ((start < NextOffset s0 stream)%N -> (start < ev_Resume st <= NextOffset s0 stream)%N)
      /\ (ev_Done st = true <-> ev_Resume st = NextOffset s0 stream)
      /\ (LWM s stream = LWM s0 stream ->
            (forall off, record_at (db s') stream off
               = match record_at (db s) stream off with
                 | Some e => if decide ((start <= off < ev_Resume st)%N /\ doomed (e_Topic e) = true) then None else Some e
                 | None => None
                 end)
            /\ (StreamBytes s' stream + ev_Bytes st = StreamBytes s stream)%N)
  end.
Proof.
  intros HI Hs Hle0 Hv. unfold EvictRecords. cbv zeta. fold (LWM s0 stream) (NextOffset s0 stream) (LWM s stream).
  destruct (_ == 0%N); [done|]. destruct (maxScan == 0%N) eqn:Em; [done|]. bool_simp. set (start := N.max from _).
  destruct (N.leb_spec (NextOffset s0 stream) start) as [Hle|Hlt].
  { split; [done|]. cbn [ev_Resume ev_Done ev_Bytes]. split; [lia|]. split; [done|]. intros _. split; [|lia]. intros off.
    destruct (record_at (db s) stream off); [|done]. rewrite decide_False; [done|]. intros [? _]. lia. }
  destruct (evict_scan_spec doomed maxScan 0 (scanStream d1 stream start (NextOffset s0 stream)) []) as (taken & rest & Et & -> & Hmax); [lia|].
  set (resume := default (NextOffset s0 stream) (fst <$> head rest)). set (out := [] ++ filter _ taken).
  destruct (evict_bounds d1 stream start (NextOffset s0 stream) taken rest Hlt Et) as (Hres & Hmem); [intros Hne ->; specialize (Hmax Hne); simpl in Hmax; lia|].
  fold resume in Hres, Hmem.
  assert (Hdone : bool_decide (fst <$> head rest = None) = true <-> resume = NextOffset s0 stream).
  { rewrite bool_decide_eq_true. unfold resume. destruct rest as [|[o e] rest']; [done|]. simpl. split; [done|]. intros ->.
    assert ((NextOffset s0 stream, e) ∈ scanStream d1 stream start (NextOffset s0 stream)) as [? _]%elem_of_scanStream
      by (rewrite Et; apply elem_of_app; right; by left). lia. }
  revert Hdone. generalize (bool_decide (fst <$> head rest = None)). intros dn Hdone.
  destruct (out == []) eqn:Eo; bool_simp.
  { split; [done|]. cbn [ev_Resume ev_Done ev_Bytes]. split; [done|]. split; [done|]. intros Hl. split; [|lia]. intros off.
    rewrite <- (elem_of_evicted (db s) d1 stream start (NextOffset s0 stream) taken resume doomed);
      [unfold out in Eo; simpl in Eo; by rewrite Eo| |lia|done].
    apply (scanStream_sub _ _ _ (LWM s0 stream) (NextOffset s0 stream)); [lia|lia|by apply Hv]. }
  destruct (LWM s stream != LWM s0 stream) eqn:El; [done|]. bool_simp. specialize (Hv El).
  assert (Hsc : scanStream d1 stream start (NextOffset s0 stream) = scanStream (db s) stream start (NextOffset s0 stream)).
  { apply (scanStream_sub _ _ _ (LWM s0 stream) (NextOffset s0 stream)); [lia|lia|done]. }
  destruct (delete_all f _ []) as [b|] eqn:Eb; [|done]. apply delete_all_Ok in Eb as ->.
  destruct (commit_removal _ _ _ _ _) as [[s' shed]|] eqn:Ec; [|done]. apply commit_removal_Ok in Ec as [Hshed Hs'].
  assert (Hrec : forall off e, (off, e) ∈ out -> record_at (db s) stream off = Some e).
  { intros off e [_ Hin]%list_elem_of_filter. assert ((off, e) ∈ taken ++ rest) as Hin' by (apply elem_of_app; by left).
    rewrite <- Et, Hsc in Hin'. by apply elem_of_scanStream in Hin' as [_ ?]. }
  assert (Hsorted : StronglySorted off_lt out).
  { apply sorted_filter. pose proof (scanStream_sorted d1 stream start (NextOffset s0 stream)) as Hss. rewrite Et in Hss.
    by apply StronglySorted_app in Hss as (_ & ? & _). }
  pose proof (removal_shed stream out s HI Hs Hrec Hsorted) as Hle. fold (StreamBytes s stream) in *.
  change (sumN (fun x => rec_size stream (fst x) (snd x)) out) with (sumN (size_of stream) out) in Hshed.
  assert (shed = sumN (size_of stream) out) as -> by lia. clear Hshed.
  split; [exact (removal_inv stream out _ s HI Hs Hrec Hsorted (evict_keys_iff stream out) _ s' Hs' eq_refl)|].
  cbn [ev_Resume ev_Done ev_Bytes]. split; [done|]. split; [done|]. intros _. split.
  - intros off. rewrite (removal_record stream out _ s (evict_keys_iff stream out) _ s' Hs').
    rewrite <- (elem_of_evicted (db s) d1 stream start (NextOffset s0 stream) taken resume doomed) by (done || lia).
    apply decide_ext. unfold gone. naive_solver.
  - rewrite Hs'. unfold StreamBytes in *. store_simpl. rewrite at_insert_eq. lia.
Qed.

Lemma EvictRecords_inv f s0 d1 stream from maxScan doomed s :
  Inv s -> stream ∈ streams -> (LWM s0 stream <= NextOffset s0 stream)%N -> evict_valid s0 d1 stream s ->
  Inv (fst (EvictRecords f s0 d1 stream from maxScan doomed s)).
Proof.
  intros HI Hs Hle Hv. pose proof (EvictRecords_outcome f s0 d1 stream from maxScan doomed s HI Hs Hle Hv) as Ho.
  destruct (EvictRecords _ _ _ _ _ _ _ _) as [s' r]. by destruct Ho.
Qed.

Lemma record_lwm s stream off e : Inv s -> stream ∈ streams -> record_at (db s) stream off = Some e ->
  (LWM s stream <= off < NextOffset s stream)%N.
Proof.
  intros HI Hs He. unfold record_at in He. destruct (db s !! streamKey stream off) as [v|] eqn:Hv; [|done].
  by apply (si_range _ _ _ _ _ (inv_stream s HI stream Hs)) in Hv as [? _].
Qed.

Lemma evict_at_head f s0 d1 stream from maxScan doomed s : (NextOffset s0 stream <= N.max from (LWM s0 stream))%N ->
  match EvictRecords f s0 d1 stream from maxScan doomed s with (_, Ok st) => ev_Done st = true | _ => True end.
Proof.
  intros Hge. unfold EvictRecords. cbv zeta. fold (NextOffset s0 stream) (LWM s0 stream). destruct (_ == 0%N); [done|].
  destruct (maxScan == 0%N); [done|]. rewrite (proj2 (N.leb_le _ _)) by done. done.
Qed.

(** A pass that reached the head examined everything from its start. *)
Lemma evicted_to_head s s' stream from resume doomed off : Inv s -> stream ∈ streams -> resume = NextOffset s stream ->
  (forall off, record_at (db s') stream off
     = match record_at (db s) stream off with
       | Some e => if decide ((N.max from (LWM s stream) <= off < resume)%N /\ doomed (e_Topic e) = true) then None else Some e
       | None => None
       end) ->
  record_at (db s') stream off
  = match record_at (db s) stream off with
    | Some e => if decide ((from <= off)%N /\ doomed (e_Topic e) = true) then None else Some e
    | None => None
    end.
Proof.
  intros HI Hs -> Hrec. rewrite Hrec. destruct (record_at (db s) stream off) as [e|] eqn:He; [|done].
  apply record_lwm in He as [? ?]; [|done..]. apply decide_ext. split; intros [? ?]; (split; [lia|done]).
Qed.

(** The pruner's passes: each continues where the last one stopped, until one
    reports that it reached the head. *)
Fixpoint evict_all (fuel : nat) (stream : string) (from maxScan : N) (doomed : string -> bool) (s : Store) : option Store :=
  match EvictRecords no_faults s (db s) stream from maxScan doomed s with
  | (s', Ok st) =>
      if ev_Done st then Some s'
      else match fuel with S fuel => evict_all fuel stream (ev_Resume st) maxScan doomed s' | O => None end
  | (_, Err _) => None
  end.

Lemma EvictRecords_no_fault s stream from maxScan doomed : Inv s -> stream ∈ streams -> maxScan <> 0%N ->
  exists st s', EvictRecords no_faults s (db s) stream from maxScan doomed s = (s', Ok st)
    /\ LWM s' stream = LWM s stream /\ NextOffset s' stream = NextOffset s stream.
Proof.
  intros HI Hs Hm. pose proof (ci_bounds _ _ (inv_counter s HI stream Hs)) as Hb. unfold EvictRecords. cbv zeta.
  fold (NextOffset s stream) (LWM s stream). rewrite (bool_decide_eq_false_2 (NextOffset s stream = _)) by lia.
  rewrite (bool_decide_eq_false_2 (maxScan = _)) by done.
  destruct (_ <=? _)%N; [by eexists _, _|]. destruct (evict_scan _ _ _ _ _) as [out stop].
  destruct (out == []); [by eexists _, _|]. rewrite (bool_decide_eq_true_2 (LWM s stream = _)) by done. cbn [negb].
  assert (Hd : forall keys b, exists b', delete_all no_faults keys b = Ok b').
  { induction keys as [|k keys IH]; intros b; [by eexists|]. cbn [delete_all]. unfold bdelete. cbn [write_fails no_faults]. apply IH. }
  match goal with |- context [delete_all no_faults ?ks []] => destruct (Hd ks []) as [b' ->] end.
  unfold commit_removal, bset, commit. cbn [write_fails apply_fails no_faults]. by eexists _, _.
Qed.

(** C32: repeating an eviction ends, and then nothing doomed is left. Each pass
    examines at most [maxScan] records and the next continues where it stopped; at
    most as many passes are needed as there are offsets from the start to the
    head. Afterwards no record from the start on is doomed, every record that was
    not is still there, and the invariant holds, with the byte count exact. *)
Theorem evict_all_ends fuel stream from maxScan doomed s :
  Inv s -> stream ∈ streams -> maxScan <> 0%N -> (NextOffset s stream - N.max from (LWM s stream) <= N.of_nat fuel)%N ->
  exists s', evict_all fuel stream from maxScan doomed s = Some s' /\ Inv s'
    /\ forall off, record_at (db s') stream off
         = match record_at (db s) stream off with
           | Some e => if decide ((from <= off)%N /\ doomed (e_Topic e) = true) then None else Some e
           | None => None
           end.
Proof.
  revert from s; induction fuel as [|fuel IH]; intros from s HI Hs Hm Hf;
    pose proof (EvictRecords_outcome no_faults s (db s) stream from maxScan doomed s HI Hs
      (proj2 (ci_bounds _ _ (inv_counter s HI stream Hs))) (fun _ => eq_refl)) as Ho;
    destruct (EvictRecords_no_fault s stream from maxScan doomed HI Hs Hm) as (st & s1 & E & El & En);
    cbn [evict_all]; rewrite E in *; destruct Ho as (HI1 & Hres & Hdone & Hr); destruct (Hr eq_refl) as [Hrec _]; clear Hr;
    destruct (ev_Done st) eqn:Ed.
  - exists s1. split; [done|]. split; [done|]. intros off. apply (evicted_to_head s s1 stream from (ev_Resume st)); try done. by apply Hdone.
  - exfalso. destruct (N.lt_ge_cases (N.max from (LWM s stream)) (NextOffset s stream)) as [Hlt|Hge]; [lia|].
    pose proof (evict_at_head no_faults s (db s) stream from maxScan doomed s Hge) as Hh. rewrite E in Hh. naive_solver.
  - exists s1. split; [done|]. split; [done|]. intros off. apply (evicted_to_head s s1 stream from (ev_Resume st)); try done. by apply Hdone.
  - destruct (N.lt_ge_cases (N.max from (LWM s stream)) (NextOffset s stream)) as [Hlt|Hge].
    2: { pose proof (evict_at_head no_faults s (db s) stream from maxScan doomed s Hge) as Hh. rewrite E in Hh. naive_solver. }
    destruct (Hres Hlt) as [Hr1 Hr2]. destruct (IH (ev_Resume st) s1 HI1 Hs Hm) as (s2 & E2 & HI2 & Hrec2); [rewrite El, En; lia|].
    exists s2. split; [done|]. split; [done|]. intros off. rewrite Hrec2, Hrec.
    destruct (record_at (db s) stream off) as [e|] eqn:He; [|done].
    assert (LWM s stream <= off)%N by (by apply (record_lwm s stream off e)).
    destruct (decide ((from <= off)%N /\ doomed (e_Topic e) = true)) as [[Hfo Hdm]|Hno].
    + destruct (decide (_ /\ _)) as [|Hno]; [done|]. rewrite decide_True; [done|]. split; [|done].
      destruct (N.le_gt_cases (ev_Resume st) off); [done|]. exfalso. apply Hno. split; [lia|done].
    + rewrite decide_False by (intros [? ?]; apply Hno; split; [lia|done]).
      rewrite decide_False; [done|]. intros [? ?]. apply Hno. split; [lia|done].
Qed.
End compact.

(** ** Examples *)

Section examples.
#[local] Existing Instance demo_codec.

Definition demo_ds : list Rec :=
  [demo_rec "colca/v1/_Group/g" "a" "" "" false; demo_rec "colca/v1/_Group/g" "b" "" "" false;
   demo_rec "colca/v1/_Group/h" "" "" "" false; demo_rec "colca/v1/_Group/g" "c" "" "" false].

(** Four definitions, and a reader that has read the first two. *)
Definition demo_full : Store :=
  fst (commitAcks no_faults 1 [mkAckRequest "reader" "definitions" 3 false "" 0] (put_records "definitions" demo_ds demo_store)).

Lemma demo_full_inv : Inv demo_full.
Proof. apply commitAcks_inv, put_records_inv; [tag_in|exact demo_store_inv]. Qed.

Definition demo_scan : PruneScan := mkPruneScan "definitions" 1 4 0 (scanDoomed (db demo_full) "definitions" 1 4).

Lemma demo_scan_valid s : db s = db demo_full -> scan_valid demo_scan s.
Proof. intros E _ _. rewrite E. apply scanDoomed_ok. Qed.

Definition demo_plan (span : PruneSpan) : PruneOutcome := mkPruneOutcome [] (Some (ps_From span, ps_To span + 1)%N).


Lemma prune_window_acks_witness :
  let s := fst (commitAcks no_faults 2 [mkAckRequest "reader" "definitions" 4 false "" 0] demo_full) in
  let s' := fst (PruneScanned no_faults (db demo_full) [] (fun span => mkPruneOutcome [] None) demo_scan s) in
  (LWM s' "definitions" <= N.max (LWM demo_full "definitions") (CursorGet s' "reader" "definitions"))%N
  /\ CursorGet s' "reader" "definitions" = 4%N.
Proof.
  set (s := fst (commitAcks _ _ _ _)). cbv zeta.
  destruct (PruneScanned no_faults (db demo_full) [] (fun span => mkPruneOutcome [] None) demo_scan s) as [s' [n|e]] eqn:E.
  2: { apply (f_equal snd) in E. vm_compute in E. discriminate E. }
  split; [|apply (f_equal fst) in E; cbn [fst] in E |- *; rewrite <- E; vm_compute; reflexivity].
  apply (prune_window_acks no_faults no_faults 2 [mkAckRequest "reader" "definitions" 4 false "" 0] []
    (fun span => mkPruneOutcome [] None) demo_scan demo_full s s' n demo_full_inv ltac:(tag_in)) with (pos := 3%N).
  - intros _ _. vm_compute. repeat split; reflexivity.
  - intros span _. exact I.
  - reflexivity.
  - exact E.
  - vm_compute; reflexivity.
  - apply not_elem_of_nil.
Defined.

(** Placing a cursor back, or creating one, in that window is not covered: the
    prune goes past it. *)
Lemma prune_passes_placed_cursor :
  let s := fst (ResyncParent no_faults 2 "parent" "" [mkCursorPlacement "reader" "definitions" 1] ∅ demo_full) in
  let s' := fst (PruneScanned no_faults (db demo_full) [] (fun span => mkPruneOutcome [] None) demo_scan s) in
  CursorGet s' "reader" "definitions" = 1%N /\ LWM s' "definitions" = 3%N.
Proof. split; vm_compute; reflexivity. Qed.

Definition demo_pruned : Store :=
  fst (PruneScanned no_faults (db demo_full) [] demo_plan demo_scan demo_full).

Lemma demo_pruned_inv : Inv demo_pruned.
Proof.
  apply PruneScanned_inv; [exact demo_full_inv|tag_in|by apply demo_scan_valid|]. intros span Hle. cbn. lia.
Qed.

Lemma Gap_spec_witness :
  exists g, Gap demo_pruned "definitions" 0 = Some g /\ g_FromOffset g = 1%N /\ (g_ToOffset g + 1)%N = 3%N
    /\ exists first, filter (covers 1) (readJournal (db demo_pruned) "definitions") = [first] /\ g_FirstTS g = ps_FirstTS first.
Proof.
  pose proof (Gap_spec demo_pruned "definitions" 0 demo_pruned_inv ltac:(tag_in)) as Hthm. cbv zeta in Hthm.
  assert (EL : LWM demo_pruned "definitions" = 3%N) by (vm_compute; reflexivity).
  destruct (Gap demo_pruned "definitions" 0) as [g|] eqn:E; [|rewrite EL in Hthm; exfalso; vm_compute in Hthm; by apply Hthm].
  destruct Hthm as (_ & Hf & Ht & _ & _ & (first & H1 & H2 & _) & _). exists g. split; [reflexivity|]. split; [exact Hf|].
  split; [rewrite Ht; exact EL|]. exists first. split; [exact H1|exact H2].
Defined.

(** A byte budget that one record must make room for, and a clamp past it. *)
Definition demo_policy : Policy := mkPolicy 0 100 (StreamBytes demo_full "definitions") 9 50.

Lemma policyScan_spec_witness :
  let a := policyScan (db demo_full) "definitions" 1 5 9 demo_policy in
  (1 <= pa_target a <= 5)%N /\ pa_target a = 3%N /\ pa_clamped a = false /\ pa_capped a = false.
Proof.
  assert (H1 : (1 <= 5)%N) by (vm_compute; discriminate).
  assert (H2 : (sumN (size_of "definitions") (scanStream (db demo_full) "definitions" 1 5) + po_maxBytes demo_policy < 2 ^ 64)%N)
    by (vm_compute; reflexivity).
  pose proof (policyScan_spec (db demo_full) "definitions" 1 5 9 demo_policy H1 H2) as Hthm. cbv zeta in Hthm |- *.
  destruct Hthm as [Hb _]. split; [exact Hb|]. split; [|split]; vm_compute; reflexivity.
Defined.

Lemma Compact_keeps_values_witness :
  let '(s', r) := Compact no_faults demo_full (db demo_full) (db demo_full) "definitions" demo_full in
  Inv s' /\ topic_value (db s') "definitions" "colca/v1/_Group/g" = Some "c"
  /\ latest_from (db s') "definitions" 3 "colca/v1/_Group/h" = latest_from (db demo_full) "definitions" 3 "colca/v1/_Group/h"
  /\ r = Ok (mkCompactStats 2 0 80).
Proof.
  pose proof (Compact_keeps_values no_faults demo_full (db demo_full) (db demo_full) "definitions" demo_full demo_full_inv ltac:(tag_in)
    (fun _ _ => conj (N.le_refl _) eq_refl)) as Hthm.
  assert (E : snd (Compact no_faults demo_full (db demo_full) (db demo_full) "definitions" demo_full) = Ok (mkCompactStats 2 0 80))
    by (vm_compute; reflexivity).
  destruct (Compact no_faults demo_full (db demo_full) (db demo_full) "definitions" demo_full) as [s' r]. cbn [snd] in E. subst r.
  destruct Hthm as (HI & Hval & Hcur & _). split; [exact HI|]. split; [rewrite Hval; vm_compute; reflexivity|].
  split; [apply (Hcur "reader" 3%N); vm_compute; reflexivity|reflexivity].
Defined.

Lemma evict_all_ends_witness :
  exists s', evict_all 4 "definitions" 0 2 (fun t => t == "colca/v1/_Group/g") demo_full = Some s' /\ Inv s'
    /\ record_at (db s') "definitions" 2 = None /\ evict_all 1 "definitions" 0 2 (fun t => t == "colca/v1/_Group/g") demo_full <> None.
Proof.
  destruct (evict_all_ends 4 "definitions" 0 2 (fun t => t == "colca/v1/_Group/g") demo_full demo_full_inv
    ltac:(tag_in) ltac:(discriminate) ltac:(vm_compute; discriminate)) as (s' & E & HI & Hrec).
  exists s'. split; [exact E|]. split; [exact HI|]. split; [rewrite Hrec; vm_compute; reflexivity|vm_compute; discriminate].
Defined.

End examples.
