(* ===== verification/Signals.v ===== *)
(** * The store: retention per signal ([signalprune.go])

    [PruneSignals] walks the signal index one signal at a time and deletes the old
    records of chosen signals from inside the live range of a stream, in batches:
    [deleteSignalRecords] takes the cursor floor again and commits one. Of each
    signal it keeps the value in force when the window opens. The iterator is a
    snapshot of the index ([d0]) taken when the call starts; records are read, and
    batches committed, on the store as it is. *)

From S2P Require Export StoreCompact.

Open Scope string_scope.
Open Scope list_scope.
Open Scope go_scope.

Section signals.
Context `{Codec}.

(** ** Data *)

Definition signalPruneBatch : N := 10000.

Record doomedRec := mkDoomed { dr_off : N; dr_signalID : string; dr_ts : Z; dr_size : N }.

Record SignalPruneResult := mkSignalPruneResult {
  sp_Removed : N;
  sp_Bytes : N;
  sp_Signals : N;
  sp_Resume : string;
  sp_Overridden : list string;
}.

(** A window in nanoseconds, as [time.Duration]; [None] is [ok=false]. *)
Definition SignalRule : Type := string -> string -> option Z.

(** The [cutoff] of a rule, in milliseconds; no cutoff leaves the signal to the
    policy of the stream. *)
Definition cutoff_of (rule : SignalRule) (now : Z) (sid topic : string) : option Z :=
  match rule sid topic with
  | Some maxAge => if (maxAge <=? 0)%Z then None else Some (now - Z.quot maxAge 1000000)%Z
  | None => None
  end.
Definition Marker : Type := PruneSpan -> list string -> list Rec.

(** ** The signal index as the iterator shows it *)

(** Ids of the signals with an entry in [stream], from [from] on, in key order. *)
Definition sig_id (stream : string) (k : Key) : option string :=
  match parts k, suffix k with
  | [t; st; sid], Some _ => if (t == "si") && (st == stream) then Some sid else None
  | _, _ => None
  end.

Definition sig_ids (d : DB) (stream from : string) : list string :=
  filter (fun sid => String.le from sid) (sort_strings (remove_dups (omap (sig_id stream) (map_to_list d).*1))).

(** The offsets of one signal from [lwm] on, in order. *)
Definition sig_off (stream sid : string) (k : Key) : option N :=
  match suffix k with
  | Some off => if k == sigKey stream sid off then Some off else None
  | None => None
  end.

Definition sig_offsets (d : DB) (stream sid : string) (lwm : N) : list N :=
  filter (fun off => lwm <= off)%N (merge_sort N.le (omap (sig_off stream sid) (map_to_list d).*1)).

(** [readRecordMeta]. *)
Definition readRecordMeta (d : DB) (stream : string) (off : N) : result StoreErr (option recEnc) :=
  match d !! streamKey stream off with
  | Some (VRec e) => Ok (Some e)
  | Some _ => Err EDecode
  | None => Ok None
  end.

(** [appendNew]. *)
Definition appendNew (l add : list string) : list string :=
  foldl (fun l a => if bool_decide (a ∈ l) then l else l ++ [a]) l add.

(** ** One batch *)

(** The scan of the cursors: the floor over those that protect, and the overridden
    cursors that have not moved. *)
Definition floor_step (stream : string) (overridden : gmap string N) (acc : N * list (string * N)) (c : CursorInfo)
    : N * list (string * N) :=
  if ci_Stream c != stream then acc
  else if bool_decide (overridden !! ci_Name c = Some (ci_Position c)) then (fst acc, snd acc ++ [(ci_Name c, ci_Position c)])
  else (N.min (fst acc) (ci_Position c), snd acc).

Definition signal_floor (seen : DB) (stream : string) (overridden : gmap string N) (next : N) : N * list (string * N) :=
  foldl (floor_step stream overridden) (next, []) (CursorSnapshot seen).

(** What of a batch is left to delete. *)
Definition still_doomed (lwm floor : N) (d : doomedRec) : bool := (dr_off d <? floor)%N && (lwm <=? dr_off d)%N.

Definition span_add (span : PruneSpan) (removed : N) (d : doomedRec) : PruneSpan :=
  let z := removed == 0%N in
  mkPruneSpan (if z || (dr_off d <? ps_From span)%N then dr_off d else ps_From span)
    (if z || (ps_To span <? dr_off d)%N then dr_off d else ps_To span)
    (if z || (dr_ts d <? ps_FirstTS span)%Z then dr_ts d else ps_FirstTS span)
    (if z || (ps_LastTS span <? dr_ts d)%Z then dr_ts d else ps_LastTS span)
    (ps_Coalesced span) (ps_Shed span).

Definition no_span : PruneSpan := mkPruneSpan 0 0 0 0 false 0.

(** The loop over the batch: the span, the count and the bytes. *)
Definition doomed_stats (out : list doomedRec) : PruneSpan * N * N :=
  foldl (fun '(span, removed, shed) d => (span_add span removed d, removed + 1, shed + dr_size d)%N) (no_span, 0%N, 0%N) out.

Definition doomed_keys (stream : string) (d : doomedRec) : list Key :=
  [streamKey stream (dr_off d); sigKey stream (dr_signalID d) (dr_off d)].

Definition deleteSignalRecords (f : Faults) (seen : DB) (stream : string) (doomed : list doomedRec) (overridden : gmap string N)
    (marker : option Marker) (s : Store) : Store * result StoreErr (N * N * list string) :=
  let '(floor, stale) := signal_floor seen stream overridden (at_ (next s) stream) in
  let out := filter (fun d => still_doomed (at_ (lwm s) stream) floor d = true) doomed in
  let '(span, removed, shed) := doomed_stats out in
  let built :=
    let! b := delete_all f (out ≫= doomed_keys stream) [] in
    if removed == 0%N then Ok None
    else
      let span := mkPruneSpan (ps_From span) (ps_To span) (ps_FirstTS span) (ps_LastTS span) (ps_Coalesced span) shed in
      let passed := (filter (fun c => (snd c <= ps_To span)%N) stale).*1 in
      let live := at_ (bytes s) stream in
      let liveBytes := if (live <? shed)%N then 0%N else (live - shed)%N in
      let recs := match marker with Some m => if passed == [] then [] else m span passed | None => [] end in
      let! (b, off, liveBytes) := write_all f stream recs (at_ (next s) stream) liveBytes b in
      let! b := if off != at_ (next s) stream then setHead f stream off b else Ok b in
      let! b := bset f (bytesKey stream) (VU64 liveBytes) b in
      let! d := commit f b (db s) in
      Ok (Some (d, off, liveBytes, passed)) in
  match built with
  | Err e => (s, Err e)
  | Ok None => (s, Ok (0%N, 0%N, []))
  | Ok (Some (d, off, liveBytes, passed)) =>
      (set_bytes (<[stream := liveBytes]> (bytes s))
         (set_next (<[stream := off]> (next s))
            (set_holes (<[stream := (at_ (holes s) stream + 1)%N]> (holes s)) (set_db d s))),
       Ok (removed, shed, passed))
  end.

(** ** The walk *)

Section walk.
(** The arguments of [PruneSignals], and the faults of its batches in order. *)
Variables (fs : nat -> Faults) (stream : string) (now : Z) (rule : SignalRule) (clamp : N) (overridden : gmap string N)
  (maxVisit : N) (marker : option Marker).

Record SigAcc := mkSigAcc {
  sa_store : Store;
  sa_res : SignalPruneResult;
  sa_doomed : list doomedRec;
  sa_visited : N;
  sa_flushes : nat;
}.

(** The closure [flush]. *)
Definition flush (a : SigAcc) : SigAcc * result StoreErr () :=
  if sa_doomed a == [] then (a, Ok ())
  else
    let s := sa_store a in
    let '(s, r) := deleteSignalRecords (fs (sa_flushes a)) (db s) stream (sa_doomed a) overridden marker s in
    match r with
    | Err e => (mkSigAcc s (sa_res a) [] (sa_visited a) (S (sa_flushes a)), Err e)
    | Ok (removed, shed, passed) =>
        let res := sa_res a in
        (mkSigAcc s (mkSignalPruneResult (sp_Removed res + removed) (sp_Bytes res + shed) (sp_Signals res) (sp_Resume res)
                       (appendNew (sp_Overridden res) passed)) [] (sa_visited a) (S (sa_flushes a)), Ok ())
    end.

Definition visit (a : SigAcc) : SigAcc := mkSigAcc (sa_store a) (sa_res a) (sa_doomed a) (sa_visited a + 1) (sa_flushes a).

Definition set_resume (sid : string) (a : SigAcc) : SigAcc :=
  let r := sa_res a in
  mkSigAcc (sa_store a) (mkSignalPruneResult (sp_Removed r) (sp_Bytes r) (sp_Signals r) sid (sp_Overridden r))
    (sa_doomed a) (sa_visited a) (sa_flushes a).

Definition count_signal (a : SigAcc) : SigAcc :=
  let r := sa_res a in
  mkSigAcc (sa_store a) (mkSignalPruneResult (sp_Removed r) (sp_Bytes r) (sp_Signals r + 1) (sp_Resume r) (sp_Overridden r))
    (sa_doomed a) (sa_visited a) (sa_flushes a).

(** [doomed = append(doomed, cand)], with the flush of a full batch. *)
Definition doom (cand : doomedRec) (a : SigAcc) : SigAcc * result StoreErr () :=
  let a := mkSigAcc (sa_store a) (sa_res a) (sa_doomed a ++ [cand]) (sa_visited a) (sa_flushes a) in
  if (signalPruneBatch <=? N.of_nat (length (sa_doomed a)))%N then flush a else (a, Ok ()).

(** How the walk of one signal ends: on to the next, or the call returns. *)
Inductive SigOut := SigNext (a : SigAcc) | SigReturn (a : SigAcc) (r : result StoreErr ()).

(** The loop over the entries of one signal; [cutoff] once it is decided. *)
Fixpoint signal_loop (sid : string) (offs : list N) (cutoff : option Z) (keep : option doomedRec) (a : SigAcc) : SigOut :=
  match offs with
  | [] => SigNext a
  | off :: offs =>
      if (clamp <=? off)%N then SigNext a
      else
        let a := visit a in
        match readRecordMeta (db (sa_store a)) stream off with
        | Err e => SigReturn a (Err e)
        | Ok None => signal_loop sid offs cutoff keep a
        | Ok (Some rec) =>
            if (0 <? maxVisit)%N && (maxVisit <? sa_visited a)%N then
              let '(a, r) := flush (set_resume sid a) in SigReturn a r
            else
              match (match cutoff with
                     | Some c => Some c
                     | None => cutoff_of rule now sid (e_Topic rec)
                     end) with
              | None => SigNext a
              | Some c =>
                  if (c <=? e_TS rec)%Z then SigNext a
                  else
                    let cand := mkDoomed off sid (e_TS rec) (rec_size stream off rec) in
                    match keep with
                    | None => signal_loop sid offs (Some c) (Some cand) a
                    | Some k =>
                        let '(keep, cand) := if (dr_ts k <=? dr_ts cand)%Z then (cand, k) else (k, cand) in
                        match doom cand a with
                        | (a, Err e) => SigReturn a (Err e)
                        | (a, Ok _) => signal_loop sid offs (Some c) (Some keep) a
                        end
                    end
              end
        end
  end.

(** The loop over the signals of the snapshot [d0]. *)
Fixpoint signals_loop (d0 : DB) (lwm : N) (sids : list string) (a : SigAcc) : SigAcc * result StoreErr () :=
  match sids with
  | [] => flush a
  | sid :: sids =>
      if (0 <? maxVisit)%N && (maxVisit <=? sa_visited a)%N then flush (set_resume sid a)
      else
        match signal_loop sid (sig_offsets d0 stream sid lwm) None None (count_signal a) with
        | SigReturn a r => (a, r)
        | SigNext a => signals_loop d0 lwm sids a
        end
  end.
End walk.

(** [PruneSignals]. *)
Definition PruneSignals (fs : nat -> Faults) (stream from : string) (now : Z) (rule : SignalRule) (clamp : N)
    (overridden : gmap string N) (maxVisit : N) (marker : option Marker) (s : Store)
    : Store * SignalPruneResult * result StoreErr () :=
  let res := mkSignalPruneResult 0 0 0 "" [] in
  let lwm := at_ (lwm s) stream in
  let next := at_ (next s) stream in
  if next == 0%N then (s, res, Err (EUnknownStream stream))
  else
    let clamp := N.min clamp next in
    if (clamp <=? lwm)%N then (s, res, Ok ())
    else
      let '(a, r) := signals_loop fs stream now rule clamp overridden maxVisit marker (db s) lwm (sig_ids (db s) stream from)
                       (mkSigAcc s res [] 0 0) in
      (sa_store a, sa_res a, r).

(** ** One batch: what it does *)

Lemma doomed_stats_spec out :
  exists span, doomed_stats out = (span, N.of_nat (length out), sumN dr_size out)
    /\ (forall d, d ∈ out -> (ps_From span <= dr_off d <= ps_To span)%N)
    /\ (out <> [] -> exists d, d ∈ out /\ dr_off d = ps_To span).
Proof.
  induction out as [|d out IH] using rev_ind.
  { exists no_span. split_and!; [done|by intros d ?%elem_of_nil|done]. }
  destruct IH as (span & E & Hs & Ha). unfold doomed_stats in *. rewrite foldl_app, E. cbn [foldl].
  eexists. split; [rewrite length_app, sumN_app; cbn [length sumN foldr]; f_equal; [f_equal|]; lia|].
  unfold span_add; simpl. split.
  - intros d' Hd'. apply elem_of_app in Hd' as [Hd'|Hd'%list_elem_of_singleton].
    + specialize (Hs d' Hd'). rewrite bool_decide_eq_false_2 by (destruct out; [by apply elem_of_nil in Hd'|done]). simpl.
      destruct (N.ltb_spec (dr_off d) (ps_From span)), (N.ltb_spec (ps_To span) (dr_off d)); lia.
    + subst d'. destruct (bool_decide _); simpl; [lia|].
      destruct (N.ltb_spec (dr_off d) (ps_From span)), (N.ltb_spec (ps_To span) (dr_off d)); lia.
  - intros _. destruct out as [|d0 out]; [exists d; split; [left|done]|]. rewrite bool_decide_eq_false_2 by done. simpl orb.
    destruct (N.ltb_spec (ps_To span) (dr_off d)); [exists d; split; [apply elem_of_app; right; left|done]|].
    destruct Ha as (d' & Hd' & Ed); [done|]. exists d'. split; [apply elem_of_app; by left|done].
Qed.

Lemma signal_floor_spec seen stream overridden next :
  let '(floor, stale) := signal_floor seen stream overridden next in
  (floor <= next)%N
  /\ (forall name pos, seen !! cursorKey name stream = Some (VU64 pos) ->
      if decide (overridden !! name = Some pos) then (name, pos) ∈ stale else (floor <= pos)%N)
  /\ (forall name pos, (name, pos) ∈ stale -> overridden !! name = Some pos).
Proof.
  assert (G : forall cs acc, (fst (foldl (floor_step stream overridden) acc cs) <= fst acc)%N
    /\ (forall x, x ∈ snd acc -> x ∈ snd (foldl (floor_step stream overridden) acc cs))
    /\ (forall c, c ∈ cs -> ci_Stream c = stream ->
        if decide (overridden !! ci_Name c = Some (ci_Position c)) then (ci_Name c, ci_Position c) ∈ snd (foldl (floor_step stream overridden) acc cs)
        else (fst (foldl (floor_step stream overridden) acc cs) <= ci_Position c)%N)
    /\ (forall name pos, (name, pos) ∈ snd (foldl (floor_step stream overridden) acc cs) ->
        (name, pos) ∈ snd acc \/ overridden !! name = Some pos)).
  { induction cs as [|c cs IH]; intros acc; cbn [foldl].
    { split_and!; [lia|done|by intros c ?%elem_of_nil|by left]. }
    destruct (IH (floor_step stream overridden acc c)) as (I1 & I2 & I3 & I4).
    assert (F : (fst (floor_step stream overridden acc c) <= fst acc)%N /\ (forall x, x ∈ snd acc -> x ∈ snd (floor_step stream overridden acc c))).
    { unfold floor_step. destruct (_ != _); [split; [lia|done]|]. case_bool_decide; simpl; (split; [lia|]); [|done].
      intros x Hx. apply elem_of_app. by left. }
    destruct F as [F1 F2]. split_and!; [lia|auto| |].
    - intros c' Hc Hst. apply elem_of_cons in Hc as [->|Hc]; [|by apply I3]. unfold floor_step in *.
      rewrite (bool_decide_eq_true_2 (ci_Stream c = stream)) in * by done. cbn [negb] in *.
      destruct (decide _) as [E|E]; [rewrite bool_decide_eq_true_2 in * by done|rewrite bool_decide_eq_false_2 in * by done]; simpl in *.
      + apply I2, elem_of_app. right. by apply list_elem_of_singleton.
      + lia.
    - intros name pos Hin. destruct (I4 _ _ Hin) as [Hin'|]; [|by right]. unfold floor_step in Hin'.
      destruct (_ != _); [by left|]. case_bool_decide as E; simpl in Hin'; [|by left].
      apply elem_of_app in Hin' as [|E'%list_elem_of_singleton]; [by left|]. right. by injection E' as -> ->. }
  unfold signal_floor. destruct (G (CursorSnapshot seen) (next, [])) as (G1 & _ & G3 & G4).
  destruct (foldl _ _ _) as [floor stale]. simpl in *. split_and!; [done| |].
  - intros name pos Hk. apply (G3 (mkCursorInfo name stream pos (readU64 seen (ctKey name stream) 0))); [|done].
    by apply elem_of_CursorSnapshot.
  - intros name pos Hin. destruct (G4 _ _ Hin) as [?%elem_of_nil|]; done.
Qed.

(** The store without the records [keys] name, before the marker. *)
Definition cut_signals (stream : string) (keys : list Key) (live : N) (s : Store) : Store :=
  set_bytes (<[stream := live]> (bytes s))
    (set_holes (<[stream := (at_ (holes s) stream + 1)%N]> (holes s))
       (set_db (apply_batch ((BDelete <$> keys) ++ [BSet (bytesKey stream) (VU64 live)]) (db s)) s)).

Lemma cut_signals_db stream keys live live' n recs rec s :
  let off := (n + N.of_nat (length (rec :: recs)))%N in
  live' = (live + costs stream n (rec :: recs))%N -> n = at_ (next s) stream ->
  apply_batch ((BDelete <$> keys) ++ records_ops stream n (rec :: recs) ++ head_sets stream off ++ [BSet (bytesKey stream) (VU64 live')]) (db s)
  = db (put_records stream (rec :: recs) (cut_signals stream keys live s)).
Proof.
  cbv zeta. intros El En. rewrite put_records_eq. cbv zeta. unfold cut_signals. store_simpl. rewrite !at_insert_eq, <- En.
  set (off := (n + _)%N). rewrite <- El. rewrite !(apply_batch_app (BDelete <$> keys)).
  generalize (apply_batch (BDelete <$> keys) (db s)). intros d.
  set (RM := records_ops stream n (rec :: recs) ++ head_sets stream off).
  replace (records_ops stream n (rec :: recs) ++ head_sets stream off ++ [BSet (bytesKey stream) (VU64 live')])
    with (RM ++ [BSet (bytesKey stream) (VU64 live')]) by (unfold RM; by rewrite <- app_assoc).
  replace (records_ops stream n (rec :: recs) ++ head_batch stream off live') with (RM ++ [BSet (bytesKey stream) (VU64 live')])
    by (unfold RM, head_sets, head_batch; by rewrite <- app_assoc).
  rewrite !(apply_batch_comm RM [BSet _ _] (record_tags ++ ["m"; "ix"]) ["b"]); [|apply records_writes|apply writes_set|done
                                                                                 |apply records_writes|apply writes_set|done].
  rewrite !(apply_batch_app [BSet _ _]). f_equal. unfold apply_batch. cbn [foldl apply_op]. by rewrite insert_insert_eq.
Qed.

(** A committed batch is the removal and then the marker. *)
Lemma deleteSignalRecords_Ok f seen stream doomed overridden marker s s' n shed passed :
  let '(floor, stale) := signal_floor seen stream overridden (at_ (next s) stream) in
  let out := filter (fun d => still_doomed (at_ (lwm s) stream) floor d = true) doomed in
  is_Some (next s !! stream) ->
  deleteSignalRecords f seen stream doomed overridden marker s = (s', Ok (n, shed, passed)) ->
  (out = [] /\ s' = s /\ n = 0%N /\ passed = [])
  \/ exists span recs,
     n = N.of_nat (length out) /\ shed = sumN dr_size out
     /\ (forall d, d ∈ out -> (ps_From span <= dr_off d <= ps_To span)%N)
     /\ (exists d, d ∈ out /\ dr_off d = ps_To span)
     /\ passed = (filter (fun c => (snd c <= ps_To span)%N) stale).*1
     /\ (recs = match marker with Some m => if passed == [] then [] else m span passed | None => [] end)
     /\ s' = put_records stream recs
               (cut_signals stream (out ≫= doomed_keys stream) (at_ (bytes s) stream - sumN dr_size out)%N s).
Proof.
  unfold deleteSignalRecords. destruct (signal_floor _ _ _ _) as [floor stale]. cbv zeta.
  set (out := filter _ doomed). intros [nx Hnx]. destruct (doomed_stats_spec out) as (span & Est & Hspan & Hat). rewrite Est.
  destruct (delete_all f _ []) as [b|] eqn:B0; [|done]. apply delete_all_Ok in B0 as ->. cbn [app].
  case_bool_decide as Ez.
  { intros [= <- <- <- <-]. left. destruct out; [done|]. simpl in Ez. lia. }
  set (span' := mkPruneSpan (ps_From span) _ _ _ _ _). set (recs := match marker with Some _ => _ | None => _ end).
  assert (El : (if (at_ (bytes s) stream <? sumN dr_size out)%N then 0%N else (at_ (bytes s) stream - sumN dr_size out)%N)
               = (at_ (bytes s) stream - sumN dr_size out)%N) by (destruct (N.ltb_spec (at_ (bytes s) stream) (sumN dr_size out)); lia).
  rewrite El. set (live := (at_ (bytes s) stream - _)%N).
  destruct (write_all f stream recs _ live _) as [[[b1 off] live']|] eqn:B1; [|done]. apply write_all_Ok in B1 as (-> & -> & ->).
  destruct (if _ != _ then _ else _) as [b2|] eqn:B2; [|done].
  destruct (bset f (bytesKey stream) _ _) as [b3|] eqn:B3; [|done]. apply bset_Ok in B3 as ->.
  unfold commit. destruct (apply_fails f); [done|]. intros [= <- <- <- <-]. right. exists span', recs.
  split_and!; [done|done|done|apply Hat; intros E; by rewrite E in Ez|done|done|]. destruct recs as [|rec recs].
  - cbn [length] in *. rewrite N.add_0_r, bool_decide_eq_true_2 in B2 by done. injection B2 as <-.
    cbn [records_ops costs]. rewrite !app_nil_r, !N.add_0_r. unfold put_records, cut_signals. cbn [foldl].
    unfold set_bytes, set_next, set_holes, set_db. store_simpl. f_equal. apply insert_id. unfold at_. by rewrite Hnx.
  - rewrite bool_decide_eq_false_2 in B2 by (cbn [length]; lia). cbn [negb] in B2. apply setHead_Ok in B2 as ->.
    rewrite <- !app_assoc. change ([BSet (metaKey stream) (VU64 ?x); BSet (indexedKey stream) (VU64 ?x)] ++ ?l) with (head_sets stream x ++ l).
    erewrite cut_signals_db by done. rewrite put_records_eq. cbv zeta. unfold cut_signals. store_simpl. rewrite !at_insert_eq.
    unfold set_bytes, set_next, set_holes, set_db. store_simpl. by rewrite insert_insert_eq.
Qed.

Lemma deleteSignalRecords_unchanged f seen stream doomed overridden marker s s' e :
  deleteSignalRecords f seen stream doomed overridden marker s = (s', Err e) -> s' = s.
Proof.
  unfold deleteSignalRecords. destruct (signal_floor _ _ _ _) as [floor stale]. cbv zeta.
  destruct (doomed_stats _) as [[span removed] shed].
  set (built := let! b := delete_all _ _ _ in _). by destruct built as [[[[[d off] live] passed]|]|]; intros [=].
Qed.

(** A doomed record as the walk saw it. *)
Definition doomed_rec (d : DB) (stream : string) (x : doomedRec) : Prop :=
  dr_signalID x <> "" /\ exists e, record_at d stream (dr_off x) = Some e
    /\ e_SignalID e = dr_signalID x /\ e_TS e = dr_ts x /\ rec_size stream (dr_off x) e = dr_size x.

Lemma sumN_perm {A} (g : A -> N) l1 l2 : l1 ≡ₚ l2 -> sumN g l1 = sumN g l2.
Proof. unfold sumN. induction 1; simpl; lia. Qed.

Lemma sumN_fmap {A B} (g : B -> N) (h : A -> B) l : sumN g (h <$> l) = sumN (fun x => g (h x)) l.
Proof. induction l as [|x l IH]; [done|]. change (g (h x) + sumN g (h <$> l) = g (h x) + sumN (fun x => g (h x)) l)%N. by rewrite IH. Qed.

Lemma sumN_ext {A} (g h : A -> N) l : (forall x, x ∈ l -> g x = h x) -> sumN g l = sumN h l.
Proof.
  unfold sumN. induction l as [|x l IH]; intros E; [done|]. simpl. rewrite IH, E; [done|left|]. intros y Hy. apply E. by right.
Qed.

Lemma sorted_offs_nodup {A} (l : list (N * A)) : StronglySorted off_lt l -> NoDup l.*1.
Proof.
  induction 1 as [|[off a] l _ IH Hf]; [constructor|]. rewrite fmap_cons. constructor; [|done].
  intros (y & E & Hy)%list_elem_of_fmap. rewrite Forall_forall in Hf. specialize (Hf y Hy). unfold off_lt in Hf. simpl in *. lia.
Qed.

Section batch.
Variables (stream : string) (out : list doomedRec) (s : Store).
Hypothesis HI : Inv s.
Hypothesis Hs : stream ∈ streams.
Hypothesis Hout : forall x, x ∈ out -> doomed_rec (db s) stream x.
Hypothesis Hnd : NoDup (dr_off <$> out).

Definition removed_recs : list (N * recEnc) := filter (fun x => fst x ∈ dr_off <$> out) (records (db s) stream).

Lemma elem_of_removed off e : (off, e) ∈ removed_recs <-> off ∈ dr_off <$> out /\ record_at (db s) stream off = Some e.
Proof. unfold removed_recs. by rewrite list_elem_of_filter, elem_of_records. Qed.

Lemma removed_offs : removed_recs.*1 ≡ₚ dr_off <$> out.
Proof using Hout Hnd.
  apply NoDup_Permutation; [|done|].
  - apply sorted_offs_nodup, sorted_filter, records_sorted.
  - intros off. rewrite list_elem_of_fmap. split.
    + intros ([o e] & -> & Hin). by apply elem_of_removed in Hin as [? _].
    + intros Hin. pose proof Hin as (x & -> & Hx)%list_elem_of_fmap. destruct (Hout x Hx) as (_ & e & He & _).
      exists (dr_off x, e). split; [done|]. by apply elem_of_removed.
Qed.

Lemma removed_size : sumN (size_of stream) removed_recs = sumN dr_size out.
Proof using Hout Hnd.
  set (size_at off := match record_at (db s) stream off with Some e => rec_size stream off e | None => 0%N end).
  rewrite (sumN_ext _ (fun x => size_at (fst x)) removed_recs), <- sumN_fmap, (sumN_perm _ _ _ removed_offs), sumN_fmap.
  - apply sumN_ext. intros x Hx. destruct (Hout x Hx) as (_ & e & He & _ & _ & <-). unfold size_at. by rewrite He.
  - intros [off e] Hx. apply elem_of_removed in Hx as [_ He]. unfold size_at, size_of; simpl. by rewrite He.
Qed.

Lemma removed_keys k : k ∈ out ≫= doomed_keys stream <-> exists x, x ∈ removed_recs /\ k ∈ removal_keys stream x.
Proof using Hout.
  rewrite list_elem_of_bind. split.
  - intros (x & Hk & Hx). destruct (Hout x Hx) as (Hne & e & He & Hid & _). exists (dr_off x, e).
    split; [apply elem_of_removed; split; [by apply list_elem_of_fmap_2|done]|]. apply elem_of_removal_keys. simpl.
    unfold doomed_keys in Hk. rewrite !elem_of_cons, elem_of_nil in Hk. rewrite Hid. naive_solver.
  - intros ([off e] & [Ho He]%elem_of_removed & Hk%elem_of_removal_keys). apply list_elem_of_fmap in Ho as (x & -> & Hx).
    exists x. split; [|done]. destruct (Hout x Hx) as (Hne & e' & He' & Hid & _). rewrite He in He'. injection He' as <-.
    unfold doomed_keys. rewrite !elem_of_cons, elem_of_nil. simpl in Hk. rewrite Hid in Hk. naive_solver.
Qed.

Let s' := cut_signals stream (out ≫= doomed_keys stream) (at_ (bytes s) stream - sumN dr_size out)%N s.

Lemma cut_signals_inv : Inv s'.
Proof using HI Hs Hout Hnd.
  apply (removal_inv stream removed_recs (out ≫= doomed_keys stream) s HI Hs) with (live' := (at_ (bytes s) stream - sumN dr_size out)%N);
    [by intros off e [_ ?]%elem_of_removed|apply sorted_filter, records_sorted|apply removed_keys|done|].
  by rewrite removed_size.
Qed.

Lemma cut_signals_record st off :
  record_at (db s') st off = if decide (st = stream /\ off ∈ dr_off <$> out) then None else record_at (db s) st off.
Proof using Hout.
  rewrite (removal_record stream removed_recs (out ≫= doomed_keys stream) s removed_keys _ s' eq_refl).
  destruct (decide (st = stream /\ off ∈ dr_off <$> out)) as [[-> Hin]|Hno].
  - rewrite decide_True; [done|]. split; [done|]. apply gone_record. pose proof Hin as (x & -> & Hx)%list_elem_of_fmap.
    destruct (Hout x Hx) as (_ & e & He & _). exists e. by apply elem_of_removed.
  - rewrite decide_False; [done|]. intros [-> [e [Hin _]%elem_of_removed]%gone_record]. naive_solver.
Qed.

Lemma cut_signals_keep k : tag k ∉ ["s"; "si"; "b"] -> db s' !! k = db s !! k.
Proof using Hout. by apply (removal_keep stream removed_recs (out ≫= doomed_keys stream) s removed_keys _ s' eq_refl). Qed.
End batch.

(** ** A batch is exact *)

(** The cursors of [seen] that still protect [stream]. *)
Definition protects (seen : DB) (stream : string) (overridden : gmap string N) (name : string) (pos : N) : Prop :=
  seen !! cursorKey name stream = Some (VU64 pos) /\ overridden !! name <> Some pos.

(** What a batch did to the store. *)
Record Deleted (seen : DB) (stream : string) (doomed : list doomedRec) (overridden : gmap string N) (s s' : Store) (gone : list N) : Prop := {
  dl_inv : Inv s';
  dl_lwm : forall st, LWM s' st = LWM s st;
  dl_holes : forall st, holes s' !! st = holes s !! st \/ st = stream /\ at_ (holes s') stream = (at_ (holes s) stream + 1)%N;
  dl_same : s' = s \/ at_ (holes s') stream = (at_ (holes s) stream + 1)%N;
  dl_next : forall st, (NextOffset s st <= NextOffset s' st)%N;
  dl_cursors : forall name st, db s' !! cursorKey name st = db s !! cursorKey name st;
  dl_gone : gone ⊆ dr_off <$> doomed;
  dl_record : forall st off, (off < NextOffset s st)%N ->
    record_at (db s') st off = if decide (st = stream /\ off ∈ gone) then None else record_at (db s) st off;
  dl_floor : forall off name pos, off ∈ gone -> protects seen stream overridden name pos -> (off < pos)%N;
}.

Lemma put_records_next_le stream recs s st : (NextOffset s st <= NextOffset (put_records stream recs s) st)%N.
Proof.
  revert s; induction recs as [|rec recs IH]; intros s; [simpl; unfold put_records; simpl; lia|].
  change (put_records stream (rec :: recs) s) with (put_records stream recs (put_record stream s rec)).
  etrans; [|apply IH]. rewrite put_next. case_decide; [subst|]; unfold NextOffset; lia.
Qed.

Lemma deleteSignalRecords_deleted f seen stream doomed overridden marker s s' n shed passed :
  Inv s -> stream ∈ streams -> (forall x, x ∈ doomed -> (LWM s stream <= dr_off x)%N -> doomed_rec (db s) stream x) ->
  NoDup (dr_off <$> doomed) ->
  deleteSignalRecords f seen stream doomed overridden marker s = (s', Ok (n, shed, passed)) ->
  exists gone, Deleted seen stream doomed overridden s s' gone
    /\ n = N.of_nat (length gone) /\ NoDup gone
    /\ (forall name pos, seen !! cursorKey name stream = Some (VU64 pos) -> overridden !! name = Some pos ->
         name ∈ passed <-> exists off, off ∈ gone /\ (pos <= off)%N).
Proof.
  intros HI Hs Hd Hnd E. pose proof (deleteSignalRecords_Ok f seen stream doomed overridden marker s s' n shed passed) as Hok.
  pose proof (signal_floor_spec seen stream overridden (at_ (next s) stream)) as Hfl.
  destruct (signal_floor _ _ _ _) as [floor stale]. destruct Hfl as (Hfn & Hfl & Hst). cbv zeta in Hok.
  set (out := filter _ doomed) in Hok.
  assert (Hnx : is_Some (next s !! stream)).
  { pose proof (ci_bounds _ _ (inv_counter s HI stream Hs)) as Hb. unfold NextOffset, at_ in Hb. destruct (next s !! stream); [done|simpl in Hb; lia]. }
  assert (Hsub : forall x, x ∈ out -> x ∈ doomed /\ (LWM s stream <= dr_off x < floor)%N).
  { intros x [Hx Hin]%list_elem_of_filter. unfold still_doomed in Hx. apply andb_true_iff in Hx as [H1%N.ltb_lt H2%N.leb_le].
    split; [done|]. unfold LWM. lia. }
  assert (Hndo : NoDup (dr_off <$> out)).
  { eapply sublist_NoDup; [exact Hnd|]. apply fmap_sublist, sublist_filter. }
  destruct (Hok Hnx E) as [(Ho & -> & -> & ->)|(span & recs & -> & -> & Hsp & Hto & -> & _ & ->)]; clear Hok.
  - exists []. split_and!; [|done|constructor|].
    + split; try done; [by left|by left|by intros ? []%elem_of_nil| |by intros ? ? ? []%elem_of_nil].
      intros st off _. by rewrite decide_False by (intros [_ []%elem_of_nil]).
    + intros name pos _ _. rewrite elem_of_nil. split; [done|]. by intros (? & []%elem_of_nil & _).
  - set (s1 := cut_signals _ _ _ _).
    assert (Hr : forall x, x ∈ out -> doomed_rec (db s) stream x) by (intros x Hx; destruct (Hsub x Hx); apply Hd; [done|lia]).
    pose proof (cut_signals_inv stream out s HI Hs Hr Hndo) as HI1. fold s1 in HI1.
    exists (dr_off <$> out). split_and!; [|by rewrite length_fmap|done|].
    + split.
      * by apply put_records_inv.
      * intros st. by rewrite put_records_lwm.
      * intros st. rewrite put_records_holes. unfold s1, cut_signals; store_simpl. rewrite lookup_insert.
        case_decide; [right; subst; by rewrite at_insert_eq|by left].
      * right. rewrite put_records_holes. unfold s1, cut_signals; store_simpl. by rewrite at_insert_eq.
      * intros st. etrans; [|apply put_records_next_le]. done.
      * intros name st. rewrite put_records_other by tag_in. apply (cut_signals_keep stream out s Hr). tag_in.
      * intros off (x & -> & Hx)%list_elem_of_fmap. apply list_elem_of_fmap_2. by apply Hsub.
      * intros st off Hlt. rewrite put_records_below by (intros ->; exact Hlt). by apply cut_signals_record.
      * intros off name pos (x & -> & Hx)%list_elem_of_fmap [Hk Hn]. specialize (Hfl name pos Hk). rewrite decide_False in Hfl by done.
        destruct (Hsub x Hx). lia.
    + intros name pos Hk Ho. specialize (Hfl name pos Hk). rewrite decide_True in Hfl by done. split.
      * intros ([name' pos'] & -> & [Hle Hin]%list_elem_of_filter)%list_elem_of_fmap. simpl in *.
        assert (pos' = pos) as -> by (apply Hst in Hin; congruence). destruct Hto as (d & Hdo & Ed). exists (dr_off d).
        split; [by apply list_elem_of_fmap_2|lia].
      * intros (off & (x & -> & Hx)%list_elem_of_fmap & Hle). apply list_elem_of_fmap. exists (name, pos). split; [done|].
        apply list_elem_of_filter. split; [|done]. simpl. specialize (Hsp x Hx). lia.
Qed.

(** ** The walk *)

Lemma elem_of_sig_offsets d stream sid lo off :
  off ∈ sig_offsets d stream sid lo <-> (lo <= off)%N /\ is_Some (d !! sigKey stream sid off).
Proof.
  unfold sig_offsets. rewrite list_elem_of_filter, merge_sort_Permutation, list_elem_of_omap.
  split; intros [Hl Hx]; (split; [done|]).
  - destruct Hx as (k & ([k' v] & -> & Hkv%elem_of_map_to_list)%list_elem_of_fmap & E). unfold sig_off in E. simpl in *.
    destruct (suffix k') as [o|]; [|done]. case_bool_decide as Ek; [|done]. injection E as ->. rewrite <- Ek. by exists v.
  - destruct Hx as [v Hv]. exists (sigKey stream sid off). split.
    + apply list_elem_of_fmap. exists (sigKey stream sid off, v). split; [done|]. by apply elem_of_map_to_list.
    + unfold sig_off. cbn [suffix sigKey]. by rewrite bool_decide_eq_true_2.
Qed.

Lemma strongly_sorted_filter {A} (le : A -> A -> Prop) (P : A -> Prop) `{forall x, Decision (P x)} (l : list A) :
  StronglySorted le l -> StronglySorted le (filter P l).
Proof.
  induction 1 as [|x l _ IH Hf]; [constructor|]. rewrite filter_cons. case_decide; [|done]. constructor; [done|].
  rewrite Forall_forall in *. intros y [_ Hy]%list_elem_of_filter. by apply Hf.
Qed.

Lemma strictly_sorted (l : list N) : StronglySorted N.le l -> NoDup l -> StronglySorted N.lt l.
Proof.
  induction 1 as [|o l Hs IH Hf]; intros Hnd; [constructor|]. apply NoDup_cons in Hnd as [Ho Hl]. constructor; [by apply IH|].
  rewrite Forall_forall in *. intros o' Ho'. specialize (Hf o' Ho'). destruct (decide (o = o')) as [->|]; [done|]. lia.
Qed.

(** The offsets of a family of keys, in order. *)
Lemma key_offsets_sorted (get : Key -> option N) (P : N -> Prop) `{forall x, Decision (P x)} (d : DB) :
  (forall k k' o, get k = Some o -> get k' = Some o -> k = k') ->
  StronglySorted N.lt (filter P (merge_sort N.le (omap get (map_to_list d).*1))).
Proof.
  intros Hinj. apply strictly_sorted; [apply strongly_sorted_filter, StronglySorted_merge_sort; apply _|].
  apply NoDup_filter. rewrite merge_sort_Permutation. pose proof (NoDup_fst_map_to_list d) as Hk.
  induction (map_to_list d).*1 as [|k l IH]; [constructor|]. apply NoDup_cons in Hk as [Hk Hl]. cbn [omap list_omap].
  destruct (get k) as [o|] eqn:E; [|by apply IH]. constructor; [|by apply IH]. intros (k' & Hk' & E')%list_elem_of_omap.
  by rewrite (Hinj k k' o E E') in Hk.
Qed.

Lemma sig_offsets_sorted d stream sid lo : StronglySorted N.lt (sig_offsets d stream sid lo).
Proof.
  apply key_offsets_sorted. unfold sig_off. intros k k' o E E'. destruct (suffix k), (suffix k'); try done.
  repeat case_bool_decide; congruence.
Qed.

Lemma elem_of_sig_ids d stream from sid :
  sid ∈ sig_ids d stream from -> exists off, is_Some (d !! sigKey stream sid off).
Proof.
  unfold sig_ids. rewrite list_elem_of_filter, sort_strings_perm, elem_of_remove_dups, list_elem_of_omap.
  intros (_ & k & ([k' v] & -> & Hkv%elem_of_map_to_list)%list_elem_of_fmap & E). simpl in *.
  unfold sig_id in E. destruct k' as [[|t [|st [|x []]]] [o|]]; simpl in E; try done. destruct (_ && _) eqn:Eb; [|done].
  injection E as ->. apply andb_true_iff in Eb as [E1%bool_decide_eq_true E2%bool_decide_eq_true]. subst. exists o. by exists v.
Qed.

Lemma sig_ids_nodup d stream from : NoDup (sig_ids d stream from).
Proof. unfold sig_ids. apply NoDup_filter. rewrite sort_strings_perm. apply NoDup_remove_dups. Qed.

Lemma sorted_head {A} (l : list (N * A)) x :
  StronglySorted off_lt l -> x ∈ l -> (forall y, y ∈ l -> (fst x <= fst y)%N) -> head l = Some x.
Proof.
  intros Hs Hx Hmin. destruct Hs as [|y l Hs Hf]; [by apply elem_of_nil in Hx|]. simpl. f_equal.
  apply elem_of_cons in Hx as [->|Hx]; [done|]. rewrite Forall_forall in Hf. specialize (Hf x Hx). unfold off_lt in Hf.
  specialize (Hmin y ltac:(left)). lia.
Qed.

Section walk_inv.
Variables (fs : nat -> Faults) (stream : string) (now : Z) (rule : SignalRule) (clamp : N) (overridden : gmap string N)
  (maxVisit : N) (marker : option Marker) (s0 : Store).
Hypothesis HI0 : Inv s0.
Hypothesis Hs : stream ∈ streams.
Hypothesis Hclamp : (clamp <= NextOffset s0 stream)%N.

(** The cutoff of a signal: its rule on the topic of its oldest live record. *)
Definition window (sid : string) : option Z :=
  match head (filter (fun x => e_SignalID (snd x) = sid) (records (db s0) stream)) with
  | Some (_, e) => cutoff_of rule now sid (e_Topic e)
  | None => None
  end.

(** A later value of the same signal, still before the window, stands at [k]. *)
Definition outlived (k off : N) (e : recEnc) : Prop :=
  k <> off /\ exists ek c, record_at (db s0) stream k = Some ek /\ e_SignalID ek = e_SignalID e
    /\ (e_TS e <= e_TS ek)%Z /\ (e_TS ek < c)%Z /\ window (e_SignalID e) = Some c.

Definition passed_over (kept : gmap string N) (off : N) (e : recEnc) : Prop :=
  (off < clamp)%N /\ e_SignalID e <> "" /\ exists k, kept !! e_SignalID e = Some k /\ outlived k off e.

Definition unprotected (off : N) : Prop := forall name pos, protects (db s0) stream overridden name pos -> (off < pos)%N.

Record Walk (a : SigAcc) (kept : gmap string N) : Prop := {
  w_inv : Inv (sa_store a);
  w_lwm : LWM (sa_store a) stream = LWM s0 stream;
  w_next : forall st, (NextOffset s0 st <= NextOffset (sa_store a) st)%N;
  w_cursors : forall name, db (sa_store a) !! cursorKey name stream = db s0 !! cursorKey name stream;
  w_other : forall st off, st <> stream -> (off < NextOffset s0 st)%N ->
    record_at (db (sa_store a)) st off = record_at (db s0) st off;
  w_record : forall off, (off < NextOffset s0 stream)%N ->
    record_at (db (sa_store a)) stream off = record_at (db s0) stream off
    \/ record_at (db (sa_store a)) stream off = None /\ unprotected off
       /\ exists e, record_at (db s0) stream off = Some e /\ passed_over kept off e;
  w_kept : forall sid k, kept !! sid = Some k ->
    exists e, record_at (db (sa_store a)) stream k = Some e /\ e_SignalID e = sid /\ (k < NextOffset s0 stream)%N;
  w_doomed : forall x, x ∈ sa_doomed a -> doomed_rec (db (sa_store a)) stream x
    /\ exists e, record_at (db s0) stream (dr_off x) = Some e /\ e_SignalID e = dr_signalID x /\ passed_over kept (dr_off x) e;
  w_nodup : NoDup (dr_off <$> sa_doomed a);
}.

Lemma w_back a kept off e : Walk a kept -> (off < NextOffset s0 stream)%N ->
  record_at (db (sa_store a)) stream off = Some e -> record_at (db s0) stream off = Some e.
Proof. intros HW Hlt He. destruct (w_record _ _ HW off Hlt) as [<-|[? _]]; [done|congruence]. Qed.

(** A kept record is not doomed. *)
Lemma kept_not_doomed a kept sid k : Walk a kept -> kept !! sid = Some k -> k ∉ dr_off <$> sa_doomed a.
Proof.
  intros HW Hk (x & -> & Hx)%list_elem_of_fmap. destruct (w_kept _ _ HW sid _ Hk) as (e & He & Hid & Hlt).
  destruct (w_doomed _ _ HW x Hx) as (_ & e' & He' & Hid' & _ & _ & k' & Hk' & Hne & _).
  pose proof (w_back _ _ _ _ HW Hlt He). assert (e' = e) as -> by congruence. rewrite Hid in Hk'. congruence.
Qed.

Lemma flush_walk a kept a' r : Walk a kept -> flush fs stream overridden marker a = (a', r) ->
  Walk a' kept /\ sa_doomed a' = [] /\ sa_visited a' = sa_visited a.
Proof.
  intros HW E. unfold flush in E. case_bool_decide as Ed; [injection E as <- <-; by rewrite Ed|].
  destruct (deleteSignalRecords _ _ _ _ _ _ _) as [s' [[[n shed] passed]|e]] eqn:Edel; injection E as <- <-; (split; [|done]).
  2: { apply deleteSignalRecords_unchanged in Edel as ->. destruct HW. split; try done; [by intros x ?%elem_of_nil|constructor]. }
  apply deleteSignalRecords_deleted in Edel as (gone & HD & _); [|apply HW|done|intros x Hx _; by apply HW|apply HW].
  destruct HD as [D1 D2 _ _ D3 D4 D5 D6 D7].
  assert (Hlt : forall st off, (off < NextOffset s0 st)%N -> (off < NextOffset (sa_store a) st)%N) by (intros st off; pose proof (w_next _ _ HW st); lia).
  split; cbn [sa_store sa_doomed]; try done.
  - rewrite D2. apply HW.
  - intros st. etrans; [apply (w_next _ _ HW)|apply D3].
  - intros name. rewrite D4. apply HW.
  - intros st off Hst Hoff. rewrite D6 by auto. rewrite decide_False by naive_solver. by apply HW.
  - intros off Hoff. rewrite D6 by auto. destruct (decide _) as [[_ Hg]|Hg]; [|by apply HW]. right. split; [done|]. split.
    + intros name pos [Hp1 Hp2]. apply (D7 off name pos Hg). split; [|done]. by rewrite (w_cursors _ _ HW).
    + apply D5 in Hg as (x & -> & Hx)%list_elem_of_fmap. destruct (w_doomed _ _ HW x Hx) as (_ & e & He & _ & Hp). by exists e.
  - intros sid k Hk. destruct (w_kept _ _ HW sid k Hk) as (e & He & Hid & Hoff). exists e. rewrite D6 by auto.
    rewrite decide_False; [done|]. intros [_ Hg%D5]. by apply (kept_not_doomed _ _ _ _ HW Hk).
  - by intros x ?%elem_of_nil.
  - constructor.
Qed.

Lemma doom_walk a kept x a' r e : Walk a kept -> doomed_rec (db (sa_store a)) stream x ->
  record_at (db s0) stream (dr_off x) = Some e -> e_SignalID e = dr_signalID x -> passed_over kept (dr_off x) e ->
  dr_off x ∉ dr_off <$> sa_doomed a -> doom fs stream overridden marker x a = (a', r) ->
  Walk a' kept /\ forall y, y ∈ sa_doomed a' -> y = x \/ y ∈ sa_doomed a.
Proof.
  intros HW Hx He Hid Hp Hnew E. unfold doom in E. cbv zeta in E. set (a1 := mkSigAcc _ _ _ _ _) in E.
  assert (HW1 : Walk a1 kept).
  { destruct HW. split; try done; cbn [a1 sa_doomed sa_store].
    - intros y Hy. apply elem_of_app in Hy as [Hy|Hy%list_elem_of_singleton]; [auto|]. subst y. split; [done|by exists e].
    - rewrite fmap_app. apply NoDup_app. split_and!; [done| |apply NoDup_singleton].
      intros y Hy Hy2%list_elem_of_singleton. by subst y. }
  destruct (_ <=? _)%N.
  - apply (flush_walk _ kept) in E as (HW' & Hd & _); [|done]. split; [done|]. rewrite Hd. by intros y ?%elem_of_nil.
  - injection E as <- <-. split; [done|]. intros y [Hy|Hy%list_elem_of_singleton]%elem_of_app; auto.
Qed.

(** A later record takes over as the value in force. *)
Lemma rekeep_walk a kept sid k ek c : Walk a kept -> (k < NextOffset s0 stream)%N ->
  record_at (db (sa_store a)) stream k = Some ek -> e_SignalID ek = sid -> (e_TS ek < c)%Z -> window sid = Some c ->
  k ∉ dr_off <$> sa_doomed a ->
  (forall k0 e0, kept !! sid = Some k0 -> record_at (db s0) stream k0 = Some e0 -> (e_TS e0 <= e_TS ek)%Z) ->
  Walk a (<[sid := k]> kept).
Proof.
  intros HW Hk Hek Hid Hc Hw Hnd Hold. pose proof (w_back _ _ _ _ HW Hk Hek) as Hek0.
  assert (Hp : forall off e, passed_over kept off e -> off <> k -> passed_over (<[sid := k]> kept) off e).
  { intros off e (H1 & H2 & k0 & Hk0 & Hne & e0 & c0 & He0 & Hid0 & Hts & Hc0 & Hw0) Hok. split; [done|]. split; [done|].
    destruct (decide (e_SignalID e = sid)) as [E|E].
    - exists k. rewrite E, lookup_insert_eq. split; [done|]. split; [congruence|]. rewrite E in Hk0. exists ek, c.
      specialize (Hold k0 e0 Hk0 He0). rewrite E. split_and!; [done|done|lia|done|done].
    - exists k0. rewrite lookup_insert_ne by congruence. split; [done|]. split; [done|]. by exists e0, c0. }
  destruct HW. split; try done.
  - intros off Hlt. destruct (w_record0 off Hlt) as [Hr|(Hr & Hu & e & He & Hpo)]; [by left|]. right. split; [done|]. split; [done|].
    exists e. split; [done|]. apply Hp; [done|]. intros ->. congruence.
  - intros sid' k' Hk'. destruct (decide (sid' = sid)) as [->|E]; [rewrite lookup_insert_eq in Hk'; injection Hk' as <-; by exists ek|].
    rewrite lookup_insert_ne in Hk' by congruence. by apply w_kept0.
  - intros x Hx. destruct (w_doomed0 x Hx) as (H1 & e & He & Hid' & Hpo). split; [done|]. exists e. split_and!; try done.
    apply Hp; [done|]. intros E. apply Hnd. rewrite <- E. by apply list_elem_of_fmap_2.
Qed.

(** What the loop over the entries of [sid] knows. *)
Record SigWalk (sid : string) (offs : list N) (cutoff : option Z) (keep : option doomedRec) (a : SigAcc) (kept : gmap string N) : Prop := {
  g_walk : Walk a kept;
  g_ne : sid <> "";
  g_offs : forall off, off ∈ offs -> exists e, record_at (db s0) stream off = Some e /\ e_SignalID e = sid;
  g_sorted : StronglySorted N.lt offs;
  g_keep : kept !! sid = dr_off <$> keep;
  g_keep_rec : forall k, keep = Some k -> doomed_rec (db (sa_store a)) stream k /\ dr_signalID k = sid /\ (dr_off k < clamp)%N
                 /\ (forall off, off ∈ offs -> (dr_off k < off)%N) /\ exists c, cutoff = Some c /\ (dr_ts k < c)%Z;
  g_cutoff : forall c, cutoff = Some c -> window sid = Some c;
  g_undecided : cutoff = None -> forall off e, record_at (db s0) stream off = Some e -> e_SignalID e = sid -> off ∈ offs;
  g_doomed : forall x off, x ∈ sa_doomed a -> dr_signalID x = sid -> off ∈ offs -> (dr_off x < off)%N;
}.

Lemma g_lt sid offs cutoff keep a kept off : SigWalk sid offs cutoff keep a kept -> off ∈ offs -> (off < NextOffset s0 stream)%N.
Proof.
  intros G Hoff. destruct (g_offs _ _ _ _ _ _ G off Hoff) as (e & He & _). unfold record_at in He.
  destruct (db s0 !! streamKey stream off) eqn:E; [|done]. apply (si_range _ _ _ _ _ (inv_stream s0 HI0 stream Hs)) in E. lia.
Qed.

(** The first record found decides the window. *)
Lemma undecided_window sid off offs keep a kept rec :
  SigWalk sid (off :: offs) None keep a kept -> record_at (db (sa_store a)) stream off = Some rec ->
  window sid = cutoff_of rule now sid (e_Topic rec).
Proof.
  intros G Hr. pose proof (w_back _ _ _ _ (g_walk _ _ _ _ _ _ G) (g_lt _ _ _ _ _ _ off G ltac:(left)) Hr) as Hr0.
  destruct (g_offs _ _ _ _ _ _ G off ltac:(left)) as (e & He & Hid). assert (e = rec) as -> by congruence.
  unfold window. rewrite (sorted_head _ (off, rec)); [done|apply sorted_filter, records_sorted| |].
  - apply list_elem_of_filter. split; [done|]. by apply elem_of_records.
  - intros [o e] [Ho He']%list_elem_of_filter. simpl in *. apply elem_of_records in He'.
    pose proof (g_undecided _ _ _ _ _ _ G eq_refl o e He' Ho) as Hin. apply elem_of_cons in Hin as [->|Hin]; [lia|].
    pose proof (g_sorted _ _ _ _ _ _ G) as Hst. inversion Hst as [|? ? _ Hf]; subst. rewrite Forall_forall in Hf. specialize (Hf o Hin). lia.
Qed.

Lemma Walk_ext a a' kept : sa_store a' = sa_store a -> sa_doomed a' = sa_doomed a -> Walk a kept -> Walk a' kept.
Proof. intros E1 E2 []. split; rewrite ?E1, ?E2; done. Qed.

Lemma SigWalk_ext sid offs cutoff keep a a' kept : sa_store a' = sa_store a -> sa_doomed a' = sa_doomed a ->
  SigWalk sid offs cutoff keep a kept -> SigWalk sid offs cutoff keep a' kept.
Proof. intros E1 E2 []. split; rewrite ?E1, ?E2; try done. by apply (Walk_ext a). Qed.

(** The walk goes on past an entry. *)
Lemma SigWalk_tail sid off offs cutoff keep a kept :
  cutoff <> None -> SigWalk sid (off :: offs) cutoff keep a kept -> SigWalk sid offs cutoff keep a kept.
Proof.
  intros Hc []. split; try done.
  - intros o Ho. apply g_offs0. by right.
  - by inversion g_sorted0.
  - intros k Hk. destruct (g_keep_rec0 k Hk) as (? & ? & ? & Hl & ?). split_and!; try done. intros o Ho. apply Hl. by right.
  - intros x o Hx Hid Ho. apply (g_doomed0 x o Hx Hid). by right.
Qed.

Lemma doomed_rec_of a kept sid off offs cutoff keep rec : SigWalk sid (off :: offs) cutoff keep a kept ->
  record_at (db (sa_store a)) stream off = Some rec ->
  doomed_rec (db (sa_store a)) stream (mkDoomed off sid (e_TS rec) (rec_size stream off rec))
  /\ record_at (db s0) stream off = Some rec /\ e_SignalID rec = sid /\ off ∉ dr_off <$> sa_doomed a.
Proof.
  intros G Hr. pose proof (w_back _ _ _ _ (g_walk _ _ _ _ _ _ G) (g_lt _ _ _ _ _ _ off G ltac:(left)) Hr) as Hr0.
  destruct (g_offs _ _ _ _ _ _ G off ltac:(left)) as (e & He & Hid). assert (e = rec) as -> by congruence.
  split_and!; [|done|done|].
  - split; [exact (g_ne _ _ _ _ _ _ G)|]. exists rec. simpl. split_and!; congruence.
  - intros (x & Ex & Hx)%list_elem_of_fmap. destruct (w_doomed _ _ (g_walk _ _ _ _ _ _ G) x Hx) as (_ & e & He' & Hid' & _).
    rewrite <- Ex in He'. assert (e = rec) as -> by congruence.
    pose proof (g_doomed _ _ _ _ _ _ G x off Hx ltac:(congruence) ltac:(left)). lia.
Qed.

(** The first candidate becomes the value in force. *)
Lemma first_keep sid off offs cutoff a kept rec c :
  SigWalk sid (off :: offs) cutoff None a kept -> record_at (db (sa_store a)) stream off = Some rec -> (off < clamp)%N ->
  window sid = Some c -> (e_TS rec < c)%Z ->
  SigWalk sid offs (Some c) (Some (mkDoomed off sid (e_TS rec) (rec_size stream off rec))) a (<[sid := off]> kept).
Proof.
  intros G Hr Hcl Hw Hts. destruct (doomed_rec_of _ _ _ _ _ _ _ _ G Hr) as (Hdr & Hr0 & Hid & Hnew).
  assert (HW : Walk a (<[sid := off]> kept)).
  { eapply (rekeep_walk a kept sid off rec c); try done; [apply G|apply (g_lt _ _ _ _ _ _ _ G); left|].
    intros k0 e0. by rewrite (g_keep _ _ _ _ _ _ G). }
  destruct G. split; try done.
  - intros o Ho. apply g_offs0. by right.
  - by inversion g_sorted0.
  - by rewrite lookup_insert_eq.
  - intros k [= <-]. split_and!; try done; [|by exists c]. intros o Ho. inversion g_sorted0 as [|? ? _ Hf]; subst.
    rewrite Forall_forall in Hf. by apply Hf.
  - by intros c' [= <-].
  - intros x o Hx Hid' Ho. apply (g_doomed0 x o Hx Hid'). by right.
Qed.

(** A further candidate: the older of the two values is doomed. *)
Lemma next_keep sid off offs c a kept rec k keep' cand' a' r :
  SigWalk sid (off :: offs) (Some c) (Some k) a kept -> record_at (db (sa_store a)) stream off = Some rec -> (off < clamp)%N ->
  (e_TS rec < c)%Z ->
  (if (dr_ts k <=? e_TS rec)%Z then (mkDoomed off sid (e_TS rec) (rec_size stream off rec), k)
   else (k, mkDoomed off sid (e_TS rec) (rec_size stream off rec))) = (keep', cand') ->
  doom fs stream overridden marker cand' a = (a', r) ->
  exists kept', (forall sid', sid' <> sid -> kept' !! sid' = kept !! sid') /\ SigWalk sid offs (Some c) (Some keep') a' kept'.
Proof.
  intros G Hr Hcl Hts Esw Edoom. destruct (doomed_rec_of _ _ _ _ _ _ _ _ G Hr) as (Hdr & Hr0 & Hid & Hnew).
  destruct (g_keep_rec _ _ _ _ _ _ G k eq_refl) as (Hk & Hkid & Hkcl & Hklt & c' & Ec & Hkc). injection Ec as <-.
  pose proof (g_cutoff _ _ _ _ _ _ G c eq_refl) as Hw. pose proof (g_keep _ _ _ _ _ _ G) as Hkept. simpl in Hkept.
  destruct Hk as (Hne & ek & Hek & Hekid & Hekts & Heksz).
  assert (Hkn : (dr_off k < NextOffset s0 stream)%N) by lia.
  pose proof (w_back _ _ _ _ (g_walk _ _ _ _ _ _ G) Hkn Hek) as Hek0. pose proof (Hklt off ltac:(left)) as Hko.
  assert (Hf : forall o, o ∈ offs -> (off < o)%N).
  { intros o Ho. pose proof (g_sorted _ _ _ _ _ _ G) as Hst. inversion Hst as [|? ? _ Hf]; subst. rewrite Forall_forall in Hf. by apply Hf. }
  assert (Fin : forall kept', Walk a' kept' -> kept' !! sid = Some (dr_off keep') -> (keep' = k \/ dr_off keep' = off) ->
     doomed_rec (db (sa_store a')) stream keep' /\ dr_signalID keep' = sid /\ (dr_off keep' < clamp)%N /\ (dr_ts keep' < c)%Z ->
     (forall y, y ∈ sa_doomed a' -> y = cand' \/ y ∈ sa_doomed a) -> (dr_off cand' = dr_off k \/ dr_off cand' = off) ->
     SigWalk sid offs (Some c) (Some keep') a' kept').
  { intros kept' HW' Hk' Hor (F1 & F2 & F3 & F4) Hd Hoff. split; try done.
    - apply G.
    - intros o Ho. apply (g_offs _ _ _ _ _ _ G). by right.
    - pose proof (g_sorted _ _ _ _ _ _ G) as Hst. by inversion Hst.
    - intros k' [= <-]. split_and!; try done; [|by exists c]. intros o Ho. specialize (Hf o Ho). destruct Hor as [-> | ->]; [lia|done].
    - by intros c' [= <-].
    - intros x o Hx Hid' Ho. specialize (Hf o Ho). destruct (Hd x Hx) as [->|Hx']; [lia|].
      pose proof (g_doomed _ _ _ _ _ _ G x off Hx' Hid' ltac:(left)). lia. }
  destruct (Z.leb_spec (dr_ts k) (e_TS rec)) as [Hle|Hgt]; injection Esw as <- <-.
  - set (kept' := <[sid := off]> kept).
    assert (HW1 : Walk a kept').
    { eapply (rekeep_walk a kept sid off rec c); try done; [apply G|apply (g_lt _ _ _ _ _ _ _ G); left|].
      intros k0 e0 Hk0 He0. rewrite Hkept in Hk0. injection Hk0 as <-. assert (e0 = ek) as -> by congruence. lia. }
    exists kept'. split; [intros; by apply lookup_insert_ne|].
    eapply (doom_walk a kept' k a' r ek) in Edoom as [HW' Hd]; try done.
    + apply (Fin kept'); [done|by apply lookup_insert_eq|by right| |done|by left]. split; [|done]. split; [exact (g_ne _ _ _ _ _ _ G)|].
      destruct (w_kept _ _ HW' sid off (lookup_insert_eq _ _ _)) as (e & He & Heid & Hlt).
      pose proof (w_back _ _ _ _ HW' Hlt He). assert (e = rec) as -> by congruence. exists rec. done.
    + split; [done|]. exists ek. done.
    + split; [done|]. split; [congruence|]. exists off. rewrite Hekid, Hkid. split; [apply lookup_insert_eq|].
      split; [lia|]. exists rec, c. rewrite Hekid, Hkid. split_and!; try done; congruence || lia.
    + by apply (kept_not_doomed a kept sid), Hkept; apply G.
  - exists kept. split; [done|]. eapply (doom_walk a kept _ a' r rec) in Edoom as [HW' Hd]; try done; [|apply G|].
    + apply (Fin kept); [done|done|by left| |done|by right]. split; [|done]. split; [done|].
      destruct (w_kept _ _ HW' sid (dr_off k) Hkept) as (e & He & Heid & Hlt).
      pose proof (w_back _ _ _ _ HW' Hlt He). assert (e = ek) as -> by congruence. by exists ek.
    + simpl. split; [done|]. split; [rewrite Hid; apply G|]. exists (dr_off k). rewrite Hid. split; [done|]. split; [lia|].
      exists ek, c. split_and!; try done; congruence || lia.
Qed.

Definition out_acc (o : SigOut) : SigAcc := match o with SigNext a | SigReturn a _ => a end.

Lemma signal_loop_walk sid offs cutoff keep a kept : SigWalk sid offs cutoff keep a kept ->
  exists kept', (forall sid', sid' <> sid -> kept' !! sid' = kept !! sid')
    /\ Walk (out_acc (signal_loop fs stream now rule clamp overridden maxVisit marker sid offs cutoff keep a)) kept'.
Proof.
  revert cutoff keep a kept. induction offs as [|off offs IH]; intros cutoff keep a kept G; cbn [signal_loop].
  { exists kept. split; [done|apply G]. }
  destruct (N.leb_spec clamp off) as [|Hcl]; [exists kept; split; [done|apply G]|].
  apply (SigWalk_ext _ _ _ _ a (visit a)) in G; [|done..]. revert G. generalize (visit a). clear a. intros a G.
  assert (Stop : forall a', sa_store a' = sa_store a -> sa_doomed a' = sa_doomed a ->
            exists kept', (forall sid', sid' <> sid -> kept' !! sid' = kept !! sid') /\ Walk a' kept').
  { intros a' E1 E2. exists kept. split; [done|]. apply (Walk_ext a); [done..|apply G]. }
  unfold readRecordMeta. pose proof (g_lt _ _ _ _ _ _ off G ltac:(left)) as Hlt.
  destruct (db (sa_store a) !! streamKey stream off) as [v|] eqn:Ev.
  2: { assert (cutoff <> None).
       { intros ->. destruct (w_record _ _ (g_walk _ _ _ _ _ _ G) off Hlt) as [Hr|(_ & _ & e & He & _ & _ & k & Hk & _)].
         - destruct (g_offs _ _ _ _ _ _ G off ltac:(left)) as (e & He & _). unfold record_at in Hr at 1. rewrite Ev in Hr. congruence.
         - destruct (g_offs _ _ _ _ _ _ G off ltac:(left)) as (e' & He' & Hid). assert (e' = e) as -> by congruence.
           rewrite Hid, (g_keep _ _ _ _ _ _ G) in Hk. destruct keep as [x|]; [|done].
           destruct (g_keep_rec _ _ _ _ _ _ G x eq_refl) as (_ & _ & _ & _ & c & ? & _). done. }
       apply (IH cutoff keep a kept). by apply SigWalk_tail in G. }
  destruct v as [rec| | | | | | |]; try (by apply Stop).
  assert (Hr : record_at (db (sa_store a)) stream off = Some rec) by (unfold record_at; by rewrite Ev).
  destruct (_ && _).
  { destruct (flush _ _ _ _ (set_resume sid a)) as [a' r] eqn:Ef. apply (flush_walk _ kept) in Ef as [HW' _]; [by exists kept|].
    apply (Walk_ext a); [done..|apply G]. }
  destruct (match cutoff with Some c => Some c | None => _ end) as [c|] eqn:Ec; [|by apply Stop].
  assert (Hw : window sid = Some c).
  { destruct cutoff as [c0|]; [injection Ec as <-; by apply G|]. rewrite <- Ec. by eapply undecided_window. }
  destruct (Z.leb_spec c (e_TS rec)) as [|Hts]; [by apply Stop|]. cbv zeta. destruct keep as [k|].
  - destruct (g_keep_rec _ _ _ _ _ _ G k eq_refl) as (_ & _ & _ & _ & c' & -> & _). injection Ec as ->.
    destruct (if (dr_ts k <=? _)%Z then _ else _) as [keep' cand'] eqn:Esw. destruct (doom _ _ _ _ cand' a) as [a' r] eqn:Ed.
    destruct (next_keep _ _ _ _ _ _ _ _ _ _ _ _ G Hr Hcl Hts Esw Ed) as (kept1 & Hsame & G').
    destruct r as [u|e]; [|exists kept1; split; [done|apply G']].
    destruct (IH _ _ _ _ G') as (kept2 & Hsame2 & HW2). exists kept2. split; [|done]. intros sid' Hne. by rewrite Hsame2, Hsame.
  - destruct (IH _ _ _ _ (first_keep _ _ _ _ _ _ _ _ G Hr Hcl Hw Hts)) as (kept2 & Hsame & HW2). exists kept2.
    split; [|done]. intros sid' Hne. rewrite Hsame by done. by apply lookup_insert_ne.
Qed.

Lemma signals_loop_walk sids a kept : Walk a kept -> NoDup sids ->
  (forall sid, sid ∈ sids -> kept !! sid = None /\ exists off, is_Some (db s0 !! sigKey stream sid off)) ->
  exists kept', Walk (fst (signals_loop fs stream now rule clamp overridden maxVisit marker (db s0) (LWM s0 stream) sids a)) kept'.
Proof.
  revert a kept. induction sids as [|sid sids IH]; intros a kept HW Hnd Hsids; cbn [signals_loop].
  { destruct (flush _ _ _ _ a) as [a' r] eqn:Ef. apply (flush_walk _ kept) in Ef as [HW' _]; [|done]. by exists kept. }
  destruct (_ && _).
  { destruct (flush _ _ _ _ _) as [a' r] eqn:Ef. apply (flush_walk _ kept) in Ef as [HW' _]; [by exists kept|]. by apply (Walk_ext a). }
  apply NoDup_cons in Hnd as [Hsid Hnd]. destruct (Hsids sid ltac:(left)) as [Hk (off0 & Hoff0)].
  pose proof (si_sig _ _ _ _ _ (inv_stream s0 HI0 stream Hs)) as Hidx.
  assert (G : SigWalk sid (sig_offsets (db s0) stream sid (LWM s0 stream)) None None (count_signal a) kept).
  { split; try done.
    - by apply (Walk_ext a).
    - by apply Hidx in Hoff0 as [? _].
    - intros off [_ Hin]%elem_of_sig_offsets. by apply Hidx in Hin as [_ ?].
    - apply sig_offsets_sorted.
    - intros _ off e He Hid. apply elem_of_sig_offsets. split; [|apply Hidx; split; [by apply Hidx in Hoff0 as [? _]|by exists e]].
      unfold record_at in He. destruct (db s0 !! streamKey stream off) eqn:E; [|done].
      by apply (si_range _ _ _ _ _ (inv_stream s0 HI0 stream Hs)) in E as [[? _] _].
    - intros x off Hx Hid _. destruct (w_doomed _ _ HW x Hx) as (_ & e & _ & Hid' & _ & _ & k & Hk' & _).
      rewrite Hid', Hid in Hk'. congruence. }
  destruct (signal_loop_walk _ _ _ _ _ _ G) as (kept' & Hsame & HW').
  destruct (signal_loop _ _ _ _ _ _ _ _ _ _ _ _ _) as [a'|a' r]; simpl in HW'; [|by exists kept'].
  apply (IH a' kept'); [done..|]. intros sid' Hsid'. destruct (Hsids sid' ltac:(by right)) as [Hn Hx]. split; [|done].
  rewrite Hsame; [done|]. by intros ->.
Qed.
End walk_inv.

(** ** Theorems *)

(** One batch of per-signal retention is exact: it removes records the walk
    doomed and nothing else, keeps every index, byte count and counter, never goes at
    or above a cursor that protects the stream or that moved since it was overridden,
    counts what it removed, and reports exactly the overridden cursors it passed. *)
Theorem deleteSignalRecords_exact f seen stream doomed overridden marker s s' n shed passed :
  Inv s -> stream ∈ streams -> (forall x, x ∈ doomed -> (LWM s stream <= dr_off x)%N -> doomed_rec (db s) stream x) ->
  NoDup (dr_off <$> doomed) ->
  deleteSignalRecords f seen stream doomed overridden marker s = (s', Ok (n, shed, passed)) ->
  Inv s' /\ exists gone, gone ⊆ dr_off <$> doomed /\ n = N.of_nat (length gone) /\ NoDup gone
    /\ (forall st off, (off < NextOffset s st)%N ->
         record_at (db s') st off = if decide (st = stream /\ off ∈ gone) then None else record_at (db s) st off)
    /\ (forall off name pos, off ∈ gone -> protects seen stream overridden name pos -> (off < pos)%N)
    /\ (forall name pos, seen !! cursorKey name stream = Some (VU64 pos) -> overridden !! name = Some pos ->
         name ∈ passed <-> exists off, off ∈ gone /\ (pos <= off)%N).
Proof.
  intros HI Hs Hd Hnd E. apply deleteSignalRecords_deleted in E as (gone & HD & Hn & Hng & Hp); [|done..].
  split; [apply HD|]. exists gone. split_and!; try done; apply HD.
Qed.

(** C29: Per-signal retention keeps the value in force: a pass over the signals leaves
    the store consistent, every other stream and every record without a signal as
    they were, and removes a record of a signal only if it is below the clamp and
    every protecting cursor, older than the window its rule gives, and outlived: the
    signal still has another record, at least as new and itself before the window.
    So a reader of the window knows the value at its start, and a signal that stopped
    changing keeps its last value. *)
Theorem PruneSignals_keeps_value fs stream from now rule clamp overridden maxVisit marker s :
  Inv s ->
  let s' := fst (fst (PruneSignals fs stream from now rule clamp overridden maxVisit marker s)) in
  Inv s'
  /\ (forall st off, st <> stream -> (off < NextOffset s st)%N -> record_at (db s') st off = record_at (db s) st off)
  /\ forall off e, record_at (db s) stream off = Some e ->
       record_at (db s') stream off = Some e
       \/ record_at (db s') stream off = None /\ e_SignalID e <> "" /\ (off < clamp)%N
          /\ (forall name pos, protects (db s) stream overridden name pos -> (off < pos)%N)
          /\ exists k ek c, k <> off /\ record_at (db s') stream k = Some ek /\ e_SignalID ek = e_SignalID e
               /\ (e_TS e <= e_TS ek < c)%Z /\ window stream now rule s (e_SignalID e) = Some c.
Proof.
  intros HI. cbv zeta. unfold PruneSignals. cbv zeta. fold (NextOffset s stream) (LWM s stream).
  case_bool_decide as Hn; [split_and!; auto|]. destruct (N.leb_spec (N.min clamp (NextOffset s stream)) (LWM s stream)); [split_and!; auto|].
  assert (Hs : stream ∈ streams) by (destruct (decide (stream ∈ streams)) as [|Hno]; [done|by apply (inv_unknown s HI) in Hno]).
  set (cl := N.min clamp (NextOffset s stream)) in *. assert (Hcl : (cl <= NextOffset s stream)%N) by (unfold cl; lia).
  assert (HW : Walk stream now rule cl overridden s (mkSigAcc s (mkSignalPruneResult 0 0 0 "" []) [] 0 0) ∅).
  { split; cbn [sa_store sa_doomed]; try done; [by left|by intros x ?%elem_of_nil|constructor]. }
  destruct (signals_loop_walk fs stream now rule cl overridden maxVisit marker s HI Hs Hcl (sig_ids (db s) stream from) _ _ HW) as [kept HW'].
  { apply sig_ids_nodup. }
  { intros sid Hsid. split; [done|]. by apply (elem_of_sig_ids _ _ from). }
  destruct (signals_loop _ _ _ _ _ _ _ _ _ _ _ _) as [a r]. cbn [fst] in *.
  split_and!; [apply HW'|by intros; apply (w_other _ _ _ _ _ _ _ _ HW')|].
  intros off e He. assert (Hlt : (off < NextOffset s stream)%N).
  { unfold record_at in He. destruct (db s !! streamKey stream off) eqn:Ev; [|done].
    apply (si_range _ _ _ _ _ (inv_stream s HI stream Hs)) in Ev. lia. }
  destruct (w_record _ _ _ _ _ _ _ _ HW' off Hlt) as [Hr|(Hr & Hu & e' & He' & Hc & Hne & k & Hk & Hko & ek & c & Hek & Hid & Hts & Hc' & Hw)];
    [left; congruence|]. right. assert (e' = e) as -> by congruence. split_and!; try done; [unfold cl in Hc; lia|].
  destruct (w_kept _ _ _ _ _ _ _ _ HW' _ _ Hk) as (ek' & Hek' & _ & Hkn).
  assert (ek' = ek) as -> by (apply (w_back _ _ _ _ _ _ _ _ _ _ HW' Hkn) in Hek'; congruence).
  exists k, ek, c. split_and!; done.
Qed.
End signals.

(** ** Examples *)

Section examples.
#[local] Existing Instance demo_codec.

Definition demo_sample (ts : Z) : Rec := mkRec false "colca/v1/_Metric/n/a" "sig" ts "w" 0 "" "" "" [] "" "" [] "" "" "a" "n" false.

(** Four samples of one signal, the third late; times in milliseconds. *)
Definition demo_signals : Store :=
  put_records "metrics" [demo_sample 10; demo_sample 30; demo_sample 20; demo_sample 100] demo_store.

Lemma demo_signals_inv : Inv demo_signals.
Proof. apply put_records_inv; [tag_in|exact demo_store_inv]. Qed.

Definition demo_rule : SignalRule := fun _ _ => Some 50000000%Z.

(** Keeps the sample at 30, in force when the window opens, and the window. *)
Lemma PruneSignals_keeps_value_witness :
  let s' := fst (fst (PruneSignals (fun _ => no_faults) "metrics" "" 110 demo_rule 9 ∅ 0 None demo_signals)) in
  Inv s' /\ (e_TS ∘ snd <$> records (db s') "metrics") = [30; 100]%Z
  /\ exists ek, record_at (db s') "metrics" 2 = Some ek /\ e_TS ek = 30%Z.
Proof.
  split; [|split; [vm_compute; reflexivity|eexists; split; vm_compute; reflexivity]].
  exact (proj1 (PruneSignals_keeps_value (fun _ => no_faults) "metrics" "" 110 demo_rule 9 ∅ 0 None demo_signals demo_signals_inv)).
Defined.

Definition demo_doomed : list doomedRec := [mkDoomed 1 "sig" 10 (rec_size "metrics" 1 (encode_rec 1 (demo_sample 10)))].

Lemma deleteSignalRecords_exact_witness :
  let s' := fst (deleteSignalRecords no_faults (db demo_signals) "metrics" demo_doomed ∅ None demo_signals) in
  Inv s' /\ length (records (db s') "metrics") = 3.
Proof.
  cbv zeta. split; [|vm_compute; reflexivity].
  destruct (deleteSignalRecords no_faults (db demo_signals) "metrics" demo_doomed ∅ None demo_signals) as [s' r] eqn:E.
  assert (exists n shed passed, r = Ok (n, shed, passed)) as (n & shed & passed & ->).
  { apply (f_equal snd) in E. vm_compute in E. subst r. do 3 eexists. reflexivity. }
  refine (proj1 (deleteSignalRecords_exact no_faults (db demo_signals) "metrics" demo_doomed ∅ None demo_signals s' n shed passed
                   demo_signals_inv _ _ _ E)).
  - tag_in.
  - intros x Hx _. apply list_elem_of_singleton in Hx as ->. split; [discriminate|]. eexists. split_and!; vm_compute; reflexivity.
  - apply NoDup_singleton.
Defined.
End examples.
