(* ===== verification/StoreOps.v ===== *)
(** * The store: every run

    The operations of the store as steps of one machine. What a pruner reads
    before it takes the mutex comes from an earlier store of the same run, so the
    machine keeps the history since the process started: a removal names the
    stores it read. Every store of every run satisfies [Inv], and a run never
    rewrites a record it does not say it removed ([later]). *)

From S2P Require Export Signals.

Open Scope string_scope.
Open Scope list_scope.
Open Scope go_scope.

Section ops.
Context `{Codec}.

(** ** Evicting current state *)

Definition kv_del (e : string * string * string) : Batch :=
  let '(path, node, topic) := e in
  BDelete (kvKey path node topic) :: match kvIndexKey path node topic with Some ik => [BDelete ik] | None => [] end.

Lemma delete_entries_Ok f entries b b' : delete_entries f entries b = Ok b' -> b' = b ++ (entries ≫= kv_del).
Proof.
  revert b; induction entries as [|[[path node] topic] entries IH]; intros b E; cbn [delete_entries] in E.
  { injection E as <-. by rewrite app_nil_r. }
  unfold deleteKV in E. destruct (bdelete f (kvKey path node topic) b) as [b1|] eqn:B1; [|done]. apply bdelete_Ok in B1 as ->.
  rewrite bind_cons. unfold kv_del at 1. destruct (kvIndexKey path node topic) as [ik|].
  - destruct (bdelete f ik _) as [b2|] eqn:B2; [|done]. apply bdelete_Ok in B2 as ->. apply IH in E as ->. by rewrite <- !app_assoc.
  - apply IH in E as ->. by rewrite <- app_assoc.
Qed.

Lemma kv_del_deletes entries : exists keys, (entries ≫= kv_del) = BDelete <$> keys
  /\ forall k, k ∈ keys <-> exists path node topic, (path, node, topic) ∈ entries
       /\ (k = kvKey path node topic \/ kvIndexKey path node topic = Some k).
Proof.
  induction entries as [|[[path node] topic] entries (keys & IH & Hk)].
  { exists []. split; [done|]. intros k. rewrite elem_of_nil. split; [done|]. by intros (? & ? & ? & ?%elem_of_nil & _). }
  exists (kvKey path node topic :: match kvIndexKey path node topic with Some ik => [ik] | None => [] end ++ keys). split.
  - rewrite bind_cons, IH. unfold kv_del at 1. destruct (kvIndexKey path node topic); done.
  - intros k. rewrite elem_of_cons, elem_of_app, Hk. setoid_rewrite elem_of_cons.
    assert (k ∈ match kvIndexKey path node topic with Some ik => [ik] | None => [] end <-> kvIndexKey path node topic = Some k) as ->.
    { destruct (kvIndexKey path node topic); rewrite ?list_elem_of_singleton, ?elem_of_nil; naive_solver. }
    naive_solver.
Qed.

Lemma elem_of_doomed doomed d path node topic :
  (path, node, topic) ∈ omap (doomed_entry doomed) (map_to_list d) <-> is_Some (d !! kvKey path node topic) /\ doomed topic = true.
Proof.
  rewrite list_elem_of_omap. split.
  - intros ([k v] & Hkv%elem_of_map_to_list & E). unfold doomed_entry in E; simpl in E.
    destruct k as [[|t [|p [|n [|tp []]]]] [o|]]; simpl in E; try done. destruct (_ && _) eqn:Eb; [|done].
    injection E as -> -> ->. apply andb_true_iff in Eb as [E1%bool_decide_eq_true E2]. subst t. split; [by exists v|done].
  - intros [[v Hv] Hd]. exists (kvKey path node topic, v). split; [by apply elem_of_map_to_list|].
    unfold doomed_entry; simpl. by rewrite Hd.
Qed.

Lemma EvictKV_eq f d1 doomed s s' r :
  EvictKV f d1 doomed s = (s', r) ->
  match r with
  | Err _ => s' = s
  | Ok _ => exists d, s' = set_db d s
      /\ (forall path node topic, d !! kvKey path node topic
            = if decide (is_Some (d1 !! kvKey path node topic) /\ doomed topic = true) then None else db s !! kvKey path node topic)
      /\ (forall path node topic ik, kvIndexKey path node topic = Some ik -> d !! ik
            = if decide (is_Some (d1 !! kvKey path node topic) /\ doomed topic = true) then None else db s !! ik)
      /\ forall k, tag k ∉ ["k"; "x"] -> d !! k = db s !! k
  end.
Proof.
  unfold EvictKV. cbv zeta. set (entries := omap _ _). case_bool_decide as Ee.
  { intros [= <- <-]. exists (db s). split; [by destruct s|].
    assert (Hno : forall path node topic, ~ (is_Some (d1 !! kvKey path node topic) /\ doomed topic = true)).
    { intros path node topic Hd%elem_of_doomed. fold entries in Hd. rewrite Ee in Hd. by apply elem_of_nil in Hd. }
    split; [intros; by rewrite decide_False by apply Hno|]. split; [intros; by rewrite decide_False by apply Hno|done]. }
  destruct (delete_entries f entries []) as [b|] eqn:Eb; [|by intros [= <- <-]].
  apply delete_entries_Ok in Eb as ->. unfold commit. destruct (apply_fails f); intros [= <- <-]; [done|].
  destruct (kv_del_deletes entries) as (keys & -> & Hk). eexists. split; [done|]. cbn [app].
  split; [|split]; [intros path node topic|intros path node topic ik Hik|intros k Hnk]; rewrite lookup_apply_batch, deletes_at.
  - apply decide_ext. rewrite Hk, <- elem_of_doomed. fold entries. split; [|naive_solver].
    intros (p & n & t & Hin & [[= -> -> ->]|Ht%kvIndexKey_tag]); done.
  - apply decide_ext. rewrite Hk, <- elem_of_doomed. fold entries. split; [|naive_solver].
    intros (p & n & t & Hin & [->|Hik']); [by apply kvIndexKey_tag in Hik|].
    by destruct (kvIndexKey_inj _ _ _ _ _ _ _ Hik Hik') as (-> & -> & ->).
  - apply decide_False. rewrite Hk. intros (p & n & t & _ & [->|Ht%kvIndexKey_tag]); apply Hnk; [tag_in|rewrite Ht; tag_in].
Qed.

Lemma EvictKV_inv f d1 doomed s : Inv s -> Inv (fst (EvictKV f d1 doomed s)).
Proof.
  intros HI. destruct (EvictKV f d1 doomed s) as [s' r] eqn:E. apply EvictKV_eq in E. cbn [fst]. destruct r; [|by subst].
  destruct E as (d & -> & Hkv & Hix & Hd). destruct HI as [I1 I2 I3 I3' I4 I5 I6 I7].
  assert (Hs : same_tags ["s"; "si"; "ti"; "m"; "ix"; "l"; "b"; "j"; "h"; "u"; "i"; "rp"] (db s) d).
  { intros k Hk. apply Hd. by apply (tags_disjoint ["s"; "si"; "ti"; "m"; "ix"; "l"; "b"; "j"; "h"; "u"; "i"; "rp"]). }
  assert (Hk : forall k, tag k ∈ ["s"; "si"; "ti"; "m"; "ix"; "l"; "b"; "j"; "h"; "u"; "i"; "rp"] -> d !! k = db s !! k) by done.
  split; store_simpl.
  - intros st Hst. apply (StreamInv_frame (db s)); [|by apply I1]. eapply same_tags_incl; [|exact Hs]. tag_in.
  - intros st Hst. destruct (I2 st Hst). split; store_simpl; [done|..]; (erewrite readCounter_frame; [done|]); apply Hk; tag_in.
  - done.
  - done.
  - destruct I4 as [K1 K2]. assert (Hr : forall st off, record_at d st off = record_at (db s) st off).
    { apply record_at_frame. eapply same_tags_incl; [|exact Hs]. tag_in. }
    split.
    + intros path node topic v. rewrite Hkv. case_decide; [done|]. intros Hv. destruct (K1 _ _ _ _ Hv) as (e & -> & He).
      exists e. split; [done|]. unfold kv_ok in *. by setoid_rewrite Hr.
    + intros path node topic ik Hik. rewrite Hkv, (Hix _ _ _ _ Hik). case_decide; [split; intros []; done|]. by apply K2.
  - intros st Hst. apply (JournalInv_frame (db s)); [|by apply I5]. eapply same_tags_incl; [|exact Hs]. tag_in.
  - intros st v Hst. rewrite Hk by tag_in. by apply I6.
  - apply (CacheInv_frame s); [|done..]. eapply same_tags_incl; [|exact Hs]. tag_in.
Qed.

(** ** What time does to a store *)

(** [s'] comes after [s] in one process: marks, hole counts and heads only grow,
    no offset is written twice, and a stream whose hole count did not move still has
    every record at or above its mark. *)
Definition later (s s' : Store) : Prop := forall stream,
  (LWM s stream <= LWM s' stream)%N /\ (at_ (holes s) stream <= at_ (holes s') stream)%N
  /\ (NextOffset s stream <= NextOffset s' stream)%N
  /\ (at_ (holes s) stream = at_ (holes s') stream ->
      forall off, (LWM s' stream <= off < NextOffset s stream)%N -> record_at (db s') stream off = record_at (db s) stream off)
  /\ (forall off e, (off < NextOffset s stream)%N -> record_at (db s') stream off = Some e -> record_at (db s) stream off = Some e).

#[global] Instance later_preorder : PreOrder later.
Proof.
  split.
  - intros s stream. split_and!; try lia; done.
  - intros s1 s2 s3 H12 H23 stream. destruct (H12 stream) as (A1 & A2 & A3 & A4 & A5), (H23 stream) as (B1 & B2 & B3 & B4 & B5).
    split_and!; try lia.
    + intros Eh off Hoff. rewrite B4 by lia. apply A4; lia.
    + intros off e Hoff He. apply A5; [done|]. apply B5; [lia|done].
Qed.

Lemma later_frame s s' :
  lwm s' = lwm s -> next s' = next s -> holes s' = holes s -> same_tags ["s"] (db s) (db s') -> later s s'.
Proof.
  intros Hl Hn Hh Hd stream. unfold LWM, NextOffset. rewrite Hl, Hn, Hh. split_and!; try lia.
  - intros _ off _. by apply record_at_frame.
  - intros off e _. by rewrite (record_at_frame (db s)).
Qed.

Lemma later_put stream recs s : later s (put_records stream recs s).
Proof.
  revert s; induction recs as [|rec recs IH]; intros s; [done|].
  change (put_records stream (rec :: recs) s) with (put_records stream recs (put_record stream s rec)).
  etrans; [|apply IH]. intros st. rewrite put_lwm. split; [done|]. split; [done|]. split.
  - rewrite put_next. case_decide; [subst|]; lia.
  - assert (Hr : forall off, (off < NextOffset s st)%N -> record_at (db (put_record stream s rec)) st off = record_at (db s) st off).
    { intros off Hoff. rewrite record_at_put. rewrite decide_False; [done|]. intros [-> ->]. lia. }
    split; [intros _ off []; auto|]. intros off e Hoff. by rewrite Hr.
Qed.

Lemma later_commitAppendBatch f group s : nonempty group -> Inv s -> later s (fst (commitAppendBatch f group s)).
Proof.
  intros Hne HI. pose proof (policies_ok_of_inv s HI) as Hok.
  destruct (commitAppendBatch f group s) as [s' results] eqn:E. cbn [fst].
  destruct (commitAppendBatch_eq f group s s' results Hok Hne E) as (ps & acc & El & Hps & HA & Hc).
  destruct Hc as [[-> _]|(ps' & -> & Hps' & _)]; [|by apply later_frame].
  destruct (append_loop_eq (later s) group empty_acc s) as (ps2 & acc2 & El2 & _ & _ & HV); try done.
  - intros stream recs v _ Hv. etrans; [exact Hv|apply later_put].
  - apply empty_acc_inv.
  - rewrite El in El2. injection El2 as E1 <-. by rewrite <- E1 in HV.
Qed.

Lemma commit_appends_run fuel fs group s : nonempty group -> Inv s ->
  Inv (fst (commit_appends fuel fs group s)) /\ later s (fst (commit_appends fuel fs group s)).
Proof.
  revert fs group s; induction fuel as [|fuel IH]; intros fs group s Hne HI; [done|].
  cbn [commit_appends]. destruct group as [|r group]; [done|].
  destruct (take_batch false (r :: group)) as [batch rest] eqn:Et.
  assert (Hsplit : r :: group = batch ++ rest) by (by apply take_batch_app in Et). rewrite Hsplit in Hne. apply Forall_app in Hne as [Hb Hr].
  pose proof (commitAppendBatch_inv (fs 0) batch s Hb HI) as HI1. pose proof (later_commitAppendBatch (fs 0) batch s Hb HI) as HL1.
  destruct (commitAppendBatch (fs 0) batch s) as [s1 r1]. cbn [fst] in HI1, HL1.
  destruct (IH (fun n => fs (S n)) rest s1 Hr HI1) as [HI2 HL2]. destruct (commit_appends fuel _ rest s1) as [s2 r2]. cbn [fst] in *.
  split; [done|]. by etrans.
Qed.

Lemma later_appendLocked f now stream recs adv s : recs <> [] -> Inv s -> later s (fst (appendAdvancingLocked f now stream recs adv s)).
Proof.
  intros Hne HI. destruct (appendAdvancingLocked f now stream recs adv s) as [s' r] eqn:E. cbn [fst].
  apply appendAdvancingLocked_eq in E as (ps & Hps & Hr); [|by apply policies_ok_of_inv|done].
  destruct r as [[first last]|e]; [|subst; by apply later_frame].
  destruct Hr as (lo & _ & Hk & _ & _ & ->). unfold append_outcome.
  etrans; [apply (later_frame s (set_policies ps s)); done|]. etrans; [apply (later_put stream (decided recs lo))|].
  apply later_frame; [done..|]. store_simpl. intros k Hk'. rewrite lookup_apply_batch. apply batch_at_untouched.
  destruct adv as [adv|]; simpl; [|constructor].
  repeat constructor; apply bool_decide_eq_false_2; intros <-; revert Hk'; tag_in.
Qed.

Lemma later_repl_each f group s : later s (fst (repl_each f group s)).
Proof.
  revert s; induction group as [|r group IH]; intros s; [done|]. cbn [repl_each].
  assert (HL : later s (fst (repl_outcome f r s))).
  { unfold repl_outcome. cbv zeta. repeat case_match; try done. cbn [fst]. unfold repl_effect.
    etrans; [apply (later_put (rq_stream r))|]. apply later_frame; [done..|]. intros k Hk. unfold put_mark. store_simpl.
    rewrite lookup_insert_ne; [done|]. intros <-. revert Hk. tag_in. }
  destruct (repl_outcome f r s) as [s1 x]. cbn [fst] in HL. specialize (IH s1). destruct (repl_each f group s1) as [s2 xs].
  cbn [fst] in *. by etrans.
Qed.

Lemma later_no_cache s s1 s2 : later s s1 -> no_cache s2 = no_cache s1 -> later s s2.
Proof.
  intros HL E. etrans; [exact HL|]. unfold no_cache, forget, set_hwms, set_policies in E.
  cbn [db next lwm bytes holes adopted hwms policies id idMinted maxRecordBytes] in E.
  injection E as E1 E2 E3 E4 E5 E6 E7 E8. apply later_frame; [done..|]. intros k _. by rewrite E1.
Qed.

Lemma later_commitReplicated f group s : Inv s -> later s (fst (commitReplicated f group s)).
Proof.
  intros HI. destruct (commitReplicated_eq f group s HI) as [_ [[E _]|[E _]]].
  - by apply (later_no_cache s (fst (repl_each f group s))); [apply later_repl_each|].
  - by apply (later_no_cache s s).
Qed.

Lemma later_AdoptChildStore f child i s : later s (fst (AdoptChildStore f child i s)).
Proof.
  destruct (AdoptChildStore f child i s) as [s' r] eqn:E. cbn [fst].
  destruct (AdoptChildStore_cases _ _ _ _ _ _ E) as [(e & _ & ->)|[(_ & -> & _)|[(_ & -> & _)|(reset & prev & _ & _ & _ & _ & _ & Hd)]]];
    [done|done|by apply later_frame|]. cbv zeta in Hd.
  assert (Hk : forall k, tag k ∈ ["s"] -> apply_batch ((if reset then [BDeleteRange (HwmRange child)] else [])
      ++ [BSet (childStoreKey child) (VBytes i)]) (db s) !! k = db s !! k).
  { intros k Hk. apply list_elem_of_singleton in Hk. rewrite lookup_apply_batch. apply batch_at_untouched. apply Forall_app. split.
    - destruct reset; repeat constructor. cbn [touches]. destruct k as [[|t [|a [|b []]]] [o|]]; try done. simpl. unfold tag in Hk. simpl in Hk.
      subst t. done.
    - repeat constructor. apply untouched_set. by rewrite Hk. }
  rewrite Hd. destruct reset; apply later_frame; done.
Qed.

(** ** Removals *)

Lemma later_pruned stream lo upTo stats r s : (lo < upTo <= NextOffset s stream)%N -> LWM s stream = lo -> stats_ok (db s) stream lo upTo stats ->
  later s (pruned stream lo upTo stats r s).
Proof.
  intros Hlt Hl Hst st. rewrite pruned_lwm. change (NextOffset (pruned stream lo upTo stats r s) st) with (NextOffset s st).
  change (holes (pruned stream lo upTo stats r s)) with (holes s).
  assert (Hr : forall off, record_at (db (pruned stream lo upTo stats r s)) st off
    = if decide (st = stream /\ (lo <= off < upTo)%N) then None else record_at (db s) st off).
  { intros off. unfold record_at. rewrite pruned_stream by done. by case_decide. }
  split_and!; [destruct (decide (st = stream)) as [->|]; lia|lia|lia|..].
  - intros _ off Ho. rewrite Hr, decide_False; [done|]. intros [-> ?]. rewrite decide_True in Ho by done. lia.
  - intros off e _. rewrite Hr. by destruct (decide (_ /\ _)).
Qed.

Lemma later_PruneScanned f seen overridden plan scan s :
  Inv s -> sc_stream scan ∈ streams -> scan_valid scan s -> plan_ok plan ->
  later s (fst (PruneScanned f seen overridden plan scan s)).
Proof.
  intros HI Hs Hscan Hplan. destruct (PruneScanned f seen overridden plan scan s) as [s' [n|e]] eqn:E; cbn [fst].
  2: by apply PruneScanned_unchanged in E as ->.
  destruct (PruneScanned_outcome _ _ _ _ _ _ HI Hs Hscan Hplan _ _ E) as [[-> _]|(stats & Hst & _ & Hu & -> & _)]; [done|].
  etrans; [|apply later_put]. by apply later_pruned.
Qed.

(** Removing scattered records raises the stream's hole count. *)
Lemma later_holes stream s s' :
  lwm s' = lwm s -> next s' = next s -> holes s' = <[stream := (at_ (holes s) stream + 1)%N]> (holes s) ->
  (forall st off, st <> stream -> record_at (db s') st off = record_at (db s) st off) ->
  (forall off e, record_at (db s') stream off = Some e -> record_at (db s) stream off = Some e) -> later s s'.
Proof.
  intros Hl Hn Hh Hother Hsub st. unfold LWM, NextOffset. rewrite Hl, Hn, Hh. destruct (decide (st = stream)) as [->|Hne].
  - rewrite at_insert_eq. split_and!; try lia. intros off e _. apply Hsub.
  - rewrite at_insert_ne by done. split_and!; try lia; [intros _ off _; by apply Hother|intros off e _; by rewrite Hother].
Qed.

Lemma commit_removal_later f stream (removed : list (N * recEnc)) keys shed s s' n :
  (forall k, k ∈ keys <-> exists x, x ∈ removed /\ k ∈ removal_keys stream x) ->
  commit_removal f stream shed (BDelete <$> keys) s = Ok (s', n) -> later s s'.
Proof.
  intros Hkeys Hc. apply commit_removal_Ok in Hc as [_ Hs'].
  assert (Hr : forall st off, record_at (db s') st off = if decide (st = stream /\ gone removed off) then None else record_at (db s) st off).
  { intros. by apply (removal_record stream removed keys s Hkeys _ s' Hs'). }
  apply (later_holes stream); [by rewrite Hs'..| |].
  - intros st off Hne. rewrite Hr. apply decide_False. naive_solver.
  - intros off e. rewrite Hr. by case_decide.
Qed.

Lemma later_Compact f s0 d1 seen stream s : later s (fst (Compact f s0 d1 seen stream s)).
Proof.
  unfold Compact. cbv zeta. destruct (_ == 0%N); [done|]. destruct (_ == []); [done|]. destruct (_ || _); [done|].
  destruct (compact_loop _ _ _ _ _ _ _ _) as [[[st shed] b]|] eqn:El; [|done]. destruct (_ && _); [done|].
  apply compact_loop_Ok in El as (_ & -> & _). cbn [app]. set (out := compacted _ _ _).
  destruct (commit_removal _ _ _ _ _) as [[s' n]|] eqn:Ec; [|done]. cbn [fst].
  apply (commit_removal_later f stream out _ _ s s' n) in Ec; [done|]. intros k. rewrite list_elem_of_bind. naive_solver.
Qed.

Lemma later_EvictRecords f s0 d1 stream from maxScan doomed s : later s (fst (EvictRecords f s0 d1 stream from maxScan doomed s)).
Proof.
  unfold EvictRecords. cbv zeta. destruct (_ == 0%N); [done|]. destruct (maxScan == 0%N); [done|]. destruct (_ <=? _)%N; [done|].
  destruct (evict_scan _ _ _ _ _) as [out stop]. destruct (out == []); [done|]. destruct (_ != _); [done|].
  destruct (delete_all f _ []) as [b|] eqn:Eb; [|done]. apply delete_all_Ok in Eb as ->. cbn [app].
  destruct (commit_removal _ _ _ _ _) as [[s' n]|] eqn:Ec; [|done]. cbn [fst].
  apply (commit_removal_later f stream out _ _ s s' n) in Ec; [done|]. apply evict_keys_iff.
Qed.

(** ** The machine *)

(** One operation that reads and writes under its lock. An append of no records
    returns before it is queued. *)
Inductive atomic (s : Store) : Store -> Prop :=
| op_append fs group : nonempty group -> atomic s (fst (commitAppends fs group s))
| op_advance f now stream recs adv : atomic s (fst (AppendAdvancing f now stream recs adv s))
| op_if_unchanged f stream rec off : atomic s (fst (AppendIfKVUnchanged f stream rec off s))
| op_move f stream moves by_ : atomic s (fst (MoveRetained f stream moves by_ s))
| op_replicate f group : atomic s (fst (commitReplicated f group s))
| op_adopt f child i : atomic s (fst (AdoptChildStore f child i s))
| op_hwm child stream : atomic s (fst (HWMGet child stream s))
| op_ack f now group : atomic s (fst (commitAcks f now group s))
| op_set_if_absent f now name stream off : atomic s (fst (CursorSetIfAbsent f now name stream off s))
| op_delete f name stream : atomic s (fst (CursorDelete f name stream s))
| op_mark_seen f name stream ts : atomic s (CursorMarkSeen f name stream ts s)
| op_parent_state f parent state : atomic s (fst (SetParentState f parent state s))
| op_resync f now parent state cursors marks : atomic s (fst (ResyncParent f now parent state cursors marks s))
| op_reincarnate f mint now onlyFrom reason : atomic s (fst (reincarnate f mint now onlyFrom reason s))
| op_clear_refresh f stream : atomic s (fst (ClearRefreshPending f stream s))
| op_evict_kv f d1 doomed : atomic s (fst (EvictKV f d1 doomed s))
| op_max_record limit : atomic s (SetMaxRecordBytes limit s).

(** A removal reads the counters of one earlier store, scans a later one, looks at
    the cursors of a later one still and commits on the newest. *)
Definition earlier (hist : list Store) (s0 s1 : Store) : Prop :=
  exists i j, hist !! i = Some s1 /\ hist !! j = Some s0 /\ i <= j.

(** The stores of one process, newest first. A restart keeps the disk. An eviction
    pass and a pass over signals do not watch for other scattered removals: they all
    run in the one pruner, one at a time. A pass over signals is the batches it
    commits, each of records it read since the last removal. *)
Inductive run : list Store -> Prop :=
| run_fresh mint : run [fresh mint]
| run_restart f mint s hist s' : run (s :: hist) -> Open f mint (db s) = Ok s' -> run [s']
| run_op s hist s' : run (s :: hist) -> atomic s s' -> run (s' :: s :: hist)
| run_prune f s0 s1 sc stream upTo overridden plan s hist :
    run (s :: hist) -> earlier (s :: hist) s0 s1 -> earlier (s :: hist) s1 sc -> plan_ok plan ->
    run (fst (Prune f s0 (db s1) (db sc) stream upTo overridden plan s) :: s :: hist)
| run_policy_prune f sl s0 s1 sc stream now p overridden plan s hist :
    run (s :: hist) -> earlier (s :: hist) sl s0 -> earlier (s :: hist) s0 s1 -> earlier (s :: hist) s1 sc -> plan_ok plan ->
    run (fst (PruneScanned f (db sc) overridden plan
                (fst (fst (PolicyPruneScan s0 (db s1) stream (LWM sl stream) (NextOffset sl stream) now p))) s) :: s :: hist)
| run_compact f s0 s1 sc stream s hist :
    run (s :: hist) -> earlier (s :: hist) s0 s1 -> earlier (s :: hist) s1 sc ->
    run (fst (Compact f s0 (db s1) (db sc) stream s) :: s :: hist)
| run_evict f s0 s1 stream from maxScan doomed s hist :
    run (s :: hist) -> earlier (s :: hist) s0 s1 -> at_ (holes s) stream = at_ (holes s0) stream ->
    run (fst (EvictRecords f s0 (db s1) stream from maxScan doomed s) :: s :: hist)
| run_signals f s1 sc stream doomed overridden marker s hist :
    run (s :: hist) -> earlier (s :: hist) s1 sc -> at_ (holes s) stream = at_ (holes s1) stream ->
    stream ∈ streams -> (forall x, x ∈ doomed -> doomed_rec (db s1) stream x) -> NoDup (dr_off <$> doomed) ->
    run (fst (deleteSignalRecords f (db sc) stream doomed overridden marker s) :: s :: hist).

Lemma ClearRefreshPending_inv f stream s : Inv s -> Inv (fst (ClearRefreshPending f stream s)).
Proof.
  intros HI. unfold ClearRefreshPending. destruct (apply_fails f); [done|]. cbn [fst].
  destruct HI as [I1 I2 I3 I3' I4 I5 I6 I7].
  assert (Hk : forall k, k <> rpKey stream -> delete (rpKey stream) (db s) !! k = db s !! k) by (intros; by apply lookup_delete_ne).
  assert (Hd : same_tags ("i" :: filter (fun t => t <> "rp") inv_tags) (db s) (delete (rpKey stream) (db s))).
  { intros k Hin. apply Hk. intros ->. revert Hin. tag_in. }
  assert (Hk' : forall k, tag k ∈ "i" :: filter (fun t => t <> "rp") inv_tags -> delete (rpKey stream) (db s) !! k = db s !! k) by done.
  split; store_simpl; try done.
  - intros st Hst. apply (StreamInv_frame (db s)); [|by apply I1]. eapply same_tags_incl; [|exact Hd]. tag_in.
  - intros st Hst. destruct (I2 st Hst). split; store_simpl; [done|..]; (erewrite readCounter_frame; [done|]); apply Hk'; tag_in.
  - apply (KVInv_frame (db s)); [|done]. eapply same_tags_incl; [|exact Hd]. tag_in.
  - intros st Hst. apply (JournalInv_frame (db s)); [|by apply I5]. eapply same_tags_incl; [|exact Hd]. tag_in.
  - intros st v Hst. rewrite lookup_delete. case_decide; [done|]. by apply I6.
  - apply (CacheInv_frame s); [|done..]. eapply same_tags_incl; [|exact Hd]. tag_in.
Qed.

Lemma HWMGet_inv child stream s : Inv s -> Inv (fst (HWMGet child stream s)).
Proof.
  intros HI. unfold HWMGet. destruct (hwms s !! (child, stream)) eqn:E; [done|]. cbn [fst].
  destruct HI as [I1 I2 I3 I3' I4 I5 I6 [C1 C2 C3 C4]]. split; try done.
  - intros st Hst. by destruct (I2 st Hst).
  - split; try done. store_simpl. intros c st n. rewrite lookup_insert. case_decide as Ec; [|apply C1].
    injection Ec as -> ->. by intros [= <-].
Qed.

(** Any append of a locked caller. *)
Lemma locked_append f now stream recs adv s : recs <> [] -> Inv s ->
  Inv (fst (appendAdvancingLocked f now stream recs adv s)) /\ later s (fst (appendAdvancingLocked f now stream recs adv s)).
Proof. intros Hne HI. split; [by apply appendLocked_inv|by apply later_appendLocked]. Qed.

Lemma cursor_only_sound s s' : cursor_only s s' -> Inv s -> Inv s' /\ later s s'.
Proof.
  intros Hc HI. split; [by apply (cursor_only_inv s)|]. destruct Hc as (d & -> & Hd). apply later_frame; [done..|].
  intros k Hk. store_simpl. apply Hd. by apply (tags_disjoint ["s"]).
Qed.

Lemma atomic_sound s s' : Inv s -> atomic s s' -> Inv s' /\ later s s'.
Proof.
  intros HI Ha. destruct Ha.
  - by apply commit_appends_run.
  - unfold AppendAdvancing. case_bool_decide; [done|]. destruct (_ <=? _)%N; [done|].
    destruct (locked_append f now stream recs (Some adv) s) as [H1 H2]; [done..|]. by destruct (appendAdvancingLocked _ _ _ _ _ _) as [? []].
  - unfold AppendIfKVUnchanged, appendLocked. case_bool_decide; [done|]. destruct (kvOffsets _ _ _ _) as [[cur origin]|]; [|done].
    destruct (cur != off); [done|]. destruct (locked_append f 0 stream [with_origin origin rec] None s) as [H1 H2]; [done..|].
    by destruct (appendAdvancingLocked _ _ _ _ _ _) as [? [[]|]].
  - unfold MoveRetained, appendLocked. cbv zeta. case_bool_decide; [done|].
    destruct (locked_append f 0 stream (mjoin (move_records (db s) by_ <$> moves)) None s) as [H1 H2]; [done..|].
    by destruct (appendAdvancingLocked _ _ _ _ _ _) as [? [[]|]].
  - split; [by apply commitReplicated_inv|by apply later_commitReplicated].
  - split; [by apply AdoptChildStore_inv|apply later_AdoptChildStore].
  - split; [by apply HWMGet_inv|]. unfold HWMGet. by destruct (hwms s !! _).
  - apply cursor_only_sound; [apply commitAcks_only|done].
  - apply cursor_only_sound; [apply CursorSetIfAbsent_only|done].
  - apply cursor_only_sound; [apply CursorDelete_only|done].
  - apply cursor_only_sound; [apply CursorMarkSeen_only|done].
  - apply cursor_only_sound; [apply SetParentState_only|done].
  - apply cursor_only_sound; [apply ResyncParent_only|done].
  - split; [by apply reincarnate_inv|]. destruct (reincarnate f mint now onlyFrom reason s) as [s' [[i c]|e]] eqn:E; cbn [fst].
    2: by apply reincarnate_unchanged in E as ->.
    apply reincarnate_inv_db in E. destruct c; [|by destruct E as (_ & -> & _)]. destruct E as (_ & _ & ->).
    apply later_frame; [done..|]. intros k Hk. store_simpl. apply reincarnate_other. by apply (tags_disjoint ["s"]).
  - split; [by apply ClearRefreshPending_inv|]. unfold ClearRefreshPending. destruct (apply_fails f); [done|].
    apply later_frame; [done..|]. intros k Hk. store_simpl. apply lookup_delete_ne. intros <-. revert Hk. tag_in.
  - split; [by apply EvictKV_inv|]. destruct (EvictKV f d1 doomed s) as [s' r] eqn:E. apply EvictKV_eq in E. cbn [fst].
    destruct r; [|by subst]. destruct E as (d & -> & _ & _ & Hd). apply later_frame; [done..|]. intros k Hk. store_simpl.
    apply Hd. by apply (tags_disjoint ["s"]).
  - split; [|by apply later_frame]. destruct HI as [I1 I2 I3 I3' I4 I5 I6 [C1 C2 C3 C4]]. split; try done.
    intros st Hst. by destruct (I2 st Hst).
Qed.

(** ** Scans that are older than the store *)

Lemma scan_stable s1 s stream lo hi :
  later s1 s -> at_ (holes s1) stream = at_ (holes s) stream -> (LWM s stream <= lo)%N -> (hi <= NextOffset s1 stream)%N ->
  scanStream (db s1) stream lo hi = scanStream (db s) stream lo hi.
Proof.
  intros HL Eh Hlo Hhi. destruct (HL stream) as (_ & _ & _ & Hr & _).
  apply sorted_unique; [apply scanStream_sorted..|]. intros [off e]. rewrite !elem_of_scanStream.
  split; intros [Ho He]; (split; [done|]); revert He; rewrite Hr by (done || lia); done.
Qed.

(** Counters between equal ones are equal. *)
Lemma later_between s0 s1 s stream : later s0 s1 -> later s1 s ->
  LWM s stream = LWM s0 stream -> at_ (holes s) stream = at_ (holes s0) stream ->
  LWM s1 stream = LWM s stream /\ at_ (holes s1) stream = at_ (holes s) stream.
Proof. intros H01 H1. destruct (H01 stream) as (? & ? & _), (H1 stream) as (? & ? & _). lia. Qed.

Lemma prune_scan_valid s0 s1 s stream upTo : later s0 s1 -> later s1 s -> (upTo <= NextOffset s0 stream)%N ->
  scan_valid (mkPruneScan stream (LWM s0 stream) upTo (at_ (holes s0) stream) (scanDoomed (db s1) stream (LWM s0 stream) upTo)) s.
Proof.
  intros H01 H1 Hu El Eh. cbn [sc_stream sc_from sc_upTo sc_holes sc_stats] in *.
  destruct (later_between _ _ _ _ H01 H1 El Eh) as [E1 E2]. destruct (H01 stream) as (_ & _ & Hn & _).
  unfold stats_ok. rewrite <- (scan_stable s1 s) by (done || lia). apply scanDoomed_ok.
Qed.

Lemma policy_walk_taken stream p cutoff recs acc : exists taken rest, recs = taken ++ rest
  /\ pa_stats (policy_walk stream p cutoff recs acc) = foldl (stats_add stream) (pa_stats acc) taken
  /\ pa_target (policy_walk stream p cutoff recs acc) = match last taken with Some x => (fst x + 1)%N | None => pa_target acc end.
Proof.
  revert acc; induction recs as [|[off e] recs IH]; intros acc; [by exists [], []|]. cbn [policy_walk].
  destruct (_ && _); [by exists [], ((off, e) :: recs)|]. destruct (_ && _); [by exists [], ((off, e) :: recs)|].
  destruct (_ <=? _)%N; [by exists [], ((off, e) :: recs)|]. set (acc1 := mkPolicyAcc _ _ _ _ _ _).
  destruct (IH acc1) as (taken & rest & -> & -> & ->). exists ((off, e) :: taken), rest. split; [done|]. split; [done|].
  rewrite last_cons. by destruct (last taken).
Qed.

Lemma policy_scan_valid sl s0 s1 s stream now p : later sl s0 -> later s0 s1 -> later s1 s -> (LWM sl stream <= NextOffset sl stream)%N ->
  scan_valid (fst (fst (PolicyPruneScan s0 (db s1) stream (LWM sl stream) (NextOffset sl stream) now p))) s.
Proof.
  intros Hl0 H01 H1 Hle El Eh. unfold PolicyPruneScan in *. cbn [fst sc_stream sc_from sc_upTo sc_holes sc_stats] in *.
  assert (E0 : LWM s stream = LWM s0 stream).
  { destruct (Hl0 stream) as (? & _), (H01 stream) as (? & _), (H1 stream) as (? & _). lia. }
  destruct (later_between _ _ _ _ H01 H1 E0 Eh) as [E1 E2].
  destruct (Hl0 stream) as (_ & _ & Hn0 & _), (H01 stream) as (_ & _ & Hn1 & _).
  unfold policyScan. set (acc := mkPolicyAcc _ _ _ _ _ _).
  destruct (policy_walk_taken stream p (now - po_maxAge p) (scanStream (db s1) stream (LWM sl stream) (NextOffset sl stream)) acc)
    as (taken & rest & Et & Hst & Htg). change (pa_target acc) with (LWM sl stream) in Htg.
  destruct (scan_taken _ _ _ _ _ _ _ Hle Et Htg) as (Hb & Htk & _).
  unfold stats_ok. rewrite <- (scan_stable s1 s) by (done || lia). rewrite <- Htk, Hst. apply (stats_foldl stream taken no_stats).
Qed.

(** ** Every run *)

Definition sound (hist : list Store) : Prop :=
  Forall Inv hist /\ forall s0 s1, earlier hist s0 s1 -> later s0 s1.

Lemma sound_push s hist s' : sound (s :: hist) -> Inv s' -> later s s' -> sound (s' :: s :: hist).
Proof.
  intros [HF HE] HI HL. split; [by constructor|]. intros s0 s1 (i & j & Hi & Hj & Hle).
  destruct j as [|j]; [assert (i = 0) as -> by lia; simpl in *; by simplify_eq|]. destruct i as [|i].
  - simpl in Hi. injection Hi as <-. etrans; [|exact HL]. apply HE. exists 0, j. split; [done|]. split; [done|lia].
  - apply HE. exists i, j. split; [done|]. split; [done|lia].
Qed.

Lemma earlier_head s hist s0 s1 : sound (s :: hist) -> earlier (s :: hist) s0 s1 -> Inv s0 /\ later s0 s1 /\ later s1 s.
Proof.
  intros [HF HE] Hx. pose proof Hx as (i & j & Hi & Hj & _). split; [by eapply Forall_lookup_1|]. split; [by apply HE|].
  apply HE. exists 0, i. split; [done|]. split; [done|lia].
Qed.

Lemma unknown_stream s stream : Inv s -> (1 <= NextOffset s stream)%N -> stream ∈ streams.
Proof. intros HI Hn. destruct (decide (stream ∈ streams)) as [|Hno]; [done|]. apply (inv_unknown s HI) in Hno. lia. Qed.

Lemma bounds_of s stream : Inv s -> stream ∈ streams -> (1 <= LWM s stream <= NextOffset s stream)%N.
Proof. intros HI Hs. apply (ci_bounds _ _ (inv_counter s HI stream Hs)). Qed.

Lemma prune_step f s0 s1 seen stream upTo overridden plan s :
  Inv s -> Inv s0 -> later s0 s1 -> later s1 s -> plan_ok plan ->
  let s' := fst (Prune f s0 (db s1) seen stream upTo overridden plan s) in Inv s' /\ later s s'.
Proof.
  intros HI HI0 H01 H1 Hplan. cbv zeta. unfold Prune. cbv zeta. fold (NextOffset s0 stream) (LWM s0 stream).
  case_bool_decide as Hn; [done|]. destruct (_ <=? _)%N; [done|]. destruct (N.ltb_spec (NextOffset s0 stream) upTo) as [|Hu]; [done|].
  assert (Hs : stream ∈ streams) by (apply (unknown_stream s0); [done|lia]).
  pose proof (prune_scan_valid s0 s1 s stream upTo H01 H1 Hu) as Hv.
  split; [by apply PruneScanned_inv|by apply later_PruneScanned].
Qed.

Lemma policy_prune_step f sl s0 s1 seen stream now p overridden plan s :
  Inv s -> Inv sl -> later sl s0 -> later s0 s1 -> later s1 s -> plan_ok plan ->
  let scan := fst (fst (PolicyPruneScan s0 (db s1) stream (LWM sl stream) (NextOffset sl stream) now p)) in
  let s' := fst (PruneScanned f seen overridden plan scan s) in Inv s' /\ later s s'.
Proof.
  intros HI HIl Hl0 H01 H1 Hplan. cbv zeta. destruct (decide (stream ∈ streams)) as [Hs|Hs].
  - pose proof (policy_scan_valid sl s0 s1 s stream now p Hl0 H01 H1 (proj2 (bounds_of sl stream HIl Hs))) as Hv.
    split; [by apply PruneScanned_inv|by apply later_PruneScanned].
  - unfold PolicyPruneScan, policyScan. cbn [fst]. rewrite (inv_unknown sl HIl stream Hs).
    assert (scanStream (db s1) stream (LWM sl stream) 0 = []) as -> by (apply filter_none; intros; lia).
    unfold PruneScanned. cbn [policy_walk pa_target sc_upTo sc_from]. by rewrite N.leb_refl.
Qed.

Lemma compact_step f s0 s1 seen stream s :
  Inv s -> Inv s0 -> later s0 s1 -> later s1 s ->
  let s' := fst (Compact f s0 (db s1) seen stream s) in Inv s' /\ later s s'.
Proof.
  intros HI HI0 H01 H1. cbv zeta. split; [|apply later_Compact].
  destruct (decide (stream ∈ streams)) as [Hs|Hs].
  - destruct (Compact f s0 (db s1) seen stream s) as [s' [st|e]] eqn:E; cbn [fst]; [|by apply Compact_unchanged in E as ->].
    apply Compact_outcome in E as [[-> _]|[HI' _]]; try done. intros El Eh.
    destruct (later_between _ _ _ _ H01 H1 El Eh) as [E1 E2]. destruct (H01 stream) as (_ & _ & Hn1 & _), (H1 stream) as (_ & _ & Hn2 & _).
    split; [lia|]. apply scan_stable; done || (unfold LWM in *; lia).
  - unfold Compact. cbv zeta. fold (NextOffset s0 stream). by rewrite (inv_unknown s0 HI0 stream Hs).
Qed.

Lemma evict_step f s0 s1 stream from maxScan doomed s :
  Inv s -> Inv s0 -> later s0 s1 -> later s1 s -> at_ (holes s) stream = at_ (holes s0) stream ->
  let s' := fst (EvictRecords f s0 (db s1) stream from maxScan doomed s) in Inv s' /\ later s s'.
Proof.
  intros HI HI0 H01 H1 Eh. cbv zeta. split; [|apply later_EvictRecords].
  destruct (decide (stream ∈ streams)) as [Hs|Hs].
  - apply EvictRecords_inv; [done|done|apply (bounds_of s0 stream HI0 Hs)|]. intros El.
    destruct (later_between _ _ _ _ H01 H1 El Eh) as [E1 E2]. destruct (H01 stream) as (_ & _ & Hn1 & _).
    apply scan_stable; done || (unfold LWM in *; lia).
  - unfold EvictRecords. cbv zeta. fold (NextOffset s0 stream). by rewrite (inv_unknown s0 HI0 stream Hs).
Qed.

Lemma later_deleted seen stream doomed overridden s s' gone : Deleted seen stream doomed overridden s s' gone -> later s s'.
Proof.
  intros [D1 D2 D3 D4 D5 _ _ D6 _] st. rewrite D2. split_and!; [lia| |apply D5| |].
  - destruct (D3 st) as [E|[-> E]]; [unfold at_; by rewrite E|lia].
  - intros Eh off [_ Ho]. destruct D4 as [->|D4]; [done|]. rewrite D6 by done.
    destruct (decide (st = stream /\ off ∈ gone)) as [[-> _]|]; [lia|done].
  - intros off e Ho. rewrite D6 by done. by destruct (decide _).
Qed.

Lemma signals_step f seen s1 stream doomed overridden marker s :
  Inv s -> later s1 s -> at_ (holes s) stream = at_ (holes s1) stream -> stream ∈ streams ->
  Inv s1 -> (forall x, x ∈ doomed -> doomed_rec (db s1) stream x) -> NoDup (dr_off <$> doomed) ->
  let s' := fst (deleteSignalRecords f seen stream doomed overridden marker s) in Inv s' /\ later s s'.
Proof.
  intros HI HL Eh Hs HI1 Hd Hnd. cbv zeta.
  destruct (deleteSignalRecords f seen stream doomed overridden marker s) as [s' [[[n shed] passed]|e]] eqn:E; cbn [fst];
    [|by apply deleteSignalRecords_unchanged in E as ->].
  apply deleteSignalRecords_deleted in E as (gone & HD & _); [split; [apply HD|by apply later_deleted in HD]|done..| |done].
  intros x Hx Ho. destruct (Hd x Hx) as (Hne & e & He & Hr). split; [done|]. exists e. split; [|done].
  destruct (HL stream) as (_ & _ & _ & Hk & _). rewrite Hk; [done..|]. split; [done|].
  unfold record_at in He. destruct (db s1 !! streamKey stream (dr_off x)) eqn:Ev; [|done].
  apply (si_range _ _ _ _ _ (inv_stream s1 HI1 stream Hs)) in Ev. lia.
Qed.

Lemma Open_inv f mint s s' : Inv s -> Open f mint (db s) = Ok s' -> Inv s'.
Proof. intros HI E. destruct (Open_ok f mint s HI) as (s2 & E2 & _ & _ & _ & HI2 & _). congruence. Qed.

Lemma run_sound hist : run hist -> sound hist.
Proof.
  assert (Hone : forall s, Inv s -> sound [s]).
  { intros s HI. split; [by apply Forall_singleton|]. intros s0 s1 ([|i] & [|j] & Hi & Hj & _); simpl in *; by simplify_eq. }
  assert (Hhd : forall s hist, sound (s :: hist) -> Inv s) by (intros s h [HF _]; by inversion HF).
  induction 1 as [mint|f mint s hist s' _ IH E|s hist s' _ IH Ha|f s0 s1 sc stream upTo ov plan s hist _ IH H01 H1c Hp
    |f sl s0 s1 sc stream now p ov plan s hist _ IH Hl0 H01 H1c Hp|f s0 s1 sc stream s hist _ IH H01 H1c
    |f s0 s1 stream from maxScan doomed s hist _ IH H01 Eh|f s1 sc stream doomed ov marker s hist _ IH H1c Eh Hs Hd Hnd].
  - apply Hone, fresh_inv.
  - apply Hone. apply (Open_inv f mint s); [by eapply Hhd|done].
  - destruct (atomic_sound s s') as [? ?]; [by eapply Hhd|done|]. by apply sound_push.
  - destruct (earlier_head _ _ _ _ IH H01) as (HI0 & HL0 & HL1).
    destruct (prune_step f s0 s1 (db sc) stream upTo ov plan s) as [? ?]; try done; [by eapply Hhd|]. by apply sound_push.
  - destruct (earlier_head _ _ _ _ IH Hl0) as (HIl & HLl & _). destruct (earlier_head _ _ _ _ IH H01) as (HI0 & HL0 & HL1).
    destruct (policy_prune_step f sl s0 s1 (db sc) stream now p ov plan s) as [? ?]; try done; [by eapply Hhd|]. by apply sound_push.
  - destruct (earlier_head _ _ _ _ IH H01) as (HI0 & HL0 & HL1).
    destruct (compact_step f s0 s1 (db sc) stream s) as [? ?]; try done; [by eapply Hhd|]. by apply sound_push.
  - destruct (earlier_head _ _ _ _ IH H01) as (HI0 & HL0 & HL1).
    destruct (evict_step f s0 s1 stream from maxScan doomed s) as [? ?]; try done; [by eapply Hhd|]. by apply sound_push.
  - destruct (earlier_head _ _ _ _ IH H1c) as (HI1 & HL1 & HLc).
    destruct (signals_step f (db sc) s1 stream doomed ov marker s) as [? ?]; try done; [by eapply Hhd|by etrans|]. by apply sound_push.
Qed.

(** ** Theorems *)


(** C7: a stream is an append-only log in every run: between any two stores of a
    process, the head and the low-water mark only move forward, an offset below
    the earlier head never holds another record than it did, and as long as the
    store counts no scattered removal every record at or above the low-water mark is
    still there. *)
Theorem run_append_only hist s0 s stream : run hist -> earlier hist s0 s ->
  (NextOffset s0 stream <= NextOffset s stream)%N /\ (LWM s0 stream <= LWM s stream)%N
  /\ (forall off e, (off < NextOffset s0 stream)%N -> record_at (db s) stream off = Some e -> record_at (db s0) stream off = Some e)
  /\ (at_ (holes s0) stream = at_ (holes s) stream ->
      forall off, (LWM s stream <= off < NextOffset s0 stream)%N -> record_at (db s) stream off = record_at (db s0) stream off).
Proof. intros Hr He. destruct (run_sound hist Hr) as [_ HE]. destruct (HE _ _ He stream) as (? & ? & ? & ? & ?). done. Qed.

End ops.

Section examples.
#[local] Existing Instance demo_codec.

(** A group is appended, a reader acks, and a prune commits that read the store
    before the ack. *)
Definition demo_s0 : Store := fst (commitAppends (fun _ => no_faults) [mkAppendRequest "definitions" demo_ds] demo_store).
Definition demo_s1 : Store := fst (commitAcks no_faults 1 [mkAckRequest "reader" "definitions" 3 false "" 0] demo_s0).
Definition demo_s2 : Store := fst (Prune no_faults demo_s0 (db demo_s0) (db demo_s1) "definitions" 5 [] demo_plan demo_s1).
Definition demo_hist : list Store := [demo_s2; demo_s1; demo_s0; demo_store].

Lemma demo_run : run demo_hist.
Proof.
  apply (run_prune no_faults demo_s0 demo_s0 demo_s1); [|exists 1, 1|exists 0, 1|].
  - apply run_op; [|apply op_ack]. apply run_op; [apply run_fresh|]. apply op_append. repeat constructor; discriminate.
  - split; [done|]. split; [done|lia].
  - split; [done|]. split; [done|lia].
  - intros span Hle. cbn. lia.
Qed.


Lemma run_append_only_witness :
  (LWM demo_s0 "definitions" <= LWM demo_s2 "definitions")%N /\ NextOffset demo_s0 "definitions" = 5%N.
Proof.
  split; [|vm_compute; reflexivity].
  apply (run_append_only demo_hist demo_s0 demo_s2 "definitions"); [exact demo_run|].
  exists 0, 2. split; [reflexivity|]. split; [reflexivity|lia].
Defined.

End examples.
