(* ===== verification/Readers.v ===== *)
(** * The store: readers

    Paged reads of a stream ([readpage.go], [readRange] and its callers in
    [store.go]), through the signal index ([ReadSignals] of [sigindex.go]) and the
    target index ([ReadTarget] of [targetindex.go]), and the search by time
    ([seekts.go]). A read takes the snapshot it reads; [ctx] says whether the caller
    has gone away when so many entries were scanned. The theorems: a page is exactly
    the kept records of the range it covers, pages follow each other without gap,
    overlap or standing still, and the indexed reads return what the scan returns. *)

From S2P Require Export StoreOps.

Open Scope string_scope.
Open Scope list_scope.
Open Scope go_scope.

Section readers.
Context `{Codec}.

(** ** Data *)

(** A record as a reader sees it: its offset and origin; the other fields are those
    of the encoding. *)
Record StoredRecord := mkStored { sr_Offset : N; sr_OriginOffset : N; sr_rec : recEnc }.

Definition storedRecord (off : N) (e : recEnc) : StoredRecord := mkStored off (originOffset (e_OriginOffset e) off) e.

Definition HeadFilter : Type := string -> string -> bool.

(** [pageBytes] and [take]: the updated page when the entry still belongs on it. *)
Record pageBytes := mkPageBytes { pb_max : N; pb_used : N }.

Definition page_take (p : pageBytes) (size : N) (n : nat) : option pageBytes :=
  if (0 <? pb_max p)%N && (0 <? n)%nat && (pb_max p <? wrap64 (pb_used p + size))%N then None
  else Some (mkPageBytes (pb_max p) (wrap64 (pb_used p + size))).

(** [peekHead] reads the topic and signal id of an encoded record without decoding
    it, when they are plain; [peeks] says when. *)
Variable peeks : recEnc -> bool.

(** Whether the head filter drops a record before it is decoded. *)
Definition dropped (head : option HeadFilter) (e : recEnc) : bool :=
  match head with Some h => peeks e && negb (h (e_Topic e) (e_SignalID e)) | None => false end.

Definition keeps (filter : option (StoredRecord -> bool)) (off : N) (e : recEnc) : bool :=
  match filter with Some f => f (storedRecord off e) | None => true end.

Definition too_far (limit maxScan scanned : N) (out : list StoredRecord) : bool :=
  (limit <=? N.of_nat (length out))%N || ((0 <? maxScan)%N && (maxScan <=? scanned)%N).

Definition cancelled (ctx : N -> bool) (scanned : N) : bool := (scanned mod 1024 =? 0)%N && ctx scanned.

(** ** [readRange] *)

Record ReadAcc := mkReadAcc { rd_out : list StoredRecord; rd_next : N; rd_scanned : N; rd_page : pageBytes }.

Fixpoint read_loop (ctx : N -> bool) (limit maxScan : N) (head : option HeadFilter) (filter : option (StoredRecord -> bool))
    (entries : list (N * Val)) (a : ReadAcc) : result StoreErr (ReadAcc * bool) :=
  match entries with
  | [] => Ok (a, (limit <=? N.of_nat (length (rd_out a)))%N)
  | (off, v) :: entries =>
      if too_far limit maxScan (rd_scanned a) (rd_out a) then Ok (a, true)
      else
        let scanned := (rd_scanned a + 1)%N in
        if cancelled ctx scanned then Err ECancelled
        else
          match v with
          | VRec e =>
              let skip := mkReadAcc (rd_out a) (off + 1) scanned (rd_page a) in
              if dropped head e then read_loop ctx limit maxScan head filter entries skip
              else if negb (keeps filter off e) then read_loop ctx limit maxScan head filter entries skip
              else match page_take (rd_page a) (rec_len e) (length (rd_out a)) with
                   | None => Ok (mkReadAcc (rd_out a) (rd_next a) scanned (rd_page a), true)
                   | Some page => read_loop ctx limit maxScan head filter entries
                                    (mkReadAcc (rd_out a ++ [storedRecord off e]) (off + 1) scanned page)
                   end
          | _ => Err EDecode
          end
  end.

(** Every entry of the stream in [[from, upTo)], decodable or not. *)
Definition stream_entries (d : DB) (stream : string) (from upTo : N) : list (N * Val) :=
  filter (fun x => (from <= fst x < upTo)%N) (scan "s" stream (fun _ v => Some v) d).

Definition readRange (ctx : N -> bool) (d : DB) (stream : string) (from upTo limit maxScan : N) (page : pageBytes)
    (head : option HeadFilter) (filter : option (StoredRecord -> bool)) : result StoreErr (ReadAcc * bool) :=
  read_loop ctx limit maxScan head filter (stream_entries d stream from upTo) (mkReadAcc [] from 0 page).

(** The context of a caller that stays. *)
Definition never (i : N) : bool := false.

Definition ReadRecordsBounded (ctx : N -> bool) (s : Store) (stream : string) (from limit maxScan maxBytes : N)
    (head : option HeadFilter) (filter : option (StoredRecord -> bool)) : result StoreErr (list StoredRecord * N) :=
  let! (a, _) := readRange ctx (db s) stream from (NextOffset s stream) limit maxScan (mkPageBytes maxBytes 0) head filter in
  Ok (rd_out a, rd_next a).

Definition ReadRecords (s : Store) (stream : string) (from limit : N) (filter : option (StoredRecord -> bool)) :=
  ReadRecordsBounded never s stream from limit 0 0 None filter.

Definition Read (s : Store) (stream : string) (from limit : N) (filter : option (string -> bool)) :=
  ReadRecordsBounded never s stream from limit 0 0 (option_map (fun f topic _ => f topic) filter)
    (option_map (fun f r => f (e_Topic (sr_rec r))) filter).

Definition FirstMatch (s : Store) (stream : string) (from upTo : N) (head : option HeadFilter)
    (filter : option (StoredRecord -> bool)) : result StoreErr (option StoredRecord) :=
  if (upTo <=? from)%N then Ok None
  else let! (a, _) := readRange never (db s) stream from upTo 1 0 (mkPageBytes 0 0) head filter in
       Ok (List.hd_error (rd_out a)).

(** ** Through the signal index *)

Definition maxSigRound : N := 65536.

(** [offsetMaxHeap], kept as the ascending list of its offsets: its top is the last. *)
Fixpoint heap_push (off : N) (h : list N) : list N :=
  match h with
  | [] => [off]
  | y :: h' => if (off <=? y)%N then off :: h else y :: heap_push off h'
  end.

Definition heap_top (h : list N) : N := default 0%N (last h).

(** Replacing the top and fixing the heap. *)
Definition heap_replace (off : N) (h : list N) : list N := heap_push off (removelast h).

(** The inner loop of [smallestSigOffsets]: the entries of one signal. *)
Fixpoint sig_take (n : nat) (offs h : list N) : list N :=
  match offs with
  | [] => h
  | off :: offs =>
      if (length h <? n)%nat then sig_take n offs (heap_push off h)
      else if (heap_top h <=? off)%N then h
      else sig_take n offs (heap_replace off h)
  end.

(** [smallestSigOffsets]; [gone i] is [ctx.Err] at the [i]th signal. *)
Fixpoint smallest_loop (gone : N -> bool) (d : DB) (stream : string) (from hd : N) (n : nat) (i : N) (signals : list string) (h : list N)
    : result StoreErr (list N) :=
  match signals with
  | [] => Ok h
  | sid :: signals =>
      if (i mod 64 =? 0)%N && gone i then Err ECancelled
      else if (length h =? n)%nat && (heap_top h - from <? N.of_nat n)%N then Ok h
      else
        let upTo := if (length h =? n)%nat then heap_top h else hd in
        smallest_loop gone d stream from hd n (i + 1) signals
          (sig_take n (filter (fun off => off < upTo)%N (sig_offsets d stream sid from)) h)
  end.

Definition smallestSigOffsets (gone : N -> bool) (d : DB) (stream : string) (signals : list string) (from hd : N) (n : nat)
    : result StoreErr (list N) := smallest_loop gone d stream from hd n 0 signals [].

(** How the visit of a round's offsets ends: the read returns, or the round is over. *)
Inductive RoundOut :=
| RReturn (r : result StoreErr (list StoredRecord * N))
| RNext (a : ReadAcc) (more : bool).

Fixpoint sig_visit (ctx : N -> bool) (d : DB) (stream : string) (limit : N) (head : option HeadFilter)
    (filter : option (StoredRecord -> bool)) (offs : list N) (more : bool) (a : ReadAcc) : RoundOut :=
  match offs with
  | [] => RNext a more
  | off :: offs =>
      let scanned := (rd_scanned a + 1)%N in
      if cancelled ctx scanned then RReturn (Err ECancelled)
      else
        let skip := mkReadAcc (rd_out a) (off + 1) scanned (rd_page a) in
        match d !! streamKey stream off with
        | None => sig_visit ctx d stream limit head filter offs more skip
        | Some (VRec e) =>
            if dropped head e then sig_visit ctx d stream limit head filter offs more skip
            else if negb (keeps filter off e) then sig_visit ctx d stream limit head filter offs more skip
            else match page_take (rd_page a) (rec_len e) (length (rd_out a)) with
                 | None => RReturn (Ok (rd_out a, off))
                 | Some page =>
                     let a := mkReadAcc (rd_out a ++ [storedRecord off e]) (off + 1) scanned page in
                     if (N.of_nat (length (rd_out a)) =? limit)%N then RNext a (more || (offs != []))
                     else sig_visit ctx d stream limit head filter offs more a
                 end
        | Some _ => RReturn (Err EDecode)
        end
  end.

(** The rounds; [None] when the fuel ran out. *)
Fixpoint sig_rounds (fuel : nat) (ctx : N -> bool) (gone : N -> N -> bool) (d : DB) (stream : string) (limit maxScan lwm hd : N)
    (wanted : list string) (head : option HeadFilter) (filter : option (StoredRecord -> bool)) (want : N) (a : ReadAcc)
    : option (result StoreErr (list StoredRecord * N)) :=
  match fuel with
  | O => None
  | S fuel =>
      let left_ := (limit - N.of_nat (length (rd_out a)))%N in
      if (left_ =? 0)%N then Some (Ok (rd_out a, rd_next a))
      else if (0 <? maxScan)%N && (maxScan <=? rd_scanned a)%N then Some (Ok (rd_out a, rd_next a))
      else
        let budget := if (0 <? maxScan)%N then N.min maxSigRound (maxScan - rd_scanned a) else maxSigRound in
        let want := N.min (N.max want left_) budget in
        match smallestSigOffsets (gone (rd_scanned a)) d stream wanted (N.max (rd_next a) lwm) hd (S (N.to_nat want)) with
        | Err e => Some (Err e)
        | Ok offs =>
            let more := (N.to_nat want <? length offs)%nat in
            match sig_visit ctx d stream limit head filter (take (N.to_nat want) offs) more a with
            | RReturn r => Some r
            | RNext a more =>
                if negb more then Some (Ok (rd_out a, hd))
                else sig_rounds fuel ctx gone d stream limit maxScan lwm hd wanted head filter (4 * want) a
            end
        end
  end.

(** [ReadSignals]; [covered] is [sigFrom] of the stream, the offset its signal index
    starts at. *)
Definition ReadSignals (fuel : nat) (ctx : N -> bool) (gone : N -> N -> bool) (s : Store) (covered : N) (stream : string)
    (from limit maxScan maxBytes : N) (signals : list string) (head : option HeadFilter) (filter : option (StoredRecord -> bool))
    : option (result StoreErr (list StoredRecord * N)) :=
  let hd := NextOffset s stream in
  let lwm := LWM s stream in
  let page := mkPageBytes maxBytes 0 in
  let wanted := sort_strings (remove_dups signals) in
  let from_index a :=
    if (hd <=? rd_next a)%N then Some (Ok (rd_out a, rd_next a))
    else sig_rounds fuel ctx gone (db s) stream limit maxScan lwm hd wanted head filter (limit - N.of_nat (length (rd_out a))) a in
  if (from <? covered)%N then
    match readRange ctx (db s) stream from (N.min covered hd) limit maxScan page head filter with
    | Err e => Some (Err e)
    | Ok (a, stopped) =>
        if stopped || (hd <=? covered)%N then Some (Ok (rd_out a, rd_next a))
        else from_index (mkReadAcc (rd_out a) covered (rd_scanned a) (rd_page a))
    end
  else from_index (mkReadAcc [] from 0 page).

(** ** Through the target index *)

Definition target_off (stream target : string) (k : Key) : option N :=
  match suffix k with
  | Some off => if k == targetKey stream target off then Some off else None
  | None => None
  end.

Definition target_offsets (d : DB) (stream target : string) (from upTo : N) : list N :=
  filter (fun off => from <= off < upTo)%N (merge_sort N.le (omap (target_off stream target) (map_to_list d).*1)).

Fixpoint target_loop (ctx : N -> bool) (d : DB) (stream : string) (upTo limit maxScan : N) (filter : option (StoredRecord -> bool))
    (offs : list N) (a : ReadAcc) : result StoreErr (list StoredRecord * N) :=
  match offs with
  | [] => Ok (rd_out a, if (limit <=? N.of_nat (length (rd_out a)))%N then rd_next a else upTo)
  | off :: offs =>
      if too_far limit maxScan (rd_scanned a) (rd_out a) then Ok (rd_out a, rd_next a)
      else
        let scanned := (rd_scanned a + 1)%N in
        if cancelled ctx scanned then Err ECancelled
        else
          let skip := mkReadAcc (rd_out a) (off + 1) scanned (rd_page a) in
          match d !! streamKey stream off with
          | None => target_loop ctx d stream upTo limit maxScan filter offs skip
          | Some (VRec e) =>
              if keeps filter off e
              then target_loop ctx d stream upTo limit maxScan filter offs
                     (mkReadAcc (rd_out a ++ [storedRecord off e]) (off + 1) scanned (rd_page a))
              else target_loop ctx d stream upTo limit maxScan filter offs skip
          | Some _ => Err EDecode
          end
  end.

(** [ReadTarget]; [covered] is [targetFrom] of the stream. *)
Definition ReadTarget (ctx : N -> bool) (s : Store) (covered : N) (stream target : string) (from upTo limit maxScan : N)
    (filter : option (StoredRecord -> bool)) : result StoreErr (list StoredRecord * N) :=
  let upTo := N.min upTo (NextOffset s stream) in
  let from := N.max from (LWM s stream) in
  if (upTo <=? from)%N then Ok ([], N.max from upTo)
  else
    let go a := target_loop ctx (db s) stream upTo limit maxScan filter (target_offsets (db s) stream target (rd_next a) upTo) a in
    if (from <? covered)%N then
      let forTarget topic (_ : string) := recordTarget topic == target in
      let! (a, stopped) := readRange ctx (db s) stream from (N.min covered upTo) limit maxScan (mkPageBytes 0 0) (Some forTarget) filter in
      if stopped || (upTo <=? covered)%N then Ok (rd_out a, rd_next a)
      else go (mkReadAcc (rd_out a) covered (rd_scanned a) (rd_page a))
    else go (mkReadAcc [] from 0 (mkPageBytes 0 0)).

(** ** Search by time *)

(** The first record of [[mid, hi)], where [SeekGE] lands. *)
Definition seek_ge (d : DB) (stream : string) (mid hi : N) : option (N * Val) := head (stream_entries d stream mid hi).

(** The loop of [SeekTS] over [[lo, hi)], the iterator's upper bound being [end_]. *)
Fixpoint seek_loop (fuel : nat) (d : DB) (stream : string) (ts : Z) (end_ lo hi : N) : result StoreErr N :=
  match fuel with
  | O => Err EMaxScan
  | S fuel =>
      if (hi <=? lo)%N then Ok lo
      else
        let mid := (lo + (hi - lo) / 2)%N in
        match seek_ge d stream mid end_ with
        | None => seek_loop fuel d stream ts end_ lo mid
        | Some (off, VRec e) =>
            if (ts <=? e_TS e)%Z then seek_loop fuel d stream ts end_ lo mid
            else seek_loop fuel d stream ts end_ (off + 1) hi
        | Some _ => Err EDecode
        end
  end.

Definition SeekTS (s : Store) (stream : string) (ts : Z) : result StoreErr N :=
  let lo := if (LWM s stream =? 0)%N then 1%N else LWM s stream in
  let hi := NextOffset s stream in
  if (hi <=? lo)%N then Ok hi
  else seek_loop (S (N.to_nat (hi - lo))) (db s) stream ts hi lo hi.

(** ** One page *)

(** A head filter only drops records the filter drops as well, as [HeadFilter] asks
    of its callers. *)
Definition head_ok (head : option HeadFilter) (filter : option (StoredRecord -> bool)) : Prop :=
  forall h off e, head = Some h -> h (e_Topic e) (e_SignalID e) = false -> keeps filter off e = false.

Definition wants_rec (filter : option (StoredRecord -> bool)) (x : N * recEnc) : Prop := keeps filter (fst x) (snd x) = true.
#[export] Instance wants_rec_dec filter x : Decision (wants_rec filter x).
Proof. unfold wants_rec. apply _. Defined.

Definition stored (x : N * recEnc) : StoredRecord := storedRecord (fst x) (snd x).

Lemma dropped_unwanted head filter off e : head_ok head filter -> dropped head e = true -> keeps filter off e = false.
Proof.
  intros Hh. unfold dropped. destruct head as [h|]; [|done]. intros [_ Hn]%andb_true_iff. apply negb_true_iff in Hn. by apply (Hh h).
Qed.

Lemma stream_entries_records s stream from upTo : Inv s -> stream ∈ streams ->
  stream_entries (db s) stream from upTo = (fun x => (fst x, VRec (snd x))) <$> scanStream (db s) stream from upTo.
Proof.
  intros HI Hs. apply sorted_unique.
  - apply sorted_filter, scan_sorted.
  - apply (StronglySorted_fmap (fun x => (fst x, VRec (snd x))) off_lt); [done|apply scanStream_sorted].
  - intros [off v]. unfold stream_entries. rewrite list_elem_of_filter, elem_of_scan, list_elem_of_fmap. simpl. split.
    + intros (Hr & v' & Hv & [= ->]). apply (si_range _ _ _ _ _ (inv_stream s HI stream Hs)) in Hv as Ht. destruct Ht as [_ [e ->]].
      exists (off, e). split; [done|]. apply elem_of_scanStream. split; [done|]. unfold record_at, streamKey. by rewrite Hv.
    + intros ([o e] & [= -> ->] & [Hr He]%elem_of_scanStream). split; [done|]. unfold record_at in He.
      destruct (db s !! streamKey stream o) as [v|] eqn:Ev; [|done]. exists (VRec e). destruct v; try done. by injection He as ->.
Qed.

(** What a loop over records has taken when it returns. *)
Record Paged (filter : option (StoredRecord -> bool)) (limit maxScan : N) (recs : list (N * recEnc)) (a a' : ReadAcc) (stopped : bool)
    (taken rest : list (N * recEnc)) : Prop := {
  pg_split : recs = taken ++ rest;
  pg_out : rd_out a' = rd_out a ++ (stored <$> base.filter (wants_rec filter) taken);
  pg_next : rd_next a' = match last taken with Some x => (fst x + 1)%N | None => rd_next a end;
  pg_rest : stopped = false -> rest = [];
  pg_limit : (N.of_nat (length (rd_out a)) <= limit)%N -> (N.of_nat (length (rd_out a')) <= limit)%N;
  pg_more : stopped = true -> rest <> [] \/ (limit <= N.of_nat (length (rd_out a')))%N;
  pg_moves : taken = [] -> recs = [] \/ too_far limit maxScan (rd_scanned a) (rd_out a) = true \/ rd_out a <> [];
}.

Lemma read_loop_paged ctx limit maxScan head filter recs a a' stopped : head_ok head filter ->
  read_loop ctx limit maxScan head filter ((fun x => (fst x, VRec (snd x))) <$> recs) a = Ok (a', stopped) ->
  exists taken rest, Paged filter limit maxScan recs a a' stopped taken rest.
Proof.
  intros Hh. revert a. induction recs as [|[off e] recs IH]; intros a E; cbn [fmap list_fmap read_loop fst snd] in E.
  { injection E as <- <-. exists [], []. split; try done; [by rewrite app_nil_r| |by left].
    intros Hl. right. by apply N.leb_le. }
  destruct (too_far limit maxScan (rd_scanned a) (rd_out a)) eqn:Ef.
  { injection E as <- <-. exists [], ((off, e) :: recs). split; try done; [by rewrite app_nil_r|by left|by right; left]. }
  destruct (cancelled _ _); [done|].
  (* the loop goes on past this record *)
  assert (Go : forall a1, read_loop ctx limit maxScan head filter ((fun x => (fst x, VRec (snd x))) <$> recs) a1 = Ok (a', stopped) ->
    rd_out a1 = rd_out a ++ (stored <$> base.filter (wants_rec filter) [(off, e)]) -> rd_next a1 = (off + 1)%N ->
    exists taken rest, Paged filter limit maxScan ((off, e) :: recs) a a' stopped taken rest).
  { intros a1 E1 Ho Hn. destruct (IH a1 E1) as (taken & rest & []). exists ((off, e) :: taken), rest. split; try done.
    - by rewrite pg_split0.
    - rewrite pg_out0, Ho, <- app_assoc, <- fmap_app, <- filter_app. done.
    - rewrite pg_next0, Hn, last_cons. by destruct (last taken).
    - intros Hl. apply pg_limit0. rewrite Ho, length_app, length_fmap. unfold too_far in Ef. apply orb_false_iff in Ef as [Ef%N.leb_gt _].
      pose proof (length_filter (wants_rec filter) [(off, e)]). simpl in *. lia. }
  destruct (dropped head e) eqn:Ed.
  { apply (Go _ E); [|done]. rewrite filter_cons, decide_False, filter_nil by (unfold wants_rec; simpl; by rewrite (dropped_unwanted head filter)).
    by rewrite app_nil_r. }
  destruct (keeps filter off e) eqn:Ek; cbn [negb] in E.
  2: { apply (Go _ E); [|done]. rewrite filter_cons, decide_False, filter_nil by (unfold wants_rec; simpl; by rewrite Ek). by rewrite app_nil_r. }
  destruct (page_take _ _ _) as [page|] eqn:Ep.
  - apply (Go _ E); [|done]. by rewrite filter_cons, decide_True.
  - injection E as <- <-. exists [], ((off, e) :: recs). split; try done; [by rewrite app_nil_r|by left|].
    intros _. right; right. simpl. intros Eo. unfold page_take in Ep. rewrite Eo in Ep. simpl in Ep. by rewrite andb_false_r in Ep.
Qed.

(** ** What a paged reader promises *)

(** A reader of the records [want]ed in a stream up to [hd]: from a position it
    answers with exactly the wanted records of the range it covered and the position
    after that range, it moves unless nothing wanted is left, and a page has at most
    [limit] records. *)
Class PagedReader (d : DB) (stream : string) (want : N * recEnc -> Prop) `{forall x, Decision (want x)} (limit hd : N)
    (read : N -> result StoreErr (list StoredRecord * N)) : Prop := {
  page_exact : forall from out next, (from <= hd)%N -> read from = Ok (out, next) ->
    (from <= next <= hd)%N /\ out = stored <$> filter want (scanStream d stream from next);
  page_moves : forall from out next, (from < hd)%N -> read from = Ok (out, next) ->
    (from < next)%N \/ filter want (scanStream d stream from hd) = [];
  page_limit : forall from out next, (from <= hd)%N -> read from = Ok (out, next) -> (N.of_nat (length out) <= limit)%N;
}.

(** A consumer that reads page after page to [hd]. *)
Fixpoint read_all (fuel : nat) (hd : N) (read : N -> result StoreErr (list StoredRecord * N)) (from : N)
    : result StoreErr (list StoredRecord) :=
  match fuel with
  | O => Err EMaxScan
  | S fuel =>
      let! (out, next) := read from in
      if (hd <=? next)%N || (next <=? from)%N then Ok out
      else let! rest := read_all fuel hd read next in Ok (out ++ rest)
  end.

Lemma scanStream_split d stream lo t hi : (lo <= t <= hi)%N ->
  scanStream d stream lo hi = scanStream d stream lo t ++ scanStream d stream t hi.
Proof.
  intros Ht. apply sorted_unique; [apply scanStream_sorted| |].
  - apply StronglySorted_app. split_and!; [|apply scanStream_sorted..].
    intros [o1 e1] [o2 e2] [H1 _]%elem_of_scanStream [H2 _]%elem_of_scanStream. unfold off_lt; simpl. lia.
  - intros [off e]. rewrite elem_of_app, !elem_of_scanStream.
    split; [intros [Hr He]; destruct (decide (off < t)%N); [left|right]|intros [[Hr He]|[Hr He]]]; (split; [lia|done]).
Qed.

Lemma read_all_ok d stream want `{forall x, Decision (want x)} limit hd read `{!PagedReader d stream want limit hd read} fuel from :
  (forall from, (from <= hd)%N -> exists p, read from = Ok p) -> (from <= hd)%N -> N.to_nat (hd - from) < fuel ->
  read_all fuel hd read from = Ok (stored <$> filter want (scanStream d stream from hd)).
Proof.
  intros Htot. revert from. induction fuel as [|fuel IH]; intros from Hle Hf; [lia|]. cbn [read_all].
  destruct (Htot from Hle) as [[out next] E]. rewrite E.
  destruct (page_exact from out next Hle E) as [Hb Ho]. destruct (N.leb_spec hd next) as [Hn|Hn]; cbn [orb].
  { assert (next = hd) as -> by lia. by rewrite Ho. }
  destruct (N.leb_spec next from) as [Hs|Hs]; cbn [orb].
  - assert (next = from) as -> by lia. destruct (page_moves from out from ltac:(lia) E) as [|Hnone]; [lia|].
    rewrite Hnone, Ho. assert (scanStream d stream from from = []) as -> by (apply filter_none; intros; lia). done.
  - rewrite IH by lia. f_equal. by rewrite Ho, <- fmap_app, <- filter_app, <- scanStream_split by lia.
Qed.

(** [readRange] as a page. *)
Lemma readRange_page ctx s stream from upTo limit maxScan page head filter a stopped :
  Inv s -> stream ∈ streams -> head_ok head filter -> (from <= upTo)%N ->
  readRange ctx (db s) stream from upTo limit maxScan page head filter = Ok (a, stopped) ->
  (from <= rd_next a <= upTo)%N
  /\ rd_out a = stored <$> base.filter (wants_rec filter) (scanStream (db s) stream from (rd_next a))
  /\ (stopped = false -> scanStream (db s) stream (rd_next a) upTo = [])
  /\ (N.of_nat (length (rd_out a)) <= limit)%N
  /\ ((0 < limit)%N -> scanStream (db s) stream from upTo <> [] -> (from < rd_next a)%N).
Proof.
  intros HI Hs Hh Hle E. unfold readRange in E. rewrite stream_entries_records in E by done.
  destruct (read_loop_paged _ _ _ _ _ _ _ _ _ Hh E) as (taken & rest & []). cbn [rd_out rd_next rd_scanned] in *.
  destruct (scan_taken _ _ _ _ _ _ _ Hle pg_split0 pg_next0) as (Hb & Ht & Hr).
  split_and!; [lia..|by rewrite pg_out0, Ht|by rewrite <- Hr|apply pg_limit0; simpl; lia|].
  intros Hl Hne. destruct (decide (taken = [])) as [->|Htk].
  - destruct (pg_moves0 eq_refl) as [|[Hf|]]; [done| |done]. unfold too_far in Hf. apply orb_true_iff in Hf as [Hf%N.leb_le|Hf]; [simpl in Hf; lia|].
    apply andb_true_iff in Hf as [H1%N.ltb_lt H2%N.leb_le]. lia.
  - destruct (last taken) as [x|] eqn:El; [|by apply last_None in El]. rewrite pg_next0.
    apply last_Some in El as [l ->]. assert (Hx : x ∈ scanStream (db s) stream from (rd_next a)) by (rewrite <- Ht; apply elem_of_app; right; left).
    destruct x as [off e]. apply elem_of_scanStream in Hx. simpl. lia.
Qed.

Lemma read_loop_total limit maxScan head filter recs a : exists p,
  read_loop never limit maxScan head filter ((fun x => (fst x, VRec (snd x))) <$> recs) a = Ok p.
Proof.
  revert a. induction recs as [|[off e] recs IH]; intros a; cbn [fmap list_fmap read_loop fst snd]; [by eexists|].
  destruct (too_far _ _ _ _); [by eexists|]. unfold cancelled, never. rewrite andb_false_r.
  destruct (dropped _ _); [apply IH|]. destruct (negb _); [apply IH|]. destruct (page_take _ _ _); [apply IH|by eexists].
Qed.

Section paged.
Variables (s : Store) (stream : string) (limit maxScan maxBytes : N) (head : option HeadFilter) (filter : option (StoredRecord -> bool)).
Hypothesis HI : Inv s.
Hypothesis Hs : stream ∈ streams.
Hypothesis Hh : head_ok head filter.
Hypothesis Hl : (0 < limit)%N.

#[local] Instance bounded_reader ctx : PagedReader (db s) stream (wants_rec filter) limit (NextOffset s stream)
  (fun from => ReadRecordsBounded ctx s stream from limit maxScan maxBytes head filter).
Proof using HI Hs Hh Hl.
  split; intros from out next Hle E; assert (Hle' : (from <= NextOffset s stream)%N) by lia; unfold ReadRecordsBounded in E; destruct (readRange _ _ _ _ _ _ _ _ _ _) as [[a st]|] eqn:Er; try done;
    injection E as <- <-; (destruct (readRange_page _ _ _ _ _ _ _ _ _ _ _ _ HI Hs Hh Hle' Er) as (Hb & Ho & Hr & Hn & Hm)); [done| |done].
  destruct (decide (scanStream (db s) stream from (NextOffset s stream) = [])) as [->|Hne]; [by right|left; by apply Hm].
Qed.

Lemma bounded_total from : exists p, ReadRecordsBounded never s stream from limit maxScan maxBytes head filter = Ok p.
Proof using HI Hs.
  unfold ReadRecordsBounded, readRange. rewrite stream_entries_records by done.
  match goal with |- context [read_loop never ?l ?m ?h ?f (_ <$> ?r) ?a] => destruct (read_loop_total l m h f r a) as [[a' st] ->] end.
  by eexists.
Qed.

Lemma read_bounded_complete fuel from : (from <= NextOffset s stream)%N -> N.to_nat (NextOffset s stream - from) < fuel ->
  read_all fuel (NextOffset s stream) (fun from => ReadRecordsBounded never s stream from limit maxScan maxBytes head filter) from
  = Ok (stored <$> base.filter (wants_rec filter) (scanStream (db s) stream from (NextOffset s stream))).
Proof using HI Hs Hh Hl. intros Hle Hf. apply (read_all_ok _ _ _ _ _ _ _ _ (fun from _ => bounded_total from) Hle Hf). Qed.
End paged.

(** ** The smallest offsets of some signals *)

Lemma elem_of_heap_push x off h : x ∈ heap_push off h <-> x = off \/ x ∈ h.
Proof.
  induction h as [|y h IH]; cbn [heap_push]; [by rewrite list_elem_of_singleton, elem_of_nil; naive_solver|].
  destruct (off <=? y)%N; rewrite !elem_of_cons; [done|]. rewrite IH. naive_solver.
Qed.

Lemma length_heap_push off h : length (heap_push off h) = S (length h).
Proof. induction h as [|y h IH]; cbn [heap_push]; [done|]. destruct (off <=? y)%N; simpl; [done|by rewrite IH]. Qed.

Lemma heap_push_sorted off h : StronglySorted N.lt h -> off ∉ h -> StronglySorted N.lt (heap_push off h).
Proof.
  induction 1 as [|y h Hs IH Hf]; intros Hn; cbn [heap_push]; [by repeat constructor|].
  rewrite not_elem_of_cons in Hn. destruct Hn as [Hne Hn]. rewrite Forall_forall in Hf.
  destruct (N.leb_spec off y).
  - constructor; [by constructor; [|rewrite Forall_forall]|]. rewrite Forall_forall. intros x [->|Hx]%elem_of_cons; [lia|]. specialize (Hf x Hx). lia.
  - constructor; [by apply IH|]. rewrite Forall_forall. intros x [->|Hx]%elem_of_heap_push; [lia|by apply Hf].
Qed.

(** [h] holds the [n] smallest of the offsets [P], all of them when there are fewer. *)
Record Best (n : nat) (P : N -> Prop) (h : list N) : Prop := {
  b_sorted : StronglySorted N.lt h;
  b_in : forall x, x ∈ h -> P x;
  b_length : length h <= n;
  b_rest : forall y, P y -> y ∉ h -> length h = n /\ forall x, x ∈ h -> (x < y)%N;
}.

Lemma heap_split (h : list N) : StronglySorted N.lt h -> h <> [] ->
  exists h0, h = h0 ++ [heap_top h] /\ removelast h = h0 /\ heap_top h ∈ h /\ forall x, x ∈ h0 -> (x < heap_top h)%N.
Proof.
  intros Hs Hne. destruct (exists_last Hne) as (h0 & t & ->). unfold heap_top. rewrite last_snoc. simpl. exists h0.
  split_and!; [done|by rewrite removelast_last|apply elem_of_app; right; left|]. intros x Hx. apply StronglySorted_app in Hs as (Hc & _ & _). apply Hc; [done|left].
Qed.

Lemma sig_take_best n l P h : StronglySorted N.lt l -> (forall x, x ∈ l -> ~ P x) -> Best n P h ->
  Best n (fun x => P x \/ x ∈ l) (sig_take n l h) /\ (length h = n -> length (sig_take n l h) = n)
  /\ (forall x, x ∈ sig_take n l h -> x ∈ h \/ x ∈ l).
Proof.
  intros Hs. revert P h. induction Hs as [|off l Hs IH Hf]; intros P h Hd HB; cbn [sig_take].
  { split; [|by split; [|auto]]. destruct HB. split; try done; [by left; auto|]. intros y [Hy|?%elem_of_nil]; [by apply b_rest0|done]. }
  rewrite Forall_forall in Hf. assert (Hoff : off ∉ h) by (intros Hin; apply (Hd off ltac:(left)), (b_in _ _ _ HB), Hin).
  assert (Hd' : forall x, x ∈ l -> ~ (P x \/ x = off)).
  { intros x Hx [Hp| ->]; [by apply (Hd x); [right|]|]. specialize (Hf off Hx). lia. }
  assert (Ext : forall h', Best n (fun x => (P x \/ x = off) \/ x ∈ l) h' -> Best n (fun x => P x \/ x ∈ off :: l) h').
  { intros h' []. split; try done; [intros x Hx; rewrite elem_of_cons; destruct (b_in0 x Hx) as [[]|]; auto|].
    intros y Hy. apply b_rest0. rewrite elem_of_cons in Hy. tauto. }
  destruct (Nat.ltb_spec (length h) n) as [Hlt|Hge].
  - destruct (IH (fun x => P x \/ x = off) (heap_push off h) Hd') as (B1 & B2 & B3).
    { destruct HB. split; [by apply heap_push_sorted|intros x [->|Hx]%elem_of_heap_push; auto|rewrite length_heap_push; lia|].
      intros y [Hy| ->] Hn; [|destruct Hn; apply elem_of_heap_push; by left]. destruct (b_rest0 y Hy); [|lia].
      intros Hin. apply Hn, elem_of_heap_push. by right. }
    split_and!; [by apply Ext|intros; lia|]. intros x Hx. destruct (B3 x Hx) as [[->|Hh]%elem_of_heap_push|Hh]; rewrite elem_of_cons; auto.
  - assert (Hn : length h = n) by (pose proof (b_length _ _ _ HB); lia). destruct (N.leb_spec (heap_top h) off) as [Htop|Htop].
    + split; [|split; [done|by auto]]. destruct HB. split; try done; [by auto|]. intros y Hy Hny. split; [done|]. intros x Hx.
      destruct Hy as [Hy|Hy]; [by apply b_rest0|]. assert (Hoy : (off <= y)%N) by (apply elem_of_cons in Hy as [->|Hy]; [lia|specialize (Hf y Hy); lia]).
      destruct (heap_split h b_sorted0) as (h0 & Eh & _ & _ & Ht); [by intros ->; apply elem_of_nil in Hx|].
      assert ((x <= heap_top h)%N) by (rewrite Eh in Hx; apply elem_of_app in Hx as [Hx%Ht|Hx%list_elem_of_singleton]; lia).
      assert (x <> y) by (intros ->; done). lia.
    + destruct (heap_split h (b_sorted _ _ _ HB)) as (h0 & Eh & Er & Htin & Ht); [intros ->; unfold heap_top in Htop; simpl in Htop; lia|].
      unfold heap_replace. rewrite Er. assert (Hl0 : S (length h0) = n) by (rewrite <- Hn, Eh, length_app; simpl; lia).
      assert (Hh0 : forall x, x ∈ h0 -> x ∈ h) by (intros x Hx; rewrite Eh; apply elem_of_app; by left).
      destruct (IH (fun x => P x \/ x = off) (heap_push off h0) Hd') as (B1 & B2 & B3).
      { destruct HB. split; [| |rewrite length_heap_push; lia|].
        - apply heap_push_sorted; [|by intros ?%Hh0]. rewrite Eh in b_sorted0. by apply StronglySorted_app in b_sorted0 as (_ & ? & _).
        - intros x [->|Hx]%elem_of_heap_push; auto.
        - intros y Hy Hny. rewrite elem_of_heap_push in Hny. split; [rewrite length_heap_push; lia|]. intros x Hx.
          destruct Hy as [Hy| ->]; [|tauto]. destruct (decide (y ∈ h)) as [Hyh|Hyh].
          + rewrite Eh in Hyh. apply elem_of_app in Hyh as [Hyh|Hyh%list_elem_of_singleton]; [tauto|]. subst y.
            apply elem_of_heap_push in Hx as [->|Hx]; [done|by apply Ht].
          + destruct (b_rest0 y Hy Hyh) as [_ Hlt]. apply elem_of_heap_push in Hx as [->|Hx]; [|by apply Hlt, Hh0].
            specialize (Hlt _ Htin). lia. }
      split_and!; [by apply Ext|intros _; apply B2; rewrite length_heap_push; lia|].
      intros x Hx. destruct (B3 x Hx) as [[->|Hh]%elem_of_heap_push|Hh]; rewrite elem_of_cons; auto.
Qed.

(** Strictly ascending offsets of a range are no more than the range. *)
Lemma sorted_count l lo t : StronglySorted N.lt l -> (forall x, x ∈ l -> (lo <= x <= t)%N) -> (N.of_nat (length l) <= t + 1 - lo)%N.
Proof.
  intros Hs. revert lo. induction Hs as [|x l Hs IH Hf]; intros lo Hin; [simpl; lia|]. rewrite Forall_forall in Hf.
  pose proof (Hin x ltac:(left)). cbn [length]. specialize (IH (x + 1)%N).
  assert (N.of_nat (length l) <= t + 1 - (x + 1))%N; [|lia]. apply IH. intros y Hy. specialize (Hf y Hy). specialize (Hin y ltac:(by right)). lia.
Qed.

(** [n] offsets in a row leave no room for another below their top. *)
Lemma top_dense h from y : StronglySorted N.lt h -> (forall x, x ∈ h -> (from <= x)%N) -> y ∉ h -> (from <= y <= heap_top h)%N ->
  (N.of_nat (length h) <= heap_top h - from)%N.
Proof.
  intros Hs Hin Hy Hr. destruct h as [|x0 h0]; [simpl; lia|]. set (h := x0 :: h0) in *.
  destruct (heap_split h Hs) as (h1 & Eh & _ & _ & Ht); [done|].
  pose proof (sorted_count (heap_push y h) from (heap_top h) (heap_push_sorted y h Hs Hy)) as Hc. rewrite length_heap_push in Hc.
  assert (N.of_nat (S (length h)) <= heap_top h + 1 - from)%N; [|lia]. apply Hc. intros x [->|Hx]%elem_of_heap_push; [lia|].
  split; [by apply Hin|]. rewrite Eh in Hx. apply elem_of_app in Hx as [Hx%Ht|Hx%list_elem_of_singleton]; lia.
Qed.

(** An index entry of one of [signals] in [[from, hd)]. *)
Definition sig_entry (d : DB) (stream : string) (signals : list string) (from hd off : N) : Prop :=
  (from <= off < hd)%N /\ exists sid, sid ∈ signals /\ is_Some (d !! sigKey stream sid off).

(** No offset is filed under two signals. *)
Definition index_single (d : DB) (stream : string) : Prop :=
  forall sid1 sid2 off, is_Some (d !! sigKey stream sid1 off) -> is_Some (d !! sigKey stream sid2 off) -> sid1 = sid2.

Lemma smallest_loop_best gone d stream from hd n i done signals h h' :
  index_single d stream -> NoDup (done ++ signals) -> Best n (sig_entry d stream done from hd) h ->
  smallest_loop gone d stream from hd n i signals h = Ok h' -> Best n (sig_entry d stream (done ++ signals) from hd) h'.
Proof.
  intros Hsingle. revert i done h. induction signals as [|sid signals IH]; intros i dn h Hnd HB E; cbn [smallest_loop] in E.
  { injection E as <-. by rewrite app_nil_r. }
  destruct (_ && gone i); [done|]. destruct ((length h =? n)%nat && (heap_top h - from <? N.of_nat n)%N) eqn:Eb.
  - injection E as <-. apply andb_true_iff in Eb as [El%Nat.eqb_eq Ed%N.ltb_lt]. destruct HB. split; try done.
    + intros x Hx. destruct (b_in0 x Hx) as (Hr & sid' & Hs' & He). split; [done|]. exists sid'. split; [apply elem_of_app; by left|done].
    + intros y [Hr _] Hy. split; [done|]. intros x Hx. destruct (heap_split h b_sorted0) as (h1 & Eh & _ & _ & Ht); [by intros ->; apply elem_of_nil in Hx|].
      assert ((x <= heap_top h)%N) by (rewrite Eh in Hx; apply elem_of_app in Hx as [Hx%Ht|Hx%list_elem_of_singleton]; lia).
      destruct (N.le_gt_cases y (heap_top h)) as [Hle|]; [|lia].
      pose proof (top_dense h from y b_sorted0 (fun z Hz => proj1 (proj1 (b_in0 z Hz))) Hy ltac:(lia)). lia.
  - set (upTo := if (length h =? n)%nat then _ else _) in E. set (l := filter _ (sig_offsets _ _ _ _)) in E.
    rewrite cons_middle, app_assoc. rewrite cons_middle, app_assoc in Hnd. apply (IH (i + 1)%N (dn ++ [sid])) in E; [done|done|].
    assert (Hl : forall x, x ∈ l <-> (from <= x < upTo)%N /\ is_Some (d !! sigKey stream sid x)).
    { intros x. unfold l. rewrite list_elem_of_filter, elem_of_sig_offsets. intuition lia. }
    assert (Hsl : StronglySorted N.lt l) by (apply strongly_sorted_filter, sig_offsets_sorted).
    assert (Hdis : forall x, x ∈ l -> ~ sig_entry d stream dn from hd x).
    { intros x [_ Hx]%Hl (_ & sid' & Hs' & Hx'). assert (sid' = sid) as -> by (by apply (Hsingle _ _ x)).
      apply NoDup_app in Hnd as (Hnd & _ & _). apply NoDup_app in Hnd as (_ & Hnd & _). by apply (Hnd sid Hs'); left. }
    destruct (sig_take_best n l _ h Hsl Hdis HB) as ([] & Hln & Hsub).
    assert (Hup : (upTo <= hd)%N).
    { unfold upTo. destruct (Nat.eqb_spec (length h) n) as [En|]; [|lia]. destruct h as [|x0 h0]; [unfold heap_top; simpl; lia|].
      destruct (heap_split (x0 :: h0) (b_sorted _ _ _ HB)) as (_ & _ & _ & Hin & _); [done|]. destruct (b_in _ _ _ HB _ Hin) as [? _]. lia. }
    split; try done.
    + intros x Hx. destruct (b_in0 x Hx) as [(Hr & sid' & Hs' & He)|[Hr He]%Hl].
      * split; [done|]. exists sid'. split; [apply elem_of_app; by left|done].
      * split; [lia|]. exists sid. split; [apply elem_of_app; right; left|done].
    + intros y (Hr & sid' & [Hs'|Hs'%list_elem_of_singleton]%elem_of_app & He) Hy.
      { apply b_rest0; [left; split; [done|]; by exists sid'|done]. }
      subst sid'. destruct (N.lt_ge_cases y upTo) as [Hlt|Hge].
      { apply b_rest0; [right; apply Hl; split; [lia|done]|done]. }
      unfold upTo in Hge, Hl. destruct (Nat.eqb_spec (length h) n) as [En|]; [|lia]. split; [by apply Hln|]. intros x Hx.
      assert ((x <= heap_top h)%N).
      { destruct (Hsub x Hx) as [Hxh|[Hxr _]%Hl]; [|lia].
        destruct (heap_split h (b_sorted _ _ _ HB)) as (h1 & Eh & _ & _ & Ht); [by intros ->; apply elem_of_nil in Hxh|].
        rewrite Eh in Hxh. apply elem_of_app in Hxh as [Hx'%Ht|Hx'%list_elem_of_singleton]; lia. }
      assert (x <> y) by (intros ->; done). lia.
Qed.

Lemma smallestSigOffsets_best gone d stream signals from hd n h : index_single d stream -> NoDup signals ->
  smallestSigOffsets gone d stream signals from hd n = Ok h -> Best n (sig_entry d stream signals from hd) h.
Proof.
  intros Hs Hnd E. apply (smallest_loop_best _ _ _ _ _ _ _ [] _ _ _ Hs Hnd) in E; [done|].
  split; [constructor|by intros x ?%elem_of_nil|simpl; lia|]. by intros y (_ & sid & ?%elem_of_nil & _).
Qed.

Lemma index_single_of s stream : Inv s -> stream ∈ streams -> index_single (db s) stream.
Proof.
  intros HI Hs sid1 sid2 off H1 H2. pose proof (si_sig _ _ _ _ _ (inv_stream s HI stream Hs)) as Hi.
  apply Hi in H1 as (_ & e1 & He1 & <-). apply Hi in H2 as (_ & e2 & He2 & <-). congruence.
Qed.

(** ** Through the signal index *)

Section sig_read.
Variables (ctx : N -> bool) (gone : N -> N -> bool) (s : Store) (stream : string) (limit maxScan : N) (signals : list string)
  (head : option HeadFilter) (filter : option (StoredRecord -> bool)).
Hypothesis HI : Inv s.
Hypothesis Hs : stream ∈ streams.
Hypothesis Hh : head_ok head filter.
(** The filter keeps records of the wanted signals only, as [ReadSignals] asks of its
    callers: below the coverage of the index it is all that decides. *)
Hypothesis Hsig : forall off e, keeps filter off e = true -> e_SignalID e <> "" /\ e_SignalID e ∈ signals.

Let d := db s.
Let hd := NextOffset s stream.
Let wanted := sort_strings (remove_dups signals).

Definition covers_to (start : N) (out : list StoredRecord) (next : N) : Prop :=
  (start <= next <= hd)%N /\ out = stored <$> base.filter (wants_rec filter) (scanStream d stream start next).

Definition index_entry (off : N) : Prop := exists sid, sid ∈ wanted /\ is_Some (d !! sigKey stream sid off).

Lemma wanted_entry off e : record_at d stream off = Some e -> keeps filter off e = true -> index_entry off.
Proof using HI Hs Hsig.
  intros He Hk. destruct (Hsig off e Hk) as [Hne Hin]. exists (e_SignalID e). split.
  - unfold wanted. by rewrite sort_strings_perm, elem_of_remove_dups.
  - apply (si_sig _ _ _ _ _ (inv_stream s HI stream Hs)). split; [done|]. by exists e.
Qed.

Lemma entry_range off : index_entry off -> (LWM s stream <= off < hd)%N.
Proof using HI Hs.
  intros (sid & _ & Hx). apply (si_sig _ _ _ _ _ (inv_stream s HI stream Hs)) in Hx as (_ & e & He & _). unfold record_at in He.
  destruct (db s !! streamKey stream off) eqn:Ev; [|done]. by apply (si_range _ _ _ _ _ (inv_stream s HI stream Hs)) in Ev as [? _].
Qed.

Lemma covers_on start out next t : covers_to start out next -> (next <= t <= hd)%N ->
  (forall off e, (next <= off < t)%N -> record_at d stream off = Some e -> keeps filter off e = false) -> covers_to start out t.
Proof using.
  intros [Hb ->] Ht Hno. split; [lia|]. rewrite (scanStream_split d stream start next t) by lia. rewrite filter_app, fmap_app.
  rewrite (filter_none _ (scanStream d stream next t)); [by rewrite app_nil_r|].
  intros [off e] [Hr He]%elem_of_scanStream Hw. unfold wants_rec in Hw. simpl in Hw. by rewrite (Hno off e) in Hw.
Qed.

Lemma covers_skip start out next t : covers_to start out next -> (next <= t <= hd)%N ->
  (forall off, (next <= off < t)%N -> ~ index_entry off) -> covers_to start out t.
Proof using HI Hs Hsig.
  intros HC Ht Hno. apply (covers_on _ _ next); [done..|]. intros off e Hr He. apply not_true_is_false. intros Hk.
  by apply (Hno off Hr), (wanted_entry off e).
Qed.

Lemma scan_one off e : record_at d stream off = Some e -> scanStream d stream off (off + 1) = [(off, e)].
Proof using.
  intros He. apply sorted_unique; [apply scanStream_sorted|repeat constructor|]. intros [o e'].
  rewrite elem_of_scanStream, list_elem_of_singleton. split.
  - intros [Hr He']. assert (o = off) as -> by lia. congruence.
  - intros [= -> ->]. split; [lia|done].
Qed.

Lemma covers_take start out off e : covers_to start out off -> (off < hd)%N -> record_at d stream off = Some e -> keeps filter off e = true ->
  covers_to start (out ++ [storedRecord off e]) (off + 1).
Proof using.
  intros [Hb ->] Hlt He Hk. split; [lia|]. rewrite (scanStream_split d stream start off (off + 1)) by lia.
  rewrite filter_app, fmap_app, (scan_one off e He), filter_cons, decide_True by done. done.
Qed.

Lemma covers_pass start out off : covers_to start out off -> (off < hd)%N ->
  (forall e, record_at d stream off = Some e -> keeps filter off e = false) -> covers_to start out (off + 1).
Proof using.
  intros HC Hlt Hno. apply (covers_on _ _ off); [done|lia|]. intros o e Ho He. assert (o = off) as -> by lia. by apply Hno.
Qed.

(** The offsets of a round: the next index entries, and [more] when some are left. *)
Record Round (next : N) (offs : list N) (more : bool) : Prop := {
  ro_sorted : StronglySorted N.lt offs;
  ro_in : forall off, off ∈ offs -> (next <= off < hd)%N;
  ro_rest : forall off, (next <= off)%N -> index_entry off -> off ∉ offs -> more = true /\ forall x, x ∈ offs -> (x < off)%N;
}.

Lemma round_tail next off offs more : Round next (off :: offs) more -> Round (off + 1) offs more.
Proof using.
  intros [R1 R2 R3]. inversion R1 as [|? ? Hso Hf]; subst. rewrite Forall_forall in Hf. split; [done| |].
  - intros x Hx. pose proof (R2 x ltac:(by right)). specialize (Hf x Hx). lia.
  - intros x Hle Hx Hn. pose proof (R2 off ltac:(left)). destruct (R3 x) as [Hm Hlt]; [lia|done|rewrite not_elem_of_cons; split; [lia|done]|].
    split; [done|]. intros y Hy. apply Hlt. by right.
Qed.

Lemma round_head start out next off offs more : covers_to start out next -> Round next (off :: offs) more -> covers_to start out off.
Proof using HI Hs Hsig.
  intros HC [R1 R2 R3]. pose proof (R2 off ltac:(left)). apply (covers_skip _ _ next); [done|lia|]. intros x Hx He.
  inversion R1 as [|? ? _ Hf]; subst. rewrite Forall_forall in Hf. destruct (R3 x) as [_ Hlt]; [lia|done| |specialize (Hlt off ltac:(left)); lia].
  intros [->|Hin]%elem_of_cons; [lia|]. specialize (Hf x Hin). lia.
Qed.

(** What visiting a round from [next] on gives; [strict] when it has an offset. *)
Definition visit_ok (start next : N) (strict : bool) (o : RoundOut) : Prop :=
  match o with
  | RReturn (Err e) => True
  | RReturn (Ok (out, next')) => covers_to start out next' /\ out <> [] /\ (N.of_nat (length out) <= limit)%N /\ (next <= next')%N
  | RNext a' more' => covers_to start (rd_out a') (rd_next a') /\ (N.of_nat (length (rd_out a')) <= limit)%N
      /\ (more' = false -> forall off, (rd_next a' <= off)%N -> ~ index_entry off)
      /\ (next <= rd_next a')%N /\ (strict = true -> next < rd_next a')%N
  end.

Lemma sig_visit_covers offs more a start : covers_to start (rd_out a) (rd_next a) -> Round (rd_next a) offs more ->
  (N.of_nat (length (rd_out a)) < limit)%N ->
  visit_ok start (rd_next a) (bool_decide (offs <> [])) (sig_visit ctx d stream limit head filter offs more a).
Proof using HI Hs Hh Hsig.
  revert a. induction offs as [|off offs IH]; intros a HC HR Hl; cbn [sig_visit].
  { split_and!; [done|lia| |lia|done]. intros Hm off Hle He. destruct (ro_rest _ _ _ HR off Hle He) as [Hm' _]; [by intros ?%elem_of_nil|congruence]. }
  destruct (cancelled _ _); [done|]. pose proof (ro_in _ _ _ HR off ltac:(left)) as Hr.
  pose proof (round_head _ _ _ _ _ _ HC HR) as HC1. pose proof (round_tail _ _ _ _ HR) as HR1.
  assert (Go : forall a1, rd_next a1 = (off + 1)%N -> covers_to start (rd_out a1) (off + 1) -> (N.of_nat (length (rd_out a1)) < limit)%N ->
    visit_ok start (rd_next a) true (sig_visit ctx d stream limit head filter offs more a1)).
  { intros a1 En HC' Hl'. specialize (IH a1). rewrite En in IH. specialize (IH HC' HR1 Hl'). unfold visit_ok in *.
    destruct (sig_visit _ _ _ _ _ _ _ _ a1) as [[[out next]|e]|a' more']; [|done|].
    - destruct IH as (? & ? & ? & ?). split_and!; try done; lia.
    - destruct IH as (? & ? & ? & ? & ?). split_and!; try done; lia. }
  rewrite bool_decide_eq_true_2 by done.
  assert (Pass : (forall e, record_at d stream off = Some e -> keeps filter off e = false) ->
     visit_ok start (rd_next a) true
       (sig_visit ctx d stream limit head filter offs more (mkReadAcc (rd_out a) (off + 1) (rd_scanned a + 1) (rd_page a)))).
  { intros Hno. apply Go; [done| |done]. apply covers_pass; [done|lia|done]. }
  destruct (d !! streamKey stream off) as [v|] eqn:Ev; [|apply Pass; intros e He; unfold record_at in He; by rewrite Ev in He].
  destruct v as [e| | | | | | |]; try done. assert (He : record_at d stream off = Some e) by (unfold record_at; by rewrite Ev).
  destruct (dropped head e) eqn:Ed; [apply Pass; intros e' He'; assert (e' = e) as -> by congruence; by apply (dropped_unwanted head)|].
  destruct (keeps filter off e) eqn:Ek; cbn [negb]; [|apply Pass; intros e' He'; by assert (e' = e) as -> by congruence].
  destruct (page_take _ _ _) as [page|] eqn:Ep.
  2: { split_and!; [apply HC1..| |lia|lia]. intros Eo. unfold page_take in Ep. rewrite Eo in Ep. simpl in Ep. by rewrite andb_false_r in Ep. }
  pose proof (covers_take _ _ _ _ HC1 ltac:(lia) He Ek) as HC2. cbn [rd_out].
  destruct (N.eqb_spec (N.of_nat (length (rd_out a ++ [storedRecord off e]))) limit) as [El|El].
  - cbn [rd_out rd_next visit_ok]. rewrite length_app in El. simpl in El. split_and!; [apply HC2..|rewrite length_app; simpl; lia| |lia|lia].
    intros Hm x Hle Hx. apply orb_false_iff in Hm as [Hm Hno]. apply negb_false_iff, bool_decide_eq_true in Hno. subst offs.
    destruct (ro_rest _ _ _ HR1 x Hle Hx) as [? _]; [by intros ?%elem_of_nil|congruence].
  - apply Go; [done|done|]. cbn [rd_out]. rewrite length_app in *. simpl in *. lia.
Qed.

Lemma best_round next want offs : Best (S want) (sig_entry d stream wanted (N.max next (LWM s stream)) hd) offs ->
  Round next (take want offs) (want <? length offs)%nat.
Proof using HI Hs.
  intros [B1 B2 B3 B4]. pose proof B1 as B1'. rewrite <- (take_drop want offs) in B1'. apply StronglySorted_app in B1' as (Hc & Hst & _).
  assert (Hin : forall x, x ∈ take want offs -> x ∈ offs) by (intros x Hx; rewrite <- (take_drop want offs); apply elem_of_app; by left).
  split; [done| |].
  - intros off Hoff. destruct (B2 off (Hin off Hoff)) as [? _]. lia.
  - intros off Hle He Hn. destruct (decide (off ∈ offs)) as [Ho|Ho].
    + rewrite <- (take_drop want offs) in Ho. apply elem_of_app in Ho as [|Ho]; [done|]. split.
      * apply Nat.ltb_lt. destruct (drop want offs) as [|y l] eqn:Ed; [by apply elem_of_nil in Ho|]. apply (f_equal length) in Ed. rewrite length_drop in Ed. simpl in Ed. lia.
      * intros x Hx. by apply Hc.
    + pose proof (entry_range off He). destruct (B4 off) as [El Hlt]; [|done|].
      * split; [lia|]. exact He.
      * split; [apply Nat.ltb_lt; lia|]. intros x Hx. apply Hlt, Hin, Hx.
Qed.

Lemma covers_moved start out next : covers_to start out next -> out <> [] -> (start < next)%N.
Proof using.
  intros [Hb ->] Hne. destruct (N.eq_dec start next) as [->|]; [|lia]. destruct Hne.
  unfold scanStream. by rewrite (filter_none (fun x => (next <= fst x < next)%N)) by (intros; lia).
Qed.

Lemma sig_rounds_covers fuel want a start : covers_to start (rd_out a) (rd_next a) -> (N.of_nat (length (rd_out a)) <= limit)%N ->
  N.to_nat (hd - rd_next a) < fuel -> (start < hd)%N ->
  exists r, sig_rounds fuel ctx gone d stream limit maxScan (LWM s stream) hd wanted head filter want a = Some r
    /\ match r with
       | Err e => True
       | Ok (out, next) => covers_to start out next /\ (N.of_nat (length out) <= limit)%N
           /\ (start < rd_next a \/ too_far limit maxScan (rd_scanned a) (rd_out a) = false -> start < next)%N
       end.
Proof using HI Hs Hh Hsig.
  revert want a. induction fuel as [|fuel IH]; intros want a HC Hl Hf Hst; [lia|]. cbn [sig_rounds]. unfold too_far.
  destruct (N.eqb_spec (limit - N.of_nat (length (rd_out a))) 0) as [E0|E0].
  { eexists. split; [done|]. split_and!; [apply HC..|done|]. intros [?|Hn]; [done|]. apply orb_false_iff in Hn as [Hn%N.leb_gt _]. lia. }
  destruct ((0 <? maxScan)%N && (maxScan <=? rd_scanned a)%N) eqn:Em.
  { eexists. split; [done|]. split_and!; [apply HC..|done|]. rewrite orb_true_r. intros [?|?]; done. }
  set (want' := N.min (N.max want _) _). assert (Hw : (0 < want')%N).
  { unfold want', maxSigRound. destruct (N.ltb_spec 0 maxScan) as [Hm|]; [|lia]. simpl in Em. apply N.leb_gt in Em. lia. }
  destruct (smallestSigOffsets _ _ _ _ _ _ _) as [offs|e] eqn:Eo; [|by eexists].
  apply smallestSigOffsets_best in Eo; [|by apply index_single_of|unfold wanted; rewrite sort_strings_perm; apply NoDup_remove_dups].
  pose proof (best_round _ _ _ Eo) as HR.
  pose proof (sig_visit_covers _ _ a start HC HR ltac:(lia)) as HV. unfold visit_ok in HV.
  destruct (sig_visit _ _ _ _ _ _ _ _ a) as [[[out next]|e]|a' more'] eqn:Ev.
  - destruct HV as (HC' & Hne & Hl' & _). eexists. split; [done|]. split_and!; [apply HC'..|done|]. intros _. by apply (covers_moved _ out).
  - by eexists.
  - destruct HV as (HC' & Hl' & Hm & Hle & Hmv). destruct more'; cbn [negb].
    + assert (Hstrict : (rd_next a < rd_next a')%N).
      { destruct (decide (take (N.to_nat want') offs = [])) as [Et|Et]; [|by apply Hmv, bool_decide_eq_true_2].
        exfalso. assert (offs = []) as ->.
        { destruct offs as [|o l]; [done|]. destruct (N.to_nat want') eqn:Ew; [lia|]. by rewrite firstn_cons in Et. }
        rewrite take_nil in Ev. cbn [sig_visit length] in Ev. injection Ev as _ Ev. apply Nat.ltb_lt in Ev. lia. }
      assert (Hf' : N.to_nat (hd - rd_next a') < fuel) by (destruct HC, HC'; lia).
      destruct (IH (4 * want')%N a' HC' Hl' Hf' Hst) as (r & -> & Hr). exists r. split; [done|].
      destruct r as [[out next]|e]; [|done]. destruct Hr as (? & ? & Hr). split_and!; [done..|]. intros _. apply Hr. left. destruct HC. lia.
    + eexists. split; [done|]. assert (HC2 : covers_to start (rd_out a') hd).
      { apply (covers_skip _ _ (rd_next a')); [done|destruct HC'; lia|]. intros off Hr He. by apply (Hm eq_refl off); [lia|]. }
      split_and!; [apply HC2..|done|]. done.
Qed.

(** [ReadSignals] as a paged reader. *)
Lemma ReadSignals_page covered maxBytes fuel from out next : (from < hd)%N -> (0 < limit)%N -> N.to_nat (hd - from) < fuel ->
  ReadSignals fuel ctx gone s covered stream from limit maxScan maxBytes signals head filter = Some (Ok (out, next)) ->
  covers_to from out next /\ (N.of_nat (length out) <= limit)%N
  /\ ((from < next)%N \/ base.filter (wants_rec filter) (scanStream d stream from hd) = []).
Proof using HI Hs Hh Hsig.
  intros Hlt Hl Hf E. unfold ReadSignals in E. cbv zeta in E. fold hd d wanted in E.
  assert (Idx : forall a, covers_to from (rd_out a) (rd_next a) -> (N.of_nat (length (rd_out a)) <= limit)%N ->
     (from < rd_next a \/ too_far limit maxScan (rd_scanned a) (rd_out a) = false)%N ->
     (if (hd <=? rd_next a)%N then Some (Ok (rd_out a, rd_next a))
      else sig_rounds fuel ctx gone d stream limit maxScan (LWM s stream) hd wanted head filter (limit - N.of_nat (length (rd_out a))) a)
     = Some (Ok (out, next)) ->
     covers_to from out next /\ (N.of_nat (length out) <= limit)%N /\ (from < next)%N).
  { intros a HC Ha Hm Ea. destruct (N.leb_spec hd (rd_next a)).
    - injection Ea as <- <-. split_and!; [apply HC..|done|]. lia.
    - destruct (sig_rounds_covers fuel (limit - N.of_nat (length (rd_out a))) a from HC Ha) as (r & Er & Hr); [destruct HC; lia|done|].
      rewrite Er in Ea. injection Ea as ->. destruct Hr as (? & ? & Hr). split_and!; [done..|]. by apply Hr. }
  assert (Nil : covers_to from [] from).
  { split; [lia|]. unfold scanStream. by rewrite (filter_none (fun x => (from <= fst x < from)%N)) by (intros; lia). }
  destruct (N.ltb_spec from covered) as [Hc|Hc].
  - destruct (readRange _ _ _ _ _ _ _ _ _ _) as [[a stopped]|e] eqn:Er; [|done].
    assert (Hle : (from <= N.min covered hd)%N) by lia.
    destruct (readRange_page _ _ _ _ _ _ _ _ _ _ _ _ HI Hs Hh Hle Er) as (Hb & Ho & Hr & Hn & Hmv).
    assert (HC : covers_to from (rd_out a) (rd_next a)) by (split; [lia|done]).
    destruct (stopped || (hd <=? covered)%N) eqn:Est.
    + injection E as <- <-. split_and!; [apply HC..|done|].
      destruct (decide (scanStream d stream from (N.min covered hd) = [])) as [En|En]; [|left; by apply Hmv].
      apply orb_true_iff in Est as [->|Est%N.leb_le].
      * (* stopped without a record in the range: the limit is not reached *)
        exfalso. unfold readRange, d in Er. rewrite stream_entries_records in Er by done. unfold d in En. rewrite En in Er.
        cbn [fmap list_fmap read_loop] in Er. injection Er as <- Er. apply N.leb_le in Er. simpl in Er. lia.
      * right. rewrite N.min_r in En by lia. by rewrite En.
    + apply orb_false_iff in Est as [-> Est%N.leb_gt]. rewrite N.min_l in Hr, Hb by lia.
      assert (HC2 : covers_to from (rd_out a) covered).
      { split; [lia|]. rewrite Ho. unfold d. rewrite (scanStream_split (db s) stream from (rd_next a) covered) by lia.
        rewrite (Hr eq_refl), app_nil_r. done. }
      destruct (Idx (mkReadAcc (rd_out a) covered (rd_scanned a) (rd_page a))) as (? & ? & ?); [done|done|by left|exact E|]. split_and!; [done..|by left].
  - destruct (Idx (mkReadAcc [] from 0 (mkPageBytes maxBytes 0))) as (? & ? & ?); [done|simpl; lia| |exact E|split_and!; [done..|by left]].
    right. unfold too_far; simpl. apply orb_false_iff. split; [by apply N.leb_gt|]. destruct (N.ltb_spec 0 maxScan); [|done]. simpl. apply N.leb_gt. lia.
Qed.

Lemma ReadSignals_returns covered maxBytes fuel from : (from < hd)%N -> N.to_nat (hd - from) < fuel ->
  is_Some (ReadSignals fuel ctx gone s covered stream from limit maxScan maxBytes signals head filter).
Proof using HI Hs Hh Hsig.
  intros Hlt Hf. unfold ReadSignals. cbv zeta. fold hd d wanted.
  assert (Nil : covers_to from [] from).
  { split; [lia|]. unfold scanStream. by rewrite (filter_none (fun x => (from <= fst x < from)%N)) by (intros; lia). }
  assert (Idx : forall a, covers_to from (rd_out a) (rd_next a) -> (N.of_nat (length (rd_out a)) <= limit)%N ->
     is_Some (if (hd <=? rd_next a)%N then Some (Ok (rd_out a, rd_next a))
      else sig_rounds fuel ctx gone d stream limit maxScan (LWM s stream) hd wanted head filter (limit - N.of_nat (length (rd_out a))) a)).
  { intros a HC Ha. destruct (N.leb_spec hd (rd_next a)); [by eexists|].
    destruct (sig_rounds_covers fuel (limit - N.of_nat (length (rd_out a))) a from HC Ha) as (r & -> & _); [destruct HC; lia|done|by eexists]. }
  destruct (N.ltb_spec from covered) as [Hc|Hc]; [|apply Idx; [done|simpl; lia]].
  destruct (readRange _ _ _ _ _ _ _ _ _ _) as [[a stopped]|e] eqn:Er; [|by eexists].
  assert (Hle : (from <= N.min covered hd)%N) by lia.
  destruct (readRange_page _ _ _ _ _ _ _ _ _ _ _ _ HI Hs Hh Hle Er) as (Hb & Ho & Hr & Hn & Hmv).
  destruct (stopped || (hd <=? covered)%N) eqn:Est; [by eexists|]. apply orb_false_iff in Est as [-> Est%N.leb_gt].
  rewrite N.min_l in Hr, Hb by lia. apply Idx; [|done]. cbn [rd_out rd_next]. split; [lia|].
  rewrite Ho. unfold d. rewrite (scanStream_split (db s) stream from (rd_next a) covered) by lia. by rewrite (Hr eq_refl), app_nil_r.
Qed.
End sig_read.

(** ** Through the target index *)

Section target_read.
Variables (ctx : N -> bool) (s : Store) (stream target : string) (limit maxScan : N) (filter : option (StoredRecord -> bool)).
Hypothesis HI : Inv s.
Hypothesis Hs : stream ∈ streams.
Hypothesis Htarget : target <> "".
(** The filter keeps commands for the target only, as [OwedCommand] does. *)
Hypothesis Hfor : forall off e, keeps filter off e = true -> recordTarget (e_Topic e) = target.

Let d := db s.
Let hd := NextOffset s stream.

Lemma elem_of_target_offsets from upTo off :
  off ∈ target_offsets d stream target from upTo <-> (from <= off < upTo)%N /\ is_Some (d !! targetKey stream target off).
Proof using.
  unfold target_offsets. rewrite list_elem_of_filter, merge_sort_Permutation, list_elem_of_omap.
  split; intros [Hl Hx]; (split; [done|]).
  - destruct Hx as (k & ([k' v] & -> & Hkv%elem_of_map_to_list)%list_elem_of_fmap & E). unfold target_off in E. simpl in *.
    destruct (suffix k') as [o|]; [|done]. case_bool_decide as Ek; [|done]. injection E as ->. rewrite <- Ek. by exists v.
  - destruct Hx as [v Hv]. exists (targetKey stream target off). split.
    + apply list_elem_of_fmap. exists (targetKey stream target off, v). split; [done|]. by apply elem_of_map_to_list.
    + unfold target_off. cbn [suffix targetKey]. by rewrite bool_decide_eq_true_2.
Qed.

Lemma target_offsets_sorted from upTo : StronglySorted N.lt (target_offsets d stream target from upTo).
Proof using.
  apply key_offsets_sorted. unfold target_off. intros k k' o E E'. destruct (suffix k), (suffix k'); try done.
  repeat case_bool_decide; congruence.
Qed.

Notation covers start out next := (covers_to s stream filter start out next).

(** The loop over the entries of the target from [rd_next a] on. *)
Lemma target_loop_covers upTo offs a start out next : (upTo <= hd)%N ->
  covers start (rd_out a) (rd_next a) -> (rd_next a <= upTo)%N ->
  StronglySorted N.lt offs -> (forall off, off ∈ offs <-> (rd_next a <= off < upTo)%N /\ is_Some (d !! targetKey stream target off)) ->
  (N.of_nat (length (rd_out a)) <= limit)%N ->
  target_loop ctx d stream upTo limit maxScan filter offs a = Ok (out, next) ->
  covers start out next /\ (next <= upTo)%N /\ (N.of_nat (length out) <= limit)%N
  /\ (start < rd_next a \/ too_far limit maxScan (rd_scanned a) (rd_out a) = false -> start < upTo -> start < next)%N.
Proof using HI Hs Htarget Hfor.
  intros Hup. revert a. induction offs as [|off offs IH]; intros a HC Hle Hso Hin Hl E; cbn [target_loop] in E.
  - injection E as <- <-. assert (HC' : covers start (rd_out a) upTo).
    { apply (covers_on _ _ _ _ _ (rd_next a)); [done|unfold hd in *; lia|]. intros off e Hr He. apply not_true_is_false. intros Hk.
      assert (off ∈ @nil N) as []%elem_of_nil. apply Hin. split; [done|]. rewrite <- (Hfor off e Hk).
      apply (si_target _ _ _ _ _ (inv_stream s HI stream Hs)); [done|]. by rewrite (Hfor off e Hk). }
    unfold too_far. destruct (N.leb_spec limit (N.of_nat (length (rd_out a)))); (split_and!; [done|done|done|]); [|done].
    intros [?|Hf] _; done.
  - destruct (too_far limit maxScan (rd_scanned a) (rd_out a)) eqn:Ef.
    { injection E as <- <-. split_and!; [done..|]. intros [?|?]; done. }
    destruct (cancelled _ _); [done|]. inversion Hso as [|? ? Hso' Hf]; subst. rewrite Forall_forall in Hf.
    destruct (proj1 (Hin off) ltac:(left)) as [Hr Hx].
    assert (HC1 : covers start (rd_out a) off).
    { apply (covers_on _ _ _ _ _ (rd_next a)); [done|unfold hd in *; lia|]. intros o e Ho He. apply not_true_is_false. intros Hk.
      assert (Hoin : o ∈ off :: offs).
      { apply Hin. split; [lia|]. rewrite <- (Hfor o e Hk). apply (si_target _ _ _ _ _ (inv_stream s HI stream Hs)); [done|]. by rewrite (Hfor o e Hk). }
      apply elem_of_cons in Hoin as [->|Ho']; [lia|]. specialize (Hf o Ho'). lia. }
    unfold too_far in Ef. apply orb_false_iff in Ef as [Ef%N.leb_gt _].
    assert (Go : forall a1, rd_next a1 = (off + 1)%N -> covers start (rd_out a1) (off + 1) -> (N.of_nat (length (rd_out a1)) <= limit)%N ->
      target_loop ctx d stream upTo limit maxScan filter offs a1 = Ok (out, next) ->
      covers start out next /\ (next <= upTo)%N /\ (N.of_nat (length out) <= limit)%N
      /\ (start < rd_next a \/ false = false -> start < upTo -> start < next)%N).
    { intros a1 En HC' Hl' E'. apply (IH a1) in E' as (? & ? & ? & Hm); rewrite ?En in *; [| |lia|done| |done].
      - split_and!; [done..|]. intros _ ?. apply Hm; [left; destruct HC as [[] _]; lia|done].
      - done.
      - intros o. split.
        + intros Ho. destruct (proj1 (Hin o) ltac:(by right)) as [? ?]. specialize (Hf o Ho). split; [lia|done].
        + intros [Ho Hs']. assert (Hoin : o ∈ off :: offs) by (apply Hin; split; [lia|done]). apply elem_of_cons in Hoin as [->|]; [lia|done]. }
    assert (Pass : (forall e, record_at d stream off = Some e -> keeps filter off e = false) -> covers start (rd_out a) (off + 1)).
    { intros Hno. apply covers_pass; [done|unfold hd in *; lia|done]. }
    destruct (d !! streamKey stream off) as [v|] eqn:Ev; [|apply Go in E; [done|done|apply Pass; intros e He; unfold record_at in He; by rewrite Ev in He|done]].
    destruct v as [e| | | | | | |]; try done. assert (He : record_at d stream off = Some e) by (unfold record_at; by rewrite Ev).
    destruct (keeps filter off e) eqn:Ek.
    + apply Go in E; [done|done|by apply covers_take; [|unfold hd in *; lia|..]|]. cbn [rd_out]. rewrite length_app. simpl. lia.
    + apply Go in E; [done|done|apply Pass; intros e' He'; by assert (e' = e) as -> by congruence|done].
Qed.

(** A page of [ReadTarget] holds exactly the records the filter keeps of the range it
    covers, at most [limit] of them, and the read moves unless it only scans a range that
    holds no record at all. *)
Lemma ReadTarget_covers covered from upTo out next :
  ReadTarget ctx s covered stream target from upTo limit maxScan filter = Ok (out, next) ->
  (0 < limit)%N -> (N.max from (LWM s stream) < N.min upTo hd)%N ->
  covers (N.max from (LWM s stream)) out next /\ (next <= N.min upTo hd)%N /\ (N.of_nat (length out) <= limit)%N
  /\ (N.max from (LWM s stream) < next \/ N.min upTo hd <= covered /\ scanStream d stream (N.max from (LWM s stream)) (N.min upTo hd) = [])%N.
Proof using HI Hs Htarget Hfor.
  unfold ReadTarget. cbv zeta. fold hd d. set (from' := N.max from (LWM s stream)). set (upTo' := N.min upTo hd).
  intros E Hlim Hlt. rewrite (proj2 (N.leb_gt _ _) Hlt) in E.
  assert (Hd0 : too_far limit maxScan 0 [] = false).
  { unfold too_far. apply orb_false_iff. split; [apply N.leb_gt; simpl; lia|]. destruct (N.ltb_spec 0 maxScan); [|done]. apply N.leb_gt. lia. }
  assert (Loop : forall a, covers from' (rd_out a) (rd_next a) -> (rd_next a <= upTo')%N -> (N.of_nat (length (rd_out a)) <= limit)%N ->
    (from' < rd_next a \/ too_far limit maxScan (rd_scanned a) (rd_out a) = false)%N ->
    target_loop ctx d stream upTo' limit maxScan filter (target_offsets d stream target (rd_next a) upTo') a = Ok (out, next) ->
    covers from' out next /\ (next <= upTo')%N /\ (N.of_nat (length out) <= limit)%N
    /\ (from' < next \/ upTo' <= covered /\ scanStream d stream from' upTo' = [])%N).
  { intros a HC Ha Hl Hm E'. destruct (target_loop_covers upTo' _ a from' out next ltac:(unfold upTo'; lia) HC Ha
      (target_offsets_sorted _ _) (elem_of_target_offsets _ _) Hl E') as (? & ? & ? & Hmv). split_and!; [done..|]. left. by apply Hmv. }
  destruct (N.ltb_spec from' covered) as [Hc|Hc].
  - destruct (readRange _ _ _ _ _ _ _ _ _ _) as [[a stopped]|] eqn:Er; [|done].
    assert (Hle : (from' <= N.min covered upTo')%N) by lia.
    assert (Hh : head_ok (Some (fun topic _ => recordTarget topic == target)) filter).
    { intros h off e [= <-] Hne. apply not_true_is_false. intros Hk. apply Hfor in Hk. rewrite Hk in Hne. by rewrite bool_decide_eq_true_2 in Hne. }
    destruct (readRange_page _ _ _ _ _ _ _ _ _ _ _ _ HI Hs Hh Hle Er) as (Hb & Ho & Hr & Hn & Hmv).
    destruct (stopped || (upTo' <=? covered)%N) eqn:Est.
    + injection E as <- <-. split_and!; [split; [unfold upTo' in *; lia|done]|lia|done|].
      destruct (decide (scanStream d stream from' (N.min covered upTo') = [])) as [En|]; [right|left; by apply Hmv].
      unfold readRange in Er. unfold d in En, Er. rewrite stream_entries_records, En in Er by done. cbn [fmap list_fmap read_loop rd_out length] in Er.
      injection Er as <- <-. change (N.of_nat 0) with 0%N in Est. rewrite (proj2 (N.leb_gt limit 0) Hlim) in Est. apply N.leb_le in Est. split; [done|]. by rewrite N.min_r in En by lia.
    + apply orb_false_iff in Est as [-> Est%N.leb_gt]. rewrite N.min_l in Hr, Hb by lia. apply Loop in E; [done|..]; cbn [rd_out rd_next]; [|lia|done|by left].
      split; [unfold upTo' in *; lia|]. rewrite Ho. unfold d. rewrite (scanStream_split (db s) stream from' (rd_next a) covered) by lia.
      by rewrite (Hr eq_refl), app_nil_r.
  - apply Loop in E; [done|..]; cbn [rd_out rd_next rd_scanned length]; [|lia|simpl; lia|by right].
    split; [unfold upTo' in *; lia|]. unfold scanStream. by rewrite (filter_none (fun x => (from' <= fst x < from')%N)) by (intros; lia).
Qed.
End target_read.

(** ** Search by time *)

Section seek.
Variables (s : Store) (stream : string) (ts : Z).
Hypothesis HI : Inv s.
Hypothesis Hs : stream ∈ streams.
Let d := db s.
Let hd := NextOffset s stream.

(** The first record retained from [o] on. *)
Definition first_from (o : N) : option (N * recEnc) := List.hd_error (scanStream d stream o hd).

Definition older (o : N) : Prop := exists e, record_at d stream o = Some e /\ (e_TS e < ts)%Z.
Definition ready (o : N) : Prop := forall off e, first_from o = Some (off, e) -> (ts <= e_TS e)%Z.

Lemma seek_ge_first o : seek_ge d stream o hd = (fun x => (fst x, VRec (snd x))) <$> first_from o.
Proof using HI Hs. unfold seek_ge, first_from, d. rewrite stream_entries_records by done. by destruct (scanStream _ _ _ _). Qed.

Lemma first_from_record o off e : first_from o = Some (off, e) -> (o <= off < hd)%N /\ record_at d stream off = Some e.
Proof using.
  unfold first_from. intros E. apply elem_of_scanStream. destruct (scanStream _ _ _ _); [done|]. injection E as ->. left.
Qed.

(** The first record from [o] on is the first from any offset up to it. *)
Lemma first_from_later o o' off e : first_from o = Some (off, e) -> (o <= o' <= off)%N -> first_from o' = Some (off, e).
Proof using.
  intros E Hr. destruct (first_from_record _ _ _ E) as [Hb _]. unfold first_from in *.
  rewrite (scanStream_split d stream o o' hd) in E by lia.
  destruct (scanStream d stream o o') as [|[off' e'] l] eqn:El; [done|]. injection E as -> ->.
  assert ((off, e) ∈ scanStream d stream o o') as [Ho _]%elem_of_scanStream by (rewrite El; left). lia.
Qed.

Lemma seek_loop_spec fuel lo0 lo hi : (lo0 <= lo <= hi)%N -> (hi <= hd)%N -> N.to_nat (hi - lo) < fuel ->
  (lo = lo0 \/ older (lo - 1)) -> ready hi ->
  exists r, seek_loop fuel d stream ts hd lo hi = Ok r /\ (lo0 <= r <= hd)%N /\ (r = lo0 \/ older (r - 1)) /\ ready r.
Proof using HI Hs.
  revert lo hi. induction fuel as [|fuel IH]; intros lo hi Hlo Hhi Hf Ho Hr; [lia|]. cbn [seek_loop].
  destruct (N.leb_spec hi lo); [exists lo; assert (hi = lo) as -> by lia; split_and!; done || lia|].
  set (mid := (lo + (hi - lo) / 2)%N). assert (Hm : (lo <= mid < hi)%N).
  { unfold mid. assert (0 < hi - lo)%N as Hp by lia. pose proof (N.div_lt _ 2 Hp eq_refl) as Hd. revert Hd. generalize ((hi - lo) / 2)%N. lia. }
  rewrite seek_ge_first. destruct (first_from mid) as [[off e]|] eqn:E; cbn [fmap option_fmap option_map fst snd].
  - destruct (first_from_record _ _ _ E) as [Hb He]. destruct (Z.leb_spec ts (e_TS e)).
    + apply IH; [lia|lia|lia|done|]. intros off' e' E'. rewrite E in E'. by injection E' as <- <-.
    + assert (off < hi)%N.
      { apply N.nle_gt. intros Hge. apply (first_from_later _ hi) in E; [|lia]. apply Hr in E. lia. }
      apply IH; [lia..| |done]. right. exists e. by replace (off + 1 - 1)%N with off by lia.
  - apply IH; [lia|lia|lia|done|]. intros off' e' E'. by rewrite E in E'.
Qed.

(** Timestamps never decrease along the stream. *)
Definition time_ordered : Prop := forall o1 o2 e1 e2, record_at d stream o1 = Some e1 -> record_at d stream o2 = Some e2 ->
  (o1 <= o2)%N -> (e_TS e1 <= e_TS e2)%Z.

Lemma boundary r off e : time_ordered -> (r = LWM s stream \/ older (r - 1)) -> ready r -> record_at d stream off = Some e ->
  (r <= off)%N <-> (ts <= e_TS e)%Z.
Proof using HI Hs.
  intros Ht Ho Hr He. assert (Hb : (LWM s stream <= off < hd)%N).
  { unfold record_at, d in He. destruct (db s !! streamKey stream off) eqn:Ev; [|done].
    by apply (si_range _ _ _ _ _ (inv_stream s HI stream Hs)) in Ev as [? _]. }
  split.
  - intros Hle. destruct (first_from r) as [[o' e']|] eqn:E.
    + etransitivity; [by apply (Hr o' e')|]. destruct (first_from_record _ _ _ E) as [? He']. apply (Ht o' off); [done..|].
      apply N.nlt_ge. intros Hlt. assert (HE : first_from off = Some (o', e')) by (apply (first_from_later r); [done|lia]).
      unfold first_from in HE. assert (Hin : (off, e) ∈ scanStream d stream off hd) by (apply elem_of_scanStream; split; [lia|done]).
      pose proof (scanStream_sorted d stream off hd) as Hso. destruct (scanStream d stream off hd) as [|x l]; [done|]. injection HE as ->.
      apply elem_of_cons in Hin as [[= -> ->]|Hin]; [lia|]. inversion Hso as [|? ? _ Hf]; subst. rewrite Forall_forall in Hf.
      specialize (Hf _ Hin). unfold off_lt in Hf. simpl in Hf. lia.
    + assert (Hin : (off, e) ∈ scanStream d stream r hd) by (apply elem_of_scanStream; split; [lia|done]).
      unfold first_from in E. by destruct (scanStream d stream r hd); [apply elem_of_nil in Hin|].
  - intros Hts. apply N.nlt_ge. intros Hlt. destruct Ho as [->|(e' & He' & Hlt')]; [lia|].
    specialize (Ht off (r - 1)%N e e' He He'). lia.
Qed.
End seek.

(** A read whose caller stays cannot fail: every entry of a stream is a record. *)

Lemma smallest_loop_total d stream from hd n i signals h : exists offs, smallest_loop never d stream from hd n i signals h = Ok offs.
Proof.
  revert i h. induction signals as [|sid signals IH]; intros i h; cbn [smallest_loop]; [by eexists|].
  unfold never at 1. rewrite andb_false_r. destruct (_ && _); [by eexists|apply IH].
Qed.

Lemma stream_value s stream off v : Inv s -> stream ∈ streams -> db s !! streamKey stream off = Some v -> exists e, v = VRec e.
Proof. intros HI Hs Hv. by apply (si_range _ _ _ _ _ (inv_stream s HI stream Hs)) in Hv as [_ ?]. Qed.

Lemma sig_visit_total s stream limit head filter offs more a r : Inv s -> stream ∈ streams ->
  sig_visit never (db s) stream limit head filter offs more a = RReturn r -> exists p, r = Ok p.
Proof.
  intros HI Hs. revert a. induction offs as [|off offs IH]; intros a; cbn [sig_visit]; [done|].
  unfold cancelled, never at 1. rewrite andb_false_r. destruct (db s !! streamKey stream off) as [v|] eqn:Ev; [|apply IH].
  destruct (stream_value s stream off v HI Hs Ev) as [e ->]. destruct (dropped head e); [apply IH|].
  destruct (negb _); [apply IH|]. destruct (page_take _ _ _); [|intros [= <-]; by eexists]. cbv zeta.
  destruct (_ =? _)%N; [done|apply IH].
Qed.

Lemma sig_rounds_total fuel s stream limit maxScan lwm hd wanted head filter want a r : Inv s -> stream ∈ streams ->
  sig_rounds fuel never (fun _ => never) (db s) stream limit maxScan lwm hd wanted head filter want a = Some r -> exists p, r = Ok p.
Proof.
  intros HI Hs. revert want a. induction fuel as [|fuel IH]; intros want a; cbn [sig_rounds]; [done|].
  destruct (_ =? 0)%N; [intros [= <-]; by eexists|]. destruct (_ && _); [intros [= <-]; by eexists|]. cbv zeta.
  unfold smallestSigOffsets. match goal with |- context [smallest_loop never ?d ?st ?f ?h ?n ?i ?l ?hp] =>
    destruct (smallest_loop_total d st f h n i l hp) as [offs ->] end.
  destruct (sig_visit _ _ _ _ _ _ _ _ _) as [r'|a' m] eqn:Ev.
  - intros [= <-]. by apply (sig_visit_total s stream) in Ev.
  - destruct (negb m); [intros [= <-]; by eexists|apply IH].
Qed.

Lemma target_loop_total s stream upTo limit maxScan filter offs a : Inv s -> stream ∈ streams ->
  exists p, target_loop never (db s) stream upTo limit maxScan filter offs a = Ok p.
Proof.
  intros HI Hs. revert a. induction offs as [|off offs IH]; intros a; cbn [target_loop]; [by eexists|].
  destruct (too_far _ _ _ _); [by eexists|]. unfold cancelled, never at 1. rewrite andb_false_r.
  destruct (db s !! streamKey stream off) as [v|] eqn:Ev; [|apply IH].
  destruct (stream_value s stream off v HI Hs Ev) as [e ->]. destruct (keeps _ _ _); apply IH.
Qed.

Lemma readRange_total s stream from upTo limit maxScan page head filter : Inv s -> stream ∈ streams ->
  exists p, readRange never (db s) stream from upTo limit maxScan page head filter = Ok p.
Proof. intros HI Hs. unfold readRange. rewrite stream_entries_records by done. apply read_loop_total. Qed.

Lemma ReadSignals_total fuel s covered stream from limit maxScan maxBytes signals head filter r : Inv s -> stream ∈ streams ->
  ReadSignals fuel never (fun _ => never) s covered stream from limit maxScan maxBytes signals head filter = Some r -> exists p, r = Ok p.
Proof.
  intros HI Hs. unfold ReadSignals. cbv zeta.
  assert (Idx : forall a, (if (NextOffset s stream <=? rd_next a)%N then Some (Ok (rd_out a, rd_next a))
      else sig_rounds fuel never (fun _ => never) (db s) stream limit maxScan (LWM s stream) (NextOffset s stream)
             (sort_strings (remove_dups signals)) head filter (limit - N.of_nat (length (rd_out a))) a) = Some r -> exists p, r = Ok p).
  { intros a. destruct (_ <=? _)%N; [intros [= <-]; by eexists|by apply sig_rounds_total]. }
  destruct (from <? covered)%N; [|apply Idx].
  match goal with |- context [readRange never _ _ ?f ?u ?l ?m ?p ?h ?fl] => destruct (readRange_total s stream f u l m p h fl HI Hs) as [[a st] ->] end.
  destruct (_ || _); [intros [= <-]; by eexists|apply Idx].
Qed.

Lemma ReadTarget_total s covered stream target from upTo limit maxScan filter : Inv s -> stream ∈ streams ->
  exists p, ReadTarget never s covered stream target from upTo limit maxScan filter = Ok p.
Proof.
  intros HI Hs. unfold ReadTarget. cbv zeta. destruct (_ <=? _)%N; [by eexists|].
  destruct (_ <? _)%N; [|by apply target_loop_total].
  match goal with |- context [readRange never _ _ ?f ?u ?l ?m ?p ?h ?fl] => destruct (readRange_total s stream f u l m p h fl HI Hs) as [[a st] ->] end.
  destruct (_ || _); [by eexists|by apply target_loop_total].
Qed.

(** *** Short pages: without a scan bound, a page below its limit is the last one *)

Lemma target_loop_short ctx d stream upTo limit filter offs a out next :
  target_loop ctx d stream upTo limit 0 filter offs a = Ok (out, next) -> (N.of_nat (length out) < limit)%N -> next = upTo.
Proof.
  revert a. induction offs as [|off offs IH]; intros a; cbn [target_loop].
  - intros [= <- <-] Hl. by rewrite (proj2 (N.leb_gt _ _) Hl).
  - destruct (too_far _ _ _ _) eqn:Ef; [|destruct (cancelled _ _); [done|]; repeat (case_match; try done); apply IH].
    intros [= <- <-] Hl. unfold too_far in Ef. rewrite (proj2 (N.leb_gt _ _) Hl) in Ef. done.
Qed.

Lemma read_loop_short ctx limit head filter entries a a' : pb_max (rd_page a) = 0%N ->
  read_loop ctx limit 0 head filter entries a = Ok (a', true) -> (limit <= N.of_nat (length (rd_out a')))%N.
Proof.
  revert a. induction entries as [|[off v] entries IH]; intros a Hp; cbn [read_loop].
  - intros [= <- E]. by apply N.leb_le.
  - destruct (too_far _ _ _ _) eqn:Ef.
    { intros [= <-]. unfold too_far in Ef. rewrite orb_false_r in Ef. by apply N.leb_le. }
    destruct (cancelled _ _); [done|]. destruct v as [e| | | | | | |]; try done.
    destruct (dropped _ _); [by apply IH|]. destruct (negb _); [by apply IH|].
    unfold page_take. rewrite Hp. cbn [N.ltb N.compare andb]. by apply IH.
Qed.

Lemma ReadTarget_short ctx s covered stream target from upTo limit filter out next : Inv s -> stream ∈ streams ->
  (forall off e, keeps filter off e = true -> recordTarget (e_Topic e) = target) ->
  ReadTarget ctx s covered stream target from upTo limit 0 filter = Ok (out, next) -> (N.of_nat (length out) < limit)%N ->
  scanStream (db s) stream next (N.min upTo (NextOffset s stream)) = [].
Proof.
  intros HI Hs Hfor. unfold ReadTarget. cbv zeta. set (stop := N.min upTo _). set (start := N.max from _).
  assert (Nil : forall a b, (b <= a)%N -> scanStream (db s) stream a b = []).
  { intros a b Hab. unfold scanStream. by rewrite (filter_none (fun x => (a <= fst x < b)%N)) by (intros; lia). }
  destruct (N.leb_spec stop start); [intros [= <- <-] _; apply Nil; lia|].
  assert (Loop : forall a, target_loop ctx (db s) stream stop limit 0 filter (target_offsets (db s) stream target (rd_next a) stop) a = Ok (out, next) ->
    (N.of_nat (length out) < limit)%N -> scanStream (db s) stream next stop = []).
  { intros a E Hl. apply target_loop_short in E as ->; [|done]. apply Nil. lia. }
  destruct (N.ltb_spec start covered); [|apply Loop].
  destruct (readRange _ _ _ _ _ _ _ _ _ _) as [[a stopped]|] eqn:Er; [|done].
  assert (Hh : head_ok (Some (fun topic _ => recordTarget topic == target)) filter).
  { intros h off e [= <-] Hne. apply not_true_is_false. intros Hk. apply Hfor in Hk. rewrite Hk in Hne. by rewrite bool_decide_eq_true_2 in Hne. }
  assert (Hle : (start <= N.min covered stop)%N) by lia.
  destruct (readRange_page _ _ _ _ _ _ _ _ _ _ _ _ HI Hs Hh Hle Er) as (_ & _ & Hr & _).
  destruct stopped; cbn [orb].
  - intros [= <- <-] Hl. apply read_loop_short in Er; [lia|done].
  - destruct (N.leb_spec stop covered); [|apply Loop]. intros [= <- <-] _. specialize (Hr eq_refl). by rewrite N.min_r in Hr by lia.
Qed.

(** *** One page of [ReadTarget], whatever the range *)

Lemma ReadTarget_page ctx s covered stream target from upTo limit maxScan filter out next :
  Inv s -> stream ∈ streams -> target <> "" -> (forall off e, keeps filter off e = true -> recordTarget (e_Topic e) = target) ->
  (0 < limit)%N ->
  let start := N.max from (LWM s stream) in
  let stop := N.min upTo (NextOffset s stream) in
  ReadTarget ctx s covered stream target from upTo limit maxScan filter = Ok (out, next) ->
  (start <= next <= N.max start stop)%N
  /\ out = stored <$> base.filter (wants_rec filter) (scanStream (db s) stream start next)
  /\ (N.of_nat (length out) <= limit)%N
  /\ ((start < stop)%N -> (start < next)%N \/ (stop <= covered)%N /\ scanStream (db s) stream start stop = []).
Proof.
  intros HI Hs Ht Hfor Hl start stop E.
  assert (Nil : forall a b, (b <= a)%N -> scanStream (db s) stream a b = []).
  { intros a b Hab. unfold scanStream. by rewrite (filter_none (fun x => (a <= fst x < b)%N)) by (intros; lia). }
  destruct (decide (stop <= start)%N) as [Hle|Hlt].
  - unfold ReadTarget in E. cbv zeta in E. fold start stop in E. rewrite (proj2 (N.leb_le _ _) Hle) in E. injection E as <- <-.
    rewrite !Nil by lia. split_and!; [lia..|done|simpl; lia|lia].
  - destruct (ReadTarget_covers ctx s stream target limit maxScan filter HI Hs Ht Hfor covered from upTo out next E Hl) as ([? ?] & ? & ? & ?);
      fold start stop; [lia|]. split_and!; [lia..|done|done|done].
Qed.

(** ** The theorems *)

(** A consumer that asks [ReadRecordsBounded] for page after page, each read from
    where the last one ended, receives exactly the records of the stream its filter
    keeps, in order, each once, up to the head, whatever the page size, the scan bound
    and the byte bound, and it is done after at most one page per offset. *)
Theorem ReadRecordsBounded_complete s stream limit maxScan maxBytes head filter from :
  Inv s -> stream ∈ streams -> head_ok head filter -> (0 < limit)%N -> (from <= NextOffset s stream)%N ->
  read_all (S (N.to_nat (NextOffset s stream - from))) (NextOffset s stream)
    (fun from => ReadRecordsBounded never s stream from limit maxScan maxBytes head filter) from
  = Ok (stored <$> base.filter (wants_rec filter) (scanStream (db s) stream from (NextOffset s stream))).
Proof. intros. apply read_bounded_complete; [done..|lia]. Qed.

(** C28: [ReadSignals] for a filter that keeps records of the named signals only, above
    any coverage of the signal index: it returns within one round per offset; a page is
    what a scan of the stream gives for the range the page covers, of at most [limit]
    records; and the next page starts further on unless the stream holds nothing more
    for the reader. A caller that stays gets no error. *)
Theorem ReadSignals_exact ctx gone s covered stream from limit maxScan maxBytes signals head filter :
  Inv s -> stream ∈ streams -> head_ok head filter ->
  (forall off e, keeps filter off e = true -> e_SignalID e <> "" /\ e_SignalID e ∈ signals) ->
  (from < NextOffset s stream)%N -> (0 < limit)%N ->
  exists r, ReadSignals (S (N.to_nat (NextOffset s stream - from))) ctx gone s covered stream from limit maxScan maxBytes signals head filter
              = Some r
  /\ (ctx = never -> gone = (fun _ => never) -> exists p, r = Ok p)
  /\ forall out next, r = Ok (out, next) ->
       (from <= next <= NextOffset s stream)%N
       /\ out = stored <$> base.filter (wants_rec filter) (scanStream (db s) stream from next)
       /\ (N.of_nat (length out) <= limit)%N
       /\ ((from < next)%N \/ base.filter (wants_rec filter) (scanStream (db s) stream from (NextOffset s stream)) = []).
Proof.
  intros HI Hs Hh Hsig Hlt Hl.
  destruct (ReadSignals_returns ctx gone s stream limit maxScan signals head filter HI Hs Hh Hsig covered maxBytes
    (S (N.to_nat (NextOffset s stream - from))) from Hlt ltac:(lia)) as [r E].
  exists r. split_and!; [done| |].
  - intros -> ->. by apply ReadSignals_total in E.
  - intros out next ->. apply ReadSignals_page in E; [|done..|lia]. by destruct E as ([? ?] & ? & ?).
Qed.

(** [ReadTarget] for a filter that keeps commands of the target only, above any
    coverage of the target index: a page is what a scan of the stream gives for the range
    it covers, of at most [limit] records, within the bounds asked for; the next page
    starts further on, unless the index starts past the range and the range holds no
    record at all; and a caller that stays gets no error. *)
Theorem ReadTarget_exact ctx s covered stream target from upTo limit maxScan filter :
  Inv s -> stream ∈ streams -> target <> "" -> (forall off e, keeps filter off e = true -> recordTarget (e_Topic e) = target) ->
  (0 < limit)%N ->
  let start := N.max from (LWM s stream) in
  let stop := N.min upTo (NextOffset s stream) in
  (ctx = never -> exists p, ReadTarget ctx s covered stream target from upTo limit maxScan filter = Ok p)
  /\ forall out next, ReadTarget ctx s covered stream target from upTo limit maxScan filter = Ok (out, next) ->
       (start <= next <= N.max start stop)%N
       /\ out = stored <$> base.filter (wants_rec filter) (scanStream (db s) stream start next)
       /\ (N.of_nat (length out) <= limit)%N
       /\ ((start < stop)%N -> (start < next)%N \/ (stop <= covered)%N /\ scanStream (db s) stream start stop = []).
Proof.
  intros HI Hs Ht Hfor Hl start stop. split; [intros ->; by apply ReadTarget_total|]. intros out next E.
  by apply (ReadTarget_page ctx s covered stream target from upTo limit maxScan filter).
Qed.

(** [SeekTS] always ends, at an offset between the low-water mark and the head: the
    record just below it is older than [ts] unless it is the low-water mark, and the
    first record from it on is not. Where the stream is in time order the offset divides
    it: the records at or after [ts] are exactly those from it on. *)
Theorem SeekTS_spec s stream ts : Inv s -> stream ∈ streams ->
  exists r, SeekTS s stream ts = Ok r /\ (LWM s stream <= r <= NextOffset s stream)%N
  /\ (r = LWM s stream \/ older s stream ts (r - 1)) /\ ready s stream ts r
  /\ (time_ordered s stream -> forall off e, record_at (db s) stream off = Some e -> (r <= off)%N <-> (ts <= e_TS e)%Z).
Proof.
  intros HI Hs. destruct (ci_bounds _ _ (inv_counter s HI stream Hs)) as [Hl Hb]. unfold SeekTS. cbv zeta.
  destruct (N.eqb_spec (LWM s stream) 0) as [|_]; [lia|]. assert (Hend : ready s stream ts (NextOffset s stream)).
  { intros off e E. apply first_from_record in E. lia. }
  assert (Fin : forall r, (LWM s stream <= r <= NextOffset s stream)%N /\ (r = LWM s stream \/ older s stream ts (r - 1)) /\ ready s stream ts r ->
    (LWM s stream <= r <= NextOffset s stream)%N /\ (r = LWM s stream \/ older s stream ts (r - 1)) /\ ready s stream ts r
    /\ (time_ordered s stream -> forall off e, record_at (db s) stream off = Some e -> (r <= off)%N <-> (ts <= e_TS e)%Z)).
  { intros r (Hr & Ho & Hd). split_and!; [lia..|done|done|]. intros Ht off e He. by apply (boundary s stream ts HI Hs). }
  destruct (N.leb_spec (NextOffset s stream) (LWM s stream)).
  - exists (NextOffset s stream). split; [done|]. apply Fin. split_and!; [lia..|left; lia|done].
  - destruct (seek_loop_spec s stream ts HI Hs (S (N.to_nat (NextOffset s stream - LWM s stream))) (LWM s stream) (LWM s stream) (NextOffset s stream))
      as (r & E & Hr); [lia..|by left|done|]. exists r. split; [done|by apply Fin].
Qed.
End readers.

(** ** On concrete stores *)

Section examples.
#[local] Existing Instance demo_codec.

Definition demo_peeks (e : recEnc) : bool := true.

(** The samples of one signal. *)
Definition demo_want : option (StoredRecord -> bool) := Some (fun r => e_SignalID (sr_rec r) =? "sig")%string.
Definition demo_head : option HeadFilter := Some (fun _ sid => sid =? "sig")%string.

Lemma demo_head_ok : head_ok demo_head demo_want.
Proof. intros h off e [= <-] E. exact E. Qed.

Lemma demo_want_signals off e : keeps demo_want off e = true -> e_SignalID e <> "" /\ e_SignalID e ∈ ["sig"].
Proof. cbn. intros E%String.eqb_eq. rewrite E. split; [done|left]. Qed.

(** Pages of at most one record. *)
Lemma ReadRecordsBounded_complete_witness :
  exists out, read_all 4%nat (NextOffset demo_signals "metrics")
    (fun from => ReadRecordsBounded demo_peeks never demo_signals "metrics" from 1 2 40 demo_head demo_want) 2 = Ok out
  /\ (sr_Offset <$> out) = [2; 3; 4]%N.
Proof.
  eexists. split.
  - exact (ReadRecordsBounded_complete demo_peeks demo_signals "metrics" 1 2 40 demo_head demo_want 2 demo_signals_inv
             ltac:(tag_in) demo_head_ok eq_refl ltac:(vm_compute; discriminate)).
  - vm_compute. reflexivity.
Defined.

Lemma ReadSignals_exact_witness :
  exists out, ReadSignals demo_peeks 4%nat never (fun _ => never) demo_signals 0 "metrics" 2 2 0 0 ["sig"] demo_head demo_want
                = Some (Ok (out, 4%N))
  /\ (sr_Offset <$> out) = [2; 3]%N /\ (4 <= NextOffset demo_signals "metrics")%N.
Proof.
  eexists. split_and!; [vm_compute; reflexivity|vm_compute; reflexivity|].
  destruct (ReadSignals_exact demo_peeks never (fun _ => never) demo_signals 0 "metrics" 2 2 0 0 ["sig"] demo_head demo_want demo_signals_inv
    ltac:(tag_in) demo_head_ok demo_want_signals eq_refl eq_refl) as (r & E & Hk & Hr).
  destruct (Hk eq_refl eq_refl) as [[out next] ->]. destruct (Hr out next eq_refl) as [? _].
  assert (next = 4%N) as -> by (vm_compute in E; congruence). lia.
Defined.

(** Two machines' commands; "m1" is sent the first and the third. *)
Definition demo_commands : Store :=
  put_records "commands" (map (fun node => demo_rec ("colca/v1/_CmdExec/" ++ node ++ "/a") "go" "a" node false) ["m1"; "m2"; "m1"]%string) demo_store.

Lemma demo_commands_inv : Inv demo_commands.
Proof. apply put_records_inv; [tag_in|exact demo_store_inv]. Qed.

Definition demo_for (target : string) : option (StoredRecord -> bool) := Some (fun r => recordTarget (e_Topic (sr_rec r)) =? target)%string.

Lemma ReadTarget_exact_witness :
  exists out, ReadTarget demo_peeks never demo_commands 2 "commands" "m1" 0 9 5 0 (demo_for "m1") = Ok (out, 4%N)
  /\ (sr_Offset <$> out) = [1; 3]%N.
Proof.
  destruct (ReadTarget_exact demo_peeks never demo_commands 2 "commands" "m1" 0 9 5 0 (demo_for "m1") demo_commands_inv ltac:(tag_in)
    ltac:(discriminate) (fun off e E => proj1 (String.eqb_eq _ _) E) eq_refl) as [Ht Hp].
  destruct (Ht eq_refl) as [[out next] E]. destruct (Hp out next E) as (_ & Ho & _).
  assert (next = 4%N) as -> by (vm_compute in E; congruence). exists out. split; [exact E|]. rewrite Ho. vm_compute. reflexivity.
Defined.

Lemma SeekTS_spec_witness : SeekTS demo_signals "metrics" 30 = Ok 4%N /\ ready demo_signals "metrics" 30 4.
Proof.
  destruct (SeekTS_spec demo_signals "metrics" 30 demo_signals_inv ltac:(tag_in)) as (r & E & _ & _ & Hr & _).
  assert (r = 4%N) as -> by (vm_compute in E; congruence). by split.
Defined.
End examples.
