(* ===== verification/Redelivery.v ===== *)
(** * Command delivery and redelivery

    [internal/engine/redelivery.go] with [plugins/uns/redelivery.go], the part of
    [uns.go] that reads a command's deadline and [StandaloneGet] of
    [internal/store/standalone.go]. A command for a machine is published on the local
    bus; a cursor of the machine on the commands stream, its floor, says up to where
    its commands are settled; what is owed above it is replayed when the machine
    subscribes. The theorems: the commands handed to a machine go in order and none
    twice, none is passed over that was not handed over, expired or retired, and a
    replay delivers everything owed. *)

From S2P Require Export Readers Authz.

Open Scope string_scope.
Open Scope list_scope.
Open Scope go_scope.

(** ** Data *)

(** [StandaloneState]: what a standalone period left behind. *)
Record StandaloneState := mkStandalone {
  CommandsBefore : N;
  FormerAncestors : list string;
  Since : Z;
  PATs : option (gmap string bool);
  Identities : list string;
  Ready : bool;
  Pending : bool;
}.

(** The JSON documents this part reads: the deadline of a command's payload in
    milliseconds and the standalone journal. *)
Class CommandCodec := {
  json_expires_at : string -> option Z;
  json_standalone : string -> option StandaloneState;
}.

Definition standaloneKey : Key := mkKey ["j"; "standalone"] None.

(** What is put on the local bus. *)
Record Publication := mkPub { pub_topic : string; pub_payload : string; pub_retain : bool }.

Section redelivery.
Context `{Codec} `{CommandCodec}.

Definition StandaloneGet (s : Store) : result StoreErr (option StandaloneState) :=
  match db s !! standaloneKey with
  | None => Ok None
  | Some (VBytes raw) =>
      match json_standalone raw with
      | Some st => match PATs st with
                   | Some _ => if (Since st <=? 0)%Z then Err EDecode else Ok (Some st)
                   | None => Err EDecode
                   end
      | None => Err EDecode
      end
  | Some _ => Err EDecode
  end.

Definition CommandDeadline (payload : string) : option Z := json_expires_at payload.

Definition CommandStillLive (payload : string) (nowMS : Z) : bool :=
  match CommandDeadline payload with Some deadline => (nowMS <=? deadline)%Z | None => true end.

Definition OwedCommand (topic payload ulid : string) (nowMS : Z) : bool :=
  if ulid == "" then false
  else match Parse topic with
       | Ok p => if negb (IsCommand (ClassOf (Contract p))) then false
                 else if NodeID p != ulid then false
                 else CommandStillLive payload nowMS
       | Err _ => false
       end.

Definition retainFor (c : Class) : bool := IsState c.

(** ** Delivery and replay *)

(** [peeks] is that of [ReadTarget], [covered] where the target index of the commands
    stream starts. *)
Variable peeks : recEnc -> bool.
Variable covered : N.

Definition replayBatch : N := 256.
Definition replayCap : N := 4096.
Definition owedScanBudget : N := 4096.

Definition commandsInForceFrom (s : Store) : option N :=
  match StandaloneGet s with
  | Err _ => None
  | Ok None => Some 0%N
  | Ok (Some st) => Some (CommandsBefore st)
  end.

Definition owed_filter (ulid : string) (now : Z) : option (StoredRecord -> bool) :=
  Some (fun r => OwedCommand (e_Topic (sr_rec r)) (e_Payload (sr_rec r)) ulid now).

Definition owedBelow (now : Z) (s : Store) (stream : string) (floor offset : N) (ulid : string) : bool :=
  if (offset <=? floor)%N then false
  else match commandsInForceFrom s with
       | None => false
       | Some before =>
           match ReadTarget peeks never s covered stream ulid (N.max floor before) offset 1 owedScanBudget (owed_filter ulid now) with
           | Err _ => true
           | Ok (recs, next) => if (length recs =? 0)%nat && (next <? offset)%N then true else (0 <? length recs)%nat
           end
       end.

(** [deliverCommand]: the store, what went on the bus and whether the command was
    counted as undelivered. [ids] is the registry's lookup, [hasSubscriber] the
    broker's, absent when none is wired. *)
Definition deliverCommand (f : Faults) (ms : N) (ids : string -> option Entry) (hasSubscriber : option (string -> string -> bool)) (now : Z)
    (class : Class) (p : Parsed) (topic payload : string) (offset : N) (s : Store) : Store * list Publication * bool :=
  let pub := [mkPub topic payload (retainFor class)] in
  match ids (NodeID p), hasSubscriber with
  | Some target, Some has =>
      if negb (MayUseDoor (Some target) DoorMQTT) then (s, pub, false)
      else
        let stream := StreamFor class in
        let cursor := CommandCursor target in
        let floor := CursorGet s cursor stream in
        if (offset <? floor)%N then (s, [], false)
        else if owedBelow now s stream floor offset (ULID target) then (s, [], false)
        else
          let delivered := has topic (ULID target) in
          if delivered || negb (CommandStillLive payload now)
          then (fst (CursorAck f ms cursor stream (offset + 1) s), pub, false)
          else (s, pub, true)
  | _, _ => (s, pub, false)
  end.

(** The records of one page: those published, where the cursor goes and whether the
    page stalled. [has off] is the broker's answer when it is asked about the record
    at [off]. *)
Fixpoint replay_recs (has : N -> string -> string -> bool) (ulid : string) (recs : list StoredRecord) (next : N)
    : list StoredRecord * N * bool :=
  match recs with
  | [] => ([], next, false)
  | r :: recs =>
      if negb (has (sr_Offset r) (e_Topic (sr_rec r)) ulid) then ([], sr_Offset r, true)
      else let '(pub, next, stalled) := replay_recs has ulid recs next in (r :: pub, next, stalled)
  end.

(** The loop of [ReplayOwedCommands]; [fs from] is what goes wrong with the ack of the
    page read from [from]. [None] when the fuel ran out. *)
Fixpoint replay_loop (fuel : nat) (fs : N -> Faults) (ms : N) (has : N -> string -> string -> bool) (now : Z)
    (ulid stream cursor : string) (head from published : N) (s : Store) : option (Store * list StoredRecord) :=
  match fuel with
  | O => None
  | S fuel =>
      if (from <? head)%N && (published <? replayCap)%N then
        match ReadTarget peeks never s covered stream ulid from head replayBatch 0 (owed_filter ulid now) with
        | Err _ => Some (s, [])
        | Ok (recs, next) =>
            let '(pub, next, stalled) := replay_recs has ulid recs next in
            let s := fst (CursorAck (fs from) ms cursor stream next s) in
            if stalled : bool then Some (s, pub)
            else match replay_loop fuel fs ms has now ulid stream cursor head next (published + N.of_nat (length pub)) s with
                 | Some (s, more) => Some (s, pub ++ more)
                 | None => None
                 end
        end
      else Some (s, [])
  end.

(** [ReplayOwedCommands]: the store and the records published; [bus] says whether a
    bus is wired. *)
Definition ReplayOwedCommands (fs : N -> Faults) (ms : N) (bus : bool) (hasSubscriber : option (N -> string -> string -> bool)) (now : Z)
    (entry : option Entry) (s : Store) : option (Store * list StoredRecord) :=
  match entry, hasSubscriber with
  | Some e, Some has =>
      if negb (MayUseDoor entry DoorMQTT) || negb bus then Some (s, [])
      else
        let stream := StreamFor ClassCmd in
        let cursor := CommandCursor e in
        let from := CursorGet s cursor stream in
        let head := NextOffset s stream in
        match commandsInForceFrom s with
        | None => Some (s, [])
        | Some before =>
            let from := N.max from before in
            replay_loop (S (N.to_nat (head - from))) fs ms has now (ULID e) stream cursor head from 0 s
        end
  | _, _ => Some (s, [])
  end.

Definition replayed (recs : list StoredRecord) : list Publication :=
  (fun r => mkPub (e_Topic (sr_rec r)) (e_Payload (sr_rec r)) (retainFor ClassCmd)) <$> recs.

(** ** What is owed *)

(** A command of the machine that is still live. *)
Definition owed (ulid : string) (now : Z) (x : N * recEnc) : Prop :=
  recordTarget (e_Topic (snd x)) = ulid /\ CommandStillLive (e_Payload (snd x)) now = true.

Lemma keeps_owed ulid now off e : ulid <> "" -> keeps (owed_filter ulid now) off e = true <-> owed ulid now (off, e).
Proof.
  intros Hu. unfold keeps, owed_filter, owed, OwedCommand, recordTarget. cbn [sr_rec storedRecord snd]. rewrite CommandTarget_spec.
  rewrite (bool_decide_eq_false_2 (ulid = "")) by done. destruct (Parse (e_Topic e)) as [p|]; [|cbn; naive_solver].
  destruct (IsCommand _); cbn [andb negb]; [|cbn; naive_solver]. repeat case_bool_decide; cbn; naive_solver.
Qed.

Lemma owed_target ulid now off e : ulid <> "" -> keeps (owed_filter ulid now) off e = true -> recordTarget (e_Topic e) = ulid.
Proof. intros Hu Hk. by apply keeps_owed in Hk as [? _]. Qed.

(** What acks leave alone. *)
Record same_records (s s' : Store) : Prop := {
  sm_inv : Inv s -> Inv s';
  sm_next : forall stream, NextOffset s' stream = NextOffset s stream;
  sm_lwm : forall stream, LWM s' stream = LWM s stream;
  sm_scan : forall stream a b, scanStream (db s') stream a b = scanStream (db s) stream a b;
  sm_force : commandsInForceFrom s' = commandsInForceFrom s;
}.

Lemma same_records_refl s : same_records s s.
Proof. by split. Qed.

Lemma same_records_trans s1 s2 s3 : same_records s1 s2 -> same_records s2 s3 -> same_records s1 s3.
Proof. intros [] []. split; intros; congruence || auto. Qed.

Lemma cursor_only_records s s' : cursor_only s s' -> same_records s s'.
Proof.
  intros Hc. assert (HInv := cursor_only_inv s s' Hc). destruct Hc as (d & -> & Hd). split; [done..| |].
  - intros stream a b. store_simpl. apply sorted_unique; [apply scanStream_sorted..|].
    intros [off e]. rewrite !elem_of_scanStream. unfold record_at. by rewrite Hd by tag_in.
  - unfold commandsInForceFrom, StandaloneGet. store_simpl. by rewrite Hd by tag_in.
Qed.

Lemma CursorAck_records f ms name stream off s : same_records s (fst (CursorAck f ms name stream off s)).
Proof. apply cursor_only_records, CursorAck_only. Qed.

(** ** One page of a replay *)

Definition owed_scan (s : Store) (ulid : string) (now : Z) (a b : N) : list (N * recEnc) :=
  base.filter (wants_rec (owed_filter ulid now)) (scanStream (db s) "commands" a b).

Lemma elem_of_owed_scan s ulid now a b off e : ulid <> "" ->
  (off, e) ∈ owed_scan s ulid now a b <-> (a <= off < b)%N /\ record_at (db s) "commands" off = Some e /\ owed ulid now (off, e).
Proof.
  intros Hu. unfold owed_scan. rewrite list_elem_of_filter, elem_of_scanStream. unfold wants_rec. cbn [fst snd].
  rewrite keeps_owed by done. naive_solver.
Qed.

Lemma owed_scan_sorted s ulid now a b : StronglySorted off_lt (owed_scan s ulid now a b).
Proof. apply sorted_filter, scanStream_sorted. Qed.

Lemma owed_scan_split s ulid now a t b : (a <= t <= b)%N ->
  owed_scan s ulid now a b = owed_scan s ulid now a t ++ owed_scan s ulid now t b.
Proof. intros Ht. unfold owed_scan. by rewrite (scanStream_split _ _ a t b), filter_app. Qed.

Lemma owed_scan_nil s ulid now a b : (b <= a)%N -> owed_scan s ulid now a b = [].
Proof. intros Hab. unfold owed_scan, scanStream. by rewrite (filter_none (fun x => (a <= fst x < b)%N)) by (intros; lia). Qed.

Lemma same_owed s s' ulid now a b : same_records s s' -> owed_scan s' ulid now a b = owed_scan s ulid now a b.
Proof. intros Hs. unfold owed_scan. by rewrite (sm_scan _ _ Hs). Qed.

(** What comes before an owed command in a scan is the scan up to it. *)
Lemma owed_prefix s ulid now a b l1 x l2 : owed_scan s ulid now a b = l1 ++ x :: l2 ->
  (a <= fst x < b)%N /\ owed_scan s ulid now a (fst x) = l1.
Proof.
  intros E. assert (Hx : x ∈ owed_scan s ulid now a b) by (rewrite E; apply elem_of_app; right; left).
  destruct x as [off e]. unfold owed_scan in Hx. apply list_elem_of_filter in Hx as [_ [Hr _]%elem_of_scanStream]. split; [done|]. cbn [fst].
  pose proof (owed_scan_sorted s ulid now a b) as Hs. rewrite E in Hs. apply StronglySorted_app in Hs as (Hlt & Hs1 & Hs2).
  rewrite (owed_scan_split s ulid now a off b) in E by lia.
  apply sorted_unique; [apply owed_scan_sorted|done|]. intros [o1 e1]. split.
  - intros Hin. assert (Ho : (o1 < off)%N).
    { unfold owed_scan in Hin. apply list_elem_of_filter in Hin as [_ [? _]%elem_of_scanStream]. lia. }
    assert (Hin' : (o1, e1) ∈ l1 ++ (off, e) :: l2) by (rewrite <- E; apply elem_of_app; by left).
    apply elem_of_app in Hin' as [|[[= -> ->]|Hin']%elem_of_cons]; [done|lia|].
    inversion Hs2 as [|? ? _ Hf]; subst. rewrite Forall_forall in Hf. specialize (Hf _ Hin'). unfold off_lt in Hf. cbn in Hf. lia.
  - intros Hin. specialize (Hlt (o1, e1) (off, e) Hin ltac:(left)). unfold off_lt in Hlt. cbn in Hlt.
    assert (Hin' : (o1, e1) ∈ owed_scan s ulid now a off ++ owed_scan s ulid now off b) by (rewrite E; apply elem_of_app; by left).
    apply elem_of_app in Hin' as [|Hin']; [done|]. unfold owed_scan in Hin'.
    apply list_elem_of_filter in Hin' as [_ [? _]%elem_of_scanStream]. lia.
Qed.

Lemma scan_from_lwm s stream a b : Inv s -> stream ∈ streams ->
  scanStream (db s) stream (N.max a (LWM s stream)) b = scanStream (db s) stream a b.
Proof.
  intros HI Hs. apply sorted_unique; [apply scanStream_sorted..|]. intros [off e]. rewrite !elem_of_scanStream.
  split; intros [Hr He]; (split; [|done]); [lia|]. unfold record_at in He. destruct (db s !! streamKey stream off) eqn:Ev; [|done].
  apply (si_range _ _ _ _ _ (inv_stream s HI stream Hs)) in Ev as [? _]. lia.
Qed.

(** A page of a machine's owed commands. *)
Lemma owed_page s ulid now from upTo limit maxScan recs next : Inv s -> ulid <> "" -> (0 < limit)%N -> (upTo <= NextOffset s "commands")%N ->
  ReadTarget peeks never s covered "commands" ulid from upTo limit maxScan (owed_filter ulid now) = Ok (recs, next) ->
  (N.max from (LWM s "commands") <= next <= N.max (N.max from (LWM s "commands")) upTo)%N
  /\ recs = stored <$> owed_scan s ulid now from next
  /\ (N.of_nat (length recs) <= limit)%N
  /\ ((from < upTo)%N -> (from < next)%N \/ (upTo <= covered)%N /\ scanStream (db s) "commands" from upTo = []).
Proof.
  intros HI Hu Hl Hup E. assert (Hs : "commands" ∈ streams) by tag_in.
  apply ReadTarget_page in E; [|done|done|done|intros off e; by apply owed_target|done].
  rewrite N.min_l in E by done. destruct E as (Hb & Ho & Hn & Hm). split_and!; [lia|lia| |done|].
  - rewrite Ho. unfold owed_scan. by rewrite scan_from_lwm.
  - intros Hlt. rewrite scan_from_lwm in Hm by done. destruct (decide (N.max from (LWM s "commands") < upTo)%N) as [Hs'|Hs'].
    + destruct (Hm Hs') as [?|?]; [left; lia|by right].
    + left. lia.
Qed.

Definition asked (has : N -> string -> string -> bool) (ulid : string) (x : N * recEnc) : bool := has (fst x) (e_Topic (snd x)) ulid.

Lemma replay_recs_spec has ulid l next pub n stalled :
  replay_recs has ulid (stored <$> l) next = (pub, n, stalled) ->
  exists l1, pub = stored <$> l1 /\ Forall (fun x => asked has ulid x = true) l1
  /\ if stalled then exists x l2, l = l1 ++ x :: l2 /\ n = fst x /\ asked has ulid x = false else l1 = l /\ n = next.
Proof.
  revert pub n stalled. induction l as [|x l IH]; intros pub n stalled; cbn [replay_recs fmap list_fmap].
  - intros [= <- <- <-]. exists []. by repeat split.
  - cbn [stored storedRecord sr_Offset sr_rec]. destruct (has (fst x) (e_Topic (snd x)) ulid) eqn:Ea; cbn [negb].
    + change (list_fmap _ _ stored l) with (stored <$> l). destruct (replay_recs has ulid (stored <$> l) next) as [[pub' n'] st'] eqn:E.
      intros [= <- <- <-]. destruct (IH _ _ _ eq_refl) as (l1 & -> & Hf & Hst). exists (x :: l1). split_and!; [done|by constructor|].
      destruct st'; [|by destruct Hst as [-> ->]]. destruct Hst as (y & l2 & -> & -> & Hy). by exists y, l2.
    + intros [= <- <- <-]. exists []. split_and!; [done|by constructor|]. by exists x, l.
Qed.

(** ** The loop of a replay *)

Section loop.
Variables (fs : N -> Faults) (ms : N) (has : N -> string -> string -> bool) (now : Z) (ulid cursor : string) (head : N).
Hypothesis Hulid : ulid <> "".

(** What a replay from [from] to [stop] did. *)
Record Replayed (s s' : Store) (from published : N) (pub : list StoredRecord) (stop : N) : Prop := {
  rp_same : same_records s s';
  rp_range : (from <= stop <= N.max from head)%N;
  rp_pub : pub = stored <$> owed_scan s ulid now from stop;
  rp_asked : Forall (fun x => asked has ulid x = true) (owed_scan s ulid now from stop);
  rp_cursor : (CursorGet s cursor "commands" <= CursorGet s' cursor "commands" <= N.max (CursorGet s cursor "commands") stop)%N;
  rp_moved : (forall i, fs i = no_faults) -> (from < head)%N -> (published < replayCap)%N ->
               CursorGet s' cursor "commands" = N.max (CursorGet s cursor "commands") stop;
  rp_idle : (head <= from \/ replayCap <= published)%N -> stop = from /\ s' = s;
  rp_end : (head <= stop)%N \/ (replayCap <= published + N.of_nat (length pub))%N
           \/ exists x, x ∈ owed_scan s ulid now stop head /\ fst x = stop /\ asked has ulid x = false;
}.

(** A page, and the replay of what follows it. *)
Lemma Replayed_app s s1 s' from published next pub stop :
  same_records s s1 -> (from <= next <= head)%N -> (from < head)%N -> (published < replayCap)%N ->
  Forall (fun x => asked has ulid x = true) (owed_scan s ulid now from next) ->
  (CursorGet s cursor "commands" <= CursorGet s1 cursor "commands" <= N.max (CursorGet s cursor "commands") next)%N ->
  ((forall i, fs i = no_faults) -> CursorGet s1 cursor "commands" = N.max (CursorGet s cursor "commands") next) ->
  Replayed s1 s' next (published + N.of_nat (length (owed_scan s ulid now from next))) pub stop ->
  Replayed s s' from published ((stored <$> owed_scan s ulid now from next) ++ pub) stop.
Proof using.
  intros Hsm Hr Hlt Hp Hf Hc Hm []. rewrite (same_owed s s1) in rp_pub0, rp_asked0 by done. split.
  - by apply (same_records_trans _ s1).
  - lia.
  - rewrite rp_pub0, <- fmap_app. by rewrite <- owed_scan_split by lia.
  - rewrite (owed_scan_split s ulid now from next stop) by lia. by apply Forall_app.
  - lia.
  - intros Hno _ _. destruct (decide (next < head)%N) as [Hn|Hn].
    + destruct (decide (published + N.of_nat (length (owed_scan s ulid now from next)) < replayCap)%N) as [Hcap|Hcap].
      * rewrite (rp_moved0 Hno Hn Hcap), (Hm Hno). lia.
      * destruct rp_idle0 as [-> ->]; [lia|]. by rewrite (Hm Hno).
    + destruct rp_idle0 as [-> ->]; [lia|]. by rewrite (Hm Hno).
  - lia.
  - rewrite length_app, length_fmap. destruct rp_end0 as [?|[?|(x & Hx & ?)]]; [by left|right; left; lia|right; right].
    rewrite (same_owed s s1) in Hx by done. by exists x.
Qed.

Lemma Replayed_idle s from published : (head <= from \/ replayCap <= published)%N -> Replayed s s from published [] from.
Proof using.
  intros Hi. assert (Hn : owed_scan s ulid now from from = []) by (apply owed_scan_nil; lia).
  split; rewrite ?Hn; try done; try apply same_records_refl; simpl; lia.
Qed.

(** The newest record is retained, or the target index covers the newest offset:
    either way a page that stands still cannot occur. *)
Definition moves (s : Store) : Prop :=
  (covered < NextOffset s "commands")%N \/ is_Some (record_at (db s) "commands" (NextOffset s "commands" - 1)).

Lemma replay_loop_spec fuel from published s : Inv s -> moves s -> head = NextOffset s "commands" -> N.to_nat (head - from) < fuel ->
  exists s' pub stop, replay_loop fuel fs ms has now ulid "commands" cursor head from published s = Some (s', pub)
  /\ Replayed s s' from published pub stop.
Proof using Hulid.
  revert from published s. induction fuel as [|fuel IH]; intros from published s HI Hmv Hhd Hf; [lia|]. cbn [replay_loop].
  destruct (N.ltb_spec from head) as [Hlt|Hge]; cbn [andb];
    [|exists s, [], from; split; [done|apply Replayed_idle; by left]].
  destruct (N.ltb_spec published replayCap) as [Hp|Hp]; [|exists s, [], from; split; [done|apply Replayed_idle; by right]].
  destruct (ReadTarget_total peeks s covered "commands" ulid from head replayBatch 0 (owed_filter ulid now) HI ltac:(tag_in)) as [[recs next] E].
  rewrite E. apply owed_page in E as (Hb & Ho & _ & Hmove); [|done|done|done|lia]. subst recs.
  pose proof (ci_bounds _ _ (inv_counter s HI "commands" ltac:(tag_in))) as Hcb.
  destruct (replay_recs has ulid _ next) as [[pub n] stalled] eqn:Er. apply replay_recs_spec in Er as (l1 & -> & Hasked & Hst).
  set (s1 := fst (CursorAck (fs from) ms cursor "commands" n s)).
  assert (Hsm : same_records s s1) by apply CursorAck_records.
  destruct (CursorAck_get (fs from) ms cursor "commands" n s) as [Hget Hno]. fold s1 in Hget, Hno.
  destruct stalled.
  - destruct Hst as (x & l2 & El & -> & Hx). destruct (owed_prefix _ _ _ _ _ _ _ _ El) as [Hxr Hl1].
    assert (Hin : x ∈ owed_scan s ulid now from next) by (rewrite El; apply elem_of_app; right; left).
    exists s1, (stored <$> l1), (fst x). split; [done|]. split; [done|lia|by rewrite Hl1|by rewrite Hl1|lia|intros Hn _ _; by apply Hno|lia|].
    right; right. exists x. split_and!; [|done|done]. destruct x as [off e]. rewrite elem_of_owed_scan in * by done. naive_solver lia.
  - destruct Hst as [-> ->]. assert (Hadv : (from < next)%N).
    { destruct (Hmove Hlt) as [?|[Hc Hnil]]; [done|]. destruct Hmv as [?|[e He]]; [lia|].
      assert (Hin : (NextOffset s "commands" - 1, e)%N ∈ scanStream (db s) "commands" from head) by (apply elem_of_scanStream; split; [lia|done]).
      rewrite Hnil in Hin. by apply elem_of_nil in Hin. }
    assert (Hmv1 : moves s1).
    { unfold moves in *. rewrite (sm_next _ _ Hsm). destruct Hmv as [?|[e He]]; [by left|right]. exists e.
      unfold s1. destruct (CursorAck_only (fs from) ms cursor "commands" next s) as (d & -> & Hd). unfold record_at in *. store_simpl. by rewrite Hd by tag_in. }
    destruct (IH next (published + N.of_nat (length (stored <$> owed_scan s ulid now from next)))%N s1) as (s' & more & stop & El & Hr);
      [by apply (sm_inv _ _ Hsm)|done|by rewrite (sm_next _ _ Hsm)|lia|].
    rewrite El. exists s', ((stored <$> owed_scan s ulid now from next) ++ more), stop. split; [done|].
    rewrite length_fmap in Hr. apply (Replayed_app s s1 s' from published next); try done; [lia|lia|by intros Hn; apply Hno].
Qed.
(** Pages but the last are full, so the cap is never passed. *)
Lemma replay_loop_cap fuel from published s s' pub : Inv s -> head = NextOffset s "commands" -> (published <= replayCap)%N ->
  (exists k, published = (replayBatch * k)%N) \/ scanStream (db s) "commands" from head = [] ->
  replay_loop fuel fs ms has now ulid "commands" cursor head from published s = Some (s', pub) ->
  (published + N.of_nat (length pub) <= replayCap)%N.
Proof using Hulid.
  revert from published s pub. induction fuel as [|fuel IH]; intros from published s pub HI Hhd Hle Hk; cbn [replay_loop]; [done|].
  destruct (N.ltb_spec from head) as [Hlt|]; cbn [andb]; [|intros [= <- <-]; simpl; lia].
  destruct (N.ltb_spec published replayCap) as [Hp|]; [|intros [= <- <-]; simpl; lia].
  destruct (ReadTarget peeks never s covered _ _ _ _ _ _ _) as [[recs next]|] eqn:E; [|intros [= <- <-]; simpl; lia].
  assert (Htgt : forall off e, keeps (owed_filter ulid now) off e = true -> recordTarget (e_Topic e) = ulid) by (intros off e; by apply owed_target).
  pose proof (ReadTarget_short peeks never s covered "commands" ulid from head replayBatch _ recs next HI ltac:(tag_in) Htgt E) as Hshort.
  rewrite N.min_l in Hshort by lia. apply owed_page in E as (Hb & -> & Hl & _); [|done|done|done|lia].
  pose proof (ci_bounds _ _ (inv_counter s HI "commands" ltac:(tag_in))) as Hcb.
  rewrite length_fmap in Hshort, Hl. set (l := owed_scan s ulid now from next) in *.
  assert (Hroom : (published + N.of_nat (length l) <= replayCap)%N).
  { destruct Hk as [[k ->]|Hnil]; [unfold replayBatch, replayCap in *; lia|].
    assert (l = []) as ->; [|simpl; lia]. unfold l, owed_scan. rewrite (scanStream_split _ _ from next head) in Hnil by lia.
    apply app_eq_nil in Hnil as [-> _]. apply filter_nil. }
  destruct (replay_recs has ulid _ next) as [[pb n] stalled] eqn:Er. apply replay_recs_spec in Er as (l1 & -> & _ & Hst). destruct stalled.
  - intros [= <- <-]. destruct Hst as (x & l2 & El & _). rewrite length_fmap. apply (f_equal length) in El. rewrite length_app in El. simpl in El. lia.
  - destruct Hst as [-> ->]. set (s1 := fst (CursorAck _ _ _ _ _ _)).
    assert (Hsm : same_records s s1) by apply CursorAck_records.
    destruct (replay_loop fuel fs ms has now ulid "commands" cursor head next _ s1) as [[s2 more]|] eqn:El; [|done]. intros [= <- <-].
    apply IH in El; [rewrite length_app; lia|by apply (sm_inv _ _ Hsm)|by rewrite (sm_next _ _ Hsm)|by rewrite length_fmap|].
    rewrite (sm_scan _ _ Hsm), length_fmap. destruct (decide (N.of_nat (length l) < replayBatch)%N) as [Hs|Hs]; [right; by apply Hshort|].
    destruct Hk as [[k ->]|Hnil]; [left; exists (k + 1)%N; lia|right].
    rewrite (scanStream_split _ _ from next head) in Hnil by lia. by apply app_eq_nil in Hnil as [_ ?].
Qed.
End loop.

(** ** Delivery *)

(** Commands a standalone period retired; all of them when its journal is unreadable. *)
Definition retired (s : Store) (off : N) : Prop :=
  match commandsInForceFrom s with None => True | Some before => (off < before)%N end.

(** Below a command that is published live nothing is owed. *)
Lemma owedBelow_none now s floor offset ulid off e : Inv s -> ulid <> "" -> (offset <= NextOffset s "commands")%N ->
  owedBelow now s "commands" floor offset ulid = false ->
  (floor <= off < offset)%N -> record_at (db s) "commands" off = Some e -> owed ulid now (off, e) -> retired s off.
Proof.
  intros HI Hu Hle E Hr He Ho. unfold owedBelow in E. unfold retired. destruct (N.leb_spec offset floor); [lia|].
  destruct (commandsInForceFrom s) as [before|]; [|done]. apply N.nle_gt. intros Hb.
  destruct (ReadTarget peeks never s covered _ _ _ _ _ _ _) as [[recs next]|] eqn:Er; [|done].
  apply owed_page in Er as (Hn & Hrecs & _); [|done..].
  assert (Hlwm : (LWM s "commands" <= off)%N).
  { unfold record_at in He. destruct (db s !! streamKey "commands" off) eqn:Ev; [|done].
    apply (si_range _ _ _ _ _ (inv_stream s HI "commands" ltac:(tag_in))) in Ev as [? _]. lia. }
  destruct recs as [|r recs]; [|done]. cbn in E. destruct (N.ltb_spec next offset); [done|].
  assert (Hin : (off, e) ∈ owed_scan s ulid now (N.max floor before) next) by (rewrite elem_of_owed_scan by done; split; [lia|done]).
  symmetry in Hrecs. apply fmap_nil_inv in Hrecs. rewrite Hrecs in Hin. by apply elem_of_nil in Hin.
Qed.

(** ** One machine over time *)

Section machine.
Variable entry : Entry.
Hypothesis Hdoor : MayUseDoor (Some entry) DoorMQTT = true.
Hypothesis Hulid : ULID entry <> "".

Definition floor_of (s : Store) : N := CursorGet s (CommandCursor entry) "commands".

(** What everything else may do to the store meanwhile: append, prune, move other
    cursors. Nobody else moves the floor, no record is rewritten and no retired
    command comes back into force. *)
Record elsewhere (s s' : Store) : Prop := {
  el_inv : Inv s';
  el_floor : floor_of s' = floor_of s;
  el_next : (NextOffset s "commands" <= NextOffset s' "commands")%N;
  el_record : forall off e, (off < NextOffset s "commands")%N -> record_at (db s') "commands" off = Some e ->
                record_at (db s) "commands" off = Some e;
  el_retired : forall off, retired s off -> retired s' off;
}.

(** The store, the clock and the offsets of the commands handed to the machine:
    published when the machine had a live subscription for them. *)
Record MState := mkMState { ms_store : Store; ms_now : Z; ms_handed : list N }.

(** The steps; [faulty] allows the writes of acks to fail. *)
Inductive mstep (faulty : bool) : MState -> MState -> Prop :=
| ms_elsewhere s s' t t' handed :
    elsewhere s s' -> (t <= t')%Z -> mstep faulty (mkMState s t handed) (mkMState s' t' handed)
| ms_deliver f ms ids has p off e s s' t pubs undelivered handed :
    (faulty = false -> f = no_faults) ->
    record_at (db s) "commands" off = Some e -> Parse (e_Topic e) = Ok p -> IsCommand (ClassOf (Contract p)) = true ->
    NodeID p = ULID entry -> ids (ULID entry) = Some entry ->
    deliverCommand f ms ids (Some has) t ClassCmd p (e_Topic e) (e_Payload e) off s = (s', pubs, undelivered) ->
    mstep faulty (mkMState s t handed)
      (mkMState s' t (handed ++ (if bool_decide (pubs <> []) && has (e_Topic e) (ULID entry) then [off] else [])))
| ms_replay fs ms has s s' t recs handed :
    (faulty = false -> forall i, fs i = no_faults) -> moves s ->
    ReplayOwedCommands fs ms true (Some has) t (Some entry) s = Some (s', recs) ->
    mstep faulty (mkMState s t handed) (mkMState s' t (handed ++ (sr_Offset <$> recs))).

(** Below the floor every command of the machine is settled. *)
Definition settled (st : MState) (off : N) (e : recEnc) : Prop :=
  off ∈ ms_handed st \/ CommandStillLive (e_Payload e) (ms_now st) = false \/ retired (ms_store st) off.

Record MInv (faulty : bool) (st : MState) : Prop := {
  mi_inv : Inv (ms_store st);
  mi_floor : (floor_of (ms_store st) <= NextOffset (ms_store st) "commands")%N;
  mi_settled : forall off e, record_at (db (ms_store st)) "commands" off = Some e -> recordTarget (e_Topic e) = ULID entry ->
                 (off < floor_of (ms_store st))%N -> settled st off e;
  mi_sorted : faulty = false -> StronglySorted N.lt (ms_handed st);
  mi_below : faulty = false -> forall off, off ∈ ms_handed st -> (off < floor_of (ms_store st))%N;
}.

Lemma live_mono payload t t' : (t <= t')%Z -> CommandStillLive payload t = false -> CommandStillLive payload t' = false.
Proof using. unfold CommandStillLive. destruct (CommandDeadline payload); [|done]. rewrite !Z.leb_gt. lia. Qed.

Lemma elsewhere_step faulty s s' t t' handed : elsewhere s s' -> (t <= t')%Z ->
  MInv faulty (mkMState s t handed) -> MInv faulty (mkMState s' t' handed).
Proof using.
  intros [] Ht []. split; cbn [ms_store ms_now ms_handed] in *; rewrite ?el_floor0; [done|lia| |done|done].
  intros off e He Htg Hlt. apply el_record0 in He; [|lia]. destruct (mi_settled0 off e He Htg Hlt) as [?|[Hl|Hr]].
  - by left.
  - right; left. by apply (live_mono _ t).
  - right; right. by apply el_retired0.
Qed.

Lemma same_record_at s s' stream off : same_records s s' -> record_at (db s') stream off = record_at (db s) stream off.
Proof using.
  intros Hsm. apply option_eq. intros e.
  assert (Hin : forall d, record_at d stream off = Some e <-> (off, e) ∈ scanStream d stream off (off + 1)).
  { intros d. rewrite elem_of_scanStream. split; [intros; split; [lia|done]|by intros [_ ?]]. }
  by rewrite !Hin, (sm_scan _ _ Hsm).
Qed.

(** The floor moves over settled commands only. *)
Lemma MInv_advance faulty s s' t handed more : MInv faulty (mkMState s t handed) -> same_records s s' ->
  (floor_of s <= floor_of s' <= NextOffset s "commands")%N ->
  (forall off e, record_at (db s) "commands" off = Some e -> recordTarget (e_Topic e) = ULID entry ->
     (floor_of s <= off < floor_of s')%N -> off ∈ more \/ CommandStillLive (e_Payload e) t = false \/ retired s off) ->
  (faulty = false -> StronglySorted N.lt more /\ forall off, off ∈ more -> (floor_of s <= off < floor_of s')%N) ->
  MInv faulty (mkMState s' t (handed ++ more)).
Proof using.
  intros [] Hsm Hf Hset Hmore. split; cbn [ms_store ms_now ms_handed] in *.
  - by apply (sm_inv _ _ Hsm).
  - rewrite (sm_next _ _ Hsm). lia.
  - intros off e He Htg Hlt. rewrite (same_record_at s s') in He by done. unfold settled, retired. cbn [ms_store ms_now ms_handed].
    rewrite (sm_force _ _ Hsm), elem_of_app. destruct (decide (off < floor_of s)%N) as [Hl|Hl].
    + destruct (mi_settled0 off e He Htg Hl) as [?|[?|?]]; [by left; left|by right; left|by right; right].
    + destruct (Hset off e He Htg) as [?|[?|?]]; [lia|by left; right|by right; left|by right; right].
  - intros Hnf. destruct (Hmore Hnf) as [Hso Hin]. apply StronglySorted_app. split_and!; [|by apply mi_sorted0|done].
    intros o1 o2 H1 H2. apply (mi_below0 Hnf) in H1. apply Hin in H2. lia.
  - intros Hnf off [Ho|Ho]%elem_of_app; [apply (mi_below0 Hnf) in Ho; lia|by apply (Hmore Hnf)].
Qed.

Lemma deliver_step faulty f ms ids has p off e s s' t pubs undelivered handed :
  (faulty = false -> f = no_faults) ->
  record_at (db s) "commands" off = Some e -> NodeID p = ULID entry -> ids (ULID entry) = Some entry ->
  deliverCommand f ms ids (Some has) t ClassCmd p (e_Topic e) (e_Payload e) off s = (s', pubs, undelivered) ->
  MInv faulty (mkMState s t handed) ->
  MInv faulty (mkMState s' t (handed ++ (if bool_decide (pubs <> []) && has (e_Topic e) (ULID entry) then [off] else []))).
Proof using Hdoor Hulid.
  intros Hfa He Hp Hids E HM. unfold deliverCommand in E. rewrite Hp, Hids, Hdoor in E. cbn [negb] in E.
  change (StreamFor ClassCmd) with "commands" in E. fold (floor_of s) in E.
  destruct (N.ltb_spec off (floor_of s)) as [|Hge]; [injection E as <- <- <-; cbn; by rewrite app_nil_r|].
  destruct (owedBelow t s "commands" (floor_of s) off (ULID entry)) eqn:Eo; [injection E as <- <- <-; cbn; by rewrite app_nil_r|].
  assert (Hlt : (off < NextOffset s "commands")%N).
  { unfold record_at in He. destruct (db s !! streamKey "commands" off) eqn:Ev; [|done].
    apply (si_range _ _ _ _ _ (inv_stream s (mi_inv _ _ HM) "commands" ltac:(tag_in))) in Ev as [? _]. lia. }
  destruct (has (e_Topic e) (ULID entry) || negb (CommandStillLive (e_Payload e) t)) eqn:Ed.
  2: { injection E as <- <- <-. apply orb_false_iff in Ed as [Eh _]. cbn. rewrite Eh. by rewrite app_nil_r. }
  injection E as <- <- <-. rewrite (bool_decide_eq_true_2 (_ <> [])) by done. cbn [andb].
  destruct (CursorAck_get f ms (CommandCursor entry) "commands" (off + 1) s) as [Hget Hnf].
  set (s1 := fst (CursorAck _ _ _ _ _ s)) in *. fold (floor_of s) (floor_of s1) in Hget, Hnf.
  assert (Hc : cursor_only s s1) by apply CursorAck_only.
  apply (MInv_advance faulty s s1); [done|by apply cursor_only_records|lia| |].
  - intros o e' He' Htg Hr. destruct (decide (o = off)) as [->|Hne].
    + assert (e' = e) as -> by congruence. apply orb_true_iff in Ed as [->|Ed%negb_true_iff]; [left; left|by right; left].
    + right. destruct (CommandStillLive (e_Payload e') t) eqn:El; [right|by left].
      apply (owedBelow_none t s (floor_of s) off (ULID entry) o e' (mi_inv _ _ HM) Hulid); [lia|done|lia|done|by split].
  - intros Hf. specialize (Hnf (Hfa Hf)). destruct (has _ _); (split; [repeat constructor|]).
    + intros o ->%list_elem_of_singleton. lia.
    + intros o []%elem_of_nil.
Qed.

Lemma replay_step faulty fs ms has s s' t recs handed :
  (faulty = false -> forall i, fs i = no_faults) -> moves s ->
  ReplayOwedCommands fs ms true (Some has) t (Some entry) s = Some (s', recs) ->
  MInv faulty (mkMState s t handed) -> MInv faulty (mkMState s' t (handed ++ (sr_Offset <$> recs))).
Proof using Hdoor Hulid.
  intros Hfa Hmv E HM. unfold ReplayOwedCommands in E. rewrite Hdoor in E. cbn [negb orb] in E.
  change (StreamFor ClassCmd) with "commands" in E. fold (floor_of s) in E.
  destruct (commandsInForceFrom s) as [before|] eqn:Eb; [|injection E as <- <-; cbn; by rewrite app_nil_r].
  assert (HI : Inv s) by apply (mi_inv _ _ HM).
  destruct (replay_loop_spec fs ms has t (ULID entry) (CommandCursor entry) _ Hulid
    (S (N.to_nat (NextOffset s "commands" - N.max (floor_of s) before))) (N.max (floor_of s) before) 0 s HI Hmv eq_refl ltac:(lia))
    as (s1 & pub & stop & E1 & HR).
  cbv zeta in E. rewrite E1 in E. injection E as <- <-. destruct HR. fold (floor_of s) (floor_of s1) in rp_cursor0, rp_moved0.
  set (from := N.max (floor_of s) before) in *. pose proof (mi_floor _ _ HM) as Hfl. cbn in Hfl.
  (* no page was read when everything in force lies past the head *)
  destruct (decide (NextOffset s "commands" <= from)%N) as [Hidle|Hrun].
  { destruct rp_idle0 as [-> ->]; [by left|]. rewrite rp_pub0, owed_scan_nil by lia. cbn. by rewrite app_nil_r. }
  apply (MInv_advance faulty s s1); [done|done|lia| |].
  - intros off e He Htg Hr. destruct (CommandStillLive (e_Payload e) t) eqn:El; [|by right; left].
    destruct (decide (off < before)%N) as [Hb|Hb]; [right; right; unfold retired; by rewrite Eb|left].
    rewrite rp_pub0. apply list_elem_of_fmap. exists (stored (off, e)). split; [done|]. apply list_elem_of_fmap. exists (off, e). split; [done|].
    rewrite elem_of_owed_scan by done. split_and!; [lia..|done|by split].
  - intros Hf. rewrite (rp_moved0 (Hfa Hf)) by (unfold replayCap; lia). rewrite rp_pub0. split.
    + rewrite <- list_fmap_compose. apply (StronglySorted_fmap (sr_Offset ∘ stored) off_lt); [done|apply owed_scan_sorted].
    + intros ? (r & -> & ([o e] & -> & Hx)%list_elem_of_fmap)%list_elem_of_fmap. rewrite elem_of_owed_scan in Hx by done. cbn. lia.
Qed.
Lemma ascending_NoDup (l : list N) : StronglySorted N.lt l -> NoDup l.
Proof using.
  induction 1 as [|x l _ IH Hf]; [constructor|]. constructor; [|done]. intros Hx. rewrite Forall_forall in Hf. specialize (Hf x Hx). lia.
Qed.

Lemma MInv_start faulty s t : Inv s -> floor_of s = 1%N -> MInv faulty (mkMState s t []).
Proof using.
  intros HI Hf. pose proof (ci_bounds _ _ (inv_counter s HI "commands" ltac:(tag_in))) as Hcb.
  split; cbn [ms_store ms_now ms_handed]; rewrite ?Hf; [done|lia| |constructor|by intros _ off []%elem_of_nil].
  intros off e He _ Hlt. unfold record_at in He. destruct (db s !! streamKey "commands" off) eqn:Ev; [|done].
  apply (si_range _ _ _ _ _ (inv_stream s HI "commands" ltac:(tag_in))) in Ev as [? _]. lia.
Qed.

Lemma msteps_inv faulty st st' : rtc (mstep faulty) st st' -> MInv faulty st -> MInv faulty st'.
Proof using Hdoor Hulid.
  induction 1 as [|st1 st2 st3 Hstep _ IH]; [done|]. intros HM. apply IH. destruct Hstep.
  - by apply (elsewhere_step faulty s s' t t').
  - by apply (deliver_step faulty f ms ids has p off e s s' t pubs undelivered).
  - by apply (replay_step faulty fs ms has s s' t recs).
Qed.

(** ** The theorems *)


(** Commands reach a machine in the order of the stream and none twice: while the
    writes of its cursor succeed, the offsets handed to it only ever grow, however live
    deliveries and replays follow each other. *)
Theorem redelivery_at_most_once s t st : Inv s -> floor_of s = 1%N -> rtc (mstep false) (mkMState s t []) st ->
  StronglySorted N.lt (ms_handed st) /\ NoDup (ms_handed st).
Proof using Hdoor Hulid.
  intros HI Hf Hst. assert (HM : MInv false st) by (by apply (msteps_inv false _ _ Hst), MInv_start).
  pose proof (mi_sorted _ _ HM eq_refl) as Hs. split; [done|by apply ascending_NoDup].
Qed.

(** A replay ends; it publishes exactly the live commands of the machine between the
    floor, or the first command in force, and the offset it stops at, in order, each
    while the machine had a subscription for it and at most [replayCap] of them; it stops
    only at the head, at that cap or at a command the machine does not listen for; and
    it leaves the floor where it stopped when there was something to read and the writes
    of the cursor succeed. *)
Theorem ReplayOwedCommands_spec fs ms has t s before : Inv s -> moves s -> commandsInForceFrom s = Some before ->
  let from := N.max (floor_of s) before in
  let head := NextOffset s "commands" in
  exists s' recs stop, ReplayOwedCommands fs ms true (Some has) t (Some entry) s = Some (s', recs)
  /\ Inv s' /\ (from <= stop <= N.max from head)%N
  /\ recs = stored <$> owed_scan s (ULID entry) t from stop
  /\ (forall x, x ∈ owed_scan s (ULID entry) t from stop -> asked has (ULID entry) x = true)
  /\ (N.of_nat (length recs) <= replayCap)%N
  /\ ((head <= stop)%N \/ N.of_nat (length recs) = replayCap
      \/ exists x, x ∈ owed_scan s (ULID entry) t stop head /\ fst x = stop /\ asked has (ULID entry) x = false)
  /\ ((forall i, fs i = no_faults) -> (from < head)%N -> floor_of s' = stop).
Proof using Hdoor Hulid.
  intros HI Hmv Eb from head. unfold ReplayOwedCommands. rewrite Hdoor, Eb. cbn [negb orb]. change (StreamFor ClassCmd) with "commands".
  cbv zeta. fold (floor_of s). fold from head.
  destruct (replay_loop_spec fs ms has t (ULID entry) (CommandCursor entry) head Hulid (S (N.to_nat (head - from))) from 0 s HI Hmv eq_refl ltac:(lia))
    as (s' & pub & stop & E & []).
  assert (Hcap : (0 + N.of_nat (length pub) <= replayCap)%N).
  { apply (replay_loop_cap fs ms has t (ULID entry) (CommandCursor entry) head Hulid (S (N.to_nat (head - from))) from 0 s s' pub HI eq_refl); [done|left; by exists 0%N|done]. }
  exists s', pub, stop. rewrite Forall_forall in rp_asked0. split_and!; [done|by apply (sm_inv _ _ rp_same0)|lia|lia|done|done|lia| |].
  - destruct rp_end0 as [?|[?|?]]; [by left|right; left; lia|by right; right].
  - intros Hno Hlt. unfold floor_of in *. rewrite rp_moved0; [lia|done|done|done].
Qed.
End machine.
End redelivery.

(** ** On a concrete store *)

Section examples.
#[local] Existing Instance demo_codec.

#[local] Instance demo_command_codec : CommandCodec := {|
  json_expires_at := fun _ => None;
  json_standalone := fun _ => None;
|}.

(** The machine "m1", sent the first and the third command of the store. *)
Definition demo_machine : Entry := mkEntry "m1" "" KindExternal "m1" "" [] [] "" "" "" false "" StatusActive.
Definition demo_ids (ulid : string) : option Entry := if ulid == "m1" then Some demo_machine else None.
Abbreviation demo_replay := (ReplayOwedCommands demo_peeks 0 (fun _ => no_faults) 5 true (Some (fun _ _ _ => true)) 7 (Some demo_machine) demo_commands).
Definition demo_replayed : Store := default demo_commands (fst <$> demo_replay).

Lemma demo_moves : moves 0 demo_commands.
Proof. left. vm_compute. reflexivity. Qed.

Definition demo_recs : list StoredRecord := default [] (snd <$> demo_replay).

Lemma demo_replay_eq : demo_replay = Some (demo_replayed, demo_recs).
Proof.
  assert (E : bool_decide (is_Some demo_replay) = true) by (vm_compute; reflexivity). apply bool_decide_eq_true in E as [[s r] E].
  unfold demo_replayed, demo_recs. by rewrite E.
Qed.

Definition demo_command : recEnc := encode_rec 1 (demo_rec "colca/v1/_CmdExec/m1/a" "go" "a" "m1" false).
Definition demo_parsed : Parsed := mkParsed "colca" "v1" "_CmdExec" "m1" "a".

Lemma demo_command_at : record_at (db demo_commands) "commands" 1 = Some demo_command.
Proof. vm_compute. reflexivity. Qed.

Lemma demo_parse : Parse (e_Topic demo_command) = Ok demo_parsed.
Proof. vm_compute. reflexivity. Qed.

Lemma demo_is_command : IsCommand (ClassOf (Contract demo_parsed)) = true.
Proof. vm_compute. reflexivity. Qed.

Lemma demo_known : demo_ids (ULID demo_machine) = Some demo_machine.
Proof. vm_compute. reflexivity. Qed.

Lemma demo_away : deliverCommand demo_peeks 0 no_faults 5 demo_ids (Some (fun _ _ => false)) 7 ClassCmd demo_parsed
  (e_Topic demo_command) (e_Payload demo_command) 1 demo_commands = (demo_commands, [mkPub "colca/v1/_CmdExec/m1/a" "go" false], true).
Proof.
  unfold deliverCommand. change (NodeID demo_parsed) with (ULID demo_machine). rewrite demo_known. cbv beta iota zeta.
  assert (E1 : CursorGet demo_commands (CommandCursor demo_machine) (StreamFor ClassCmd) = 1%N) by (vm_compute; reflexivity).
  rewrite E1. reflexivity.
Qed.

Lemma first_replay peeks covered entry fs ms has s s' t recs : (forall i, fs i = no_faults) -> moves covered s ->
  ReplayOwedCommands peeks covered fs ms true (Some has) t (Some entry) s = Some (s', recs) ->
  mstep peeks covered entry false (mkMState s t []) (mkMState s' t (sr_Offset <$> recs)).
Proof. intros Hf Hm E. exact (ms_replay peeks covered entry false fs ms has s s' t recs [] (fun _ => Hf) Hm E). Qed.

Definition demo_final : MState := mkMState demo_replayed 7 (sr_Offset <$> demo_recs).

(** The first command arrives while the machine is away, then the machine subscribes. *)
Lemma demo_delivery :
  rtc (mstep demo_peeks 0 demo_machine false) (mkMState demo_commands 7 []) demo_final.
Proof.
  apply (rtc_l _ _ (mkMState demo_commands 7 [])); [|apply rtc_once].
  - exact (ms_deliver demo_peeks 0 demo_machine false no_faults 5 demo_ids (fun _ _ => false) demo_parsed 1 demo_command demo_commands demo_commands 7
      [mkPub "colca/v1/_CmdExec/m1/a" "go" false] true [] (fun _ => eq_refl) demo_command_at demo_parse demo_is_command eq_refl demo_known demo_away).
  - exact (first_replay demo_peeks 0 demo_machine (fun _ => no_faults) 5 (fun _ _ _ => true) demo_commands demo_replayed 7 demo_recs
      (fun _ => eq_refl) demo_moves demo_replay_eq).
Qed.

Lemma demo_in_force : commandsInForceFrom demo_commands = Some 0%N.
Proof. vm_compute. reflexivity. Qed.

Lemma demo_floor : floor_of demo_machine demo_commands = 1%N.
Proof. vm_compute. reflexivity. Qed.

Lemma redelivery_at_most_once_witness : ms_handed demo_final = [1; 3]%N /\ NoDup (ms_handed demo_final).
Proof.
  split; [vm_compute; reflexivity|].
  exact (proj2 (redelivery_at_most_once demo_peeks 0 demo_machine eq_refl ltac:(discriminate) demo_commands 7 demo_final demo_commands_inv
    demo_floor demo_delivery)).
Defined.


Lemma ReplayOwedCommands_spec_witness :
  option_map (fun r => (map sr_Offset (snd r), floor_of demo_machine (fst r))) demo_replay = Some ([1; 3], 4)%N
  /\ exists s' recs, demo_replay = Some (s', recs) /\ Inv s'.
Proof.
  split; [vm_compute; reflexivity|].
  destruct (ReplayOwedCommands_spec demo_peeks 0 demo_machine eq_refl ltac:(discriminate) (fun _ => no_faults) 5 (fun _ _ _ => true) 7
    demo_commands 0 demo_commands_inv demo_moves demo_in_force) as (s' & recs & stop & E & HI & _).
  exists s', recs. split; [exact E|exact HI].
Defined.
End examples.
