(* ===== verification/Link.v ===== *)
(** * The link to a parent

    The decisions of [internal/repl] that keep a child's stream complete at its
    parent: what leaves the node and in which pages ([client.go], [logforward.go]),
    what the parent does with a push ([handleReplicate] of [server.go], with
    [IngestReplicated] of the engine), how both notice that a store was restored from a
    backup ([incarnation.go], [resync.go]) and how a record the parent refuses is set
    aside ([setaside.go] of the store and of the link). HTTP is left out: a request is
    what it states and an answer what it carries. *)

From S2P Require Export Redelivery.
From Stdlib Require Import DecimalString DecimalN Ascii.

Open Scope string_scope.
Open Scope list_scope.
Open Scope go_scope.

(** ** What leaves the node *)

Definition ackOnly (topic : string) : bool :=
  match Parse topic with
  | Ok p => (Contract p == "_Ack") || (Contract p == "_StreamGap")
  | Err _ => false
  end.

Definition leavesTheNode (topic : string) : bool :=
  match Parse topic with
  | Ok p => negb (IsNodePrivate (Contract p)) && negb (IsRetired (Contract p))
  | Err _ => true
  end.

Definition pushable (laneFilter : option (string -> bool)) (topic : string) : bool :=
  match laneFilter with
  | None => leavesTheNode topic
  | Some f => leavesTheNode topic && f topic
  end.

Definition logsStream : string := "logs".
Definition metricsStream : string := "metrics".

Definition priorityLanes : list (string * option (string -> bool)) :=
  [("commands", Some ackOnly); ("alarms", None); ("entities", None); ("audit", None); ("annotations", None); (logsStream, None)].

Definition uplinkStreams : list string := priorityLanes.*1 ++ [metricsStream].

(** The filter of a stream's lane: that of [priorityLanes], none for metrics. *)
Definition lane_filter (stream : string) : option (string -> bool) :=
  match list_find (fun l => l.1 = stream) priorityLanes with Some (_, (_, f)) => f | None => None end.

(** [config.LogLevelRank] and [logForwarding]. *)
Definition LogLevels : list string := ["DEBUG"; "INFO"; "WARNING"; "ERROR"; "CRITICAL"].

Definition LogLevelRank (level : string) : option nat := fst <$> list_find (fun l => l = level) LogLevels.

Record logForwarding := mkLogForwarding { lf_minRank : nat; lf_services : gmap string nat }.

(** Whether the record rises, and the level it was withheld at. *)
Definition forward (f : logForwarding) (topic : string) : bool * string :=
  match Parse topic with
  | Err _ => (true, "")
  | Ok p =>
      if Contract p != "_Log" then (true, "")
      else
        let segs := Split (Path p) slash in
        let level := default "" (last segs) in
        match LogLevelRank level with
        | None => (true, "")
        | Some rank =>
            let minRank := match reverse segs with
                           | _ :: service :: _ => default (lf_minRank f) (lf_services f !! service)
                           | _ => lf_minRank f
                           end in
            if (minRank <=? rank)%nat then (true, "") else (false, level)
        end
  end.

(** [strconv.FormatUint] and [strconv.ParseUint] in base ten. *)
Definition FormatUint (n : N) : string := NilZero.string_of_uint (N.to_uint n).

Definition ParseUint (s : string) : option N :=
  match NilZero.uint_of_string s with
  | Some d => let n := N.of_uint d in if (n <? 2 ^ 64)%N then Some n else None
  | None => None
  end.

(** ** Pages of the uplink *)

Definition replBatch : nat := 200.

(** *** What a node keeps about its parent *)

(** [ResyncRange] without its position, which only the status shows. *)
Record ResyncRange := mkResyncRange { rg_From : N; rg_To : N }.
Record ResyncGap := mkResyncGap { gp_Stream : string; gp_From : N; gp_To : N }.

Inductive ResyncState := resyncReplaying | resyncComplete.

#[export] Instance ResyncState_eq_dec : EqDecision ResyncState.
Proof. solve_decision. Defined.

Record Resync := mkResync {
  rs_State : ResyncState;
  rs_Reason : string;
  rs_ParentStore : string;
  rs_PreviousParentStore : string;
  rs_Started : Z;
  rs_Completed : option Z;
  rs_Streams : gmap string ResyncRange;
  rs_Gaps : list ResyncGap;
  rs_CommandsRehandedBelow : N;
}.

Record parentState := mkParentState { ps_Store : string; ps_Resync : option Resync }.

(** A record set aside, with why. *)
Record SetAsideRecord := mkSetAside {
  as_Parent : string;
  as_Stream : string;
  as_Offset : N;
  as_Record : StoredRecord;
  as_Status : N;
  as_Reason : string;
  as_HeldSinceMS : Z;
  as_AtMS : Z;
}.

(** The two documents as JSON. *)
Class LinkCodec := {
  enc_state : parentState -> string;
  dec_state : string -> option parentState;
  dec_enc_state : forall st, dec_state (enc_state st) = Some st;
  enc_aside : SetAsideRecord -> string;
  dec_aside : string -> option SetAsideRecord;
  dec_enc_aside : forall r, dec_aside (enc_aside r) = Some r;
}.

Definition setAsideKey (parent stream : string) (off : N) : Key := mkKey ["ua"; parent; stream] (Some off).

Section link.
Context `{Codec} `{LinkCodec}.

(** [EachRecord]: the walk over a range with its two callbacks, whose captured variables
    are the state [a]; [head] answers whether to decode the record and whether to go on. *)
Fixpoint each_loop {A} (head : N -> string -> Z -> A -> A * bool * bool) (fn : StoredRecord -> A -> A * bool)
    (entries : list (N * Val)) (a : A) : result StoreErr A :=
  match entries with
  | [] => Ok a
  | (off, VRec e) :: entries =>
      let '(a, decode, more) := head off (e_Topic e) (e_TS e) a in
      if negb more then Ok a
      else if negb decode then each_loop head fn entries a
      else let '(a, more) := fn (storedRecord off e) a in
           if more : bool then each_loop head fn entries a else Ok a
  | _ :: _ => Err EDecode
  end.

Definition EachRecord {A} (s : Store) (stream : string) (from upTo : N) (head : N -> string -> Z -> A -> A * bool * bool)
    (fn : StoredRecord -> A -> A * bool) (a : A) : result StoreErr A :=
  if (upTo <=? from)%N then Ok a else each_loop head fn (stream_entries (db s) stream from upTo) a.

Record UplinkPage := mkUplinkPage { up_recs : list StoredRecord; up_withheld : list (N * string); up_next : N; up_scanned : nat }.

Definition page_head (logs : logForwarding) (stream : string) (allowed : string -> bool) (off : N) (topic : string) (_ : Z) (a : UplinkPage)
    : UplinkPage * bool * bool :=
  if (replBatch <=? up_scanned a)%nat then (a, false, false)
  else
    let a := mkUplinkPage (up_recs a) (up_withheld a) (off + 1) (S (up_scanned a)) in
    if negb (allowed topic) then (a, false, true)
    else if stream == logsStream then
      match forward logs topic with
      | (true, _) => (a, true, true)
      | (false, level) => (mkUplinkPage (up_recs a) (up_withheld a ++ [(off, level)]) (up_next a) (up_scanned a), false, true)
      end
    else (a, true, true).

Definition page_fn (r : StoredRecord) (a : UplinkPage) : UplinkPage * bool :=
  (mkUplinkPage (up_recs a ++ [r]) (up_withheld a) (up_next a) (up_scanned a), true).

Definition readUplinkPage (logs : logForwarding) (s : Store) (stream : string) (from : N) (allowed : string -> bool) : result StoreErr UplinkPage :=
  EachRecord s stream from (NextOffset s stream) (page_head logs stream allowed) page_fn (mkUplinkPage [] [] from 0).

(** The batch [pushOnce] makes of a page: local-only metrics become skip ranges. *)
Definition skip_record (from to_ : N) : ReplRecord := mkReplRecord from to_ 0 "" "" 0 "" "" "" "" [] "" "" [] "" "" "" false.

Definition to_repl (r : StoredRecord) : ReplRecord :=
  let e := sr_rec r in
  mkReplRecord 0 (sr_Offset r) (sr_OriginOffset r) (e_Topic e) (e_Payload e) (e_TS e) (e_WrittenBy e) (e_ActorID e) (e_ActorLabel e)
    (e_ActorKind e) (e_ActorGroups e) (e_ActorClient e) (e_ActorEmail e) (e_ActorClasses e) (e_ActorCredential e) "" "" false.

Definition batch_add (stream : string) (batch : list ReplRecord) (r : StoredRecord) : list ReplRecord :=
  if (stream == metricsStream) && e_SourceLocalOnly (sr_rec r) then
    match last batch with
    | Some b => if (rp_SkipFrom b != 0%N) && (rp_ChildOffset b + 1 =? sr_Offset r)%N
                then removelast batch ++ [skip_record (rp_SkipFrom b) (sr_Offset r)]
                else batch ++ [skip_record (sr_Offset r) (sr_Offset r)]
    | None => batch ++ [skip_record (sr_Offset r) (sr_Offset r)]
    end
  else batch ++ [to_repl r].

Definition make_batch (stream : string) (recs : list StoredRecord) : list ReplRecord := foldl (batch_add stream) [] recs.

(** [fitReplicationBatch]; [size] is the length of the marshalled request. [None] when
    not even one record fits. *)
Fixpoint fit_search (fuel : nat) (size : list ReplRecord -> N) (maxBytes : N) (batch : list ReplRecord) (low high best : nat) : nat :=
  match fuel with
  | O => best
  | S fuel =>
      if (high <? low)%nat then best
      else
        let mid := (low + (high - low) / 2)%nat in
        if (size (take mid batch) <=? maxBytes)%N then fit_search fuel size maxBytes batch (S mid) high mid
        else fit_search fuel size maxBytes batch low (mid - 1) best
  end.

Definition fitReplicationBatch (size : list ReplRecord -> N) (maxBytes : N) (batch : list ReplRecord) : option (list ReplRecord) :=
  if (size batch <=? maxBytes)%N then Some batch
  else match fit_search (length batch) size maxBytes batch 1 (length batch - 1) 0 with
       | O => None
       | best => Some (take best batch)
       end.

(** ** The parent's side: what a child states, and the verdict *)

Inductive childVerdict := childProceed | childResync | childReincarnate | childCannotResync.

Definition judgeChild (current : string) (capable : bool) (recorded : string) (ahead : bool) : childVerdict :=
  if negb capable then (if ahead then childCannotResync else childProceed)
  else if (recorded != "") && (recorded != current) then childResync
  else if negb ahead then childProceed
  else if recorded == current then childReincarnate
  else childResync.

Record childPosition := mkChildPosition { po_store : string; po_commands : N; po_definitions : N; po_acked : gmap string N }.

(** How the marks travel: "stream:offset,stream:offset". *)
Definition acked_entry (part : string) : option (string * N) :=
  match Cut part ":" with
  | Some (stream, offset) =>
      if negb (IsUplinkStream stream) then None
      else match ParseUint offset with
           | Some n => if (0 <? n)%N then Some (stream, n) else None
           | None => None
           end
  | None => None
  end.

Definition parseAcked (v : string) : gmap string N :=
  if v == "" then ∅ else foldl (fun out part => match acked_entry part with Some (stream, n) => <[stream := n]> out | None => out end) ∅ (Split v ",").

Definition acked_part (m : string * N) : option string :=
  if (0 <? m.2)%N then Some (m.1 +:+ ":" +:+ FormatUint m.2) else None.

Definition formatAcked (marks : gmap string N) : string := Join (sort_strings (omap acked_part (map_to_list marks))) ",".

(** The texts [aheadOf] makes of the evidence. *)
Definition evidence_read (what : string) (pos head : N) : string :=
  "it read " +:+ what +:+ " up to offset " +:+ FormatUint (pos - 1)%N +:+ ", the stream here ends at " +:+ FormatUint (head - 1)%N.
Definition evidence_acked (stream : string) (acked hwm : N) : string :=
  "it was told its " +:+ stream +:+ " records up to offset " +:+ FormatUint acked +:+ " are stored here, this store has them up to " +:+ FormatUint hwm.

(** The streams of [acked] in order, up to the first the child is ahead on. *)
Fixpoint ahead_on (child : string) (acked : gmap string N) (sts : list string) (s : Store) : Store * option string :=
  match sts with
  | [] => (s, None)
  | stream :: sts =>
      let '(s, hwm) := HWMGet child stream s in
      let n := default 0%N (acked !! stream) in
      if (0 <? hwm)%N && (hwm <? n)%N then (s, Some (evidence_acked stream n hwm)) else ahead_on child acked sts s
  end.

Definition aheadOf (child : string) (p : childPosition) (s : Store) : Store * option string :=
  let head := NextOffset s "commands" in
  if (head <? po_commands p)%N then (s, Some (evidence_read "commands" (po_commands p) head))
  else
    let head := NextOffset s "definitions" in
    if (head <? po_definitions p)%N then (s, Some (evidence_read "definitions" (po_definitions p) head))
    else if (po_store p == "") || (ChildStore child s != po_store p) then (s, None)
    else ahead_on child (po_acked p) (sort_strings (map_to_list (po_acked p)).*1) s.

(** [judge]: the store, and whether the child has to re-sync; [mint] and [now] are the
    random id and the clock of a new incarnation. *)
Definition judge (f : Faults) (mint : string) (now : N) (child : string) (recorded : option string) (p : childPosition) (s : Store)
    : Store * result StoreErr bool :=
  let current := StoreID s in
  let '(s, ahead) := aheadOf child p s in
  let verdict := judgeChild current (bool_decide (is_Some recorded)) (default "" recorded) (bool_decide (is_Some ahead)) in
  let verdict := match verdict with
                 | childReincarnate => if negb (MayHaveRegressed s) then childResync else childReincarnate
                 | v => v
                 end in
  match verdict with
  | childProceed | childCannotResync => (s, Ok false)
  | childReincarnate =>
      match ReincarnateFrom f mint now current ("child " +:+ child +:+ ": " +:+ default "" ahead) s with
      | (s, Err e) => (s, Err e)
      | (s, Ok _) => (s, Ok true)
      end
  | childResync => (s, Ok true)
  end.

(** ** The parent's side: a push *)

(** What a push states and carries. *)
Record Push := mkPush { pu_store : string; pu_stream : string; pu_parent : option string; pu_acked : N; pu_recs : list ReplRecord }.

(** How it is answered: refused with a status, told to re-sync with a store, or taken. *)
Inductive PushAnswer :=
| Refused (status : N)
| StoreChanged (store : string)
| Taken (hwm : N).

(** [ClassOf] of the engine; [contracts] is the loaded bundle, if any. *)
Definition builtinOnly : list string := ["_StreamGap"; "_EnrolledIdentity"].

Definition EngineClassOf (contracts : option (string -> option Class)) (contract : string) : Class :=
  match contracts with
  | None => ClassOf contract
  | Some lookup => if bool_decide (contract ∈ builtinOnly) then ClassOf contract else default ClassNone (lookup contract)
  end.

Definition bad_skip (stream : string) (previous : N) (r : ReplRecord) : bool :=
  (stream != metricsStream) || (rp_ChildOffset r <? rp_SkipFrom r)%N || (rp_SkipFrom r <=? previous)%N
  || (rp_Topic r != "") || (rp_Payload r != "") || (rp_OriginOffset r != 0%N) || (rp_TS r != 0%Z) || (rp_WrittenBy r != "")
  || (rp_ActorID r != "") || (rp_ActorLabel r != "") || (rp_ActorKind r != "") || (rp_ActorGroups r != []) || (rp_ActorClient r != "")
  || (rp_ActorEmail r != "") || (rp_ActorClasses r != []) || (rp_ActorCredential r != "").

Definition at_parent (topic path node : string) (del : bool) (r : ReplRecord) : ReplRecord :=
  mkReplRecord 0 (rp_ChildOffset r) (rp_OriginOffset r) topic (rp_Payload r) (rp_TS r) (rp_WrittenBy r) (rp_ActorID r) (rp_ActorLabel r)
    (rp_ActorKind r) (rp_ActorGroups r) (rp_ActorClient r) (rp_ActorEmail r) (rp_ActorClasses r) (rp_ActorCredential r) path node del.

(** The loop of [handleReplicate] over the records of a push. *)
Fixpoint check_recs (contracts : option (string -> option Class)) (mount stream : string) (previous : N) (recs : list ReplRecord)
    : result N (list ReplRecord) :=
  match recs with
  | [] => Ok []
  | r :: recs =>
      if (rp_ChildOffset r =? 0)%N || (rp_ChildOffset r <=? previous)%N then Err 400%N
      else if rp_SkipFrom r != 0%N then
        if bad_skip stream previous r then Err 400%N
        else let! out := check_recs contracts mount stream (rp_ChildOffset r) recs in Ok (skip_record (rp_SkipFrom r) (rp_ChildOffset r) :: out)
      else match Parse (rp_Topic r) with
      | Err _ => Err 400%N
      | Ok childParsed =>
          let childClass := EngineClassOf contracts (Contract childParsed) in
          if IsKnown childClass && negb (MatchesUplinkStream childClass childParsed stream) then Err 403%N
          else
            let topic := MountInsert (rp_Topic r) mount in
            match Parse topic with
            | Err _ => Err 400%N
            | Ok parsed =>
                let class := EngineClassOf contracts (Contract parsed) in
                let rr := if IsOwnedState class then at_parent topic (Path parsed) (NodeID parsed) (rp_Payload r == "") r
                          else at_parent topic "" "" false r in
                let! out := check_recs contracts mount stream (rp_ChildOffset r) recs in Ok (rr :: out)
            end
      end
  end.

(** [dropUnreplicable]: records of retired contracts become skips on metrics. *)
Definition drop_retired (stream : string) (r : ReplRecord) : ReplRecord :=
  match Parse (rp_Topic r) with
  | Ok p => if IsRetired (Contract p) && (stream == metricsStream) then skip_record (rp_ChildOffset r) (rp_ChildOffset r) else r
  | Err _ => r
  end.

Definition dropUnreplicable (stream : string) (recs : list ReplRecord) : list ReplRecord := drop_retired stream <$> recs.

(** [IngestReplicated], up to its mirroring on the bus: what was applied, the mark and
    the error. *)
Definition IngestReplicated (f : Faults) (child stream : string) (recs : list ReplRecord) (s : Store) : Store * ReplResult :=
  let '(s, _) := HWMGet child stream s in
  match commitReplicated f [mkReplRequest child stream (dropUnreplicable stream recs)] s with
  | (s, [r]) => (s, r)
  | (s, _) => (s, mkReplResult [] 0 None)
  end.

(** [handleReplicate]; [busy] is whether a limiter turned the push away, [fj], [fa] and
    [fi] what goes wrong with the writes of the verdict, of the adoption and of the
    records. Besides the store and the answer: the records applied. *)
Definition handleReplicate (busy : bool) (fj fa fi : Faults) (mint : string) (now : N) (contracts : option (string -> option Class))
    (child mount : string) (in_ : Push) (s : Store) : Store * PushAnswer * list ReplRecord :=
  if busy then (s, Refused 429, [])
  else if (replBatch <? length (pu_recs in_))%nat then (s, Refused 413, [])
  else if negb (IsUplinkStream (pu_stream in_)) then (s, Refused 403, [])
  else
    let p := mkChildPosition (pu_store in_) 0 0 {[ pu_stream in_ := pu_acked in_ ]} in
    match judge fj mint now child (pu_parent in_) p s with
    | (s, Err _) => (s, Refused 500, [])
    | (s, Ok true) => (s, StoreChanged (StoreID s), [])
    | (s, Ok false) =>
        match check_recs contracts mount (pu_stream in_) 0 (pu_recs in_) with
        | Err status => (s, Refused status, [])
        | Ok repl =>
            match AdoptChildStore fa child (pu_store in_) s with
            | (s, Err _) => (s, Refused 500, [])
            | (s, Ok _) =>
                let '(s, r) := IngestReplicated fi child (pu_stream in_) repl s in
                match rr_err r with
                | Some _ => (s, Refused 500, rr_applied r)
                | None => (s, Taken (rr_hwm r), rr_applied r)
                end
            end
        end
    end.

(** ** The parent's side: the handshake *)

(** What a hello states, and what its answer says. *)
Record Greeting := mkGreeting { gr_store : string; gr_parent : string; gr_after : N; gr_defAfter : N; gr_acked : string }.
Record Hello := mkHello { he_Store : string; he_Resync : bool; he_Resume : N; he_DefResume : N; he_HWMs : gmap string N; he_Head : N }.

Fixpoint read_hwms (child : string) (sts : list string) (s : Store) : Store * gmap string N :=
  match sts with
  | [] => (s, ∅)
  | stream :: sts =>
      let '(s, hwm) := HWMGet child stream s in
      let '(s, m) := read_hwms child sts s in (s, <[stream := hwm]> m)
  end.

Definition addHandshake (child : string) (resync : bool) (head : N) (s : Store) : Store * Hello :=
  let resume := fst (CursorLookup s (DownlinkCursorPrefix +:+ child) "commands") in
  let defResume := fst (CursorLookup s (DownlinkDefCursorPrefix +:+ child) "definitions") in
  let '(s, hwms) := read_hwms child uplinkStreams s in
  (s, mkHello (StoreID s) resync (N.max resume 1) (N.max defResume 1) hwms head).

(** The hello branch of [handleDownlink]; [None] is an error answer. *)
Definition handleHello (fj fa fc : Faults) (mint : string) (now ms : N) (child : string) (g : Greeting) (s : Store) : Store * option Hello :=
  let after := if gr_after g == 0%N then 1%N else gr_after g in
  let defAfter := if gr_defAfter g == 0%N then 1%N else gr_defAfter g in
  match judge fj mint now child (Some (gr_parent g)) (mkChildPosition (gr_store g) after defAfter (parseAcked (gr_acked g))) s with
  | (s, Err _) => (s, None)
  | (s, Ok resync) =>
      match AdoptChildStore fa child (gr_store g) s with
      | (s, Err _) => (s, None)
      | (s, Ok _) =>
          let head := NextOffset s "commands" in
          let s := fst (CursorSetIfAbsent fc ms (DownlinkCursorPrefix +:+ child) "commands" head s) in
          let '(s, h) := addHandshake child resync head s in (s, Some h)
      end
  end.

(** ** The child's side: where it stands against its parent *)

(** The client of one parent, whose key [cl_parentPub] is. *)
Record Client := mkClient {
  cl_parentPub : string;
  cl_state : parentState;
  cl_epoch : N;
  cl_resyncWanted : bool;
  cl_replaying : bool;
}.

Definition downlinkStream : string := "commands-parent".
Definition downlinkDefStream : string := "definitions-parent".

Inductive parentVerdict := parentPredatesIncarnations | parentFirstSeen | parentUnchanged | parentChanged.

Definition judgeParent (recorded answered : string) (asked : bool) : parentVerdict :=
  if answered == "" then parentPredatesIncarnations
  else if asked then parentChanged
  else if recorded == "" then parentFirstSeen
  else if recorded == answered then parentUnchanged
  else parentChanged.

Record uplinkReplay := mkUplinkReplay { ur_rewindTo : N; ur_until : N; ur_gap : option ResyncGap }.

Definition planReplay (stream : string) (cursor parentHWM lwm : N) : uplinkReplay :=
  let want := (parentHWM + 1)%N in
  if (cursor <=? want)%N then mkUplinkReplay 0 0 None
  else
    let from := N.max want lwm in
    let gap := if (want <? from)%N then Some (mkResyncGap stream want (N.min from cursor - 1)) else None in
    mkUplinkReplay (if (from <? cursor)%N then from else 0) cursor gap.

(** [greet] and [hello]: what the node states. *)
Definition greet (cl : Client) (st : Store) : Greeting :=
  mkGreeting (StoreID st) (ps_Store (cl_state cl))
    (N.max (CursorGet st (DownlinkCursor (cl_parentPub cl)) downlinkStream) 1)
    (N.max (CursorGet st (DownlinkDefCursor (cl_parentPub cl)) downlinkDefStream) 1)
    (formatAcked (list_to_map ((fun stream => (stream, AckedMark st (cl_parentPub cl) stream)) <$> uplinkStreams))).

Definition ownStoreBehind (f : Faults) (mint : string) (now : N) (stream : string) (parentHWM : N) (st : Store) : Store * bool :=
  let head := NextOffset st stream in
  if (head == 0%N) || (parentHWM <? head)%N then (st, false)
  else if negb (MayHaveRegressed st) then (st, false)
  else match Reincarnate f mint now ("the parent holds this node's " +:+ stream +:+ " records up to offset " +:+ FormatUint parentHWM
               +:+ ", the stream here ends at " +:+ FormatUint (head - 1)) st with
       | (st, Ok _) => (st, true)
       | (st, Err _) => (st, false)
       end.

Fixpoint checkOwnStore (f : Faults) (mint : string) (now : N) (hwms : gmap string N) (sts : list string) (st : Store) : Store * bool :=
  match sts with
  | [] => (st, false)
  | stream :: sts =>
      match ownStoreBehind f mint now stream (default 0%N (hwms !! stream)) st with
      | (st, true) => (st, true)
      | (st, false) => checkOwnStore f mint now hwms sts st
      end
  end.

Definition recordParent (f : Faults) (i : string) (cl : Client) (st : Store) : Client * Store :=
  let next := mkParentState i (ps_Resync (cl_state cl)) in
  match SetParentState f (cl_parentPub cl) (enc_state next) st with
  | (st, Ok _) => (mkClient (cl_parentPub cl) next (cl_epoch cl) (cl_resyncWanted cl) (cl_replaying cl), st)
  | (st, Err _) => (cl, st)
  end.

(** What the loop of [resync] over the streams gathers. *)
Record ResyncPlan := mkResyncPlan { rl_cursors : list CursorPlacement; rl_marks : gmap string N; rl_gaps : list ResyncGap;
                                    rl_streams : gmap string ResyncRange }.

Definition plan_stream (cl : Client) (hwms : gmap string N) (st : Store) (pl : ResyncPlan) (stream : string) : ResyncPlan :=
  let up := UplinkCursor (cl_parentPub cl) in
  let hwm := default 0%N (hwms !! stream) in
  let cursor := CursorGet st up stream in
  let plan := planReplay stream cursor hwm (LWM st stream) in
  let from := if ur_rewindTo plan != 0%N then ur_rewindTo plan else cursor in
  let to_ := match ps_Resync (cl_state cl) with
             | Some was => if bool_decide (rs_State was = resyncReplaying)
                           then N.max cursor (match rs_Streams was !! stream with Some g => rg_To g | None => 0%N end) else cursor
             | None => cursor
             end in
  mkResyncPlan
    (if ur_rewindTo plan != 0%N then rl_cursors pl ++ [mkCursorPlacement up stream (ur_rewindTo plan)] else rl_cursors pl)
    (<[stream := hwm]> (rl_marks pl))
    (match ur_gap plan with Some g => rl_gaps pl ++ [g] | None => rl_gaps pl end)
    (if (from <? to_)%N then <[stream := mkResyncRange from to_]> (rl_streams pl) else rl_streams pl).

Definition resync_reason (previous answered : string) : string :=
  if previous == "" then "the parent asked for a re-sync: this node's positions are ahead of its store"
  else if previous == answered then "the parent asked for a re-sync"
  else "the parent's store has another incarnation than the one this node knew".

(** [resync]: whether the positions were persisted; [t] is the time. *)
Definition resync (f : Faults) (ms : N) (t : Z) (res : Hello) (replay : bool) (cl : Client) (st : Store) : Client * Store * bool :=
  let previous := ps_Store (cl_state cl) in
  let pub := cl_parentPub cl in
  let cursors := [mkCursorPlacement (DownlinkCursor pub) downlinkStream (N.max (he_Resume res) 1);
                  mkCursorPlacement (DownlinkDefCursor pub) downlinkDefStream (N.max (he_DefResume res) 1)] in
  let pl := if replay then foldl (plan_stream cl (he_HWMs res) st) (mkResyncPlan cursors ∅ [] ∅) uplinkStreams
            else mkResyncPlan cursors ∅ [] ∅ in
  let done := bool_decide (rl_streams pl = ∅) in
  let r := mkResync (if done then resyncComplete else resyncReplaying) (resync_reason previous (he_Store res)) (he_Store res) previous t
             (if done then Some t else None) (rl_streams pl) (rl_gaps pl) (he_Head res) in
  let next := mkParentState (he_Store res) (Some r) in
  match ResyncParent f ms pub (enc_state next) (rl_cursors pl) (rl_marks pl) st with
  | (st, Err _) => (cl, st, false)
  | (st, Ok _) => (mkClient pub next (cl_epoch cl + 1) (cl_resyncWanted cl) (negb done), st, true)
  end.

Definition set_wanted (b : bool) (cl : Client) : Client := mkClient (cl_parentPub cl) (cl_state cl) (cl_epoch cl) b (cl_replaying cl).

(** [settle], up to the ancestry and the definitions the answer carries: whether the node
    is placed. *)
Definition settle (fo fr fc : Faults) (mint : string) (now ms : N) (t : Z) (res : Hello) (cl : Client) (st : Store) : Client * Store * bool :=
  let '(st, ownStoreRegressed) := checkOwnStore fo mint now (he_HWMs res) uplinkStreams st in
  let placed :=
    match judgeParent (ps_Store (cl_state cl)) (he_Store res) (he_Resync res) with
    | parentChanged => resync fr ms t res (negb ownStoreRegressed) cl st
    | parentFirstSeen => let '(cl, st) := recordParent fr (he_Store res) cl st in (cl, st, true)
    | parentUnchanged | parentPredatesIncarnations => (cl, st, true)
    end in
  match placed with
  | (cl, st, false) => (cl, st, false)
  | (cl, st, true) =>
      let st := if (0 <? he_Head res)%N then fst (CursorSetIfAbsent fc ms (DownlinkCursor (cl_parentPub cl)) downlinkStream (he_Head res) st) else st in
      (set_wanted false cl, st, true)
  end.

(** [ackUplink]: whether the page counted. *)
Definition ackUplink (f : Faults) (ms : N) (cl : Client) (epoch : N) (stream : string) (next : N) (pushed : bool) (hwm : N) (st : Store) : Store * bool :=
  if cl_epoch cl != epoch then (st, false)
  else
    let up := UplinkCursor (cl_parentPub cl) in
    if negb pushed then (fst (CursorAck f ms up stream next st), true)
    else (fst (CursorAckMarked f ms up stream next (cl_parentPub cl) hwm st), true).

Definition noteReplayProgress (f : Faults) (t : Z) (cl : Client) (st : Store) : Client * Store :=
  if negb (cl_replaying cl) then (cl, st)
  else
    let stop := mkClient (cl_parentPub cl) (cl_state cl) (cl_epoch cl) (cl_resyncWanted cl) false in
    match ps_Resync (cl_state cl) with
    | None => (stop, st)
    | Some r =>
        if bool_decide (rs_State r <> resyncReplaying) then (stop, st)
        else if bool_decide (map_Forall (fun stream g => rg_To g <= CursorGet st (UplinkCursor (cl_parentPub cl)) stream)%N (rs_Streams r)) then
          let done := mkResync resyncComplete (rs_Reason r) (rs_ParentStore r) (rs_PreviousParentStore r) (rs_Started r) (Some t)
                        (rs_Streams r) (rs_Gaps r) (rs_CommandsRehandedBelow r) in
          let next := mkParentState (ps_Store (cl_state cl)) (Some done) in
          match SetParentState f (cl_parentPub cl) (enc_state next) st with
          | (st, Err _) => (cl, st)
          | (st, Ok _) => (mkClient (cl_parentPub cl) next (cl_epoch cl) (cl_resyncWanted cl) false, st)
          end
        else (cl, st)
    end.

(** ** The child's side: a record the parent refuses *)

Definition SetAsideUplink (f : Faults) (ms : N) (cursor : string) (r : SetAsideRecord) (st : Store) : Store * result StoreErr bool :=
  if (as_Offset r <? readU64 (db st) (cursorKey cursor (as_Stream r)) 1)%N then (st, Ok false)
  else
    let built := let! b := bset f (setAsideKey (as_Parent r) (as_Stream r) (as_Offset r)) (VBytes (enc_aside r)) [] in
                 let! b := bset f (cursorKey cursor (as_Stream r)) (VU64 (as_Offset r + 1)) b in
                 let! b := bset f (ctKey cursor (as_Stream r)) (VU64 ms) b in
                 commit f b (db st) in
    match built with Err e => (st, Err e) | Ok d => (set_db d st, Ok true) end.

Definition ClearSetAside (f : Faults) (parent stream : string) (off : N) (st : Store) : Store * result StoreErr bool :=
  match db st !! setAsideKey parent stream off with
  | None => (st, Ok false)
  | Some _ => if apply_fails f then (st, Err EApply) else (set_db (delete (setAsideKey parent stream off) (db st)) st, Ok true)
  end.

Record laneHold := mkLaneHold { lh_limit : nat; lh_offset : N; lh_since : Z }.

(** [laneHold.refused]: the hold, and whether its record is to be set aside. *)
Definition hold_refused (batch : list ReplRecord) (now grace : Z) (h : laneHold) : laneHold * bool :=
  match batch with
  | [r] =>
      let h := if lh_offset h != rp_ChildOffset r then mkLaneHold 1 (rp_ChildOffset r) now else mkLaneHold 1 (lh_offset h) (lh_since h) in
      (h, (rp_SkipFrom r == 0%N) && (grace <=? now - lh_since h)%Z)
  | _ => (mkLaneHold (max 1 (length batch / 2)) 0 (lh_since h), false)
  end.

Definition hold_accepted (h : laneHold) : laneHold :=
  if (0 <? lh_limit h)%nat
  then let limit := (lh_limit h * 2)%nat in mkLaneHold (if (replBatch <=? limit)%nat then 0 else limit) 0 (lh_since h)
  else mkLaneHold 0 0 (lh_since h).

Definition truncateReason (s : string) : string := if (1000 <? String.length s)%nat then String.substring 0 1000 s +:+ "…" else s.

Definition isRefused (status : N) : bool := (400 <=? status)%N && (status <? 500)%N && (status != 429%N).

(** ** The child's side: one push *)

(** What [pushOnce] does before it sends: nothing, only move the cursor, or a push with
    where the cursor goes once it is taken. *)
Inductive PushStart :=
| PushIdle
| PushPast (next : N)
| PushSend (push : Push) (next : N) (recs : list StoredRecord).

Definition pushStart (f : Faults) (ms : N) (logs : logForwarding) (size : Push -> N) (maxBytes : N) (hold : laneHold) (cl : Client) (stream : string)
    (st : Store) : Store * PushStart :=
  if cl_resyncWanted cl then (st, PushIdle)
  else
    let up := UplinkCursor (cl_parentPub cl) in
    let from := CursorGet st up stream in
    let '(st, from) := if (from <? LWM st stream)%N then (fst (CursorAck f ms up stream (LWM st stream) st), LWM st stream) else (st, from) in
    match readUplinkPage logs st stream from (pushable (lane_filter stream)) with
    | Err _ => (st, PushIdle)
    | Ok page =>
        if (up_next page =? from)%N then (st, PushIdle)
        else
          let full := make_batch stream (up_recs page) in
          match full with
          | [] => (st, PushPast (up_next page))
          | _ =>
              let env recs := mkPush (StoreID st) stream (Some (ps_Store (cl_state cl))) (AckedMark st (cl_parentPub cl) stream) recs in
              match fitReplicationBatch (fun recs => size (env recs)) maxBytes full with
              | None => (st, PushIdle)
              | Some batch =>
                  let batch := if (0 <? lh_limit hold)%nat && (lh_limit hold <? length batch)%nat then take (lh_limit hold) batch else batch in
                  let next := if (length batch <? length full)%nat
                              then (match last batch with Some r => rp_ChildOffset r | None => 0%N end + 1)%N else up_next page in
                  (st, PushSend (env batch) next (up_recs page))
              end
          end
    end.

(** What [pushOnce] does with the answer to [push], read under [epoch]; an answer that
    did not arrive is [None], and [said] is the text of a refusal. *)
Definition pushAnswer (f fn fo : Faults) (mint : string) (now ms : N) (t grace : Z) (epoch : N) (push : Push) (next : N) (recs : list StoredRecord)
    (answer : option PushAnswer) (said : string) (hold : laneHold) (cl : Client) (st : Store) : Client * Store * laneHold :=
  let stream := pu_stream push in
  match answer with
  | None => (cl, st, hold)
  | Some (StoreChanged store) => if store == "" then (cl, st, hold) else (set_wanted true cl, st, hold)
  | Some (Refused status) =>
      if negb (isRefused status) || (status == 401%N) then (cl, st, hold)
      else
        match hold_refused (pu_recs push) t grace hold with
        | (hold, false) => (cl, st, hold)
        | (hold, true) =>
            match pu_recs push, list_find (fun r => Some (sr_Offset r) = rp_ChildOffset <$> head (pu_recs push)) recs with
            | _ :: _, Some (_, r) =>
                if cl_epoch cl != epoch then (cl, st, hold)
                else match SetAsideUplink f ms (UplinkCursor (cl_parentPub cl))
                         (mkSetAside (cl_parentPub cl) stream (sr_Offset r) r status (truncateReason said) (lh_since hold) t) st with
                     | (st, Ok true) => (cl, st, mkLaneHold 0 0 0)
                     | (st, _) => (cl, st, hold)
                     end
            | _, _ => (cl, st, hold)
            end
        end
  | Some (Taken hwm) =>
      if (hwm <? match last (pu_recs push) with Some r => rp_ChildOffset r | None => 0%N end)%N then (cl, st, hold)
      else
        let hold := hold_accepted hold in
        let behind := if (NextOffset st stream <=? hwm)%N
                      then if pu_store push != StoreID st then (st, true) else ownStoreBehind fo mint now stream hwm st
                      else (st, false) in
        match behind with
        | (st, true) => (cl, st, hold)
        | (st, false) =>
            match ackUplink f ms cl epoch stream next true hwm st with
            | (st, false) => (cl, st, hold)
            | (st, true) => let '(cl, st) := noteReplayProgress fn t cl st in (cl, st, hold)
            end
        end
  end.

(** ** Before the first push *)

Definition adoptLegacy (f fd : Faults) (ms : N) (legacyName scopedName stream : string) (st : Store) : Store * bool :=
  let pos := CursorGet st legacyName stream in
  if (pos <=? 1)%N then (st, false)
  else
    let st := fst (CursorAck f ms scopedName stream pos st) in
    (fst (CursorDelete fd legacyName stream st), true).

Fixpoint prepare_loop (f : Faults) (ms : N) (up : string) (sts : list string) (st : Store) : Store * result StoreErr () :=
  match sts with
  | [] => (st, Ok ())
  | stream :: sts =>
      if (1 <? CursorGet st up stream)%N then prepare_loop f ms up sts st
      else match adoptLegacy f f ms "uplink" up stream st with
           | (st, true) => prepare_loop f ms up sts st
           | (st, false) =>
               match CursorSetIfAbsent f ms up stream (LWM st stream) st with
               | (st, Err e) => (st, Err e)
               | (st, Ok _) => prepare_loop f ms up sts st
               end
           end
  end.

(** [loadState] and [PrepareUplink]. *)
Definition loadState (pub : string) (st : Store) : result StoreErr Client :=
  match ParentState st pub with
  | None => Ok (mkClient pub (mkParentState "" None) 0 false false)
  | Some raw =>
      match dec_state raw with
      | None => Err EDecode
      | Some state => Ok (mkClient pub state 0 false
          (match ps_Resync state with Some r => bool_decide (rs_State r = resyncReplaying) | None => false end))
      end
  end.

Definition PrepareUplink (f : Faults) (ms : N) (pub : string) (st : Store) : Store * result StoreErr Client :=
  match loadState pub st with
  | Err e => (st, Err e)
  | Ok cl => match prepare_loop f ms (UplinkCursor pub) uplinkStreams st with
             | (st, Err e) => (st, Err e)
             | (st, Ok _) => (st, Ok cl)
             end
  end.

End link.
