(* ===== verification/Uplink.v ===== *)
(** * The uplink loses nothing

    One child, one parent and the wire between them, on the definitions of [Link.v]. The
    lemmas say what a page holds, what a batch carries, what the parent applies of a
    push and where a re-sync puts the positions; the theorems are about every run of
    the two nodes with messages lost, delayed and repeated, failing writes, restarts of
    the child, and a parent restored from a backup. *)

From S2P Require Export Link.
From Stdlib Require Import DecimalString DecimalN Ascii.

Open Scope string_scope.
Open Scope list_scope.
Open Scope go_scope.

Section uplink.
Context `{Codec} `{LinkCodec}.

(** ** What rises *)

(** A record of the stream the link reads: its lane takes it and the log policy does. *)
Definition read_up (logs : logForwarding) (stream : string) (e : recEnc) : bool :=
  pushable (lane_filter stream) (e_Topic e) && ((stream != logsStream) || fst (forward logs (e_Topic e))).

Definition rises (logs : logForwarding) (stream : string) (e : recEnc) : bool :=
  read_up logs stream e && negb ((stream == metricsStream) && e_SourceLocalOnly e).

Lemma uplinkStreams_streams stream : stream ∈ uplinkStreams -> stream ∈ streams.
Proof.
  revert stream. apply Forall_forall. unfold uplinkStreams, priorityLanes. cbn [fmap list_fmap fst app].
  repeat constructor; tag_in.
Qed.

Lemma uplinkStreams_uplink stream : stream ∈ uplinkStreams -> IsUplinkStream stream = true.
Proof.
  revert stream. apply Forall_forall. unfold uplinkStreams, priorityLanes. cbn [fmap list_fmap fst app].
  by repeat constructor.
Qed.

(** *** A page *)

Lemma each_page logs stream (recs : list (N * recEnc)) a a' : let allowed := pushable (lane_filter stream) in
  each_loop (page_head logs stream allowed) page_fn ((fun x => (fst x, VRec (snd x))) <$> recs) a = Ok a' ->
  exists taken rest, recs = taken ++ rest
    /\ up_recs a' = up_recs a ++ (Readers.stored <$> filter (fun x => read_up logs stream (snd x) = true) taken)
    /\ up_next a' = match last taken with Some x => (fst x + 1)%N | None => up_next a end
    /\ (taken = [] -> recs = [] \/ replBatch <= up_scanned a).
Proof.
  intros allowed. revert a. induction recs as [|[off e] recs IH]; intros a E; cbn [fmap list_fmap each_loop fst snd] in E.
  { injection E as <-. exists [], []. cbn [fmap]. split_and!; try done; [by rewrite app_nil_r|by left]. }
  assert (Go : forall a1, each_loop (page_head logs stream allowed) page_fn ((fun x => (fst x, VRec (snd x))) <$> recs) a1 = Ok a' ->
    up_recs a1 = up_recs a ++ (Readers.stored <$> filter (fun x => read_up logs stream (snd x) = true) [(off, e)]) ->
    up_next a1 = (off + 1)%N ->
    exists taken rest, (off, e) :: recs = taken ++ rest
      /\ up_recs a' = up_recs a ++ (Readers.stored <$> filter (fun x => read_up logs stream (snd x) = true) taken)
      /\ up_next a' = match last taken with Some x => (fst x + 1)%N | None => up_next a end
      /\ (taken = [] -> (off, e) :: recs = [] \/ replBatch <= up_scanned a)).
  { intros a1 E1 Ho Hn. destruct (IH a1 E1) as (taken & rest & -> & Hr & Hx & _). exists ((off, e) :: taken), rest.
    split_and!; [done| |rewrite Hx, Hn, last_cons; by destruct (last taken)|done].
    rewrite Hr, Ho, <- app_assoc, <- fmap_app, <- filter_app. done. }
  unfold page_head at 1 in E. destruct (Nat.leb_spec replBatch (up_scanned a)) as [Hl|Hl].
  { cbn [negb] in E. injection E as <-. exists [], ((off, e) :: recs). split_and!; try done; [by rewrite app_nil_r|by right]. }
  assert (Hw : forall b, read_up logs stream e = b -> (Readers.stored <$> filter (fun x => read_up logs stream (snd x) = true) [(off, e)])
      = if b then [storedRecord off e] else []).
  { intros b Eb. rewrite filter_cons, filter_nil. cbn [snd]. rewrite Eb. by destruct b. }
  assert (Hru : read_up logs stream e = allowed (e_Topic e) && ((stream != logsStream) || fst (forward logs (e_Topic e)))) by done.
  destruct (allowed (e_Topic e)) eqn:Ea; cbn [negb] in E.
  2: { apply (Go _ E); [|done]. by rewrite (Hw false Hru), app_nil_r. }
  destruct (decide (stream = logsStream)) as [Hs|Hs].
  - rewrite (bool_decide_eq_true_2 _ Hs) in E, Hru. destruct (forward logs (e_Topic e)) as [[] level] eqn:Ef; cbn in E.
    + apply (Go _ E); [|done]. by rewrite (Hw true Hru).
    + apply (Go _ E); [|done]. by rewrite (Hw false Hru), app_nil_r.
  - rewrite (bool_decide_eq_false_2 _ Hs) in E, Hru. cbn in E. apply (Go _ E); [|done]. by rewrite (Hw true Hru).
Qed.

(** A page holds exactly the records to be read of the range it covers, and covers
    something unless the stream has nothing more. *)
Lemma readUplinkPage_spec logs s stream from page : Inv s -> stream ∈ streams -> (from <= NextOffset s stream)%N ->
  readUplinkPage logs s stream from (pushable (lane_filter stream)) = Ok page ->
  (from <= up_next page <= NextOffset s stream)%N
  /\ up_recs page = Readers.stored <$> filter (fun x => read_up logs stream (snd x) = true) (scanStream (db s) stream from (up_next page))
  /\ (up_next page = from -> scanStream (db s) stream from (NextOffset s stream) = []).
Proof.
  intros HI Hs Hle E. unfold readUplinkPage, EachRecord in E. destruct (N.leb_spec (NextOffset s stream) from) as [Hl|Hl].
  { injection E as <-. cbn [up_next up_recs]. assert (forall hi, hi <= from -> scanStream (db s) stream from hi = [])%N as Hn.
    { intros hi Hhi. apply filter_none. intros. lia. }
    split; [lia|]. rewrite !Hn by lia. done. }
  rewrite stream_entries_records in E by done. destruct (each_page _ _ _ _ _ E) as (taken & rest & Hsp & Hr & Hn & Hm).
  cbn [up_recs up_next up_scanned] in *. destruct (scan_taken _ _ _ _ _ _ _ Hle Hsp Hn) as (Hb & Ht & Hrest).
  split_and!; [lia..|by rewrite Hr, Ht|]. intros Hx. destruct taken as [|x taken].
  - destruct (Hm eq_refl) as [?|Hbad]; [done|]. unfold replBatch in Hbad. lia.
  - exfalso. destruct x as [off e]. assert (Hin : (off, e) ∈ scanStream (db s) stream from (up_next page)) by (rewrite <- Ht; left).
    apply elem_of_scanStream in Hin as [? _]. lia.
Qed.

(** *** A batch *)

Lemma make_batch_snoc stream recs r : make_batch stream (recs ++ [r]) = batch_add stream (make_batch stream recs) r.
Proof. unfold make_batch. by rewrite foldl_app. Qed.

Definition offs_lt (a b : StoredRecord) : Prop := (sr_Offset a < sr_Offset b)%N.

Definition local_only (stream : string) (r : StoredRecord) : bool := (stream == metricsStream) && e_SourceLocalOnly (sr_rec r).

(** A batch carries a page's records in order: each record that is not local as itself,
    each local one inside a skip range. *)
Record Batched (stream : string) (recs : list StoredRecord) (batch : list ReplRecord) : Prop := {
  bt_increasing : increasing batch;
  bt_carried : forall r, r ∈ recs -> local_only stream r = false -> to_repl r ∈ batch;
  bt_last : rp_ChildOffset <$> last batch = sr_Offset <$> last recs;
  bt_from : forall b, b ∈ batch -> exists r, r ∈ recs /\ rp_ChildOffset b = sr_Offset r;
}.

(** One more record, whose entry ends at it and which replaces at most a skip range. *)
Lemma Batched_snoc stream recs batch kept r x : Batched stream recs batch ->
  (forall r', r' ∈ recs -> offs_lt r' r) -> kept `prefix_of` batch -> (forall b, b ∈ batch -> rp_SkipFrom b = 0%N -> b ∈ kept) ->
  rp_ChildOffset x = sr_Offset r -> (local_only stream r = false -> x = to_repl r) ->
  Batched stream (recs ++ [r]) (kept ++ [x]).
Proof.
  intros [Hi Hin Hl Hb] Hc [cut ->] Hk Hx Hr.
  assert (Hlt : forall b, b ∈ kept -> (rp_ChildOffset b < sr_Offset r)%N).
  { intros b Hbb. destruct (Hb b) as (r' & Hr' & ->); [apply elem_of_app; by left|]. by apply Hc. }
  apply StronglySorted_app in Hi as (_ & Hi & _). split.
  - apply StronglySorted_app. split_and!; [|done|repeat constructor].
    intros b y Hbb ->%list_elem_of_singleton. rewrite Hx. by apply Hlt.
  - intros r' [Hr'| ->%list_elem_of_singleton]%elem_of_app Hn; apply elem_of_app.
    + left. apply Hk; [by apply Hin|done].
    + right. rewrite Hr by done. left.
  - rewrite !last_snoc. simpl. by rewrite Hx.
  - intros b [Hbb| ->%list_elem_of_singleton]%elem_of_app.
    + destruct (Hb b) as (r' & ? & ?); [apply elem_of_app; by left|]. exists r'. split; [|done]. apply elem_of_app. by left.
    + exists r. split; [apply elem_of_app; right; left|done].
Qed.

Lemma make_batch_batched stream recs : StronglySorted offs_lt recs -> Batched stream recs (make_batch stream recs).
Proof.
  induction recs as [|r recs IH] using rev_ind; intros Hs.
  { split; [constructor|by intros r ?%elem_of_nil|done|by intros b ?%elem_of_nil]. }
  apply StronglySorted_app in Hs as (Hc & Hs & _). specialize (IH Hs). rewrite make_batch_snoc.
  assert (Hlt : forall r', r' ∈ recs -> offs_lt r' r) by (intros r' Hr'; apply Hc; [done|left]).
  assert (Hadd : forall x, rp_ChildOffset x = sr_Offset r -> (local_only stream r = false -> x = to_repl r) ->
    Batched stream (recs ++ [r]) (make_batch stream recs ++ [x])) by (intros; by eapply Batched_snoc).
  unfold batch_add. fold (local_only stream r). destruct (local_only stream r) eqn:El; [|by apply Hadd].
  destruct (last _) as [b|] eqn:Elast; [|by apply Hadd]. destruct (_ && _) eqn:Em; [|by apply Hadd].
  apply andb_true_iff in Em as [Hsk _]. apply negb_true_iff, bool_decide_eq_false in Hsk.
  apply last_Some in Elast as [l Hbl]. eapply Batched_snoc; [exact IH|done| | |done|by rewrite El].
  - rewrite Hbl, removelast_last. by eexists.
  - rewrite Hbl, removelast_last. by intros x [?| ->%list_elem_of_singleton]%elem_of_app ?.
Qed.

(** *** The part of it that fits *)

Definition size_mono (size : list ReplRecord -> N) (batch : list ReplRecord) : Prop :=
  forall i j, i <= j -> (size (take i batch) <= size (take j batch))%N.

(** The search keeps: [best] fits and is just below [low], what is above [high] does
    not fit. *)
Lemma fit_search_ok fuel size maxBytes batch low high best :
  high + 1 - low <= fuel -> low = S best -> low <= S high ->
  (0 < best -> (size (take best batch) <= maxBytes)%N) ->
  let n := fit_search fuel size maxBytes batch low high best in
  best <= n <= high /\ (0 < n -> (size (take n batch) <= maxBytes)%N)
  /\ (size_mono size batch -> (forall m, high < m <= length batch -> (maxBytes < size (take m batch))%N) ->
      forall m, n < m <= length batch -> (maxBytes < size (take m batch))%N).
Proof.
  revert low high best. induction fuel as [|fuel IH]; intros low high best Hf Hlow Hle Hfit; cbn [fit_search].
  { split; [lia|]. split; [done|]. intros _ Hh m Hm. apply Hh. lia. }
  destruct (Nat.ltb_spec high low) as [Hlt|Hlt].
  { split; [lia|]. split; [done|]. intros _ Hh m Hm. apply Hh. lia. }
  set (mid := low + (high - low) / 2). assert (Hmid : low <= mid <= high).
  { unfold mid. pose proof (Nat.div_le_upper_bound (high - low) 2 (high - low)). lia. }
  destruct (N.leb_spec (size (take mid batch)) maxBytes) as [Hs|Hs].
  - destruct (IH (S mid) high mid) as (H1 & H2 & H3); [lia|done|lia|done|]. split; [lia|]. by split.
  - destruct (IH low (mid - 1) best) as (H1 & H2 & H3); [lia|done|lia|done|]. split; [lia|]. split; [done|].
    intros Hmono Hh m Hm. apply H3; [done| |done]. intros m' Hm'. pose proof (Hmono mid m' ltac:(lia)). lia.
Qed.

Lemma fitReplicationBatch_prefix size maxBytes batch out : batch <> [] ->
  fitReplicationBatch size maxBytes batch = Some out ->
  exists n, 0 < n /\ out = take n batch /\ (size out <= maxBytes)%N
    /\ (size_mono size batch -> forall m, n < m <= length batch -> (maxBytes < size (take m batch))%N).
Proof.
  intros Hne. unfold fitReplicationBatch. assert (length batch <> 0) as Hl by (by destruct batch).
  destruct (N.leb_spec (size batch) maxBytes) as [Hs|Hs].
  { intros [= <-]. exists (length batch). rewrite firstn_all. split_and!; [lia|done|done|]. intros. lia. }
  destruct (fit_search_ok (length batch) size maxBytes batch 1 (length batch - 1) 0) as (Hb & Hf & Hm); [lia|done|lia|lia|].
  destruct (fit_search _ _ _ _ _ _ _) as [|n]; [done|]. intros [= <-]. exists (S n). split_and!; [lia|done|by apply Hf; lia|].
  intros Hmono. apply Hm; [done|]. intros m Hm'. assert (m = length batch) as -> by lia. by rewrite firstn_all.
Qed.

Lemma fitReplicationBatch_none size maxBytes batch : batch <> [] -> size_mono size batch ->
  fitReplicationBatch size maxBytes batch = None -> (maxBytes < size (take 1 batch))%N.
Proof.
  intros Hne Hmono. unfold fitReplicationBatch. assert (length batch <> 0) as Hl by (by destruct batch).
  destruct (N.leb_spec (size batch) maxBytes) as [Hs|Hs]; [done|].
  destruct (fit_search_ok (length batch) size maxBytes batch 1 (length batch - 1) 0) as (Hb & Hf & Hm); [lia|done|lia|lia|].
  destruct (fit_search _ _ _ _ _ _ _) as [|n]; [|done]. intros _. apply Hm; [done| |lia].
  intros m Hm'. assert (m = length batch) as -> by lia. by rewrite firstn_all.
Qed.

(** The batch that is sent is the largest that fits. When a longer prefix of the page
    never has a shorter request, the binary search ends with a non-empty prefix whose
    request is within the bound and such that no longer prefix's is; it gives up exactly
    when not even the first record fits. *)
Theorem fitReplicationBatch_largest size maxBytes batch : batch <> [] -> size_mono size batch ->
  match fitReplicationBatch size maxBytes batch with
  | Some out => exists n, 0 < n /\ out = take n batch /\ (size out <= maxBytes)%N
      /\ forall m, n < m <= length batch -> (maxBytes < size (take m batch))%N
  | None => forall m, 0 < m -> (maxBytes < size (take m batch))%N
  end.
Proof.
  intros Hne Hmono. destruct (fitReplicationBatch size maxBytes batch) as [out|] eqn:E.
  - destruct (fitReplicationBatch_prefix _ _ _ _ Hne E) as (n & Hn & Ho & Hs & Hm). exists n. auto.
  - intros m Hm. pose proof (fitReplicationBatch_none _ _ _ Hne Hmono E). pose proof (Hmono 1 m ltac:(lia)). lia.
Qed.

(** ** A push as it leaves the child *)

(** A record the child still holds and its parent is to have. *)
Definition needed (logs : logForwarding) (st : Store) (stream : string) (o : N) (e : recEnc) : Prop :=
  record_at (db st) stream o = Some e /\ rises logs stream e = true.

Lemma needed_range logs st stream o e : Inv st -> stream ∈ streams -> needed logs st stream o e ->
  (LWM st stream <= o < NextOffset st stream)%N.
Proof.
  intros HI Hs [He _]. unfold record_at in He. destruct (db st !! streamKey stream o) as [v|] eqn:Ev; [|done].
  by apply (si_range _ _ _ _ _ (inv_stream st HI stream Hs)) in Ev as [? _].
Qed.

(** [st'] differs from [st] in what the link keeps only: cursors, marks, documents and
    records set aside. *)
Definition link_tags : list string := "ua" :: cursor_tags.

Definition link_only (st st' : Store) : Prop :=
  exists d, st' = set_db d st /\ forall k, tag k ∉ link_tags -> d !! k = db st !! k.

Lemma cursor_only_link st st' : cursor_only st st' -> link_only st st'.
Proof. intros (d & -> & Hd). exists d. split; [done|]. intros k Hk. apply Hd. intros Hin. apply Hk. by right. Qed.

Lemma link_only_inv st st' : link_only st st' -> Inv st -> Inv st'.
Proof.
  intros (d & -> & Hd). apply Inv_frame; try done. intros k Hk. apply Hd.
  by apply (tags_disjoint ("i" :: inv_tags) link_tags).
Qed.

Lemma link_only_trans s1 s2 s3 : link_only s1 s2 -> link_only s2 s3 -> link_only s1 s3.
Proof.
  intros (d & -> & Hd) (d' & -> & Hd'). exists d'. split; [done|]. intros k Hk. rewrite Hd' by done. by apply Hd.
Qed.

Lemma link_only_fields st st' : link_only st st' ->
  id st' = id st /\ (forall stream, NextOffset st' stream = NextOffset st stream) /\ (forall stream, LWM st' stream = LWM st stream).
Proof. by intros (d & -> & _). Qed.

Lemma needed_only logs st st' stream o e : link_only st st' -> needed logs st' stream o e <-> needed logs st stream o e.
Proof. intros (d & -> & Hd). unfold needed, record_at. store_simpl. by rewrite Hd by tag_in. Qed.

Lemma increasing_prefix l l' : l `prefix_of` l' -> increasing l' -> increasing l.
Proof. intros [k ->] Hi. by apply StronglySorted_app in Hi as (_ & ? & _). Qed.

(** In a log of increasing offsets, what is not past a prefix's last offset is in it. *)
Lemma prefix_last l l' x : increasing l' -> l `prefix_of` l' -> x ∈ l' -> (rp_ChildOffset x <= last_offset 0 l)%N ->
  (0 < rp_ChildOffset x)%N -> x ∈ l.
Proof.
  intros Hi [k ->] Hx Hle Hpos. apply elem_of_app in Hx as [|Hk]; [done|]. exfalso. apply StronglySorted_app in Hi as (Hc & _ & _).
  destruct l as [|y l _] using rev_ind; [cbn in Hle; lia|]. rewrite last_offset_app in Hle. cbn in Hle.
  specialize (Hc y x ltac:(apply elem_of_app; right; left) Hk). lia.
Qed.

Lemma last_offset_last l y : last l = Some y -> last_offset 0 l = rp_ChildOffset y.
Proof. intros [l' ->]%last_Some. by rewrite last_offset_app. Qed.

(** What a page and its batch hold. *)
Lemma page_batch logs st stream from page : Inv st -> stream ∈ streams -> (from <= NextOffset st stream)%N ->
  readUplinkPage logs st stream from (pushable (lane_filter stream)) = Ok page ->
  let full := make_batch stream (up_recs page) in
  (from <= up_next page <= NextOffset st stream)%N /\ increasing full
  /\ (forall o e, needed logs st stream o e -> (from <= o < up_next page)%N -> to_repl (storedRecord o e) ∈ full)
  /\ (forall b, b ∈ full -> (from <= rp_ChildOffset b < up_next page)%N /\ (0 < rp_ChildOffset b)%N).
Proof.
  intros HI Hs Hle E. destruct (readUplinkPage_spec _ _ _ _ _ HI Hs Hle E) as (Hb & Hr & _).
  assert (Hmem : forall r, r ∈ up_recs page <-> exists o e, r = storedRecord o e /\ read_up logs stream e = true
      /\ (from <= o < up_next page)%N /\ record_at (db st) stream o = Some e).
  { intros r. rewrite Hr, list_elem_of_fmap. setoid_rewrite list_elem_of_filter. split.
    - intros ([o e] & -> & Hw & [? ?]%elem_of_scanStream). by exists o, e.
    - intros (o & e & -> & Hw & Hin). exists (o, e). split; [done|]. split; [done|]. by apply elem_of_scanStream. }
  destruct (make_batch_batched stream (up_recs page)) as [Hi Hc _ Hf].
  { rewrite Hr. apply (StronglySorted_fmap Readers.stored off_lt); [done|]. apply sorted_filter, scanStream_sorted. }
  cbv zeta. split_and!; [lia..|done| |].
  - intros o e [He Hw] Ho. unfold rises in Hw. apply andb_true_iff in Hw as [Hw Hl]. apply negb_true_iff in Hl.
    apply Hc; [|done]. apply Hmem. by exists o, e.
  - intros b Hbb. destruct (Hf b Hbb) as (r & (o & e & -> & _ & Ho & He)%Hmem & ->). cbn [sr_Offset storedRecord]. split; [done|].
    unfold record_at in He. destruct (db st !! streamKey stream o) as [v|] eqn:Ev; [|done].
    apply (si_range _ _ _ _ _ (inv_stream st HI stream Hs)) in Ev as [? _]. pose proof (ci_bounds _ _ (inv_counter st HI stream Hs)). lia.
Qed.

(** A push of the records of [[from, next)]. *)
Record Sent (logs : logForwarding) (st : Store) (from next : N) (p : Push) : Prop := {
  sn_ne : pu_recs p <> [];
  sn_increasing : increasing (pu_recs p);
  sn_carried : forall o e, needed logs st (pu_stream p) o e -> (from <= o < next)%N -> to_repl (storedRecord o e) ∈ pu_recs p;
  sn_range : forall b, b ∈ pu_recs p -> (from <= rp_ChildOffset b < next)%N /\ (0 < rp_ChildOffset b)%N;
  sn_next : (next <= NextOffset st (pu_stream p))%N;
}.

(** A prefix of a page's batch is a push of the records up to its last. *)
Lemma Sent_prefix logs st from next p full : increasing full ->
  (forall o e, needed logs st (pu_stream p) o e -> (from <= o < next)%N -> to_repl (storedRecord o e) ∈ full) ->
  (forall b, b ∈ full -> (from <= rp_ChildOffset b < next)%N /\ (0 < rp_ChildOffset b)%N) ->
  (next <= NextOffset st (pu_stream p))%N -> pu_recs p <> [] -> pu_recs p `prefix_of` full ->
  Sent logs st from (if (length (pu_recs p) <? length full)%nat then (match last (pu_recs p) with Some r => rp_ChildOffset r | None => 0%N end + 1)%N else next) p.
Proof.
  intros Hi Hc Hr Hn Hne Hp. destruct (last (pu_recs p)) as [y|] eqn:El; [|by apply last_None in El].
  pose proof (last_offset_last _ _ El) as Hlast. assert (Hin : forall b, b ∈ pu_recs p -> b ∈ full).
  { destruct Hp as [k ->]. intros b Hb. apply elem_of_app. by left. }
  assert (Hy : y ∈ pu_recs p) by (apply last_Some in El as [l' ->]; apply elem_of_app; right; left).
  destruct (Nat.ltb_spec (length (pu_recs p)) (length full)) as [Hlt|Hlt].
  - destruct (Hr y (Hin y Hy)) as [Hyr _]. split; [done|by eapply increasing_prefix| | |lia].
    + intros o e Hneed Ho. assert (Hx := Hc o e Hneed ltac:(lia)). apply (prefix_last _ full); try done.
      * rewrite Hlast. cbn. lia.
      * by apply Hr.
    + intros b Hb. destruct (Hr b (Hin b Hb)) as [Hb1 Hb2]. split; [|done]. split; [lia|].
      apply last_Some in El as [l' Hl']. pose proof (increasing_prefix _ _ Hp Hi) as Hi'. rewrite Hl' in Hi', Hb.
      apply elem_of_app in Hb as [Hb| ->%list_elem_of_singleton]; [|lia]. apply StronglySorted_app in Hi' as (Hcr & _ & _).
      specialize (Hcr b y Hb ltac:(left)). lia.
  - assert (pu_recs p = full) as E.
    { destruct Hp as [k Hk]. rewrite Hk, length_app in Hlt. destruct k; [by rewrite app_nil_r in Hk|simpl in Hlt; lia]. }
    split; [done|by rewrite E|by rewrite E|by rewrite E|done].
Qed.

(** ** Positions *)

(** Where the child stands against a parent on a stream: its cursor, and what it was
    told is stored there. *)
Definition position (pub : string) (st : Store) (stream : string) : N * N :=
  (CursorGet st (UplinkCursor pub) stream, AckedMark st pub stream).

(** [st'] differs from [st] in what the link keeps only, and stands at [g]. *)
Definition stands (pub : string) (st st' : Store) (g : string -> N * N) : Prop :=
  link_only st st' /\ forall stream, position pub st' stream = g stream.

Lemma stands_refl pub st : stands pub st st (position pub st).
Proof. split; [apply cursor_only_link, cursor_only_refl|done]. Qed.

Lemma stands_trans pub s1 s2 s3 g1 g2 : stands pub s1 s2 g1 -> stands pub s2 s3 g2 -> stands pub s1 s3 g2.
Proof. intros [H1 _] [H2 ?]. split; [by eapply link_only_trans|done]. Qed.

Definition with_at (g : string -> N * N) (stream : string) (x : N * N) (stream' : string) : N * N :=
  if decide (stream' = stream) then x else g stream'.

Lemma commitAcks_stands pub f ms r st : ak_name r = UplinkCursor pub -> (ak_marked r = true -> ak_parent r = pub) ->
  let st' := fst (commitAcks f ms [r] st) in
  let '(c, a) := position pub st (ak_stream r) in
  stands pub st st' (position pub st)
  \/ stands pub st st' (with_at (position pub st) (ak_stream r) (N.max c (ak_off r), if ak_marked r then ak_mark r else a)).
Proof.
  intros Hn Hp. cbv zeta. pose proof (commitAcks_only f ms [r] st) as Ho. destruct (commitAcks f ms [r] st) as [st' o] eqn:E.
  pose proof (commitAcks_eq _ _ _ _ _ _ E) as Heq. cbn [fst] in *. unfold position at 1. destruct o as [m|e]; [|left; subst; apply stands_refl].
  right. split; [by apply cursor_only_link|]. intros stream. destruct Heq as [-> _]. unfold position, with_at, CursorGet, AckedMark. store_simpl.
  rewrite ack_effects_cursor, ack_effects_mark. unfold acks_of, marks_of. rewrite !filter_cons, !filter_nil.
  destruct (decide (stream = ak_stream r)) as [->|Hne].
  - rewrite decide_True by done. cbn. destruct (ak_marked r) eqn:Em; [rewrite decide_True by auto; done|].
    by rewrite decide_False by naive_solver.
  - by rewrite !decide_False by naive_solver.
Qed.

Lemma CursorAck_stands pub f ms stream off st :
  let st' := fst (CursorAck f ms (UplinkCursor pub) stream off st) in
  let '(c, a) := position pub st stream in
  stands pub st st' (position pub st) \/ stands pub st st' (with_at (position pub st) stream (N.max c off, a)).
Proof.
  pose proof (commitAcks_stands pub f ms (mkAckRequest (UplinkCursor pub) stream off false "" 0) st eq_refl) as Hc. cbv zeta in *.
  unfold CursorAck. destruct (commitAcks _ _ _ _) as [st' [[|m [|]]|]]; by apply Hc.
Qed.

Lemma CursorAckMarked_stands pub f ms stream off hwm st :
  let st' := fst (CursorAckMarked f ms (UplinkCursor pub) stream off pub hwm st) in
  stands pub st st' (position pub st)
  \/ stands pub st st' (with_at (position pub st) stream (N.max (fst (position pub st stream)) off, hwm)).
Proof.
  pose proof (commitAcks_stands pub f ms (mkAckRequest (UplinkCursor pub) stream off true pub hwm) st eq_refl) as Hc. cbv zeta in *.
  unfold CursorAckMarked. destruct (commitAcks _ _ _ _) as [st' [[|m [|]]|]]; by apply Hc.
Qed.

(** A write of other cursors and documents. *)
Lemma stands_frame pub st st' : cursor_only st st' ->
  (forall stream, db st' !! cursorKey (UplinkCursor pub) stream = db st !! cursorKey (UplinkCursor pub) stream) ->
  (forall stream, db st' !! ackedKey pub stream = db st !! ackedKey pub stream) -> stands pub st st' (position pub st).
Proof. intros Ho Hc Ha. split; [by apply cursor_only_link|]. intros stream. unfold position, CursorGet, AckedMark, readU64. by rewrite Hc, Ha. Qed.

Lemma SetParentState_stands pub f parent state st : stands pub st (fst (SetParentState f parent state st)) (position pub st).
Proof.
  apply stands_frame; [apply SetParentState_only|..]; intros stream; unfold SetParentState; (destruct (apply_fails f); [done|]);
    cbn [fst]; store_simpl; by rewrite lookup_insert_ne.
Qed.

Lemma CursorSetIfAbsent_stands pub f now name stream off st : name <> UplinkCursor pub ->
  stands pub st (fst (CursorSetIfAbsent f now name stream off st)) (position pub st).
Proof.
  intros Hn. apply stands_frame; [apply CursorSetIfAbsent_only|..]; intros st'; destruct (CursorSetIfAbsent _ _ _ _ _ _) as [s1 r] eqn:E;
    apply CursorSetIfAbsent_eq in E; cbn [fst]; (destruct r as [[]|]; [|by destruct E as [-> _]|by subst]); destruct E as [_ ->];
    store_simpl; rewrite lookup_insert_ne by done; [|by rewrite lookup_insert_ne by done].
  rewrite lookup_insert_ne; [done|]. unfold cursorKey. congruence.
Qed.

Lemma stands_at pub st st' stream c a : position pub st stream = (c, a) -> stands pub st st' (position pub st) ->
  stands pub st st' (with_at (position pub st) stream (c, a)).
Proof. intros Hg [Ho Hp]. split; [done|]. intros s'. rewrite Hp. unfold with_at. case_decide; [by subst|done]. Qed.

(** Where a push reads from: past what the stream no longer has. *)
Lemma push_from pub f ms stream st : let '(c, a) := position pub st stream in
  exists st' c', stands pub st st' (with_at (position pub st) stream (c', a)) /\ (c' = c \/ c' = N.max c (LWM st stream))
    /\ (if (c <? LWM st stream)%N then (fst (CursorAck f ms (UplinkCursor pub) stream (LWM st stream) st), LWM st stream) else (st, c))
       = (st', N.max c (LWM st stream)).
Proof.
  pose proof (CursorAck_stands pub f ms stream (LWM st stream) st) as Hk. cbv zeta in Hk.
  destruct (position pub st stream) as [c a] eqn:Hpos. destruct (N.ltb_spec c (LWM st stream)) as [Hl|Hl].
  - eexists _. destruct Hk as [Hk|Hk]; [exists c|exists (N.max c (LWM st stream))]; (split_and!; [|tauto|f_equal; lia]); [|done].
    by apply stands_at.
  - exists st, c. split_and!; [apply stands_at; [done|apply stands_refl]|by left|f_equal; lia].
Qed.

(** What is sent of a batch: a non-empty prefix, cut to what fits and to the lane's hold. *)
Lemma sent_prefix size maxBytes (hold : laneHold) full batch : full <> [] -> fitReplicationBatch size maxBytes full = Some batch ->
  let sent := if (0 <? lh_limit hold)%nat && (lh_limit hold <? length batch)%nat then take (lh_limit hold) batch else batch in
  sent `prefix_of` full /\ sent <> [].
Proof.
  intros Hnil Ef. destruct (fitReplicationBatch_prefix _ _ _ _ Hnil Ef) as (n & Hn & Hbatch & _).
  assert (batch <> []) as Hbn by (rewrite Hbatch; destruct full; [done|by destruct n; [lia|]]).
  assert (batch `prefix_of` full) by (rewrite Hbatch; eexists; symmetry; apply firstn_skipn).
  cbv zeta. destruct (Nat.ltb_spec 0 (lh_limit hold)) as [E0|]; cbn [andb]; [|done]. destruct (_ <? _)%nat; [|done]. split.
  - etrans; [|done]. eexists; symmetry; apply firstn_skipn.
  - destruct batch; [done|]. by destruct (lh_limit hold); [lia|].
Qed.

(** What [pushOnce] sends, and what it leaves: the cursor where it was, or at the first
    record the stream still has. *)
Lemma pushStart_spec f ms logs size maxBytes hold cl stream st st' r :
  let pub := cl_parentPub cl in
  let '(c, a) := position pub st stream in
  Inv st -> stream ∈ uplinkStreams -> (c <= NextOffset st stream)%N ->
  pushStart f ms logs size maxBytes hold cl stream st = (st', r) ->
  let from := N.max c (LWM st stream) in
  (exists c', stands pub st st' (with_at (position pub st) stream (c', a)) /\ (c' = c \/ c' = from))
  /\ match r with
     | PushIdle => True
     | PushPast next => (from <= next <= NextOffset st stream)%N /\ forall o e, needed logs st stream o e -> ~ (from <= o < next)%N
     | PushSend p next _ =>
         pu_store p = id st /\ pu_stream p = stream /\ pu_acked p = a /\ is_Some (pu_parent p) /\ Sent logs st from next p
     end.
Proof.
  intros pub. pose proof (push_from pub f ms stream st) as Hfr. destruct (position pub st stream) as [c a] eqn:Hpos.
  intros HI Hup Hle E. cbv zeta. pose proof (uplinkStreams_streams _ Hup) as Hs.
  injection (Hpos) as Hc Ha. unfold pushStart in E. cbv zeta in E. fold pub in E. rewrite Hc in E.
  destruct (cl_resyncWanted cl).
  { injection E as <- <-. split; [|done]. exists c. split; [|by left]. apply stands_at; [done|apply stands_refl]. }
  destruct Hfr as (st1 & c' & Hst & Hc' & E1). rewrite E1 in E. clear E1. set (from := N.max c (LWM st stream)) in *.
  destruct (link_only_fields _ _ (proj1 Hst)) as (Hid & Hnx & Hlw). assert (HI1 : Inv st1) by (by eapply link_only_inv; [apply Hst|]).
  assert (Hgoal : forall x, st1 = st' -> x -> (exists c', stands pub st st' (with_at (position pub st) stream (c', a)) /\ (c' = c \/ c' = from)) /\ x).
  { intros x <- Hx. split; [by exists c'|done]. }
  destruct (readUplinkPage _ _ _ _ _) as [page|] eqn:Ep; [|injection E as <- <-; by apply Hgoal].
  destruct (N.eqb_spec (up_next page) from); [injection E as <- <-; by apply Hgoal|].
  assert (Hfrom : (from <= NextOffset st1 stream)%N).
  { rewrite Hnx. pose proof (ci_bounds _ _ (inv_counter st HI stream Hs)). unfold from. lia. }
  destruct (page_batch _ _ _ _ _ HI1 Hs Hfrom Ep) as (Hb & Hi & Hcar & Hr). rewrite Hnx in Hb.
  setoid_rewrite (fun o e => needed_only logs st st1 stream o e (proj1 Hst)) in Hcar.
  set (full := make_batch stream (up_recs page)) in *. destruct (decide (full = [])) as [Hnil|Hnil].
  { rewrite Hnil in E. injection E as <- <-. apply Hgoal; [done|]. split; [lia|]. intros o e Hn Ho. specialize (Hcar o e Hn Ho).
    rewrite Hnil in Hcar. by apply elem_of_nil in Hcar. }
  destruct full as [|b0 full'] eqn:Efull; [done|]. rewrite <- Efull in *. clear Efull b0 full'.
  destruct (fitReplicationBatch _ _ _) as [batch|] eqn:Ef; [|injection E as <- <-; by apply Hgoal].
  destruct (sent_prefix _ _ hold _ _ Hnil Ef) as [Hpre Hne].
  injection E as <- <-. apply Hgoal; [done|]. cbn [pu_store pu_stream pu_acked pu_parent]. split_and!; [done|done| |by eexists|].
  { destruct Hst as [_ Hp]. specialize (Hp stream). unfold with_at in Hp. rewrite decide_True in Hp by done. by injection Hp. }
  apply (Sent_prefix logs st from (up_next page) (mkPush _ _ _ _ _) full); cbn [pu_stream pu_recs]; try done. lia.
Qed.

(** ** The parent's side *)

(** [s'] holds of the child what [s] holds. *)
Record Kept (child : string) (s s' : Store) : Prop := {
  kp_inv : Inv s';
  kp_mark : forall stream, mark s' child stream = mark s child stream;
  kp_store : ChildStore child s' = ChildStore child s;
  kp_next : next s' = next s;
}.

Lemma Kept_refl child s : Inv s -> Kept child s s.
Proof. by split. Qed.

Lemma Kept_trans child s1 s2 s3 : Kept child s1 s2 -> Kept child s2 s3 -> Kept child s1 s3.
Proof.
  intros [_ M1 C1 N1] [I2 M2 C2 N2]. split; [done| |congruence|congruence]. intros stream. by rewrite M2, M1.
Qed.

Lemma HWMGet_kept child stream c s : Inv s -> exists s', HWMGet child stream s = (s', mark s child stream) /\ Kept c s s' /\ id s' = id s.
Proof.
  intros HI. pose proof (HWMGet_inv child stream s HI) as HI'.
  destruct (HWMGet_eq child stream s (hwms_ok_of_inv s HI)) as (hs & E & _). rewrite E in *. eexists. split; [done|]. by split.
Qed.

Lemma reincarnate_kept f mint now onlyFrom reason child s : Inv s -> Kept child s (fst (reincarnate f mint now onlyFrom reason s)).
Proof.
  intros HI. pose proof (reincarnate_inv f mint now onlyFrom reason s HI) as HI'.
  destruct (reincarnate f mint now onlyFrom reason s) as [s' [[i c]|e]] eqn:E; cbn [fst] in *.
  2: { apply reincarnate_unchanged in E as ->. by apply Kept_refl. }
  apply reincarnate_inv_db in E. destruct c; [|destruct E as (_ & -> & _); by apply Kept_refl]. destruct E as (-> & _ & ->).
  assert (Hd : forall k, tag k ∉ ["i"; "ic"; "pa"] -> db (set_id mint true (set_db (apply_batch
       [BSet storeIDKey (VBytes mint); BSet incarnationChangeKey (VChange (mkIncarnationChange (id s) reason now));
        BDeleteRange AckedRange] (db s)) s)) !! k = db s !! k) by (intros; by apply reincarnate_other).
  split; [done|..|done].
  - intros stream. unfold mark, readU64. by rewrite Hd by tag_in.
  - unfold ChildStore. rewrite Hd by tag_in. done.
Qed.

(** [AdoptChildStore] of the incarnation already on record, or of the first one. *)
Lemma AdoptChildStore_kept f child i s s' r : Inv s -> ChildStore child s = "" \/ ChildStore child s = i ->
  AdoptChildStore f child i s = (s', r) ->
  Inv s' /\ (forall stream, mark s' child stream = mark s child stream) /\ next s' = next s
  /\ (ChildStore child s' = ChildStore child s \/ ChildStore child s' = i)
  /\ ((exists x, r = Ok x) -> i <> "" -> ChildStore child s' = i).
Proof.
  intros HI Hc E. pose proof (AdoptChildStore_inv f child i s HI) as HI'. rewrite E in HI'. cbn [fst] in HI'.
  destruct (decide (i = "")) as [->|Hi].
  { unfold AdoptChildStore in E. cbn in E. injection E as <- <-. split_and!; try done; by left. }
  pose proof (AdoptChildStore_resets f child i s s' r HI Hi E) as Hr. destruct r as [reset|e].
  - destruct Hr as (Hs & Hreset & Hm & _ & Hn & _). assert (reset = false) as ->.
    { apply not_true_iff_false. intros [? ?]%Hreset. naive_solver. }
    split_and!; [done|done|done|by right|done].
  - subst s'. split_and!; try done; [by left|by intros [x ?]].
Qed.

(** *** The verdict *)

Lemma ahead_on_spec child acked sts s : Inv s ->
  exists s', fst (ahead_on child acked sts s) = s' /\ Kept child s s' /\ id s' = id s
    /\ (snd (ahead_on child acked sts s) = None <->
        forall stream, stream ∈ sts -> mark s child stream = 0%N \/ (default 0 (acked !! stream) <= mark s child stream)%N).
Proof.
  revert s. induction sts as [|stream sts IH]; intros s HI; cbn [ahead_on].
  { exists s. split_and!; [done|by apply Kept_refl|done|]. split; [|done]. by intros _ st ?%elem_of_nil. }
  destruct (HWMGet_kept child stream child s HI) as (s1 & -> & Hk & Hid). pose proof (kp_mark _ _ _ Hk stream) as Hm.
  destruct (_ && _) eqn:Ea; cbn [fst snd].
  - exists s1. split_and!; [done|done|done|]. split; [done|]. intros Hall. specialize (Hall stream ltac:(left)).
    apply andb_true_iff in Ea as [E1%N.ltb_lt E2%N.ltb_lt]. lia.
  - destruct (IH s1 (kp_inv _ _ _ Hk)) as (s2 & Hs2 & Hk2 & Hid2 & Hn). exists s2.
    split_and!; [done|by eapply Kept_trans|congruence|]. rewrite Hn. setoid_rewrite elem_of_cons. setoid_rewrite (kp_mark _ _ _ Hk).
    split; [|naive_solver]. intros Hall st [->|Hst]; [|by apply Hall]. apply andb_false_iff in Ea as [E1%N.ltb_ge|E2%N.ltb_ge]; lia.
Qed.

Lemma sort_strings_elem l x : x ∈ sort_strings l <-> x ∈ l.
Proof. unfold sort_strings. by rewrite (merge_sort_Permutation String.le l). Qed.

(** A child is ahead on a stream when it was told of more than its mark here says. *)
Definition behind (child : string) (p : childPosition) (s : Store) : Prop :=
  po_store p <> "" /\ ChildStore child s = po_store p /\
  exists stream n, po_acked p !! stream = Some n /\ (0 < mark s child stream < n)%N.

Lemma aheadOf_spec child p s : Inv s ->
  Kept child s (fst (aheadOf child p s)) /\ id (fst (aheadOf child p s)) = id s
  /\ (snd (aheadOf child p s) = None <->
      (po_commands p <= NextOffset s "commands")%N /\ (po_definitions p <= NextOffset s "definitions")%N /\ ~ behind child p s).
Proof.
  intros HI. unfold aheadOf. cbv zeta. destruct (N.ltb_spec (NextOffset s "commands") (po_commands p)).
  { split; [by apply Kept_refl|]. split; [done|]. split; [done|lia]. }
  destruct (N.ltb_spec (NextOffset s "definitions") (po_definitions p)).
  { split; [by apply Kept_refl|]. split; [done|]. split; [done|lia]. }
  destruct ((po_store p == "") || (ChildStore child s != po_store p)) eqn:Es.
  { split; [by apply Kept_refl|]. split; [done|]. split; [|done]. intros _. split_and!; [done|done|]. intros (H3 & H4 & _).
    apply orb_true_iff in Es as [Es%bool_decide_eq_true|Es%negb_true_iff%bool_decide_eq_false]; done. }
  apply orb_false_iff in Es as [Es1%bool_decide_eq_false Es2%negb_false_iff%bool_decide_eq_true].
  destruct (ahead_on_spec child (po_acked p) (sort_strings (map_to_list (po_acked p)).*1) s HI) as (s' & <- & Hk & Hid & Hn).
  split; [done|]. split; [done|]. rewrite Hn. split.
  - intros Hall. split_and!; [done|done|]. intros (_ & _ & stream & n & Hl & Hlt). destruct (Hall stream) as [?|Hle]; [|lia|].
    + apply sort_strings_elem, list_elem_of_fmap. exists (stream, n). split; [done|]. by apply elem_of_map_to_list.
    + rewrite Hl in Hle. simpl in Hle. lia.
  - intros (_ & _ & Hnb) stream Hst. destruct (po_acked p !! stream) as [n|] eqn:Hl; [|right; simpl; lia]. simpl.
    destruct (decide (mark s child stream = 0%N)) as [|Hz]; [by left|]. right. apply N.le_ngt. intros Hlt. apply Hnb.
    split_and!; [done|done|]. exists stream, n. split; [done|lia].
Qed.

Lemma judgeChild_capable current recorded ahead :
  judgeChild current true recorded ahead = childProceed /\ (recorded = "" \/ recorded = current) /\ ahead = false
  \/ (judgeChild current true recorded ahead = childResync \/ judgeChild current true recorded ahead = childReincarnate)
     /\ (recorded <> "" /\ recorded <> current \/ ahead = true).
Proof.
  unfold judgeChild. cbn [negb]. case_bool_decide as E1; case_bool_decide as E2; cbn [negb andb]; destruct ahead; cbn [negb]; auto 10.
Qed.

(** What a child that speaks the handshake is told: to go on exactly when it knows this
    incarnation, or none, and is not ahead; otherwise to re-sync. *)
Lemma judge_spec f mint now child recorded p s : Inv s ->
  let '(s', r) := judge f mint now child (Some recorded) p s in
  let ahead := snd (aheadOf child p s) in
  Kept child s s'
  /\ (r = Ok false -> (recorded = "" \/ recorded = id s) /\ ahead = None /\ id s' = id s)
  /\ (f = no_faults -> recorded <> "" /\ recorded <> id s \/ is_Some ahead -> r = Ok true)
  /\ (f = no_faults -> exists b, r = Ok b) /\ (id s' = id s \/ id s' = mint).
Proof.
  intros HI. unfold judge. destruct (aheadOf_spec child p s HI) as (Hk & Hid & _).
  destruct (aheadOf child p s) as [s1 ahead]. cbn [fst snd] in *. rewrite bool_decide_true by (by eexists). cbn [default].
  change (StoreID s) with (id s). change (Datatypes.id recorded) with recorded. set (b := bool_decide (is_Some ahead)).
  assert (Hb : b = true <-> is_Some ahead) by apply bool_decide_eq_true.
  assert (Hgo : Kept child s s1 /\ (@Ok StoreErr bool true = Ok false -> (recorded = "" \/ recorded = id s) /\ ahead = None /\ id s1 = id s)
     /\ (f = no_faults -> recorded <> "" /\ recorded <> id s \/ is_Some ahead -> @Ok StoreErr bool true = Ok true)
     /\ (f = no_faults -> exists b, @Ok StoreErr bool true = Ok b) /\ (id s1 = id s \/ id s1 = mint)) by (split_and!; [done..|by eexists|by left]).
  destruct (judgeChild_capable (id s) recorded b) as [(-> & Hr & Hf)|([-> | ->] & Hr)].
  - assert (Hn : ahead = None) by (destruct ahead; [|done]; rewrite (proj2 Hb) in Hf by (by eexists); done).
    split_and!; [done|done| |by eexists|by left]. intros _ [[? ?]|Hs]; [naive_solver|]. rewrite Hn in Hs. by destruct Hs.
  - exact Hgo.
  - destruct (negb (MayHaveRegressed s1)); [exact Hgo|].
    pose proof (reincarnate_kept f mint now (id s) ("child " +:+ child +:+ ": " +:+ default "" ahead) child s1 (kp_inv _ _ _ Hk)) as Hk'.
    unfold ReincarnateFrom. destruct (reincarnate f mint now (id s) _ s1) as [s2 [x|e]] eqn:Er; cbn [fst] in Hk'.
    + split_and!; [by eapply Kept_trans|done|done|by eexists|]. destruct x as [i []]; apply reincarnate_inv_db in Er.
      * destruct Er as (_ & _ & ->). by right.
      * destruct Er as (_ & -> & _). by left.
    + assert (f <> no_faults).
      { intros ->. destruct (reincarnate_no_fault mint now (id s) ("child " +:+ child +:+ ": " +:+ default "" ahead) s1) as [s3 E3]; [by right|]. congruence. }
      split_and!; [by eapply Kept_trans|done|done|done|]. apply reincarnate_unchanged in Er as ->. by left.
Qed.

(** *** What a push applies *)

Lemma outcome_nothing f r s : rr_applied (snd (repl_outcome f r s)) = [] -> fst (repl_outcome f r s) = s.
Proof.
  unfold repl_outcome. cbv zeta. case_bool_decide; [done|]. destruct (buildReplicated _ _ _ _) as [bu|]; [|done]. by case_bool_decide.
Qed.

(** One push: its outcome, or nothing and an error. *)
Lemma commitReplicated_one f r s : Inv s ->
  exists s' x, commitReplicated f [r] s = (s', [x])
    /\ (no_cache s' = no_cache (fst (repl_outcome f r s)) /\ x = snd (repl_outcome f r s)
        \/ no_cache s' = no_cache s /\ rr_applied x = [] /\ is_Some (rr_err x)).
Proof.
  intros HI. destruct (empty_repl_inv s HI) as [HA0 HV0].
  destruct (repl_loop_eq f [r] empty_repl_acc s s (hwms_ok_of_inv s HI) HA0) as (hs & acc & El & Hok & HA & HR & HV); [by rewrite HV0|].
  unfold commitReplicated. fold empty_repl_acc. rewrite El. cbn [repl_each] in HR, HV.
  destruct (repl_outcome f r s) as [so x] eqn:Eo. cbn [fst snd] in *. simpl in HR.
  destruct (ra_results acc) as [|[r' x'] [|]] eqn:Ers; try done. injection HR as Hx. cbn [snd] in Hx. subst x'.
  destruct (ra_committed acc) eqn:Hc; cbn [negb].
  2: { eexists _, x. split; [done|]. left. split; [|done]. rewrite <- HV. by rewrite virtual_not_committed. }
  assert (Hfail : forall e, exists s' x1, fail_replicated e [(r', x)] (set_hwms hs s) = (s', [x1])
      /\ (no_cache s' = no_cache so /\ x1 = x \/ no_cache s' = no_cache s /\ rr_applied x1 = [] /\ is_Some (rr_err x1))).
  { intros e. cbn [fail_replicated]. case_bool_decide as Ha.
    - eexists _, x. split; [done|]. left. split; [|done]. pose proof (outcome_nothing f r s) as Hn. rewrite Eo in Hn. cbn in Hn. by rewrite Hn.
    - destruct (HWMGet_eq (rq_child r') (rq_stream r') (set_hwms hs s) Hok) as (hs' & -> & _). eexists _, _. split; [done|]. right.
      split; [done|]. split; [done|]. by eexists. }
  destruct (head_ops f _ _ _ _) as [b|e] eqn:Eh; [|apply Hfail]. apply head_ops_Ok in Eh as ->.
  destruct (mark_ops f _ _) as [b|e] eqn:Em; [|apply Hfail]. apply mark_ops_Ok in Em as ->.
  unfold commit. destruct (apply_fails f) eqn:Ea; [apply Hfail|]. eexists _, x. split; [done|]. left. split; [|done]. by rewrite <- HV.
Qed.

Lemma no_cache_kept s s' : no_cache s' = no_cache s ->
  (forall c stream, mark s' c stream = mark s c stream) /\ adopted s' = adopted s /\ db s' = db s.
Proof. destruct s, s'. unfold no_cache, forget, set_policies, set_hwms, mark; simpl. by intros [= -> -> -> -> -> -> -> -> ->]. Qed.

(** What an applied push does to what the parent holds of its children. *)
Lemma repl_effect_marks r applied h s :
  (forall c stream, mark (repl_effect r applied h s) c stream = if decide (c = rq_child r /\ stream = rq_stream r) then h else mark s c stream)
  /\ forall c, ChildStore c (repl_effect r applied h s) = ChildStore c s.
Proof.
  unfold repl_effect. split; intros c.
  - intros stream. unfold mark, put_mark, readU64. store_simpl. case_decide as Hd.
    + destruct Hd as [-> ->]. by rewrite lookup_insert_eq.
    + rewrite lookup_insert_ne by (unfold hwmKey; naive_solver). by rewrite put_records_other by tag_in.
  - unfold ChildStore, put_mark. store_simpl. rewrite lookup_insert_ne by done. rewrite put_records_other by tag_in.
    by destruct (put_records_rest (rq_stream r) (StoreRepl.stored applied) s) as (_ & _ & -> & _).
Qed.

(** [IngestReplicated]: the records above the mark, each once, and the mark after them; or
    an error and nothing. *)
Lemma IngestReplicated_spec f child stream recs s : Inv s ->
  let '(s', x) := IngestReplicated f child stream recs s in
  let new := above (mark s child stream) (dropUnreplicable stream recs) in
  Inv s' /\ ChildStore child s' = ChildStore child s
  /\ (forall stream', stream' <> stream -> mark s' child stream' = mark s child stream')
  /\ ((rr_err x = None /\ rr_applied x = new /\ rr_hwm x = last_offset (mark s child stream) new /\ mark s' child stream = rr_hwm x)
      \/ is_Some (rr_err x) /\ rr_applied x = [] /\ mark s' child stream = mark s child stream).
Proof.
  intros HI. unfold IngestReplicated. destruct (HWMGet_kept child stream child s HI) as (s1 & -> & [HI1 Hm Hc _] & _).
  set (r := mkReplRequest child stream (dropUnreplicable stream recs)).
  pose proof (commitReplicated_inv f [r] s1 HI1) as HI2. destruct (commitReplicated_one f r s1 HI1) as (s2 & x & E & Hx).
  rewrite E in *. cbn [fst] in HI2. rewrite <- (Hm stream), <- Hc. setoid_rewrite <- Hm.
  assert (Hsame : forall x1, no_cache s2 = no_cache s1 -> is_Some (rr_err x1) /\ rr_applied x1 = []
      \/ rr_err x1 = None /\ above (mark s1 child stream) (dropUnreplicable stream recs) = [] /\ rr_applied x1 = [] /\ rr_hwm x1 = mark s1 child stream ->
      ChildStore child s2 = ChildStore child s1 /\ (forall stream', stream' <> stream -> mark s2 child stream' = mark s1 child stream')
      /\ ((rr_err x1 = None /\ rr_applied x1 = above (mark s1 child stream) (dropUnreplicable stream recs)
           /\ rr_hwm x1 = last_offset (mark s1 child stream) (above (mark s1 child stream) (dropUnreplicable stream recs)) /\ mark s2 child stream = rr_hwm x1)
          \/ is_Some (rr_err x1) /\ rr_applied x1 = [] /\ mark s2 child stream = mark s1 child stream)).
  { intros x1 (M & A & D)%no_cache_kept Hx1. split_and!; [unfold ChildStore; by rewrite A, D|intros; apply M|]. rewrite M.
    destruct Hx1 as [[? ?]|(? & Hn & ? & ?)]; [by right|left]. by rewrite Hn. }
  split; [done|]. destruct Hx as [[Hnc ->]|(Hnc & Ha & He)]; [|apply Hsame; auto].
  unfold repl_outcome in *. cbn [rq_child rq_stream r] in *. cbv zeta in *. case_bool_decide; [apply Hsame; [done|by left]|].
  destruct (buildReplicated _ _ _ _) as [bu|e] eqn:Eb; [|apply Hsame; [done|by left]].
  apply buildReplicated_Ok in Eb. cbn [rq_recs rq_stream r] in Eb. subst bu. cbn [bu_applied bu_hwm] in *. case_bool_decide as Hnil.
  { apply Hsame; [done|]. right. cbn [snd rr_err rr_applied rr_hwm]. by rewrite Hnil. }
  cbn [fst snd rr_err rr_applied rr_hwm] in *. destruct (no_cache_kept _ _ Hnc) as (M & A & D).
  destruct (repl_effect_marks r (above (mark s1 child stream) (dropUnreplicable stream recs))
    (last_offset (mark s1 child stream) (above (mark s1 child stream) (dropUnreplicable stream recs))) s1) as [Hmk Hcs].
  split_and!.
  - rewrite <- Hcs. unfold ChildStore. by rewrite A, D.
  - intros st Hst. by rewrite M, Hmk, decide_False by naive_solver.
  - left. split_and!; [done..|]. by rewrite M, Hmk, decide_True.
Qed.

(** *** What the parent makes of a push's records *)

Lemma MountInsert_contract topic mount p p' :
  Parse topic = Ok p -> Parse (MountInsert topic mount) = Ok p' -> Contract p' = Contract p.
Proof.
  intros (_ & (Ha & Hb & Hc & Hd & _) & ->)%Parse_inv. unfold render. rewrite MountInsert_levels, Parse_levels by done.
  destruct (_ <? _)%Z; [done|]. rewrite SplitN_Join5 by done. destruct (HasPrefix _ _); [|done]. by intros [= <-].
Qed.

(** [r'] is [r] mounted at the parent, with where its current state goes. *)
Definition mounted (mount : string) (r r' : ReplRecord) : Prop :=
  exists path node del, r' = at_parent (MountInsert (rp_Topic r) mount) path node del r.

Lemma check_recs_Ok contracts mount stream previous recs out :
  check_recs contracts mount stream previous recs = Ok out ->
  increasing out /\ Forall (fun r => previous < rp_ChildOffset r)%N out
  /\ (forall r', r' ∈ out -> exists r, r ∈ recs /\ rp_ChildOffset r' = rp_ChildOffset r)
  /\ forall r, r ∈ recs -> rp_SkipFrom r = 0%N ->
       exists r' p p', r' ∈ out /\ mounted mount r r' /\ Parse (rp_Topic r) = Ok p /\ Parse (rp_Topic r') = Ok p'.
Proof.
  revert previous out. induction recs as [|r recs IH]; intros previous out E; cbn [check_recs] in E.
  { injection E as <-. split_and!; [constructor|constructor|by intros r' ?%elem_of_nil|by intros r ?%elem_of_nil]. }
  destruct ((rp_ChildOffset r =? 0)%N || (rp_ChildOffset r <=? previous)%N) eqn:Eo; [done|].
  apply orb_false_iff in Eo as [_ Eo%N.leb_gt].
  assert (Hcons : forall x rest, rp_ChildOffset x = rp_ChildOffset r -> check_recs contracts mount stream (rp_ChildOffset r) recs = Ok rest ->
    (rp_SkipFrom r = 0%N -> exists p p', mounted mount r x /\ Parse (rp_Topic r) = Ok p /\ Parse (rp_Topic x) = Ok p') ->
    increasing (x :: rest) /\ Forall (fun r => previous < rp_ChildOffset r)%N (x :: rest)
    /\ (forall r', r' ∈ x :: rest -> exists r0, r0 ∈ r :: recs /\ rp_ChildOffset r' = rp_ChildOffset r0)
    /\ forall r0, r0 ∈ r :: recs -> rp_SkipFrom r0 = 0%N ->
         exists r' p p', r' ∈ x :: rest /\ mounted mount r0 r' /\ Parse (rp_Topic r0) = Ok p /\ Parse (rp_Topic r') = Ok p').
  { intros x rest Hx Er Hm. destruct (IH _ _ Er) as (Hi & Hf & Hsrc & Hin). split_and!.
    - constructor; [done|]. rewrite Hx. done.
    - constructor; [lia|]. eapply Forall_impl; [exact Hf|]. intros y Hy. cbv beta in Hy. lia.
    - intros r' [->|Hr']%elem_of_cons; [exists r; split; [left|done]|]. destruct (Hsrc r' Hr') as (r0 & ? & ?). exists r0. split; [by right|done].
    - intros r0 [->|Hr0]%elem_of_cons Hz.
      + destruct (Hm Hz) as (p & p' & ? & ? & ?). exists x, p, p'. split; [left|done].
      + destruct (Hin r0 Hr0 Hz) as (r' & p & p' & ? & ? & ? & ?). exists r', p, p'. split; [by right|done]. }
  destruct (decide (rp_SkipFrom r = 0%N)) as [Hz|Hz].
  - rewrite (bool_decide_eq_true_2 _ Hz) in E. cbn [negb] in E. destruct (Parse (rp_Topic r)) as [p|] eqn:Ep; [|done].
    destruct (IsKnown _ && _); [done|]. destruct (Parse (MountInsert (rp_Topic r) mount)) as [p'|] eqn:Ep'; [|done].
    destruct (check_recs _ _ _ _ recs) as [rest|] eqn:Er; [|done]. injection E as <-. apply Hcons; [by destruct (IsOwnedState _)|done|].
    intros _. exists p, p'. split; [|split; [done|by destruct (IsOwnedState _)]]. unfold mounted. destruct (IsOwnedState _); by do 3 eexists.
  - rewrite (bool_decide_eq_false_2 _ Hz) in E. cbn [negb] in E. destruct (bad_skip _ _ _); [done|].
    destruct (check_recs _ _ _ _ recs) as [rest|] eqn:Er; [|done]. injection E as <-. by apply Hcons.
Qed.

Lemma drop_retired_offset stream r : rp_ChildOffset (drop_retired stream r) = rp_ChildOffset r.
Proof. unfold drop_retired. destruct (Parse _); [|done]. by destruct (_ && _). Qed.

Lemma increasing_fmap (g : ReplRecord -> ReplRecord) l : (forall r, rp_ChildOffset (g r) = rp_ChildOffset r) -> increasing l -> increasing (g <$> l).
Proof. intros Hg. apply (StronglySorted_fmap g (fun a b => rp_ChildOffset a < rp_ChildOffset b)%N). intros a b. by rewrite !Hg. Qed.

Lemma increasing_filter (P : ReplRecord -> Prop) `{forall x, Decision (P x)} l : increasing l -> increasing (filter P l).
Proof.
  induction 1 as [|x l Hs IH Hx]; [constructor|]. rewrite filter_cons. case_decide; [|done].
  constructor; [done|]. rewrite Forall_forall in Hx |- *. intros y [_ Hy]%list_elem_of_filter. auto.
Qed.

(** Of a log with increasing offsets a mark leaves the records past it. *)
Lemma above_filter h l : increasing l -> above h l = norm <$> filter (fun r => h < rp_ChildOffset r)%N l.
Proof.
  intros Hs. revert h. induction Hs as [|r l Hs IH Hr]; intros h; [done|]. cbn [above]. rewrite filter_cons.
  destruct (N.leb_spec (rp_ChildOffset r) h) as [Hl|Hl].
  - rewrite decide_False by lia. apply IH.
  - rewrite decide_True by lia. rewrite fmap_cons. f_equal. rewrite above_new; [|done|done]. f_equal. symmetry. apply filter_all.
    intros x Hx. rewrite Forall_forall in Hr. specialize (Hr x Hx). lia.
Qed.

Lemma last_offset_bounds h l : increasing l -> Forall (fun r => h < rp_ChildOffset r)%N l ->
  (h <= last_offset h l)%N /\ Forall (fun r => rp_ChildOffset r <= last_offset h l)%N l
  /\ (last_offset h l = h \/ exists r, r ∈ l /\ last_offset h l = rp_ChildOffset r).
Proof.
  destruct l as [|y l _] using rev_ind; intros Hi Hf; [split_and!; [done|constructor|by left]|]. rewrite last_offset_app. cbn.
  apply Forall_app in Hf as [_ Hy]. apply Forall_cons in Hy as [Hy _]. apply StronglySorted_app in Hi as (Hc & _ & _). split_and!; [lia| |].
  - apply Forall_app. split; [|by repeat constructor]. apply Forall_forall. intros x Hx. specialize (Hc x y Hx ltac:(left)). lia.
  - right. exists y. split; [apply elem_of_app; right; left|done].
Qed.

Definition retired_topic (topic : string) : bool :=
  match Parse topic with Ok p => IsRetired (Contract p) | Err _ => false end.

(** What the parent applies of checked records past its mark. *)
Lemma applied_spec contracts mount stream recs repl h :
  check_recs contracts mount stream 0 recs = Ok repl ->
  let new := above h (dropUnreplicable stream repl) in
  increasing new /\ Forall (fun a => h < rp_ChildOffset a <= last_offset h new)%N new
  /\ (h <= last_offset h new)%N /\ (last_offset h new = h \/ exists r, r ∈ recs /\ last_offset h new = rp_ChildOffset r)
  /\ forall r, r ∈ recs -> rp_SkipFrom r = 0%N -> rp_OriginOffset r <> 0%N -> retired_topic (rp_Topic r) = false ->
       (h < rp_ChildOffset r)%N -> exists a, a ∈ new /\ mounted mount r a.
Proof.
  intros Ec. destruct (check_recs_Ok _ _ _ _ _ _ Ec) as (Hi & _ & Hsrc & Hin). cbv zeta. unfold dropUnreplicable.
  pose proof (increasing_fmap (drop_retired stream) repl (drop_retired_offset stream) Hi) as Hi'. rewrite above_filter by done.
  set (new := norm <$> _). assert (Hmem : forall a, a ∈ new <-> exists r', r' ∈ repl /\ a = norm (drop_retired stream r') /\ (h < rp_ChildOffset r')%N).
  { intros a. unfold new. rewrite list_elem_of_fmap. setoid_rewrite list_elem_of_filter. setoid_rewrite list_elem_of_fmap. split.
    - intros (y & -> & Hh & r' & -> & Hr'). rewrite drop_retired_offset in Hh. by exists r'.
    - intros (r' & Hr' & -> & Hh). eexists. split; [done|]. rewrite drop_retired_offset. split; [done|]. by exists r'. }
  assert (Hinc : increasing new).
  { apply increasing_fmap; [apply norm_offset|]. by apply increasing_filter. }
  assert (Hgt : Forall (fun a => h < rp_ChildOffset a)%N new).
  { apply Forall_forall. intros a (r' & _ & -> & Hh)%Hmem. by rewrite norm_offset, drop_retired_offset. }
  destruct (last_offset_bounds h new Hinc Hgt) as (Hge & Hle & Hlast). split_and!; [done| |done| |].
  - rewrite Forall_forall in Hgt, Hle |- *. intros a Ha. split; [by apply Hgt|by apply Hle].
  - destruct Hlast as [|(a & (r' & Hr' & -> & _)%Hmem & Hl)]; [by left|right]. destruct (Hsrc r' Hr') as (r & Hr & Heq).
    exists r. split; [done|]. by rewrite Hl, norm_offset, drop_retired_offset.
  - intros r Hr Hz Ho Hret Hh. destruct (Hin r Hr Hz) as (r' & p & p' & Hr' & Hm & Ep & Ep').
    exists (norm (drop_retired stream r')). destruct Hm as (path & node & del & ->). split.
    + apply Hmem. eexists. split; [done|]. split; [done|]. cbn. lia.
    + exists path, node, del. unfold drop_retired. rewrite Ep'. cbn [rp_Topic at_parent] in Ep'. unfold retired_topic in Hret. rewrite Ep in Hret.
      rewrite (MountInsert_contract _ _ _ _ Ep Ep'), Hret. cbn [andb]. unfold norm, is_data. cbn [rp_SkipFrom at_parent]. rewrite bool_decide_true by done.
      unfold with_child_origin. cbn [rp_OriginOffset at_parent]. by rewrite bool_decide_false.
Qed.

(** The parent and a push of the child whose incarnation it has on record, or of its
    first: not taken, and what it holds of the child stays; or taken, and then the child
    was not told of more than the mark says, every live record past the mark is applied,
    once and in order, and the mark is the last of them. *)
Record Replicated (child mount : string) (p : Push) (s s' : Store) (ans : PushAnswer) (applied : list ReplRecord) : Prop := {
  rd_inv : Inv s';
  rd_store : ChildStore child s' = ChildStore child s \/ ChildStore child s' = pu_store p;
  rd_marks : forall stream, stream <> pu_stream p -> mark s' child stream = mark s child stream;
  rd_answer : (forall h, ans <> Taken h) /\ applied = [] /\ mark s' child (pu_stream p) = mark s child (pu_stream p)
    \/ ans = Taken (mark s' child (pu_stream p)) /\ ChildStore child s' = pu_store p
       /\ (pu_acked p <= mark s child (pu_stream p))%N /\ increasing applied
       /\ Forall (fun a => mark s child (pu_stream p) < rp_ChildOffset a <= mark s' child (pu_stream p))%N applied
       /\ (mark s child (pu_stream p) <= mark s' child (pu_stream p))%N
       /\ (mark s' child (pu_stream p) = mark s child (pu_stream p)
           \/ exists r, r ∈ pu_recs p /\ mark s' child (pu_stream p) = rp_ChildOffset r)
       /\ forall r, r ∈ pu_recs p -> rp_SkipFrom r = 0%N -> rp_OriginOffset r <> 0%N -> retired_topic (rp_Topic r) = false ->
            (mark s child (pu_stream p) < rp_ChildOffset r)%N -> exists a, a ∈ applied /\ mounted mount r a;
}.

Lemma handleReplicate_spec busy fj fa fi mint now contracts child mount p s : Inv s -> pu_store p <> "" -> is_Some (pu_parent p) ->
  ChildStore child s = "" \/ ChildStore child s = pu_store p ->
  (mark s child (pu_stream p) <> 0%N -> ChildStore child s = pu_store p) -> (mark s child (pu_stream p) = 0%N -> pu_acked p = 0%N) ->
  let '(s', ans, applied) := handleReplicate busy fj fa fi mint now contracts child mount p s in
  Replicated child mount p s s' ans applied.
Proof.
  intros HI Hne [recorded Hrec] Hcs Hmk Hz.
  assert (Hsame : forall s' ans, Kept child s s' -> (forall h, ans <> Taken h) -> Replicated child mount p s s' ans []).
  { intros s' ans [K1 K2 K3 _] Ha. split; [done|by left|done|]. left. split_and!; [done..|apply K2]. }
  unfold handleReplicate. destruct busy; [apply Hsame; [by apply Kept_refl|done]|].
  destruct (_ <? _)%nat; [apply Hsame; [by apply Kept_refl|done]|]. destruct (negb _); [apply Hsame; [by apply Kept_refl|done]|].
  cbv zeta. rewrite Hrec. set (po := mkChildPosition _ _ _ _). pose proof (judge_spec fj mint now child recorded po s HI) as Hj.
  destruct (aheadOf_spec child po s HI) as (_ & _ & Hah). destruct (judge _ _ _ _ _ _ _) as [s1 [[]|e]]; destruct Hj as (Hk & Hok & _);
    [by apply Hsame| |by apply Hsame].
  destruct (Hok eq_refl) as (_ & Hnone & _). apply Hah in Hnone as (_ & _ & Hnb). clear Hok Hah.
  assert (Hacked : (pu_acked p <= mark s child (pu_stream p))%N).
  { destruct (decide (mark s child (pu_stream p) = 0%N)) as [E|E]; [rewrite (Hz E); lia|]. apply N.le_ngt. intros Hlt. apply Hnb.
    split_and!; [done|by apply Hmk|]. exists (pu_stream p), (pu_acked p). split; [apply lookup_singleton_eq|lia]. }
  destruct (check_recs _ _ _ _ _) as [repl|status] eqn:Ec; [|by apply Hsame].
  pose proof Hk as [K1 K2 K3 _]. rewrite <- K3 in Hcs. destruct (AdoptChildStore _ _ _ _) as [s2 r] eqn:Ea.
  destruct (AdoptChildStore_kept _ _ _ _ _ _ K1 Hcs Ea) as (A1 & A2 & _ & A3 & A4). destruct r as [x|e].
  2: { split; [done|by rewrite <- K3|by intros; rewrite A2|]. left. split_and!; [done|done|by rewrite A2]. }
  specialize (A4 ltac:(by eexists) Hne). pose proof (IngestReplicated_spec fi child (pu_stream p) repl s2 A1) as Hi.
  destruct (IngestReplicated _ _ _ _ _) as [s3 y]. destruct Hi as (I1 & I2 & I3 & I4).
  assert (Hm2 : forall st, mark s2 child st = mark s child st) by (intros; by rewrite A2, K2).
  destruct I4 as [(-> & -> & Eh & Em)|([e ->] & -> & Em)].
  - split; [done|right; by rewrite I2|intros; by rewrite I3, Hm2|]. right. rewrite <- Em. rewrite Eh in Em.
    destruct (applied_spec contracts mount (pu_stream p) (pu_recs p) repl (mark s2 child (pu_stream p)) Ec) as (P1 & P2 & P3 & P4 & P5).
    rewrite Em. rewrite Hm2 in *. split_and!; try done. by rewrite I2.
  - split; [done|right; by rewrite I2|intros; by rewrite I3, Hm2|]. left. split_and!; [done|done|by rewrite Em, Hm2].
Qed.

(** *** The handshake *)

Lemma read_hwms_spec child sts s : Inv s ->
  let '(s', m) := read_hwms child sts s in
  Kept child s s' /\ id s' = id s /\ forall stream, m !! stream = if decide (stream ∈ sts) then Some (mark s child stream) else None.
Proof.
  revert s. induction sts as [|st sts IH]; intros s HI; cbn [read_hwms].
  { split; [by apply Kept_refl|]. split; [done|]. intros stream. rewrite lookup_empty, decide_False; [done|]. by intros ?%elem_of_nil. }
  destruct (HWMGet_kept child st child s HI) as (s1 & -> & Hk & Hid). specialize (IH s1 (kp_inv _ _ _ Hk)).
  destruct (read_hwms child sts s1) as [s2 m]. destruct IH as (Hk2 & Hid2 & Hm). split; [by eapply Kept_trans|]. split; [congruence|].
  intros stream. rewrite lookup_insert, Hm, (kp_mark _ _ _ Hk). destruct (decide (st = stream)) as [->|Hne].
  - by rewrite decide_True by left.
  - destruct (decide (stream ∈ sts)); [by rewrite decide_True by (by right)|]. rewrite decide_False; [done|].
    intros [?|?]%elem_of_cons; congruence.
Qed.

Lemma Kept_cursor child s s' : Inv s -> cursor_only s s' -> Kept child s s'.
Proof.
  intros HI Ho. split; [by eapply cursor_only_inv|..]; destruct Ho as (d & -> & Hd); [|unfold ChildStore; store_simpl; by rewrite Hd by tag_in|done].
  intros stream. unfold mark, readU64. store_simpl. by rewrite Hd by tag_in.
Qed.

Lemma AdoptChildStore_no_fault child i s : exists x, snd (AdoptChildStore no_faults child i s) = Ok x.
Proof. unfold AdoptChildStore. repeat (case_bool_decide; [by eexists|]). by eexists. Qed.

Lemma AdoptChildStore_id f child i s s' r : AdoptChildStore f child i s = (s', r) -> id s' = id s.
Proof.
  intros E. destruct (AdoptChildStore_cases _ _ _ _ _ _ E) as [(e & _ & ->)|[(_ & -> & _)|[(_ & -> & _)|(reset & prev & _ & _ & _ & _ & _ & ->)]]];
    try done. by destruct reset.
Qed.

(** What a greeting states. *)
Definition greeting_position (g : Greeting) : childPosition :=
  mkChildPosition (gr_store g) (if gr_after g == 0%N then 1%N else gr_after g) (if gr_defAfter g == 0%N then 1%N else gr_defAfter g)
    (parseAcked (gr_acked g)).

(** The parent and a greeting: it answers with the marks it has, and asks for a re-sync
    when the child is ahead of it. *)
Lemma handleHello_spec fj fa fc mint now ms child g s : Inv s -> gr_store g <> "" ->
  ChildStore child s = "" \/ ChildStore child s = gr_store g ->
  let '(s', r) := handleHello fj fa fc mint now ms child g s in
  Inv s' /\ (forall stream, mark s' child stream = mark s child stream)
  /\ (ChildStore child s' = ChildStore child s \/ ChildStore child s' = gr_store g)
  /\ (forall h stream, r = Some h -> stream ∈ uplinkStreams -> he_HWMs h !! stream = Some (mark s child stream))
  /\ (fj = no_faults -> fa = no_faults -> exists h, r = Some h /\ he_Store h = id s' /\ (behind child (greeting_position g) s -> he_Resync h = true))
  /\ (id s' = id s \/ id s' = mint).
Proof.
  intros HI Hne Hcs. unfold handleHello. cbv zeta. fold (greeting_position g). set (po := greeting_position g).
  pose proof (judge_spec fj mint now child (gr_parent g) po s HI) as Hj. destruct (aheadOf_spec child po s HI) as (_ & _ & Hah).
  destruct (judge _ _ _ _ _ _ _) as [s1 [b|e]]; destruct Hj as ([K1 K2 K3 _] & _ & Hf & Hok & Hid1).
  2: { split_and!; [done|done|by left|done| |done]. intros Hn. by destruct (Hok Hn). }
  rewrite <- K3 in Hcs. destruct (AdoptChildStore _ _ _ s1) as [s2 r] eqn:Ea.
  destruct (AdoptChildStore_kept _ _ _ _ _ _ K1 Hcs Ea) as (A1 & A2 & _ & A3 & _). rewrite K3 in A3. pose proof (AdoptChildStore_id _ _ _ _ _ _ Ea) as A5. destruct r as [x|e].
  2: { split_and!; [done|intros; by rewrite A2|done|done| |by rewrite A5]. intros _ ->. destruct (AdoptChildStore_no_fault child (gr_store g) s1) as [x Hx].
       rewrite Ea in Hx. done. }
  pose proof (Kept_cursor child s2 _ A1 (CursorSetIfAbsent_only fc ms (DownlinkCursorPrefix +:+ child) "commands" (NextOffset s2 "commands") s2)) as Hk3.
  set (s3 := fst (CursorSetIfAbsent _ _ _ _ _ s2)) in *. unfold addHandshake. pose proof (read_hwms_spec child uplinkStreams s3 (kp_inv _ _ _ Hk3)) as Hr.
  destruct (read_hwms child uplinkStreams s3) as [s4 m]. destruct Hr as (Hk4 & Hid4 & Hm). pose proof (Kept_trans _ _ _ _ Hk3 Hk4) as [L1 L2 L3 _].
  assert (Hmark : forall stream, mark s3 child stream = mark s child stream) by (intros; by rewrite (kp_mark _ _ _ Hk3), A2, K2).
  split_and!; [done|intros; by rewrite L2, A2, K2|by rewrite L3| | |].
  - intros h stream [= <-] Hst. cbn [he_HWMs]. by rewrite Hm, decide_True, Hmark.
  - intros Hj Ha. eexists. split; [done|]. split; [done|]. cbn [he_Resync]. intros Hb.
    assert (Hahead : is_Some (snd (aheadOf child po s))).
    { destruct (snd (aheadOf child po s)) ; [by eexists|]. by destruct (proj1 Hah eq_refl) as (_ & _ & ?). }
    specialize (Hf Hj (or_intror Hahead)). by injection Hf.
  - rewrite Hid4. unfold s3. destruct (CursorSetIfAbsent_only fc ms (DownlinkCursorPrefix +:+ child) "commands" (NextOffset s2 "commands") s2) as (d & -> & _).
    store_simpl. by rewrite A5.
Qed.

(** *** The marks on the wire *)

Lemma ParseUint_Format n : (n < 2 ^ 64)%N -> ParseUint (FormatUint n) = Some n.
Proof.
  intros Hn. unfold ParseUint, FormatUint. rewrite NilZero.usu.
  - rewrite DecimalN.Unsigned.of_to. by rewrite (proj2 (N.ltb_lt _ _) Hn).
  - intros E. pose proof (DecimalN.Unsigned.of_to n) as Hof. rewrite E in Hof. simpl in Hof. by subst n.
Qed.

Lemma digits_free c d : (Ascii.N_of_ascii c < 48 \/ 57 < Ascii.N_of_ascii c)%N -> has_byte c (NilEmpty.string_of_uint d) = false.
Proof.
  intros Hc. assert (Hne : forall x, (48 <= Ascii.N_of_ascii x <= 57)%N -> x == c = false).
  { intros x Hx. apply bool_decide_eq_false_2. intros ->. lia. }
  induction d; [done|..]; cbn [NilEmpty.string_of_uint has_byte]; rewrite IHd, Hne by (cbn; lia); done.
Qed.

Lemma FormatUint_free c n : (Ascii.N_of_ascii c < 48 \/ 57 < Ascii.N_of_ascii c)%N -> has_byte c (FormatUint n) = false.
Proof.
  intros Hc. unfold FormatUint, NilZero.string_of_uint. destruct (N.to_uint n) eqn:E; try (by apply digits_free).
  by apply (digits_free c (Decimal.D0 Decimal.Nil)).
Qed.

Lemma uplink_free stream : IsUplinkStream stream = true -> has_byte ":" stream = false /\ has_byte "," stream = false.
Proof. intros Hs. apply bool_decide_eq_true in Hs. revert stream Hs. apply set_Forall_elements. vm_compute. by repeat constructor. Qed.



Lemma acked_part_entry stream n : IsUplinkStream stream = true -> (0 < n < 2 ^ 64)%N ->
  exists part, acked_part (stream, n) = Some part /\ acked_entry part = Some (stream, n) /\ has_byte "," part = false /\ part <> "".
Proof.
  intros Hs Hn. destruct (uplink_free stream Hs) as [Hc Hk]. unfold acked_part. cbn [fst snd]. rewrite (proj2 (N.ltb_lt 0 n)) by lia.
  eexists. split; [done|]. change (":" +:+ FormatUint n) with (String ":" (FormatUint n)). split_and!.
  - unfold acked_entry. rewrite (proj2 (Cut_Some _ _ stream (FormatUint n))) by (split; [reflexivity|exact Hc]). rewrite Hs, ParseUint_Format by lia. cbn [negb].
    by rewrite (proj2 (N.ltb_lt 0 n)) by lia.
  - rewrite has_byte_app, Hk. cbn [has_byte orb]. rewrite FormatUint_free by (cbn; lia). done.
  - by destruct stream.
Qed.

Lemma parse_entries l (m : gmap string N) :
  foldl (fun out part => match acked_entry part with Some (stream, n) => <[stream := n]> out | None => out end) m l
  = list_to_map (reverse (omap acked_entry l)) ∪ m.
Proof.
  revert m. induction l as [|part l IH]; intros m; cbn [foldl omap list_omap]; [symmetry; apply (map_empty_union m)|]. rewrite IH.
  destruct (acked_entry part) as [[stream n]|]; [|done]. rewrite reverse_cons, list_to_map_app. cbn [list_to_map foldr fst snd].
  rewrite <- map_union_assoc. f_equal. rewrite insert_empty. apply insert_union_singleton_l.
Qed.

Lemma entries_of_parts (l : list (string * N)) : Forall (fun m => IsUplinkStream m.1 = true /\ (m.2 < 2 ^ 64)%N) l ->
  omap acked_entry (omap acked_part l) = filter (fun m => 0 < m.2)%N l
  /\ Forall (fun part => has_byte "," part = false /\ part <> "") (omap acked_part l).
Proof.
  induction 1 as [|[stream n] l [Hs Hn] _ [IH1 IH2]]; [split; [done|constructor]|]. cbn [fst snd] in *. rewrite filter_cons. cbn [omap list_omap snd].
  destruct (decide (0 < n)%N) as [Hz|Hz].
  - destruct (acked_part_entry stream n Hs ltac:(lia)) as (part & -> & He & Hc & Hne). cbn [omap list_omap]. rewrite He. split; [f_equal; exact IH1|constructor; [exact (conj Hc Hne)|exact IH2]].
  - assert (acked_part (stream, n) = None) as ->; [|exact (conj IH1 IH2)].
    unfold acked_part. cbn [fst snd]. by rewrite (proj2 (N.ltb_ge 0 n)) by lia.
Qed.

(** What is sent of a child's marks is read back as the ones above zero. *)
Lemma parseAcked_format marks : (forall stream n, marks !! stream = Some n -> IsUplinkStream stream = true /\ (n < 2 ^ 64)%N) ->
  parseAcked (formatAcked marks) = filter (fun m => 0 < m.2)%N marks.
Proof.
  intros Hm. unfold formatAcked. set (ml := map_to_list marks). destruct (entries_of_parts ml) as [He Hf].
  { apply Forall_forall. intros [stream n] Hin%elem_of_map_to_list. by apply Hm. }
  set (parts := omap acked_part ml) in *. pose proof (merge_sort_Permutation String.le parts) as Hperm. fold (sort_strings parts) in Hperm.
  rewrite <- Hperm in Hf. assert (Hparse : parseAcked (Join (sort_strings parts) ",") = list_to_map (reverse (omap acked_entry (sort_strings parts)))).
  { unfold parseAcked. destruct (sort_strings parts) as [|x l] eqn:Es; [done|]. pose proof (proj1 (Forall_cons_1 _ _ _ Hf)) as [_ Hx].
    rewrite bool_decide_false.
    - rewrite Split_Join; [by rewrite parse_entries, map_union_empty|done|]. eapply Forall_impl; [exact Hf|]. by intros y [? _].
    - destruct x; [done|]. destruct l; done. }
  rewrite Hparse. assert (HL : reverse (omap acked_entry (sort_strings parts)) ≡ₚ filter (fun m => 0 < m.2)%N ml).
  { rewrite reverse_Permutation, <- He. by apply omap_Permutation. }
  apply map_eq. intros k. apply option_eq. intros n. rewrite <- elem_of_list_to_map.
  - rewrite HL, list_elem_of_filter, map_lookup_filter_Some. unfold ml. rewrite elem_of_map_to_list. cbn [snd]. tauto.
  - rewrite HL. eapply sublist_NoDup; [apply (NoDup_fst_map_to_list marks)|]. apply fmap_sublist, sublist_filter.
Qed.

(** ** The child settles against an answer *)

(** Where a re-sync puts the uplink cursor of a stream. *)
Definition replay_from (stream : string) (cursor hwm lwm : N) : N :=
  let plan := planReplay stream cursor hwm lwm in if ur_rewindTo plan != 0%N then ur_rewindTo plan else cursor.

Lemma replay_from_le stream cursor hwm lwm : (replay_from stream cursor hwm lwm <= cursor)%N.
Proof.
  unfold replay_from, planReplay. cbv zeta. destruct (N.leb_spec cursor (hwm + 1)); cbn [ur_rewindTo]; [by cbn|].
  destruct (N.ltb_spec (N.max (hwm + 1) lwm) cursor); case_bool_decide; cbn; lia.
Qed.

(** What a stream still has below it, the parent has. *)
Lemma replay_from_held stream cursor hwm lwm o : (lwm <= o < replay_from stream cursor hwm lwm)%N -> (o <= hwm)%N.
Proof.
  unfold replay_from, planReplay. cbv zeta. destruct (N.leb_spec cursor (hwm + 1)); cbn [ur_rewindTo]; [case_bool_decide; cbn [negb]; [lia|done]|].
  destruct (N.ltb_spec (N.max (hwm + 1) lwm) cursor); case_bool_decide; cbn; lia.
Qed.

(** The plan of a re-sync is exact. Of the offsets the child had passed and the
    parent, by its mark, does not hold: those the stream still has are exactly the ones
    the cursor is put before, so they are sent again and nothing else is; those retention
    removed are exactly the gap that is reported. *)
Theorem planReplay_exact stream cursor hwm lwm :
  (forall o, lwm <= o -> (replay_from stream cursor hwm lwm <= o < cursor <-> hwm < o < cursor))%N
  /\ match ur_gap (planReplay stream cursor hwm lwm) with
     | None => forall o, (hwm < o < cursor)%N -> (lwm <= o)%N
     | Some g => gp_Stream g = stream /\ forall o, (gp_From g <= o <= gp_To g <-> hwm < o < cursor /\ o < lwm)%N
     end.
Proof.
  unfold replay_from, planReplay. cbv zeta. destruct (N.leb_spec cursor (hwm + 1)) as [Hc|Hc]; cbn [ur_rewindTo ur_gap].
  { rewrite bool_decide_true by done. cbn [negb]. split; intros; lia. }
  split.
  - intros o Ho. destruct (N.ltb_spec (N.max (hwm + 1) lwm) cursor); case_bool_decide; cbn [negb]; lia.
  - destruct (N.ltb_spec (hwm + 1) (N.max (hwm + 1) lwm)); [split; [done|]|]; cbn [gp_From gp_To]; intros; lia.
Qed.

Definition rewind_of (cl : Client) (hwms : gmap string N) (st : Store) (stream : string) : N :=
  ur_rewindTo (planReplay stream (CursorGet st (UplinkCursor (cl_parentPub cl)) stream) (default 0%N (hwms !! stream)) (LWM st stream)).

(** What the loop of [resync] gathers. *)
Lemma plan_streams cl hwms st sts pl :
  let up := UplinkCursor (cl_parentPub cl) in
  let out := foldl (plan_stream cl hwms st) pl sts in
  (forall stream, last (placements (rl_cursors out) up stream)
     = if decide (stream ∈ sts /\ rewind_of cl hwms st stream <> 0%N) then Some (rewind_of cl hwms st stream)
       else last (placements (rl_cursors pl) up stream))
  /\ (forall stream, rl_marks out !! stream = if decide (stream ∈ sts) then Some (default 0%N (hwms !! stream)) else rl_marks pl !! stream).
Proof.
  cbv zeta. revert pl. induction sts as [|st0 sts IH]; intros pl; cbn [foldl].
  { split; intros stream; rewrite decide_False; try done; [intros [?%elem_of_nil _]|intros ?%elem_of_nil]; done. }
  destruct (IH (plan_stream cl hwms st pl st0)) as [IH1 IH2]. split; intros stream.
  - rewrite IH1. set (rw := rewind_of cl hwms st) in *.
    assert (Hp : last (placements (rl_cursors (plan_stream cl hwms st pl st0)) (UplinkCursor (cl_parentPub cl)) stream)
       = if decide (stream = st0 /\ rw stream <> 0%N) then Some (rw stream) else last (placements (rl_cursors pl) (UplinkCursor (cl_parentPub cl)) stream)).
    { unfold plan_stream. cbv zeta. cbn [rl_cursors]. fold (rewind_of cl hwms st st0). fold rw. case_bool_decide as Hz; cbn [negb].
      - rewrite decide_False; [done|]. intros [-> ?]. done.
      - unfold placements. rewrite filter_app, filter_cons, filter_nil. cbn [cp_Name cp_Stream].
        destruct (decide (stream = st0)) as [->|Hne].
        + rewrite !decide_True by done. rewrite fmap_app. cbn [fmap list_fmap]. by rewrite last_snoc.
        + rewrite !decide_False by naive_solver. by rewrite app_nil_r. }
    rewrite Hp. destruct (decide (stream ∈ sts /\ rw stream <> 0%N)) as [[Hin Hz]|Hn].
    + rewrite decide_True; [done|]. split; [by right|done].
    + destruct (decide (stream = st0 /\ rw stream <> 0%N)) as [[-> Hz]|Hn'].
      * rewrite decide_True; [done|]. split; [left|done].
      * rewrite decide_False; [done|]. intros [[?|?]%elem_of_cons ?]; naive_solver.
  - rewrite IH2. unfold plan_stream. cbv zeta. cbn [rl_marks]. rewrite lookup_insert. destruct (decide (stream ∈ sts)).
    + by rewrite decide_True by (by right).
    + destruct (decide (st0 = stream)) as [->|]; [by rewrite decide_True by left|].
      rewrite decide_False; [done|]. intros [?|?]%elem_of_cons; congruence.
Qed.

Lemma down_not_up pub : DownlinkCursor pub <> UplinkCursor pub /\ DownlinkDefCursor pub <> UplinkCursor pub.
Proof. by split. Qed.

(** The positions after a re-sync. *)
Definition resynced (pub : string) (hwms : gmap string N) (st : Store) (stream : string) : N * N :=
  if decide (stream ∈ uplinkStreams)
  then (replay_from stream (CursorGet st (UplinkCursor pub) stream) (default 0%N (hwms !! stream)) (LWM st stream), default 0%N (hwms !! stream))
  else position pub st stream.

Lemma resync_spec f ms t res cl st cl' st' ok :
  resync f ms t res true cl st = (cl', st', ok) ->
  let pub := cl_parentPub cl in
  cl_parentPub cl' = pub /\
  (ok = false /\ cl' = cl /\ st' = st
   \/ ok = true /\ cl_epoch cl' = (cl_epoch cl + 1)%N /\ ps_Store (cl_state cl') = he_Store res
      /\ stands pub st st' (resynced pub (he_HWMs res) st)).
Proof.
  unfold resync. cbv zeta. set (base := mkResyncPlan _ ∅ [] ∅). set (pl := foldl _ _ _). set (next := mkParentState _ _).
  pose proof (plan_streams cl (he_HWMs res) st uplinkStreams base) as [Hc Hm]. fold pl in Hc, Hm.
  pose proof (ResyncParent_atomic f ms (cl_parentPub cl) (enc_state next) (rl_cursors pl) (rl_marks pl) st) as Ha.
  pose proof (ResyncParent_only f ms (cl_parentPub cl) (enc_state next) (rl_cursors pl) (rl_marks pl) st) as Ho.
  assert (Hnext : ps_Store next = he_Store res) by reflexivity. clearbody next pl.
  destruct (ResyncParent _ _ _ _ _ _ _) as [s1 [[]|e]]; cbn [fst] in Ho.
  2: { intros [= <- <- <-]. split; [done|]. left. done. }
  intros [= <- <- <-]. split; [done|]. right. split_and!; [done|done|exact Hnext|]. destruct Ha as (_ & Hcur & Hmk & _). split; [by apply cursor_only_link|].
  intros stream. unfold position, resynced. rewrite Hcur, Hmk, Hc, Hm. cbn [rl_cursors rl_marks base].
  assert (placements [mkCursorPlacement (DownlinkCursor (cl_parentPub cl)) downlinkStream (N.max (he_Resume res) 1);
      mkCursorPlacement (DownlinkDefCursor (cl_parentPub cl)) downlinkDefStream (N.max (he_DefResume res) 1)]
      (UplinkCursor (cl_parentPub cl)) stream = []) as ->.
  { unfold placements. destruct (down_not_up (cl_parentPub cl)) as [D1 D2]. rewrite !filter_cons, !decide_False; [done|by intros [? _]..]. }
  rewrite lookup_empty. destruct (decide (stream ∈ uplinkStreams)) as [Hin|Hin].
  - unfold replay_from. cbv zeta. fold (rewind_of cl (he_HWMs res) st stream). case_bool_decide as Hz; cbn [negb].
    + rewrite decide_False by naive_solver. done.
    + by rewrite decide_True by done.
  - by rewrite decide_False by naive_solver.
Qed.

Lemma resync_no_fault ms t res cl st : exists cl' st', resync no_faults ms t res true cl st = (cl', st', true).
Proof.
  unfold resync. cbv zeta. set (next := mkParentState _ _). set (pl := foldl _ _ _). unfold ResyncParent.
  assert (Hp : forall cs b, exists b', place_ops no_faults ms cs b = Ok b').
  { induction cs as [|c cs IH]; intros b; [by eexists|]. apply IH. }
  assert (Ha : forall mks b, exists b', acked_ops no_faults (cl_parentPub cl) mks b = Ok b').
  { induction mks as [|[stream m] mks IH]; intros b; [by eexists|]. apply IH. }
  destruct (Hp (rl_cursors pl) []) as [b1 ->]. destruct (Ha (map_to_list (rl_marks pl)) b1) as [b2 ->]. by do 2 eexists.
Qed.

Lemma checkOwnStore_ahead f mint now hwms sts st :
  (forall stream, stream ∈ sts -> default 0 (hwms !! stream) < NextOffset st stream)%N -> checkOwnStore f mint now hwms sts st = (st, false).
Proof.
  induction sts as [|stream sts IH]; intros Hs; [done|]. cbn [checkOwnStore]. unfold ownStoreBehind. cbv zeta.
  rewrite (proj2 (N.ltb_lt _ _) (Hs stream ltac:(left))), orb_true_r. apply IH. intros st' Hst'. apply Hs. by right.
Qed.

Lemma judgeParent_changed recorded answered asked : answered <> "" -> asked = true \/ recorded <> "" /\ recorded <> answered ->
  judgeParent recorded answered asked = parentChanged.
Proof.
  intros Hne Hr. unfold judgeParent. rewrite bool_decide_false by done. destruct asked; [done|]. destruct Hr as [?|[? ?]]; [done|].
  by rewrite !bool_decide_false.
Qed.

(** Where the positions stand after an answer: they stay, or a re-sync put them where
    the answer says. *)
Definition settled (pub : string) (hwms : gmap string N) (cl cl' : Client) (st st' : Store) : Prop :=
  cl_parentPub cl' = pub
  /\ (cl_epoch cl' = cl_epoch cl /\ stands pub st st' (position pub st)
      \/ cl_epoch cl' = (cl_epoch cl + 1)%N /\ stands pub st st' (resynced pub hwms st)).

Lemma placed_spec fr ms t res cl st cl' st' ok :
  match judgeParent (ps_Store (cl_state cl)) (he_Store res) (he_Resync res) with
  | parentChanged => resync fr ms t res true cl st
  | parentFirstSeen => let '(cl, st) := recordParent fr (he_Store res) cl st in (cl, st, true)
  | parentUnchanged | parentPredatesIncarnations => (cl, st, true)
  end = (cl', st', ok) ->
  settled (cl_parentPub cl) (he_HWMs res) cl cl' st st'
  /\ (fr = no_faults -> judgeParent (ps_Store (cl_state cl)) (he_Store res) (he_Resync res) = parentChanged ->
      ok = true /\ stands (cl_parentPub cl) st st' (resynced (cl_parentPub cl) (he_HWMs res) st)).
Proof.
  assert (Hstay : settled (cl_parentPub cl) (he_HWMs res) cl cl st st) by (split; [done|left; split; [done|apply stands_refl]]).
  destruct (judgeParent _ _ _).
  - by intros [= <- <- <-].
  - unfold recordParent. cbv zeta. pose proof (SetParentState_stands (cl_parentPub cl) fr (cl_parentPub cl)
      (enc_state (mkParentState (he_Store res) (ps_Resync (cl_state cl)))) st) as Hsp.
    destruct (SetParentState _ _ _ _) as [s2 [|]]; intros [= <- <- <-]; (split; [|done]); split; [done|by left|done|by left].
  - by intros [= <- <- <-].
  - intros E. destruct (resync_spec _ _ _ _ _ _ _ _ _ E) as (R1 & [(-> & -> & ->)|(-> & R3 & _ & R5)]).
    + split; [done|]. intros ->. destruct (resync_no_fault ms t res cl st) as (? & ? & ?). congruence.
    + split; [|done]. split; [done|by right].
Qed.

(** [settle] when the parent holds no more of the child than the child has. *)
Lemma settle_spec fo fr fc mint now ms t res cl st cl' st' ok :
  (forall stream, stream ∈ uplinkStreams -> default 0 (he_HWMs res !! stream) < NextOffset st stream)%N ->
  settle fo fr fc mint now ms t res cl st = (cl', st', ok) ->
  settled (cl_parentPub cl) (he_HWMs res) cl cl' st st'
  /\ (fr = no_faults -> judgeParent (ps_Store (cl_state cl)) (he_Store res) (he_Resync res) = parentChanged ->
      ok = true /\ cl_resyncWanted cl' = false /\ stands (cl_parentPub cl) st st' (resynced (cl_parentPub cl) (he_HWMs res) st)).
Proof.
  intros Hh. unfold settle. rewrite checkOwnStore_ahead by done. cbn [negb].
  destruct (match judgeParent _ _ _ with parentChanged => _ | _ => _ end) as [[cl1 st1] ok1] eqn:Ep.
  apply placed_spec in Ep as [[Hp Hs] Hf]. destruct ok1; intros [= <- <- <-]; [|split; [by split|]; intros ? ?; by destruct Hf].
  set (st2 := if (0 <? he_Head res)%N then _ else _). assert (Hst2 : forall g, stands (cl_parentPub cl) st st1 g -> stands (cl_parentPub cl) st st2 g).
  { intros g [Hg1 Hg2]. unfold st2. destruct (0 <? he_Head res)%N; [|done].
    destruct (CursorSetIfAbsent_stands (cl_parentPub cl) fc ms (DownlinkCursor (cl_parentPub cl1)) downlinkStream (he_Head res) st1) as [C1 C2];
      [rewrite Hp; apply down_not_up|]. split; [by eapply link_only_trans|]. intros stream. by rewrite C2. }
  split; [split; [done|]; naive_solver|]. intros H1 H2. destruct (Hf H1 H2). auto.
Qed.

(** ** The child and the answer to a push *)

(** A record set aside is kept, and the cursor is past it; or nothing changed. *)
Lemma SetAsideUplink_spec f ms pub r st st' ok : as_Parent r = pub ->
  SetAsideUplink f ms (UplinkCursor pub) r st = (st', ok) ->
  let '(c, a) := position pub st (as_Stream r) in
  st' = st /\ ok <> Ok true
  \/ ok = Ok true /\ (c <= as_Offset r)%N /\ db st' !! setAsideKey pub (as_Stream r) (as_Offset r) = Some (VBytes (enc_aside r))
     /\ stands pub st st' (with_at (position pub st) (as_Stream r) ((as_Offset r + 1)%N, a)).
Proof.
  intros <-. unfold SetAsideUplink, position at 1. fold (CursorGet st (UplinkCursor (as_Parent r)) (as_Stream r)).
  destruct (N.ltb_spec (as_Offset r) (CursorGet st (UplinkCursor (as_Parent r)) (as_Stream r))); [by intros [= <- <-]; left|].
  cbv zeta. unfold bset, commit. destruct (write_fails f _); [by intros [= <- <-]; left|]. destruct (write_fails f _); [by intros [= <- <-]; left|].
  destruct (write_fails f _); [by intros [= <- <-]; left|]. destruct (apply_fails f); [by intros [= <- <-]; left|].
  intros [= <- <-]. right. split; [done|]. split; [done|]. cbn [app]. unfold apply_batch. cbn [foldl apply_op]. store_simpl. split.
  - rewrite lookup_insert_ne by done. rewrite lookup_insert_ne by done. apply lookup_insert_eq.
  - split.
    + eexists. split; [done|]. intros k Hk. rewrite !lookup_insert_ne; [done|intros <-; apply Hk; tag_in..].
    + intros stream. unfold position, with_at, CursorGet, AckedMark. store_simpl. rewrite !readU64_insert.
      rewrite (decide_False (P := ctKey _ _ = cursorKey _ _)) by done. rewrite (decide_False (P := setAsideKey _ _ _ = _)) by done.
      rewrite (decide_False (P := ctKey _ _ = ackedKey _ _)) by done. rewrite (decide_False (P := cursorKey _ _ = ackedKey _ _)) by done.
      rewrite (decide_False (P := setAsideKey _ _ _ = ackedKey _ _)) by done.
      destruct (decide (stream = as_Stream r)) as [->|Hne]; [by rewrite decide_True|]. rewrite decide_False; [done|]. unfold cursorKey. congruence.
Qed.

Lemma noteReplayProgress_stands fn t cl st :
  let '(cl', st') := noteReplayProgress fn t cl st in
  cl_parentPub cl' = cl_parentPub cl /\ cl_epoch cl' = cl_epoch cl /\ stands (cl_parentPub cl) st st' (position (cl_parentPub cl) st).
Proof.
  unfold noteReplayProgress. cbv zeta. pose proof (stands_refl (cl_parentPub cl) st) as Hr. destruct (negb _); [done|].
  destruct (ps_Resync _) as [r|]; [|done]. case_bool_decide; [done|]. case_bool_decide; [|done].
  set (next := mkParentState _ _). pose proof (SetParentState_stands (cl_parentPub cl) fn (cl_parentPub cl) (enc_state next) st) as Hs.
  by destruct (SetParentState _ _ _ _) as [s1 [|]].
Qed.

Lemma ackUplink_stands f ms cl epoch stream next pushed hwm st st' ok :
  ackUplink f ms cl epoch stream next pushed hwm st = (st', ok) ->
  let pub := cl_parentPub cl in
  stands pub st st' (position pub st)
  \/ cl_epoch cl = epoch /\ stands pub st st' (with_at (position pub st) stream
       (N.max (fst (position pub st stream)) next, if pushed then hwm else snd (position pub st stream))).
Proof.
  unfold ackUplink. cbv zeta. case_bool_decide as He; cbn [negb]; [|intros [= <- <-]; left; apply stands_refl]. destruct pushed; cbn [negb].
  - intros [= <- <-]. destruct (CursorAckMarked_stands (cl_parentPub cl) f ms stream next hwm st); auto.
  - intros [= <- <-]. pose proof (CursorAck_stands (cl_parentPub cl) f ms stream next st) as Hc. cbv zeta in Hc.
    destruct (position (cl_parentPub cl) st stream) as [c a]. destruct Hc; auto.
Qed.

(** What an answer makes of the positions: nothing; or, in the epoch the push was read
    in, the cursor passes it with the mark the parent said, or passes the one record
    that was refused, which is set aside. *)
Record Answered (push : Push) (next : N) (recs : list StoredRecord) (epoch : N) (ans : option PushAnswer) (cl cl' : Client) (st st' : Store) : Prop := {
  an_pub : cl_parentPub cl' = cl_parentPub cl;
  an_epoch : cl_epoch cl' = cl_epoch cl;
  an_moves : let pub := cl_parentPub cl in let '(c, a) := position pub st (pu_stream push) in
    stands pub st st' (position pub st)
    \/ (exists h, ans = Some (Taken h) /\ cl_epoch cl = epoch /\ (last_offset 0 (pu_recs push) <= h)%N
         /\ stands pub st st' (with_at (position pub st) (pu_stream push) (N.max c next, h)))
    \/ (exists r o, pu_recs push = [r] /\ o = rp_ChildOffset r /\ rp_SkipFrom r = 0%N /\ cl_epoch cl = epoch /\ (c <= o)%N
         /\ is_Some (db st' !! setAsideKey pub (pu_stream push) o)
         /\ stands pub st st' (with_at (position pub st) (pu_stream push) ((o + 1)%N, a)));
}.

Lemma hold_refused_true batch now grace h h' : hold_refused batch now grace h = (h', true) ->
  exists r, batch = [r] /\ rp_SkipFrom r = 0%N.
Proof.
  unfold hold_refused. destruct batch as [|r [|]]; try done. intros [= _ Ha]. exists r. split; [done|].
  apply andb_true_iff in Ha as [Ha%bool_decide_eq_true _]. done.
Qed.

Lemma pushAnswer_spec f fn fo mint now ms t grace epoch push next recs ans said hold cl st cl' st' hold' :
  (forall h, ans = Some (Taken h) -> (h < NextOffset st (pu_stream push))%N) ->
  pushAnswer f fn fo mint now ms t grace epoch push next recs ans said hold cl st = (cl', st', hold') ->
  Answered push next recs epoch ans cl cl' st st'.
Proof.
  intros Hh. assert (Hstay : forall cl1, cl_parentPub cl1 = cl_parentPub cl -> cl_epoch cl1 = cl_epoch cl -> Answered push next recs epoch ans cl cl1 st st).
  { intros cl1 H1 H2. split; [done|done|]. cbv zeta. destruct (position _ st _). left. apply stands_refl. }
  unfold pushAnswer. cbv zeta. destruct ans as [[status|store|h]|]; [| | |intros [= <- <- <-]; by apply Hstay].
  - destruct (negb _ || _); [intros [= <- <- <-]; by apply Hstay|].
    destruct (hold_refused _ _ _ _) as [h1 []] eqn:Eh; [|intros [= <- <- <-]; by apply Hstay].
    apply hold_refused_true in Eh as (r & Er & Hz). rewrite Er. cbn [head fmap option_fmap option_map].
    destruct (list_find _ recs) as [[i r']|] eqn:Ef; [|intros [= <- <- <-]; by apply Hstay].
    apply list_find_Some in Ef as (_ & Ho & _). injection Ho as Ho. case_bool_decide as He; cbn [negb]; [|intros [= <- <- <-]; by apply Hstay].
    set (rec := mkSetAside _ _ _ _ _ _ _ _). destruct (SetAsideUplink f ms _ rec st) as [st1 ok] eqn:Es.
    pose proof (SetAsideUplink_spec f ms (cl_parentPub cl) rec st st1 ok eq_refl Es) as Hs. cbn [as_Stream as_Offset rec] in Hs.
    destruct (position (cl_parentPub cl) st (pu_stream push)) as [c a] eqn:Ep.
    destruct Hs as [[-> Hn]|(-> & Hc & Hk & Hst)].
    { destruct ok as [[]|]; [done|..]; intros [= <- <- <-]; by apply Hstay. }
    intros [= <- <- <-]. split; [done|done|]. cbv zeta. rewrite Ep. right; right. exists r, (rp_ChildOffset r). rewrite <- Ho.
    by split_and!.
  - case_bool_decide; intros [= <- <- <-]; by apply Hstay.
  - destruct (N.ltb_spec h (match last (pu_recs push) with Some r => rp_ChildOffset r | None => 0%N end)) as [|Hl]; [intros [= <- <- <-]; by apply Hstay|].
    rewrite (proj2 (N.leb_gt _ _) (Hh h eq_refl)). destruct (ackUplink _ _ _ _ _ _ _ _ _) as [st1 ok] eqn:Ea.
    pose proof (ackUplink_stands _ _ _ _ _ _ _ _ _ _ _ Ea) as Hs. cbv zeta in Hs.
    intros E. assert (Hend : cl_parentPub cl' = cl_parentPub cl /\ cl_epoch cl' = cl_epoch cl
        /\ forall g, stands (cl_parentPub cl) st st1 g -> stands (cl_parentPub cl) st st' g).
    { destruct ok; [|by injection E as <- <- <-]. pose proof (noteReplayProgress_stands fn t cl st1) as Hn.
      destruct (noteReplayProgress fn t cl st1) as [cl2 st2]. destruct Hn as (N1 & N2 & N3 & N4). injection E as <- <- <-.
      split_and!; [done|done|]. intros g [G1 G2]. split; [by eapply link_only_trans|]. intros stream. by rewrite N4. }
    destruct Hend as (E1 & E2 & E3). split; [done|done|]. cbv zeta.
    destruct (position (cl_parentPub cl) st (pu_stream push)) as [c a]. cbn [fst snd] in Hs.
    destruct Hs as [?|[? ?]]; [left; by apply E3|]. right; left. exists h. split_and!; [done|done| |by apply E3]. etrans; [|exact Hl].
    destruct (last (pu_recs push)) eqn:El; [by rewrite (last_offset_last _ _ El)|]. by apply last_None in El as ->.
Qed.

(** ** What a child can write at its parent *)

(** A record of a child as the parent may store it: in metrics an empty skip range;
    else under the child's mount, in the stream its class belongs to, with a current
    state exactly when its contract has one. *)
Definition confined (contracts : option (string -> option Class)) (mount stream : string) (a : ReplRecord) : Prop :=
  if decide (rp_SkipFrom a = 0%N) then
    exists p, Parse (rp_Topic a) = Ok p /\ UnderMount (Path p) mount = true
      /\ let c := EngineClassOf contracts (Contract p) in
         (IsKnown c = true -> MatchesUplinkStream c p stream = true)
         /\ if IsOwnedState c then rp_KVPath a = Path p /\ rp_KVNode a = NodeID p /\ rp_Delete a = (rp_Payload a == "")
            else rp_KVPath a = ""
  else stream = metricsStream /\ rp_Topic a = "" /\ rp_Payload a = "" /\ rp_KVPath a = "".

Lemma Parse_MountInsert topic mount p p' : Parse topic = Ok p -> Parse (MountInsert topic mount) = Ok p' -> p' = at_mount mount p.
Proof.
  intros (_ & (Ha & Hb & Hc & Hd & _) & ->)%Parse_inv. unfold render. rewrite MountInsert_levels, Parse_levels by done.
  destruct (_ <? _)%Z; [done|]. rewrite SplitN_Join5 by done. destruct (HasPrefix _ _); [|done]. by intros [= <-].
Qed.

Lemma check_recs_confined contracts mount stream previous recs out : mount <> "" ->
  check_recs contracts mount stream previous recs = Ok out -> Forall (confined contracts mount stream) out.
Proof.
  intros Hm. revert previous out. induction recs as [|r recs IH]; intros previous out E; cbn [check_recs] in E.
  { injection E as <-. constructor. }
  destruct (_ || _); [done|]. destruct (decide (rp_SkipFrom r = 0%N)) as [Hz|Hz].
  - rewrite (bool_decide_eq_true_2 _ Hz) in E. cbn [negb] in E. destruct (Parse (rp_Topic r)) as [p|] eqn:Ep; [|done].
    destruct (IsKnown _ && _) eqn:Ek; [done|]. destruct (Parse (MountInsert (rp_Topic r) mount)) as [p'|] eqn:Ep'; [|done].
    destruct (check_recs _ _ _ _ recs) as [rest|] eqn:Er; [|done]. injection E as <-. constructor; [|by eapply IH].
    pose proof (Parse_MountInsert _ _ _ _ Ep Ep') as ->. unfold confined. change (Contract (at_mount mount p)) with (Contract p) in *.
    assert (UnderMount (Path (at_mount mount p)) mount = true) 
      by (unfold UnderMount; rewrite bool_decide_false by done; cbn [Path at_mount negb andb]; rewrite app_assoc_s; apply HasPrefix_app).
    assert (IsKnown (EngineClassOf contracts (Contract p)) = true ->
      MatchesUplinkStream (EngineClassOf contracts (Contract p)) (at_mount mount p) stream = true).
    { intros Hk. rewrite Hk in Ek. cbn [andb] in Ek. apply negb_false_iff in Ek. by rewrite MatchesUplinkStream_hop. }
    destruct (IsOwnedState (EngineClassOf contracts (Contract p))) eqn:Eo; cbn [rp_SkipFrom at_parent]; rewrite decide_True by done;
      exists (at_mount mount p); (split; [done|]); (split; [done|]); cbv zeta; change (Contract (at_mount mount p)) with (Contract p); by rewrite Eo.
  - rewrite (bool_decide_eq_false_2 _ Hz) in E. cbn [negb] in E. destruct (bad_skip stream previous r) eqn:Eb; [done|].
    destruct (check_recs _ _ _ _ recs) as [rest|] eqn:Er; [|done]. injection E as <-. constructor; [|by eapply IH].
    unfold confined. cbn [rp_SkipFrom skip_record]. rewrite decide_False by done. unfold bad_skip in Eb.
    split_and!; [|done..]. destruct (decide (stream = metricsStream)) as [|Hne]; [done|]. by rewrite (bool_decide_eq_false_2 _ Hne) in Eb.
Qed.

Lemma confined_origin contracts mount stream r : confined contracts mount stream (with_child_origin r) <-> confined contracts mount stream r.
Proof. unfold confined, with_child_origin. by case_bool_decide. Qed.

Lemma confined_applied contracts mount stream h recs :
  Forall (confined contracts mount stream) recs -> Forall (confined contracts mount stream) (above h (dropUnreplicable stream recs)).
Proof.
  intros Hf. revert h. induction Hf as [|r recs Hr _ IH]; intros h; [constructor|]. cbn [dropUnreplicable fmap list_fmap above].
  destruct (N.leb_spec (rp_ChildOffset (drop_retired stream r)) h) as [|Hlt]; [apply IH|]. constructor; [|apply IH].
  rewrite drop_retired_offset in Hlt. assert (Hd : confined contracts mount stream (drop_retired stream r)).
  { unfold drop_retired. destruct (Parse (rp_Topic r)) as [p|] eqn:Ep; [|done]. destruct (_ && _) eqn:Er; [|done].
    apply andb_true_iff in Er as [_ Er%bool_decide_eq_true]. unfold confined. cbn [rp_SkipFrom skip_record]. rewrite decide_False by lia. done. }
  destruct (is_data _); [by apply confined_origin|done].
Qed.

(** A stream of which the parent has no mark says nothing of a restore: whatever a push
    of the child on record states it was told, it is let through. *)
Lemma judge_unmarked f mint now child stream n s : Inv s -> mark s child stream = 0%N ->
  exists s', judge f mint now child (Some (id s)) (mkChildPosition (ChildStore child s) 0 0 {[ stream := n ]}) s = (s', Ok false) /\ Kept child s s'.
Proof.
  intros HI Hz. set (p := mkChildPosition _ _ _ _). unfold judge. destruct (aheadOf_spec child p s HI) as (Hk & _ & Hn).
  assert (Hnone : snd (aheadOf child p s) = None).
  { apply Hn. cbn [po_commands po_definitions p]. split_and!; [lia|lia|]. intros (_ & _ & st & m & Hl & Hlt). cbn [po_acked p] in Hl.
    apply lookup_singleton_Some in Hl as [<- <-]. lia. }
  destruct (aheadOf child p s) as [s1 ahead]. cbn [fst snd] in *. subst ahead. exists s1. split; [|done].
  rewrite bool_decide_true by (by eexists). rewrite (bool_decide_false (is_Some None)) by (by intros []).
  unfold judgeChild. cbn [negb default]. change (Datatypes.id (id s)) with (id s). change (StoreID s) with (id s).
  rewrite (bool_decide_true (id s = id s)) by done. by rewrite andb_false_r.
Qed.

Lemma judge_inv f mint now child recorded p s : Inv s -> Inv (fst (judge f mint now child recorded p s)).
Proof.
  intros HI. destruct recorded as [recorded|].
  - pose proof (judge_spec f mint now child recorded p s HI) as Hj. destruct (judge _ _ _ _ _ _ _). apply Hj.
  - unfold judge. destruct (aheadOf_spec child p s HI) as (Hk & _). destruct (aheadOf child p s) as [s1 ahead]. cbn [fst] in Hk.
    rewrite bool_decide_false by (by intros []). unfold judgeChild. cbn [negb]. destruct (bool_decide _); apply Hk.
Qed.

(** C23: a child writes only under its mount. Whatever a push carries and whatever fails
    while it is handled, each record the parent applies is well formed for it: its topic
    parses and its path is under the child's mount; a known contract is in the stream
    the push names; it projects to current state exactly when its class has one, at the
    path and node of the mounted topic; only metrics has skip ranges, and they carry
    nothing. *)
Theorem handleReplicate_confined busy fj fa fi mint now contracts child mount p s :
  Inv s -> mount <> "" ->
  let '(s', _, applied) := handleReplicate busy fj fa fi mint now contracts child mount p s in
  Inv s' /\ Forall (confined contracts mount (pu_stream p)) applied.
Proof.
  intros HI Hm. unfold handleReplicate. destruct busy; [done|]. destruct (_ <? _)%nat; [done|]. destruct (negb _); [done|]. cbv zeta.
  set (po := mkChildPosition _ _ _ _). pose proof (judge_inv fj mint now child (pu_parent p) po s HI) as HI1.
  destruct (judge _ _ _ _ _ _ _) as [s1 [[]|]]; [done| |done]. destruct (check_recs _ _ _ _ _) as [repl|] eqn:Ec; [|done].
  pose proof (AdoptChildStore_inv fa child (pu_store p) s1 HI1) as HI2. destruct (AdoptChildStore _ _ _ _) as [s2 [x|]]; [|done].
  pose proof (IngestReplicated_spec fi child (pu_stream p) repl s2 HI2) as Hi. destruct (IngestReplicated _ _ _ _ _) as [s3 y].
  destruct Hi as (HI3 & _ & _ & [(-> & -> & _)|([e ->] & -> & _)]); [|done]. split; [done|].
  apply confined_applied. by eapply check_recs_confined.
Qed.

End uplink.

(** ** A small instance *)

Section examples.
#[local] Existing Instance demo_codec.

Definition demo_batch : list ReplRecord := [demo_push 2 0 "colca/v1/_Metric/n/a"; skip_record 3 5; demo_push 6 0 "colca/v1/_Metric/n/b"].

Lemma fitReplicationBatch_largest_witness :
  fitReplicationBatch (fun l => N.of_nat (length l) * 10)%N 25 demo_batch = Some (take 2 demo_batch)
  /\ exists n, 0 < n /\ take 2 demo_batch = take n demo_batch
     /\ forall m, n < m <= length demo_batch -> (25 < N.of_nat (length (take m demo_batch)) * 10)%N.
Proof.
  split; [vm_compute; reflexivity|].
  assert (Hmono : size_mono (fun l => N.of_nat (length l) * 10)%N demo_batch) by (intros i j Hij; rewrite !length_take; lia).
  destruct (fitReplicationBatch_largest (fun l => N.of_nat (length l) * 10)%N 25 demo_batch ltac:(discriminate) Hmono) as (n & Hn & Ho & _ & Hm).
  exists n. split; [exact Hn|]. split; [exact Ho|exact Hm].
Defined.

Definition demo_pushed : Push := mkPush "child-store" "metrics" (Some "") 0 demo_batch.

Lemma handleReplicate_confined_witness :
  snd (fst (handleReplicate false no_faults no_faults no_faults "m" 9 None "e1" "plant" demo_pushed demo_store)) = Taken 6
  /\ Forall (confined None "plant" "metrics") (snd (handleReplicate false no_faults no_faults no_faults "m" 9 None "e1" "plant" demo_pushed demo_store)).
Proof.
  split; [vm_compute; reflexivity|].
  pose proof (handleReplicate_confined false no_faults no_faults no_faults "m" 9 None "e1" "plant" demo_pushed demo_store demo_store_inv ltac:(discriminate)) as Hc.
  destruct (handleReplicate false no_faults no_faults no_faults "m" 9 None "e1" "plant" demo_pushed demo_store) as [[s' a] applied]. exact (proj2 Hc).
Defined.

End examples.
