(* ===== verification/UplinkRun.v ===== *)
(** * The uplink over every run

    A child, its parent and everything that was ever on the wire between them, as a
    step relation over the operations of [Link.v]: messages are lost, delayed and
    repeated, writes fail, the child restarts, both stores go on living, and the parent
    is put back to any backup of its store. The invariant is shown step by step; the
    theorems read it off. *)

From S2P Require Export Uplink.
From Stdlib Require Import Ascii.

Open Scope string_scope.
Open Scope list_scope.
Open Scope go_scope.

Section run.
Context `{Codec} `{LinkCodec}.

(** The child's log policy; the parent's contract bundle; the child's name and mount at
    the parent, and the parent's key at the child. *)
Variables (logs : logForwarding) (contracts : option (string -> option Class)) (child mount pub : string).

(** ** The machine *)

(** A store of the parent, and the records of each stream its history applied. *)
Record Backup := mkBackup { bk_store : Store; bk_applied : string -> list ReplRecord }.

(** [y_wait] is, per lane, the push that is out with the epoch it was read in;
    [y_aside] tells which records were ever set aside. *)
Record Sys := mkSys {
  y_child : Store;
  y_client : Client;
  y_wait : gmap string (N * PushStart);
  y_aside : string -> N -> Prop;
  y_parent : Backup;
  y_backups : list Backup;
  y_pushes : list Push;
  y_answers : list (Push * PushAnswer);
  y_hellos : list Hello;
}.

(** The child's store lives on: records come at the head and are pruned, none changes;
    the link's own positions are the link's. *)
Record lives (st st' : Store) : Prop := {
  lv_inv : Inv st';
  lv_id : id st' = id st;
  lv_next : forall stream, stream ∈ streams -> (NextOffset st stream <= NextOffset st' stream)%N;
  lv_records : forall stream o e, stream ∈ streams -> record_at (db st') stream o = Some e -> (o < NextOffset st stream)%N ->
                 record_at (db st) stream o = Some e;
}.

Definition child_lives (st st' : Store) : Prop := lives st st' /\ forall stream, position pub st' stream = position pub st stream.

Definition push_out (r : PushStart) : list Push := match r with PushSend p _ _ => [p] | _ => [] end.

(** Records set aside by now. *)
Definition asides (st : Store) (aside : string -> N -> Prop) (stream : string) (o : N) : Prop :=
  aside stream o \/ is_Some (db st !! setAsideKey pub stream o).

Inductive step : Sys -> Sys -> Prop :=
| step_child y st' : child_lives (y_child y) st' ->
    step y (mkSys st' (y_client y) (y_wait y) (y_aside y) (y_parent y) (y_backups y) (y_pushes y) (y_answers y) (y_hellos y))
| step_parent y b s' :
    (* the parent lives on, or is back at a backup; a backup older than the first record
       of a stream that has arrived is not one it can be put back to *)
    b ∈ y_parent y :: y_backups y -> Kept child (bk_store b) s' ->
    (forall stream, stream ∈ uplinkStreams -> mark (bk_store (y_parent y)) child stream <> 0%N -> mark (bk_store b) child stream <> 0%N) ->
    step y (mkSys (y_child y) (y_client y) (y_wait y) (y_aside y) (mkBackup s' (bk_applied b)) (y_backups y) (y_pushes y) (y_answers y) (y_hellos y))
| step_backup y :
    step y (mkSys (y_child y) (y_client y) (y_wait y) (y_aside y) (y_parent y) (y_parent y :: y_backups y) (y_pushes y) (y_answers y) (y_hellos y))
| step_send y cl0 stream f ms size maxBytes hold st' r :
    (* the epoch and the parent's incarnation are read first *)
    stream ∈ uplinkStreams -> y_wait y !! stream = None ->
    cl_parentPub cl0 = pub -> (cl_epoch cl0 <= cl_epoch (y_client y))%N ->
    pushStart f ms logs size maxBytes hold cl0 stream (y_child y) = (st', r) ->
    step y (mkSys st' (y_client y) (<[stream := (cl_epoch cl0, r)]> (y_wait y)) (y_aside y) (y_parent y) (y_backups y)
              (push_out r ++ y_pushes y) (y_answers y) (y_hellos y))
| step_past y stream epoch next f fn ms t st1 ok cl' st' :
    y_wait y !! stream = Some (epoch, PushPast next) ->
    ackUplink f ms (y_client y) epoch stream next false 0 (y_child y) = (st1, ok) ->
    noteReplayProgress fn t (y_client y) st1 = (cl', st') ->
    step y (mkSys st' cl' (delete stream (y_wait y)) (y_aside y) (y_parent y) (y_backups y) (y_pushes y) (y_answers y) (y_hellos y))
| step_answer y stream epoch p next recs ans f fn fo mint now ms t grace said hold cl' st' hold' :
    y_wait y !! stream = Some (epoch, PushSend p next recs) -> (forall a, ans = Some a -> (p, a) ∈ y_answers y) ->
    pushAnswer f fn fo mint now ms t grace epoch p next recs ans said hold (y_client y) (y_child y) = (cl', st', hold') ->
    step y (mkSys st' cl' (delete stream (y_wait y)) (asides st' (y_aside y)) (y_parent y) (y_backups y) (y_pushes y) (y_answers y) (y_hellos y))
| step_idle y stream epoch :
    y_wait y !! stream = Some (epoch, PushIdle) ->
    step y (mkSys (y_child y) (y_client y) (delete stream (y_wait y)) (y_aside y) (y_parent y) (y_backups y) (y_pushes y) (y_answers y) (y_hellos y))
| step_serve y p busy fj fa fi mint now s' ans applied :
    p ∈ y_pushes y -> handleReplicate busy fj fa fi mint now contracts child mount p (bk_store (y_parent y)) = (s', ans, applied) ->
    step y (mkSys (y_child y) (y_client y) (y_wait y) (y_aside y)
              (mkBackup s' (fun stream => bk_applied (y_parent y) stream ++ if stream == pu_stream p then applied else []))
              (y_backups y) (y_pushes y) ((p, ans) :: y_answers y) (y_hellos y))
| step_hello y g fj fa fc mint now ms s' h :
    gr_store g = id (y_child y) -> handleHello fj fa fc mint now ms child g (bk_store (y_parent y)) = (s', h) ->
    step y (mkSys (y_child y) (y_client y) (y_wait y) (y_aside y) (mkBackup s' (bk_applied (y_parent y))) (y_backups y) (y_pushes y)
              (y_answers y) (match h with Some h => [h] | None => [] end ++ y_hellos y))
| step_settle y h fo fr fc mint now ms t cl' st' ok :
    h ∈ y_hellos y -> settle fo fr fc mint now ms t h (y_client y) (y_child y) = (cl', st', ok) ->
    step y (mkSys st' cl' (y_wait y) (y_aside y) (y_parent y) (y_backups y) (y_pushes y) (y_answers y) (y_hellos y))
| step_restart y f ms st' cl' :
    (* no cursor from before cursors were named by parent *)
    (forall stream, stream ∈ uplinkStreams -> CursorGet (y_child y) "uplink" stream <= 1)%N ->
    PrepareUplink f ms pub (y_child y) = (st', Ok cl') ->
    step y (mkSys st' cl' ∅ (y_aside y) (y_parent y) (y_backups y) (y_pushes y) (y_answers y) (y_hellos y)).

(** A child that has yet to send its first record to this parent. *)
Record start (y : Sys) : Prop := {
  su_child : Inv (y_child y);
  su_parent : Inv (bk_store (y_parent y));
  su_id : id (y_child y) <> "";
  su_store : ChildStore child (bk_store (y_parent y)) = "" \/ ChildStore child (bk_store (y_parent y)) = id (y_child y);
  su_marks : forall stream, mark (bk_store (y_parent y)) child stream = 0%N;
  su_applied : forall stream, bk_applied (y_parent y) stream = [];
  su_position : forall stream, stream ∈ uplinkStreams ->
    (fst (position pub (y_child y) stream) <= LWM (y_child y) stream)%N /\ snd (position pub (y_child y) stream) = 0%N;
  su_pub : cl_parentPub (y_client y) = pub;
  su_wait : y_wait y = ∅;
  su_aside : forall stream o, ~ y_aside y stream o;
  su_wire : y_backups y = [] /\ y_pushes y = [] /\ y_answers y = [] /\ y_hellos y = [];
}.

Inductive reach : Sys -> Prop :=
| reach_start y : start y -> reach y
| reach_step y y' : reach y -> step y y' -> reach y'.

(** ** The invariant *)

(** The parent's history has the record. *)
Definition delivered (applied : list ReplRecord) (o : N) (e : recEnc) : Prop :=
  exists a, a ∈ applied /\ mounted mount (to_repl (storedRecord o e)) a.

Section inv.
Variables (C : Store) (aside : string -> N -> Prop).

(** A store of the parent: it knows the child's incarnation once it has a mark; its
    history is in order up to the mark and has every record to be had up to it. *)
Record parent_ok (b : Backup) : Prop := {
  pk_inv : Inv (bk_store b);
  pk_store : ChildStore child (bk_store b) = "" \/ ChildStore child (bk_store b) = id C;
  pk_marked : forall stream, stream ∈ uplinkStreams -> mark (bk_store b) child stream <> 0%N -> ChildStore child (bk_store b) = id C;
  pk_head : forall stream, stream ∈ uplinkStreams -> (mark (bk_store b) child stream < NextOffset C stream)%N;
  pk_order : forall stream, stream ∈ uplinkStreams -> increasing (bk_applied b stream)
               /\ Forall (fun a => rp_ChildOffset a <= mark (bk_store b) child stream)%N (bk_applied b stream);
  pk_has : forall stream o e, stream ∈ uplinkStreams -> needed logs C stream o e -> (o <= mark (bk_store b) child stream)%N ->
             delivered (bk_applied b stream) o e \/ aside stream o;
}.

(** Everything of the stream below [from] was confirmed up to [acked], or set aside. *)
Definition covered (stream : string) (from acked : N) : Prop :=
  forall o e, needed logs C stream o e -> (o < from)%N -> (o <= acked)%N \/ aside stream o.

(** A push: what it states of itself is true, and what it leaves behind is covered. *)
Record push_ok (marked : string -> Prop) (p : Push) : Prop := {
  po_id : pu_store p = id C;
  po_capable : is_Some (pu_parent p);
  po_up : pu_stream p ∈ uplinkStreams;
  po_told : pu_acked p <> 0%N -> marked (pu_stream p);
  po_sent : exists from next, Sent logs C from next p /\ covered (pu_stream p) from (pu_acked p);
}.

(** A mark the child was told. *)
Definition told_ok (marked : string -> Prop) (stream : string) (n : N) : Prop :=
  (n < NextOffset C stream)%N /\ (n <> 0%N -> marked stream).

Definition answer_ok (marked : string -> Prop) (pa : Push * PushAnswer) : Prop :=
  forall h, pa.2 = Taken h -> pu_stream pa.1 ∈ uplinkStreams -> (pu_acked pa.1 <= h)%N /\ told_ok marked (pu_stream pa.1) h.

Definition hello_ok (marked : string -> Prop) (h : Hello) : Prop :=
  forall stream, stream ∈ uplinkStreams -> told_ok marked stream (default 0%N (he_HWMs h !! stream)).

(** A lane's push that is out. *)
Definition wait_ok (cl : Client) (stream : string) (w : N * PushStart) : Prop :=
  let '(c, a) := position pub C stream in
  (w.1 <= cl_epoch cl)%N /\ stream ∈ uplinkStreams /\
  match w.2 with
  | PushIdle => True
  | PushPast next => exists from a0, (c <= from <= next)%N /\ (next <= NextOffset C stream)%N /\ covered stream from a0
      /\ (forall o e, needed logs C stream o e -> ~ (from <= o < next)%N) /\ (w.1 = cl_epoch cl -> a = a0)
  | PushSend p next _ => pu_stream p = stream /\ exists from, (c <= from)%N /\ Sent logs C from next p
      /\ covered stream from (pu_acked p) /\ (w.1 = cl_epoch cl -> a = pu_acked p)
  end.

(** Where the child stands. *)
Definition stream_ok (marked : string -> Prop) (stream : string) : Prop :=
  let '(c, a) := position pub C stream in
  (c <= NextOffset C stream)%N /\ covered stream c a /\ (a <> 0%N -> marked stream).

End inv.

(** The streams of which the parent has a mark. *)
Definition marks (y : Sys) (stream : string) : Prop := mark (bk_store (y_parent y)) child stream <> 0%N.

Record good (y : Sys) : Prop := {
  gd_inv : Inv (y_child y);
  gd_id : id (y_child y) <> "";
  gd_pub : cl_parentPub (y_client y) = pub;
  gd_stream : forall stream, stream ∈ uplinkStreams -> stream_ok (y_child y) (y_aside y) (marks y) stream;
  gd_parents : forall b, b ∈ y_parent y :: y_backups y -> parent_ok (y_child y) (y_aside y) b;
  gd_pushes : forall p, p ∈ y_pushes y -> push_ok (y_child y) (y_aside y) (marks y) p;
  gd_answers : forall pa, pa ∈ y_answers y -> answer_ok (y_child y) (marks y) pa;
  gd_hellos : forall h, h ∈ y_hellos y -> hello_ok (y_child y) (marks y) h;
  gd_wait : forall stream w, y_wait y !! stream = Some w -> wait_ok (y_child y) (y_aside y) (y_client y) stream w;
}.

(** *** What a living store keeps of it *)

Section mono.
Variables (C C' : Store) (aside aside' : string -> N -> Prop).
Hypothesis HC : Inv C.
Hypothesis Hlive : lives C C'.
Hypothesis Haside : forall stream o, aside stream o -> aside' stream o.

Lemma needed_lives stream o e : stream ∈ uplinkStreams -> needed logs C' stream o e -> (o < NextOffset C stream)%N -> needed logs C stream o e.
Proof using Hlive. intros Hs [He Hr] Ho. split; [|done]. by eapply (lv_records _ _ Hlive); [apply uplinkStreams_streams|..]. Qed.

Lemma next_lives stream : stream ∈ uplinkStreams -> (NextOffset C stream <= NextOffset C' stream)%N.
Proof using Hlive. intros Hs. by apply (lv_next _ _ Hlive), uplinkStreams_streams. Qed.

Lemma covered_lives stream from acked : stream ∈ uplinkStreams -> (from <= NextOffset C stream)%N ->
  covered C aside stream from acked -> covered C' aside' stream from acked.
Proof using Hlive Haside.
  intros Hs Hf Hc o e Hn Ho. destruct (Hc o e) as [|]; [apply needed_lives; [done|done|lia]|done|by left|right; by apply Haside].
Qed.

Lemma Sent_lives from next p : pu_stream p ∈ uplinkStreams -> Sent logs C from next p -> Sent logs C' from next p.
Proof using Hlive.
  intros Hs [H1 H2 H3 H4 H5]. pose proof (next_lives _ Hs). split; [done|done| |done|lia].
  intros o e Hn Ho. apply H3; [|done]. apply needed_lives; [done|done|lia].
Qed.

Lemma Sent_from from next p : Sent logs C from next p -> (from < next)%N /\ (from <= NextOffset C (pu_stream p))%N.
Proof using.
  intros [H1 _ _ H4 H5]. destruct (pu_recs p) as [|b l]; [done|]. destruct (H4 b ltac:(left)) as [? _]. lia.
Qed.

Lemma parent_ok_lives b : parent_ok C aside b -> parent_ok C' aside' b.
Proof using Hlive Haside.
  intros [P1 P2 P3 P4 P5 P6]. rewrite <- (lv_id _ _ Hlive) in P2, P3. split; try done.
  - intros stream Hs. pose proof (next_lives _ Hs). specialize (P4 stream Hs). lia.
  - intros stream o e Hs Hn Ho. specialize (P4 stream Hs). destruct (P6 stream o e Hs) as [|]; [apply needed_lives; [done|done|lia]|done|by left|].
    right. by apply Haside.
Qed.

Lemma push_ok_lives marked marked' p : (forall stream, stream ∈ uplinkStreams -> marked stream -> marked' stream) -> push_ok C aside marked p -> push_ok C' aside' marked' p.
Proof using Hlive Haside.
  intros Hm [P1 P2 P3 P4 (from & next & P5 & P6)]. split; [by rewrite (lv_id _ _ Hlive)|done|done|intros; apply Hm; auto|].
  exists from, next. split; [by apply Sent_lives|]. apply covered_lives; [done| |done]. by apply (Sent_from _ _ _ P5).
Qed.

Lemma told_ok_lives (marked marked' : string -> Prop) stream n : stream ∈ uplinkStreams -> (marked stream -> marked' stream) ->
  told_ok C marked stream n -> told_ok C' marked' stream n.
Proof using Hlive. intros Hs Hm [T1 T2]. pose proof (next_lives _ Hs). split; [lia|auto]. Qed.

Lemma wait_ok_lives cl cl' stream w : (fst (position pub C' stream) <= fst (position pub C stream))%N ->
  cl_epoch cl' = cl_epoch cl /\ snd (position pub C' stream) = snd (position pub C stream) \/ (cl_epoch cl < cl_epoch cl')%N ->
  wait_ok C aside cl stream w -> wait_ok C' aside' cl' stream w.
Proof using Hlive Haside.
  unfold wait_ok. destruct (position pub C stream) as [c a], (position pub C' stream) as [c' a']. cbn [fst snd]. intros Hc Ha (W1 & Hs & W2).
  split; [destruct Ha as [[? _]|]; lia|]. split; [done|].
  assert (Hep : w.1 = cl_epoch cl' -> w.1 = cl_epoch cl /\ a' = a) 
    by (intros E; destruct Ha as [[E1 ->]|]; [by rewrite <- E1|lia]).
  destruct w.2 as [|next|p next recs]; [done|..].
  - destruct W2 as (from & a0 & W3 & W4 & W5 & W6 & W7). pose proof (next_lives _ Hs). exists from, a0. split_and!; [lia..| | |].
    + apply covered_lives; [done|lia|done].
    + intros o e Hn Ho. apply (W6 o e); [apply needed_lives; [done|done|lia]|done].
    + intros [E1 ->]%Hep. auto.
  - destruct W2 as (W3 & from & W4 & W5 & W6 & W7). rewrite <- W3 in Hs. split; [done|]. exists from. split_and!; [lia|by apply Sent_lives| |].
    + rewrite <- W3 in *. apply covered_lives; [done|by apply (Sent_from _ _ _ W5)|done].
    + intros [E1 ->]%Hep. auto.
Qed.

Lemma stream_ok_lives marked stream : stream ∈ uplinkStreams -> position pub C' stream = position pub C stream ->
  stream_ok C aside marked stream -> stream_ok C' aside' marked stream.
Proof using Hlive Haside.
  unfold stream_ok. intros Hs ->. destruct (position pub C stream) as [c a]. intros (S1 & S2 & S3). pose proof (next_lives _ Hs).
  split_and!; [lia|by apply covered_lives|done].
Qed.

End mono.

Lemma lives_refl st : Inv st -> lives st st.
Proof. by split. Qed.

Lemma lives_link st st' : Inv st -> link_only st st' -> lives st st'.
Proof.
  intros HI Hl. destruct (link_only_fields _ _ Hl) as (F1 & F2 & _). split; [by eapply link_only_inv|done|intros; by rewrite F2|].
  intros stream o e Hs. destruct Hl as (d & -> & Hd). unfold record_at. store_simpl. by rewrite Hd by tag_in.
Qed.

(** *** Steps of the child, and steps of the parent *)

Lemma good_child y st' cl' wait' aside' new : good y -> lives (y_child y) st' ->
  (forall stream o, y_aside y stream o -> aside' stream o) -> cl_parentPub cl' = pub ->
  (forall stream, stream ∈ uplinkStreams -> stream_ok st' aside' (marks y) stream) ->
  (forall p, p ∈ new -> push_ok st' aside' (marks y) p) ->
  (forall stream w, wait' !! stream = Some w -> wait_ok st' aside' cl' stream w) ->
  good (mkSys st' cl' wait' aside' (y_parent y) (y_backups y) (new ++ y_pushes y) (y_answers y) (y_hellos y)).
Proof.
  intros [G1 G2 G3 G4 G5 G6 G7 G8 G9] Hl Ha Hp Hst Hnew Hw.
  split; cbn [y_child y_client y_wait y_aside y_parent y_backups y_pushes y_answers y_hellos]; try done.
  - apply (lv_inv _ _ Hl).
  - by rewrite (lv_id _ _ Hl).
  - intros b Hb. by eapply parent_ok_lives; [..|apply G5].
  - intros p [Hin|Hin]%elem_of_app; [by apply Hnew|]. by eapply push_ok_lives; [..|apply G6].
  - intros pa Hpa h Eh Hs. destruct (G7 pa Hpa h Eh Hs) as [A1 A2]. split; [done|]. by eapply told_ok_lives.
  - intros h Hh stream Hs. eapply told_ok_lives; [done..|]. by apply G8.
Qed.

Lemma good_parent y b' answers' hellos' : good y -> parent_ok (y_child y) (y_aside y) b' ->
  (forall stream, stream ∈ uplinkStreams -> marks y stream -> mark (bk_store b') child stream <> 0%N) ->
  (forall pa, pa ∈ answers' -> answer_ok (y_child y) (fun stream => mark (bk_store b') child stream <> 0%N) pa) ->
  (forall h, h ∈ hellos' -> hello_ok (y_child y) (fun stream => mark (bk_store b') child stream <> 0%N) h) ->
  good (mkSys (y_child y) (y_client y) (y_wait y) (y_aside y) b' (y_backups y) (y_pushes y) (answers' ++ y_answers y) (hellos' ++ y_hellos y)).
Proof.
  intros [G1 G2 G3 G4 G5 G6 G7 G8 G9] Hb Hm Ha Hh. pose proof (lives_refl _ G1) as Hl.
  split; cbn [y_child y_client y_wait y_aside y_parent y_backups y_pushes y_answers y_hellos]; try done.
  - intros stream Hs. specialize (G4 stream Hs). unfold stream_ok in *. destruct (position pub (y_child y) stream) as [c a].
    destruct G4 as (S1 & S2 & S3). split_and!; [done|done|]. intros Hz. apply Hm; auto.
  - intros b [->|Hin]%elem_of_cons; [done|]. apply G5. by right.
  - intros p Hp. eapply push_ok_lives; [done|done|exact Hm|by apply G6].
  - intros pa [Hin|Hin]%elem_of_app; [by apply Ha|]. intros h Eh Hs. destruct (G7 pa Hin h Eh Hs) as [A1 A2]. split; [done|].
    eapply told_ok_lives; [done|done|by apply Hm|done].
  - intros h [Hin|Hin]%elem_of_app; [by apply Hh|]. intros stream Hs. eapply told_ok_lives; [done|done|by apply Hm|by apply G8].
Qed.

Lemma good_child_step y st' : good y -> child_lives (y_child y) st' ->
  good (mkSys st' (y_client y) (y_wait y) (y_aside y) (y_parent y) (y_backups y) (y_pushes y) (y_answers y) (y_hellos y)).
Proof.
  intros G [Hl Hp]. apply (good_child y st' (y_client y) (y_wait y) (y_aside y) []); try done; [apply (gd_pub _ G)|..].
  - intros stream Hs. eapply stream_ok_lives; [done|done|done|by rewrite Hp|by apply (gd_stream _ G)].
  - by intros p ?%elem_of_nil.
  - intros stream w Hw. eapply wait_ok_lives; [done|done|by rewrite Hp|left; by rewrite Hp|by apply (gd_wait _ G)].
Qed.

Lemma parent_ok_kept C aside b s' : Kept child (bk_store b) s' -> parent_ok C aside b -> parent_ok C aside (mkBackup s' (bk_applied b)).
Proof.
  intros [K1 K2 K3 _] [P1 P2 P3 P4 P5 P6]. split; cbn [bk_store bk_applied]; [done|by rewrite K3|..]; intros stream; rewrite K2, ?K3; [by apply P3|by apply P4|by apply P5|apply P6].
Qed.

Lemma good_parent_step y b s' : good y -> b ∈ y_parent y :: y_backups y -> Kept child (bk_store b) s' ->
  (forall stream, stream ∈ uplinkStreams -> mark (bk_store (y_parent y)) child stream <> 0%N -> mark (bk_store b) child stream <> 0%N) ->
  good (mkSys (y_child y) (y_client y) (y_wait y) (y_aside y) (mkBackup s' (bk_applied b)) (y_backups y) (y_pushes y) (y_answers y) (y_hellos y)).
Proof.
  intros G Hb Hk Hm. apply (good_parent y (mkBackup s' (bk_applied b)) [] []); [done| | |by intros ? ?%elem_of_nil..].
  - apply parent_ok_kept; [done|]. by apply (gd_parents _ G).
  - intros stream Hs Hz. cbn [bk_store]. rewrite (kp_mark _ _ _ Hk). by apply Hm.
Qed.

Lemma good_backup y : good y ->
  good (mkSys (y_child y) (y_client y) (y_wait y) (y_aside y) (y_parent y) (y_parent y :: y_backups y) (y_pushes y) (y_answers y) (y_hellos y)).
Proof.
  intros [G1 G2 G3 G4 G5 G6 G7 G8 G9]. split; try done. cbn [y_parent y_backups]. intros b [->|Hb]%elem_of_cons; [apply G5; left|by apply G5].
Qed.

(** A page is read where the lane stands. *)
Lemma good_send y cl0 stream f ms size maxBytes hold st' r : good y -> stream ∈ uplinkStreams -> cl_parentPub cl0 = pub ->
  (cl_epoch cl0 <= cl_epoch (y_client y))%N -> y_wait y !! stream = None ->
  pushStart f ms logs size maxBytes hold cl0 stream (y_child y) = (st', r) ->
  good (mkSys st' (y_client y) (<[stream := (cl_epoch cl0, r)]> (y_wait y)) (y_aside y) (y_parent y) (y_backups y)
          (push_out r ++ y_pushes y) (y_answers y) (y_hellos y)).
Proof.
  intros G Hs Hpub Hep Hnone E. pose proof (gd_stream _ G stream Hs) as Hst. unfold stream_ok in Hst.
  pose proof (pushStart_spec f ms logs size maxBytes hold cl0 stream (y_child y) st' r) as Hsp. cbv zeta in Hsp. rewrite Hpub in Hsp.
  destruct (position pub (y_child y) stream) as [c a] eqn:Ep. destruct Hst as (S1 & S2 & S3).
  destruct (Hsp (gd_inv _ G) Hs S1 E) as ((c' & [Hlink Hpos] & Hc') & Hr). set (from := N.max c (LWM (y_child y) stream)) in *.
  pose proof (lives_link _ _ (gd_inv _ G) Hlink) as Hl. destruct (link_only_fields _ _ Hlink) as (_ & Hnx & _).
  pose proof (ci_bounds _ _ (inv_counter _ (gd_inv _ G) stream (uplinkStreams_streams _ Hs))) as Hb.
  assert (Hpos1 : position pub st' stream = (c', a)) by (rewrite Hpos; unfold with_at; by rewrite decide_True).
  assert (Hpos2 : forall stream', stream' <> stream -> position pub st' stream' = position pub (y_child y) stream').
  { intros stream' Hne. rewrite Hpos. unfold with_at. by rewrite decide_False. }
  assert (Hcov : covered st' (y_aside y) stream from a).
  { intros o e Hn Ho. apply (needed_only _ _ _ _ _ _ Hlink) in Hn. apply (S2 o e Hn).
    pose proof (needed_range _ _ _ _ _ (gd_inv _ G) (uplinkStreams_streams _ Hs) Hn). unfold from in Ho. lia. }
  assert (Hsent : forall next p, pu_stream p = stream -> Sent logs (y_child y) from next p -> Sent logs st' from next p).
  { intros next p Hps. eapply Sent_lives; [done|by rewrite Hps]. }
  apply (good_child y st' (y_client y)); try done; [apply (gd_pub _ G)|..].
  - intros stream' Hs'. destruct (decide (stream' = stream)) as [->|Hne].
    + unfold stream_ok. rewrite Hpos1, Hnx. split_and!; [destruct Hc' as [-> | ->]; unfold from; lia| |done].
      intros o e Hn Ho. apply (Hcov o e Hn). destruct Hc' as [-> | ->]; unfold from in *; lia.
    + eapply stream_ok_lives; [done|done|done|by apply Hpos2|by apply (gd_stream _ G)].
  - intros p Hp. destruct r as [| |q next recs]; cbn in Hp; [by apply elem_of_nil in Hp..|]. apply list_elem_of_singleton in Hp as ->.
    destruct Hr as (R1 & R2 & R3 & R4 & R5). split; [by rewrite R1, (lv_id _ _ Hl)|done|by rewrite R2|rewrite R2, R3; done|].
    exists from, next. rewrite R2, R3. split; [by apply Hsent|done].
  - intros stream' w. rewrite lookup_insert. destruct (decide (stream = stream')) as [<-|Hne].
    + intros [= <-]. unfold wait_ok. rewrite Hpos1. cbn [fst snd]. split; [done|]. split; [done|].
      assert (c' <= from)%N by (destruct Hc' as [-> | ->]; unfold from; lia). destruct r as [|next|p next recs]; [done|..].
      * destruct Hr as (R1 & R2). exists from, a. rewrite Hnx. split_and!; [lia|lia|lia|done| |done].
        intros o e Hn. apply (R2 o e). by apply (needed_only _ _ _ _ _ _ Hlink) in Hn.
      * destruct Hr as (_ & R2 & R3 & _ & R5). split; [done|]. exists from. rewrite R3. split_and!; [lia|by apply Hsent|done|done].
    + intros Hw. eapply wait_ok_lives; [done|done|by rewrite Hpos2 by done|left; by rewrite Hpos2 by done|by apply (gd_wait _ G)].
Qed.

(** A lane is done with its push: it stays, or moves to where everything is covered. *)
Lemma good_lane y stream st' cl' aside' x : good y -> cl_parentPub cl' = pub -> cl_epoch cl' = cl_epoch (y_client y) ->
  (forall stream o, y_aside y stream o -> aside' stream o) ->
  stands pub (y_child y) st' (with_at (position pub (y_child y)) stream x) ->
  (x = position pub (y_child y) stream
   \/ (fst x <= NextOffset (y_child y) stream)%N /\ covered (y_child y) aside' stream (fst x) (snd x) /\ (snd x <> 0%N -> marks y stream)) ->
  good (mkSys st' cl' (delete stream (y_wait y)) aside' (y_parent y) (y_backups y) (y_pushes y) (y_answers y) (y_hellos y)).
Proof.
  intros G Hp He Ha [Hlink Hpos] Hx. pose proof (lives_link _ _ (gd_inv _ G) Hlink) as Hl. destruct (link_only_fields _ _ Hlink) as (_ & Hnx & _).
  assert (Hpos2 : forall stream', stream' <> stream -> position pub st' stream' = position pub (y_child y) stream').
  { intros stream' Hne. rewrite Hpos. unfold with_at. by rewrite decide_False. }
  apply (good_child y st' cl' (delete stream (y_wait y)) aside' []); try done; [|by intros p ?%elem_of_nil|].
  - intros stream' Hs'. destruct (decide (stream' = stream /\ x <> position pub (y_child y) stream)) as [[-> Hne]|Hsame].
    + unfold stream_ok. rewrite Hpos. unfold with_at. rewrite decide_True by done. destruct Hx as [|(X1 & X2 & X3)]; [done|]. destruct x as [c a].
      rewrite Hnx. split_and!; [done| |done]. intros o e Hn. apply (X2 o e). by apply (needed_only _ _ _ _ _ _ Hlink) in Hn.
    + eapply stream_ok_lives; [done|done|done| |by apply (gd_stream _ G)]. rewrite Hpos. unfold with_at.
      case_decide as Hd; [|done]. subst. destruct (decide (x = position pub (y_child y) stream)); [done|]. by destruct Hsame.
  - intros stream' w [Hne Hw]%lookup_delete_Some. assert (stream' <> stream) by done.
    eapply wait_ok_lives; [done|done|by rewrite Hpos2 by done|left; by rewrite Hpos2 by done|by apply (gd_wait _ G)].
Qed.

Lemma with_at_self g stream : forall stream', g stream' = with_at g stream (g stream) stream'.
Proof. intros stream'. unfold with_at. by case_decide; subst. Qed.

Lemma stands_ext st st' g g' : (forall stream, g stream = g' stream) -> stands pub st st' g -> stands pub st st' g'.
Proof. intros Hg [S1 S2]. split; [done|]. intros stream. by rewrite S2, Hg. Qed.

Lemma good_past y stream epoch next f fn ms t st1 ok cl' st' : good y -> y_wait y !! stream = Some (epoch, PushPast next) ->
  ackUplink f ms (y_client y) epoch stream next false 0 (y_child y) = (st1, ok) -> noteReplayProgress fn t (y_client y) st1 = (cl', st') ->
  good (mkSys st' cl' (delete stream (y_wait y)) (y_aside y) (y_parent y) (y_backups y) (y_pushes y) (y_answers y) (y_hellos y)).
Proof.
  intros G Hw Ea En. pose proof (gd_wait _ G _ _ Hw) as W. pose proof (ackUplink_stands _ _ _ _ _ _ _ _ _ _ _ Ea) as Hst.
  pose proof (noteReplayProgress_stands fn t (y_client y) st1) as Hn. rewrite En in Hn. cbv zeta in Hst. rewrite (gd_pub _ G) in Hst, Hn.
  destruct Hn as (N1 & N2 & N3 & N4).
  assert (Hgo : forall g, stands pub (y_child y) st1 g -> stands pub (y_child y) st' g).
  { intros g [G1 G2]. split; [by eapply link_only_trans|]. intros stream'. by rewrite N4. }
  unfold wait_ok in W. destruct (position pub (y_child y) stream) as [c a] eqn:Ep. cbn [fst snd] in *.
  destruct W as (_ & Hs & from & a0 & W1 & W2 & W3 & W4 & W5). destruct Hst as [Hst|[He Hst]].
  - apply (good_lane y stream st' cl' (y_aside y) (c, a)); [done|done|done|done| |left; by rewrite Ep].
    apply (stands_ext _ _ (position pub (y_child y))); [|by apply Hgo]. rewrite <- Ep. apply with_at_self.
  - apply (good_lane y stream st' cl' (y_aside y) (N.max c next, a)); [done|done|done|done|by apply Hgo|]. right. cbn [fst snd].
    pose proof (gd_stream _ G stream Hs) as Hso. unfold stream_ok in Hso. rewrite Ep in Hso. destruct Hso as (S1 & S2 & S3).
    split_and!; [lia| |done]. intros o e Hn Ho. destruct (decide (o < from)%N); [|exfalso; apply (W4 o e Hn); lia].
    rewrite (W5 (eq_sym He)). by apply (W3 o e).
Qed.

(** The answer to a push. *)
Lemma good_answer y stream epoch p next recs ans f fn fo mint now ms t grace said hold cl' st' hold' : good y ->
  y_wait y !! stream = Some (epoch, PushSend p next recs) -> (forall a, ans = Some a -> (p, a) ∈ y_answers y) ->
  pushAnswer f fn fo mint now ms t grace epoch p next recs ans said hold (y_client y) (y_child y) = (cl', st', hold') ->
  good (mkSys st' cl' (delete stream (y_wait y)) (asides st' (y_aside y)) (y_parent y) (y_backups y) (y_pushes y) (y_answers y) (y_hellos y)).
Proof.
  intros G Hw Hans E. pose proof (gd_wait _ G _ _ Hw) as W. unfold wait_ok in W.
  destruct (position pub (y_child y) stream) as [c a] eqn:Ep. cbn [fst snd] in W.
  destruct W as (_ & Hs & <- & from & W1 & W2 & W3 & W4). pose proof (Sent_from _ _ _ _ W2) as [Hft _].
  assert (Htold : forall h, ans = Some (Taken h) -> (pu_acked p <= h)%N /\ told_ok (y_child y) (marks y) (pu_stream p) h).
  { intros h Eh. exact (gd_answers _ G _ (Hans _ Eh) h eq_refl Hs). }
  destruct (pushAnswer_spec _ _ _ _ _ _ _ _ _ _ _ _ _ _ _ _ _ _ _ _ (fun h Eh => proj1 (proj2 (Htold h Eh))) E) as [A1 A2 A3].
  cbv zeta in A3. rewrite (gd_pub _ G) in *. rewrite Ep in A3.
  assert (Hin : forall o e, needed logs (y_child y) (pu_stream p) o e -> (from <= o < next)%N -> (o <= last_offset 0 (pu_recs p))%N).
  { intros o e Hn Ho. pose proof (sn_carried _ _ _ _ _ W2 o e Hn Ho) as Hb. destruct (last_offset_bounds 0 (pu_recs p)) as (_ & Hl & _).
    - apply (sn_increasing _ _ _ _ _ W2).
    - apply Forall_forall. intros b Hb'. by apply (sn_range _ _ _ _ _ W2).
    - rewrite Forall_forall in Hl. exact (Hl _ Hb). }
  pose proof (sn_next _ _ _ _ _ W2) as Hnx.
  destruct A3 as [A3|[(h & Eh & He & Hlast & A3)|(r & o & Er & -> & Hz & He & Hc & Hk & A3)]].
  - apply (good_lane y (pu_stream p) st' cl' _ (c, a)); [done|done|done|by left| |left; by rewrite Ep].
    apply (stands_ext _ _ (position pub (y_child y))); [|done]. rewrite <- Ep. apply with_at_self.
  - apply (good_lane y (pu_stream p) st' cl' _ (N.max c next, h)); [done|done|done|by left|done|]. right. cbn [fst snd].
    destruct (Htold h Eh) as (T1 & T2 & T3). split_and!; [lia| |done]. intros o e Hn Ho. destruct (decide (o < from)%N) as [Hf|Hf].
    + destruct (W3 o e Hn Hf); [left; lia|right; by left].
    + left. specialize (Hin o e Hn). lia.
  - apply (good_lane y (pu_stream p) st' cl' _ ((rp_ChildOffset r + 1)%N, a)); [done|done|done|by left|done|]. right. cbn [fst snd].
    destruct (sn_range _ _ _ _ _ W2 r) as [Hr _]; [rewrite Er; left|]. pose proof (gd_stream _ G _ Hs) as Hso. unfold stream_ok in Hso. rewrite Ep in Hso.
    split_and!; [lia| |by apply Hso]. intros o e Hn Ho. destruct (decide (o < from)%N) as [Hf|Hf].
    + rewrite (W4 (eq_sym He)). destruct (W3 o e Hn Hf); [by left|right; by left].
    + right. right. pose proof (sn_carried _ _ _ _ _ W2 o e Hn ltac:(lia)) as Hb. rewrite Er in Hb. apply list_elem_of_singleton in Hb as <-. done.
Qed.

Lemma rises_live stream e : rises logs stream e = true -> retired_topic (e_Topic e) = false.
Proof.
  unfold rises, read_up, pushable, leavesTheNode, retired_topic. intros Hr. apply andb_true_iff in Hr as [Hr _]. apply andb_true_iff in Hr as [Hr _].
  destruct (Parse (e_Topic e)) as [p|]; [|done]. apply negb_true_iff. destruct (lane_filter stream) as [g|].
  - apply andb_true_iff in Hr as [Hr _]. by apply andb_true_iff in Hr as [_ ?].
  - by apply andb_true_iff in Hr as [_ ?].
Qed.

Lemma storedRecord_origin o e : o <> 0%N -> sr_OriginOffset (storedRecord o e) <> 0%N.
Proof. intros Ho. cbn. by apply originOffset_pos. Qed.

(** A push the parent took keeps its history whole: what the push leaves behind the
    parent already had. *)
Lemma parent_ok_took C aside marked b p s' applied : Inv C -> parent_ok C aside b -> push_ok C aside marked p ->
  Replicated child mount p (bk_store b) s' (Taken (mark s' child (pu_stream p))) applied ->
  parent_ok C aside (mkBackup s' (fun stream => bk_applied b stream ++ if stream == pu_stream p then applied else []))
  /\ (mark (bk_store b) child (pu_stream p) <= mark s' child (pu_stream p))%N /\ (pu_acked p <= mark s' child (pu_stream p))%N.
Proof.
  intros HC [P1 P2 P3 P4 P5 P6] [Q1 Q2 Q3 Q4 (from & next & Hsent & Hcov)] [R1 R2 R3 R4].
  destruct R4 as [(Hn & _)|(_ & Hcs & Hack & Hinc & Hrng & Hle & Hlast & Happ)]; [by specialize (Hn (mark s' child (pu_stream p)))|].
  split; [|split; [done|lia]]. rewrite Q1 in *. split; cbn [bk_store bk_applied]; [done|by right|done|..]; intros stream.
  - intros Hs. destruct (decide (stream = pu_stream p)) as [->|Hne]; [|rewrite R3 by done; by apply P4]. destruct Hlast as [-> |(r & Hr & ->)]; [by apply P4|].
    destruct (sn_range _ _ _ _ _ Hsent r Hr). pose proof (sn_next _ _ _ _ _ Hsent). lia.
  - intros Hs. destruct (P5 stream Hs) as [O1 O2]. case_bool_decide as Hd; [subst stream|rewrite app_nil_r, R3 by done; done]. split.
    + apply StronglySorted_app. split_and!; [|done|done]. intros x z Hx Hz. rewrite Forall_forall in O2, Hrng. specialize (O2 x Hx). specialize (Hrng z Hz). cbv beta in *. lia.
    + apply Forall_app. split; (eapply Forall_impl; [eassumption|]); intros x; cbv beta; lia.
  - intros o e Hs Hneed Ho. case_bool_decide as Hd; [subst stream|rewrite app_nil_r, R3 in * by done; by apply P6].
    destruct (decide (o <= mark (bk_store b) child (pu_stream p))%N) as [Hm|Hm].
    { destruct (P6 _ _ _ Hs Hneed Hm) as [(x & Hx & Hxm)|]; [left|by right]. exists x. split; [apply elem_of_app; by left|done]. }
    destruct (decide (o < from)%N) as [Hf|Hf]; [destruct (Hcov o e Hneed Hf); [lia|by right]|]. left.
    assert (o < next)%N by (destruct Hlast as [?|(r & Hr & E)]; [lia|]; destruct (sn_range _ _ _ _ _ Hsent r Hr); lia).
    destruct (needed_range _ _ _ _ _ HC (uplinkStreams_streams _ Hs) Hneed). pose proof (ci_bounds _ _ (inv_counter _ HC _ (uplinkStreams_streams _ Hs))).
    destruct (Happ (to_repl (storedRecord o e))) as (x & Hx & Hxm).
    + apply (sn_carried _ _ _ _ _ Hsent); [done|lia].
    + done.
    + apply storedRecord_origin. lia.
    + apply (rises_live (pu_stream p)), Hneed.
    + cbn. lia.
    + exists x. split; [apply elem_of_app; by right|done].
Qed.

Lemma good_serve y p busy fj fa fi mint now s' ans applied : good y -> p ∈ y_pushes y ->
  handleReplicate busy fj fa fi mint now contracts child mount p (bk_store (y_parent y)) = (s', ans, applied) ->
  good (mkSys (y_child y) (y_client y) (y_wait y) (y_aside y)
          (mkBackup s' (fun stream => bk_applied (y_parent y) stream ++ if stream == pu_stream p then applied else []))
          (y_backups y) (y_pushes y) ((p, ans) :: y_answers y) (y_hellos y)).
Proof.
  intros G Hp E. pose proof (gd_parents _ G (y_parent y) ltac:(left)) as Hb. pose proof (gd_pushes _ G p Hp) as Hpo.
  pose proof Hb as [P1 P2 P3 P4 P5 P6]. pose proof Hpo as [Q1 Q2 Q3 Q4 _].
  pose proof (handleReplicate_spec busy fj fa fi mint now contracts child mount p (bk_store (y_parent y))) as Hr. rewrite E, Q1 in Hr.
  specialize (Hr P1 (gd_id _ G) Q2 P2 (P3 _ Q3)). destruct Hr as [R1 R2 R3 R4].
  { intros Hz. destruct (decide (pu_acked p = 0%N)) as [|Hne]; [done|]. by destruct (Q4 Hne). }
  apply (good_parent y _ [(p, ans)] []); [done|..|by intros ? ?%elem_of_nil]; cbn [bk_store].
  - destruct R4 as [(Hn & -> & Hm)|R4].
    + destruct Hb as [B1 B2 B3 B4 B5 B6]. rewrite Q1 in R2.
      assert (Hmk : forall stream, mark s' child stream = mark (bk_store (y_parent y)) child stream).
      { intros stream. destruct (decide (stream = pu_stream p)) as [->|]; [done|by apply R3]. }
      split; cbn [bk_store bk_applied]; [done| | |intros stream; rewrite Hmk..].
      * destruct R2 as [-> | ->]; [done|by right].
      * intros stream Hs. rewrite Hmk. intros Hz. destruct R2 as [-> | ->]; [by eapply B3|done].
      * apply B4.
      * intros Hs. case_bool_decide; rewrite app_nil_r; by apply B5.
      * intros o e. case_bool_decide; rewrite app_nil_r; apply B6.
    + eapply parent_ok_took; [apply (gd_inv _ G)|done|done|]. split; [done|done|done|]. right. destruct R4 as [_ R4]. split; [done|exact R4].
  - intros stream Hs. unfold marks. destruct (decide (stream = pu_stream p)) as [->|Hne]; [|by rewrite R3].
    destruct R4 as [(_ & _ & ->)|(_ & _ & _ & _ & _ & Hle & _)]; [done|]. lia.
  - intros pa ->%list_elem_of_singleton h Eh _. cbn [fst snd] in *. destruct R4 as [(Hn & _)|R4]; [by destruct (Hn h)|].
    destruct (parent_ok_took (y_child y) (y_aside y) (marks y) (y_parent y) p s' applied) as ([_ _ _ H4 _ _] & H2 & H3);
      [apply (gd_inv _ G)|done|done| |].
    { split; [done|done|done|]. right. destruct R4 as [_ R4]. split; [done|exact R4]. }
    destruct R4 as [R4 _]. rewrite R4 in Eh. injection Eh as <-. split; [done|]. split; [by apply H4|done].
Qed.

Lemma good_hello y g fj fa fc mint now ms s' h : good y -> gr_store g = id (y_child y) ->
  handleHello fj fa fc mint now ms child g (bk_store (y_parent y)) = (s', h) ->
  good (mkSys (y_child y) (y_client y) (y_wait y) (y_aside y) (mkBackup s' (bk_applied (y_parent y))) (y_backups y) (y_pushes y)
          (y_answers y) (match h with Some h => [h] | None => [] end ++ y_hellos y)).
Proof.
  intros G Hg E. pose proof (gd_parents _ G (y_parent y) ltac:(left)) as [P1 P2 P3 P4 P5 P6].
  pose proof (handleHello_spec fj fa fc mint now ms child g (bk_store (y_parent y)) P1) as Hs. rewrite E, Hg in Hs.
  destruct (Hs (gd_id _ G) P2) as (S1 & S2 & S3 & S4 & _). clear Hs.
  apply (good_parent y (mkBackup s' (bk_applied (y_parent y))) []); [done|..|by intros ? ?%elem_of_nil|]; cbn [bk_store].
  - split; cbn [bk_store bk_applied]; [done| | |intros stream; rewrite S2; apply P4|intros stream; rewrite S2; apply P5|intros stream; rewrite S2; apply P6].
    + destruct S3 as [-> | ->]; [done|by right].
    + intros stream Hst. rewrite S2. intros Hz. destruct S3 as [-> | ->]; [by eapply P3|done].
  - intros stream _. by rewrite S2.
  - intros h' Hh' stream Hst. destruct h as [h|]; [|by apply elem_of_nil in Hh']. apply list_elem_of_singleton in Hh' as ->.
    rewrite (S4 h stream eq_refl Hst). cbn. split; [by apply P4|]. by rewrite S2.
Qed.

Lemma good_settle y h fo fr fc mint now ms t cl' st' ok : good y -> h ∈ y_hellos y ->
  settle fo fr fc mint now ms t h (y_client y) (y_child y) = (cl', st', ok) ->
  good (mkSys st' cl' (y_wait y) (y_aside y) (y_parent y) (y_backups y) (y_pushes y) (y_answers y) (y_hellos y)).
Proof.
  intros G Hh E. pose proof (gd_hellos _ G h Hh) as Ht.
  destruct (settle_spec _ _ _ _ _ _ _ _ _ _ _ _ _ (fun stream Hs => proj1 (Ht stream Hs)) E) as [[Hp Hst] _]. rewrite (gd_pub _ G) in *.
  destruct Hst as [[He [Hlink Hpos]]|[He [Hlink Hpos]]]; pose proof (lives_link _ _ (gd_inv _ G) Hlink) as Hl;
    destruct (link_only_fields _ _ Hlink) as (_ & Hnx & _); apply (good_child y st' cl' (y_wait y) (y_aside y) []); try done; try (by intros p ?%elem_of_nil).
  - intros stream Hs. eapply stream_ok_lives; [done|done|done|by rewrite Hpos|by apply (gd_stream _ G)].
  - intros stream w Hw. eapply wait_ok_lives; [done|done|by rewrite Hpos|left; by rewrite Hpos|by apply (gd_wait _ G)].
  - intros stream Hs. unfold stream_ok. rewrite Hpos, Hnx. unfold resynced. rewrite decide_True by done.
    pose proof (gd_stream _ G stream Hs) as Hso. unfold stream_ok in Hso. cbn [position] in Hso. destruct Hso as (S1 & _ & _).
    destruct (Ht stream Hs) as [T1 T2]. split_and!; [|intros o e Hn Ho; left|done].
    + etrans; [apply replay_from_le|done].
    + apply (needed_only _ _ _ _ _ _ Hlink) in Hn. pose proof (needed_range _ _ _ _ _ (gd_inv _ G) (uplinkStreams_streams _ Hs) Hn).
      eapply replay_from_held. split; [|exact Ho]. lia.
  - intros stream w Hw. pose proof (gd_wait _ G _ _ Hw) as W. assert (Hs : stream ∈ uplinkStreams) by (unfold wait_ok in W; destruct (position _ _ _); tauto).
    eapply wait_ok_lives; [done|done| | |exact W]; [|right; lia]. rewrite Hpos. unfold resynced. rewrite decide_True by done. apply replay_from_le.
Qed.

(** *** A restart *)

Lemma prepare_loop_stands f ms sts st st' ok : (forall stream, stream ∈ sts -> CursorGet st "uplink" stream <= 1)%N ->
  prepare_loop f ms (UplinkCursor pub) sts st = (st', ok) ->
  exists g, stands pub st st' g /\ forall stream, snd (g stream) = snd (position pub st stream)
    /\ (fst (g stream) = fst (position pub st stream) \/ fst (g stream) = LWM st stream).
Proof.
  revert st. induction sts as [|stream sts IH]; intros st Hleg E; cbn [prepare_loop] in E.
  { injection E as <- <-. exists (position pub st). split; [apply stands_refl|]. intros stream. by split; [|left]. }
  assert (Hsts : forall stream', stream' ∈ sts -> (CursorGet st "uplink" stream' <= 1)%N) by (intros; apply Hleg; by right).
  destruct (1 <? _)%N; [by apply IH|]. unfold adoptLegacy in E. cbv zeta in E. rewrite (proj2 (N.leb_le _ _) (Hleg stream ltac:(left))) in E.
  destruct (CursorSetIfAbsent _ _ _ _ _ _) as [st1 r] eqn:Ec. pose proof (CursorSetIfAbsent_only f ms (UplinkCursor pub) stream (LWM st stream) st) as Ho.
  rewrite Ec in Ho. cbn [fst] in Ho. apply CursorSetIfAbsent_eq in Ec. destruct r as [[]|e].
  2: { destruct Ec as [-> _]. by apply IH. }
  2: { injection E as <- <-. subst st1. exists (position pub st). split; [apply stands_refl|]. intros stream'. by split; [|left]. }
  destruct Ec as [Hnone ->]. set (st1 := set_db _ st) in *.
  assert (Hpos : forall stream', position pub st1 stream' = with_at (position pub st) stream (LWM st stream, snd (position pub st stream)) stream').
  { intros stream'. unfold position, with_at, CursorGet, AckedMark. unfold st1. store_simpl. rewrite !readU64_insert.
    rewrite !(decide_False (P := ctKey _ _ = _)) by done. rewrite (decide_False (P := cursorKey _ _ = ackedKey _ _)) by done.
    unfold cursorKey at 1 2. case_decide as Hd; case_decide as Hd'; [by subst|by injection Hd as ->|by subst; destruct Hd|done]. }
  destruct (IH st1) as (g & Hg & Hg'); [|done|].
  - intros stream' Hs'. unfold CursorGet, st1. store_simpl. rewrite !readU64_insert, !decide_False by done. by apply Hsts.
  - exists g. split; [destruct Hg as [L1 L2]; split; [|done]; eapply link_only_trans; [by apply cursor_only_link|done]|].
    intros stream'. destruct (Hg' stream') as [G1 G2]. rewrite Hpos in G1, G2. unfold with_at in G1, G2.
    change (LWM st1 stream') with (LWM st stream') in G2. case_decide; [subst|done]. split; [done|]. destruct G2; by right.
Qed.

Lemma good_restart y f ms st' cl' : good y -> (forall stream, stream ∈ uplinkStreams -> CursorGet (y_child y) "uplink" stream <= 1)%N ->
  PrepareUplink f ms pub (y_child y) = (st', Ok cl') ->
  good (mkSys st' cl' ∅ (y_aside y) (y_parent y) (y_backups y) (y_pushes y) (y_answers y) (y_hellos y)).
Proof.
  intros G Hleg E. unfold PrepareUplink in E. destruct (loadState pub (y_child y)) as [cl|] eqn:El; [|done].
  destruct (prepare_loop _ _ _ _ _) as [st1 [[]|]] eqn:Ep; [|done]. injection E as <- <-.
  destruct (prepare_loop_stands _ _ _ _ _ _ Hleg Ep) as (g & [Hlink Hpos] & Hg). pose proof (lives_link _ _ (gd_inv _ G) Hlink) as Hl.
  destruct (link_only_fields _ _ Hlink) as (_ & Hnx & _). apply (good_child y st1 cl ∅ (y_aside y) []); try done; [|..|by intros p ?%elem_of_nil].
  - unfold loadState in El. destruct (ParentState _ _) as [raw|]; [destruct (dec_state raw); [|done]|]; by injection El as <-.
  - intros stream Hs. unfold stream_ok. pose proof (gd_stream _ G stream Hs) as Hso. unfold stream_ok in Hso. rewrite Hpos, Hnx.
    destruct (Hg stream) as [G1 G2]. destruct (position pub (y_child y) stream) as [c a]. destruct (g stream) as [c' a']. cbn [fst snd] in *. subst a'.
    destruct Hso as (S1 & S2 & S3). pose proof (ci_bounds _ _ (inv_counter _ (gd_inv _ G) stream (uplinkStreams_streams _ Hs))) as Hb.
    split_and!; [destruct G2; subst; lia| |done]. intros o e Hn Ho. apply (needed_only _ _ _ _ _ _ Hlink) in Hn.
    pose proof (needed_range _ _ _ _ _ (gd_inv _ G) (uplinkStreams_streams _ Hs) Hn). apply (S2 o e Hn). destruct G2; subst; lia.
Qed.

Lemma good_start y : start y -> good y.
Proof.
  intros [S1 S2 S3 S4 S5 S6 S7 S8 S9 S10 (S11 & S12 & S13 & S14)]. split; [done|done|done|..]; rewrite ?S9, ?S11, ?S12, ?S13, ?S14.
  - intros stream Hs. destruct (S7 stream Hs) as [C1 C2]. unfold stream_ok. destruct (position pub (y_child y) stream) as [c a]. cbn [fst snd] in *. subst a.
    pose proof (ci_bounds _ _ (inv_counter _ S1 stream (uplinkStreams_streams _ Hs))). split_and!; [lia| |done].
    intros o e Hn Ho. pose proof (needed_range _ _ _ _ _ S1 (uplinkStreams_streams _ Hs) Hn). lia.
  - intros b ->%list_elem_of_singleton. split; [done|done|by intros stream _; rewrite S5|..]; intros stream.
    + intros Hs. rewrite S5. pose proof (ci_bounds _ _ (inv_counter _ S1 stream (uplinkStreams_streams _ Hs))). lia.
    + intros Hs. rewrite S6. split; constructor.
    + intros o e Hs Hn. rewrite S5. pose proof (needed_range _ _ _ _ _ S1 (uplinkStreams_streams _ Hs) Hn).
      pose proof (ci_bounds _ _ (inv_counter _ S1 stream (uplinkStreams_streams _ Hs))). lia.
  - by intros p ?%elem_of_nil.
  - by intros p ?%elem_of_nil.
  - by intros p ?%elem_of_nil.
  - done.
Qed.

Lemma good_idle y stream : good y ->
  good (mkSys (y_child y) (y_client y) (delete stream (y_wait y)) (y_aside y) (y_parent y) (y_backups y) (y_pushes y) (y_answers y) (y_hellos y)).
Proof. intros [G1 G2 G3 G4 G5 G6 G7 G8 G9]. split; try done. cbn [y_wait]. intros stream' w [_ Hw]%lookup_delete_Some. by apply G9. Qed.

#[local] Hint Resolve good_child_step good_parent_step good_backup good_send good_past good_answer good_idle good_serve good_hello good_settle
  good_restart good_start : uplink.

Lemma reach_good y : reach y -> good y.
Proof. induction 1 as [y Hs|y y' _ IH Hst]; [eauto with uplink|]. destruct Hst; eauto with uplink. Qed.

(** ** Theorems *)


(** C24: the parent applies what rises in order and once. In every such run, the records
    of a stream that the parent's present history applied have increasing offsets of the
    child, none past the mark it keeps; so no offset was applied twice, however often
    pages were sent, and the mark a child is told is never past its own head. *)
Theorem uplink_in_order y stream :
  reach y -> stream ∈ uplinkStreams ->
  let applied := bk_applied (y_parent y) stream in
  let m := mark (bk_store (y_parent y)) child stream in
  increasing applied /\ Forall (fun a => rp_ChildOffset a <= m)%N applied /\ NoDup (rp_ChildOffset <$> applied)
  /\ (m < NextOffset (y_child y) stream)%N.
Proof.
  intros G%reach_good Hs. pose proof (gd_parents _ G (y_parent y) ltac:(left)) as Hp. destruct (pk_order _ _ _ Hp stream Hs) as [Hi Hf].
  split_and!; [done|done| |by apply (pk_head _ _ _ Hp)]. clear Hf. induction Hi as [|a l _ IH Ha]; [constructor|]. apply NoDup_cons. split; [|done].
  intros (b & Hb & Hin)%list_elem_of_fmap. rewrite Forall_forall in Ha. specialize (Ha b Hin). lia.
Qed.

Lemma uplinkStreams_NoDup : NoDup uplinkStreams.
Proof. apply (bool_decide_eq_true (NoDup uplinkStreams)). by vm_compute. Qed.

(** The parent reads the child's marks off its greeting. *)
Lemma greet_marks cl st stream : (forall stream', stream' ∈ uplinkStreams -> AckedMark st (cl_parentPub cl) stream' < 2 ^ 64)%N ->
  parseAcked (gr_acked (greet cl st)) !! stream
  = if decide (stream ∈ uplinkStreams /\ AckedMark st (cl_parentPub cl) stream <> 0%N) then Some (AckedMark st (cl_parentPub cl) stream) else None.
Proof.
  intros Hw. unfold greet. cbn [gr_acked]. set (m := list_to_map _). assert (Hm : forall s n, m !! s = Some n <-> s ∈ uplinkStreams /\ n = AckedMark st (cl_parentPub cl) s).
  { intros s n. unfold m. rewrite <- elem_of_list_to_map.
    - rewrite list_elem_of_fmap. split; [intros (x & [= -> ->] & Hx); done|]. intros [Hs ->]. by exists s.
    - rewrite <- list_fmap_compose. change (fst ∘ _) with (fun s : string => s). rewrite list_fmap_id. apply uplinkStreams_NoDup. }
  rewrite parseAcked_format.
  - apply option_eq. intros n. rewrite map_lookup_filter_Some, Hm. cbn [snd]. case_decide as Hd.
    + destruct Hd as [Hs Hz]. split; [intros [[_ ->] _]; done|]. intros [= <-]. split; [done|lia].
    + split; [|done]. intros [[Hs ->] Hz]. destruct Hd. split; [done|lia].
  - intros s n [Hs ->]%Hm. split; [by apply uplinkStreams_uplink|by apply Hw].
Qed.


End run.

(** ** A small instance *)

Section examples.
#[local] Existing Instance demo_codec.

(** Documents as the bits of a code of them. *)
Fixpoint bits (p : positive) : string :=
  match p with xH => "" | xO p => String "0"%char (bits p) | xI p => String "1"%char (bits p) end.

Fixpoint unbits (s : string) : positive :=
  match s with "" => xH | String c s => if c == "0"%char then xO (unbits s) else xI (unbits s) end.

Lemma unbits_bits p : unbits (bits p) = p.
Proof. induction p as [p IH|p IH|]; simpl; [by rewrite IH..|done]. Qed.

#[local] Instance ResyncState_countable : Countable ResyncState.
Proof.
  apply (inj_countable' (fun s => match s with resyncReplaying => true | resyncComplete => false end)
    (fun b => if b : bool then resyncReplaying else resyncComplete)). by intros [].
Defined.

#[local] Instance ResyncRange_eq_dec : EqDecision ResyncRange.
Proof. solve_decision. Defined.
#[local] Instance ResyncRange_countable : Countable ResyncRange.
Proof. apply (inj_countable' (fun g => (rg_From g, rg_To g)) (fun x => mkResyncRange x.1 x.2)). by intros []. Defined.

#[local] Instance ResyncGap_eq_dec : EqDecision ResyncGap.
Proof. solve_decision. Defined.
#[local] Instance ResyncGap_countable : Countable ResyncGap.
Proof. apply (inj_countable' (fun g => (gp_Stream g, gp_From g, gp_To g)) (fun x => mkResyncGap x.1.1 x.1.2 x.2)). by intros []. Defined.

#[local] Instance Resync_eq_dec : EqDecision Resync.
Proof. solve_decision. Defined.
#[local] Instance Resync_countable : Countable Resync.
Proof.
  apply (inj_countable' (fun r => (rs_State r, rs_Reason r, rs_ParentStore r, rs_PreviousParentStore r, rs_Started r,
    (rs_Completed r, rs_Streams r, rs_Gaps r, rs_CommandsRehandedBelow r)))
    (fun x => let '(a, b, c, d, e, (f, g, h, i)) := x in mkResync a b c d e f g h i)). by intros [].
Defined.

#[local] Instance parentState_eq_dec : EqDecision parentState.
Proof. solve_decision. Defined.
#[local] Instance parentState_countable : Countable parentState.
Proof. apply (inj_countable' (fun s => (ps_Store s, ps_Resync s)) (fun x => mkParentState x.1 x.2)). by intros []. Defined.

#[local] Instance recEnc_countable : Countable recEnc.
Proof.
  apply (inj_countable' (fun e => (e_SourceLocalOnly e, e_Topic e, e_Payload e, e_TS e, e_WrittenBy e, e_OriginOffset e,
      (e_ActorID e, e_ActorLabel e, e_ActorKind e, e_ActorGroups e, e_ActorClient e, e_ActorEmail e,
       (e_ActorClasses e, e_ActorCredential e, e_Door e, e_SignalID e))))
    (fun x => let '(a, b, c, d, e, f, (g, h, i, j, k, l, (m, n, o, p))) := x in mkRecEnc a b c d e f g h i j k l m n o p)). by intros [].
Defined.

#[local] Instance StoredRecord_eq_dec : EqDecision StoredRecord.
Proof. solve_decision. Defined.
#[local] Instance StoredRecord_countable : Countable StoredRecord.
Proof. apply (inj_countable' (fun r => (sr_Offset r, sr_OriginOffset r, sr_rec r)) (fun x => mkStored x.1.1 x.1.2 x.2)). by intros []. Defined.

#[local] Instance SetAside_eq_dec : EqDecision SetAsideRecord.
Proof. solve_decision. Defined.
#[local] Instance SetAside_countable : Countable SetAsideRecord.
Proof.
  apply (inj_countable' (fun r => (as_Parent r, as_Stream r, as_Offset r, as_Record r, (as_Status r, as_Reason r, as_HeldSinceMS r, as_AtMS r)))
    (fun x => let '(a, b, c, d, (e, f, g, h)) := x in mkSetAside a b c d e f g h)). by intros [].
Defined.

Definition demo_link : LinkCodec.
Proof.
  refine {| enc_state := fun s => bits (countable.encode s); dec_state := fun s => countable.decode (unbits s);
            enc_aside := fun r => bits (countable.encode r); dec_aside := fun s => countable.decode (unbits s) |};
    intros x; by rewrite unbits_bits, countable.decode_encode.
Defined.

#[local] Existing Instance demo_link.

(** A child with three alarms and a parent that knows nothing of it. *)
Definition demo_logs : logForwarding := mkLogForwarding 0 ∅.
Definition demo_alarm (n : string) : Rec := demo_rec ("colca/v1/_AlarmStateChange/n1/line/" +:+ n) n "" "" false.
Definition demo_child : Store := put_records "alarms" [demo_alarm "a"; demo_alarm "b"; demo_alarm "c"] (fresh "child-store").
Definition demo_client : Client := mkClient "pk" (mkParentState "" None) 0 false false.
Definition demo_y0 : Sys :=
  mkSys demo_child demo_client ∅ (fun _ _ => False) (mkBackup (fresh "parent-store") (fun _ => [])) [] [] [] [].

Lemma demo_child_inv : Inv demo_child.
Proof. apply put_records_inv; [tag_in|apply fresh_inv]. Qed.

Lemma demo_positions : Forall (fun stream => (fst (position "pk" demo_child stream) <= LWM demo_child stream)%N
  /\ snd (position "pk" demo_child stream) = 0%N) uplinkStreams.
Proof. apply (bool_decide_eq_true_1 (Forall _ _)). vm_compute. reflexivity. Qed.

Lemma fresh_start child pub client C mint : Inv C -> id C <> "" -> cl_parentPub client = pub ->
  Forall (fun stream => (fst (position pub C stream) <= LWM C stream)%N /\ snd (position pub C stream) = 0%N) uplinkStreams ->
  start child pub (mkSys C client ∅ (fun _ _ => False) (mkBackup (fresh mint) (fun _ => [])) [] [] [] []).
Proof.
  intros HI Hid Hc Hp. split; cbn [y_child y_parent y_client y_wait y_aside y_backups y_pushes y_answers y_hellos bk_store bk_applied].
  - exact HI.
  - apply fresh_inv.
  - exact Hid.
  - left. unfold ChildStore. rewrite fresh_lookup, decide_False by done. done.
  - intros stream. unfold mark, readU64. rewrite fresh_lookup, decide_False by done. done.
  - done.
  - by apply Forall_forall.
  - exact Hc.
  - done.
  - by intros stream o [].
  - done.
Qed.

Lemma demo_start : start "e1" "pk" demo_y0.
Proof. apply fresh_start; [apply demo_child_inv|vm_compute; discriminate|reflexivity|apply demo_positions]. Qed.

(** One round of a lane: a page of at most [n] records goes out, is stored and answered. *)
Definition demo_send (n : N) (y : Sys) :=
  pushStart no_faults 5 demo_logs (fun p => N.of_nat (length (pu_recs p))) n (mkLaneHold 0 0 0) (y_client y) "alarms" (y_child y).
Definition demo_sent (n : N) (y : Sys) : Sys :=
  mkSys (fst (demo_send n y)) (y_client y) (<["alarms" := (cl_epoch (y_client y), snd (demo_send n y))]> (y_wait y)) (y_aside y) (y_parent y)
    (y_backups y) (push_out (snd (demo_send n y)) ++ y_pushes y) (y_answers y) (y_hellos y).

Definition demo_reply (p : Push) (y : Sys) :=
  handleReplicate false no_faults no_faults no_faults "m" 9 None "e1" "plant" p (bk_store (y_parent y)).
Definition demo_served (p : Push) (y : Sys) : Sys :=
  mkSys (y_child y) (y_client y) (y_wait y) (y_aside y)
    (mkBackup (fst (fst (demo_reply p y))) (fun stream => bk_applied (y_parent y) stream ++ if stream == pu_stream p then snd (demo_reply p y) else []))
    (y_backups y) (y_pushes y) ((p, snd (fst (demo_reply p y))) :: y_answers y) (y_hellos y).

Definition demo_ack (p : Push) (next : N) (recs : list StoredRecord) (a : PushAnswer) (y : Sys) :=
  pushAnswer no_faults no_faults no_faults "m" 9 5 0 600 (cl_epoch (y_client y)) p next recs (Some a) "" (mkLaneHold 0 0 0) (y_client y) (y_child y).
Definition demo_acked (p : Push) (next : N) (recs : list StoredRecord) (a : PushAnswer) (y : Sys) : Sys :=
  mkSys (snd (fst (demo_ack p next recs a y))) (fst (fst (demo_ack p next recs a y))) (delete "alarms" (y_wait y))
    (asides "pk" (snd (fst (demo_ack p next recs a y))) (y_aside y)) (y_parent y) (y_backups y) (y_pushes y) (y_answers y) (y_hellos y).

Definition demo_round (n : N) (y : Sys) : Sys :=
  match snd (demo_send n y) with
  | PushSend p next recs =>
      let y1 := demo_sent n y in
      demo_acked p next recs (snd (fst (demo_reply p y1))) (demo_served p y1)
  | _ => y
  end.

Abbreviation demo_reach := (reach demo_logs None "e1" "plant" "pk").

Lemma pair_eta {A B} (x : A * B) : x = (fst x, snd x).
Proof. by destruct x. Qed.

Lemma triple_eta {A B C} (x : A * B * C) : x = (fst (fst x), snd (fst x), snd x).
Proof. by destruct x as [[] ?]. Qed.

Lemma demo_round_reach n y : demo_reach y -> y_wait y !! "alarms" = None -> cl_parentPub (y_client y) = "pk" -> demo_reach (demo_round n y).
Proof.
  intros Hr Hw Hp. unfold demo_round. destruct (snd (demo_send n y)) as [| |p next recs] eqn:E; [done|done|]. cbv zeta.
  assert (H1 : demo_reach (demo_sent n y)).
  { eapply reach_step; [exact Hr|]. eapply (step_send _ _ _ _ _ y (y_client y) "alarms"); [tag_in|done|done|done|exact (pair_eta (demo_send n y))]. }
  assert (H2 : demo_reach (demo_served p (demo_sent n y))).
  { eapply reach_step; [exact H1|]. eapply (step_serve _ _ _ _ _ (demo_sent n y) p false no_faults no_faults no_faults "m" 9);
      [|exact (triple_eta (demo_reply p (demo_sent n y)))]. cbn [y_pushes demo_sent]. rewrite E. left. }
  eapply reach_step; [exact H2|]. eapply (step_answer _ _ _ _ _ (demo_served p (demo_sent n y)) "alarms" (cl_epoch (y_client y)) p next recs
    (Some (snd (fst (demo_reply p (demo_sent n y)))))); [| |exact (triple_eta (demo_ack p next recs (snd (fst (demo_reply p (demo_sent n y)))) (demo_served p (demo_sent n y))))].
  - cbn [y_wait demo_served demo_sent]. rewrite lookup_insert_eq, E. reflexivity.
  - intros a [= <-]. left.
Qed.

(** A first record rises, the parent's store is copied, the other two rise, and the copy
    is put back. *)
Definition demo_y1 : Sys := demo_round 1 demo_y0.
Definition demo_y2 : Sys :=
  mkSys (y_child demo_y1) (y_client demo_y1) (y_wait demo_y1) (y_aside demo_y1) (y_parent demo_y1) (y_parent demo_y1 :: y_backups demo_y1)
    (y_pushes demo_y1) (y_answers demo_y1) (y_hellos demo_y1).
Definition demo_y3 : Sys := demo_round 10 demo_y2.
Definition demo_y4 : Sys :=
  mkSys (y_child demo_y3) (y_client demo_y3) (y_wait demo_y3) (y_aside demo_y3) (mkBackup (bk_store (y_parent demo_y1)) (bk_applied (y_parent demo_y1)))
    (y_backups demo_y3) (y_pushes demo_y3) (y_answers demo_y3) (y_hellos demo_y3).

Lemma demo_y3_reach : demo_reach demo_y3.
Proof.
  apply demo_round_reach; [|vm_compute; reflexivity|vm_compute; reflexivity]. eapply reach_step; [|apply step_backup].
  apply demo_round_reach; [|vm_compute; reflexivity|vm_compute; reflexivity]. apply reach_start, demo_start.
Qed.

Lemma demo_round_backups n y : y_backups (demo_round n y) = y_backups y.
Proof. unfold demo_round. by destruct (snd (demo_send n y)). Qed.

Lemma demo_marked : Forall (fun stream => mark (bk_store (y_parent demo_y3)) "e1" stream <> 0%N -> mark (bk_store (y_parent demo_y1)) "e1" stream <> 0%N) uplinkStreams.
Proof. apply (bool_decide_eq_true_1 (Forall _ _)). vm_compute. reflexivity. Qed.

Lemma demo_y4_reach : demo_reach demo_y4.
Proof.
  eapply reach_step; [exact demo_y3_reach|]. apply (step_parent _ _ _ _ _ demo_y3 (y_parent demo_y1)).
  - right. unfold demo_y3. rewrite demo_round_backups. left.
  - apply Kept_refl. eapply pk_inv, (gd_parents _ _ _ _ _ (reach_good _ _ _ _ _ _ demo_y3_reach)). right. unfold demo_y3. rewrite demo_round_backups. left.
  - pose proof demo_marked as Hm. rewrite Forall_forall in Hm. exact Hm.
Qed.

Definition demo_third : recEnc := encode_rec 3 (demo_alarm "c").

Lemma demo_third_needed : needed demo_logs (y_child demo_y3) "alarms" 3 demo_third.
Proof. split; vm_compute; reflexivity. Qed.

Lemma demo_y3_cursor : CursorGet (y_child demo_y3) (UplinkCursor "pk") "alarms" = 4%N.
Proof. vm_compute. reflexivity. Qed.

Lemma alarms_rise : "alarms" ∈ uplinkStreams.
Proof. unfold uplinkStreams. cbn [priorityLanes fmap list_fmap fst app]. tag_in. Qed.


Lemma uplink_in_order_witness :
  (rp_ChildOffset <$> bk_applied (y_parent demo_y3) "alarms") = [1; 2; 3]%N /\ NoDup (rp_ChildOffset <$> bk_applied (y_parent demo_y3) "alarms").
Proof.
  split; [vm_compute; reflexivity|].
  exact (proj1 (proj2 (proj2 (uplink_in_order demo_logs None "e1" "plant" "pk" demo_y3 "alarms" demo_y3_reach alarms_rise)))).
Defined.

Lemma demo_y4_behind : (mark (bk_store (y_parent demo_y4)) "e1" "alarms" < AckedMark (y_child demo_y4) "pk" "alarms")%N.
Proof. vm_compute. reflexivity. Qed.

Lemma demo_y4_width : Forall (fun stream => AckedMark (y_child demo_y4) "pk" stream < 2 ^ 64)%N uplinkStreams.
Proof.
  unfold uplinkStreams. cbn [priorityLanes fmap list_fmap fst app].
  repeat (apply Forall_cons; split; [apply N.ltb_lt; vm_compute; reflexivity|]). apply Forall_nil. exact I.
Qed.

Lemma demo_y4_id : id (bk_store (y_parent demo_y4)) = "parent-store".
Proof. vm_compute. reflexivity. Qed.


End examples.
