(* ===== verification/Ledger.v ===== *)
(** * The command ledger and the other short memories of the engine

    [internal/engine/ledger.go]: per correlation id, who sent a command and the answer it
    got, so that a command sent again is answered and not run again, and an answer
    reaches only who asked. [answeredHere] of [queued.go] and [auditRepeats] of
    [audit_repeats.go] are memories of the same kind: bounded, in memory, under one
    mutex. The theorems are about every sequence of operations on them. Times are
    nanoseconds. *)

From S2P Require Export Prelude.
From Stdlib Require Import Ascii.

Open Scope string_scope.
Open Scope list_scope.
Open Scope go_scope.

(** ** The ledger *)

Definition ledgerWindow : Z := 10 * 60 * 1000000000.
Definition ledgerLimit : nat := 16384.
Definition refusalLimit : nat := 16.

Record refusal := mkRefusal { rf_actor : string; rf_ack : string }.

#[export] Instance refusal_eq_dec : EqDecision refusal.
Proof. solve_decision. Defined.

(** An ack that is nil is [None]. *)
Record ledgerEntry := mkLedgerEntry {
  le_actor : string;
  le_at : Z;
  le_ackTopic : string;
  le_ack : option string;
  le_refused : list refusal;
}.

Record commandLedger := mkLedger { lg_entries : gmap string ledgerEntry; lg_order : list (string * Z) }.

Definition newCommandLedger : commandLedger := mkLedger ∅ [].

Inductive ledgerVerdict := ledgerNew | ledgerRepeat | ledgerForeignUse.

#[export] Instance ledgerVerdict_eq_dec : EqDecision ledgerVerdict.
Proof. solve_decision. Defined.

(** The loop of [expire]. *)
Fixpoint expire_loop (now : Z) (entries : gmap string ledgerEntry) (order : list (string * Z)) : commandLedger :=
  match order with
  | [] => mkLedger entries []
  | (id, at_) :: rest =>
      if (now - at_ <? ledgerWindow)%Z && (size entries <? ledgerLimit)%nat then mkLedger entries order
      else
        let entries := match entries !! id with
                       | Some held => if le_at held == at_ then delete id entries else entries
                       | None => entries
                       end in
        expire_loop now entries rest
  end.

Definition expire (now : Z) (l : commandLedger) : commandLedger := expire_loop now (lg_entries l) (lg_order l).

(** [commandLedger.admit]; [now] is the clock, read under the mutex. *)
Definition ledger_admit (now : Z) (id actor : string) (l : commandLedger) : commandLedger * (ledgerVerdict * string * option string) :=
  let l := expire now l in
  match lg_entries l !! id with
  | Some held =>
      if le_actor held != actor then (l, (ledgerForeignUse, "", None))
      else (l, (ledgerRepeat, le_ackTopic held, le_ack held))
  | None =>
      (mkLedger (<[id := mkLedgerEntry actor now "" None []]> (lg_entries l)) (lg_order l ++ [(id, now)]), (ledgerNew, "", None))
  end.

Definition ledger_forget (id : string) (l : commandLedger) : commandLedger := mkLedger (delete id (lg_entries l)) (lg_order l).

(** What the ledger reads of JSON: a payload without its field [result], [None] when it
    does not decode or has none. *)
Class LedgerCodec := { json_drop_result : string -> option string }.

Definition quoted (s : string) : string := String (ascii_of_nat 34) (s +:+ String (ascii_of_nat 34) "").

Definition withoutResult `{LedgerCodec} (payload : string) : string :=
  if negb (Contains payload (quoted "result")) then payload else default payload (json_drop_result payload).

(** A copy of an empty payload is nil. *)
Definition copied (payload : string) : option string := if payload == "" then None else Some payload.

Definition acked `{LedgerCodec} (id topic payload : string) (l : commandLedger) : commandLedger :=
  let payload := withoutResult payload in
  match lg_entries l !! id with
  | Some held =>
      match le_ack held with
      | None => mkLedger (<[id := mkLedgerEntry (le_actor held) (le_at held) topic (copied payload) (le_refused held)]> (lg_entries l)) (lg_order l)
      | Some _ => l
      end
  | None => l
  end.

Definition refuse (id actor ack : string) (l : commandLedger) : commandLedger :=
  match lg_entries l !! id with
  | Some held =>
      let refused := if (refusalLimit <=? length (le_refused held))%nat then drop 1 (le_refused held) else le_refused held in
      mkLedger (<[id := mkLedgerEntry (le_actor held) (le_at held) (le_ackTopic held) (le_ack held) (refused ++ [mkRefusal actor ack])]> (lg_entries l))
        (lg_order l)
  | None => l
  end.

(** The loop of [recipient]: the refusal with these bytes, and the others. *)
Fixpoint take_refusal (payload : string) (refused : list refusal) : option (string * list refusal) :=
  match refused with
  | [] => None
  | r :: rest =>
      if rf_ack r == payload then Some (rf_actor r, rest)
      else match take_refusal payload rest with Some (actor, rest) => Some (actor, r :: rest) | None => None end
  end.

Definition recipient (id payload : string) (l : commandLedger) : commandLedger * string :=
  match lg_entries l !! id with
  | None => (l, "")
  | Some held =>
      match take_refusal payload (le_refused held) with
      | Some (actor, refused) =>
          (mkLedger (<[id := mkLedgerEntry (le_actor held) (le_at held) (le_ackTopic held) (le_ack held) refused]> (lg_entries l)) (lg_order l), actor)
      | None => (l, le_actor held)
      end
  end.

Definition lookup_ledger (id : string) (l : commandLedger) : string * string * option string :=
  match lg_entries l !! id with
  | Some held => (le_actor held, le_ackTopic held, le_ack held)
  | None => ("", "", None)
  end.

(** ** The ledger: runs *)

Section ledger.
Context `{LedgerCodec}.

(** An operation with what it answered. *)
Inductive levent :=
| Admit (now : Z) (id actor : string) (verdict : ledgerVerdict)
| Forget (id : string)
| Acked (id topic payload : string)
| Refuse (id actor ack : string)
| Recipient (id payload to_ : string).

#[export] Instance levent_eq_dec : EqDecision levent.
Proof. solve_decision. Defined.

Inductive lstep : commandLedger -> levent -> commandLedger -> Prop :=
| ls_admit now id actor l l' v topic ack : ledger_admit now id actor l = (l', (v, topic, ack)) -> lstep l (Admit now id actor v) l'
| ls_forget id l : lstep l (Forget id) (ledger_forget id l)
| ls_acked id topic payload l : lstep l (Acked id topic payload) (acked id topic payload l)
| ls_refuse id actor ack l : lstep l (Refuse id actor ack) (refuse id actor ack l)
| ls_recipient id payload l l' who : recipient id payload l = (l', who) -> lstep l (Recipient id payload who) l'.

(** What happened to a new ledger, oldest first. *)
Inductive lrun : list levent -> commandLedger -> Prop :=
| lr_new : lrun [] newCommandLedger
| lr_step log l ev l' : lrun log l -> lstep l ev l' -> lrun (log ++ [ev]) l'.

(** Some operations in a row. *)
Inductive lsteps : commandLedger -> list levent -> commandLedger -> Prop :=
| lss_nil l : lsteps l [] l
| lss_cons l ev l1 evs l2 : lstep l ev l1 -> lsteps l1 evs l2 -> lsteps l (ev :: evs) l2.

Lemma lsteps_app l evs l1 evs' l2 : lsteps l evs l1 -> lsteps l1 evs' l2 -> lsteps l (evs ++ evs') l2.
Proof. induction 1; [done|]. intros Hs. cbn [app]. eapply lss_cons; eauto. Qed.

Lemma lsteps_one l ev l' : lstep l ev l' -> lsteps l [ev] l'.
Proof. intros Hs. eapply lss_cons; [done|constructor]. Qed.

Lemma lsteps_app_inv l evs evs' l2 : lsteps l (evs ++ evs') l2 -> exists l1, lsteps l evs l1 /\ lsteps l1 evs' l2.
Proof.
  revert l. induction evs as [|ev evs IH]; intros l Hs; [exists l; split; [constructor|done]|]. inversion Hs as [|? ? l0 ? ? H1 H2]; subst.
  destruct (IH l0 H2) as (l1 & Ha & Hb). exists l1. split; [|done]. by eapply lss_cons.
Qed.

Lemma lrun_steps log l evs l' : lrun log l -> lsteps l evs l' -> lrun (log ++ evs) l'.
Proof.
  intros Hr Hs. revert log Hr. induction Hs as [l|l ev l1 evs l2 H1 _ IH]; intros log Hr; [by rewrite app_nil_r|].
  change (ev :: evs) with ([ev] ++ evs). rewrite app_assoc. apply IH. by eapply lr_step.
Qed.

(** The clock of a run does not go back. *)
Definition clock_of (ev : levent) : option Z := match ev with Admit now _ _ _ => Some now | _ => None end.
Definition clocks (log : list levent) : list Z := omap clock_of log.
Definition clock_ok (log : list levent) : Prop := StronglySorted Z.le (clocks log).

(** The ids taken as new, with when. *)
Definition new_key (ev : levent) : option (string * Z) := match ev with Admit now id _ ledgerNew => Some (id, now) | _ => None end.
Definition news (log : list levent) : list (string * Z) := omap new_key log.

(** How many since [t]. *)
Definition news_since (t : Z) (log : list levent) : nat := length (filter (fun k : string * Z => t <= k.2)%Z (news log)).

(** The answer kept for an id: the first one that is not empty. *)
Fixpoint first_ack (id : string) (log : list levent) : option string :=
  match log with
  | [] => None
  | Acked id' _ payload :: log => if id' == id then match copied (withoutResult payload) with Some a => Some a | None => first_ack id log end else first_ack id log
  | _ :: log => first_ack id log
  end.

(** *** The memory *)

(** Every entry has its key in the order, and the order goes by time. *)
Record ordered (entries : gmap string ledgerEntry) (order : list (string * Z)) : Prop := {
  od_keys : forall id e, entries !! id = Some e -> (id, le_at e) ∈ order;
  od_sorted : StronglySorted Z.le order.*2;
}.

Lemma ordered_size entries order : ordered entries order -> (size entries <= length order)%nat.
Proof.
  intros [Hk _]. rewrite <- length_map_to_list, <- (length_fmap fst), <- (length_fmap fst order).
  apply submseteq_length, NoDup_submseteq; [apply NoDup_fst_map_to_list|].
  intros i ([i' e] & -> & He%elem_of_map_to_list)%list_elem_of_fmap. apply list_elem_of_fmap. exists (i', le_at e). auto.
Qed.

Lemma later_keys t order : Forall (fun k : string * Z => t <= k.2)%Z order -> length (filter (fun k : string * Z => t <= k.2)%Z order) = length order.
Proof. induction 1 as [|k order Hk _ IH]; [done|]. rewrite filter_cons, decide_True by done. cbn [length]. by rewrite IH. Qed.

(** What expiry drops is old, or there is too much that came no earlier. *)
Lemma expire_loop_spec now entries order : ordered entries order ->
  let l := expire_loop now entries order in
  ordered (lg_entries l) (lg_order l) /\ lg_order l `suffix_of` order /\ lg_entries l ⊆ entries
  /\ forall id e, entries !! id = Some e ->
       lg_entries l !! id = Some e \/ (ledgerWindow <= now - le_at e)%Z
       \/ (ledgerLimit <= length (filter (fun k : string * Z => le_at e <= k.2)%Z order))%nat.
Proof.
  revert entries. induction order as [|[id at_] order IH]; intros entries Ho; cbn [expire_loop]; cbv zeta.
  { cbn [lg_order lg_entries]. split_and!; [done|done|done|auto]. }
  destruct (_ && _) eqn:Eb; [cbn [lg_order lg_entries]; split_and!; [done|done|done|auto]|].
  pose proof (ordered_size _ _ Ho) as Hsize. destruct Ho as [Hk Hs]. cbn [fmap list_fmap snd] in Hs. apply StronglySorted_inv in Hs as [Hs Hle].
  set (entries' := match entries !! id with Some held => if le_at held == at_ then delete id entries else entries | None => entries end).
  assert (Hsub : entries' ⊆ entries) by (unfold entries'; repeat case_match; [apply delete_subseteq|done|done]).
  assert (Hkeep : forall i e, entries !! i = Some e -> (i, le_at e) <> (id, at_) -> entries' !! i = Some e).
  { intros i e Hi Hne. unfold entries'. case_match eqn:Eh; [|done]. case_bool_decide as Ea; [|done].
    rewrite lookup_delete_ne; [done|]. intros ->. simplify_eq. }
  assert (Ho' : ordered entries' order).
  { split; [|done]. intros i e Hi. pose proof (Hk i e (lookup_weaken _ _ _ _ Hi Hsub)) as [Heq|?]%elem_of_cons; [|done].
    injection Heq as -> Heq. unfold entries' in Hi. rewrite (lookup_weaken _ _ _ _ Hi Hsub) in Hi. rewrite bool_decide_true in Hi by done.
    by rewrite lookup_delete_eq in Hi. }
  destruct (IH entries' Ho') as (H1 & H2 & H3 & H4). split_and!; [done|by apply suffix_cons_r|by etrans|].
  intros i e Hi. destruct (decide ((i, le_at e) = (id, at_))) as [[= -> ->]|Hne].
  - right. apply andb_false_iff in Eb as [Eb%Z.ltb_ge|Eb%Nat.ltb_ge]; [by left|right].
    rewrite later_keys; [lia|]. constructor; [done|]. by rewrite Forall_fmap in Hle.
  - destruct (H4 i e (Hkeep i e Hi Hne)) as [?|[?|Hl]]; [by left|by right; left|right; right].
    etrans; [exact Hl|]. rewrite filter_cons. case_decide; cbn [length]; lia.
Qed.

Lemma lrun_snoc log ev l' : lrun (log ++ [ev]) l' -> exists l, lrun log l /\ lstep l ev l'.
Proof.
  intros Hr. remember (log ++ [ev]) as log' eqn:E. destruct Hr as [|log0 l ev0 l' Hr Hs].
  - by destruct log.
  - apply app_inj_tail in E as [-> ->]. by exists l.
Qed.

Lemma omap_snoc {A B} (f : A -> option B) l x : omap f (l ++ [x]) = omap f l ++ match f x with Some y => [y] | None => [] end.
Proof. by rewrite omap_app. Qed.

Lemma clock_prefix log ev : clock_ok (log ++ [ev]) -> clock_ok log.
Proof. unfold clock_ok, clocks. rewrite omap_app. apply StronglySorted_app_1_l. Qed.

Lemma clock_last log now id actor v : clock_ok (log ++ [Admit now id actor v]) -> Forall (fun k : string * Z => k.2 <= now)%Z (news log).
Proof.
  unfold clock_ok, clocks. rewrite omap_snoc. cbn [clock_of]. intros Hs. apply Forall_forall. intros [i t] (ev & Hev & Hk)%list_elem_of_omap.
  destruct ev as [t' i' ? []| | | |]; simplify_eq/=. eapply StronglySorted_app_1_elem_of; [exact Hs| |by apply list_elem_of_singleton].
  apply list_elem_of_omap. by eexists _.
Qed.

(** An operation that admits nothing changes entries in place, or drops one. *)
Definition in_place (l l' : commandLedger) : Prop :=
  lg_order l' = lg_order l
  /\ forall i e', lg_entries l' !! i = Some e' -> exists e, lg_entries l !! i = Some e /\ le_at e' = le_at e /\ le_actor e' = le_actor e.

Lemma in_place_insert l id e e' : lg_entries l !! id = Some e -> le_at e' = le_at e -> le_actor e' = le_actor e ->
  in_place l (mkLedger (<[id := e']> (lg_entries l)) (lg_order l)).
Proof.
  intros He Ha Hb. split; [done|]. intros i x; cbn [lg_entries]. intros [[-> ->] | [_ Hx]]%lookup_insert_Some; [by exists e|by exists x].
Qed.

Lemma lstep_in_place l ev l' : lstep l ev l' -> clock_of ev = None -> in_place l l'.
Proof.
  assert (Hrefl : in_place l l) by (split; [done|]; intros i e He; by exists e).
  destruct 1 as [ |id|id topic payload|id actor ack|id payload l l' who Hr]; intros Hc; simplify_eq/=.
  - split; [done|]. intros i e; cbn [ledger_forget lg_entries]. intros [_ He]%lookup_delete_Some. by exists e.
  - unfold acked. destruct (lg_entries l !! id) as [e|] eqn:He; [|done]. destruct (le_ack e); [done|]. by eapply in_place_insert.
  - unfold refuse. destruct (lg_entries l !! id) as [e|] eqn:He; [|done]. by eapply in_place_insert.
  - unfold recipient in Hr. destruct (lg_entries l !! id) as [e|] eqn:He; [|by simplify_eq].
    destruct (take_refusal _ _) as [[who' rest]|]; simplify_eq; [by eapply in_place_insert|done].
Qed.

Record LInv (log : list levent) (l : commandLedger) : Prop := {
  li_ordered : ordered (lg_entries l) (lg_order l);
  li_suffix : lg_order l `suffix_of` news log;
}.

Lemma LInv_in_place log ev l l' : LInv log l -> in_place l l' -> new_key ev = None -> LInv (log ++ [ev]) l'.
Proof.
  intros [[Hk Hs] Hu] [Ho He] Hn. split.
  - rewrite Ho. split; [|done]. intros i e' (e & Hi & -> & _)%He. by apply Hk.
  - unfold news. by rewrite Ho, omap_snoc, Hn, app_nil_r.
Qed.

Lemma lrun_inv log l : lrun log l -> clock_ok log -> LInv log l.
Proof.
  induction 1 as [|log l ev l' Hr IH Hs]; intros Hc; [split; [split; [done|constructor]|done]|].
  specialize (IH (clock_prefix _ _ Hc)). destruct (clock_of ev) as [now|] eqn:Ec; [|apply (LInv_in_place _ _ l); [done|by eapply lstep_in_place|by destruct ev]].
  destruct Hs as [now' id actor l l' v topic ack Ha| | | |]; simplify_eq/=. destruct IH as [Ho Hu].
  destruct (expire_loop_spec now _ _ Ho) as ([Hk Hs] & Hu' & _ & _). fold (expire now l) in *. unfold ledger_admit in Ha.
  pose proof (clock_last _ _ _ _ _ Hc) as Hle.
  destruct (lg_entries (expire now l) !! id) as [held|] eqn:Eh.
  { assert (v <> ledgerNew /\ l' = expire now l) as [Hv ->] by (case_bool_decide; by simplify_eq/=).
    split; [done|]. unfold news. rewrite omap_snoc. cbn [new_key]. destruct v; [done|rewrite app_nil_r; by etrans..]. }
  simplify_eq. split; cbn [lg_entries lg_order].
  - split.
    + intros i e [[-> <-] | [_ Hi]]%lookup_insert_Some; [set_solver|]. apply elem_of_app. left. by apply Hk.
    + rewrite fmap_app. apply StronglySorted_app_2; [|done|repeat constructor]. intros x y (k & -> & Hx)%list_elem_of_fmap ->%list_elem_of_singleton.
      rewrite Forall_forall in Hle. apply Hle, (elem_of_suffix (lg_order (expire now l))); [done|by etrans].
  - destruct (transitivity Hu' Hu) as [pre Hp]. exists pre. unfold news in *. rewrite omap_snoc, Hp. cbn [new_key]. by rewrite app_assoc.
Qed.

(** *** One run per command *)

(** What an entry keeps while it is held. *)
Definition kept_as (actor : string) (t : Z) (ack : option string) (e : ledgerEntry) : Prop := le_actor e = actor /\ le_at e = t /\ le_ack e = ack.

Lemma first_ack_snoc id log ev : first_ack id (log ++ [ev]) = match first_ack id log with Some a => Some a | None => first_ack id [ev] end.
Proof.
  induction log as [|[] log IH]; cbn [app first_ack]; try done. case_bool_decide; [|done]. by destruct (copied _).
Qed.

Lemma kept_insert (m : gmap string ledgerEntry) i e0 e1 id e : m !! i = Some e0 -> le_actor e1 = le_actor e0 -> le_at e1 = le_at e0 -> m !! id = Some e ->
  exists e', <[i := e1]> m !! id = Some e' /\ kept_as (le_actor e) (le_at e) (if i == id then le_ack e1 else le_ack e) e'.
Proof.
  intros H0 Ha Ht He. case_bool_decide as Hi; [subst i; simplify_eq; exists e1; by rewrite lookup_insert_eq|]. exists e. by rewrite lookup_insert_ne.
Qed.

Lemma kept_insert_same (m : gmap string ledgerEntry) i e0 e1 id e : m !! i = Some e0 -> kept_as (le_actor e0) (le_at e0) (le_ack e0) e1 -> m !! id = Some e ->
  exists e', <[i := e1]> m !! id = Some e' /\ kept_as (le_actor e) (le_at e) (le_ack e) e'.
Proof.
  intros H0 (Ha & Ht & Hk) He. destruct (kept_insert m i e0 e1 id e) as (e' & Hl & Hk'); [done..|]. exists e'. split; [done|].
  case_bool_decide; [|done]. subst i. rewrite He in H0. injection H0 as ->. by rewrite <- Hk.
Qed.

Lemma kept_step l ev l' id e :
  lstep l ev l' -> clock_of ev = None -> ev <> Forget id -> lg_entries l !! id = Some e ->
  exists e', lg_entries l' !! id = Some e'
    /\ kept_as (le_actor e) (le_at e) (match le_ack e with Some a => Some a | None => first_ack id [ev] end) e'.
Proof.
  intros Hs Hc Hf He. assert (Hid : match le_ack e with Some a => Some a | None => None end = le_ack e) by by destruct (le_ack e).
  destruct Hs as [ |i|i topic payload|i who b|i payload l l' who Hr]; simplify_eq/=; rewrite ?Hid.
  - exists e. split; [|done]. by rewrite lookup_delete_ne by congruence.
  - unfold acked. destruct (lg_entries l !! i) as [e0|] eqn:E0.
    2: { rewrite bool_decide_false by (by intros -> ; rewrite He in E0). by rewrite Hid; exists e. }
    destruct (le_ack e0) as [a|] eqn:Ea.
    { exists e. split; [done|]. case_bool_decide; simplify_eq; [by rewrite Ea|by rewrite Hid]. }
    destruct (kept_insert _ i e0 (mkLedgerEntry (le_actor e0) (le_at e0) topic (copied (withoutResult payload)) (le_refused e0)) id e E0) as (e' & Hl & Hk);
      [done..|]. exists e'. split; [done|]. case_bool_decide; simplify_eq; [rewrite Ea; by destruct (copied _)|by rewrite Hid].
  - unfold refuse. destruct (lg_entries l !! i) as [e0|] eqn:E0; [|by exists e]. cbn [lg_entries].
    by eapply kept_insert_same.
  - unfold recipient in Hr. destruct (lg_entries l !! i) as [e0|] eqn:E0; [|simplify_eq; by exists e].
    destruct (take_refusal _ _) as [[w rest]|]; simplify_eq; [|by exists e]. cbn [lg_entries].
    by eapply kept_insert_same.
Qed.

Lemma news_since_app t log log' : news_since t (log ++ log') = (news_since t log + news_since t log')%nat.
Proof. unfold news_since, news. by rewrite omap_app, filter_app, length_app. Qed.

(** Expiry leaves what is recent, while there is room. *)
Lemma expire_keeps log l now id e : LInv log l -> lg_entries l !! id = Some e -> (now - le_at e < ledgerWindow)%Z ->
  (news_since (le_at e) log < ledgerLimit)%nat -> lg_entries (expire now l) !! id = Some e.
Proof.
  intros [Ho [pre Hu]] He Hw Hn. destruct (expire_loop_spec now _ _ Ho) as (_ & _ & _ & Hx). destruct (Hx id e He) as [?|[?|Hl]]; [done|lia|].
  unfold news_since in Hn. rewrite Hu, filter_app, length_app in Hn. lia.
Qed.

Lemma held_since pre t id actor mid l :
  let log := pre ++ Admit t id actor ledgerNew :: mid in
  lrun log l -> clock_ok log -> Forget id ∉ mid -> Forall (fun now => now - t < ledgerWindow)%Z (clocks mid) -> (news_since t log < ledgerLimit)%nat ->
  exists e, lg_entries l !! id = Some e /\ kept_as actor t (first_ack id mid) e.
Proof.
  cbv zeta. revert l. induction mid as [|ev mid IH] using rev_ind; intros l Hr Hc Hf Hw Hn.
  { apply lrun_snoc in Hr as (l0 & _ & Hs). inversion Hs as [? ? ? ? ? ? ? ? Ha| | | |]; subst. unfold ledger_admit in Ha.
    destruct (lg_entries (expire t l0) !! id); [by case_bool_decide; simplify_eq/=|]. simplify_eq. cbn [lg_entries]. rewrite lookup_insert_eq. by eexists. }
  change (Admit t id actor ledgerNew :: mid ++ [ev]) with ((Admit t id actor ledgerNew :: mid) ++ [ev]) in *. rewrite app_assoc in *.
  set (log := pre ++ Admit t id actor ledgerNew :: mid) in *. apply lrun_snoc in Hr as (l0 & Hr & Hs). rewrite news_since_app in Hn.
  unfold clocks in Hw. rewrite omap_snoc, Forall_app in Hw. destruct Hw as [Hw Hwe]. pose proof (clock_prefix _ _ Hc) as Hc'.
  destruct (IH l0) as (e & He & Ha & Ht & Hk); [done|done|set_solver|done|lia|]. rewrite first_ack_snoc, <- Hk.
  destruct (clock_of ev) as [now|] eqn:Ec.
  - apply Forall_cons in Hwe as [Hwe _]. inversion Hs as [now' i who ? ? v topic ack Hi Hx Hy| | | |]; subst; simplify_eq/=.
    assert (He' : lg_entries (expire now l0) !! id = Some e) by (eapply expire_keeps; [by apply lrun_inv|done|lia|lia]).
    exists e. replace (match le_ack e with Some a => Some a | None => None end) with (le_ack e) by (by destruct (le_ack e)). split; [|done].
    unfold ledger_admit in Hi. destruct (lg_entries (expire now l0) !! i) as [e0|] eqn:E0; [case_bool_decide; by simplify_eq/=|].
    simplify_eq. cbn [lg_entries]. rewrite lookup_insert_ne; [done|]. intros ->. by rewrite He' in E0.
  - destruct (kept_step l0 ev l id e Hs Ec) as (e' & Hl & H1 & H2 & H3); [intros ->; set_solver|done|]. exists e'. split; [done|]. split_and!; congruence.
Qed.

(** A command runs once. In every sequence of operations on the ledger, under a clock
    that does not go back: once a correlation id was taken as new from a sender, then for
    ten minutes, unless the command was given up or 16384 ids were taken as new since,
    the same sender is told it is a repeat, with the first answer kept for it, and any
    other sender that the id is not its own; nobody is told it is new. *)
Theorem ledger_once pre t id actor mid l now other :
  lrun (pre ++ Admit t id actor ledgerNew :: mid) l ->
  clock_ok (pre ++ Admit t id actor ledgerNew :: mid) ->
  Forall (fun at_ => at_ <= now)%Z (clocks mid) ->
  (now - t < ledgerWindow)%Z ->
  Forget id ∉ mid ->
  (news_since t (pre ++ Admit t id actor ledgerNew :: mid) < ledgerLimit)%nat ->
  exists topic, snd (ledger_admit now id other l) =
    if other == actor then (ledgerRepeat, topic, first_ack id mid) else (ledgerForeignUse, "", None).
Proof.
  intros Hr Hc Hle Hw Hf Hn. destruct (held_since pre t id actor mid l) as (e & He & Ha & Ht & Hk); try done.
  { eapply Forall_impl; [exact Hle|]. cbn. lia. }
  assert (He' : lg_entries (expire now l) !! id = Some e) by (eapply expire_keeps; [by apply lrun_inv|done|lia|by rewrite Ht]).
  exists (le_ackTopic e). unfold ledger_admit. rewrite He', Ha. case_bool_decide as E1; case_bool_decide as E2; cbn [negb snd]; congruence.
Qed.

(** *** Whom an answer reaches *)

Definition accounted (log : list levent) (id : string) (e : ledgerEntry) : Prop :=
  Admit (le_at e) id (le_actor e) ledgerNew ∈ log /\ Forall (fun r => Refuse id (rf_actor r) (rf_ack r) ∈ log) (le_refused e).

Lemma take_refusal_spec payload refused who rest : take_refusal payload refused = Some (who, rest) ->
  mkRefusal who payload ∈ refused /\ forall r, r ∈ rest -> r ∈ refused.
Proof.
  revert who rest. induction refused as [|r refused IH]; intros who rest; cbn [take_refusal]; [done|]. case_bool_decide as E.
  - intros [= <- <-]. destruct r as [a b]; cbn in *; subst. split; [left|]. intros r Hr. by right.
  - destruct (take_refusal payload refused) as [[w rest']|]; [|done]. intros [= <- <-]. destruct (IH w rest' eq_refl) as [H1 H2]. set_solver.
Qed.

Lemma accounted_snoc log ev id e : accounted log id e -> accounted (log ++ [ev]) id e.
Proof. intros [H1 H2]. split; [set_solver|]. eapply Forall_impl; [exact H2|]. set_solver. Qed.

Lemma expire_subset now l : lg_entries (expire now l) ⊆ lg_entries l.
Proof.
  unfold expire. generalize (lg_entries l) as m. induction (lg_order l) as [|[k t] order IH]; intros m; cbn [expire_loop lg_entries]; [done|].
  destruct (_ && _); [done|]. etrans; [apply IH|]. repeat case_match; [apply delete_subseteq|done|done].
Qed.

Lemma lrun_accounted log l : lrun log l -> forall id e, lg_entries l !! id = Some e -> accounted log id e.
Proof.
  induction 1 as [|log l ev l' Hr IH Hs]; [done|]. assert (IH' : forall id e, lg_entries l !! id = Some e -> accounted (log ++ [ev]) id e) by auto using accounted_snoc.
  assert (Hin : ev ∈ log ++ [ev]) by set_solver. revert IH' Hin. generalize (log ++ [ev]) as log'. intros log' IH' Hin. clear IH Hr.
  destruct Hs as [now id actor l l' v topic ack Ha|id l|id topic payload l|id actor ack l|id payload l l' who Hr]; intros i e.
  - pose proof (expire_subset now l) as Hex.
    unfold ledger_admit in Ha. destruct (lg_entries (expire now l) !! id) as [e0|] eqn:E0; [case_bool_decide; simplify_eq/=; eauto using lookup_weaken|].
    simplify_eq. cbn [lg_entries]. intros [[<- <-] | [_ Hi]]%lookup_insert_Some; [by split; [|constructor]|eauto using lookup_weaken].
  - cbn [ledger_forget lg_entries]. intros [_ He]%lookup_delete_Some. auto.
  - unfold acked. destruct (lg_entries l !! id) as [e0|] eqn:E0; [|auto]. destruct (le_ack e0); [auto|]. cbn [lg_entries].
    intros [[<- <-] | [_ Hi]]%lookup_insert_Some; [|auto]. exact (IH' id e0 E0).
  - unfold refuse. destruct (lg_entries l !! id) as [e0|] eqn:E0; [|auto]. cbn [lg_entries].
    intros [[<- <-] | [_ Hi]]%lookup_insert_Some; [|auto]. destruct (IH' id e0 E0) as [H1 H2]. split; [done|]. cbn [le_refused].
    apply Forall_app. split; [|by constructor]. destruct (_ <=? _)%nat; [by apply Forall_drop|done].
  - unfold recipient in Hr. destruct (lg_entries l !! id) as [e0|] eqn:E0; [|simplify_eq; auto].
    destruct (take_refusal _ _) as [[w rest]|] eqn:Et; simplify_eq; [|auto]. cbn [lg_entries].
    intros [[<- <-] | [_ Hi]]%lookup_insert_Some; [|auto]. destruct (IH' id e0 E0) as [H1 H2]. split; [done|]. cbn [le_refused].
    apply take_refusal_spec in Et as [_ Hr]. rewrite Forall_forall in *. auto.
Qed.


End ledger.

(** ** Commands the node answered itself ([queued.go]) *)

Definition answeredHereLimit : nat := 4096.

Record answeredHere := mkAnswered { an_ids : gset string; an_order : list string }.

Definition first (id : string) (a : answeredHere) : answeredHere * bool :=
  if bool_decide (id ∈ an_ids a) then (a, false)
  else
    let ids := {[ id ]} ∪ an_ids a in
    let order := an_order a ++ [id] in
    if (answeredHereLimit <? length order)%nat
    then match order with
         | oldest :: rest => (mkAnswered (ids ∖ {[ oldest ]}) rest, true)
         | [] => (mkAnswered ids [], true)
         end
    else (mkAnswered ids order, true).

(** A sequence of questions: the memory, and how many were told to answer. *)
Fixpoint firsts (asked : list string) (a : answeredHere) : answeredHere * nat :=
  match asked with
  | [] => (a, 0)
  | id :: asked => let '(a, b) := first id a in let '(a, n) := firsts asked a in (a, if b : bool then S n else n)
  end.

Record AInv (a : answeredHere) : Prop := {
  ai_ids : forall id, id ∈ an_ids a <-> id ∈ an_order a;
  ai_nodup : NoDup (an_order a);
  ai_limit : (length (an_order a) <= answeredHereLimit)%nat;
}.

Lemma first_inv id a : AInv a -> AInv (fst (first id a)).
Proof.
  intros [Hi Hn Hl]. unfold first. case_bool_decide as E; [by split|]. assert (Hnd : NoDup (an_order a ++ [id])).
  { apply NoDup_app. split_and!; [done| |apply NoDup_singleton]. intros x Hx ->%list_elem_of_singleton. by apply E, Hi. }
  destruct (Nat.ltb_spec answeredHereLimit (length (an_order a ++ [id]))) as [Hlt|Hge].
  2: { split; cbn [fst an_ids an_order]; [set_solver|done|done]. }
  rewrite length_app in Hlt. cbn [length] in Hlt. destruct (an_order a) as [|oldest rest] eqn:Ea; [unfold answeredHereLimit in *; cbn in Hlt; lia|].
  cbn [app] in *. apply NoDup_cons in Hnd as [Ho Hnd]. cbn [length] in *. split; cbn [fst an_ids an_order]; [|done|rewrite length_app; cbn [length]; lia].
  intros x. rewrite elem_of_difference, elem_of_union, elem_of_singleton, elem_of_app, list_elem_of_singleton, Hi. set_solver.
Qed.

(** Where an id stands among those kept: how many came after it. *)
Lemma firsts_keeps asked a id later :
  AInv a -> (exists before, an_order a = before ++ id :: later) ->
  (length later + snd (firsts asked a) < answeredHereLimit)%nat ->
  id ∈ an_ids (fst (firsts asked a)).
Proof.
  revert a later. induction asked as [|x asked IH]; intros a later HI [before Ho] Hn; cbn [firsts].
  { cbn. apply (ai_ids _ HI). rewrite Ho. set_solver. }
  pose proof (first_inv x a HI) as HI'. cbn [firsts] in Hn. unfold first in *. case_bool_decide as E.
  { destruct (firsts asked a) as [a' n] eqn:Ef. cbn [fst snd] in *. specialize (IH a later HI (ex_intro _ before Ho)). rewrite Ef in IH. auto. }
  assert (Hl : (length (later ++ [x]) = length later + 1)%nat) by (rewrite length_app; cbn; lia).
  destruct (Nat.ltb_spec answeredHereLimit (length (an_order a ++ [x]))) as [Hlt|Hge]; rewrite Ho in *.
  - destruct before as [|oldest before]; cbn [app] in *.
    { cbn [length] in Hlt. rewrite Hl in Hlt. destruct (firsts asked _). cbn [snd] in Hn. lia. }
    specialize (IH _ (later ++ [x]) HI'). destruct (firsts asked _) as [a' n]. cbn [fst snd an_order] in *.
    apply IH; [exists before; by rewrite <- app_assoc|lia].
  - specialize (IH _ (later ++ [x]) HI'). destruct (firsts asked _) as [a' n]. cbn [fst snd an_order] in *.
    apply IH; [exists before; by rewrite <- app_assoc|lia].
Qed.

(** A queued command is answered once, until 4096 others were. *)
Lemma answered_once pre id asked :
  let a := fst (firsts pre (mkAnswered ∅ [])) in
  snd (first id a) = true -> (snd (firsts asked (fst (first id a))) < answeredHereLimit)%nat ->
  snd (first id (fst (firsts asked (fst (first id a))))) = false.
Proof.
  intros a Hf Hn. assert (HI : forall asked a, AInv a -> AInv (fst (firsts asked a))).
  { clear. induction asked as [|x asked IH]; intros a HI; [done|]. cbn [firsts]. specialize (IH _ (first_inv x a HI)).
    destruct (first x a) as [a1 b]. cbn [fst] in IH. by destruct (firsts asked a1). }
  assert (Ha : AInv a) by (apply HI; split; [set_solver|constructor|cbn; lia]). pose proof (first_inv id a Ha) as Hb.
  assert (Hin : id ∈ an_ids (fst (firsts asked (fst (first id a))))).
  { eapply (firsts_keeps asked _ id []); [done| |done]. revert Hf. unfold first. case_bool_decide; [done|]. intros _.
    destruct (_ <? _)%nat eqn:El; [|by exists (an_order a)]. apply Nat.ltb_lt in El. rewrite length_app in El. cbn in El.
    destruct (an_order a) as [|o rest]; [unfold answeredHereLimit in El; cbn in El; lia|]. by exists rest. }
  revert Hin. generalize (fst (firsts asked (fst (first id a)))) as a'. intros a' Hin. unfold first. by rewrite bool_decide_true.
Qed.

(** ** Repeated denials ([audit_repeats.go]) *)

(** A value of the metadata of a denial. *)
Inductive MetaVal := MStr (s : string) | MInt (n : Z) | MBool (b : bool) | MStrs (l : list string) | MNil.

Record AuditDenial := mkDenial {
  ad_Operation : string;
  ad_ReasonCode : string;
  ad_ActorID : string;
  ad_ActorLabel : string;
  ad_ActorKind : string;
  ad_EntityType : string;
  ad_EntityID : string;
  ad_Metadata : gmap string MetaVal;
  ad_Peer : string;
}.

Definition auditRepeatWindow : Z := 5 * 60 * 1000000000.
Definition maxAuditRepeatKeys : nat := 2048.

(** [auditRepeatKey]: operation, reason, door, who, entity type and id, subject. *)
Definition auditRepeatKey : Type := string * string * string * string * string * string * string.

Record auditRepeat := mkAuditRepeat { ap_since : Z; ap_repeats : nat; ap_last : AuditDenial }.

Definition auditDoor (d : AuditDenial) : string := match ad_Metadata d !! "door" with Some (MStr s) => s | _ => "" end.

Section repeats.
(** [fmt.Sprint] of a value. *)
Variable Sprint : MetaVal -> string.

Definition subject_part (d : AuditDenial) (key : string) : string :=
  match ad_Metadata d !! key with Some v => key +:+ "=" +:+ Sprint v +:+ ";" | None => "" end.

Definition auditKeyOf (d : AuditDenial) : auditRepeatKey :=
  let who := if ad_ActorID d == "" then ad_Peer d else ad_ActorID d in
  let subject := foldr (fun key s => subject_part d key +:+ s) "" ["filter"; "topic"; "cursor"; "stream"; "contract"] in
  (ad_Operation d, ad_ReasonCode d, auditDoor d, who, ad_EntityType d, ad_EntityID d, subject).

(** The account everyone refused the same way shares when the table is full. *)
Definition shared_key (k : auditRepeatKey) : auditRepeatKey :=
  let '(operation, reason, door, _, _, _, _) := k in (operation, reason, door, "", "", "", "").

(** [auditRepeats.admit]: the table, whether the denial is written now, the repeats it
    reports and since when. *)
Definition repeats_admit (d : AuditDenial) (now : Z) (m : gmap auditRepeatKey auditRepeat) : gmap auditRepeatKey auditRepeat * bool * nat * option Z :=
  let key := auditKeyOf d in
  let key := match m !! key with
             | None => if (maxAuditRepeatKeys <=? size m)%nat then shared_key key else key
             | Some _ => key
             end in
  match m !! key with
  | None => (<[key := mkAuditRepeat now 0 d]> m, true, 0, None)
  | Some held =>
      if (now - ap_since held <? auditRepeatWindow)%Z
      then (<[key := mkAuditRepeat (ap_since held) (S (ap_repeats held)) d]> m, false, 0, None)
      else (<[key := mkAuditRepeat now 0 d]> m, true, ap_repeats held, Some (ap_since held))
  end.

Definition still_counting (now : Z) (all : bool) (held : auditRepeat) : Prop := all = false /\ (now - ap_since held < auditRepeatWindow)%Z.

#[export] Instance still_counting_dec now all held : Decision (still_counting now all held).
Proof. unfold still_counting. apply _. Defined.

(** [auditRepeats.due]: what is left, and the accounts to report, in some order. *)
Definition repeats_due (now : Z) (all : bool) (m : gmap auditRepeatKey auditRepeat) : gmap auditRepeatKey auditRepeat * list auditRepeat :=
  (filter (fun x => still_counting now all x.2) m,
   filter (fun held => 0 < ap_repeats held)%nat (map_to_list (filter (fun x => ~ still_counting now all x.2) m)).*2).

(** *** Every denial is written or counted *)

Inductive aevent := Denied (now : Z) (d : AuditDenial) | Swept (now : Z) (all : bool).

(** A record written: a denial, whether it is the event itself, and the repeats it
    reports. *)
Record auditRecord := mkAuditRecord { aw_denial : AuditDenial; aw_own : bool; aw_repeats : nat }.

(** [RecordDenial] and [writeAuditRepeats], up to the append. *)
Definition audit_step (ev : aevent) (m : gmap auditRepeatKey auditRepeat) : gmap auditRepeatKey auditRepeat * list auditRecord :=
  match ev with
  | Denied now d => let '(m, write, repeated, _) := repeats_admit d now m in (m, if write : bool then [mkAuditRecord d true repeated] else [])
  | Swept now all => let '(m, out) := repeats_due now all m in (m, (fun held => mkAuditRecord (ap_last held) false (ap_repeats held)) <$> out)
  end.

Fixpoint audit_run (evs : list aevent) (m : gmap auditRepeatKey auditRepeat) : gmap auditRepeatKey auditRepeat * list auditRecord :=
  match evs with
  | [] => (m, [])
  | ev :: evs => let '(m, w) := audit_step ev m in let '(m, ws) := audit_run evs m in (m, w ++ ws)
  end.

Definition denials (evs : list aevent) : nat := sum_list_with (fun ev => match ev with Denied _ _ => 1 | Swept _ _ => 0 end) evs.

(** The denials a record tells of, and those not told of yet. *)
Definition told (w : auditRecord) : nat := ((if aw_own w then 1 else 0) + aw_repeats w)%nat.
Definition pending_repeats (m : gmap auditRepeatKey auditRepeat) : nat := sum_list_with (fun kv => ap_repeats kv.2) (map_to_list m).

Lemma pending_insert k held m : m !! k = None -> pending_repeats (<[k := held]> m) = (ap_repeats held + pending_repeats m)%nat.
Proof. intros Hk. unfold pending_repeats. by rewrite (map_to_list_insert m k held Hk). Qed.

Lemma pending_delete k held m : m !! k = Some held -> pending_repeats m = (ap_repeats held + pending_repeats (delete k m))%nat.
Proof. intros Hk. rewrite <- (insert_delete_id m k held Hk) at 1. apply pending_insert, lookup_delete_eq. Qed.

Lemma pending_update k held held' m : m !! k = Some held ->
  (pending_repeats (<[k := held']> m) + ap_repeats held = pending_repeats m + ap_repeats held')%nat.
Proof.
  intros Hk. rewrite <- insert_delete_eq, pending_insert by apply lookup_delete_eq. rewrite (pending_delete k held m Hk). lia.
Qed.

Lemma pending_split (P : auditRepeatKey * auditRepeat -> Prop) `{!forall x, Decision (P x)} m :
  pending_repeats m = (pending_repeats (filter P m) + pending_repeats (filter (fun x => ~ P x) m))%nat.
Proof.
  induction m as [|k held m Hk IH] using map_ind; [by rewrite !map_filter_empty|]. rewrite pending_insert, IH by done.
  assert (Hf : forall Q : auditRepeatKey * auditRepeat -> Prop, forall HQ : (forall x, Decision (Q x)), filter Q m !! k = None).
  { intros Q HQ. apply map_lookup_filter_None. by left. }
  rewrite !map_filter_insert, (delete_id m k) by done. destruct (decide (P (k, held))), (decide (~ P (k, held))); try done; rewrite pending_insert by done; lia.
Qed.

Lemma reported_pending (l : list auditRepeat) :
  sum_list_with told ((fun held => mkAuditRecord (ap_last held) false (ap_repeats held)) <$> filter (fun held => 0 < ap_repeats held)%nat l)
  = sum_list_with ap_repeats l.
Proof.
  induction l as [|held l IH]; [done|]. rewrite filter_cons. cbn [sum_list_with]. rewrite <- IH.
  case_decide; cbn; unfold told; cbn; lia.
Qed.

Lemma audit_step_told ev m : let '(m', ws) := audit_step ev m in
  (denials [ev] + pending_repeats m = sum_list_with told ws + pending_repeats m')%nat.
Proof.
  destruct ev as [now d|now all]; cbn [audit_step denials sum_list_with].
  - unfold repeats_admit. set (key := match m !! auditKeyOf d with None => _ | Some _ => _ end). destruct (m !! key) as [held|] eqn:Ek.
    + destruct (_ <? _)%Z; cbn [sum_list_with told aw_own aw_repeats].
      * pose proof (pending_update key held (mkAuditRepeat (ap_since held) (S (ap_repeats held)) d) m Ek) as Hp. unfold told. cbn in *. lia.
      * pose proof (pending_update key held (mkAuditRepeat now 0 d) m Ek) as Hp. unfold told. cbn in *. lia.
    + rewrite pending_insert by done. unfold told. cbn. lia.
  - unfold repeats_due. rewrite reported_pending, (pending_split (fun x => still_counting now all x.2) m).
    unfold pending_repeats at 2. assert (Hs : forall l : list (auditRepeatKey * auditRepeat), sum_list_with ap_repeats l.*2 = sum_list_with (fun kv => ap_repeats kv.2) l).
    { induction l as [|x l IH]; [done|]. cbn. by rewrite IH. }
    rewrite Hs. lia.
Qed.


End repeats.

(** ** The fields of an audit record ([plugins/uns/audit_limits.go]) *)

Definition auditFieldLimits : gmap string nat :=
  {["event_id" := 255; "operation" := 512; "actor_id" := 255; "actor_label" := 255;
     "entity_type" := 255; "entity_id" := 255; "correlation_id" := 255; "reason_code" := 255]}%nat.

(** How many bytes the first character of a string takes when Go ranges over it: a
    well-formed UTF-8 sequence, or one byte. *)
Definition in_byte (lo hi : N) (s : string) : bool :=
  match s with String c _ => (lo <=? N_of_ascii c)%N && (N_of_ascii c <=? hi)%N | EmptyString => false end.

Definition tail1 (s : string) : string := match s with String _ s => s | EmptyString => "" end.

(** Whether the bytes after the first continue it, the second one within [lo] and [hi]. *)
Definition continued (n : nat) (lo hi : N) (s : string) : bool :=
  match n with
  | 1 => in_byte lo hi s
  | 2 => in_byte lo hi s && in_byte 128 191 (tail1 s)
  | _ => in_byte lo hi s && in_byte 128 191 (tail1 s) && in_byte 128 191 (tail1 (tail1 s))
  end.

Definition rune_len (s : string) : nat :=
  match s with
  | EmptyString => 0
  | String c rest =>
      let b := N_of_ascii c in
      if (b <? 194)%N then 1
      else if (b <? 224)%N then if continued 1 128 191 rest then 2 else 1
      else if (b <? 240)%N
      then if continued 2 (if (b =? 224)%N then 160 else 128) (if (b =? 237)%N then 159 else 191) rest then 3 else 1
      else if (b <? 245)%N
      then if continued 3 (if (b =? 240)%N then 144 else 128) (if (b =? 244)%N then 143 else 191) rest then 4 else 1
      else 1
  end.

Fixpoint drop_bytes_n (n : nat) (s : string) : string :=
  match n, s with
  | S n, String _ s => drop_bytes_n n s
  | _, _ => s
  end.

Fixpoint take_bytes_n (n : nat) (s : string) : string :=
  match n, s with
  | S n, String c s => String c (take_bytes_n n s)
  | _, _ => ""
  end.

(** The first [n] characters: the loop of [BoundAuditField], which stops at the start of
    the character after them. [fuel] is the length of the string. *)
Fixpoint take_runes (fuel n : nat) (s : string) : string :=
  match fuel, n with
  | S fuel, S n => if s == "" then "" else take_bytes_n (rune_len s) s +:+ take_runes fuel n (drop_bytes_n (rune_len s) s)
  | _, _ => ""
  end.

(** [utf8.RuneCountInString]. *)
Fixpoint rune_count (fuel : nat) (s : string) : nat :=
  match fuel with
  | S fuel => if s == "" then 0 else S (rune_count fuel (drop_bytes_n (rune_len s) s))
  | O => 0
  end.

Definition RuneCount (s : string) : nat := rune_count (String.length s) s.

Definition BoundAuditField (field value : string) : string :=
  match auditFieldLimits !! field with
  | None => value
  | Some limit => if (String.length value <=? limit)%nat then value else take_runes (String.length value) limit value
  end.

Lemma in_byte_app lo hi s r : (0 < String.length s)%nat -> in_byte lo hi (s +:+ r) = in_byte lo hi s.
Proof. destruct s; cbn; [lia|done]. Qed.

Lemma tail1_app s r : (0 < String.length s)%nat -> tail1 (s +:+ r) = tail1 s +:+ r.
Proof. destruct s; cbn; [lia|done]. Qed.

Lemma tail1_length s : String.length (tail1 s) = (String.length s - 1)%nat.
Proof. destruct s; cbn; lia. Qed.

Lemma in_byte_some lo hi s : in_byte lo hi s = true -> (0 < String.length s)%nat.
Proof. destruct s; cbn; [done|lia]. Qed.

Lemma continued_app n lo hi s r : (1 <= n <= 3)%nat -> (n <= String.length s)%nat -> continued n lo hi (s +:+ r) = continued n lo hi s.
Proof.
  intros Hn Hl. pose proof (tail1_length s) as H1. pose proof (tail1_length (tail1 s)) as H2.
  destruct n as [|[|[|[|]]]]; try lia; cbn [continued]; rewrite ?tail1_app by lia; rewrite ?in_byte_app by lia; try done.
Qed.

Lemma continued_some n lo hi s : (1 <= n <= 3)%nat -> continued n lo hi s = true -> (n <= String.length s)%nat.
Proof.
  intros Hn Hc. pose proof (tail1_length s) as H1. pose proof (tail1_length (tail1 s)) as H2.
  destruct n as [|[|[|[|]]]]; try lia; cbn [continued] in Hc; rewrite ?andb_true_iff in Hc; destruct_and?;
    repeat match goal with H : in_byte _ _ _ = true |- _ => apply in_byte_some in H end; lia.
Qed.

(** One step of the decision on the first byte. *)
Lemma continued_cut n lo hi s r w : (1 <= n <= 3)%nat -> w = S n -> ((if continued n lo hi (s +:+ r) then w else 1) <= S (String.length s))%nat ->
  (if continued n lo hi s then w else 1) = (if continued n lo hi (s +:+ r) then w else 1).
Proof.
  intros Hn -> Hl. destruct (continued n lo hi s) eqn:E1; [rewrite continued_app by (by eauto using continued_some); by rewrite E1|].
  destruct (continued n lo hi (s +:+ r)) eqn:E2; [|done]. rewrite continued_app in E2 by lia. congruence.
Qed.

(** A string cut at or after the end of its first character starts with the same. *)
Lemma rune_len_app s r : (rune_len (s +:+ r) <= String.length s)%nat -> s <> "" -> rune_len s = rune_len (s +:+ r).
Proof.
  destruct s as [|c s]; [done|]. change (String c s +:+ r) with (String c (s +:+ r)). cbn [rune_len String.length]. intros Hl _.
  destruct (_ <? 194)%N; [done|]. destruct (_ <? 224)%N; [by apply continued_cut; [lia..|]|]. destruct (_ <? 240)%N; [by apply continued_cut; [lia..|]|].
  destruct (_ <? 245)%N; [by apply continued_cut; [lia..|]|done].
Qed.

Lemma rune_len_bounds s : s <> "" -> (1 <= rune_len s <= String.length s)%nat.
Proof.
  destruct s as [|c s]; [done|]. intros _. cbn [rune_len String.length].
  assert (Hc : forall n lo hi w, (1 <= n <= 3)%nat -> w = S n -> (1 <= (if continued n lo hi s then w else 1) <= S (String.length s))%nat).
  { intros n lo hi w Hn ->. destruct (continued n lo hi s) eqn:E; [apply continued_some in E|]; lia. }
  destruct (_ <? 194)%N; [lia|]. destruct (_ <? 224)%N; [apply Hc; lia|]. destruct (_ <? 240)%N; [apply Hc; lia|]. destruct (_ <? 245)%N; [apply Hc; lia|lia].
Qed.

Lemma take_drop_bytes n s : take_bytes_n n s +:+ drop_bytes_n n s = s.
Proof. revert s. induction n as [|n IH]; intros [|c s]; [done..|]. cbn [take_bytes_n drop_bytes_n]. by rewrite app_cons_l, IH. Qed.

Lemma take_bytes_length n s : (n <= String.length s)%nat -> String.length (take_bytes_n n s) = n.
Proof. revert s. induction n as [|n IH]; intros [|c s]; cbn; intros Hn; [done|done|lia|]. by rewrite IH by lia. Qed.

Lemma drop_prefix_app a s : drop_bytes_n (String.length a) (a +:+ s) = s.
Proof. induction a; [done|]. cbn. done. Qed.

Lemma drop_bytes_length n s : String.length (drop_bytes_n n s) = (String.length s - n)%nat.
Proof. revert s. induction n as [|n IH]; intros [|c s]; cbn; [done..|]. by rewrite IH. Qed.

Lemma rune_count_nil fuel : rune_count fuel "" = 0%nat.
Proof. by destruct fuel. Qed.

Lemma rune_count_fuel fuel s : (rune_count fuel s <= fuel)%nat.
Proof. revert s. induction fuel as [|fuel IH]; intros s; cbn [rune_count]; [lia|]. case_bool_decide; [lia|]. specialize (IH (drop_bytes_n (rune_len s) s)). lia. Qed.

(** The first [n] characters are a prefix, are at most [n], and are everything when there
    are no more. *)
Lemma take_runes_spec fuel n s : (String.length s <= fuel)%nat ->
  (exists r, s = take_runes fuel n s +:+ r)
  /\ (forall fuel', (String.length (take_runes fuel n s) <= fuel')%nat -> (rune_count fuel' (take_runes fuel n s) <= n)%nat)
  /\ ((rune_count fuel s <= n)%nat -> take_runes fuel n s = s).
Proof.
  revert n s. induction fuel as [|fuel IH]; intros n s Hl.
  { destruct s; cbn in Hl; [|lia]. split_and!; [by exists ""|intros; rewrite rune_count_nil; lia|done]. }
  destruct n as [|n]; [split_and!; [by exists s|intros; cbn [take_runes]; rewrite rune_count_nil; lia|]|].
  { cbn [rune_count]. case_bool_decide; [by subst|lia]. }
  cbn [take_runes rune_count]. case_bool_decide as Es.
  { subst. split_and!; [by exists ""|intros; rewrite rune_count_nil; lia|done]. }
  pose proof (rune_len_bounds s Es) as Hw. set (w := rune_len s) in *.
  destruct (IH n (drop_bytes_n w s)) as ([r Hr] & Hc & Ha); [rewrite drop_bytes_length; lia|].
  set (a := take_bytes_n w s) in *. set (b := take_runes fuel n (drop_bytes_n w s)) in *.
  assert (Hal : String.length a = w) by (apply take_bytes_length; lia). assert (Hs : s = (a +:+ b) +:+ r) by (rewrite <- app_assoc_s, <- Hr; symmetry; apply take_drop_bytes).
  assert (Hab : a +:+ b <> "") by (intros Hz; apply (f_equal String.length) in Hz; rewrite length_app_s in Hz; cbn in Hz; lia).
  assert (Hrl : rune_len (a +:+ b) = w).
  { rewrite (rune_len_app (a +:+ b) r); [by rewrite <- Hs| |done]. rewrite <- Hs. fold w. rewrite length_app_s. lia. }
  split_and!.
  - by exists r.
  - intros [|fuel']; [cbn; lia|]. cbn [rune_count]. rewrite bool_decide_false by done. rewrite Hrl, <- Hal, drop_prefix_app, length_app_s. intros Hf.
    apply le_n_S, Hc. lia.
  - intros Hn. rewrite Ha by lia. apply take_drop_bytes.
Qed.

(** A field of an audit record keeps to its limit, and is cut only when it is over it. *)
Lemma BoundAuditField_spec field value limit : auditFieldLimits !! field = Some limit ->
  (exists r, value = BoundAuditField field value +:+ r)
  /\ (RuneCount (BoundAuditField field value) <= limit)%nat
  /\ ((RuneCount value <= limit)%nat -> BoundAuditField field value = value).
Proof.
  intros Hf. unfold BoundAuditField. rewrite Hf. destruct (Nat.leb_spec (String.length value) limit) as [Hl|Hl].
  - split_and!; [exists ""; by rewrite app_nil_r_s| |done]. etrans; [apply rune_count_fuel|exact Hl].
  - destruct (take_runes_spec (String.length value) limit value ltac:(lia)) as (H1 & H2 & H3). split_and!; [done|by apply H2|done].
Qed.

Definition auditMetadataKey : list string :=
  ["door"; "route"; "method"; "stream"; "contract"; "filter"; "cursor"; "topic"; "owner"; "limit"; "peer"; "repeated"; "repeated_since"].

Definition repeatedDenial (d : AuditDenial) (repeated : nat) (since : option Z) : AuditDenial :=
  if (repeated =? 0)%nat then d
  else mkDenial (ad_Operation d) (ad_ReasonCode d) (ad_ActorID d) (ad_ActorLabel d) (ad_ActorKind d) (ad_EntityType d) (ad_EntityID d)
         (<["repeated_since" := MInt (default 0 since / 1000000)%Z]> (<["repeated" := MInt (Z.of_nat repeated)]> (ad_Metadata d))) (ad_Peer d).

(** A denial with its fields cut to what the contract allows, and its kind filled in. *)
Definition boundDenial (d : AuditDenial) : AuditDenial :=
  mkDenial (BoundAuditField "operation" (ad_Operation d)) (BoundAuditField "reason_code" (ad_ReasonCode d)) (BoundAuditField "actor_id" (ad_ActorID d))
    (BoundAuditField "actor_label" (ad_ActorLabel d)) (if ad_ActorKind d == "" then "anonymous" else ad_ActorKind d)
    (BoundAuditField "entity_type" (ad_EntityType d)) (BoundAuditField "entity_id" (ad_EntityID d)) (ad_Metadata d) (ad_Peer d).

(** ** Examples *)

Section examples.
#[local] Instance demo_ledger_codec : LedgerCodec := {| json_drop_result := fun _ => None |}.

(** Alice sends a command, it is answered, and Bob sends one with the same id. *)
Definition demo_mid : list levent := [Acked "c1" "colca/v1/_Ack/n1/start" "done"; Admit 5 "c1" "bob" ledgerForeignUse; Refuse "c1" "bob" "taken"].
Definition demo_log : list levent := Admit 0 "c1" "alice" ledgerNew :: demo_mid.

Definition demo_ledger : commandLedger :=
  refuse "c1" "bob" "taken" (fst (ledger_admit 5 "c1" "bob" (acked "c1" "colca/v1/_Ack/n1/start" "done"
    (fst (ledger_admit 0 "c1" "alice" newCommandLedger))))).

Lemma demo_lrun : lrun demo_log demo_ledger.
Proof.
  change demo_log with ((([] ++ [Admit 0 "c1" "alice" ledgerNew]) ++ [Acked "c1" "colca/v1/_Ack/n1/start" "done"]) ++ [Admit 5 "c1" "bob" ledgerForeignUse]
                        ++ [Refuse "c1" "bob" "taken"]).
  rewrite app_assoc. repeat (eapply lr_step; [|]); [apply lr_new|..].
  - by eapply ls_admit.
  - apply ls_acked.
  - by eapply ls_admit.
  - apply ls_refuse.
Qed.

Lemma ledger_once_witness :
  exists topic, snd (ledger_admit 10 "c1" "alice" demo_ledger) = (ledgerRepeat, topic, Some "done").
Proof.
  destruct (ledger_once [] 0 "c1" "alice" demo_mid demo_ledger 10 "alice") as [topic Ht].
  - exact demo_lrun.
  - repeat constructor; by vm_compute.
  - repeat constructor; by vm_compute.
  - by vm_compute.
  - apply (bool_decide_unpack _). by vm_compute.
  - apply (bool_decide_unpack _). by vm_compute.
  - exists topic. exact Ht.
Defined.

End examples.
