(* ===== verification/Admission.v ===== *)
(** * What a door checks of a publish

    The checks of [internal/engine] that read a publish and the node's state and change
    neither: the payload rules ([validateContract] with the nesting bound), who may
    author which state ([validateClientStateAuthor], [validateAdminStateAuthor]), whose
    values a bound signal shows ([producer.go] over the catalogue index of
    [plugins/uns/catalogues.go]) and which commands some service announced
    ([routes.go]). *)

From S2P Require Export Elements Link.
From Stdlib Require Import Ascii.

Open Scope string_scope.
Open Scope list_scope.
Open Scope go_scope.

(** ** Payload rules ([contracts.go]) *)

Definition MaxPayloadDepth : Z := 32.

(** The loop of [nestedDeeperThan] with its three variables. *)
Fixpoint nested_from (limit depth : Z) (inString escaped : bool) (payload : string) : bool :=
  match payload with
  | EmptyString => false
  | String c rest =>
      if inString then
        if escaped then nested_from limit depth true false rest
        else if (c == "\"%char) then nested_from limit depth true true rest
        else if (c == ascii_of_nat 34) then nested_from limit depth false false rest
        else nested_from limit depth true false rest
      else if (c == ascii_of_nat 34) then nested_from limit depth true escaped rest
      else if (c == "{"%char) || (c == "["%char) then
        let depth := (depth + 1)%Z in
        if (limit <? depth)%Z then true else nested_from limit depth false escaped rest
      else if (c == "}"%char) || (c == "]"%char) then nested_from limit (depth - 1) false escaped rest
      else nested_from limit depth false escaped rest
  end.

Definition nestedDeeperThan (payload : string) (limit : Z) : bool := nested_from limit 0 false false payload.

(** A contract of the bundle; [ru_Validate] gives the error of a payload. *)
Record Rule := mkRule { ru_Class : Class; ru_Tombstone : bool; ru_Validate : string -> option string }.

Section checks.
Context `{Codec}.

(** The loaded bundle, [None] for the built-in rules, which are [validate]. *)
Variables (contracts : option (string -> option Rule)) (validate : string -> string -> option string).
(** This node's identity. *)
Variable node : string.

Definition class_of (contract : string) : Class :=
  EngineClassOf (match contracts with Some table => Some (fun c => ru_Class <$> table c) | None => None end) contract.

(** The error, if any. *)
Definition validateContract (contract payload : string) : option string :=
  if nestedDeeperThan payload MaxPayloadDepth
  then Some (contract +:+ ": payload nests objects and arrays deeper than 32 levels")
  else match contracts with
  | None => validate contract payload
  | Some table =>
      if bool_decide (contract ∈ builtinOnly) then validate contract payload
      else match table contract with
           | None => Some ("unknown contract " +:+ contract)
           | Some r =>
               if payload == ""
               then if ru_Tombstone r then None else Some (contract +:+ ": empty payload (tombstone) is not admissible for this contract")
               else ru_Validate r payload
           end
  end.

(** ** Who authors what ([engine.go]) *)

(** What the checks read of JSON: the ids of a state document, [None] when it does not
    decode; the data tag of a signal; the tag ids of a catalogue; the event id of an
    audit event. *)
Class StateCodec := {
  json_state_ids : string -> option (string * string);
  json_data_tag : string -> option string;
  json_tag_ids : string -> option (list string);
  json_event_id : string -> option string;
}.

Context `{StateCodec}.

Definition stateIdentity (payload : string) : option (string * string) := if payload == "" then Some ("", "") else json_state_ids payload.

(** Whether the author is right. *)
Definition validateClientStateAuthor (identity : string) (p : Parsed) (payload : string) : bool :=
  if IsDefinition (class_of (Contract p)) then false
  else if (Contract p == "_Node") || (Contract p == "_ExternalReference") then false
  else if Contract p != "_ServiceDetails" then true
  else match stateIdentity payload with
       | None => false
       | Some (id, colcaNodeID) =>
           if (id != "") && (id != identity) then false
           else if (colcaNodeID != "") && (colcaNodeID != node) then false
           else (Path p == "_service") || HasSuffix (Path p) "/_service"
       end.

Definition validateAdminStateAuthor (p : Parsed) (payload : string) : bool :=
  if Contract p == "_ServiceDetails" then false
  else if (Contract p != "_Node") && (Contract p != "_ExternalReference") && negb (IsDefinition (class_of (Contract p))) then true
  else if NodeID p != node then false
  else match stateIdentity payload with
       | None => false
       | Some (id, _) =>
           if Contract p == "_Node" then (Path p == "_colca/nodes/" +:+ node) && ((id == "") || (id == node))
           else if Contract p == "_ExternalReference" then (id == "") || (Path p == "_colca/external-references/" +:+ id)
           else (id == "") || (Path p == id)
       end.

(** [ValidateAuditTopic] of [uns.go]. *)
Definition ValidateAuditTopic (p : Parsed) (payload : string) : bool :=
  if Contract p != "_AuditEvent" then false
  else match json_event_id payload with
       | Some id => (id != "") && (Path p == "_colca/audit/" +:+ id)
       | None => false
       end.

(** ** The catalogue index ([catalogues.go]) *)

(** [CatalogueIndex], loaded. *)
Record CatalogueIndex := mkCatalogues { tagsAt : gmap string (list string); holders : gmap string (gset string) }.

Definition drop_holder (topic : string) (hs : gmap string (gset string)) (tag : string) : gmap string (gset string) :=
  let left := default ∅ (hs !! tag) ∖ {[ topic ]} in
  if bool_decide (left = ∅) then delete tag hs else <[tag := left]> hs.

Definition add_holder (topic : string) (hs : gmap string (gset string)) (tag : string) : gmap string (gset string) :=
  if tag == "" then hs else <[tag := {[ topic ]} ∪ default ∅ (hs !! tag)]> hs.

(** [CatalogueIndex.apply]. *)
Definition apply_catalogue (topic payload : string) (x : CatalogueIndex) : CatalogueIndex :=
  let hs := foldl (drop_holder topic) (holders x) (default [] (tagsAt x !! topic)) in
  let tags := delete topic (tagsAt x) in
  if payload == "" then mkCatalogues tags hs
  else match json_tag_ids payload with
       | None => mkCatalogues tags hs
       | Some ids => mkCatalogues (<[topic := filter (fun id => id <> "") ids]> tags) (foldl (add_holder topic) hs ids)
       end.

(** [CatalogueIndex.Observe]. *)
Definition observe_catalogue (contract topic payload : string) (x : CatalogueIndex) : CatalogueIndex :=
  if contract != "_DataTags" then x
  else match Parse topic with
       | Err _ => x
       | Ok p => if NodeID p != node then x else apply_catalogue topic payload x
       end.

Definition Holders (x : CatalogueIndex) (tagID : string) : list string := sort_strings (elements (default ∅ (holders x !! tagID))).

Definition joinPath (mount leaf : string) : string := if mount == "" then leaf else mount +:+ "/" +:+ leaf.

Definition CatalogueTopic (nodeID mount name : string) : string := Prefix topic_root +:+ "_DataTags/" +:+ nodeID +:+ "/" +:+ joinPath mount name.

(** ** Whose values a signal shows ([producer.go]) *)

(** [KVGet] of [entitystore.go]: the payload a topic has now. *)
Definition entityKVGet (s : Store) (topic : string) : option string :=
  match Parse topic with
  | Err _ => None
  | Ok p => k_Payload <$> kvEntry (db s) (Path p) (NodeID p) topic
  end.

Definition boundTag (s : Store) (p : Parsed) : string :=
  match entityKVGet s (SignalTopicForMetric topic_root p) with
  | None => ""
  | Some raw => if raw == "" then "" else default "" (json_data_tag raw)
  end.

Definition catalogueTopicOf (x : ElementIndex) (entry : Entry) : option string :=
  if ElementOf entry != ""
  then path ← IndexPathOf x (ElementOf entry); Some (CatalogueTopic node path (CatalogueName entry))
  else Some (CatalogueTopic node "" (CatalogueName entry)).

Definition checkMetricProducer (s : Store) (x : ElementIndex) (cats : CatalogueIndex) (entry : Entry) (p : Parsed) : bool :=
  let tag := boundTag s p in
  if tag == "" then true
  else match Holders cats tag, catalogueTopicOf x entry with
       | [holder], Some own => holder == own
       | _, _ => false
       end.

End checks.

(** ** Commands some service announced ([routes.go]) *)

Record commandRoute := mkRoute { rt_Contract : string; rt_Path : string }.

Fixpoint route_levels (want got : list string) : bool :=
  match want, got with
  | [last], _ => if last == "#" then true else match got with [g] => (last == "+") || (last == g) | _ => false end
  | [], [] => true
  | segment :: want, g :: got => if (segment == "+") || (segment == g) then route_levels want got else false
  | _, _ => false
  end.

Definition routeMatches (pattern path : string) : bool := route_levels (Split pattern slash) (Split path slash).

Definition parentPath (path : string) : string := match CutLast path slash with Some (parent, _) => parent | None => "" end.

Definition lastSegment (path : string) : string := match CutLast path slash with Some (_, leaf) => leaf | None => path end.

Definition orRoot (element : string) : string := if element == "" then "the node root" else element.

Fixpoint dedupe (sorted : list string) : list string :=
  match sorted with
  | x :: (y :: _) as rest => if x == y then dedupe rest else x :: dedupe rest
  | l => l
  end.

Section routes.
Context `{Codec}.
Variables (node : string) (strict : bool) (handles : string -> bool).

(** The loop of [unannounced] over the routes: [None] when one takes the command, else
    whether something is announced at its element, and what. *)
Fixpoint route_scan (p : Parsed) (element : string) (routes : list commandRoute) (claimed : bool) (siblings : list string) : option (bool * list string) :=
  match routes with
  | [] => Some (claimed, siblings)
  | route :: routes =>
      if (rt_Contract route == Contract p) && routeMatches (rt_Path route) (Path p) then None
      else if HasSuffix (rt_Path route) "#" || negb (routeMatches (parentPath (rt_Path route)) element)
      then route_scan p element routes claimed siblings
      else
        let verb := lastSegment (rt_Path route) in
        let verb := if rt_Contract route != Contract p then verb +:+ " (" +:+ rt_Contract route +:+ ")" else verb in
        route_scan p element routes true (siblings ++ [verb])
  end.

Definition comma : string := ", ".

Fixpoint JoinComma (l : list string) : string :=
  match l with
  | [] => ""
  | [x] => x
  | x :: rest => x +:+ comma +:+ JoinComma rest
  end.

(** [unannounced]: the 404 message of a command no service takes. [routes] is what
    [announcedRoutes] reads, [None] when it fails. *)
Definition unannounced (routes : option (list commandRoute)) (p : Parsed) : option string :=
  if (NodeID p != node) || handles (Contract p) then None
  else match routes with
  | None => None
  | Some routes =>
      let element := parentPath (Path p) in
      match route_scan p element routes false [] with
      | None => None
      | Some (false, _) =>
          if strict
          then Some ("no service executes " +:+ Contract p +:+ " " +:+ Path p +:+ "; nothing is announced at " +:+ orRoot element)
          else None
      | Some (true, siblings) =>
          Some ("no service executes " +:+ Contract p +:+ " " +:+ Path p +:+ "; " +:+ orRoot element +:+ " takes "
                +:+ JoinComma (dedupe (sort_strings siblings)))
      end
  end.

(** A command one of the services takes is never turned away, and with announcements
    optional neither is one at an element where nothing is announced. *)
Lemma unannounced_taken routes p route : route ∈ routes -> rt_Contract route = Contract p -> routeMatches (rt_Path route) (Path p) = true ->
  unannounced (Some routes) p = None.
Proof.
  intros Hin Hc Hm. unfold unannounced. destruct (_ || _); [done|].
  assert (Hs : forall claimed siblings, route_scan p (parentPath (Path p)) routes claimed siblings = None).
  { induction Hin as [route routes|route r routes _ IH]; intros claimed siblings; cbn [route_scan]; [by rewrite bool_decide_true, Hm by done|].
    destruct (_ && _); [done|]. destruct (_ || _); by apply IH. }
  by rewrite Hs.
Qed.

End routes.

(** ** The catalogue index, by what was published *)

Section catalogues.
Context `{Codec} `{StateCodec}.

Definition empty_catalogues : CatalogueIndex := mkCatalogues ∅ ∅.

(** The tags of a catalogue's payload. *)
Definition tags_of (payload : string) : list string :=
  if payload == "" then [] else filter (fun id => id <> "") (default [] (json_tag_ids payload)).

(** The index and the catalogues as last published say the same. *)
Record indexes (now : gmap string string) (x : CatalogueIndex) : Prop := {
  ix_tags : forall topic, default [] (tagsAt x !! topic) = match now !! topic with Some payload => tags_of payload | None => [] end;
  ix_holders : forall tag topic, topic ∈ default ∅ (holders x !! tag) <-> tag ∈ default [] (tagsAt x !! topic);
}.

Lemma drop_holder_spec topic hs tags tag t :
  t ∈ default ∅ (foldl (drop_holder topic) hs tags !! tag) <-> t ∈ (default ∅ (hs !! tag) : gset string) /\ ~ (t = topic /\ tag ∈ tags).
Proof.
  revert hs. induction tags as [|x tags IH]; intros hs; cbn [foldl]; [set_solver|]. rewrite IH. unfold drop_holder.
  set (left := default ∅ (hs !! x) ∖ {[ topic ]}). assert (Hl : t ∈ (default ∅ ((if bool_decide (left = ∅) then delete x hs else <[x := left]> hs) !! tag) : gset string)
    <-> t ∈ (default ∅ (hs !! tag) : gset string) /\ ~ (t = topic /\ tag = x)).
  { destruct (decide (tag = x)) as [-> | Hne].
    - case_bool_decide as El; [rewrite lookup_delete_eq|rewrite lookup_insert_eq]; cbn [default]; set_solver.
    - case_bool_decide; [rewrite lookup_delete_ne by done|rewrite lookup_insert_ne by done]; naive_solver. }
  rewrite Hl. set_solver.
Qed.

Lemma add_holder_spec topic hs tags tag t :
  t ∈ default ∅ (foldl (add_holder topic) hs tags !! tag) <-> t ∈ (default ∅ (hs !! tag) : gset string) \/ (t = topic /\ tag <> "" /\ tag ∈ tags).
Proof.
  revert hs. induction tags as [|x tags IH]; intros hs; cbn [foldl]; [set_solver|]. rewrite IH. unfold add_holder.
  case_bool_decide as Ex; [subst; set_solver|]. destruct (decide (tag = x)) as [-> | Hne].
  - rewrite lookup_insert_eq. cbn [default]. set_solver.
  - rewrite lookup_insert_ne by done. set_solver.
Qed.

Lemma apply_catalogue_indexes now x topic payload : indexes now x -> indexes (<[topic := payload]> now) (apply_catalogue topic payload x).
Proof.
  intros [Ht Hh]. unfold apply_catalogue. set (hs := foldl _ _ _).
  assert (Hhs : forall tag t, t ∈ (default ∅ (hs !! tag) : gset string) <-> tag ∈ default [] (delete topic (tagsAt x) !! t)).
  { intros tag t. unfold hs. rewrite drop_holder_spec, Hh. destruct (decide (t = topic)) as [-> | Hne].
    - rewrite lookup_delete_eq. cbn [default]. set_solver.
    - rewrite lookup_delete_ne by done. naive_solver. }
  assert (Hd : forall t, default [] (delete topic (tagsAt x) !! t) = if decide (t = topic) then [] else match now !! t with Some payload => tags_of payload | None => [] end).
  { intros t. case_decide as Et; [subst; by rewrite lookup_delete_eq|]. rewrite lookup_delete_ne by done. apply Ht. }
  assert (Hnone : tags_of payload = [] -> indexes (<[topic := payload]> now) (mkCatalogues (delete topic (tagsAt x)) hs)).
  { intros Hp. split; cbn [tagsAt holders]; [|intros tag t; apply Hhs]. intros t. rewrite Hd. case_decide as Et; [subst; by rewrite lookup_insert_eq, Hp|].
    by rewrite lookup_insert_ne by done. }
  unfold tags_of in Hnone at 1. destruct (bool_decide (payload = "")) eqn:Ep; [by apply Hnone|].
  destruct (json_tag_ids payload) as [ids|] eqn:Ei; [|by apply Hnone]. split; cbn [tagsAt holders].
  - intros t. destruct (decide (t = topic)) as [-> | Hne]; [rewrite !lookup_insert_eq|rewrite !lookup_insert_ne by done].
    + cbn [default]. unfold tags_of. by rewrite Ep, Ei.
    + rewrite Hd. by rewrite decide_False.
  - intros tag t. rewrite add_holder_spec, Hhs. destruct (decide (t = topic)) as [-> | Hne]; [rewrite lookup_insert_eq|rewrite lookup_insert_ne by done].
    + rewrite lookup_delete_eq. cbn. rewrite list_elem_of_filter. set_solver.
    + naive_solver.
Qed.

Lemma indexes_empty : indexes ∅ empty_catalogues.
Proof. split; cbn; set_solver. Qed.

End catalogues.
