(* ===== verification/Ingest.v ===== *)
(** * The doors of a node

    [internal/engine]: what happens to a publish at each door, from its checks to the
    record in its stream, the bus, the ledger and the executor. [IngestClient] and its
    local variant take what machines and services publish, [IngestHuman] the commands of
    people, [IngestAdminAttributed] what the admin token publishes, the downlink doors
    what the parent hands down, [IngestClientBatch] many client records at once,
    [ingestAdminStateBatch] and [ingestAdminEvent] what an executor writes, and
    [IngestRefresh] what retention writes again.

    A door is a function of the [Engine] and of what a call finds around it: [Env] is the
    node's configuration and the other components, [Call] the clocks, the failures and
    the answers of the log gate during the call. An append is [appendLocked]: callers
    that append at the same time get what some order of their appends gives
    ([concurrent_appends]). *)

From S2P Require Export Admission Ledger.

Open Scope string_scope.
Open Scope list_scope.
Open Scope go_scope.

(** ** Data *)

Record Attribution := mkAttribution {
  tn_WrittenBy : string;
  tn_ActorID : string;
  tn_ActorLabel : string;
  tn_ActorKind : string;
  tn_ActorClient : string;
  tn_ActorEmail : string;
  tn_ActorClasses : list string;
  tn_ActorGroups : list string;
  tn_ActorCredential : string;
  tn_Door : string;
}.

Definition no_attribution : Attribution := mkAttribution "" "" "" "" "" "" [] [] "" "".

Definition doorClient : string := "client".
Definition doorHuman : string := "human".

Definition with_door (door : string) (a : Attribution) : Attribution :=
  mkAttribution (tn_WrittenBy a) (tn_ActorID a) (tn_ActorLabel a) (tn_ActorKind a) (tn_ActorClient a) (tn_ActorEmail a)
    (tn_ActorClasses a) (tn_ActorGroups a) (tn_ActorCredential a) door.

Definition with_classes (classes : list string) (a : Attribution) : Attribution :=
  mkAttribution (tn_WrittenBy a) (tn_ActorID a) (tn_ActorLabel a) (tn_ActorKind a) (tn_ActorClient a) (tn_ActorEmail a)
    classes (tn_ActorGroups a) (tn_ActorCredential a) (tn_Door a).

Record StateWrite := mkStateWrite { sw_Stream : string; sw_Offset : N; sw_Topic : string }.

Record CommandOutcome := mkOutcome {
  co_CorrelationID : string;
  co_ResultCode : Z;
  co_Message : string;
  co_StateWrites : list StateWrite;
  co_Result : option string;
}.

Definition plain_outcome (id : string) (code : Z) (message : string) : CommandOutcome := mkOutcome id code message [] None.

(** What a door answers. *)
Record Result := mkResult {
  re_Persisted : bool;
  re_Duplicate : bool;
  re_Answered : bool;
  re_Stream : string;
  re_Offset : N;
  re_Topic : string;
  re_Command : option CommandOutcome;
  re_Withheld : bool;
}.

Definition no_result : Result := mkResult false false false "" 0 "" None false.
Definition stored_result (stream : string) (off : N) (topic : string) : Result := mkResult true false false stream off topic None false.
Definition duplicate_result (outcome : option CommandOutcome) : Result := mkResult false true false "" 0 "" outcome false.
Definition with_command (outcome : option CommandOutcome) (r : Result) : Result :=
  mkResult (re_Persisted r) (re_Duplicate r) (re_Answered r) (re_Stream r) (re_Offset r) (re_Topic r) outcome (re_Withheld r).

(** [RejectError] with its reason, an oversized record, or a [StorageError]. *)
Inductive IngestErr :=
| Rejected (reason : string) (denied : bool)
| TooLarge
| NotWritten
| Invalid.

Record commandReply := mkReply { cr_code : Z; cr_message : string; cr_writes : list StateWrite; cr_data : option string }.

Record CommandContext := mkContext { cx_Actor : option Entry; cx_ActorID : string; cx_ActorLabel : string; cx_ActorKind : string }.

(** What the doors read and write of JSON. *)
Class DoorCodec := {
  json_correlation_id : string -> option string;
  (** the id the pattern of [lenientCorrelationID] finds in bytes that do not decode *)
  json_lenient_id : string -> option string;
  json_is_progress : string -> bool;
  json_wants_progress : string -> bool;
  json_outcome : CommandOutcome -> string;
  json_read_outcome : string -> option CommandOutcome;
  json_progress : string -> string -> string -> Z -> string;
  json_audit : AuditDenial -> string -> string -> Z -> string;
}.

(** What persists over a call besides the memories: the store and the indexes over it. *)
Record Held := mkHeld { h_store : Store; h_index : ElementIndex; h_cats : CatalogueIndex }.

(** [eg_bus] is everything published on the local bus, [eg_runs] every command handed to
    the executor, oldest first. *)
Record Engine := mkEngine {
  eg_held : Held;
  eg_ledger : commandLedger;
  eg_audit : gmap auditRepeatKey auditRepeat;
  eg_bus : list Publication;
  eg_runs : list (Parsed * string);
}.

Definition eg_store (e : Engine) : Store := h_store (eg_held e).
Definition set_held (h : Held) (e : Engine) : Engine := mkEngine h (eg_ledger e) (eg_audit e) (eg_bus e) (eg_runs e).
Definition set_store (s : Store) (e : Engine) : Engine := set_held (mkHeld s (h_index (eg_held e)) (h_cats (eg_held e))) e.
Definition set_ledger (l : commandLedger) (e : Engine) : Engine := mkEngine (eg_held e) l (eg_audit e) (eg_bus e) (eg_runs e).
Definition set_audit (m : gmap auditRepeatKey auditRepeat) (e : Engine) : Engine := mkEngine (eg_held e) (eg_ledger e) m (eg_bus e) (eg_runs e).
Definition add_bus (pubs : list Publication) (e : Engine) : Engine := mkEngine (eg_held e) (eg_ledger e) (eg_audit e) (eg_bus e ++ pubs) (eg_runs e).
Definition add_run (p : Parsed) (payload : string) (e : Engine) : Engine :=
  mkEngine (eg_held e) (eg_ledger e) (eg_audit e) (eg_bus e) (eg_runs e ++ [(p, payload)]).

(** The node: its identity, its contracts, the registry, the place of the node in the
    tree, the people its groups and tokens make, the announced commands, the broker,
    the executor and the observer. *)
Record Env := mkEnv {
  en_ULID : string;
  en_contracts : option (string -> option Rule);
  en_validate : string -> string -> option string;
  en_Get : string -> option Entry;
  en_DrainingMount : string -> bool;
  en_RoutesUnder : option (string -> bool);
  en_ancestry : option Ancestry;
  en_groups : string -> list string -> option Entry;     (** [TokenEntryWithGroups] with this node's groups *)
  en_pats : string -> string -> option Entry;            (** [Attested] of the token index *)
  en_routes : Store -> option (list commandRoute);       (** [announcedRoutes] *)
  en_strict : bool;
  en_bus : bool;                                         (** whether a broker is wired *)
  en_hasSubscriber : option (string -> string -> bool);
  en_peeks : recEnc -> bool;
  en_covered : N;
  en_element_id : string -> option string;
  en_Sprint : MetaVal -> string;
  en_handles : string -> bool;
  en_exec : CommandContext -> string -> string -> string -> Held -> Held * list Publication * commandReply;
  en_observe : Parsed -> string -> string -> Held -> Held * list Publication;
  en_checkRecords : Store -> list (string * string) -> bool;   (** [checkSignals] and [checkExternalReferences] *)
}.

(** What the log gate says of a record: the records it writes first, and whether the
    record is withheld. *)
Record GateAnswer := mkGate { ga_writes : list (string * string * Attribution); ga_held : bool }.

(** [c_now] is the clock of the memories in nanoseconds, [c_ts] the time records get in
    milliseconds, [c_ms] that of cursors; each append has its failures. *)
Record Call := mkCall {
  c_now : Z;
  c_ts : Z;
  c_ms : N;
  c_record : Faults;
  c_cursor : Faults;
  c_denial : Faults;
  c_note : Faults;
  c_ack : Faults;
  c_gate : nat -> GateAnswer;
  c_gateFaults : Faults;
  c_auditID : string;
}.

(** ** Records and what follows them *)

Section doors.
Context `{Codec} `{CommandCodec} `{StateCodec} `{LedgerCodec} `{DoorCodec}.

Definition correlationID (payload : string) : string := default "" (json_correlation_id payload).
Definition lenientCorrelationID (payload : string) : string :=
  if correlationID payload != "" then correlationID payload else default "" (json_lenient_id payload).
Definition isProgressAck (payload : string) : bool := json_is_progress payload.
Definition CommandWantsProgress (payload : string) : bool := json_wants_progress payload.

(** The store's record of a publish: state is projected, and an empty payload retracts
    it. *)
Definition record_of (class : Class) (p : Parsed) (topic payload : string) (ts : Z) (a : Attribution) : Rec :=
  let state := IsState class in
  mkRec false topic payload ts (tn_WrittenBy a) 0 (tn_ActorID a) (tn_ActorLabel a) (tn_ActorKind a) (tn_ActorGroups a) (tn_ActorClient a)
    (tn_ActorEmail a) (tn_ActorClasses a) (tn_ActorCredential a) (tn_Door a)
    (if state then Path p else "") (if state then NodeID p else "") (state && (payload == "")).

Section env.
Variables (env : Env) (c : Call).

Abbreviation node := (en_ULID env).
Abbreviation ClassOf := (class_of (en_contracts env)).

Definition scope_of (e : Engine) : option Scope := Some (node_scope (h_index (eg_held e)) (en_ancestry env)).

Definition publish (topic payload : string) (retain : bool) (e : Engine) : Engine :=
  if en_bus env then add_bus [mkPub topic payload retain] e else e.

(** [observeIndexes]. *)
Definition observeIndexes (contract topic payload : string) (e : Engine) : Engine :=
  let h := eg_held e in
  set_held (mkHeld (h_store h) (Observe (en_element_id env) (h_index h) contract topic payload)
              (observe_catalogue node contract topic payload (h_cats h))) e.

(** [observe]: the plugin's observer. *)
Definition observe (p : Parsed) (topic payload : string) (e : Engine) : Engine :=
  let '(h, pubs) := en_observe env p topic payload (eg_held e) in add_bus pubs (set_held h e).

(** [afterPersist]. *)
Definition afterPersist (class : Class) (p : Parsed) (topic payload : string) (offset : N) (e : Engine) : Engine :=
  let e := if IsAck class && (correlationID payload != "") && negb (isProgressAck payload)
           then set_ledger (acked (correlationID payload) topic payload (eg_ledger e)) e else e in
  let e := observeIndexes (Contract p) topic payload e in
  let e := if IsDefinition class then observe p topic payload e else e in
  if en_bus env then
    if IsCommand class
    then let '(s, pubs, _) := deliverCommand (en_peeks env) (en_covered env) (c_cursor c) (c_ms c) (en_Get env) (en_hasSubscriber env) (c_ts c)
                                class p topic payload offset (eg_store e) in
         add_bus pubs (set_store s e)
    else publish topic payload (retainFor class) e
  else e.

Definition store_error (err : StoreErr) : IngestErr := match err with ERecordTooLarge _ _ => TooLarge | _ => NotWritten end.

(** [persistRecord]: [f] is what goes wrong with the write. *)
Definition persistRecord (f : Faults) (class : Class) (p : Parsed) (topic payload : string) (ts : Z) (a : Attribution) (at_to : option CursorAdvance)
    (e : Engine) : Engine * result IngestErr Result :=
  let stream := StreamFor class in
  let rec := record_of class p topic payload ts a in
  let '(s, wrote) := match at_to with
                     | Some adv => AppendAdvancing f (c_ms c) stream [rec] adv (eg_store e)
                     | None => match appendLocked f stream [rec] (eg_store e) with
                               | (s, Ok r) => (s, Ok (Some r))
                               | (s, Err err) => (s, Err err)
                               end
                     end in
  let e := set_store s e in
  match wrote with
  | Err err => (e, Err (store_error err))
  | Ok None => (e, Ok (duplicate_result None))
  | Ok (Some (off, _)) => (afterPersist class p topic payload off e, Ok (stored_result stream off topic))
  end.

Definition persistAttributed (f : Faults) (class : Class) (p : Parsed) (topic payload : string) (a : Attribution) (e : Engine)
    : Engine * result IngestErr Result := persistRecord f class p topic payload (c_ts c) a None e.

(** ** Refusals *)

(** [recordAuthorization]. *)
Definition recordAuthorization (d : AuditDenial) (outcome : string) (e : Engine) : Engine :=
  let d := boundDenial d in
  if negb (bool_decide (map_Forall (fun key _ => key ∈ auditMetadataKey) (ad_Metadata d))) then e
  else
    let raw := json_audit d outcome (c_auditID c) (c_ts c) in
    let topic := Prefix topic_root +:+ "_AuditEvent/" +:+ node +:+ "/_colca/audit/" +:+ c_auditID c in
    let rec := mkRec false topic raw (c_ts c) node 0 (ad_ActorID d) (ad_ActorLabel d) (ad_ActorKind d) [] "" "" [] "" "" "" "" false in
    match appendLocked (c_denial c) "audit" [rec] (eg_store e) with
    | (s, Ok _) => publish topic raw false (set_store s e)
    | (s, Err _) => set_store s e
    end.

(** [RecordDenial] of a denial without a peer. *)
Definition recordDenial (d : AuditDenial) (e : Engine) : Engine :=
  let '(m, write, repeated, since) := repeats_admit (en_Sprint env) d (c_now c) (eg_audit e) in
  let e := set_audit m e in
  if write : bool then recordAuthorization (repeatedDenial d repeated since) "denied" e else e.

Definition reject {A} (reason : string) (e : Engine) : Engine * result IngestErr A := (e, Err (Rejected reason false)).

Definition rejectDenied {A} (reason : string) (actor : Attribution) (operation : string) (p : option Parsed) (e : Engine) : Engine * result IngestErr A :=
  let d := match p with
           | Some p => mkDenial operation reason (tn_ActorID actor) (tn_ActorLabel actor) (tn_ActorKind actor) (Contract p) (Path p)
                         {[ "contract" := MStr (Contract p) ]} ""
           | None => mkDenial operation reason (tn_ActorID actor) (tn_ActorLabel actor) (tn_ActorKind actor) "" "" ∅ ""
           end in
  (recordDenial d e, Err (Rejected reason true)).

(** ** Commands and the ledger *)

Definition ackTopicFor (p : Parsed) : string := Prefix topic_root +:+ "_Ack/" +:+ NodeID p +:+ "/" +:+ Path p.

(** [answer]: the outcome, when there is someone to answer. *)
Definition answer (p : Parsed) (payload actor : string) (code : Z) (message : string) (e : Engine) : Engine * option CommandOutcome :=
  let id := lenientCorrelationID payload in
  if id == "" then (e, None)
  else
    let outcome := plain_outcome id code message in
    let ack := json_outcome outcome in
    let topic := ackTopicFor p in
    match ledger_admit (c_now c) id actor (eg_ledger e) with
    | (l, (ledgerForeignUse, _, _)) => (set_ledger l e, None)
    | (l, (ledgerRepeat, _, None)) => (set_ledger l e, None)
    | (l, (ledgerRepeat, heldTopic, Some held)) =>
        (publish heldTopic held false (set_ledger l e), Some (default outcome (json_read_outcome held)))
    | (l, (ledgerNew, _, _)) => (publish topic ack false (set_ledger (acked id topic ack l) e), Some outcome)
    end.

Definition refuseCommandPayload (p : Parsed) (payload actor cause : string) (e : Engine) : Engine :=
  fst (answer p payload actor 400 ("command refused: " +:+ cause) e).

Definition refuseDeniedCommand (p : Parsed) (payload actor : string) (e : Engine) : Engine :=
  fst (answer p payload actor 403 ("not authorized: no grant covers " +:+ Contract p +:+ " " +:+ Path p) e).

Definition answeredUnannounced (p : Parsed) (payload actor message : string) (e : Engine) : Engine * Result :=
  let '(e, outcome) := answer p payload actor 404 message e in
  (e, mkResult false false true "" 0 "" (Some (default (plain_outcome "" 404 message) outcome)) false).

(** [refuseForeignUse]. *)
Definition refuseForeignUse (p : Parsed) (id actor : string) (e : Engine) : Engine :=
  if negb (en_bus env) then e
  else
    let ack := json_outcome (plain_outcome id 422 "correlation id already used by another sender's command") in
    publish (ackTopicFor p) ack false (set_ledger (refuse id actor ack (eg_ledger e)) e).

(** [admitCommand]: the id to forget should the command not be accepted, and whether it
    is a repeat. *)
Definition admitCommand (p : Parsed) (payload actor : string) (e : Engine) : Engine * result IngestErr (string * bool) :=
  let id := correlationID payload in
  if id == "" then (e, Ok ("", false))
  else match ledger_admit (c_now c) id actor (eg_ledger e) with
       | (l, (ledgerForeignUse, _, _)) => let '(e, err) := reject "validation" (set_ledger l e) in (refuseForeignUse p id actor e, err)
       | (l, (ledgerRepeat, ackTopic, ack)) =>
           let e := set_ledger l e in
           (match ack with Some ack => publish ackTopic ack false e | None => e end, Ok ("", true))
       | (l, (ledgerNew, _, _)) => (set_ledger l e, Ok (id, false))
       end.

Definition repeated (payload : string) (e : Engine) : Result :=
  let '(_, _, ack) := lookup_ledger (correlationID payload) (eg_ledger e) in
  duplicate_result (match ack with Some ack => json_read_outcome ack | None => None end).

(** ** Commands that wait, commands that run *)

Definition ackAttribution (of_ : Attribution) : Attribution := mkAttribution node (tn_ActorID of_) (tn_ActorLabel of_) (tn_ActorKind of_) "" "" [] [] "" "".

Definition persistAck (f : Faults) (p : Parsed) (body : string) (a : Attribution) (e : Engine) : Engine :=
  let topic := ackTopicFor p in
  match Parse topic with
  | Err _ => e
  | Ok ap => fst (persistAttributed f ClassAck ap topic body (ackAttribution a) e)
  end.

Definition queuedForChild (p : Parsed) : bool :=
  if NodeID p == node then false
  else match en_Get env (NodeID p) with
       | Some target => if MayUseDoor (Some target) DoorMQTT then false
                        else match en_RoutesUnder env with Some routes => routes (Path p) | None => false end
       | None => match en_RoutesUnder env with Some routes => routes (Path p) | None => false end
       end.

Definition writeProgress (p : Parsed) (payload : string) (a : Attribution) (stage message : string) (e : Engine) : Engine :=
  let id := correlationID payload in
  if id == "" then e else persistAck (c_note c) p (json_progress id stage message (c_ts c)) a e.

Definition noteQueued (p : Parsed) (payload : string) (a : Attribution) (e : Engine) : Engine :=
  if negb (CommandWantsProgress payload) || negb (queuedForChild p) then e
  else writeProgress p payload a "queued" ("accepted and queued for the child node that holds " +:+ Path p) e.

(** [ack]. *)
Definition ack (verb : string) (outcome : CommandOutcome) (a : Attribution) (e : Engine) : Engine :=
  let topic := Prefix topic_root +:+ "_Ack/" +:+ node +:+ "/" +:+ verb in
  match Parse topic with
  | Err _ => e
  | Ok p => fst (persistAttributed (c_ack c) ClassAck p topic (json_outcome outcome) (ackAttribution a) e)
  end.

(** [maybeExec]; [json_correlation_id] is [None] when the envelope does not decode. *)
Definition maybeExec (p : Parsed) (payload : string) (a : Attribution) (actor : option Entry) (e : Engine) : Engine * option CommandOutcome :=
  if (NodeID p != node) || negb (en_handles env (Contract p)) then (e, None)
  else
    let verb := Path p in
    let id := correlationID payload in
    if id == "" then (e, None)
    else if match CommandDeadline payload with Some deadline => (deadline <=? c_ts c)%Z | None => false end
    then let outcome := plain_outcome id 498 "expired" in (ack verb outcome a e, Some outcome)
    else
      let ctx := mkContext actor (tn_ActorID a) (tn_ActorLabel a) (tn_ActorKind a) in
      let '(h, pubs, r) := en_exec env ctx (Contract p) verb payload (eg_held e) in
      let e := add_run p payload (add_bus pubs (set_held h e)) in
      let outcome := mkOutcome id (cr_code r) (cr_message r) (cr_writes r) (cr_data r) in
      (ack verb outcome a e, Some outcome).

(** What a door does with a command it accepted: the ledger, the record, the note to a
    waiting sender, the execution. [persist] stores the record. *)
Definition acceptCommand (persist : Engine -> Engine * result IngestErr Result) (p : Parsed) (payload : string) (a : Attribution) (actor : option Entry)
    (e : Engine) : Engine * result IngestErr Result :=
  match admitCommand p payload (tn_ActorID a) e with
  | (e, Err err) => (e, Err err)
  | (e, Ok (_, true)) => (e, Ok (repeated payload e))
  | (e, Ok (id, false)) =>
      match persist e with
      | (e, Err err) => (set_ledger (ledger_forget id (eg_ledger e)) e, Err err)
      | (e, Ok res) =>
          let e := noteQueued p payload a e in
          let '(e, outcome) := maybeExec p payload a actor e in
          (e, Ok (with_command outcome res))
      end
  end.

(** ** Who acts *)

Definition attributionForEntry (entry : Entry) : Attribution :=
  let label := ActorLabel (Some entry) in
  let label := if (label == "") && negb (IsHuman (Some entry)) then ULID entry else label in
  mkAttribution (ULID entry) (ULID entry) label (ActorKind (Some entry)) (ServiceClient entry) (Email entry) [] (Groups entry) (Credential entry) "".

(** The person of an attribution as this node knows them. *)
Definition as_person (a : Attribution) (email : string) (signedInHere : bool) (entry : Entry) : Entry :=
  mkEntry (ULID entry) (Pubkey entry) (Kind entry) (Name entry) (ElementOf entry) (EntryGrants entry) (Groups entry) (tn_ActorLabel a) (tn_ActorClient a)
    email signedInHere (Credential entry) (Status entry).

Definition actorForCredential (a : Attribution) (signedInHere : bool) : option Entry :=
  as_person a (tn_ActorEmail a) signedInHere <$> en_pats env (tn_ActorCredential a) (tn_ActorID a).

Definition actorForAttested (a : Attribution) (signedInHere : bool) : option Entry :=
  if (tn_ActorKind a != "human") || (tn_ActorID a == "") then None
  else if tn_ActorCredential a != "" then actorForCredential a signedInHere
  else if (length (tn_ActorGroups a) =? 0)%nat then None
  else (fun entry => as_person a (Email entry) signedInHere entry) <$> en_groups env (tn_ActorID a) (tn_ActorGroups a).

Definition unknown_service (identity : string) : Attribution := mkAttribution "" identity identity "service" "" "" [] [] "" "".

(** ** The client door *)

(** [gateLog] of the [i]-th record of a call: whether it is withheld. *)
Definition gateLog (i : nat) (class : Class) (p : Parsed) (e : Engine) : Engine * bool :=
  if negb (IsLog class) || (NodeID p != node) then (e, false)
  else
    let write e '(topic, payload, author) :=
      match Parse topic with
      | Err _ => e
      | Ok p => fst (persistAttributed (c_gateFaults c) ClassLog p topic payload author e)
      end in
    (foldl write e (ga_writes (c_gate c i)), ga_held (c_gate c i)).

Definition withheld_result (class : Class) (topic : string) : Result := mkResult false false false (StreamFor class) 0 topic None true.

(** [admitClientData]. *)
Definition admitClientData (identity : string) (p : Parsed) (class : Class) (topic payload : string) (actorFor : Entry -> Attribution) (e : Engine)
    : Engine * result IngestErr Attribution :=
  if negb (IsKnown class) then reject "grammar" e
  else if NodeID p != node then reject "node_id" e
  else match validateContract (en_contracts env) (en_validate env) (Contract p) payload with
  | Some _ => reject "validation" e
  | None =>
      if negb (validateClientStateAuthor (en_contracts env) node identity p payload) then reject "identity" e
      else match en_Get env identity with
      | None => rejectDenied "write_denied" (unknown_service identity) "publish" (Some p) e
      | Some entry =>
          if negb (Authorize topic_root (scope_of e) entry ActPub topic) then rejectDenied "write_denied" (actorFor entry) "publish" (Some p) e
          else if IsMetric (Contract p) && negb (checkMetricProducer node (eg_store e) (h_index (eg_held e)) (h_cats (eg_held e)) entry p)
          then rejectDenied "not_producer" (actorFor entry) "publish" (Some p) e
          else (e, Ok (actorFor entry))
      end
  end.

(** The command branch of [ingestClientAttributed]. *)
Definition clientCommand (identity : string) (p : Parsed) (class : Class) (topic payload : string) (actorFor : Entry -> Attribution) (e : Engine)
    : Engine * result IngestErr Result :=
  if en_DrainingMount env (Path p) then reject "draining" e
  else match en_Get env identity with
  | None => rejectDenied "cmd_denied" (unknown_service identity) "execute" (Some p) e
  | Some entry =>
      let a := with_door doorClient (actorFor entry) in
      let attested := actorForAttested a true in
      let actor := default entry attested in
      let a := match attested with Some person => with_classes (ClassesAt (scope_of e) (Some person) (Contract p) (Path p)) a | None => a end in
      let implicit := bool_decide (attested = None) && (NodeID p == node)
                      && (MayImplicitlyConfigure (Some entry) (Contract p) || MayImplicitlyDeliverAppNotification (Some entry) (Contract p) (Path p)) in
      if negb implicit && negb (Authorize topic_root (scope_of e) actor ActCmd topic)
      then rejectDenied "cmd_denied" a "execute" (Some p) (refuseDeniedCommand p payload (tn_ActorID a) e)
      else match validateContract (en_contracts env) (en_validate env) (Contract p) payload with
      | Some cause => reject "validation" (refuseCommandPayload p payload (tn_ActorID a) cause e)
      | None =>
          match unannounced node (en_strict env) (en_handles env) (en_routes env (eg_store e)) p with
          | Some message => let '(e, r) := answeredUnannounced p payload (tn_ActorID a) message e in (e, Ok r)
          | None => acceptCommand (persistAttributed (c_record c) class p topic payload a) p payload a (Some actor) e
          end
      end
  end.

(** The audit branch. *)
Definition clientAudit (identity : string) (p : Parsed) (class : Class) (topic payload : string) (actorFor : Entry -> Attribution) (e : Engine)
    : Engine * result IngestErr Result :=
  match en_Get env identity with
  | None => rejectDenied "write_denied" (unknown_service identity) "publish" (Some p) e
  | Some entry =>
      if negb (MayPublishAudit (Some entry)) then rejectDenied "write_denied" (actorFor entry) "publish" (Some p) e
      else if NodeID p != node then reject "node_id" e
      else if bool_decide (is_Some (validateContract (en_contracts env) (en_validate env) (Contract p) payload)) then reject "validation" e
      else if negb (ValidateAuditTopic p payload) then reject "identity" e
      else persistAttributed (c_record c) class p topic payload (actorFor entry) e
  end.

(** The data branch: state, metrics, logs, alarms, acks. *)
Definition clientData (identity : string) (p : Parsed) (class : Class) (topic payload : string) (actorFor : Entry -> Attribution) (e : Engine)
    : Engine * result IngestErr Result :=
  match admitClientData identity p class topic payload actorFor e with
  | (e, Err err) => (e, Err err)
  | (e, Ok a) =>
      match gateLog 0 class p e with
      | (e, true) => (e, Ok (withheld_result class topic))
      | (e, false) =>
          match persistAttributed (c_record c) class p topic payload a e with
          | (e, Ok res) => (observe p topic payload e, Ok res)
          | (e, Err err) => (e, Err err)
          end
      end
  end.

Definition ingestClientAttributed (identity topic payload : string) (supplied : option Attribution) (e : Engine) : Engine * result IngestErr Result :=
  let actorFor entry := default (attributionForEntry entry) supplied in
  if negb (IsUns topic_root topic) then (e, Ok no_result)
  else match Parse topic with
  | Err _ => reject "grammar" e
  | Ok p =>
      if Contract p == "_EnrolledIdentity" then reject "registry_contract" e
      else
        let class := ClassOf (Contract p) in
        if IsCommand class then clientCommand identity p class topic payload actorFor e
        else if IsAudit class then clientAudit identity p class topic payload actorFor e
        else clientData identity p class topic payload actorFor e
  end.

Definition IngestClient (identity topic payload : string) (e : Engine) : Engine * result IngestErr Result :=
  ingestClientAttributed identity topic payload None e.

Definition IngestLocalAttributed (identity topic payload : string) (actor : Attribution) (e : Engine) : Engine * result IngestErr Result :=
  match en_Get env identity with
  | None => rejectDenied "write_denied" no_attribution "publish" None e
  | Some entry =>
      if negb (MayUseDoor (Some entry) DoorLocal) then rejectDenied "write_denied" (attributionForEntry entry) "publish" None e
      else if (tn_ActorID actor == "") || negb (ValidActorKind (tn_ActorKind actor)) then reject "identity" e
      else
        let label := if (tn_ActorLabel actor == "") && (tn_ActorKind actor != "human") then tn_ActorID actor else tn_ActorLabel actor in
        let actor := mkAttribution (ULID entry) (tn_ActorID actor) label (tn_ActorKind actor) (tn_ActorClient actor) (tn_ActorEmail actor)
                       (tn_ActorClasses actor) (tn_ActorGroups actor) (tn_ActorCredential actor) (tn_Door actor) in
        ingestClientAttributed identity topic payload (Some actor) e
  end.

(** ** The human door *)

Definition IngestHuman (entry : Entry) (topic payload : string) (e : Engine) : Engine * result IngestErr Result :=
  let a := attributionForEntry entry in
  if negb (IsUns topic_root topic) then reject "grammar" e
  else match Parse topic with
  | Err _ => reject "grammar" e
  | Ok p =>
      let class := ClassOf (Contract p) in
      if Contract p == "_EnrolledIdentity" then reject "registry_contract" e
      else if negb (IsKnown class) then reject "grammar" e
      else if IsAudit class then rejectDenied "write_denied" a "publish" (Some p) e
      else if negb (IsCommand class) then rejectDenied "human_write" a "publish" (Some p) e
      else if negb (MayPublishContract (Some entry) (Contract p)) then rejectDenied "human_write" a "publish" (Some p) e
      else if en_DrainingMount env (Path p) then reject "draining" e
      else if negb (Authorize topic_root (scope_of e) entry ActCmd topic)
      then rejectDenied "cmd_denied" a "execute" (Some p) (refuseDeniedCommand p payload (ULID entry) e)
      else match validateContract (en_contracts env) (en_validate env) (Contract p) payload with
      | Some cause => reject "validation" (refuseCommandPayload p payload (ULID entry) cause e)
      | None =>
          match unannounced node (en_strict env) (en_handles env) (en_routes env (eg_store e)) p with
          | Some message => let '(e, r) := answeredUnannounced p payload (ULID entry) message e in (e, Ok r)
          | None =>
              let a := with_classes (ClassesAt (scope_of e) (Some entry) (Contract p) (Path p)) (with_door doorHuman a) in
              let again := match actorForAttested a true with
                           | Some attested => Authorize topic_root (scope_of e) attested ActCmd topic
                           | None => false
                           end in
              let a := if again then a else with_door "" a in
              acceptCommand (persistAttributed (c_record c) class p topic payload a) p payload a (Some entry) e
          end
      end
  end.

(** ** The admin door *)

Definition persistAdminRecord (class : Class) (p : Parsed) (topic payload : string) (a : Attribution) (e : Engine) : Engine * result IngestErr Result :=
  if (Contract p == "_ExternalReference") && (NodeID p == node) && negb (en_checkRecords env (eg_store e) [(topic, payload)])
  then (e, Err Invalid)
  else persistAttributed (c_record c) class p topic payload a e.

Definition IngestAdminAttributed (topic payload : string) (a : Attribution) (e : Engine) : Engine * result IngestErr Result :=
  if negb (IsUns topic_root topic) then (e, Err Invalid)
  else match Parse topic with
  | Err _ => (e, Err Invalid)
  | Ok p =>
      let class := ClassOf (Contract p) in
      if Contract p == "_EnrolledIdentity" then (e, Err Invalid)
      else if IsAudit class then rejectDenied "write_denied" a "publish" (Some p) e
      else if IsCommand class && en_DrainingMount env (Path p) then (e, Err Invalid)
      else if negb (IsKnown class) then (e, Err Invalid)
      else match validateContract (en_contracts env) (en_validate env) (Contract p) payload with
      | Some cause => (if IsCommand class then refuseCommandPayload p payload (tn_ActorID a) cause e else e, Err Invalid)
      | None =>
          if negb (validateAdminStateAuthor (en_contracts env) node p payload) then (e, Err Invalid)
          else if IsCommand class then
            match unannounced node (en_strict env) (en_handles env) (en_routes env (eg_store e)) p with
            | Some message => let '(e, r) := answeredUnannounced p payload (tn_ActorID a) message e in (e, Ok r)
            | None => acceptCommand (persistAdminRecord class p topic payload a) p payload a None e
            end
          else
            match gateLog 0 class p e with
            | (e, true) => (e, Ok (withheld_result class topic))
            | (e, false) =>
                match persistAdminRecord class p topic payload a e with
                | (e, Err err) => (set_ledger (ledger_forget "" (eg_ledger e)) e, Err err)
                | (e, Ok res) => let '(e, outcome) := maybeExec p payload a None e in (e, Ok (with_command outcome res))
                end
            end
      end
  end.

Definition IngestAdmin (topic payload : string) (e : Engine) : Engine * result IngestErr Result :=
  IngestAdminAttributed topic payload (mkAttribution "admin" "admin" "admin" "system" "" "" [] [] "" "") e.

(** ** The doors of the downlink *)

Definition IngestDownlinkAttributed (topic payload : string) (ts : Z) (a : Attribution) (at_to : option CursorAdvance) (e : Engine)
    : Engine * result IngestErr Result :=
  match Parse topic with
  | Err _ => reject "grammar" e
  | Ok p =>
      let class := ClassOf (Contract p) in
      if IsCommand class && en_DrainingMount env (Path p) then reject "draining" e
      else match persistRecord (c_record c) class p topic payload ts a at_to e with
      | (e, Err err) => (e, Err err)
      | (e, Ok res) => (if re_Persisted res then fst (maybeExec p payload a (actorForAttested a false) e) else e, Ok res)
      end
  end.

Record DownlinkCommand := mkDownlink { dl_Topic : string; dl_Payload : string; dl_TS : Z; dl_Attribution : Attribution }.

(** What [IngestDownlinkPage] did with one command. *)
Inductive PageResult := PageStored (off : N) | PageDuplicate | PageRefused (reason : string).

Inductive PageErr := NotOnePage | PageTooLarge | PageNotWritten.

(** The loop over a page: for each command what it parses to, or why it is refused. *)
Fixpoint page_commands (stream : string) (cmds : list DownlinkCommand) : option (list (DownlinkCommand * (string + Parsed))) :=
  match cmds with
  | [] => Some []
  | cmd :: cmds =>
      match Parse (dl_Topic cmd) with
      | Err _ => rest ← page_commands stream cmds; Some ((cmd, inl "grammar") :: rest)
      | Ok p =>
          let class := ClassOf (Contract p) in
          if negb (IsCommand class) || ((stream != "") && (StreamFor class != stream)) then None
          else rest ← page_commands (StreamFor class) cmds;
               Some ((cmd, if en_DrainingMount env (Path p) then inl "draining" else inr p) :: rest)
      end
  end.

Definition kept_command (x : DownlinkCommand * (string + Parsed)) : option (DownlinkCommand * Parsed) :=
  match x with (cmd, inr p) => Some (cmd, p) | _ => None end.

Definition page_record (x : DownlinkCommand * Parsed) : Rec :=
  record_of (ClassOf (Contract x.2)) x.2 (dl_Topic x.1) (dl_Payload x.1) (dl_TS x.1) (dl_Attribution x.1).

(** Delivery and execution of the kept commands, in order. *)
Fixpoint page_run (off : N) (kept : list (DownlinkCommand * Parsed)) (e : Engine) : Engine :=
  match kept with
  | [] => e
  | (cmd, p) :: kept =>
      let e := afterPersist (ClassOf (Contract p)) p (dl_Topic cmd) (dl_Payload cmd) off e in
      let e := fst (maybeExec p (dl_Payload cmd) (dl_Attribution cmd) (actorForAttested (dl_Attribution cmd) false) e) in
      page_run (off + 1)%N kept e
  end.

Fixpoint page_results (applied : option N) (cmds : list (DownlinkCommand * (string + Parsed))) : list PageResult :=
  match cmds with
  | [] => []
  | (_, inl reason) :: cmds => PageRefused reason :: page_results applied cmds
  | (_, inr _) :: cmds =>
      match applied with
      | None => PageDuplicate :: page_results None cmds
      | Some off => PageStored off :: page_results (Some (off + 1)%N) cmds
      end
  end.

Definition IngestDownlinkPage (cmds : list DownlinkCommand) (at_to : CursorAdvance) (e : Engine) : Engine * result PageErr (list PageResult) :=
  match page_commands "" cmds with
  | None => (e, Err NotOnePage)
  | Some parsed =>
      let kept := omap kept_command parsed in
      match kept with
      | [] => (e, Ok (page_results None parsed))
      | (_, p) :: _ =>
          match AppendAdvancing (c_record c) (c_ms c) (StreamFor (ClassOf (Contract p))) (page_record <$> kept) at_to (eg_store e) with
          | (s, Err (ERecordTooLarge _ _)) => (set_store s e, Err PageTooLarge)
          | (s, Err _) => (set_store s e, Err PageNotWritten)
          | (s, Ok None) => (set_store s e, Ok (page_results None parsed))
          | (s, Ok (Some (first, _))) => (page_run first kept (set_store s e), Ok (page_results (Some first) parsed))
          end
      end
  end.

Definition IngestDownlinkDefinitionAttributed (topic payload : string) (ts : Z) (a : Attribution) (e : Engine) : Engine * result IngestErr Result :=
  match Parse topic with
  | Err _ => reject "grammar" e
  | Ok p =>
      let class := ClassOf (Contract p) in
      if negb (IsDefinition class) then reject "grammar" e
      else if bool_decide (is_Some (validateContract (en_contracts env) (en_validate env) (Contract p) payload)) then reject "validation" e
      else persistRecord (c_record c) class p topic payload ts a None e
  end.

(** ** What retention writes again *)

(** [IngestRefresh]: [None] when the entry has changed since it was read. *)
Definition IngestRefresh (topic payload : string) (ifKVOffset : N) (e : Engine) : Engine * result IngestErr (option Result) :=
  if negb (IsUns topic_root topic) then (e, Err Invalid)
  else match Parse topic with
  | Err _ => (e, Err Invalid)
  | Ok p =>
      let class := ClassOf (Contract p) in
      if negb (IsOwnedState class) then (e, Err Invalid)
      else if payload == "" then (e, Err Invalid)
      else if bool_decide (is_Some (validateContract (en_contracts env) (en_validate env) (Contract p) payload)) then (e, Err Invalid)
      else
        let rec := mkRec false topic payload (c_ts c) "colca-retention" 0 "" "" "" [] "" "" [] "" "" (Path p) (NodeID p) false in
        match AppendIfKVUnchanged (c_record c) (StreamFor class) rec ifKVOffset (eg_store e) with
        | (s, Err err) => (set_store s e, Err (store_error err))
        | (s, Ok None) => (set_store s e, Ok None)
        | (s, Ok (Some off)) =>
            (publish topic payload (retainFor class) (set_store s e), Ok (Some (stored_result (StreamFor class) off topic)))
        end
  end.

(** ** What an executor writes *)

(** The checks of [ingestAdminStateBatch] on one record: what it parses to. *)
Definition admin_state (stream topic payload : string) : option Parsed :=
  if negb (IsUns topic_root topic) then None
  else match Parse topic with
  | Err _ => None
  | Ok p =>
      let class := ClassOf (Contract p) in
      if (Contract p == "_EnrolledIdentity") || negb (IsKnown class) || negb (IsCommandAuthoredState class)
         || ((stream != "") && (StreamFor class != stream)) || (NodeID p != node)
         || bool_decide (is_Some (validateContract (en_contracts env) (en_validate env) (Contract p) payload))
         || negb (validateAdminStateAuthor (en_contracts env) node p payload)
      then None else Some p
  end.

Fixpoint admin_states (stream : string) (records : list (string * string)) : option (list (Parsed * (string * string))) :=
  match records with
  | [] => Some []
  | (topic, payload) :: records =>
      p ← admin_state stream topic payload;
      rest ← admin_states (if stream == "" then StreamFor (ClassOf (Contract p)) else stream) records;
      Some ((p, (topic, payload)) :: rest)
  end.

(** A record an executor writes; it has no door. *)
Definition admin_record (a : Attribution) (x : Parsed * (string * string)) : Rec :=
  mkRec false x.2.1 x.2.2 (c_ts c) (tn_WrittenBy a) 0 (tn_ActorID a) (tn_ActorLabel a) (tn_ActorKind a) (tn_ActorGroups a) (tn_ActorClient a)
    (tn_ActorEmail a) (tn_ActorClasses a) (tn_ActorCredential a) "" (Path x.1) (NodeID x.1) (x.2.2 == "").

Fixpoint admin_published (stream : string) (off : N) (states : list (Parsed * (string * string))) (e : Engine) : Engine * list Result :=
  match states with
  | [] => (e, [])
  | (p, (topic, payload)) :: states =>
      let e := observeIndexes (Contract p) topic payload e in
      let e := publish topic payload (retainFor (ClassOf (Contract p))) e in
      let '(e, rs) := admin_published stream (off + 1)%N states e in (e, stored_result stream off topic :: rs)
  end.

Definition ingestAdminStateBatch (records : list (string * string)) (a : Attribution) (e : Engine) : Engine * result IngestErr (list Result) :=
  match records with
  | [] => (e, Ok [])
  | _ =>
      match admin_states "" records with
      | None => (e, Err Invalid)
      | Some states =>
          let stream := match states with (p, _) :: _ => StreamFor (ClassOf (Contract p)) | [] => "" end in
          let checked := existsb (fun x => (Contract x.1 == "_Signal") || (Contract x.1 == "_ExternalReference")) states in
          if checked && negb (en_checkRecords env (eg_store e) records) then (e, Err Invalid)
          else match appendLocked (c_record c) stream (admin_record a <$> states) (eg_store e) with
          | (s, Err err) => (set_store s e, Err (store_error err))
          | (s, Ok (first, _)) => let '(e, rs) := admin_published stream first states (set_store s e) in (e, Ok rs)
          end
      end
  end.

Definition ingestAdminEvent (topic payload : string) (a : Attribution) (e : Engine) : Engine * result IngestErr Result :=
  if negb (IsUns topic_root topic) then (e, Err Invalid)
  else match Parse topic with
  | Err _ => (e, Err Invalid)
  | Ok p =>
      let class := ClassOf (Contract p) in
      if negb (IsKnown class) || negb (IsCommandAuthoredEvent class) || (NodeID p != node) || (payload == "")
         || bool_decide (is_Some (validateContract (en_contracts env) (en_validate env) (Contract p) payload)) then (e, Err Invalid)
      else
        let rec := mkRec false topic payload (c_ts c) (tn_WrittenBy a) 0 (tn_ActorID a) (tn_ActorLabel a) (tn_ActorKind a) (tn_ActorGroups a)
                     (tn_ActorClient a) (tn_ActorEmail a) (tn_ActorClasses a) (tn_ActorCredential a) "" "" "" false in
        match appendLocked (c_record c) (StreamFor class) [rec] (eg_store e) with
        | (s, Err err) => (set_store s e, Err (store_error err))
        | (s, Ok (first, _)) =>
            (publish topic payload (retainFor class) (observeIndexes (Contract p) topic payload (set_store s e)),
             Ok (stored_result (StreamFor class) first topic))
        end
  end.

(** ** Many client records at once ([batch.go]) *)

(** A record of the batch that was let in, with its place. *)
Record Admitted_ := mkAdmitted { am_index : nat; am_parsed : Parsed; am_class : Class; am_topic : string; am_payload : string; am_record : Rec }.

(** The checks of one record. *)
Definition batch_check (identity topic payload : string) (i : nat) (e : Engine) : Engine * (result IngestErr Result + Admitted_) :=
  if negb (IsUns topic_root topic) then (e, inl (Err (Rejected "grammar" false)))
  else match Parse topic with
  | Err _ => (e, inl (Err (Rejected "grammar" false)))
  | Ok p =>
      let class := ClassOf (Contract p) in
      if Contract p == "_EnrolledIdentity" then (e, inl (Err (Rejected "registry_contract" false)))
      else if IsCommand class then (e, inl (Err (Rejected "validation" false)))
      else if IsAudit class then (e, inl (Err (Rejected "write_denied" false)))
      else match admitClientData identity p class topic payload attributionForEntry e with
      | (e, Err err) => (e, inl (Err err))
      | (e, Ok a) =>
          match gateLog i class p e with
          | (e, true) => (e, inl (Ok (withheld_result class topic)))
          | (e, false) => (e, inr (mkAdmitted i p class topic payload (record_of class p topic payload (c_ts c) a)))
          end
      end
  end.

Fixpoint batch_checks (identity : string) (i : nat) (records : list (string * string)) (e : Engine)
    : Engine * list (nat * result IngestErr Result) * list Admitted_ :=
  match records with
  | [] => (e, [], [])
  | (topic, payload) :: records =>
      let '(e, x) := batch_check identity topic payload i e in
      let '(e, rs, ins) := batch_checks identity (S i) records e in
      match x with
      | inl r => (e, (i, r) :: rs, ins)
      | inr a => (e, rs, a :: ins)
      end
  end.

(** What follows the records of one stream. *)
Fixpoint batch_published (stream : string) (off : N) (ins : list Admitted_) (e : Engine) : Engine * list (nat * result IngestErr Result) :=
  match ins with
  | [] => (e, [])
  | a :: ins =>
      let topic := am_topic a in
      let payload := am_payload a in
      let e := if IsAck (am_class a) && (correlationID payload != "")
               then set_ledger (acked (correlationID payload) topic payload (eg_ledger e)) e else e in
      let e := observeIndexes (Contract (am_parsed a)) topic payload e in
      let e := publish topic payload (retainFor (am_class a)) e in
      let e := observe (am_parsed a) topic payload e in
      let '(e, rs) := batch_published stream (off + 1)%N ins e in
      (e, (am_index a, Ok (stored_result stream off topic)) :: rs)
  end.

(** Why a record was not written: it is over the cap itself, or the write failed. *)
Definition batch_failed (s : Store) (err : StoreErr) (a : Admitted_) : IngestErr :=
  match err with
  | ERecordTooLarge _ _ =>
      if (0 <? maxRecordBytes s)%N && (maxRecordBytes s <? N.of_nat (String.length (am_payload a)))%N then TooLarge else NotWritten
  | _ => NotWritten
  end.

(** The streams of the admitted records, in the order they came; each is one append, and
    [fs] says what goes wrong with it. *)
Fixpoint batch_streams (fs : string -> Faults) (names : list string) (ins : list Admitted_) (e : Engine) : Engine * list (nat * result IngestErr Result) :=
  match names with
  | [] => (e, [])
  | stream :: names =>
      let batch := filter (fun a => StreamFor (am_class a) = stream) ins in
      let '(e, rs) :=
        match appendLocked (fs stream) stream (am_record <$> batch) (eg_store e) with
        | (s, Err err) => (set_store s e, (fun a => (am_index a, Err (batch_failed s err a))) <$> batch)
        | (s, Ok (first, _)) => batch_published stream first batch (set_store s e)
        end in
      let '(e, rs') := batch_streams fs names ins e in (e, rs ++ rs')
  end.

(** [IngestClientBatch]: the answer of each record, by its place. *)
Definition IngestClientBatch (fs : string -> Faults) (identity : string) (records : list (string * string)) (e : Engine)
    : Engine * list (nat * result IngestErr Result) :=
  let '(e, rs, ins) := batch_checks identity 0 records e in
  let names := foldl (fun names a => add_new (StreamFor (am_class a)) names) [] ins in
  let '(e, rs') := batch_streams fs names ins e in (e, rs ++ rs').

End env.
End doors.
