(* ===== verification/IngestSpec.v ===== *)
(** * The doors: what each step does

    One specification covers every step of a door: the store only grows, and only in the
    streams named; what goes on the bus is a record the store has, or an answer to a
    command; and the ledger moves by operations of its own. The steps of [Ingest.v] are
    shown to meet it bottom up, so that a door is a sequence of steps. *)

From S2P Require Export Ingest.

Open Scope string_scope.
Open Scope list_scope.
Open Scope go_scope.

Section spec.
Context `{Codec} `{CommandCodec} `{StateCodec} `{LedgerCodec} `{DoorCodec}.

(** ** The store grows *)

Record Grows (S : list string) (s s' : Store) : Prop := {
  gr_inv : Inv s';
  gr_next : forall st, (NextOffset s st <= NextOffset s' st)%N;
  gr_quiet : forall st, st ∉ S -> NextOffset s' st = NextOffset s st;
  gr_old : forall st o, (o < NextOffset s st)%N -> record_at (db s') st o = record_at (db s) st o;
}.

Lemma Grows_refl S s : Inv s -> Grows S s s.
Proof. by split. Qed.

Lemma Grows_trans S s s1 s2 : Grows S s s1 -> Grows S s1 s2 -> Grows S s s2.
Proof.
  intros [A1 A2 A3 A4] [B1 B2 B3 B4]. split; [done| | |].
  - intros st. etrans; [apply A2|apply B2].
  - intros st Hst. by rewrite B3, A3.
  - intros st o Ho. rewrite B4, A4; [done|done|]. specialize (A2 st). lia.
Qed.

Lemma Grows_weaken S S' s s' : S ⊆ S' -> Grows S s s' -> Grows S' s s'.
Proof. intros Hs [A1 A2 A3 A4]. split; [done..| |done]. intros st Hst. apply A3. set_solver. Qed.

(** A publication the store has. *)
Definition durable (s : Store) (pub : Publication) : Prop :=
  exists st o e, (o < NextOffset s st)%N /\ record_at (db s) st o = Some e /\ e_Topic e = pub_topic pub /\ e_Payload e = pub_payload pub.

Lemma durable_grows S s s' pub : Grows S s s' -> durable s pub -> durable s' pub.
Proof.
  intros Hg (st & o & e & Ho & He & Ht & Hp). exists st, o, e. split_and!; [|by rewrite (gr_old _ _ _ Hg)|done..].
  pose proof (gr_next _ _ _ Hg st). lia.
Qed.

(** The record a door reports, as the store has it; whether it may leave the node is the
    store's own decision. *)
Definition stored (s : Store) (res : Result) (stream : string) (rec : Rec) : Prop :=
  re_Stream res = stream /\ exists l, (re_Offset res < NextOffset s stream)%N
    /\ record_at (db s) stream (re_Offset res) = Some (encode_rec (re_Offset res) (with_local_only l rec)).

Lemma stored_grows S s s' res stream rec : Grows S s s' -> stored s res stream rec -> stored s' res stream rec.
Proof.
  intros Hg (Hr & l & Ho & He). split; [done|]. exists l. split; [|by rewrite (gr_old _ _ _ Hg)]. pose proof (gr_next _ _ _ Hg stream). lia.
Qed.

Lemma put_records_at stream recs s i rec : recs !! i = Some rec ->
  record_at (db (put_records stream recs s)) stream (NextOffset s stream + N.of_nat i)
  = Some (encode_rec (NextOffset s stream + N.of_nat i) rec).
Proof.
  revert s i. induction recs as [|r recs IH]; intros s i Hi; [done|].
  change (put_records stream (r :: recs) s) with (put_records stream recs (put_record stream s r)).
  destruct i as [|i]; cbn [lookup list_lookup] in Hi.
  - simplify_eq. rewrite N.add_0_r. rewrite put_records_below by (intros _; rewrite put_next, decide_True by done; lia).
    rewrite record_at_put, decide_True by done. done.
  - specialize (IH (put_record stream s r) i Hi). rewrite put_next, decide_True in IH by done. by rewrite Nat2N.inj_succ, <- N.add_1_l, N.add_assoc.
Qed.

Lemma put_records_next stream recs s st :
  NextOffset (put_records stream recs s) st = if decide (st = stream) then (NextOffset s stream + N.of_nat (length recs))%N else NextOffset s st.
Proof.
  revert s. induction recs as [|r recs IH]; intros s.
  - cbn. case_decide; subst; lia.
  - change (put_records stream (r :: recs) s) with (put_records stream recs (put_record stream s r)). rewrite IH, !put_next. rewrite (decide_True (P := stream = stream)) by done.
    case_decide; cbn [length]; lia.
Qed.

Lemma decided_lookup recs lo i rec : recs !! i = Some rec -> exists l, decided recs lo !! i = Some (with_local_only l rec).
Proof.
  revert lo i. induction recs as [|r recs IH]; intros lo i Hi; [done|].
  assert (Hid : with_local_only (r_SourceLocalOnly rec) rec = rec) by by destruct rec.
  destruct lo as [[|l ls]|]; cbn [decided]; [exists (r_SourceLocalOnly rec); by rewrite Hid| |exists (r_SourceLocalOnly rec); by rewrite Hid].
  destruct i as [|i]; cbn in *; [simplify_eq; by exists l|by apply IH].
Qed.

(** An append adds its records at the head of its stream, or nothing. *)
Lemma append_grows f now stream recs adv s s' r : recs <> [] -> Inv s -> appendAdvancingLocked f now stream recs adv s = (s', r) ->
  match r with
  | Err _ => Grows [] s s'
  | Ok (first, _) => Grows [stream] s s' /\ first = NextOffset s stream
      /\ forall i rec, recs !! i = Some rec -> exists l, (first + N.of_nat i < NextOffset s' stream)%N
           /\ record_at (db s') stream (first + N.of_nat i) = Some (encode_rec (first + N.of_nat i) (with_local_only l rec))
  end.
Proof.
  intros Hne HI E. pose proof (appendLocked_inv f now stream recs adv s Hne HI) as HI'. rewrite E in HI'. cbn [fst] in HI'.
  apply appendAdvancingLocked_eq in E as (ps & Hps & Hr); [|by apply policies_ok_of_inv|done].
  destruct r as [[first last]|err]; [|subst s'; by split].
  destruct Hr as (lo & _ & Hk & -> & _ & ->). unfold append_outcome in *. set (s1 := put_records stream (decided recs lo) (set_policies ps s)) in *.
  set (s2 := set_db _ s1) in *. assert (Hn : forall st, NextOffset s2 st = NextOffset s1 st) by done.
  assert (Hrec : forall st o, record_at (db s2) st o = record_at (db s1) st o).
  { intros st o. unfold record_at, s2. store_simpl. rewrite lookup_apply_batch, batch_at_untouched; [done|].
    destruct adv as [adv|]; simpl; [|constructor]. repeat constructor; by apply bool_decide_eq_false_2. }
  assert (Hnext : forall st, NextOffset s2 st = if decide (st = stream) then (NextOffset s stream + N.of_nat (length recs))%N else NextOffset s st).
  { intros st. rewrite Hn. unfold s1. rewrite put_records_next, length_decided. done. }
  split_and!; [|done|].
  - split; [done| | |].
    + intros st. rewrite Hnext. case_decide; subst; lia.
    + intros st Hst. rewrite Hnext, decide_False by set_solver. done.
    + intros st o Ho. rewrite Hrec. unfold s1. by rewrite put_records_below by (intros ->; done).
  - intros i rec Hi. destruct (decided_lookup recs lo i rec Hi) as [l Hl]. exists l. split.
    + rewrite Hnext, decide_True by done. apply lookup_lt_Some in Hi. lia.
    + rewrite Hrec. exact (put_records_at stream (decided recs lo) (set_policies ps s) i _ Hl).
Qed.

Lemma advancing_grows f now stream recs adv s s' r : recs <> [] -> Inv s -> AppendAdvancing f now stream recs adv s = (s', r) ->
  match r with
  | Err _ | Ok None => Grows [] s s'
  | Ok (Some (first, _)) => Grows [stream] s s' /\ first = NextOffset s stream
      /\ forall i rec, recs !! i = Some rec -> exists l, (first + N.of_nat i < NextOffset s' stream)%N
           /\ record_at (db s') stream (first + N.of_nat i) = Some (encode_rec (first + N.of_nat i) (with_local_only l rec))
  end.
Proof.
  intros Hne HI. unfold AppendAdvancing. rewrite bool_decide_false by done. destruct (_ <=? _)%N; [intros [= <- <-]; by apply Grows_refl|].
  destruct (appendAdvancingLocked f now stream recs (Some adv) s) as [s1 r1] eqn:E. apply append_grows in E; [|done..].
  destruct r1 as [[first last]|err]; intros [= <- <-]; done.
Qed.

(** ** One step *)

Section env.
Variables (env : Env) (c : Call).

Abbreviation ClassOf := (class_of (en_contracts env)).

(** The topic of an answer to a command. *)
Definition answer_topic (topic : string) : Prop :=
  (exists p, topic = ackTopicFor p) \/ exists p, Parse topic = Ok p /\ IsAck (ClassOf (Contract p)) = true.

Definition backed (s : Store) (pub : Publication) : Prop := durable s pub \/ (pub_retain pub = false /\ answer_topic (pub_topic pub)).

Definition answers_ok (l : commandLedger) : Prop :=
  forall id held a, lg_entries l !! id = Some held -> le_ack held = Some a -> answer_topic (le_ackTopic held).

(** A node whose ledger holds answers only. *)
Record Eng (e : Engine) : Prop := { eng_inv : Inv (eg_store e); eng_ledger : answers_ok (eg_ledger e) }.

(** The executor and the observer write through the node's own doors for them: they
    append, and publish what they appended. *)
Record env_ok : Prop := {
  eo_exec : forall ctx contract verb payload h, Inv (h_store h) ->
    let '(h', pubs, _) := en_exec env ctx contract verb payload h in Grows streams (h_store h) (h_store h') /\ Forall (backed (h_store h')) pubs;
  eo_observe : forall p topic payload h, Inv (h_store h) ->
    let '(h', pubs) := en_observe env p topic payload h in Grows streams (h_store h) (h_store h') /\ Forall (backed (h_store h')) pubs;
}.

Definition event_ok (ev : levent) : Prop := match ev with Acked _ topic _ => answer_topic topic | _ => True end.

Record Step (S : list string) (e e' : Engine) (evs : list levent) (P : list Publication) (R : list (Parsed * string)) : Prop := {
  st_grows : Grows S (eg_store e) (eg_store e');
  st_bus : eg_bus e' = eg_bus e ++ P;
  st_backed : Forall (backed (eg_store e')) P;
  st_ledger : lsteps (eg_ledger e) evs (eg_ledger e');
  st_events : Forall event_ok evs;
  st_runs : eg_runs e' = eg_runs e ++ R;
}.

Lemma backed_grows S s s' pub : Grows S s s' -> backed s pub -> backed s' pub.
Proof. intros Hg [Hd|Ha]; [left; by eapply durable_grows|by right]. Qed.

Lemma Step_trans S e e1 e2 evs1 evs2 P1 P2 R1 R2 : Step S e e1 evs1 P1 R1 -> Step S e1 e2 evs2 P2 R2 ->
  Step S e e2 (evs1 ++ evs2) (P1 ++ P2) (R1 ++ R2).
Proof.
  intros [A1 A2 A3 A4 A5 A6] [B1 B2 B3 B4 B5 B6]. split.
  - by eapply Grows_trans.
  - by rewrite B2, A2, app_assoc.
  - apply Forall_app. split; [|done]. eapply Forall_impl; [exact A3|]. intros pub. by apply (backed_grows S).
  - by eapply lsteps_app.
  - by apply Forall_app.
  - by rewrite B6, A6, app_assoc.
Qed.

Lemma Step_weaken S S' e e' evs P R : S ⊆ S' -> Step S e e' evs P R -> Step S' e e' evs P R.
Proof. intros Hs [A1 A2 A3 A4 A5 A6]. split; [by eapply Grows_weaken|done..]. Qed.

Lemma answers_insert l id held : answers_ok l -> (forall a, le_ack held = Some a -> answer_topic (le_ackTopic held)) ->
  forall order, answers_ok (mkLedger (<[id := held]> (lg_entries l)) order).
Proof. intros Hl Hh order i x a. cbn [lg_entries]. intros [[<- <-] | [_ Hi]]%lookup_insert_Some Ha; [eauto|by eapply Hl]. Qed.

Lemma answers_step l ev l' : lstep l ev l' -> event_ok ev -> answers_ok l -> answers_ok l'.
Proof.
  intros Hs He Hl. destruct Hs as [now id actor l l' v topic ack Ha|id l|id topic payload l|id actor ack l|id payload l l' who Hr].
  - assert (Hx : answers_ok (expire now l)).
    { intros i x a Hi. eapply Hl. assert (Hsub : lg_entries (expire now l) ⊆ lg_entries l).
      { apply expire_subset. }
      by eapply lookup_weaken. }
    unfold ledger_admit in Ha. destruct (lg_entries (expire now l) !! id) as [held|]; [case_bool_decide; by simplify_eq/=|].
    simplify_eq. by apply answers_insert.
  - intros i x a. cbn [ledger_forget lg_entries]. intros [_ Hi]%lookup_delete_Some. by eapply Hl.
  - unfold acked. destruct (lg_entries l !! id) as [held|]; [|done]. destruct (le_ack held); [done|]. by apply answers_insert.
  - unfold refuse. destruct (lg_entries l !! id) as [held|] eqn:Eh; [|done]. apply answers_insert; [done|]. intros a. cbn. by eapply Hl.
  - unfold recipient in Hr. destruct (lg_entries l !! id) as [held|] eqn:Eh; [|by simplify_eq].
    destruct (take_refusal _ _) as [[w rest]|]; simplify_eq; [|done]. apply answers_insert; [done|]. intros a. cbn. by eapply Hl.
Qed.

Lemma Step_eng S e e' evs P R : Step S e e' evs P R -> Eng e -> Eng e'.
Proof.
  intros Hs [_ Hl]. split; [exact (gr_inv _ _ _ (st_grows _ _ _ _ _ _ Hs))|]. pose proof (st_ledger _ _ _ _ _ _ Hs) as Hls.
  pose proof (st_events _ _ _ _ _ _ Hs) as Hev. clear Hs. induction Hls as [l|l ev l1 evs l2 Hone _ IH]; [done|].
  apply Forall_cons in Hev as [He Hev]. apply IH; [by eapply answers_step|done].
Qed.

(** ** Steps that take no command *)

Definition quiet (ev : levent) : Prop :=
  match ev with Acked _ _ _ | Refuse _ _ _ | Recipient _ _ _ => True | Forget id => id = "" | Admit _ _ _ _ => False end.

Definition Quietly (S : list string) (R : list (Parsed * string)) (e e' : Engine) : Prop :=
  exists evs P, Forall quiet evs /\ Step S e e' evs P R.

Lemma Quietly_trans S R1 R2 e e1 e2 : Quietly S R1 e e1 -> Quietly S R2 e1 e2 -> Quietly S (R1 ++ R2) e e2.
Proof.
  intros (evs1 & P1 & Hq1 & Hs1) (evs2 & P2 & Hq2 & Hs2). exists (evs1 ++ evs2), (P1 ++ P2). split; [by apply Forall_app|by eapply Step_trans].
Qed.

Lemma Quietly_then S R e e1 e2 : Quietly S [] e e1 -> Quietly S R e1 e2 -> Quietly S R e e2.
Proof. apply (Quietly_trans S [] R). Qed.

Lemma Quietly_weaken S S' R e e' : S ⊆ S' -> Quietly S R e e' -> Quietly S' R e e'.
Proof. intros Hs (evs & P & Hq & Hst). exists evs, P. split; [done|by eapply Step_weaken]. Qed.

Lemma Quietly_eng S R e e' : Quietly S R e e' -> Eng e -> Eng e'.
Proof. intros (evs & P & _ & Hst). by eapply Step_eng. Qed.

(** The ways a step is made. *)
Lemma quiet_held S e h : Grows S (eg_store e) (h_store h) -> Quietly S [] e (set_held h e).
Proof. intros Hg. exists [], []. split; [done|]. split; [done|by rewrite app_nil_r|done|constructor|done|by rewrite app_nil_r]. Qed.

Lemma quiet_store S e s : Grows S (eg_store e) s -> Quietly S [] e (set_store s e).
Proof. intros Hg. by apply quiet_held. Qed.

Lemma quiet_refl S e : Eng e -> Quietly S [] e e.
Proof. intros He. exists [], []. split; [done|]. split; [apply Grows_refl, He|by rewrite app_nil_r|done|constructor|done|by rewrite app_nil_r]. Qed.

Lemma quiet_bus S e pubs : Eng e -> Forall (backed (eg_store e)) pubs -> Quietly S [] e (add_bus pubs e).
Proof. intros He Hp. exists [], pubs. split; [done|]. split; [apply Grows_refl, He|done|done|constructor|done|by rewrite app_nil_r]. Qed.

Lemma quiet_ledger S e ev l : Eng e -> quiet ev -> event_ok ev -> lstep (eg_ledger e) ev l -> Quietly S [] e (set_ledger l e).
Proof.
  intros He Hq Hok Hs. exists [ev], []. split; [by repeat constructor|].
  split; [apply Grows_refl, He|by rewrite app_nil_r|done|by apply lsteps_one|by repeat constructor|by rewrite app_nil_r].
Qed.

Lemma quiet_audit S e m : Eng e -> Quietly S [] e (set_audit m e).
Proof. intros He. exists [], []. split; [done|]. split; [apply Grows_refl, He|by rewrite app_nil_r|done|constructor|done|by rewrite app_nil_r]. Qed.

Lemma quiet_run S e p payload : Eng e -> Quietly S [(p, payload)] e (add_run p payload e).
Proof. intros He. exists [], []. split; [done|]. split; [apply Grows_refl, He|by rewrite app_nil_r|done|constructor|done|done]. Qed.

Lemma quiet_publish S e topic payload retain : Eng e -> backed (eg_store e) (mkPub topic payload retain) -> Quietly S [] e (publish env topic payload retain e).
Proof. intros He Hb. unfold publish. destruct (en_bus env); [|by apply quiet_refl]. apply quiet_bus; [done|]. by apply Forall_cons. Qed.

Context (Henv : env_ok).

Lemma quiet_indexes S e contract topic payload : Eng e -> Quietly S [] e (observeIndexes env contract topic payload e).
Proof. intros He. apply quiet_held. cbn. apply Grows_refl, He. Qed.

(** What a part outside did: it appended, and published what it appended. *)
Lemma quiet_outside e h pubs : Grows streams (eg_store e) (h_store h) -> Forall (backed (h_store h)) pubs -> Eng e ->
  Quietly streams [] e (add_bus pubs (set_held h e)).
Proof.
  intros Hg Hp He. pose proof (quiet_held streams e h Hg) as Hq. eapply (Quietly_then _ []); [exact Hq|]. apply quiet_bus; [by eapply Quietly_eng|exact Hp].
Qed.

Lemma quiet_observe e p topic payload : Eng e -> Quietly streams [] e (observe env p topic payload e).
Proof.
  intros He. unfold observe. pose proof (eo_observe Henv p topic payload (eg_held e) (eng_inv _ He)) as Ho.
  destruct (en_observe env p topic payload (eg_held e)) as [h pubs]. destruct Ho as [Hg Hp]. by apply quiet_outside.
Qed.

(** What [deliverCommand] publishes is the command, and it moves cursors only. *)
Lemma cursor_only_grows s s' : Inv s -> cursor_only s s' -> Grows [] s s'.
Proof.
  intros HI Hc. pose proof (cursor_only_inv s s' Hc HI) as HI'. destruct Hc as (d & -> & Hd). split; [done|done|done|].
  intros st o _. unfold record_at. store_simpl. by rewrite Hd by tag_in.
Qed.

Lemma deliverCommand_grows peeks cov f ms ids has now class p topic payload off s : Inv s ->
  let '(s', pubs, _) := deliverCommand peeks cov f ms ids has now class p topic payload off s in
  Grows [] s s' /\ Forall (fun pub => pub = mkPub topic payload (retainFor class)) pubs.
Proof.
  intros HI. unfold deliverCommand. pose proof (Grows_refl [] s HI) as Hr.
  assert (Hp : Forall (fun pub => pub = mkPub topic payload (retainFor class)) [mkPub topic payload (retainFor class)]) by by apply Forall_cons.
  destruct (ids (NodeID p)) as [target|]; [|by split]. destruct has as [has|]; [|by split].
  destruct (negb _); [by split|]. destruct (_ <? _)%N; [by split|]. destruct (owedBelow _ _ _ _ _ _ _ _); [by split|].
  destruct (_ || _); [|by split]. split; [|done]. apply cursor_only_grows; [done|]. apply CursorAck_only.
Qed.

(** ** Records *)

Lemma quiet_afterPersist S e class p topic payload off :
  Eng e -> durable (eg_store e) (mkPub topic payload (retainFor class)) -> (IsAck class = true -> answer_topic topic) ->
  (IsDefinition class = true -> S = streams) ->
  Quietly S [] e (afterPersist env c class p topic payload off e).
Proof.
  intros He Hd Ha Hdef. unfold afterPersist.
  set (e1 := if _ && _ && _ then _ else e). assert (Q1 : Quietly S [] e e1).
  { unfold e1. destruct (IsAck class) eqn:Eack; cbn [andb]; [|by apply quiet_refl]. destruct (_ && _); [|by apply quiet_refl].
    eapply quiet_ledger; [done| | |apply ls_acked]; [done|by apply Ha]. }
  clearbody e1. assert (He1 : Eng e1) by (by eapply Quietly_eng). set (e2 := observeIndexes _ _ _ _ e1).
  assert (Q2 : Quietly S [] e1 e2) by (by apply quiet_indexes). clearbody e2. assert (He2 : Eng e2) by (by eapply Quietly_eng).
  set (e3 := if IsDefinition class then _ else e2). assert (Q3 : Quietly S [] e2 e3).
  { unfold e3. destruct (IsDefinition class); [|by apply quiet_refl]. rewrite Hdef by done. by apply quiet_observe. }
  clearbody e3. assert (He3 : Eng e3) by (by eapply Quietly_eng).
  assert (Q : Quietly S [] e e3) by (repeat (eapply Quietly_then; [eassumption|]); by apply quiet_refl).
  assert (Hd3 : durable (eg_store e3) (mkPub topic payload (retainFor class))).
  { destruct Q as (? & ? & _ & Hs). by eapply durable_grows; [exact (st_grows _ _ _ _ _ _ Hs)|]. }
  eapply Quietly_then; [exact Q|]. destruct (en_bus env); [|by apply quiet_refl]. destruct (IsCommand class).
  - pose proof (deliverCommand_grows (en_peeks env) (en_covered env) (c_cursor c) (c_ms c) (en_Get env) (en_hasSubscriber env) (c_ts c) class p topic payload off
      (eg_store e3) (eng_inv _ He3)) as Hdc. destruct (deliverCommand _ _ _ _ _ _ _ _ _ _ _ _ _) as [[s' pubs] b]. destruct Hdc as [Hg Hp].
    eapply (Quietly_weaken []); [set_solver|]. pose proof (quiet_store [] e3 s' Hg) as Qs. eapply Quietly_then; [exact Qs|].
    apply quiet_bus; [by eapply Quietly_eng|]. eapply Forall_impl; [exact Hp|]. intros pub ->. left. by eapply durable_grows.
  - apply quiet_publish; [done|by left].
Qed.

(** A record is stored as it is given, at the offset the door reports, and then
    published; or nothing is stored. *)
Lemma persistRecord_spec f class p topic payload ts a at_to e e' r :
  Eng e -> (IsAck class = true -> answer_topic topic) ->
  persistRecord env c f class p topic payload ts a at_to e = (e', r) ->
  Quietly (if IsDefinition class then streams else [StreamFor class]) [] e e'
  /\ match r with
     | Ok res => if re_Persisted res
                 then stored (eg_store e') res (StreamFor class) (record_of class p topic payload ts a)
                 else Quietly [] [] e e'
     | Err err => (forall reason denied, err <> Rejected reason denied) /\ Quietly [] [] e e'
     end.
Proof.
  intros He Ha. unfold persistRecord. set (S := if IsDefinition class then streams else [StreamFor class]). set (rec := record_of class p topic payload ts a).
  set (append := match at_to with Some adv => _ | None => _ end).
  assert (Hap : let '(s, wrote) := append in match wrote with
    | Ok (Some (first, _)) => Grows [StreamFor class] (eg_store e) s /\ exists l, (first < NextOffset s (StreamFor class))%N
        /\ record_at (db s) (StreamFor class) first = Some (encode_rec first (with_local_only l rec))
    | _ => Grows [] (eg_store e) s end).
  { unfold append. destruct at_to as [adv|].
    - destruct (AppendAdvancing _ _ _ _ _ _) as [s wrote] eqn:E. apply advancing_grows in E; [|done|apply He]. destruct wrote as [[[first last]|]|err]; [|done..].
      destruct E as (Hg & _ & Hx). split; [done|]. destruct (Hx 0%nat rec eq_refl) as (l & Hl). rewrite N.add_0_r in Hl. by exists l.
    - unfold appendLocked. destruct (appendAdvancingLocked _ _ _ _ _ _) as [s wrote] eqn:E. apply append_grows in E; [|done|apply He].
      destruct wrote as [[first last]|err]; [|done]. destruct E as (Hg & _ & Hx). split; [done|]. destruct (Hx 0%nat rec eq_refl) as (l & Hl).
      rewrite N.add_0_r in Hl. by exists l. }
  destruct append as [s wrote]. destruct wrote as [[[first last]|]|err].
  - destruct Hap as (Hg & l & Hlt & Hrec). intros [= <- <-]. cbn [re_Persisted re_Stream re_Topic re_Offset stored_result].
    assert (Qs : Quietly S [] e (set_store s e)).
    { apply quiet_store. eapply Grows_weaken; [|exact Hg]. unfold S. destruct (IsDefinition class); [|done].
      intros st ->%list_elem_of_singleton. apply (known_stream s); [apply (gr_inv _ _ _ Hg)|lia]. }
    assert (Qa : Quietly S [] (set_store s e) (afterPersist env c class p topic payload first (set_store s e))).
    { apply quiet_afterPersist; [by eapply Quietly_eng| |done|unfold S; by intros ->]. exists (StreamFor class), first, (encode_rec first (with_local_only l rec)).
      split_and!; [done|done|..]; cbn [pub_topic pub_payload]; rewrite ?e_Topic_encode, ?e_Payload_encode; done. }
    split; [by eapply Quietly_then|]. destruct Qa as (evs & P & _ & Hs). eapply stored_grows; [exact (st_grows _ _ _ _ _ _ Hs)|].
    split; [done|]. by exists l.
  - intros [= <- <-]. cbn [re_Persisted duplicate_result]. assert (Q : Quietly [] [] e (set_store s e)) by by apply quiet_store.
    split; [|done]. eapply Quietly_weaken; [|exact Q]. set_solver.
  - intros [= <- <-]. assert (Q : Quietly [] [] e (set_store s e)) by by apply quiet_store.
    split; [eapply Quietly_weaken; [|exact Q]; set_solver|]. split; [by destruct err|done].
Qed.

Lemma quiet_persist f class p topic payload a e : Eng e -> (IsAck class = true -> answer_topic topic) -> IsDefinition class = false ->
  Quietly [StreamFor class] [] e (fst (persistAttributed env c f class p topic payload a e)).
Proof.
  intros He Ha Hd. unfold persistAttributed. destruct (persistRecord _ _ _ _ _ _ _ _ _ _ _) as [e' r] eqn:E.
  apply persistRecord_spec in E as [Q _]; [|done..]. by rewrite Hd in Q.
Qed.

(** ** Denials *)

Lemma quiet_recordAuthorization d outcome e : Eng e -> Quietly ["audit"] [] e (recordAuthorization env c d outcome e).
Proof.
  intros He. unfold recordAuthorization. destruct (negb _); [by apply quiet_refl|]. set (rec := mkRec _ _ _ _ _ _ _ _ _ _ _ _ _ _ _ _ _ _).
  unfold appendLocked. destruct (appendAdvancingLocked _ _ _ _ _ _) as [s r] eqn:E. apply append_grows in E; [|done|apply He].
  destruct r as [[first last]|err]; [|apply quiet_store; eapply Grows_weaken; [|exact E]; set_solver].
  destruct E as (Hg & _ & Hx). pose proof (quiet_store ["audit"] e s Hg) as Q. eapply Quietly_then; [exact Q|].
  apply quiet_publish; [by eapply Quietly_eng|]. left. destruct (Hx 0%nat rec eq_refl) as (l & Hlt & Hr).
  exists "audit", (first + N.of_nat 0)%N. eexists. split_and!; [done|done|..]; cbn [pub_topic pub_payload]; rewrite ?e_Topic_encode, ?e_Payload_encode; done.
Qed.

Lemma quiet_recordDenial d e : Eng e -> Quietly ["audit"] [] e (recordDenial env c d e).
Proof.
  intros He. unfold recordDenial. destruct (repeats_admit _ _ _ _) as [[[m write] repeated] since]. pose proof (quiet_audit ["audit"] e m He) as Q.
  destruct write; [|done]. eapply Quietly_then; [exact Q|]. apply quiet_recordAuthorization. by eapply Quietly_eng.
Qed.

Lemma quiet_rejectDenied {A} reason actor operation p e : Eng e -> Quietly ["audit"] [] e (fst (rejectDenied (A := A) env c reason actor operation p e)).
Proof. intros He. unfold rejectDenied. cbn [fst]. by apply quiet_recordDenial. Qed.

(** ** Answers, notes and execution *)

Lemma ackTopic_answers p : answer_topic (ackTopicFor p).
Proof. left. by exists p. Qed.

Lemma quiet_refuseForeignUse S p id actor e : Eng e -> Quietly S [] e (refuseForeignUse env p id actor e).
Proof.
  intros He. unfold refuseForeignUse. destruct (negb _); [by apply quiet_refl|]. set (a := json_outcome _).
  assert (Q : Quietly S [] e (set_ledger (refuse id actor a (eg_ledger e)) e)) by (eapply quiet_ledger; [done| | |apply ls_refuse]; done).
  eapply Quietly_then; [exact Q|]. apply quiet_publish; [by eapply Quietly_eng|]. right. split; [done|]. apply ackTopic_answers.
Qed.

Lemma quiet_persistAck f p body a e : Eng e -> Quietly ["commands"] [] e (persistAck env c f p body a e).
Proof.
  intros He. unfold persistAck. destruct (Parse _) as [ap|]; [|by apply quiet_refl].
  change ["commands"] with [StreamFor ClassAck]. apply quiet_persist; [done| |done]. intros _. apply ackTopic_answers.
Qed.

Lemma quiet_noteQueued p payload a e : Eng e -> Quietly ["commands"] [] e (noteQueued env c p payload a e).
Proof.
  intros He. unfold noteQueued, writeProgress. destruct (_ || _); [by apply quiet_refl|]. case_bool_decide; [by apply quiet_refl|]. by apply quiet_persistAck.
Qed.

Lemma quiet_ack verb outcome a e : Eng e -> Quietly ["commands"] [] e (ack env c verb outcome a e).
Proof.
  intros He. unfold ack. destruct (Parse _) as [p|]; [|by apply quiet_refl].
  change ["commands"] with [StreamFor ClassAck]. apply quiet_persist; [done| |done]. intros _. left.
  exists (mkParsed "" "" "" (en_ULID env) verb). done.
Qed.

Lemma commands_known : ["commands"] ⊆ streams.
Proof. intros x ->%list_elem_of_singleton. apply (bool_decide_unpack _). by vm_compute. Qed.

(** A command is run at most once in a step, and only when its id can be read. *)
Lemma maybeExec_spec p payload a actor e : Eng e ->
  exists R, Quietly streams R e (fst (maybeExec env c p payload a actor e)) /\ (R = [] \/ R = [(p, payload)] /\ correlationID payload <> "").
Proof.
  intros He. unfold maybeExec. destruct (_ || _); [exists []; split; [by apply quiet_refl|by left]|].
  case_bool_decide as Hid; [exists []; split; [by apply quiet_refl|by left]|]. match goal with |- context [if ?x then _ else _] => destruct x end.
  { cbn [fst]. exists []. split; [|by left]. eapply Quietly_weaken; [apply commands_known|]. by apply quiet_ack. }
  set (ctx := mkContext _ _ _ _). pose proof (eo_exec Henv ctx (Contract p) (Path p) payload (eg_held e) (eng_inv _ He)) as Ho.
  destruct (en_exec _ _ _ _ _ _) as [[h pubs] r]. destruct Ho as [Hg Hp]. cbn [fst]. exists [(p, payload)]. split; [|by right].
  pose proof (quiet_outside e h pubs Hg Hp He) as Q1. assert (He1 : Eng (add_bus pubs (set_held h e))) by by eapply Quietly_eng.
  pose proof (quiet_run streams _ p payload He1) as Q2. eapply (Quietly_trans streams [] [(p, payload)]); [exact Q1|].
  eapply (Quietly_trans streams [(p, payload)] []); [exact Q2|]. eapply Quietly_weaken; [apply commands_known|]. apply quiet_ack. by eapply Quietly_eng.
Qed.

Lemma quiet_gateLog i class p e : Eng e -> Quietly ["logs"] [] e (fst (gateLog env c i class p e)).
Proof.
  intros He. unfold gateLog. destruct (_ || _); [by apply quiet_refl|]. cbn [fst]. revert e He.
  induction (ga_writes (c_gate c i)) as [|[[topic payload] author] ws IH]; intros e He; cbn [foldl]; [by apply quiet_refl|].
  destruct (Parse topic) as [q|]; [|by apply IH]. pose proof (quiet_persist (c_gateFaults c) ClassLog q topic payload author e He ltac:(done) eq_refl) as Q.
  eapply Quietly_then; [exact Q|]. apply IH. by eapply Quietly_eng.
Qed.

(** ** Steps that take a command *)

(** What one call does to the ledger: it asks about one id at most, and gives up an id
    only when it took that id as new itself. The id a call leaves taken is the index. *)
Inductive Shape : option string -> list levent -> Prop :=
| sh_quiet q : Forall quiet q -> Shape None q
| sh_held q id actor v q' : Forall quiet q -> Forall quiet q' -> v <> ledgerNew -> Shape None (q ++ Admit (c_now c) id actor v :: q')
| sh_taken q id actor q' : Forall quiet q -> Forall quiet q' -> Shape (Some id) (q ++ Admit (c_now c) id actor ledgerNew :: q')
| sh_given_up q id actor q' q'' : Forall quiet q -> Forall quiet q' -> Forall quiet q'' ->
    Shape None (q ++ Admit (c_now c) id actor ledgerNew :: q' ++ Forget id :: q'').

Lemma Shape_before K q evs : Forall quiet q -> Shape K evs -> Shape K (q ++ evs).
Proof.
  intros Hq Hs. destruct Hs; [apply sh_quiet; by apply Forall_app|..]; rewrite app_assoc; constructor; try done; by apply Forall_app.
Qed.

Lemma Shape_after K evs q : Shape K evs -> Forall quiet q -> Shape K (evs ++ q).
Proof.
  intros Hs Hq. destruct Hs as [| | |]; [apply sh_quiet; by apply Forall_app|..]; rewrite <- app_assoc; cbn [app];
    [apply sh_held|apply sh_taken|rewrite <- app_assoc; cbn [app]; apply sh_given_up]; try done; by apply Forall_app.
Qed.

Definition Takes (S : list string) (K : option string) (R : list (Parsed * string)) (e e' : Engine) : Prop :=
  exists evs P, Shape K evs /\ Step S e e' evs P R.

Lemma Takes_quiet S R e e' : Quietly S R e e' -> Takes S None R e e'.
Proof. intros (evs & P & Hq & Hs). exists evs, P. split; [by apply sh_quiet|done]. Qed.

Lemma Takes_eng S K R e e' : Takes S K R e e' -> Eng e -> Eng e'.
Proof. intros (evs & P & _ & Hs). by eapply Step_eng. Qed.

Lemma Takes_weaken S S' K R e e' : S ⊆ S' -> Takes S K R e e' -> Takes S' K R e e'.
Proof. intros HS (evs & P & Hsh & Hs). exists evs, P. split; [done|by eapply Step_weaken]. Qed.

Lemma Takes_then S K R e e1 e2 : Takes S K [] e e1 -> Quietly S R e1 e2 -> Takes S K R e e2.
Proof.
  intros (evs1 & P1 & H1' & Hs1) (evs2 & P2 & Hq2 & Hs2). exists (evs1 ++ evs2), (P1 ++ P2). split; [by apply Shape_after|].
  exact (Step_trans _ _ _ _ _ _ _ _ [] R Hs1 Hs2).
Qed.

Lemma Takes_after S K R e e1 e2 : Quietly S [] e e1 -> Takes S K R e1 e2 -> Takes S K R e e2.
Proof.
  intros (evs1 & P1 & Hq1 & Hs1) (evs2 & P2 & H2' & Hs2). exists (evs1 ++ evs2), (P1 ++ P2). split; [by apply Shape_before|].
  exact (Step_trans _ _ _ _ _ _ _ _ [] R Hs1 Hs2).
Qed.

Lemma Takes_grows S K R e e' : Takes S K R e e' -> Grows S (eg_store e) (eg_store e').
Proof. intros (evs & P & _ & Hs). exact (st_grows _ _ _ _ _ _ Hs). Qed.

(** The ledger is asked. *)
Lemma Takes_asked S e id actor l v topic a : Eng e -> ledger_admit (c_now c) id actor (eg_ledger e) = (l, (v, topic, a)) ->
  Takes S (if decide (v = ledgerNew) then Some id else None) [] e (set_ledger l e).
Proof.
  intros He Ha. exists [Admit (c_now c) id actor v], []. split.
  - case_decide; [subst v; by apply (sh_taken [])|by apply (sh_held [])].
  - split; [apply Grows_refl, He|by rewrite app_nil_r|done|apply lsteps_one; by eapply ls_admit|by repeat constructor|by rewrite app_nil_r].
Qed.

Lemma Takes_given_up S id e e' : Takes S (Some id) [] e e' -> Eng e -> Takes S None [] e (set_ledger (ledger_forget id (eg_ledger e')) e').
Proof.
  intros Ht He. pose proof (Takes_eng _ _ _ _ _ Ht He) as He'. destruct Ht as (evs & P & Hsh & Hs). exists (evs ++ [Forget id]), (P ++ []). split.
  - inversion Hsh; subst. rewrite <- app_assoc. cbn [app]. by apply sh_given_up.
  - eapply (Step_trans _ _ _ _ _ _ _ _ [] []); [exact Hs|].
    split; [apply Grows_refl, He'|by rewrite app_nil_r|done|apply lsteps_one; constructor|by repeat constructor|by rewrite app_nil_r].
Qed.

Lemma quiet_no_id S e : Eng e -> Quietly S [] e (set_ledger (ledger_forget "" (eg_ledger e)) e).
Proof. intros He. eapply (quiet_ledger S e (Forget "")); [done..|constructor]. Qed.

Lemma held_answer now id actor l l' topic a : answers_ok l -> ledger_admit now id actor l = (l', (ledgerRepeat, topic, Some a)) -> answer_topic topic.
Proof.
  intros Hl. unfold ledger_admit. destruct (lg_entries (expire now l) !! id) as [held|] eqn:E; [|done]. case_bool_decide; [|done].
  cbn [negb]. intros Hx. simplify_eq/=. eapply Hl; [|done]. eapply lookup_weaken; [exact E|apply expire_subset].
Qed.

Lemma answer_spec S p payload actor code message e : Eng e -> exists K, Takes S K [] e (fst (answer env c p payload actor code message e)).
Proof.
  intros He. unfold answer. case_bool_decide; [exists None; by apply Takes_quiet, quiet_refl|].
  destruct (ledger_admit _ _ _ _) as [l [[v topic] a]] eqn:Ea. pose proof (Takes_asked S e _ _ _ _ _ _ He Ea) as Ht.
  pose proof (Takes_eng _ _ _ _ _ Ht He) as He1. exists (if decide (v = ledgerNew) then Some (lenientCorrelationID payload) else None). destruct v.
  - eapply Takes_then; [exact Ht|]. set (l1 := acked _ _ _ _).
    assert (Q : Quietly S [] (set_ledger l e) (set_ledger l1 e)).
    { apply (quiet_ledger S (set_ledger l e) (Acked (lenientCorrelationID payload) (ackTopicFor p)
        (json_outcome (plain_outcome (lenientCorrelationID payload) code message)))); [done|done|apply ackTopic_answers|apply ls_acked]. }
    eapply Quietly_then; [exact Q|]. apply quiet_publish; [by eapply Quietly_eng|]. right. split; [done|apply ackTopic_answers].
  - destruct a as [held|]; [|exact Ht]. eapply Takes_then; [exact Ht|]. apply quiet_publish; [done|]. right. split; [done|].
    eapply held_answer; [apply He|exact Ea].
  - exact Ht.
Qed.

(** A command that is let through has its id taken, if it has one. *)
Lemma admitCommand_spec S p payload actor e e' r : Eng e -> admitCommand env c p payload actor e = (e', r) ->
  match r with
  | Err _ => Takes S None [] e e' /\ r = Err (Rejected "validation" false)
  | Ok (id, true) => Takes S None [] e e'
  | Ok (id, false) => id = correlationID payload /\ Takes S (if id == "" then None else Some id) [] e e'
  end.
Proof.
  intros He. unfold admitCommand. case_bool_decide as Hid.
  { intros [= <- <-]. split; [done|]. by apply Takes_quiet, quiet_refl. }
  destruct (ledger_admit _ _ _ _) as [l [[v topic] a]] eqn:Ea. pose proof (Takes_asked S e _ _ _ _ _ _ He Ea) as Ht.
  pose proof (Takes_eng _ _ _ _ _ Ht He) as He1. destruct v; cbn [decide ledgerVerdict_eq_dec] in Ht.
  - intros [= <- <-]. split; [done|]. rewrite bool_decide_false by done. exact Ht.
  - intros [= <- <-]. destruct a as [held|]; [|exact Ht]. eapply Takes_then; [exact Ht|]. apply quiet_publish; [done|]. right. split; [done|].
    eapply held_answer; [apply He|exact Ea].
  - unfold reject. intros [= <- <-]. split; [|done]. eapply Takes_then; [exact Ht|]. by apply quiet_refuseForeignUse.
Qed.

(** What storing a command's record has to do: store it or do nothing. *)
Definition persists (persist : Engine -> Engine * result IngestErr Result) (stream : string) (rec : Rec) : Prop :=
  forall e e' r, Eng e -> persist e = (e', r) ->
    match r with
    | Ok res => Quietly [stream] [] e e' /\ re_Persisted res = true /\ stored (eg_store e') res stream rec
    | Err err => Quietly [] [] e e' /\ (forall reason denied, err <> Rejected reason denied)
    end.

(** A command a door takes: its id is taken, its record is stored, and it runs at most
    once; or nothing is stored and nothing runs. *)
Lemma acceptCommand_spec persist stream rec p payload a actor e e' r : persists persist stream rec -> stream ∈ streams -> Eng e ->
  acceptCommand env c persist p payload a actor e = (e', r) ->
  match r with
  | Ok res => if re_Persisted res
              then stored (eg_store e') res stream rec
                /\ exists R, Takes streams (if correlationID payload == "" then None else Some (correlationID payload)) R e e'
                     /\ (R = [] \/ R = [(p, payload)] /\ correlationID payload <> "")
              else Takes [] None [] e e'
  | Err _ => Takes [] None [] e e'
  end.
Proof.
  intros Hp Hst He. unfold acceptCommand. destruct (admitCommand _ _ _ _ _ _) as [e1 [[id [|]]|err]] eqn:Ea.
  - pose proof (admitCommand_spec [] _ _ _ _ _ _ He Ea) as Ht. intros [= <- <-]. unfold repeated.
    destruct (lookup_ledger _ _) as [[? ?] ?]. exact Ht.
  - destruct (admitCommand_spec [] _ _ _ _ _ _ He Ea) as [-> Ht]. pose proof (Takes_eng _ _ _ _ _ Ht He) as He1.
    destruct (persist e1) as [e2 [res|err]] eqn:Ep; pose proof (Hp _ _ _ He1 Ep) as Hr.
    + destruct Hr as (Q2 & Hres & Hstored). assert (He2 : Eng e2) by by eapply Quietly_eng. pose proof (quiet_noteQueued p payload a e2 He2) as Q3.
      set (e3 := noteQueued env c p payload a e2) in *. assert (He3 : Eng e3) by by eapply Quietly_eng.
      destruct (maybeExec_spec p payload a actor e3 He3) as (R & Q4 & HR). destruct (maybeExec _ _ _ _ _ _ e3) as [e4 outcome]. cbn [fst] in Q4.
      intros [= <- <-]. cbn [re_Persisted with_command]. rewrite Hres. split.
      * assert (Hg : Grows streams (eg_store e2) (eg_store e4)).
        { destruct Q3 as (? & ? & _ & S3). destruct Q4 as (? & ? & _ & S4). eapply Grows_trans; [|exact (st_grows _ _ _ _ _ _ S4)].
          eapply Grows_weaken; [apply commands_known|exact (st_grows _ _ _ _ _ _ S3)]. }
        exact (stored_grows _ _ _ _ _ _ Hg Hstored).
      * exists R. split; [|exact HR]. eapply Takes_then; [eapply Takes_weaken; [|exact Ht]; set_solver|].
        eapply Quietly_then; [eapply Quietly_weaken; [|exact Q2]; set_solver|].
        eapply Quietly_then; [eapply Quietly_weaken; [apply commands_known|exact Q3]|exact Q4].
    + destruct Hr as [Q2 _]. intros [= <- <-]. assert (He2 : Eng e2) by by eapply Quietly_eng. case_bool_decide as Hid.
      * rewrite Hid. eapply Takes_then; [exact Ht|]. eapply Quietly_then; [exact Q2|]. by apply quiet_no_id.
      * apply Takes_given_up; [|done]. by eapply Takes_then.
  - destruct (admitCommand_spec [] _ _ _ _ _ _ He Ea) as [Ht _]. intros [= <- <-]. exact Ht.
Qed.

End env.
End spec.

