(* ===== verification/Doors.v ===== *)
(** * The doors

    Each door of a node is a sequence of the steps of [IngestSpec.v], so what holds of
    every step holds of every door and of every run of door calls: what a door stores
    passed its checks, what it refuses leaves no trace but the audit, nothing is on the
    bus that the store does not have, and a command is taken once. *)

From S2P Require Export IngestSpec.

Open Scope string_scope.
Open Scope list_scope.
Open Scope go_scope.

Lemma audit_known : ["audit"] ⊆ streams.
Proof. intros x ->%list_elem_of_singleton. apply (bool_decide_unpack _). by vm_compute. Qed.

Lemma logs_known : ["logs"] ⊆ streams.
Proof. intros x ->%list_elem_of_singleton. apply (bool_decide_unpack _). by vm_compute. Qed.

Lemma nothing_in (S : list string) : [] ⊆ S.
Proof. apply list_subseteq_nil. Qed.

Section doors.
Context `{Codec} `{CommandCodec} `{StateCodec} `{LedgerCodec} `{DoorCodec}.

Section env.
Variables (env : Env) (c : Call).
Context (Henv : env_ok env).

Abbreviation node := (en_ULID env).
Abbreviation ClassOf := (class_of (en_contracts env)).
Abbreviation Eng := (Eng env).
Abbreviation Quietly := (Quietly env).
Abbreviation Takes := (Takes env c).
Abbreviation persists := (persists env).

(** ** Storing a record *)

Lemma class_answers p topic : Parse topic = Ok p -> IsAck (ClassOf (Contract p)) = true -> answer_topic env topic.
Proof. intros Hp Ha. right. by exists p. Qed.

(** A record is stored in a stream the node has. *)
Lemma persist_known f class p topic payload ts a at_to e e' r : Eng e -> (IsAck class = true -> answer_topic env topic) ->
  persistRecord env c f class p topic payload ts a at_to e = (e', r) ->
  match r with
  | Ok res => Quietly streams [] e e' /\ (re_Persisted res = true -> stored (eg_store e') res (StreamFor class) (record_of class p topic payload ts a))
  | Err err => Quietly [] [] e e' /\ (forall reason denied, err <> Rejected reason denied)
  end.
Proof.
  intros He Ha E. apply persistRecord_spec in E as [Q Hr]; [|done..]. destruct r as [res|err]; [|by destruct Hr].
  destruct (re_Persisted res) eqn:Ep; [|split; [|done]; eapply Quietly_weaken; [apply nothing_in|exact Hr]].
  split; [|done]. eapply Quietly_weaken; [|exact Q]. destruct (IsDefinition class); [done|]. intros st ->%list_elem_of_singleton.
  destruct Hr as (_ & l & Hlt & _). apply (known_stream (eg_store e')); [|lia]. destruct Q as (? & ? & _ & Hs). exact (gr_inv _ _ _ (st_grows _ _ _ _ _ _ _ Hs)).
Qed.

Lemma persisted_ok f class p topic payload a e e' res : persistAttributed env c f class p topic payload a e = (e', Ok res) -> re_Persisted res = true.
Proof.
  unfold persistAttributed, persistRecord. destruct (appendLocked _ _ _ _) as [s [[first last]|err]]; [|done]. by intros [= _ <-].
Qed.

Lemma persists_command class p topic payload a : IsCommand class = true ->
  persists (persistAttributed env c (c_record c) class p topic payload a) (StreamFor class) (record_of class p topic payload (c_ts c) a).
Proof.
  intros Hc e e' r He E. apply bool_decide_eq_true in Hc. subst class.
  destruct (persistRecord_spec env c Henv (c_record c) ClassCmd p topic payload (c_ts c) a None e e' r He ltac:(done) E) as [Q Hr].
  destruct r as [res|err]; [|by destruct Hr]. pose proof (persisted_ok _ _ _ _ _ _ _ _ _ E) as Hp. rewrite Hp in Hr. by split.
Qed.

Lemma persists_admin class p topic payload a : IsCommand class = true ->
  persists (persistAdminRecord env c class p topic payload a) (StreamFor class) (record_of class p topic payload (c_ts c) a).
Proof.
  intros Hc e e' r He. unfold persistAdminRecord. destruct (_ && _); [|by apply persists_command].
  intros [= <- <-]. split; [by apply quiet_refl|done].
Qed.

Lemma command_stream class : IsCommand class = true -> StreamFor class ∈ streams.
Proof. intros ->%bool_decide_eq_true. apply (bool_decide_unpack _). by vm_compute. Qed.

(** ** What a door answers *)

(** Where a refusal leaves a trace. *)
Definition refused_in (err : IngestErr) : list string := match err with Rejected _ _ => ["audit"] | _ => ["logs"] end.

(** The record is stored as the attribution says it, and a command that is stored or runs
    has its id taken; or nothing runs, and nothing is stored but the denial. *)
Definition Outcome (class : Class) (p : Parsed) (topic payload : string) (Good : Attribution -> Prop) (e e' : Engine) (r : result IngestErr Result) : Prop :=
  match r with
  | Ok res =>
      (exists K R, Takes streams K R e e'
         /\ (IsCommand class = true -> re_Persisted res = true \/ R <> [] -> correlationID payload <> "" -> K = Some (correlationID payload)))
      /\ (re_Persisted res = true -> exists a, Good a /\ stored (eg_store e') res (StreamFor class) (record_of class p topic payload (c_ts c) a))
  | Err err => exists K, Takes (refused_in err) K [] e e'
  end.

Lemma Outcome_mono class p topic payload (Good Good' : Attribution -> Prop) e e' r :
  (forall a, Good a -> Good' a) -> Outcome class p topic payload Good e e' r -> Outcome class p topic payload Good' e e' r.
Proof. intros Hg. destruct r as [res|err]; [|done]. intros [Ht Hs]. split; [done|]. intros Hp. destruct (Hs Hp) as (a & Ha & Hst). exists a. auto. Qed.

Section outcome.
Variables (class : Class) (p : Parsed) (topic payload : string) (Good : Attribution -> Prop).
Abbreviation Outcome := (Outcome class p topic payload Good).

Lemma outcome_reject reason e e' r : Eng e -> reject reason e = (e', r) -> Outcome e e' r.
Proof. intros He [= <- <-]. exists None. by apply Takes_quiet, quiet_refl. Qed.

Lemma outcome_denied reason actor operation q e e1 e' r K : Takes [] K [] e e1 -> Eng e -> rejectDenied env c reason actor operation q e1 = (e', r) ->
  Outcome e e' r.
Proof.
  intros Ht He E. assert (He1 : Eng e1) by by eapply Takes_eng. pose proof (quiet_rejectDenied env c Henv (A := Result) reason actor operation q e1 He1) as Q.
  rewrite E in Q. unfold rejectDenied in E. injection E as _ <-. exists K. eapply Takes_then; [eapply Takes_weaken; [apply nothing_in|exact Ht]|exact Q].
Qed.

Lemma outcome_denied_now reason actor operation q e e' r : Eng e -> rejectDenied env c reason actor operation q e = (e', r) -> Outcome e e' r.
Proof. intros He E. eapply outcome_denied; [apply Takes_quiet, quiet_refl, He|done|exact E]. Qed.

Lemma outcome_refused code message actor reason e e' r : Eng e ->
  reject reason (fst (answer env c p payload actor code message e)) = (e', r) -> Outcome e e' r.
Proof. intros He [= <- <-]. destruct (answer_spec env c ["audit"] p payload actor code message e He) as [K Ht]. by exists K. Qed.

Lemma outcome_unannounced actor message e e' r : Eng e ->
  (let '(e, r) := answeredUnannounced env c p payload actor message e in (e, Ok r)) = (e', r) -> Outcome e e' r.
Proof.
  intros He. unfold answeredUnannounced. destruct (answer_spec env c streams p payload actor 404 message e He) as [K Ht].
  destruct (answer _ _ _ _ _ _ _ _) as [e1 outcome]. intros [= <- <-]. split; [|done]. exists K, []. split; [exact Ht|]. by intros _ [? | ?].
Qed.

Lemma outcome_accept persist a actor e e' r : IsCommand class = true -> Good a -> Eng e ->
  persists persist (StreamFor class) (record_of class p topic payload (c_ts c) a) ->
  acceptCommand env c persist p payload a actor e = (e', r) -> Outcome e e' r.
Proof.
  intros Hc Hg He Hp E. pose proof (acceptCommand_spec env c Henv persist _ _ p payload a actor e e' r Hp (command_stream _ Hc) He E) as Ha.
  destruct r as [res|err]; cbn.
  - destruct (re_Persisted res) eqn:Er.
    + destruct Ha as (Hst & R & Ht & _). split; [|intros _; by exists a]. eexists _, R. split; [exact Ht|]. intros _ _ Hid. by rewrite bool_decide_false.
    + split; [|done]. exists None, []. split; [eapply Takes_weaken; [apply nothing_in|exact Ha]|]. by intros _ [? | ?].
  - exists None. eapply Takes_weaken; [apply nothing_in|exact Ha].
Qed.

(** A record that is no command: what went before it is quiet, and so is what follows. *)
Lemma outcome_record a e e1 e2 e' r : IsCommand class = false -> Good a -> Quietly ["logs"] [] e e1 -> Eng e ->
  (IsAck class = true -> answer_topic env topic) ->
  persistAttributed env c (c_record c) class p topic payload a e1 = (e2, r) ->
  (match r with Ok _ => exists R, Quietly streams R e2 e' | Err _ => Quietly [] [] e2 e' end) -> Outcome e e' r.
Proof.
  intros Hc Hg Q1 He Ha E Q3. assert (He1 : Eng e1) by by eapply Quietly_eng. unfold persistAttributed in E. apply persist_known in E; [|done..].
  destruct r as [res|err]; cbn; rewrite ?Hc; destruct E as [Q2 Hr].
  - destruct Q3 as [R Q3]. split.
    + exists None, R. split; [|done]. apply Takes_quiet. eapply Quietly_then; [eapply Quietly_weaken; [apply logs_known|exact Q1]|]. by eapply Quietly_then.
    + intros Hp. exists a. split; [done|]. destruct Q3 as (? & ? & _ & Hs). eapply stored_grows; [exact (st_grows _ _ _ _ _ _ _ Hs)|auto].
  - exists None. apply Takes_quiet. eapply Quietly_weaken with (S := ["logs"]); [by destruct err; [destruct (Hr _ _ eq_refl)|..]|].
    eapply Quietly_then; [exact Q1|]. eapply Quietly_weaken; [apply nothing_in|]. by eapply Quietly_then.
Qed.

Lemma outcome_withheld e e' : IsCommand class = false -> Quietly ["logs"] [] e e' -> Outcome e e' (Ok (withheld_result class topic)).
Proof.
  intros Hc Q. split; [|done]. exists None, []. split; [|by rewrite Hc]. apply Takes_quiet. eapply Quietly_weaken; [apply logs_known|exact Q].
Qed.

End outcome.

(** ** The client door *)

(** What a stored command passed. *)
Definition client_command_ok (identity : string) (p : Parsed) (topic payload : string) (actorFor : Entry -> Attribution) (e : Engine) (a : Attribution) : Prop :=
  en_DrainingMount env (Path p) = false
  /\ validateContract (en_contracts env) (en_validate env) (Contract p) payload = None
  /\ unannounced node (en_strict env) (en_handles env) (en_routes env (eg_store e)) p = None
  /\ exists entry attested, en_Get env identity = Some entry
       /\ tn_WrittenBy a = tn_WrittenBy (actorFor entry) /\ tn_ActorID a = tn_ActorID (actorFor entry) /\ tn_Door a = doorClient
       /\ actorForAttested env (with_door doorClient (actorFor entry)) true = attested
       /\ (Authorize topic_root (scope_of env e) (default entry attested) ActCmd topic = true
           \/ attested = None /\ NodeID p = node
              /\ MayImplicitlyConfigure (Some entry) (Contract p) || MayImplicitlyDeliverAppNotification (Some entry) (Contract p) (Path p) = true).

(** What a stored audit event passed. *)
Definition client_audit_ok (identity : string) (p : Parsed) (payload : string) (actorFor : Entry -> Attribution) (a : Attribution) : Prop :=
  NodeID p = node
  /\ validateContract (en_contracts env) (en_validate env) (Contract p) payload = None
  /\ ValidateAuditTopic p payload = true
  /\ exists entry, en_Get env identity = Some entry /\ a = actorFor entry /\ MayPublishAudit (Some entry) = true.

(** What any other record a client stored passed. *)
Definition client_data_ok (identity : string) (p : Parsed) (class : Class) (topic payload : string) (actorFor : Entry -> Attribution) (e : Engine)
    (a : Attribution) : Prop :=
  IsKnown class = true /\ NodeID p = node
  /\ validateContract (en_contracts env) (en_validate env) (Contract p) payload = None
  /\ validateClientStateAuthor (en_contracts env) node identity p payload = true
  /\ exists entry, en_Get env identity = Some entry /\ a = actorFor entry
       /\ Authorize topic_root (scope_of env e) entry ActPub topic = true
       /\ (IsMetric (Contract p) = true -> checkMetricProducer node (eg_store e) (h_index (eg_held e)) (h_cats (eg_held e)) entry p = true).

Definition client_ok (identity : string) (p : Parsed) (topic payload : string) (actorFor : Entry -> Attribution) (e : Engine) (a : Attribution) : Prop :=
  let class := ClassOf (Contract p) in
  Contract p <> "_EnrolledIdentity"
  /\ if IsCommand class then client_command_ok identity p topic payload actorFor e a
     else if IsAudit class then client_audit_ok identity p payload actorFor a
     else client_data_ok identity p class topic payload actorFor e a.

Section client.
Variables (identity : string) (p : Parsed) (topic payload : string) (actorFor : Entry -> Attribution) (e : Engine).
Context (Hparse : Parse topic = Ok p) (He : Eng e).
Abbreviation class := (ClassOf (Contract p)).

Lemma client_command_outcome e' r : IsCommand class = true ->
  clientCommand env c identity p class topic payload actorFor e = (e', r) ->
  Outcome class p topic payload (client_command_ok identity p topic payload actorFor e) e e' r.
Proof.
  intros Hc. unfold clientCommand. destruct (en_DrainingMount env (Path p)) eqn:Hd; [by apply outcome_reject|].
  destruct (en_Get env identity) as [entry|] eqn:Hg; [|by apply outcome_denied_now].
  set (a0 := with_door doorClient (actorFor entry)). set (attested := actorForAttested env a0 true).
  set (a := match attested with Some person => _ | None => a0 end).
  assert (Hid : tn_WrittenBy a = tn_WrittenBy (actorFor entry) /\ tn_ActorID a = tn_ActorID (actorFor entry) /\ tn_Door a = doorClient)
    by (unfold a; by destruct attested).
  set (implicit := _ && _ && _). destruct (negb implicit && _) eqn:Hauth.
  { intros E. destruct (answer_spec env c [] p payload (tn_ActorID a) 403 ("not authorized: no grant covers " +:+ Contract p +:+ " " +:+ Path p) e He) as [K Ht].
    eapply outcome_denied; [exact Ht|done|exact E]. }
  destruct (validateContract _ _ _ _) eqn:Hv; [by apply outcome_refused|]. destruct (unannounced _ _ _ _ _) eqn:Hu; [by apply outcome_unannounced|].
  apply outcome_accept; [done| |done|by apply persists_command]. destruct Hid as (H1' & H2' & H3'). split_and!; [done..|]. exists entry, attested.
  split_and!; [done..|]. apply andb_false_iff in Hauth as [Hi|Ha]; [right|left; by apply negb_false_iff in Ha].
  apply negb_false_iff in Hi. unfold implicit in Hi. rewrite !andb_true_iff, !bool_decide_eq_true in Hi. naive_solver.
Qed.

Lemma client_audit_outcome e' r : IsCommand class = false ->
  clientAudit env c identity p class topic payload actorFor e = (e', r) ->
  Outcome class p topic payload (client_audit_ok identity p payload actorFor) e e' r.
Proof.
  intros Hc. unfold clientAudit. destruct (en_Get env identity) as [entry|] eqn:Hg; [|by apply outcome_denied_now].
  destruct (MayPublishAudit (Some entry)) eqn:Hm; cbn [negb]; [|by apply outcome_denied_now].
  case_bool_decide as Hn; cbn [negb]; [|by apply outcome_reject]. case_bool_decide as Hv; [by apply outcome_reject|].
  destruct (ValidateAuditTopic p payload) eqn:Ht; cbn [negb]; [|by apply outcome_reject].
  intros E. eapply outcome_record; [done| |by apply quiet_refl|done|by apply class_answers|exact E|].
  - split_and!; [done|by apply eq_None_not_Some|done|]. by exists entry.
  - pose proof E as E'. unfold persistAttributed in E'. apply persist_known in E'; [|done|by apply class_answers].
    assert (He' : Eng e') by (destruct r; destruct E' as [Q _]; by eapply Quietly_eng). destruct r; [exists []|]; by apply quiet_refl.
Qed.

Lemma admitClientData_spec e' r : admitClientData env c identity p class topic payload actorFor e = (e', r) ->
  match r with
  | Ok a => e' = e /\ client_data_ok identity p class topic payload actorFor e a
  | Err err => Quietly ["audit"] [] e e' /\ refused_in err = ["audit"]
  end.
Proof.
  unfold admitClientData. pose proof (quiet_refl env ["audit"] e He) as Hr.
  assert (Hden : forall reason actor operation q e1 (r1 : result IngestErr Attribution), rejectDenied env c reason actor operation q e = (e1, r1) ->
    match r1 with Ok a => e1 = e /\ client_data_ok identity p class topic payload actorFor e a | Err err => Quietly ["audit"] [] e e1 /\ refused_in err = ["audit"] end).
  { intros reason actor operation q e1 r1 E. pose proof (quiet_rejectDenied env c Henv (A := Attribution) reason actor operation q e He) as Q.
    rewrite E in Q. unfold rejectDenied in E. by injection E as _ <-. }
  destruct (IsKnown class) eqn:Hk; cbn [negb]; [|by intros [= <- <-]].
  case_bool_decide as Hn; cbn [negb]; [|by intros [= <- <-]].
  destruct (validateContract _ _ _ _) eqn:Hv; [by intros [= <- <-]|].
  destruct (validateClientStateAuthor _ _ _ _ _) eqn:Ha; cbn [negb]; [|by intros [= <- <-]].
  destruct (en_Get env identity) as [entry|] eqn:Hg; [|by apply Hden].
  destruct (Authorize _ _ _ _ _) eqn:Hz; cbn [negb]; [|by apply Hden].
  destruct (IsMetric (Contract p) && _) eqn:Hm; [by apply Hden|]. intros [= <- <-]. split; [done|]. split_and!; [done..|]. exists entry. split_and!; [done..|].
  intros Hmet. rewrite Hmet in Hm. by apply negb_false_iff in Hm.
Qed.

Lemma client_data_outcome e' r : IsCommand class = false ->
  clientData env c identity p class topic payload actorFor e = (e', r) ->
  Outcome class p topic payload (client_data_ok identity p class topic payload actorFor e) e e' r.
Proof.
  intros Hc. unfold clientData. destruct (admitClientData _ _ _ _ _ _ _ _ _) as [e1 [a|err]] eqn:Ea; apply admitClientData_spec in Ea.
  2: { intros [= <- <-]. destruct Ea as [Q Hin]. exists None. rewrite Hin. by apply Takes_quiet. }
  destruct Ea as [-> Hok]. pose proof (quiet_gateLog env c Henv 0 class p e He) as Qg. destruct (gateLog env c 0 class p e) as [e2 [|]]; cbn [fst] in Qg;
    [intros [= <- <-]; by apply outcome_withheld|].
  destruct (persistAttributed _ _ _ _ _ _ _ _ _) as [e3 [res|err]] eqn:Ep; intros [= <- <-];
    (eapply outcome_record; [done|exact Hok|exact Qg|done|by apply class_answers|exact Ep|]).
  all: unfold persistAttributed in Ep; apply persist_known in Ep; [|by eapply Quietly_eng|by apply class_answers]; destruct Ep as [Q _];
    assert (He3 : Eng e3) by (eapply Quietly_eng; [exact Q|by eapply Quietly_eng]).
  - exists []. by apply quiet_observe.
  - by apply quiet_refl.
Qed.

End client.

Lemma ingestClientAttributed_spec identity topic payload supplied e e' r p : Parse topic = Ok p -> Eng e ->
  ingestClientAttributed env c identity topic payload supplied e = (e', r) ->
  Outcome (ClassOf (Contract p)) p topic payload (client_ok identity p topic payload (fun entry => default (attributionForEntry entry) supplied) e) e e' r.
Proof.
  intros Hp He. unfold ingestClientAttributed, client_ok. rewrite Hp. destruct (IsUns topic_root topic); cbn [negb].
  2: { intros [= <- <-]. split; [|done]. exists None, []. split; [by apply Takes_quiet, quiet_refl|by intros _ [? | ?]]. }
  case_bool_decide as Hc; [by apply outcome_reject|]. set (actorFor entry := default (attributionForEntry entry) supplied).
  destruct (IsCommand _) eqn:Ecmd; [|destruct (IsAudit _) eqn:Eaud]; intros E; (eapply Outcome_mono; [intros a Ha; split; [exact Hc|exact Ha]|]);
    [by apply client_command_outcome|by apply client_audit_outcome|by apply client_data_outcome].
Qed.

(** The attribution a local service gives, once the door has put its own name to it. *)
Definition localActor (entry : Entry) (actor : Attribution) : Attribution :=
  let label := if (tn_ActorLabel actor == "") && (tn_ActorKind actor != "human") then tn_ActorID actor else tn_ActorLabel actor in
  mkAttribution (ULID entry) (tn_ActorID actor) label (tn_ActorKind actor) (tn_ActorClient actor) (tn_ActorEmail actor)
    (tn_ActorClasses actor) (tn_ActorGroups actor) (tn_ActorCredential actor) (tn_Door actor).

Definition local_ok (identity : string) (p : Parsed) (topic payload : string) (actor : Attribution) (e : Engine) (a : Attribution) : Prop :=
  exists entry, en_Get env identity = Some entry /\ MayUseDoor (Some entry) DoorLocal = true
    /\ tn_ActorID actor <> "" /\ ValidActorKind (tn_ActorKind actor) = true
    /\ client_ok identity p topic payload (fun _ => localActor entry actor) e a.

Lemma IngestLocalAttributed_spec identity topic payload actor e e' r p : Parse topic = Ok p -> Eng e ->
  IngestLocalAttributed env c identity topic payload actor e = (e', r) ->
  Outcome (ClassOf (Contract p)) p topic payload (local_ok identity p topic payload actor e) e e' r.
Proof.
  intros Hp He. unfold IngestLocalAttributed. destruct (en_Get env identity) as [entry|] eqn:Hg; [|by apply outcome_denied_now].
  destruct (MayUseDoor _ _) eqn:Hm; cbn [negb]; [|by apply outcome_denied_now].
  destruct (_ || _) eqn:Hid; [by apply outcome_reject|]. apply orb_false_iff in Hid as [Hi Hk].
  apply bool_decide_eq_false in Hi. apply negb_false_iff in Hk. intros E. eapply Outcome_mono; [|exact (ingestClientAttributed_spec _ _ _ _ _ _ _ _ Hp He E)].
  intros a Ha. by exists entry.
Qed.

(** ** The human door *)

Definition human_ok (entry : Entry) (p : Parsed) (topic payload : string) (e : Engine) (a : Attribution) : Prop :=
  Contract p <> "_EnrolledIdentity" /\ IsCommand (ClassOf (Contract p)) = true
  /\ MayPublishContract (Some entry) (Contract p) = true
  /\ en_DrainingMount env (Path p) = false
  /\ Authorize topic_root (scope_of env e) entry ActCmd topic = true
  /\ validateContract (en_contracts env) (en_validate env) (Contract p) payload = None
  /\ unannounced node (en_strict env) (en_handles env) (en_routes env (eg_store e)) p = None
  /\ tn_WrittenBy a = ULID entry /\ tn_ActorID a = ULID entry
  /\ (tn_Door a = doorHuman -> exists attested, actorForAttested env a true = Some attested /\ Authorize topic_root (scope_of env e) attested ActCmd topic = true).

Lemma IngestHuman_spec entry topic payload e e' r p : Parse topic = Ok p -> Eng e ->
  IngestHuman env c entry topic payload e = (e', r) -> Outcome (ClassOf (Contract p)) p topic payload (human_ok entry p topic payload e) e e' r.
Proof.
  intros Hp He. unfold IngestHuman. rewrite Hp. destruct (IsUns topic_root topic); cbn [negb]; [|by apply outcome_reject].
  case_bool_decide as Hc; [by apply outcome_reject|]. destruct (IsKnown _); cbn [negb]; [|by apply outcome_reject].
  destruct (IsAudit _); [by apply outcome_denied_now|]. destruct (IsCommand _) eqn:Hcmd; cbn [negb]; [|by apply outcome_denied_now].
  destruct (MayPublishContract _ _) eqn:Hm; cbn [negb]; [|by apply outcome_denied_now].
  destruct (en_DrainingMount env (Path p)) eqn:Hd; [by apply outcome_reject|].
  destruct (Authorize _ _ entry _ _) eqn:Hz; cbn [negb].
  2: { intros E. destruct (answer_spec env c [] p payload (ULID entry) 403 ("not authorized: no grant covers " +:+ Contract p +:+ " " +:+ Path p) e He) as [K Ht].
       eapply outcome_denied; [exact Ht|done|exact E]. }
  destruct (validateContract _ _ _ _) eqn:Hv; [by apply outcome_refused|]. destruct (unannounced _ _ _ _ _) eqn:Hu; [by apply outcome_unannounced|].
  apply outcome_accept; [done| |done|by apply persists_command]. set (a0 := with_classes _ _). destruct (actorForAttested env a0 true) as [attested|] eqn:Hat;
    [destruct (Authorize _ _ attested _ _) eqn:Hag|]; (split_and!; [done..|]); [|done..]. intros _. by exists attested.
Qed.

(** ** The admin door *)

Definition admin_ok (p : Parsed) (payload : string) (a0 a : Attribution) : Prop :=
  a = a0 /\ Contract p <> "_EnrolledIdentity" /\ IsAudit (ClassOf (Contract p)) = false /\ IsKnown (ClassOf (Contract p)) = true
  /\ (IsCommand (ClassOf (Contract p)) = true -> en_DrainingMount env (Path p) = false)
  /\ validateContract (en_contracts env) (en_validate env) (Contract p) payload = None
  /\ validateAdminStateAuthor (en_contracts env) node p payload = true.

Lemma admin_record_outcome class p topic payload (Good : Attribution -> Prop) a e e1 e' r : IsCommand class = false -> Good a -> Eng e -> Quietly ["logs"] [] e e1 ->
  (IsAck class = true -> answer_topic env topic) ->
  match persistAdminRecord env c class p topic payload a e1 with
  | (e, Err err) => (set_ledger (ledger_forget "" (eg_ledger e)) e, Err err)
  | (e, Ok res) => let '(e, outcome) := maybeExec env c p payload a None e in (e, Ok (with_command outcome res))
  end = (e', r) -> Outcome class p topic payload Good e e' r.
Proof.
  intros Hc Hg He Qg Ha. assert (He1 : Eng e1) by by eapply Quietly_eng. unfold persistAdminRecord. destruct (_ && _).
  { intros [= <- <-]. exists None. apply Takes_quiet. eapply Quietly_then; [exact Qg|]. by apply quiet_no_id. }
  destruct (persistAttributed _ _ _ _ _ _ _ _ _) as [e2 [res|err]] eqn:Ep.
  - assert (He2 : Eng e2) by (unfold persistAttributed in Ep; apply persist_known in Ep as [Q _]; [|done..]; by eapply Quietly_eng).
    destruct (maybeExec_spec env c Henv p payload a None e2 He2) as (R & Q4 & _). destruct (maybeExec _ _ _ _ _ _ e2) as [e3 outcome]. intros [= <- <-].
    exact (outcome_record class p topic payload Good a e e1 e2 e3 (Ok res) Hc Hg Qg He Ha Ep (ex_intro _ R Q4)).
  - intros [= <- <-]. eapply outcome_record; [done|exact Hg|exact Qg|done|done|exact Ep|]. apply quiet_no_id.
    unfold persistAttributed in Ep. apply persist_known in Ep as [Q _]; [|done..]. by eapply Quietly_eng.
Qed.

Lemma IngestAdminAttributed_spec topic payload a e e' r p : Parse topic = Ok p -> Eng e ->
  IngestAdminAttributed env c topic payload a e = (e', r) -> Outcome (ClassOf (Contract p)) p topic payload (admin_ok p payload a) e e' r.
Proof.
  intros Hp He. unfold IngestAdminAttributed. rewrite Hp. assert (Hinv : forall Good, Outcome (ClassOf (Contract p)) p topic payload Good e e (Err Invalid))
    by (intros Good; exists None; by apply Takes_quiet, quiet_refl).
  destruct (IsUns topic_root topic); cbn [negb]; [|by intros [= <- <-]]. case_bool_decide as Hc; [by intros [= <- <-]|].
  destruct (IsAudit _) eqn:Haud; [by apply outcome_denied_now|]. destruct (IsCommand _ && _) eqn:Hd; [by intros [= <- <-]|].
  destruct (IsKnown _) eqn:Hk; cbn [negb]; [|by intros [= <- <-]]. destruct (validateContract _ _ _ _) as [cause|] eqn:Hv.
  { destruct (IsCommand _); [|by intros [= <- <-]]. intros [= <- <-].
    destruct (answer_spec env c ["logs"] p payload (tn_ActorID a) 400 ("command refused: " +:+ cause) e He) as [K Ht]. by exists K. }
  destruct (validateAdminStateAuthor _ _ _ _) eqn:Hau; cbn [negb]; [|by intros [= <- <-]].
  assert (Hok : admin_ok p payload a a) by (split_and!; [done..| |done|done]; intros Hcmd; by rewrite Hcmd in Hd).
  destruct (IsCommand _) eqn:Hcmd.
  - destruct (unannounced _ _ _ _ _); [by apply outcome_unannounced|]. apply outcome_accept; [done|done|done|by apply persists_admin].
  - pose proof (quiet_gateLog env c Henv 0 (ClassOf (Contract p)) p e He) as Qg. destruct (gateLog _ _ _ _ _ e) as [e1 [|]]; cbn [fst] in Qg;
      [intros [= <- <-]; by apply outcome_withheld|]. apply admin_record_outcome; try done. by apply class_answers.
Qed.

(** ** The doors that ask no ledger *)

(** What was appended is in a stream the node has, and can be published. *)
Lemma grown_durable stream (recs : list Rec) s s' first : recs <> [] -> Grows [stream] s s' ->
  (forall i rec, recs !! i = Some rec -> exists l, (first + N.of_nat i < NextOffset s' stream)%N
     /\ record_at (db s') stream (first + N.of_nat i) = Some (encode_rec (first + N.of_nat i) (with_local_only l rec))) ->
  Grows streams s s' /\ Forall (fun rec => forall retain, durable s' (mkPub (r_Topic rec) (r_Payload rec) retain)) recs.
Proof.
  intros Hne Hg Hx. split.
  - eapply Grows_weaken; [|exact Hg]. intros st ->%list_elem_of_singleton. destruct recs as [|rec recs]; [done|]. destruct (Hx 0%nat rec eq_refl) as (l & Hlt & _).
    apply (known_stream s'); [exact (gr_inv _ _ _ Hg)|lia].
  - apply Forall_lookup. intros i rec Hi retain. destruct (Hx i rec Hi) as (l & Hlt & Hr). eexists stream, _, _. split_and!; [exact Hlt|exact Hr|..];
      cbn [pub_topic pub_payload]; by rewrite ?e_Topic_encode, ?e_Payload_encode.
Qed.

Lemma locked_durable f stream recs s s' r : recs <> [] -> Inv s -> appendLocked f stream recs s = (s', r) ->
  match r with
  | Ok _ => Grows streams s s' /\ Forall (fun rec => forall retain, durable s' (mkPub (r_Topic rec) (r_Payload rec) retain)) recs
  | Err _ => Grows [] s s'
  end.
Proof.
  intros Hne HI E. apply append_grows in E; [|done..]. destruct r as [[first last]|err]; [|done]. destruct E as (Hg & _ & Hx). by eapply grown_durable.
Qed.

Lemma quiet_unless S e s : Grows [] (eg_store e) s -> Quietly S [] e (set_store s e).
Proof. intros Hg. eapply Quietly_weaken; [apply nothing_in|]. by apply quiet_store. Qed.

(** What such a door did, and its refusals. *)
Definition Quiet_door (e e' : Engine) (r : result IngestErr Result) : Prop :=
  (exists R, Quietly streams R e e') /\ match r with Err err => Quietly (refused_in err) [] e e' | Ok _ => True end.

Lemma quiet_door_err e e' err : Quietly [] [] e e' -> Quiet_door e e' (Err err).
Proof. intros Q. split; [exists []|]; (eapply Quietly_weaken; [apply nothing_in|exact Q]). Qed.

Lemma quiet_door_reject reason e e' r : Eng e -> reject reason e = (e', r) -> Quiet_door e e' r.
Proof. intros He [= <- <-]. apply quiet_door_err. by apply quiet_refl. Qed.

Lemma IngestDownlinkAttributed_quiet topic payload ts a at_to e e' r : Eng e ->
  IngestDownlinkAttributed env c topic payload ts a at_to e = (e', r) -> Quiet_door e e' r.
Proof.
  intros He. unfold IngestDownlinkAttributed. destruct (Parse topic) as [p|] eqn:Hp; [|by apply quiet_door_reject].
  destruct (_ && _); [by apply quiet_door_reject|]. destruct (persistRecord _ _ _ _ _ _ _ _ _ _ _) as [e1 [res|err]] eqn:E; intros [= <- <-];
    (apply persist_known in E as [Q _]; [|done|by apply class_answers]); [split; [|done]|by apply quiet_door_err].
  destruct (re_Persisted res); [|by exists []]. assert (He1 : Eng e1) by by eapply Quietly_eng.
  destruct (maybeExec_spec env c Henv p payload a (actorForAttested env a false) e1 He1) as (R & Q2 & _). exists R. by eapply Quietly_then.
Qed.

Lemma IngestDownlinkDefinition_quiet topic payload ts a e e' r : Eng e ->
  IngestDownlinkDefinitionAttributed env c topic payload ts a e = (e', r) -> Quiet_door e e' r.
Proof.
  intros He. unfold IngestDownlinkDefinitionAttributed. destruct (Parse topic) as [p|] eqn:Hp; [|by apply quiet_door_reject].
  destruct (negb _); [by apply quiet_door_reject|]. case_bool_decide; [by apply quiet_door_reject|]. intros E. apply persist_known in E; [|done|by apply class_answers].
  destruct r as [res|err]; destruct E as [Q _]; [split; [by exists []|done]|by apply quiet_door_err].
Qed.

Lemma page_run_quiet off kept e : Eng e -> Forall (fun x => IsCommand (ClassOf (Contract x.2)) = true /\ forall retain, durable (eg_store e) (mkPub (dl_Topic x.1) (dl_Payload x.1) retain)) kept ->
  exists R, Quietly streams R e (page_run env c off kept e).
Proof.
  revert off e. induction kept as [|[cmd p] kept IH]; intros off e He Hk; cbn [page_run]; [exists []; by apply quiet_refl|].
  apply Forall_cons in Hk as [[Hc Hd] Hk]. set (e1 := afterPersist _ _ _ _ _ _ _ e). cbn [fst snd] in Hc, Hd. apply bool_decide_eq_true in Hc.
  assert (Q1 : Quietly streams [] e e1) by (apply quiet_afterPersist; [done|done|apply Hd|by rewrite Hc|done]).
  assert (He1 : Eng e1) by by eapply Quietly_eng. clearbody e1.
  destruct (maybeExec_spec env c Henv p (dl_Payload cmd) (dl_Attribution cmd) (actorForAttested env (dl_Attribution cmd) false) e1 He1) as (R1 & Q2 & _).
  set (e2 := fst _) in *. assert (He2 : Eng e2) by by eapply Quietly_eng. clearbody e2. destruct (IH (off + 1)%N e2 He2) as [R2 Q3].
  - eapply Forall_impl; [exact Hk|]. intros x [Hx Hdx]. split; [done|]. intros retain. specialize (Hdx retain).
    destruct (Quietly_then _ _ _ _ _ _ Q1 Q2) as (? & ? & _ & Hs). eapply durable_grows; [exact (st_grows _ _ _ _ _ _ _ Hs)|exact Hdx].
  - exists (R1 ++ R2). eapply Quietly_then; [exact Q1|]. by eapply Quietly_trans.
Qed.

Lemma page_kept stream cmds parsed : page_commands env stream cmds = Some parsed ->
  Forall (fun x => IsCommand (ClassOf (Contract x.2)) = true) (omap kept_command parsed).
Proof.
  revert stream parsed. induction cmds as [|cmd cmds IH]; intros stream parsed; cbn [page_commands]; [by intros [= <-]|].
  destruct (Parse (dl_Topic cmd)) as [p|].
  - destruct (_ || _) eqn:Hor; [done|]. intros (rest & Hr & [= <-])%bind_Some. apply IH in Hr. apply orb_false_iff in Hor as [Hc _]. apply negb_false_iff in Hc.
    destruct (en_DrainingMount _ _); cbn [omap list_omap kept_command]; [done|]. by apply Forall_cons.
  - intros (rest & Hr & [= <-])%bind_Some. by apply IH in Hr.
Qed.

Lemma IngestDownlinkPage_quiet cmds at_to e : Eng e -> exists R, Quietly streams R e (fst (IngestDownlinkPage env c cmds at_to e)).
Proof.
  intros He. unfold IngestDownlinkPage. destruct (page_commands env "" cmds) as [parsed|] eqn:Hp; [|exists []; by apply quiet_refl].
  apply page_kept in Hp. destruct (omap kept_command parsed) as [|[cmd p] kept] eqn:Hk; [exists []; by apply quiet_refl|]. rewrite <- Hk in *.
  destruct (AppendAdvancing _ _ _ _ _ _) as [s r] eqn:E. apply advancing_grows in E; [|by rewrite Hk|apply He].
  destruct r as [[[first last]|]|err]; cbn [fst].
  - destruct E as (Hg & _ & Hx). eapply grown_durable in Hx as [Hg' Hd]; [|by rewrite Hk|done]. pose proof (quiet_store env streams e s Hg') as Q.
    destruct (page_run_quiet first (omap kept_command parsed) (set_store s e)) as [R QR]; [by eapply Quietly_eng| |exists R; by eapply Quietly_then].
    rewrite Forall_fmap in Hd. apply Forall_and. split; [exact Hp|exact Hd].
  - exists []. by apply quiet_unless.
  - exists []. destruct err; by apply quiet_unless.
Qed.

Lemma IngestRefresh_quiet topic payload off e : Eng e -> Quietly streams [] e (fst (IngestRefresh env c topic payload off e)).
Proof.
  intros He. unfold IngestRefresh. destruct (negb _); [by apply quiet_refl|]. destruct (Parse topic) as [p|]; [|by apply quiet_refl].
  destruct (negb _); [by apply quiet_refl|]. case_bool_decide; [by apply quiet_refl|]. case_bool_decide; [by apply quiet_refl|].
  set (rec := mkRec _ _ _ _ _ _ _ _ _ _ _ _ _ _ _ _ _ _). unfold AppendIfKVUnchanged. destruct (r_KVPath rec == ""); [by apply quiet_unless, Grows_refl, He|].
  destruct (kvOffsets _ _ _ _) as [[cur origin]|]; [|by apply quiet_unless, Grows_refl, He]. destruct (negb _); [by apply quiet_unless, Grows_refl, He|].
  destruct (appendLocked _ _ _ _) as [s r] eqn:E. apply locked_durable in E; [|done|apply He]. destruct r as [[first last]|err]; [|by apply quiet_unless].
  destruct E as [Hg Hd]. pose proof (quiet_store env streams e s Hg) as Q. eapply Quietly_then; [exact Q|]. apply quiet_publish; [by eapply Quietly_eng|].
  left. apply Forall_cons in Hd as [Hd _]. apply Hd.
Qed.

(** *** What executors write *)

Lemma admin_published_quiet stream off states e : Eng e ->
  Forall (fun x => forall retain, durable (eg_store e) (mkPub x.2.1 x.2.2 retain)) states ->
  Quietly streams [] e (fst (admin_published env stream off states e)).
Proof.
  revert off e. induction states as [|[p [topic payload]] states IH]; intros off e He Hd; cbn [admin_published]; [by apply quiet_refl|].
  apply Forall_cons in Hd as [Hd1 Hd]. set (e1 := observeIndexes _ _ _ _ e). assert (Q1 : Quietly streams [] e e1) by by apply quiet_indexes.
  assert (He1 : Eng e1) by by eapply Quietly_eng. set (e2 := publish _ _ _ _ e1). assert (Q2 : Quietly streams [] e1 e2) by (apply quiet_publish; [done|left; apply Hd1]).
  assert (He2 : Eng e2) by by eapply Quietly_eng. assert (Hst : eg_store e2 = eg_store e) by (unfold e2, publish; by destruct (en_bus env)).
  specialize (IH (off + 1)%N e2 He2). rewrite Hst in IH. specialize (IH Hd). destruct (admin_published _ _ _ _ e2) as [e3 rs].
  eapply Quietly_then; [exact Q1|]. by eapply Quietly_then.
Qed.

Lemma admin_states_records stream records states : admin_states env stream records = Some states -> states.*2 = records.
Proof.
  revert stream states. induction records as [|[topic payload] records IH]; intros stream states; cbn [admin_states]; [by intros [= <-]|].
  intros (p & _ & (rest & Hr & [= <-])%bind_Some)%bind_Some. cbn. f_equal. by eapply IH.
Qed.

Lemma ingestAdminStateBatch_quiet records a e : Eng e -> Quietly streams [] e (fst (ingestAdminStateBatch env c records a e)).
Proof.
  intros He. unfold ingestAdminStateBatch. destruct records as [|r records]; [by apply quiet_refl|].
  destruct (admin_states env "" (r :: records)) as [states|] eqn:Hs; [|by apply quiet_refl]. apply admin_states_records in Hs.
  destruct (_ && _); [by apply quiet_refl|]. destruct (appendLocked _ _ _ _) as [s res] eqn:E.
  apply locked_durable in E; [|by destruct states|apply He]. destruct res as [[first last]|err]; [|by apply quiet_unless]. destruct E as [Hg Hd].
  pose proof (quiet_store env streams e s Hg) as Q. rewrite Forall_fmap in Hd. set (stream := match states with [] => _ | _ => _ end).
  pose proof (admin_published_quiet stream first states (set_store s e) ltac:(by eapply Quietly_eng) Hd) as Q2.
  destruct (admin_published _ _ _ _ _) as [e2 rs]. by eapply Quietly_then.
Qed.

Lemma ingestAdminEvent_quiet topic payload a e : Eng e -> Quietly streams [] e (fst (ingestAdminEvent env c topic payload a e)).
Proof.
  intros He. unfold ingestAdminEvent. destruct (negb _); [by apply quiet_refl|]. destruct (Parse topic) as [p|]; [|by apply quiet_refl].
  destruct (_ || _); [by apply quiet_refl|]. destruct (appendLocked _ _ _ _) as [s r] eqn:E. apply locked_durable in E; [|done|apply He].
  destruct r as [[first last]|err]; [|by apply quiet_unless]. destruct E as [Hg Hd]. apply Forall_cons in Hd as [Hd _].
  pose proof (quiet_store env streams e s Hg) as Q1. assert (He1 : Eng (set_store s e)) by by eapply Quietly_eng. eapply Quietly_then; [exact Q1|].
  pose proof (quiet_indexes env streams (set_store s e) (Contract p) topic payload He1) as Q2. eapply Quietly_then; [exact Q2|].
  apply quiet_publish; [by eapply Quietly_eng|]. left. apply Hd.
Qed.

(** An executor that writes through these two, in any number of writes, each chosen from
    the state it finds, meets what the doors ask of it. *)
Inductive Write := WriteStates (records : list (string * string)) (a : Attribution) | WriteEvent (topic payload : string) (a : Attribution).

Definition write (w : Write) (e : Engine) : Engine :=
  match w with
  | WriteStates records a => fst (ingestAdminStateBatch env c records a e)
  | WriteEvent topic payload a => fst (ingestAdminEvent env c topic payload a e)
  end.

Definition perform (program : list (Held -> Write)) (h : Held) : Held * list Publication :=
  let e := foldl (fun e choose => write (choose (eg_held e)) e) (mkEngine h newCommandLedger ∅ [] []) program in (eg_held e, eg_bus e).

Lemma perform_ok program h : Inv (h_store h) ->
  let '(h', pubs) := perform program h in Grows streams (h_store h) (h_store h') /\ Forall (backed env (h_store h')) pubs.
Proof.
  intros HI. unfold perform. set (e0 := mkEngine h newCommandLedger ∅ [] []). assert (He0 : Eng e0).
  { split; [done|]. intros id held a Hid. cbn in Hid. by rewrite lookup_empty in Hid. }
  assert (Hq : forall e, Eng e -> Quietly streams [] e (foldl (fun e choose => write (choose (eg_held e)) e) e program)).
  { induction program as [|choose program IH]; intros e He; cbn [foldl]; [by apply quiet_refl|].
    assert (Q : Quietly streams [] e (write (choose (eg_held e)) e)).
    { destruct (choose (eg_held e)); cbn [write]; [by apply ingestAdminStateBatch_quiet|by apply ingestAdminEvent_quiet]. }
    eapply Quietly_then; [exact Q|]. apply IH. by eapply Quietly_eng. }
  destruct (Hq e0 He0) as (evs & P & _ & Hs). split; [exact (st_grows _ _ _ _ _ _ _ Hs)|]. pose proof (st_bus _ _ _ _ _ _ _ Hs) as Hb. cbn in Hb.
  rewrite Hb. exact (st_backed _ _ _ _ _ _ _ Hs).
Qed.

(** *** Many client records *)

(** A record that was let in. *)
Definition let_in (a : Admitted_) : Prop :=
  r_Topic (am_record a) = am_topic a /\ r_Payload (am_record a) = am_payload a /\ (IsAck (am_class a) = true -> answer_topic env (am_topic a)).

Lemma batch_check_quiet identity topic payload i e e' x : Eng e -> batch_check env c identity topic payload i e = (e', x) ->
  Quietly streams [] e e'
  /\ match x with
     | inl _ => True
     | inr a => let_in a
     end.
Proof.
  intros He. pose proof (quiet_refl env streams e He) as Qr. unfold batch_check. destruct (negb _); [by intros [= <- <-]|].
  destruct (Parse topic) as [p|] eqn:Hp; [|by intros [= <- <-]]. case_bool_decide; [by intros [= <- <-]|].
  destruct (IsCommand _); [by intros [= <- <-]|]. destruct (IsAudit _); [by intros [= <- <-]|].
  destruct (admitClientData _ _ _ _ _ _ _ _ _) as [e1 r] eqn:Ea. destruct r as [a|err].
  - apply admitClientData_spec in Ea as [-> _]; [|done]. pose proof (quiet_gateLog env c Henv i (ClassOf (Contract p)) p e He) as Qg.
    destruct (gateLog _ _ _ _ _ e) as [e2 [|]]; intros [= <- <-]; (split; [eapply Quietly_weaken; [apply logs_known|exact Qg]|]); [done|].
    split_and!; [done..|]. by apply class_answers.
  - apply admitClientData_spec in Ea as [Q _]; [|done]. intros [= <- <-]. split; [|done]. eapply Quietly_weaken; [apply audit_known|exact Q].
Qed.

Lemma batch_checks_quiet identity i records e e' rs ins : Eng e -> batch_checks env c identity i records e = (e', rs, ins) ->
  Quietly streams [] e e' /\ Forall let_in ins.
Proof.
  revert i e e' rs ins. induction records as [|[topic payload] records IH]; intros i e e' rs ins He; cbn [batch_checks].
  { intros [= <- <- <-]. split; [by apply quiet_refl|done]. }
  destruct (batch_check _ _ _ _ _ _ e) as [e1 x] eqn:Ec. destruct (batch_check_quiet _ _ _ _ _ _ _ He Ec) as [Q1 Hx]. assert (He1 : Eng e1) by by eapply Quietly_eng.
  destruct (batch_checks _ _ _ _ _ e1) as [[e2 rs2] ins2] eqn:Es. destruct (IH _ _ _ _ _ He1 Es) as [Q2 Hi].
  destruct x; intros [= <- <- <-]; (split; [by eapply Quietly_then|]); [done|by apply Forall_cons].
Qed.

Lemma batch_published_quiet stream off ins e : Eng e ->
  Forall (fun a => (IsAck (am_class a) = true -> answer_topic env (am_topic a)) /\ forall retain, durable (eg_store e) (mkPub (am_topic a) (am_payload a) retain)) ins ->
  Quietly streams [] e (fst (batch_published env stream off ins e)).
Proof.
  revert off e. induction ins as [|a ins IH]; intros off e He Hd; cbn [batch_published]; [by apply quiet_refl|]. apply Forall_cons in Hd as [[Ha Hd1] Hd].
  set (e1 := if _ && _ then _ else e). assert (Q1 : Quietly streams [] e e1).
  { unfold e1. destruct (IsAck _); cbn [andb]; [|by apply quiet_refl]. destruct (negb _); [|by apply quiet_refl].
    eapply quiet_ledger; [done| | |apply ls_acked]; [done|by apply Ha]. }
  assert (Hs1 : eg_store e1 = eg_store e) by (unfold e1; by destruct (_ && _)). clearbody e1. assert (He1 : Eng e1) by by eapply Quietly_eng.
  set (e2 := observeIndexes _ _ _ _ e1). assert (Q2 : Quietly streams [] e1 e2) by by apply quiet_indexes. assert (He2 : Eng e2) by by eapply Quietly_eng.
  assert (Hs2 : eg_store e2 = eg_store e) by by rewrite <- Hs1. clearbody e2. set (e3 := publish _ _ _ _ e2).
  assert (Q3 : Quietly streams [] e2 e3) by (apply quiet_publish; [done|left; rewrite Hs2; apply Hd1]). assert (He3 : Eng e3) by by eapply Quietly_eng.
  clearbody e3. set (e4 := observe _ _ _ _ e3). assert (Q4 : Quietly streams [] e3 e4) by by apply quiet_observe. assert (He4 : Eng e4) by by eapply Quietly_eng.
  assert (Q : Quietly streams [] e e4) by (repeat (eapply Quietly_then; [eassumption|]); by apply quiet_refl). specialize (IH (off + 1)%N e4 He4).
  destruct (batch_published _ _ _ _ e4) as [e5 rs]. eapply Quietly_then; [exact Q|]. apply IH. eapply Forall_impl; [exact Hd|]. intros x [Hx Hdx]. split; [done|].
  intros retain. destruct Q as (? & ? & _ & Hs). eapply durable_grows; [exact (st_grows _ _ _ _ _ _ _ Hs)|apply Hdx].
Qed.

Lemma batch_streams_quiet fs names ins e : Eng e -> Forall let_in ins ->
  Forall (fun stream => exists a, a ∈ ins /\ StreamFor (am_class a) = stream) names ->
  Quietly streams [] e (fst (batch_streams env fs names ins e)).
Proof.
  intros He Hi. revert e He. induction names as [|stream names IH]; intros e He Hn; cbn [batch_streams]; [by apply quiet_refl|].
  apply Forall_cons in Hn as [(a & Ha & Hsa) Hn]. set (batch := filter _ ins). assert (Hne : am_record <$> batch <> []).
  { assert (Hin : a ∈ batch) by by apply list_elem_of_filter. by destruct batch; [apply not_elem_of_nil in Hin|]. }
  destruct (appendLocked _ _ _ _) as [s r] eqn:E. apply locked_durable in E; [|done|apply He].
  destruct r as [[first last]|err].
  - destruct E as [Hg Hd]. pose proof (quiet_store env streams e s Hg) as Q1. rewrite Forall_fmap in Hd.
    assert (Q2 : Quietly streams [] (set_store s e) (fst (batch_published env stream first batch (set_store s e)))).
    { apply batch_published_quiet; [by eapply Quietly_eng|]. apply Forall_forall. intros x Hx. rewrite Forall_forall in Hd. specialize (Hd x Hx).
      apply list_elem_of_filter in Hx as [_ Hx]. rewrite Forall_forall in Hi. destruct (Hi x Hx) as (Ht & Hp & Hack). split; [done|].
      intros retain. specialize (Hd retain). cbn in Hd. by rewrite Ht, Hp in Hd. }
    destruct (batch_published _ _ _ _ _) as [e2 rs]. cbn [fst] in Q2. assert (He2 : Eng e2) by (eapply Quietly_eng; [exact Q2|by eapply Quietly_eng]).
    specialize (IH e2 He2 Hn). destruct (batch_streams _ _ _ _ e2) as [e3 rs']. eapply Quietly_then; [exact Q1|]. by eapply Quietly_then.
  - pose proof (quiet_unless streams e s E) as Q1. specialize (IH (set_store s e) ltac:(by eapply Quietly_eng) Hn).
    destruct (batch_streams _ _ _ _ _) as [e3 rs']. by eapply Quietly_then.
Qed.

Lemma IngestClientBatch_quiet fs identity records e : Eng e -> Quietly streams [] e (fst (IngestClientBatch env c fs identity records e)).
Proof.
  intros He. unfold IngestClientBatch. destruct (batch_checks _ _ _ _ _ e) as [[e1 rs] ins] eqn:Ec. destruct (batch_checks_quiet _ _ _ _ _ _ _ He Ec) as [Q1 Hi].
  set (names := foldl _ [] ins). assert (Hn : Forall (fun stream => exists a, a ∈ ins /\ StreamFor (am_class a) = stream) names).
  { unfold names. assert (Hg : forall acc l, Forall (fun stream => exists a, a ∈ ins /\ StreamFor (am_class a) = stream) acc -> (forall a, a ∈ l -> a ∈ ins) ->
      Forall (fun stream => exists a, a ∈ ins /\ StreamFor (am_class a) = stream) (foldl (fun names a => add_new (StreamFor (am_class a)) names) acc l)).
    { intros acc l. revert acc. induction l as [|a l IHl]; intros acc Hacc Hl; [done|]. cbn [foldl]. apply IHl; [|set_solver].
      unfold add_new. case_match; [done|]. apply Forall_app. split; [done|]. apply Forall_cons. split; [|done]. exists a. split; [apply Hl; left|done]. }
    by apply Hg. }
  clearbody names. assert (He1 : Eng e1) by by eapply Quietly_eng. pose proof (batch_streams_quiet fs names ins e1 He1 Hi Hn) as Q2.
  destruct (batch_streams _ _ _ _ e1) as [e2 rs']. by eapply Quietly_then.
Qed.

End env.
End doors.
