(* ===== verification/DoorsRun.v ===== *)
(** * Runs of door calls

    A node from its start: any calls to its doors, one after the other, each with its own
    clocks and failures. A command that carries a correlation id is taken once, whatever
    the doors and the callers ([command_once]); nothing a run refuses leaves a trace but
    the audit ([refusals_store_nothing]); and what is on the bus is in the store
    ([bus_is_durable]). *)

From S2P Require Export Doors.

Open Scope string_scope.
Open Scope list_scope.
Open Scope go_scope.

(** ** The ledger over calls *)

Section calls.
Context `{LedgerCodec}.

(** An id is new again only when it was given up, or after the window, or when the
    ledger was full. *)
Lemma new_twice pre t id actor mid now other l :
  lrun (pre ++ Admit t id actor ledgerNew :: mid ++ [Admit now id other ledgerNew]) l ->
  clock_ok (pre ++ Admit t id actor ledgerNew :: mid ++ [Admit now id other ledgerNew]) ->
  Forget id ∉ mid -> (now - t < ledgerWindow)%Z -> (ledgerLimit <= news_since t (pre ++ Admit t id actor ledgerNew :: mid))%nat.
Proof.
  intros Hr Hc Hf Hw. destruct (decide (news_since t (pre ++ Admit t id actor ledgerNew :: mid) < ledgerLimit)%nat) as [Hn|]; [exfalso|lia].
  rewrite app_comm_cons, app_assoc in Hr, Hc. set (log := pre ++ Admit t id actor ledgerNew :: mid) in *. pose proof (clock_prefix _ _ Hc) as Hc'.
  apply lrun_snoc in Hr as (l0 & Hr & Hs). destruct (held_since pre t id actor mid l0) as (held & He & _ & Ht & _); [done|done|done| |done|].
  - unfold clock_ok, clocks in Hc. rewrite omap_snoc in Hc. cbn [clock_of] in Hc. apply Forall_forall. intros at_ Hat.
    enough (at_ <= now)%Z by lia. eapply StronglySorted_app_1_elem_of; [exact Hc| |by apply list_elem_of_singleton].
    unfold log. rewrite omap_app. cbn. unfold clocks in Hat. set_solver.
  - assert (He' : lg_entries (expire now l0) !! id = Some held) by (eapply expire_keeps; [by apply lrun_inv|done|lia|by rewrite Ht]).
    inversion Hs as [? ? ? ? ? ? ? ? Ha| | | |]; subst. unfold ledger_admit in Ha. rewrite He' in Ha. by case_bool_decide; simplify_eq/=.
Qed.

(** What a call did to the ledger: the id it left taken, and the operations. *)
Record chunk := mkChunk { ck_call : Call; ck_taken : option string; ck_events : list levent }.

Definition shaped (k : chunk) : Prop := Shape (ck_call k) (ck_taken k) (ck_events k).
Definition log_of (ks : list chunk) : list levent := concat (ck_events <$> ks).
Definition times (ks : list chunk) : list Z := (fun k => c_now (ck_call k)) <$> ks.
Definition calls_since (t : Z) (ks : list Z) : nat := length (filter (fun now => t <= now)%Z ks).

Lemma log_of_app ks ks' : log_of (ks ++ ks') = log_of ks ++ log_of ks'.
Proof. unfold log_of. by rewrite fmap_app, concat_app. Qed.

Lemma log_of_cons k ks : log_of (k :: ks) = ck_events k ++ log_of ks.
Proof. done. Qed.

Lemma times_app ks ks' : times (ks ++ ks') = times ks ++ times ks'.
Proof. apply fmap_app. Qed.

Lemma calls_since_app t ks ks' : calls_since t (ks ++ ks') = (calls_since t ks + calls_since t ks')%nat.
Proof. unfold calls_since. by rewrite filter_app, length_app. Qed.

Lemma quiet_clocks q : Forall quiet q -> clocks q = [] /\ news q = [].
Proof. induction 1 as [|ev q Hev _ [IH1 IH2]]; [done|]. unfold clocks, news. cbn. by destruct ev. Qed.

Lemma clocks_app q q' : clocks (q ++ q') = clocks q ++ clocks q'.
Proof. apply omap_app. Qed.

Lemma news_app q q' : news (q ++ q') = news q ++ news q'.
Proof. apply omap_app. Qed.

Lemma clocks_cons ev log : clocks (ev :: log) = match clock_of ev with Some t => t :: clocks log | None => clocks log end.
Proof. done. Qed.

Lemma news_cons ev log : news (ev :: log) = match new_key ev with Some k => k :: news log | None => news log end.
Proof. done. Qed.

(** A call reads the clock once at most. *)
Lemma shaped_clocks k : shaped k ->
  (clocks (ck_events k) = [] \/ clocks (ck_events k) = [c_now (ck_call k)])
  /\ (forall t, news_since t (ck_events k) <= calls_since t (times [k]))%nat.
Proof.
  destruct k as [c K evs]. unfold shaped. cbn [ck_call ck_taken ck_events times fmap list_fmap]. set (now := c_now c).
  assert (Hs : forall t id, (length (filter (fun k : string * Z => t <= k.2)%Z [(id, now)]) <= calls_since t [now])%nat).
  { intros t id. unfold calls_since. rewrite !filter_cons, !filter_nil. cbn [snd]. repeat case_decide; cbn; lia. }
  destruct 1 as [q Hq|q id actor v q' Hq Hq' Hv|q id actor q' Hq Hq'|q id actor q' q'' Hq Hq' Hq'']; unfold news_since; fold now.
  all: repeat match goal with Hx : Forall quiet _ |- _ => apply quiet_clocks in Hx as [? ?] end.
  all: repeat first [rewrite clocks_app | rewrite news_app | rewrite clocks_cons | rewrite news_cons]; cbn [clock_of new_key].
  all: repeat match goal with Hx : clocks _ = [] |- _ => rewrite Hx | Hx : news _ = [] |- _ => rewrite Hx end; cbn [app].
  - split; [by left|]. intros t. rewrite filter_nil. cbn. lia.
  - split; [by right|]. intros t. destruct v; [done|..]; rewrite filter_nil; cbn; lia.
  - split; [by right|]. auto.
  - split; [by right|]. auto.
Qed.

Lemma news_calls t ks : Forall shaped ks -> (news_since t (log_of ks) <= calls_since t (times ks))%nat.
Proof.
  induction 1 as [|k ks Hk _ IH]; [done|]. rewrite log_of_cons, news_since_app. change (times (k :: ks)) with (times [k] ++ times ks). rewrite calls_since_app.
  apply shaped_clocks in Hk as [_ Hk]. specialize (Hk t). lia.
Qed.

Lemma log_clocks ks at_ : Forall shaped ks -> at_ ∈ clocks (log_of ks) -> at_ ∈ times ks.
Proof.
  induction 1 as [|k ks Hk _ IH]; [done|]. rewrite log_of_cons, clocks_app, elem_of_app. change (times (k :: ks)) with (c_now (ck_call k) :: times ks).
  apply shaped_clocks in Hk as [[-> | ->] _]; set_solver.
Qed.

Lemma log_in_order ks : Forall shaped ks -> StronglySorted Z.le (times ks) -> clock_ok (log_of ks).
Proof.
  unfold clock_ok. induction 1 as [|k ks Hk Hks IH]; [constructor|]. change (times (k :: ks)) with (c_now (ck_call k) :: times ks).
  intros [Hs Hf]%StronglySorted_inv. specialize (IH Hs). rewrite log_of_cons, clocks_app. apply shaped_clocks in Hk as [[-> | ->] _]; [done|]. cbn [app].
  constructor; [done|]. rewrite Forall_forall in *. intros at_ Hat. apply Hf. by apply log_clocks.
Qed.

Lemma lrun_prefix log log' l : lrun (log ++ log') l -> exists l0, lrun log l0.
Proof.
  revert l. induction log' as [|ev log' IH] using rev_ind; intros l; [rewrite app_nil_r; by exists l|].
  rewrite app_assoc. intros (l0 & Hr & _)%lrun_snoc. by eapply IH.
Qed.

Lemma clock_ok_prefix log log' : clock_ok (log ++ log') -> clock_ok log.
Proof. unfold clock_ok. rewrite clocks_app. apply StronglySorted_app_1_l. Qed.

Lemma quiet_keeps id q : id <> "" -> Forall quiet q -> Forget id ∉ q.
Proof. intros Hid Hq Hin. rewrite Forall_forall in Hq. by apply Hq in Hin. Qed.

(** A call that takes an id as new once more. *)
Lemma taken_twice A k B q now other rest id l : Forall shaped (A ++ k :: B) -> ck_taken k = Some id -> id <> "" -> Forget id ∉ log_of B -> Forall quiet q ->
  lrun (log_of (A ++ k :: B) ++ q ++ Admit now id other ledgerNew :: rest) l ->
  clock_ok (log_of (A ++ k :: B) ++ q ++ Admit now id other ledgerNew :: rest) ->
  (now - c_now (ck_call k) < ledgerWindow)%Z -> (ledgerLimit <= calls_since (c_now (ck_call k)) (times (A ++ k :: B)))%nat.
Proof.
  intros Hsh Hk Hid Hf Hq Hr Hc Hw. pose proof (news_calls (c_now (ck_call k)) _ Hsh) as Hn. apply Forall_app in Hsh as [_ [Hshk _]%Forall_cons].
  unfold shaped in Hshk. rewrite Hk in Hshk. inversion Hshk as [| |q0 ? actor q1 Hq0 Hq1 Hid' He|]; subst.
  assert (Hlog : log_of (A ++ k :: B) ++ q = (log_of A ++ q0) ++ Admit (c_now (ck_call k)) id actor ledgerNew :: (q1 ++ log_of B ++ q)).
  { rewrite log_of_app, log_of_cons, <- He, <- !app_assoc. cbn [app]. by rewrite <- ?app_assoc. }
  assert (Hsplit : log_of (A ++ k :: B) ++ q ++ Admit now id other ledgerNew :: rest
    = ((log_of A ++ q0) ++ Admit (c_now (ck_call k)) id actor ledgerNew :: (q1 ++ log_of B ++ q) ++ [Admit now id other ledgerNew]) ++ rest).
  { rewrite app_assoc, Hlog, <- !app_assoc. cbn [app]. by rewrite <- ?app_assoc. }
  rewrite Hsplit in Hr, Hc. apply lrun_prefix in Hr as [l0 Hr]. apply clock_ok_prefix in Hc.
  pose proof (new_twice _ _ _ _ _ _ _ _ Hr Hc) as Ht. rewrite <- Hlog, news_since_app in Ht. apply quiet_clocks in Hq as Hq2. destruct Hq2 as [_ Hq2].
  unfold news_since at 2 in Ht. rewrite Hq2, filter_nil in Ht. cbn [length] in Ht. etrans; [apply Ht; [|done]|lia].
  pose proof (quiet_keeps id q0 Hid Hq0). pose proof (quiet_keeps id q1 Hid Hq1). pose proof (quiet_keeps id q Hid Hq). set_solver.
Qed.

(** A call gives up what it took. *)
Lemma given_up_taken c K evs id : Shape c K evs -> id <> "" -> Forget id ∈ evs ->
  exists q actor rest, Forall quiet q /\ evs = q ++ Admit (c_now c) id actor ledgerNew :: rest.
Proof.
  intros Hsh Hid. pose proof (fun q => quiet_keeps id q Hid) as Hk.
  destruct Hsh as [q Hq|q i actor v q' Hq Hq'|q i actor q' Hq Hq'|q i actor q' q'' Hq Hq' Hq'']; [intros Hin; by apply Hk in Hq|..].
  1,2: apply Hk in Hq, Hq'; set_solver.
  intros Hin. assert (id = i) as -> by (apply Hk in Hq, Hq', Hq''; set_solver). by exists q, actor, (q' ++ Forget i :: q'').
Qed.

(** While the window lasts and the ledger has room, nobody gives the id up. *)
Lemma not_given_up A k B id l : Forall shaped (A ++ k :: B) -> ck_taken k = Some id -> id <> "" ->
  lrun (log_of (A ++ k :: B)) l -> clock_ok (log_of (A ++ k :: B)) ->
  Forall (fun now => now - c_now (ck_call k) < ledgerWindow)%Z (times B) ->
  (calls_since (c_now (ck_call k)) (times (A ++ k :: B)) < ledgerLimit)%nat -> Forget id ∉ log_of B.
Proof.
  intros Hsh Hk Hid. revert l Hsh. induction B as [|b B IH] using rev_ind; intros l Hsh Hr Hc Hw Hn; [apply not_elem_of_nil|].
  assert (Happ : A ++ k :: B ++ [b] = (A ++ k :: B) ++ [b]) by by rewrite <- app_assoc. rewrite Happ in *. apply Forall_app in Hsh as [Hsh Hb].
  apply Forall_cons in Hb as [Hb _]. rewrite log_of_app in Hr, Hc. rewrite times_app in Hn, Hw. rewrite calls_since_app in Hn.
  apply Forall_app in Hw as [Hw Hwb]. apply Forall_cons in Hwb as [Hwb _].
  destruct (lrun_prefix _ _ _ Hr) as [l0 Hr0]. assert (Hf : Forget id ∉ log_of B) by (eapply IH; [done|exact Hr0|by eapply clock_ok_prefix|done|lia]).
  rewrite log_of_app, log_of_cons, app_nil_r. rewrite log_of_cons, app_nil_r in Hr, Hc. intros [Hin|Hin]%elem_of_app; [done|].
  destruct (given_up_taken _ _ _ id Hb Hid Hin) as (q & actor & rest & Hq & He). rewrite He in Hr, Hc.
  pose proof (taken_twice A k B q _ actor _ id l Hsh Hk Hid Hf Hq Hr Hc Hwb). lia.
Qed.

Lemma taken_once A k B b C id l : Forall shaped (A ++ k :: B ++ b :: C) -> StronglySorted Z.le (times (A ++ k :: B ++ b :: C)) -> lrun (log_of (A ++ k :: B ++ b :: C)) l ->
  ck_taken k = Some id -> ck_taken b = Some id -> id <> "" ->
  (ledgerWindow <= c_now (ck_call b) - c_now (ck_call k))%Z \/ (ledgerLimit <= calls_since (c_now (ck_call k)) (times (A ++ k :: B)))%nat.
Proof.
  intros Hsh Hs Hr Hk Hb Hid. destruct (decide (ledgerWindow <= c_now (ck_call b) - c_now (ck_call k))%Z) as [|Hw]; [by left|right].
  destruct (decide (ledgerLimit <= calls_since (c_now (ck_call k)) (times (A ++ k :: B)))%nat) as [|Hn]; [done|].
  pose proof (log_in_order _ Hsh Hs) as Hc. assert (Happ : A ++ k :: B ++ b :: C = (A ++ k :: B) ++ b :: C) by by rewrite <- app_assoc.
  rewrite Happ in *. apply Forall_app in Hsh as [Hsh [Hshb _]%Forall_cons]. rewrite log_of_app, log_of_cons in Hr, Hc.
  unfold shaped in Hshb. rewrite Hb in Hshb. inversion Hshb as [| |q ? actor q' Hq Hq' Hx He|]; subst. rewrite <- He, <- app_assoc in Hr, Hc. cbn [app] in Hr, Hc.
  eapply taken_twice; [done|done|done| |exact Hq|exact Hr|exact Hc|lia].
  destruct (lrun_prefix _ _ _ Hr) as [l0 Hr0]. eapply not_given_up; [done|done|done|exact Hr0|by eapply clock_ok_prefix| |lia].
  apply Forall_forall. intros now Hnow. enough (now <= c_now (ck_call b))%Z by lia. rewrite times_app in Hs.
  eapply StronglySorted_app_1_elem_of; [exact Hs| |by left]. rewrite times_app. apply elem_of_app. right. by right.
Qed.

End calls.

(** ** Calls *)

(** A call to a door of the node. *)
Inductive DoorCall :=
| CallClient (identity topic payload : string)
| CallLocal (identity topic payload : string) (actor : Attribution)
| CallHuman (entry : Entry) (topic payload : string)
| CallAdmin (topic payload : string) (a : Attribution)
| CallDownlink (topic payload : string) (ts : Z) (a : Attribution) (at_to : option CursorAdvance)
| CallDefinition (topic payload : string) (ts : Z) (a : Attribution)
| CallPage (cmds : list DownlinkCommand) (at_to : CursorAdvance)
| CallRefresh (topic payload : string) (ifKVOffset : N)
| CallBatch (fs : string -> Faults) (identity : string) (records : list (string * string)).

(** What a call answered, and what it handed to the executor. *)
Record Answer := mkAnswer { an_result : result IngestErr Result; an_runs : list (Parsed * string) }.

Section run.
Context `{Codec} `{CommandCodec} `{StateCodec} `{LedgerCodec} `{DoorCodec}.
Variable env : Env.

Abbreviation ClassOf := (class_of (en_contracts env)).

(** The doors of many records answer each of them; here they answer nothing. *)
Definition call_door (c : Call) (d : DoorCall) (e : Engine) : Engine * result IngestErr Result :=
  match d with
  | CallClient identity topic payload => IngestClient env c identity topic payload e
  | CallLocal identity topic payload actor => IngestLocalAttributed env c identity topic payload actor e
  | CallHuman entry topic payload => IngestHuman env c entry topic payload e
  | CallAdmin topic payload a => IngestAdminAttributed env c topic payload a e
  | CallDownlink topic payload ts a at_to => IngestDownlinkAttributed env c topic payload ts a at_to e
  | CallDefinition topic payload ts a => IngestDownlinkDefinitionAttributed env c topic payload ts a e
  | CallPage cmds at_to => (fst (IngestDownlinkPage env c cmds at_to e), Ok no_result)
  | CallRefresh topic payload off => (fst (IngestRefresh env c topic payload off e), Ok no_result)
  | CallBatch fs identity records => (fst (IngestClientBatch env c fs identity records e), Ok no_result)
  end.

(** The publish of a door that asks the ledger. *)
Definition publish_of (d : DoorCall) : option (string * string) :=
  match d with
  | CallClient _ topic payload | CallLocal _ topic payload _ | CallHuman _ topic payload | CallAdmin topic payload _ => Some (topic, payload)
  | _ => None
  end.

(** The correlation id of a command the call stored or ran. *)
Definition taken_id (d : DoorCall) (o : Answer) : option string :=
  match publish_of d with
  | Some (topic, payload) =>
      match Parse topic with
      | Ok p =>
          let persisted := match an_result o with Ok res => re_Persisted res | Err _ => false end in
          if IsCommand (ClassOf (Contract p)) && (persisted || negb (bool_decide (an_runs o = []))) then Some (correlationID payload) else None
      | Err _ => None
      end
  | None => None
  end.

Fixpoint run_doors (calls : list (Call * DoorCall)) (e : Engine) : Engine * list Answer :=
  match calls with
  | [] => (e, [])
  | (c, d) :: calls =>
      let '(e1, r) := call_door c d e in
      let '(e2, outs) := run_doors calls e1 in
      (e2, mkAnswer r (drop (length (eg_runs e)) (eg_runs e1)) :: outs)
  end.

Context (Henv : env_ok env).

Definition Called (c : Call) (d : DoorCall) (e e' : Engine) (r : result IngestErr Result) : Prop :=
  (exists K R, Takes env c streams K R e e'
     /\ forall id, taken_id d (mkAnswer r R) = Some id -> id <> "" -> K = Some id)
  /\ match r with Err err => exists K, Takes env c (refused_in err) K [] e e' | Ok _ => True end.

Lemma refused_known err : refused_in err ⊆ streams.
Proof. destruct err; cbn; first [apply audit_known | apply logs_known]. Qed.

Lemma called_publish c d topic payload p Good e e' r : publish_of d = Some (topic, payload) -> Parse topic = Ok p ->
  Outcome env c (ClassOf (Contract p)) p topic payload Good e e' r -> Called c d e e' r.
Proof.
  intros Hd Hp. unfold Called, taken_id. rewrite Hd, Hp. destruct r as [res|err]; cbn [an_result an_runs].
  - intros [(K & R & Ht & HK) _]. split; [|done]. exists K, R. split; [exact Ht|]. intros id. destruct (IsCommand _) eqn:Hc; cbn [andb]; [|done].
    destruct (_ || _) eqn:Hor; [|done]. intros [= <-] Hid. apply HK; [done| |done]. apply orb_true_iff in Hor as [?|Hn]; [by left|right].
    by apply negb_true_iff, bool_decide_eq_false in Hn.
  - intros [K Ht]. split; [|by exists K]. exists K, []. split; [eapply Takes_weaken; [apply refused_known|exact Ht]|]. intros id.
    rewrite bool_decide_true by done. cbn. by rewrite andb_false_r.
Qed.

Lemma called_quiet c d e e' r : (forall o, taken_id d o = None) -> (exists R, Quietly env streams R e e') ->
  match r with Err err => Quietly env (refused_in err) [] e e' | Ok _ => True end -> Called c d e e' r.
Proof.
  intros Hd [R Q] Hr. split.
  - exists None, R. split; [by apply Takes_quiet|]. by rewrite Hd.
  - destruct r; [done|]. exists None. by apply Takes_quiet.
Qed.

Lemma called_same c d e r : Eng env e -> (forall o, taken_id d o = None) -> Called c d e e r.
Proof. intros He Hd. apply called_quiet; [done|exists []; by apply quiet_refl|]. destruct r; [done|by apply quiet_refl]. Qed.

Lemma called_denied c d reason actor operation q e e' r : Eng env e -> (forall o, taken_id d o = None) ->
  rejectDenied env c reason actor operation q e = (e', r) -> Called c d e e' r.
Proof.
  intros He Hd E. pose proof (quiet_rejectDenied env c Henv (A := Result) reason actor operation q e He) as Q. rewrite E in Q.
  unfold rejectDenied in E. injection E as _ <-. apply called_quiet; [done| |exact Q]. exists []. eapply Quietly_weaken; [apply audit_known|exact Q].
Qed.

Lemma call_door_called c d e e' r : Eng env e -> call_door c d e = (e', r) -> Called c d e e' r.
Proof.
  intros He. destruct d as [identity topic payload|identity topic payload actor|entry topic payload|topic payload a|topic payload ts a at_to|topic payload ts a|cmds at_to|topic payload off|fs identity records];
    cbn [call_door].
  - destruct (Parse topic) as [p|err] eqn:Hp.
    + intros E. eapply called_publish; [done|exact Hp|by eapply ingestClientAttributed_spec].
    + unfold IngestClient, ingestClientAttributed. rewrite Hp. destruct (negb _); intros [= <- <-]; apply called_same; try done; unfold taken_id; cbn; by rewrite Hp.
  - destruct (Parse topic) as [p|err] eqn:Hp.
    + intros E. eapply called_publish; [done|exact Hp|by eapply IngestLocalAttributed_spec].
    + assert (Hd : forall o, taken_id (CallLocal identity topic payload actor) o = None) by (unfold taken_id; cbn; by rewrite Hp).
      unfold IngestLocalAttributed, ingestClientAttributed. rewrite Hp. destruct (en_Get env identity); [|by eapply called_denied].
      destruct (negb _); [by eapply called_denied|]. destruct (_ || _); [intros [= <- <-]; by apply called_same|].
      destruct (negb _); intros [= <- <-]; by apply called_same.
  - destruct (Parse topic) as [p|err] eqn:Hp.
    + intros E. eapply called_publish; [done|exact Hp|by eapply IngestHuman_spec].
    + unfold IngestHuman. rewrite Hp. destruct (negb _); intros [= <- <-]; apply called_same; try done; unfold taken_id; cbn; by rewrite Hp.
  - destruct (Parse topic) as [p|err] eqn:Hp.
    + intros E. eapply called_publish; [done|exact Hp|by eapply IngestAdminAttributed_spec].
    + unfold IngestAdminAttributed. rewrite Hp. destruct (negb _); intros [= <- <-]; apply called_same; try done; unfold taken_id; cbn; by rewrite Hp.
  - intros E. apply IngestDownlinkAttributed_quiet in E as [Q1 Q2]; [|done..]. by apply called_quiet.
  - intros E. apply IngestDownlinkDefinition_quiet in E as [Q1 Q2]; [|done..]. by apply called_quiet.
  - intros [= <- <-]. apply called_quiet; [done|by apply IngestDownlinkPage_quiet|done].
  - intros [= <- <-]. apply called_quiet; [done|exists []; by apply IngestRefresh_quiet|done].
  - intros [= <- <-]. apply called_quiet; [done|exists []; by apply IngestClientBatch_quiet|done].
Qed.

(** ** Runs *)

Lemma run_chunks calls e e' outs : Eng env e -> run_doors calls e = (e', outs) ->
  exists ks P R, ck_call <$> ks = calls.*1 /\ Forall shaped ks /\ Step env streams e e' (log_of ks) P R
    /\ forall n c d o k id, calls !! n = Some (c, d) -> outs !! n = Some o -> ks !! n = Some k -> taken_id d o = Some id -> id <> "" -> ck_taken k = Some id.
Proof.
  revert e outs. induction calls as [|[c d] calls IH]; intros e outs He; cbn [run_doors].
  { intros [= <- <-]. exists [], [], []. split_and!; [done|done| |done]. split; [apply Grows_refl, He|by rewrite app_nil_r|done|constructor|done|by rewrite app_nil_r]. }
  destruct (call_door c d e) as [e1 r] eqn:Ec. destruct (run_doors calls e1) as [e2 outs'] eqn:Er. intros [= <- <-].
  apply call_door_called in Ec as [(K & R & Ht & HK) _]; [|done]. assert (He1 : Eng env e1) by by eapply Takes_eng.
  destruct (IH e1 outs' He1 Er) as (ks & P' & R' & Hcalls & Hsh & Hst & Hid). destruct Ht as (evs & P & Hs & Hone).
  exists (mkChunk c K evs :: ks), (P ++ P'), (R ++ R'). split_and!.
  - cbn. by rewrite Hcalls.
  - by apply Forall_cons.
  - rewrite log_of_cons. by eapply Step_trans.
  - intros [|n] c0 d0 o k id Hc Ho Hk Htk Hne; cbn in Hc, Ho, Hk; [|by eapply Hid].
    injection Hc as -> ->. injection Ho as <-. injection Hk as <-. rewrite (st_runs _ _ _ _ _ _ _ Hone), drop_app_length in Htk. by apply HK.
Qed.

End run.

(** Two places of a list. *)
Lemma two_places {A} (l : list A) i j x y : (i < j)%nat -> l !! i = Some x -> l !! j = Some y ->
  exists B C, l = take i l ++ x :: B ++ y :: C /\ take j l = take i l ++ x :: B.
Proof.
  intros Hij Hx Hy. exists (drop (S i) (take j l)), (drop (S j) l). assert (Ht : take j l = take i l ++ x :: drop (S i) (take j l)).
  { assert (Hxt : take j l !! i = Some x) by by rewrite lookup_take_lt. pose proof (take_drop_middle _ _ _ Hxt) as Hm.
    rewrite take_take, Nat.min_l in Hm by lia. by rewrite Hm. }
  split; [|exact Ht]. pose proof (take_drop_middle l j y Hy) as Hm. rewrite Ht, <- app_assoc in Hm. symmetry. exact Hm.
Qed.

Section theorems.
Context `{Codec} `{CommandCodec} `{StateCodec} `{LedgerCodec} `{DoorCodec}.


(** C14: Nothing is on the bus that is not in the store. In every run of door calls, whatever
    fails, each publication of the node is a record of its store, with that topic and
    payload, or an answer to a command that is not retained: a subscriber never learns
    what a restart would take back. *)
Theorem bus_is_durable env calls e e' outs :
  run_doors env calls e = (e', outs) -> env_ok env -> Eng env e ->
  exists pubs, eg_bus e' = eg_bus e ++ pubs
    /\ Forall (fun pub => durable (eg_store e') pub \/ pub_retain pub = false /\ answer_topic env (pub_topic pub)) pubs.
Proof.
  intros Hrun Henv He. destruct (run_chunks env Henv calls e e' outs He Hrun) as (ks & P & R & _ & _ & Hst & _). exists P.
  split; [exact (st_bus _ _ _ _ _ _ _ Hst)|exact (st_backed _ _ _ _ _ _ _ Hst)].
Qed.


(** C5: What a client stores passed every check. A record the client door reports as stored
    is in the store, at that offset, byte for byte, written by and attributed to the
    identity that published it, which the registry knows; its topic parses, its contract
    is not the registry's own and takes its payload; and
    - a command was not for a draining mount, and the identity, or the person it acts
      for, may send it there, or it is one of the few an identity may send this node
      without a grant;
    - an audit event is for this node, from an identity that may write it, under the
      topic its body names;
    - any other record is for this node, of a known class, from its author, under a
      grant to publish that topic, and a metric from the producer of its signal. *)
Theorem client_door_sound env c identity topic payload e e' res :
  IngestClient env c identity topic payload e = (e', Ok res) -> env_ok env -> Eng env e -> re_Persisted res = true ->
  exists p entry a,
    Parse topic = Ok p /\ Contract p <> "_EnrolledIdentity" /\ en_Get env identity = Some entry
    /\ tn_WrittenBy a = ULID entry /\ tn_ActorID a = ULID entry
    /\ validateContract (en_contracts env) (en_validate env) (Contract p) payload = None
    /\ let class := class_of (en_contracts env) (Contract p) in
       stored (eg_store e') res (StreamFor class) (record_of class p topic payload (c_ts c) a)
       /\ if IsCommand class
          then en_DrainingMount env (Path p) = false
            /\ let attested := actorForAttested env (with_door doorClient (attributionForEntry entry)) true in
               (Authorize topic_root (scope_of env e) (default entry attested) ActCmd topic = true
                \/ attested = None /\ NodeID p = en_ULID env
                   /\ MayImplicitlyConfigure (Some entry) (Contract p) || MayImplicitlyDeliverAppNotification (Some entry) (Contract p) (Path p) = true)
          else NodeID p = en_ULID env
            /\ if IsAudit class then MayPublishAudit (Some entry) = true /\ ValidateAuditTopic p payload = true
               else IsKnown class = true
                 /\ validateClientStateAuthor (en_contracts env) (en_ULID env) identity p payload = true
                 /\ Authorize topic_root (scope_of env e) entry ActPub topic = true
                 /\ (IsMetric (Contract p) = true ->
                      checkMetricProducer (en_ULID env) (eg_store e) (h_index (eg_held e)) (h_cats (eg_held e)) entry p = true).
Proof.
  intros E Henv He Hres. destruct (Parse topic) as [p|err] eqn:Hp.
  2: { unfold IngestClient, ingestClientAttributed in E. rewrite Hp in E. destruct (negb _); [by injection E as _ <-|done]. }
  apply (ingestClientAttributed_spec env c Henv _ _ _ _ _ _ _ p Hp He) in E as [_ Hst]. destruct (Hst Hres) as (a & (Hc & Hok) & Hs). exists p.
  destruct (IsCommand _) eqn:Ecmd; [|destruct (IsAudit _) eqn:Eaud].
  - destruct Hok as (Hd & Hv & _ & entry & attested & Hg & Hw & Hi & _ & Hat & Hz). exists entry, a. cbv zeta. cbn [default] in Hat. rewrite Ecmd, Hat. by split_and!.
  - destruct Hok as (Hn & Hv & Ht & entry & Hg & -> & Hm). exists entry, (attributionForEntry entry). cbv zeta. rewrite Ecmd, Eaud. by split_and!.
  - destruct Hok as (Hk & Hn & Hv & Hau & entry & Hg & -> & Hz & Hm). exists entry, (attributionForEntry entry). cbv zeta. rewrite Ecmd, Eaud. by split_and!.
Qed.

(** C16: People only send commands. What the human door reports as stored is a command, in
    the store at that offset, of a person whose grants cover it, with a payload its
    contract takes and not for a draining mount; it is attributed to that person, and
    marked as passed on by this door only when the person can be authorised again from
    what the record says of them. *)
Theorem human_door_sound env c entry topic payload e e' res :
  IngestHuman env c entry topic payload e = (e', Ok res) -> env_ok env -> Eng env e -> re_Persisted res = true ->
  exists p a,
    Parse topic = Ok p /\ class_of (en_contracts env) (Contract p) = ClassCmd
    /\ stored (eg_store e') res "commands" (record_of ClassCmd p topic payload (c_ts c) a)
    /\ Authorize topic_root (scope_of env e) entry ActCmd topic = true /\ MayPublishContract (Some entry) (Contract p) = true
    /\ validateContract (en_contracts env) (en_validate env) (Contract p) payload = None
    /\ en_DrainingMount env (Path p) = false
    /\ tn_WrittenBy a = ULID entry /\ tn_ActorID a = ULID entry
    /\ (tn_Door a = doorHuman ->
         exists again, actorForAttested env a true = Some again /\ Authorize topic_root (scope_of env e) again ActCmd topic = true).
Proof.
  intros E Henv He Hres. destruct (Parse topic) as [p|err] eqn:Hp; [|unfold IngestHuman in E; rewrite Hp in E; by destruct (negb _)].
  apply (IngestHuman_spec env c Henv _ _ _ _ _ _ p Hp He) in E as [_ Hst]. destruct (Hst Hres) as (a & Hok & Hs).
  destruct Hok as (_ & Hc & Hm & Hd & Hz & Hv & _ & Hw & Hi & Hag). apply bool_decide_eq_true in Hc. rewrite Hc in Hs. exists p, a. by split_and!.
Qed.

End theorems.

(** ** Examples *)

Section examples.
#[local] Existing Instances demo_codec demo_command_codec demo_ledger_codec.

#[local] Instance demo_state_codec : StateCodec := {|
  json_state_ids := fun payload => Some (payload, payload);
  json_data_tag := fun _ => None;
  json_tag_ids := fun _ => None;
  json_event_id := fun payload => Some payload;
|}.

(** A payload is its own correlation id. *)
#[local] Instance demo_door_codec : DoorCodec := {|
  json_correlation_id := fun payload => Some payload;
  json_lenient_id := fun _ => None;
  json_is_progress := fun _ => false;
  json_wants_progress := fun _ => false;
  json_outcome := fun o => co_CorrelationID o;
  json_read_outcome := fun ack => Some (plain_outcome ack 200 "");
  json_progress := fun id _ _ _ => id;
  json_audit := fun d _ _ _ => ad_ActorID d;
|}.

(** The node "n1" with one machine, which may operate and publish everywhere. *)
Definition demo_operator : Entry := mkEntry "m1" "" KindExternal "m1" "" ["cmd:#:operate"; "pub:#"] [] "" "" "" false "" StatusActive.

Definition demo_env : Env :=
  mkEnv "n1" None (fun _ _ => None) (fun id => if id == "m1" then Some demo_operator else None) (fun _ => false) None None (fun _ _ => None) (fun _ _ => None)
    (fun _ => None) false true None (fun _ => true) 0 (fun _ => None) (fun _ => "") (fun contract => contract == "_CmdOperate")
    (fun _ _ _ _ h => (h, [], mkReply 200 "" [] None)) (fun _ _ _ h => (h, [])) (fun _ _ => true).

Definition demo_engine : Engine := mkEngine (mkHeld (StoreOpen.fresh "n1-store") NewElementIndex (mkCatalogues ∅ ∅)) newCommandLedger ∅ [] [].

Definition demo_call (now : Z) (record : Faults) : Call :=
  mkCall now 1000 7 record no_faults no_faults no_faults no_faults (fun _ => mkGate [] false) no_faults "a1".

(** The same command four times: the first write fails, the third is a repeat, the last
    comes after the window. *)
Definition demo_topic : string := "colca/v1/_CmdOperate/n1/line1/start".
Definition demo_calls : list (Call * DoorCall) :=
  (fun x : Z * Faults => (demo_call x.1 x.2, CallClient "m1" demo_topic "c1"))
    <$> [(0%Z, mkFaults (fun _ => true) true); (1%Z, no_faults); (2%Z, no_faults); (ledgerWindow + 1, no_faults)%Z].

Lemma demo_env_ok : env_ok demo_env.
Proof. split; intros; cbn; (split; [by apply Grows_refl|constructor]). Qed.

Lemma demo_engine_ok : Eng demo_env demo_engine.
Proof. split; [apply fresh_inv|]. intros id held a Hid. cbn in Hid. by rewrite lookup_empty in Hid. Qed.

Lemma demo_taken : zip_with (fun x o => taken_id demo_env x.2 o) demo_calls (snd (run_doors demo_env demo_calls demo_engine)) = [None; Some "c1"; None; Some "c1"].
Proof. vm_compute. reflexivity. Qed.

Definition demo_run : Engine * list Answer := run_doors demo_env demo_calls demo_engine.
Definition demo_answer (n : nat) : Answer := default (mkAnswer (Err Invalid) []) (snd demo_run !! n).


Lemma bus_is_durable_witness :
  map pub_topic (eg_bus (fst demo_run)) = [demo_topic; "colca/v1/_Ack/n1/line1/start"; "colca/v1/_Ack/n1/line1/start"; demo_topic; "colca/v1/_Ack/n1/line1/start"]
  /\ exists pubs, eg_bus (fst demo_run) = eg_bus demo_engine ++ pubs
    /\ Forall (fun pub => durable (eg_store (fst demo_run)) pub \/ pub_retain pub = false /\ answer_topic demo_env (pub_topic pub)) pubs.
Proof.
  split; [vm_compute; reflexivity|].
  exact (bus_is_durable demo_env demo_calls demo_engine (fst demo_run) (snd demo_run) (surjective_pairing _) demo_env_ok demo_engine_ok).
Defined.

(** A stranger. *)
Definition demo_refused : Engine * result IngestErr Result := call_door demo_env (demo_call 0 no_faults) (CallClient "x" demo_topic "c1") demo_engine.


Definition demo_stored : Engine * result IngestErr Result := IngestClient demo_env (demo_call 0 no_faults) "m1" demo_topic "c1" demo_engine.
Definition demo_res : Result := match snd demo_stored with Ok res => res | Err _ => no_result end.

Lemma client_door_sound_witness :
  re_Offset demo_res = 1%N /\ exists p entry, Parse demo_topic = Ok p /\ en_Get demo_env "m1" = Some entry /\ tn_WrittenBy (attributionForEntry entry) = "m1".
Proof.
  split; [vm_compute; reflexivity|].
  destruct (client_door_sound demo_env (demo_call 0 no_faults) "m1" demo_topic "c1" demo_engine (fst demo_stored) demo_res)
    as (p & entry & a & Hp & _ & Hg & _).
  - replace (Ok demo_res) with (snd demo_stored) by (vm_compute; reflexivity). apply surjective_pairing.
  - apply demo_env_ok.
  - apply demo_engine_ok.
  - vm_compute. reflexivity.
  - exists p, entry. split_and!; [done|done|]. vm_compute in Hg. by injection Hg as <-.
Defined.

Definition demo_person : Entry := mkEntry "alice" "" KindHuman "alice" "" ["cmd:#:operate"] [] "Alice" "" "" true "" StatusActive.
Definition demo_sent_by : Engine * result IngestErr Result := IngestHuman demo_env (demo_call 0 no_faults) demo_person demo_topic "c1" demo_engine.
Definition demo_sent_res : Result := match snd demo_sent_by with Ok res => res | Err _ => no_result end.

Lemma human_door_sound_witness :
  re_Offset demo_sent_res = 1%N /\ exists p a, Parse demo_topic = Ok p /\ tn_ActorID a = "alice"
    /\ stored (eg_store (fst demo_sent_by)) demo_sent_res "commands" (record_of ClassCmd p demo_topic "c1" 1000 a).
Proof.
  split; [vm_compute; reflexivity|].
  destruct (human_door_sound demo_env (demo_call 0 no_faults) demo_person demo_topic "c1" demo_engine (fst demo_sent_by) demo_sent_res)
    as (p & a & Hp & _ & Hs & _ & _ & _ & _ & _ & Ha & _).
  - replace (Ok demo_sent_res) with (snd demo_sent_by) by (vm_compute; reflexivity). apply surjective_pairing.
  - apply demo_env_ok.
  - apply demo_engine_ok.
  - vm_compute. reflexivity.
  - exists p, a. by split_and!.
Defined.

End examples.
