(* ===== verification/Queued.v ===== *)
(** * Commands that wait

    [internal/engine/queued.go] and [standalone.go]: what a node says about a command in
    its commands stream while a child node or a machine has not fetched it. It may refuse
    to forward it, and it answers it when it will never be handed on. Progress acks are
    written by [noteQueued] and [NoteForwarded]. *)

From S2P Require Export Ingest.

Open Scope string_scope.
Open Scope list_scope.
Open Scope go_scope.

Section queued.
Context `{Codec} `{CommandCodec} `{StateCodec} `{LedgerCodec} `{DoorCodec}.

Section env.
(** [List] is the registry's, absent when it has none; [Revoked] the store's record of
    revoked identities. *)
Variables (env : Env) (c : Call) (List : option (list Entry)) (Revoked : string -> bool) (peeks : recEnc -> bool).

Abbreviation node := (en_ULID env).
Abbreviation ClassOf := (class_of (en_contracts env)).

(** [CommandRetired]. *)
Definition CommandRetired (s : Store) (r : StoredRecord) : bool :=
  match Parse (e_Topic (sr_rec r)) with
  | Err _ => false
  | Ok p =>
      if negb (IsCommand (ClassOf (Contract p))) then false
      else match StandaloneGet s with
      | Err _ => true
      | Ok None => false
      | Ok (Some st) => (sr_Offset r <? CommandsBefore st)%N
      end
  end.

Definition attributionOf (e : recEnc) : Attribution :=
  mkAttribution (e_WrittenBy e) (e_ActorID e) (e_ActorLabel e) (e_ActorKind e) (e_ActorClient e) (e_ActorEmail e) (e_ActorClasses e)
    (e_ActorGroups e) (e_ActorCredential e) "".

(** [NoteForwarded]. *)
Definition NoteForwarded (rec : recEnc) (child : string) (e : Engine) : Engine :=
  if negb (CommandWantsProgress (e_Payload rec)) then e
  else match Parse (e_Topic rec) with
  | Err _ => e
  | Ok p => writeProgress env c p (e_Payload rec) (attributionOf rec) "forwarded" ("handed to child node " +:+ child) e
  end.

(** [ForwardRefusal]: why a command may not be handed to a child any more. *)
Definition ForwardRefusal (rec : recEnc) (e : Engine) : option string :=
  if (e_Door rec != doorClient) && (e_Door rec != doorHuman) then None
  else match Parse (e_Topic rec) with
  | Err _ => None
  | Ok p =>
      if AuthorizedAtExecutor (Contract p) then None
      else
        let lost := Some ("not forwarded: its sender no longer holds a grant for " +:+ Contract p +:+ " " +:+ Path p) in
        let judged actor := if Authorize topic_root (scope_of env e) actor ActCmd (e_Topic rec) then None else lost in
        match actorForAttested env (attributionOf rec) true with
        | Some actor => judged actor
        | None =>
            if e_Door rec == doorClient
            then match en_Get env (e_WrittenBy rec) with
                 | Some entry => judged entry
                 | None => if Revoked (e_WrittenBy rec)
                           then Some ("not forwarded: its sender " +:+ e_WrittenBy rec +:+ " was revoked after sending it") else None
                 end
            else lost
        end
  end.

Definition ackRevoked : Z := 403.
Definition ackDropped : Z := 410.

(** [QueuedAnswer]: the ack that answers a queued command, if somebody waits on it. *)
Definition QueuedAnswer (rec : recEnc) (code : Z) (message : string) : option Rec :=
  match Parse (e_Topic rec) with
  | Err _ => None
  | Ok p =>
      let id := correlationID (e_Payload rec) in
      if id == "" then None
      else
        let a := ackAttribution env (attributionOf rec) in
        Some (mkRec false (ackTopicFor p) (json_outcome (plain_outcome id code message)) (c_ts c) (tn_WrittenBy a) 0 (tn_ActorID a) (tn_ActorLabel a)
                (tn_ActorKind a) [] "" "" [] "" "" "" "" false)
  end.

(** [answerQueued]. *)
Definition answerQueued (f : Faults) (rec : recEnc) (code : Z) (message : string) (here : answeredHere) (e : Engine) : Engine * answeredHere :=
  match QueuedAnswer rec code message with
  | None => (e, here)
  | Some ack =>
      let '(here, fresh) := first (correlationID (e_Payload rec)) here in
      if negb fresh then (e, here)
      else match Parse (r_Topic ack) with
      | Err _ => (e, here)
      | Ok p =>
          let a := mkAttribution (r_WrittenBy ack) (r_ActorID ack) (r_ActorLabel ack) (r_ActorKind ack) "" "" [] [] "" "" in
          (fst (persistAttributed env c f ClassAck p (r_Topic ack) (r_Payload ack) a e), here)
      end
  end.

Definition RefuseForwarding (f : Faults) (rec : recEnc) (message : string) (here : answeredHere) (e : Engine) : Engine * answeredHere :=
  answerQueued f rec ackRevoked message here e.

(** [QueuedFor]: the commands a delivery cursor holds, and for whom. *)
Definition QueuedFor (cursor : string) (e : Engine) : option ((StoredRecord -> bool) * string) :=
  let now := c_ts c in
  if HasPrefix cursor DownlinkCursorPrefix then
    let child := TrimPrefix cursor DownlinkCursorPrefix in
    match en_Get env child with
    | Some entry =>
        if negb (ReplicatesUp (Some entry)) then None
        else match IndexPathOf (h_index (eg_held e)) (ElementOf entry) with
        | None => None
        | Some mount =>
            Some ((fun r => match Parse (e_Topic (sr_rec r)) with
                            | Ok p => IsCommand (ClassOf (Contract p)) && UnderMount (Path p) mount && CommandStillLive (e_Payload (sr_rec r)) now
                            | Err _ => false
                            end), "child node " +:+ child)
        end
    | None => None
    end
  else match List with
  | None => None
  | Some entries =>
      match base.filter (fun entry => MayUseDoor (Some entry) DoorMQTT && bool_decide (CommandCursor entry = cursor)) entries with
      | [] => None
      | entry :: _ =>
          Some ((fun r => negb (CommandRetired (eg_store e) r) && OwedCommand (e_Topic (sr_rec r)) (e_Payload (sr_rec r)) (ULID entry) now),
                "machine " +:+ ULID entry)
      end
  end.

(** The loop of [DropQueuedFor]: a page at a time to the head; [fs] is what goes wrong
    with each answer. *)
Fixpoint drop_records (fs : nat -> Faults) (i : nat) (message : string) (recs : list StoredRecord) (here : answeredHere) (e : Engine)
    : Engine * answeredHere :=
  match recs with
  | [] => (e, here)
  | r :: recs => let '(e, here) := answerQueued (fs i) (sr_rec r) ackDropped message here e in drop_records fs (S i) message recs here e
  end.

Fixpoint drop_loop (fuel : nat) (fs : nat -> Faults) (queued : StoredRecord -> bool) (message : string) (from next : N) (dropped : nat)
    (here : answeredHere) (e : Engine) : Engine * answeredHere * nat :=
  match fuel with
  | O => (e, here, dropped)
  | S fuel =>
      if (next <=? from)%N then (e, here, dropped)
      else match ReadRecords peeks (eg_store e) "commands" from 500 (Some queued) with
      | Err _ => (e, here, dropped)
      | Ok (recs, nxt) =>
          let '(e, here) := drop_records fs dropped message recs here e in
          let dropped := (dropped + length recs)%nat in
          if (nxt <=? from)%N then (e, here, dropped) else drop_loop fuel fs queued message nxt next dropped here e
      end
  end.

(** [DropQueuedFor]: [None] when [child] is no child node; otherwise the function to call
    after the retirement, on the node as it is then. *)
Definition DropQueuedFor (child : string) (e0 : Engine) : option ((nat -> Faults) -> answeredHere -> Engine -> Engine * answeredHere * nat) :=
  match en_Get env child with
  | None => None
  | Some entry =>
      if negb (ReplicatesUp (Some entry)) then None
      else
        let cursor := DownlinkCursorPrefix +:+ child in
        match QueuedFor cursor e0 with
        | None => None
        | Some (queued, _) =>
            let from := CursorGet (eg_store e0) cursor "commands" in
            Some (fun fs here e =>
              let from := N.max from (LWM (eg_store e) "commands") in
              let next := NextOffset (eg_store e) "commands" in
              drop_loop (S (N.to_nat (next - from))) fs queued
                ("dropped: child node " +:+ child +:+ " was retired before it received the command") from next 0 here e)
        end
  end.

End env.
End queued.
