(* ===== verification/Pruner.v ===== *)
(** * The retention pruner

    [internal/retention/pruner.go] with the policy of [internal/config]: one pass over a
    stream decides how far to prune, asks who is in the way, prunes past consumers that
    have been silent too long and leaves a marker for them, answers the commands it takes
    from under a delivery cursor, and restates the entities such a consumer had not read.

    The pass runs beside everything else the node does. [others] is what happens to the
    store between two of its steps, arbitrary here and constrained in the theorems.
    Times and durations are in milliseconds. The pass over single signals,
    [pruneSignals], is [PruneSignals] with a marker that remembers whom it told; it is not
    modelled, and neither are metrics and the timer. *)

From S2P Require Export Queued StoreOps TopicFilter.

Open Scope string_scope.
Open Scope list_scope.
Open Scope go_scope.

(** ** The policy ([internal/config]) *)

Record SignalRetention := mkSignalRetention { sg_Topics : list string; sg_SignalIDs : list string; sg_MaxAge : Z }.

Record StreamRetention := mkStreamRetention {
  rt_MaxAge : Z;
  rt_MaxBytes : N;
  rt_IgnoreCursorsAfter : Z;
  rt_KeepForever : bool;
  rt_Signals : list SignalRetention;
}.

(** The block of a configuration; [Interval] in milliseconds. *)
Record Retention := mkRetention { rn_Interval : option Z; rn_Streams : gmap string StreamRetention }.

Definition hours (n : Z) : Z := (n * 3600000)%Z.

Definition defaultRetentionInterval : Z := 300000.

Definition defaultStreamMaxAge : list (string * Z) :=
  [("metrics", hours 336); ("entities", hours 8760); ("commands", hours 2160); ("audit", hours 8760);
   ("alarms", hours 8760); ("annotations", hours 8760); ("logs", hours 336)].

Definition EffectiveInterval (r : Retention) : Z := default defaultRetentionInterval (rn_Interval r).

Definition no_retention : StreamRetention := mkStreamRetention 0 0 0 false [].

Definition EffectiveStream (r : Retention) (stream : string) : StreamRetention :=
  let s := default no_retention (rn_Streams r !! stream) in
  if negb (rt_KeepForever s) && (rt_MaxAge s <=? 0)%Z
  then match list_find (fun x => fst x = stream) defaultStreamMaxAge with
       | Some (_, (_, d)) => mkStreamRetention d (rt_MaxBytes s) (rt_IgnoreCursorsAfter s) (rt_KeepForever s) (rt_Signals s)
       | None => s
       end
  else s.

Definition signal_matches (r : SignalRetention) (signalID topic : string) : bool :=
  bool_decide (signalID ∈ sg_SignalIDs r) || existsb (fun f => MatchFilter f topic) (sg_Topics r).

Fixpoint first_window (rules : list SignalRetention) (signalID topic : string) : option Z :=
  match rules with
  | [] => None
  | r :: rules => if signal_matches r signalID topic then Some (sg_MaxAge r) else first_window rules signalID topic
  end.

Definition SignalMaxAge (s : StreamRetention) (signalID topic : string) : option Z := first_window (rt_Signals s) signalID topic.

(** *** What a configuration may say *)

Inductive ConfigErr :=
  | NegativeInterval
  | UnknownStreamName (name : string)
  | NegativeMaxAge (name : string)
  | KeepForeverWithMaxAge (name : string)
  | NegativeIgnoreCursors (name : string)
  | SignalsNotMetrics (name : string)
  | KeepForeverWithSignals (name : string)
  | RuleSelectsNothing (name : string) (i : nat)
  | RuleFilterInvalid (name : string) (i : nat)
  | RuleEmptyID (name : string) (i : nat)
  | RuleNoAge (name : string) (i : nat)
  | RuleTooLong (name : string) (i : nat)
  | CommandsTooShort.

Definition minCommandsMaxAge : Z := hours (7 * 24).

Definition knownStreams : list string := ["metrics"; "entities"; "commands"; "audit"; "alarms"; "annotations"; "logs"].

Fixpoint validate_rules (name : string) (streamAge : Z) (i : nat) (rules : list SignalRetention) : result ConfigErr () :=
  match rules with
  | [] => Ok ()
  | rule :: rules =>
      if bool_decide (sg_Topics rule = []) && bool_decide (sg_SignalIDs rule = []) then Err (RuleSelectsNothing name i)
      else if negb (forallb ValidFilter (sg_Topics rule)) then Err (RuleFilterInvalid name i)
      else if bool_decide ("" ∈ sg_SignalIDs rule) then Err (RuleEmptyID name i)
      else if (sg_MaxAge rule <=? 0)%Z then Err (RuleNoAge name i)
      else if (0 <? streamAge)%Z && (streamAge <=? sg_MaxAge rule)%Z then Err (RuleTooLong name i)
      else validate_rules name streamAge (S i) rules
  end.

Definition validateSignalRules (name : string) (s eff : StreamRetention) : result ConfigErr () :=
  match rt_Signals s with
  | [] => Ok ()
  | rules =>
      if name != "metrics" then Err (SignalsNotMetrics name)
      else if rt_KeepForever s then Err (KeepForeverWithSignals name)
      else validate_rules name (rt_MaxAge eff) 0 rules
  end.

Definition validate_stream (r : Retention) (name : string) (s : StreamRetention) : result ConfigErr () :=
  if negb (bool_decide (name ∈ knownStreams)) then Err (UnknownStreamName name)
  else if (rt_MaxAge s <? 0)%Z then Err (NegativeMaxAge name)
  else if rt_KeepForever s && (0 <? rt_MaxAge s)%Z then Err (KeepForeverWithMaxAge name)
  else if (rt_IgnoreCursorsAfter s <? 0)%Z then Err (NegativeIgnoreCursors name)
  else validateSignalRules name s (EffectiveStream r name).

(** The streams in an order of their own, as a range over a map has: which error comes
    first is open, whether there is one is not. *)
Fixpoint validate_streams (r : Retention) (streams : list (string * StreamRetention)) : result ConfigErr () :=
  match streams with
  | [] => Ok ()
  | (name, s) :: streams => let! _ := validate_stream r name s in validate_streams r streams
  end.

Definition validate_retention (r : Retention) : result ConfigErr () :=
  if match rn_Interval r with Some i => (i <? 0)%Z | None => false end then Err NegativeInterval
  else
    let! _ := validate_streams r (map_to_list (rn_Streams r)) in
    if (rt_MaxAge (EffectiveStream r "commands") <? minCommandsMaxAge)%Z then Err CommandsTooShort else Ok ().

(** ** What a pass gathers *)

Definition retentionStreams : list string := ["metrics"; "entities"; "commands"; "audit"; "alarms"; "annotations"; "logs"].

Record overriddenCursor := mkOverridden { oc_name : string; oc_pos : N; oc_staleFor : Z }.

Record gapPayload := mkGapPayload {
  gp_Stream : string;
  gp_FromOffset : N;
  gp_ToOffset : N;
  gp_FirstTS : Z;
  gp_LastTS : Z;
  gp_OverriddenCursors : list string;
}.

Record queuedDrop := mkDrop { qd_offset : N; qd_cursorPos : N; qd_who : string; qd_answer : Rec }.

(** The encoding of a gap marker. *)
Class PrunerCodec := { json_gap : gapPayload -> string }.

Section pruner.
Context `{Codec} `{CommandCodec} `{StateCodec} `{LedgerCodec} `{DoorCodec} `{PrunerCodec}.

Section env.
Variables (env : Env) (c : Call) (List : option (list Entry)) (peeks : recEnc -> bool).
Variables (cfg : Retention) (others : nat -> Store -> Store) (scanCap : N) (now : Z) (fmark fprune : Faults).

Abbreviation node := (en_ULID env).

(** [cursorFloor]: how far the cursors let a prune go, which one is in the way, and the
    stale ones. A cursor without a time gets one. *)
Definition lower (acc : N * string) (ci : CursorInfo) : N * string :=
  if (ci_Position ci <? fst acc)%N then (ci_Position ci, ci_Name ci) else acc.

Definition mark_seen (stream : string) (s : Store) (ci : CursorInfo) : Store :=
  if ci_LastAdvanceMS ci == 0%N then CursorMarkSeen fmark (ci_Name ci) stream (Z.to_N now) s else s.

Definition cursorFloor (stream : string) (next : N) (window : Z) (s : Store) : Store * (N * string) * list overriddenCursor :=
  let '(protecting, stale) := ProtectedCursors s stream now window in
  (foldl (mark_seen stream) s protecting, foldl lower (next, "") protecting,
   (fun ci => mkOverridden (ci_Name ci) (ci_Position ci) (now - Z.of_N (ci_LastAdvanceMS ci))) <$> stale).

(** [droppedCommands]: the live commands a delivery cursor holds below [upTo], each with
    its answer, once. *)
Definition droppedScanBatch : N := 4096.

Definition drop_step (upTo cursorPos : N) (who message : string) (acc : list queuedDrop * gset N) (r : StoredRecord) : list queuedDrop * gset N :=
  let '(out, seen) := acc in
  if (upTo <=? sr_Offset r)%N || bool_decide (sr_Offset r ∈ seen) then (out, seen)
  else match QueuedAnswer env c (sr_rec r) 410 message with
  | Some answer => (out ++ [mkDrop (sr_Offset r) cursorPos who answer], {[ sr_Offset r ]} ∪ seen)
  | None => (out, seen)
  end.

Fixpoint drop_pages (fuel : nat) (s : Store) (stream : string) (queued : StoredRecord -> bool) (who message : string) (upTo cursorPos from : N)
    (acc : list queuedDrop * gset N) : list queuedDrop * gset N :=
  match fuel with
  | O => acc
  | S fuel =>
      if (upTo <=? from)%N then acc
      else match ReadRecordsBounded peeks never s stream from 500 (N.min (upTo - from) droppedScanBatch) 0 None (Some queued) with
      | Err _ => acc
      | Ok (recs, next) =>
          let acc := foldl (drop_step upTo cursorPos who message) acc recs in
          if (next <=? from)%N then acc else drop_pages fuel s stream queued who message upTo cursorPos next acc
      end
  end.

Definition drop_cursor (stream : string) (upTo : N) (e : Engine) (acc : list queuedDrop * gset N) (oc : overriddenCursor)
    : list queuedDrop * gset N :=
  match QueuedFor env c List (oc_name oc) e with
  | None => acc
  | Some (queued, who) =>
      drop_pages (S (N.to_nat (upTo - oc_pos oc))) (eg_store e) stream queued who
        ("dropped: retention pruned it before " +:+ who +:+ " received it") upTo (oc_pos oc) (oc_pos oc) acc
  end.

Definition droppedCommands (stream : string) (overridden : list overriddenCursor) (upTo : N) (e : Engine) : list queuedDrop :=
  if stream != "commands" then [] else fst (foldl (drop_cursor stream upTo e) ([], ∅) overridden).

(** ** One pass over a stream *)

Definition gap_topic (stream : string) : string := Prefix topic_root +:+ "_StreamGap/" +:+ node +:+ "/" +:+ stream.

Definition gap_record (stream : string) (g : gapPayload) : Rec :=
  mkRec false (gap_topic stream) (json_gap g) now "" 0 "" "" "" [] "" "" [] "" "" "" "" false.

(** The candidates a prune of [span] passes. *)
Definition passed_by (span_to : N) (candidates : list overriddenCursor) : list overriddenCursor :=
  base.filter (fun oc => oc_pos oc <= span_to)%N candidates.

Definition min_pos (eff : list overriddenCursor) : N :=
  foldl (fun m oc => if (m =? 0)%N || (oc_pos oc <? m)%N then oc_pos oc else m) 0%N eff.

(** The plan of [pruneStream], on the span the store settled on: one marker, the answers
    to the commands it drops, and the entities to restate. *)
Definition prune_plan (stream : string) (candidates : list overriddenCursor) (drops : list queuedDrop) (span : PruneSpan) : PruneOutcome :=
  match passed_by (ps_To span) candidates with
  | [] => no_outcome
  | eff =>
      let gap := mkGapPayload stream (ps_From span) (ps_To span) (ps_FirstTS span) (ps_LastTS span) (oc_name <$> eff) in
      let answered := base.filter (fun d => qd_offset d <= ps_To span /\ qd_cursorPos d <= ps_To span)%N drops in
      mkPruneOutcome (gap_record stream gap :: (qd_answer <$> answered))
        (if stream == "entities" then Some (min_pos eff, ps_To span + 1)%N else None)
  end.

(** What a pass did: nothing to do, a failure, or the cursors it passed and whether the
    scan stopped at its cap. *)
Inductive Pass := PassNothing | PassFailed | PassPruned (removed : N) (applied : list overriddenCursor) (capped : bool).

(** [pruneStream] up to its commit. *)
Definition pruneCommit (stream : string) (e : Engine) : Engine * Pass :=
  let pol := EffectiveStream cfg stream in
  if (rt_MaxAge pol <=? 0)%Z && (rt_MaxBytes pol == 0%N) then (e, PassNothing)
  else
    let sl := eg_store e in
    let lwm := LWM sl stream in
    let next := NextOffset sl stream in
    let '(s1, (clamp, blocking), stale) := cursorFloor stream next (rt_IgnoreCursorsAfter pol) (others 0 sl) in
    let s2 := others 1 s1 in
    let s3 := others 2 s2 in
    let '(scan, clamped, capped) := PolicyPruneScan s2 (db s3) stream lwm next now
                                      (mkPolicy (rt_MaxAge pol) (rt_MaxBytes pol) (StreamBytes sl stream) clamp scanCap) in
    let newLWM := sc_upTo scan in
    if (newLWM <=? lwm)%N then (set_store s3 e, PassNothing)
    else
      let candidates := base.filter (fun oc => oc_pos oc < newLWM)%N stale in
      let s4 := others 3 s3 in
      let drops := droppedCommands stream candidates newLWM (set_store s4 e) in
      let seen := others 4 s4 in
      match PruneScanned fprune (db seen) (oc_name <$> candidates) (prune_plan stream candidates drops) scan (others 5 seen) with
      | (s, Err _) => (set_store s e, PassFailed)
      | (s, Ok removed) =>
          if removed == 0%N then (set_store s e, PassNothing)
          else (set_store s e, PassPruned removed (passed_by (LWM s stream - 1) candidates) capped)
      end.

(** ** Restating entities *)

(** The current state in key order, from past [after] on; [after] is the raw key a page
    token holds. *)
Definition kv_item (x : Key * Val) : option (string * kvEnc) :=
  match parts (fst x), suffix (fst x), snd x with
  | [t; _; _; _], None, VKV e => if t == "k" then Some (Keys.encode (fst x), e) else None
  | _, _, _ => None
  end.

Definition kv_items (d : DB) (after : string) : list (string * kvEnc) :=
  base.filter (fun x => after = "" \/ ~ String.le (fst x) after)
    (merge_sort (fun x y => String.le (fst x) (fst y)) (omap kv_item (map_to_list d))).

(** [KVScanPage] over the whole tree: a page, and the token of the next one, empty when
    there is none. *)
Definition KVScanPage (d : DB) (after : string) (limit : nat) : list (string * kvEnc) * string :=
  let items := kv_items d after in
  let page := take limit items in
  (page, if (limit <? length items)%nat then default "" (fst <$> last page) else "").

Definition refreshPage : nat := 32.

(** The entries of a page: how many failed. [IngestRefresh] skips an entry that changed. *)
Fixpoint refresh_entries (from to : N) (entries : list (string * kvEnc)) (i : nat) (failed : nat) (e : Engine) : Engine * nat * nat :=
  match entries with
  | [] => (e, i, failed)
  | (_, kv) :: entries =>
      if (k_Offset kv <? from)%N || (to <=? k_Offset kv)%N then refresh_entries from to entries i failed e
      else match Parse (k_Topic kv) with
      | Err _ => refresh_entries from to entries i failed e
      | Ok p =>
          if negb (NeedsStateRefresh (class_of (en_contracts env) (Contract p))) then refresh_entries from to entries i failed e
          else match IngestRefresh env c (k_Topic kv) (k_Payload kv) (k_Offset kv) (set_store (others i (eg_store e)) e) with
          | (e, Err _) => refresh_entries from to entries (S i) (S failed) e
          | (e, Ok _) => refresh_entries from to entries (S i) failed e
          end
      end
  end.

(** [refreshEntities]: whether every append succeeded, [None] when the fuel ran out. *)
Fixpoint refresh_loop (fuel : nat) (from to : N) (after : string) (i failed : nat) (e : Engine) : Engine * option bool :=
  match fuel with
  | O => (e, None)
  | S fuel =>
      let '(entries, next) := KVScanPage (db (eg_store e)) after refreshPage in
      let '(e, i, failed) := refresh_entries from to entries i failed e in
      if next == "" then (e, Some (failed =? 0)%nat) else refresh_loop fuel from to next i failed e
  end.

Definition refreshEntities (fuel : nat) (from to : N) (e : Engine) : Engine * option bool := refresh_loop fuel from to "" 0 0 e.

(** [completePendingRefresh]. *)
Definition completePendingRefresh (fuel : nat) (fclear : Faults) (e : Engine) : Engine * option bool :=
  match refreshPending (db (eg_store e)) "entities" with
  | None => (e, Some true)
  | Some (from, to) =>
      match refreshEntities fuel from to e with
      | (e, Some true) => let '(s, _) := ClearRefreshPending fclear "entities" (eg_store e) in (set_store s e, Some true)
      | r => r
      end
  end.

(** [pruneStream]: whether another pass would prune further. *)
Definition pruneStream (fuel : nat) (fclear : Faults) (stream : string) (e : Engine) : Engine * bool :=
  match pruneCommit stream e with
  | (e, PassPruned _ applied capped) =>
      (if (stream == "entities") && (0 <? length applied)%nat then fst (completePendingRefresh fuel fclear e) else e, capped)
  | (e, _) => (e, false)
  end.

(** ** What other nodes left here *)

Definition strandedHere (topic : string) : bool :=
  match Parse topic with
  | Ok p => IsNodePrivate (Contract p) && (NodeID p != node)
  | Err _ => false
  end.

(** [evictForeignPrivateState]: each stream resumes where the last sweep stopped; one that
    failed starts over. *)
Fixpoint evict_streams (fs : string -> Faults) (maxScan : N) (streams : list string) (evictFrom : gmap string N) (s : Store) : Store * gmap string N :=
  match streams with
  | [] => (s, evictFrom)
  | stream :: streams =>
      let '(s, resume) :=
        match EvictRecords (fs stream) s (db s) stream (default 0%N (evictFrom !! stream)) maxScan strandedHere s with
        | (s, Err _) => (s, 0%N)
        | (s, Ok st) => (s, if ev_Done st then 0%N else ev_Resume st)
        end in
      evict_streams fs maxScan streams (<[stream := resume]> evictFrom) s
  end.

Definition evictForeignPrivateState (fkv : Faults) (fs : string -> Faults) (maxScan : N) (evictFrom : gmap string N) (s : Store) : Store * gmap string N :=
  let '(s, _) := EvictKV fkv (db s) strandedHere s in
  evict_streams fs maxScan NodePrivateStreams evictFrom s.

(** [compactDefinitions]. *)
Definition compactDefinitions (f : Faults) (s : Store) : Store := fst (Compact f s (db s) (db s) "definitions" s).

End env.
End pruner.
