(* ===== verification/PrunerSpec.v ===== *)
(** * The retention pruner: theorems

    A consumer that retention passes is one that was silent for longer than the policy's
    window, and it is told: the prune that passes it leaves a marker in the stream that
    names it ([no_silent_loss]). The commands it takes from under a delivery cursor are
    answered in the same batch ([dropped_are_answered]). A valid policy bounds every stream
    that is not kept forever ([retention_policy_sound]), and one that is kept forever can
    still be pruned by its size ([keep_forever_spec]). The entities a passed consumer had
    not read are in [PrunerRefresh]. *)

From S2P Require Export Pruner IngestSpec.
From S2P Require Import DoorsRun.

Open Scope string_scope.
Open Scope list_scope.
Open Scope go_scope.

(** ** The policy *)

Lemma validate_rules_ok name age i rules : validate_rules name age i rules = Ok () ->
  Forall (fun r => (0 < sg_MaxAge r)%Z /\ ((0 < age)%Z -> (sg_MaxAge r < age)%Z)) rules.
Proof.
  revert i. induction rules as [|r rules IH]; intros i; cbn [validate_rules]; [constructor|]. repeat (case_match; try done). intros Hok. constructor; [|by eapply IH].
  split; [lia|]. intros Hage. match goal with Hx : _ && _ = false |- _ => apply andb_false_iff in Hx as [?|?]; lia end.
Qed.

Lemma validate_streams_ok r l : validate_streams r l = Ok () -> Forall (fun x => validate_stream r (fst x) (snd x) = Ok ()) l.
Proof.
  induction l as [|[name s] l IH]; [constructor|]. cbn [validate_streams]. destruct (validate_stream r name s) as [[]|] eqn:E; [|done]. intros Hok. constructor; [done|by apply IH].
Qed.

Lemma validate_retention_stream r name s : validate_retention r = Ok () -> rn_Streams r !! name = Some s -> validate_stream r name s = Ok ().
Proof.
  unfold validate_retention. destruct (match rn_Interval r with Some _ => _ | None => _ end); [done|]. destruct (validate_streams _ _) as [[]|] eqn:E; [|done]. intros _ Hs.
  apply validate_streams_ok in E. rewrite Forall_forall in E. apply elem_of_map_to_list in Hs. apply (E _ Hs).
Qed.

Lemma EffectiveStream_signals r stream : rt_Signals (EffectiveStream r stream) = rt_Signals (default no_retention (rn_Streams r !! stream)).
Proof. unfold EffectiveStream. destruct (_ && _); [|done]. by destruct (list_find _ _) as [[? [? ?]]|]. Qed.

Lemma EffectiveStream_forever r stream : rt_KeepForever (EffectiveStream r stream) = rt_KeepForever (default no_retention (rn_Streams r !! stream)).
Proof. unfold EffectiveStream. destruct (_ && _); [|done]. by destruct (list_find _ _) as [[? [? ?]]|]. Qed.

Lemma first_window_in rules sid topic w : first_window rules sid topic = Some w -> exists rule, rule ∈ rules /\ sg_MaxAge rule = w.
Proof.
  induction rules as [|rule rules IH]; cbn [first_window]; [done|]. destruct (signal_matches rule sid topic); [intros [= <-]; exists rule; split; [by left|done]|].
  intros (r & Hr & Hw)%IH. exists r. split; [by right|done].
Qed.

(** A stream that is kept forever has no age bound. *)
Lemma forever_no_age r stream : validate_retention r = Ok () -> rt_KeepForever (EffectiveStream r stream) = true -> (rt_MaxAge (EffectiveStream r stream) <= 0)%Z.
Proof.
  intros Hv Hk. pose proof Hk as Hk'. rewrite EffectiveStream_forever in Hk'. unfold EffectiveStream in *. destruct (rn_Streams r !! stream) as [s|] eqn:Es; cbn [default] in *; [|done].
  change (Datatypes.id s) with s in *. rewrite Hk'. cbn [negb andb]. apply validate_retention_stream with (1 := Hv) in Es. unfold validate_stream in Es. rewrite Hk' in Es.
  destruct (negb _); [done|]. destruct (_ <? 0)%Z; [done|]. cbn [andb] in Es. destruct (Z.ltb_spec 0 (rt_MaxAge s)); [done|lia].
Qed.

(** Commands cannot be kept forever: validation asks for an age bound of seven days. *)
Lemma commands_not_forever r : rt_KeepForever (EffectiveStream r "commands") = true -> validate_retention r <> Ok ().
Proof.
  intros Hk Hv. pose proof (forever_no_age _ _ Hv Hk) as Hz. unfold validate_retention in Hv. destruct (match rn_Interval r with Some _ => _ | None => _ end); [done|].
  destruct (validate_streams _ _) as [[]|]; [|done]. unfold minCommandsMaxAge, hours in Hv. destruct (Z.ltb_spec (rt_MaxAge (EffectiveStream r "commands")) (7 * 24 * 3600000)); [done|lia].
Qed.

Lemma signal_window_ok r stream sid topic w : validate_retention r = Ok () -> SignalMaxAge (EffectiveStream r stream) sid topic = Some w ->
  (0 < w)%Z /\ (w < rt_MaxAge (EffectiveStream r stream))%Z.
Proof.
  intros Hv (rule & Hin & <-)%first_window_in. rewrite EffectiveStream_signals in Hin. destruct (rn_Streams r !! stream) as [s|] eqn:Es; [|by apply not_elem_of_nil in Hin].
  cbn [from_option] in Hin. change (Datatypes.id s) with s in Hin. pose proof (validate_retention_stream _ _ _ Hv Es) as Hok. unfold validate_stream, validateSignalRules in Hok.
  destruct (rt_Signals s) as [|rule0 rules] eqn:Er; [by apply not_elem_of_nil in Hin|]. destruct (negb _); [done|]. destruct (_ <? 0)%Z; [done|].
  destruct (_ && _); [done|]. destruct (_ <? 0)%Z; [done|]. case_bool_decide as Hm; cbn [negb] in Hok; [|done]. destruct (rt_KeepForever s) eqn:Hk; [done|].
  apply validate_rules_ok in Hok. rewrite Forall_forall in Hok. destruct (Hok _ Hin) as [Hp Hlt]. split; [done|]. apply Hlt. clear -Es Hm Hk. subst. unfold EffectiveStream. rewrite Es.
  cbn [from_option]. change (Datatypes.id s) with s. rewrite Hk. cbn [negb andb]. destruct (Z.leb_spec (rt_MaxAge s) 0); [done|lia].
Qed.



(** ** What runs beside the pruner *)

Section beside.
Context `{Codec}.

(** A cursor stands at an offset, and offsets start at one. *)
Definition placed (s : Store) : Prop := forall name st pos, db s !! cursorKey name st = Some (VU64 pos) -> (0 < pos)%N.

(** Others append, and move cursors forward; only the pruner removes records. *)
Record Beside (s s' : Store) : Prop := {
  bs_inv : Inv s -> Inv s';
  bs_later : later s s';
  bs_kept : forall st, LWM s' st = LWM s st /\ at_ (holes s') st = at_ (holes s) st;
  bs_cursors : forall name st pos, db s !! cursorKey name st = Some (VU64 pos) ->
    exists pos', db s' !! cursorKey name st = Some (VU64 pos') /\ (pos <= pos')%N;
  bs_placed : placed s -> placed s';
}.

#[global] Instance Beside_preorder : PreOrder Beside.
Proof.
  split.
  - intros s. split; [done|reflexivity|done| |done]. intros name st pos Hp. exists pos. split; [done|lia].
  - intros s1 s2 s3 [A1 A2 A3 A4 A5] [B1 B2 B3 B4 B5]. split; [auto|by etrans| | |auto].
    + intros st. destruct (A3 st), (B3 st). split; congruence.
    + intros name st pos Hp. destruct (A4 _ _ _ Hp) as (p1 & H1 & Hle1). destruct (B4 _ _ _ H1) as (p2 & H2 & Hle2). exists p2. split; [done|lia].
Qed.

Lemma beside_record s s' st o e : Beside s s' -> Inv s -> st ∈ streams -> record_at (db s) st o = Some e -> record_at (db s') st o = Some e.
Proof.
  intros Hb HI Hst He. destruct (bs_kept _ _ Hb st) as [Hl Hh]. destruct (bs_later _ _ Hb st) as (_ & _ & _ & Hk & _). rewrite Hk; [done|done|].
  unfold record_at in He. destruct (db s !! streamKey st o) as [v|] eqn:Hv; [|done].
  apply (si_range _ _ _ _ _ (inv_stream s HI st Hst)) in Hv as [[? ?] _]. rewrite Hl. lia.
Qed.

Lemma mark_seen_beside f name stream ts s : Beside s (CursorMarkSeen f name stream ts s)
  /\ forall n st, db (CursorMarkSeen f name stream ts s) !! cursorKey n st = db s !! cursorKey n st.
Proof.
  assert (Hcur : forall n st, db (CursorMarkSeen f name stream ts s) !! cursorKey n st = db s !! cursorKey n st).
  { intros n st. unfold CursorMarkSeen. destruct (_ != _); [done|]. destruct (apply_fails f); [done|]. store_simpl. by rewrite lookup_insert_ne. }
  split; [|exact Hcur]. pose proof (CursorMarkSeen_only f name stream ts s) as Hc. split.
  - by apply cursor_only_inv.
  - destruct Hc as (d & E & Hd). rewrite E. apply later_frame; [done..|]. intros k Hk. store_simpl. rewrite Hd; [done|]. by apply (tags_disjoint ["s"] cursor_tags).
  - destruct Hc as (d & E & _). by rewrite E.
  - intros n st pos Hp. exists pos. rewrite Hcur. split; [done|lia].
  - intros Hp n st pos Hn. rewrite Hcur in Hn. by eapply Hp.
Qed.

End beside.

(** ** One pass *)

Section pass.
Context `{Codec} `{CommandCodec} `{StateCodec} `{LedgerCodec} `{DoorCodec} `{PrunerCodec}.
Variables (env : Env) (c : Call) (List : option (list Entry)) (peeks : recEnc -> bool).
Variables (cfg : Retention) (others : nat -> Store -> Store) (scanCap : N) (now : Z) (fmark fprune : Faults).
Context (Hothers : forall i s, Beside s (others i s)).

Lemma marks_beside stream l s : Beside s (foldl (mark_seen now fmark stream) s l).
Proof.
  revert s. induction l as [|ci l IH]; intros s; [reflexivity|]. cbn [foldl]. etrans; [|apply IH]. unfold mark_seen.
  destruct (_ == _); [apply mark_seen_beside|reflexivity].
Qed.

(** A cursor of the stream is stale, or the floor is at most where it stands. *)
Lemma cursorFloor_spec stream next window s s1 clamp b stale : cursorFloor now fmark stream next window s = (s1, (clamp, b), stale) ->
  Beside s s1 /\ (clamp <= next)%N
  /\ (forall name pos, db s !! cursorKey name stream = Some (VU64 pos) ->
        let ci := mkCursorInfo name stream pos (readU64 (db s) (ctKey name stream) 0) in
        if is_stale now window ci then exists oc, oc ∈ stale /\ oc_name oc = name /\ oc_pos oc = pos else (clamp <= pos)%N).
Proof.
  unfold cursorFloor, ProtectedCursors. set (of_stream := filter _ (CursorSnapshot (db s))). set (protecting := filter _ of_stream).
  set (stales := filter _ of_stream). intros [= <- Hl <-].
  pose proof (marks_beside stream protecting s) as Hb.
  assert (Hlow : forall l acc, (fst (foldl lower acc l) <= fst acc)%N /\ forall ci, ci ∈ l -> (fst (foldl lower acc l) <= ci_Position ci)%N).
  { clear. induction l as [|ci l IH]; intros acc; cbn [foldl]; [split; [lia|set_solver]|]. destruct (IH (lower acc ci)) as [H1 H2].
    assert (Hacc : (fst (lower acc ci) <= fst acc)%N /\ (fst (lower acc ci) <= ci_Position ci)%N).
    { unfold lower. destruct (N.ltb_spec (ci_Position ci) (fst acc)); cbn; lia. }
    split; [lia|]. intros x [-> | Hx]%elem_of_cons; [lia|auto]. }
  destruct (Hlow protecting (next, "")) as [Hn Hp]. rewrite Hl in Hn, Hp. cbn [fst] in Hn, Hp. split_and!; [exact Hb|exact Hn|].
  intros name pos Hk. cbv zeta. set (ci := mkCursorInfo _ _ _ _). assert (Hin : ci ∈ of_stream).
  { apply list_elem_of_filter. split; [done|]. by apply elem_of_CursorSnapshot. }
  destruct (is_stale now window ci) eqn:Es.
  - exists (mkOverridden name pos (now - Z.of_N (ci_LastAdvanceMS ci))). split; [|done]. apply list_elem_of_fmap. exists ci. split; [done|].
    by apply list_elem_of_filter.
  - apply (Hp ci). by apply list_elem_of_filter.
Qed.

Lemma policy_walk_clamp stream p cutoff recs acc : (pa_target (policy_walk stream p cutoff recs acc) <= N.max (pa_target acc) (po_clamp p))%N.
Proof.
  revert acc. induction recs as [|[off e] recs IH]; intros acc; cbn [policy_walk]; [lia|]. destruct (_ && _); [cbn; lia|].
  destruct (_ && _); [cbn; lia|]. destruct (N.leb_spec (po_clamp p) off); [cbn; lia|]. etrans; [apply IH|]. cbn [pa_target]. lia.
Qed.

Lemma policy_walk_head stream p cutoff recs acc hi : Forall (fun x => fst x < hi)%N recs ->
  (pa_target (policy_walk stream p cutoff recs acc) <= N.max (pa_target acc) hi)%N.
Proof.
  intros Hr. revert acc. induction Hr as [|[off e] recs Ho _ IH]; intros acc; cbn [policy_walk]; [lia|]. cbn [fst] in Ho. destruct (_ && _); [cbn; lia|].
  destruct (_ && _); [cbn; lia|]. destruct (N.leb_spec (po_clamp p) off); [cbn; lia|]. etrans; [apply IH|]. cbn [pa_target]. lia.
Qed.

Lemma min_pos_least eff : (forall oc, oc ∈ eff -> (0 < oc_pos oc)%N) -> forall oc, oc ∈ eff -> (0 < min_pos eff <= oc_pos oc)%N.
Proof.
  unfold min_pos. assert (Hg : forall l m, (forall oc, oc ∈ l -> (0 < oc_pos oc)%N) ->
    let r := foldl (fun m oc => if (m =? 0)%N || (oc_pos oc <? m)%N then oc_pos oc else m) m l in
    ((0 < m)%N -> (0 < r <= m)%N) /\ forall oc, oc ∈ l -> (0 < r <= oc_pos oc)%N).
  { induction l as [|oc l IH]; intros m Hpos; cbn [foldl]; [split; [lia|set_solver]|]. assert (Hoc : (0 < oc_pos oc)%N) by (apply Hpos; left).
    destruct (IH (if (m =? 0)%N || (oc_pos oc <? m)%N then oc_pos oc else m)) as [G1 G2]; [intros x Hx; apply Hpos; by right|].
    cbv zeta in G1, G2 |- *. set (m' := if _ || _ then _ else m) in *.
    assert (Hm' : (0 < m' <= oc_pos oc)%N /\ ((0 < m)%N -> (m' <= m)%N)).
    { unfold m'. destruct (N.eqb_spec m 0), (N.ltb_spec (oc_pos oc) m); cbn [orb]; lia. }
    destruct Hm' as [Ha Hb]. specialize (G1 ltac:(lia)). split; [intros Hm; specialize (Hb Hm); lia|].
    intros x [-> | Hx]%elem_of_cons; [lia|auto]. }
  intros Hpos oc Hoc. by apply (Hg eff 0%N Hpos).
Qed.

Lemma prune_plan_ok stream candidates drops : (forall oc, oc ∈ candidates -> (0 < oc_pos oc)%N) -> plan_ok (prune_plan env now stream candidates drops).
Proof.
  intros Hpos span _. unfold prune_plan. destruct (passed_by (ps_To span) candidates) as [|oc eff] eqn:E; [done|].
  cbn [po_Refresh]. destruct (stream == "entities"); [|done]. cbn [refresh_ok].
  assert (Hin : forall x, x ∈ oc :: eff -> x ∈ candidates /\ (oc_pos x <= ps_To span)%N).
  { intros x Hx. rewrite <- E in Hx. by apply list_elem_of_filter in Hx as [? ?]. }
  destruct (min_pos_least (oc :: eff)) with (oc := oc) as [_ Hm]; [intros x Hx; by apply Hpos, Hin|left|].
  destruct (Hin oc) as [_ Hle]; [left|]. lia.
Qed.

(** The store a pass reads the queued commands from. *)
Definition reading_store (stream : string) (e : Engine) : Store :=
  others 3 (others 2 (others 1 (fst (fst (cursorFloor now fmark stream (NextOffset (eg_store e) stream) (rt_IgnoreCursorsAfter (EffectiveStream cfg stream))
    (others 0 (eg_store e))))))).

(** What a pass that pruned did: the steps it took, and the store it left. *)
Record Pruned (stream : string) (e e' : Engine) (stale candidates : list overriddenCursor) (drops : list queuedDrop) (s4 seen s : Store) (stats : pruneStats)
    (upTo newLWM clamp : N) : Prop := {
  pd_floor : exists s1 b, cursorFloor now fmark stream (NextOffset (eg_store e) stream) (rt_IgnoreCursorsAfter (EffectiveStream cfg stream)) (others 0 (eg_store e))
               = (s1, (clamp, b), stale) /\ Beside s1 s4;
  pd_candidates : candidates = base.filter (fun oc => oc_pos oc < newLWM)%N stale;
  pd_drops : drops = droppedCommands env c List peeks stream candidates newLWM (set_store s4 e);
  pd_seen : Beside s4 seen;
  pd_commit : Beside seen s;
  pd_upTo : upTo = cursor_floor (db seen) stream (fun name => bool_decide (name ∈ oc_name <$> candidates)) newLWM;
  pd_bounds : (LWM (eg_store e) stream < upTo <= newLWM)%N /\ (newLWM <= N.max (LWM (eg_store e) stream) clamp)%N /\ (upTo <= NextOffset s stream)%N;
  pd_lwm : LWM s stream = LWM (eg_store e) stream;
  pd_store : let out := prune_plan env now stream candidates drops (prune_span (LWM s stream) upTo stats) in
             eg_store e' = put_records stream (po_GapRecords out) (pruned stream (LWM s stream) upTo stats (po_Refresh out) s);
  pd_stats : stats_ok (db s) stream (LWM s stream) upTo stats;
  pd_inv : Inv s /\ Inv (eg_store e');
  pd_placed : forall oc, oc ∈ candidates -> (0 < oc_pos oc)%N;
  pd_head : (newLWM <= NextOffset (eg_store e) stream)%N;
  pd_reading : s4 = reading_store stream e;
}.

Lemma pruneCommit_pruned stream e e' removed applied capped : stream ∈ streams -> Inv (eg_store e) -> placed (eg_store e) ->
  pruneCommit env c List peeks cfg others scanCap now fmark fprune stream e = (e', PassPruned removed applied capped) ->
  exists stale candidates drops s4 seen s stats upTo newLWM clamp, Pruned stream e e' stale candidates drops s4 seen s stats upTo newLWM clamp
    /\ applied = passed_by (upTo - 1) candidates.
Proof.
  intros Hst HI Hpl. unfold pruneCommit. destruct (_ && _); [done|]. set (sl := eg_store e) in *.
  destruct (cursorFloor _ _ _ _ _ _) as [[s1 [clamp b]] stale] eqn:Ef. pose proof (cursorFloor_spec _ _ _ _ _ _ _ _ Ef) as (Hb1 & _ & _).
  set (s2 := others 1 s1). set (s3 := others 2 s2). set (p := mkPolicy _ _ _ _ _).
  destruct (PolicyPruneScan s2 (db s3) stream (LWM sl stream) (NextOffset sl stream) now p) as [[scan clamped] cap] eqn:Es.
  destruct (N.leb_spec (sc_upTo scan) (LWM sl stream)) as [|Hnew]; [done|]. set (newLWM := sc_upTo scan) in *.
  set (candidates := base.filter _ stale). set (s4 := others 3 s3). set (drops := droppedCommands _ _ _ _ _ _ _ _). set (seen := others 4 s4).
  set (s := others 5 seen). destruct (PruneScanned _ _ _ _ _ _) as [s' [n|err]] eqn:E; [|done]. case_bool_decide; [done|]. intros [= <- -> <- ->].
  assert (Bl1 : Beside sl s1) by (etrans; [apply Hothers|exact Hb1]). assert (B12 : Beside s1 s2) by apply Hothers. assert (B23 : Beside s2 s3) by apply Hothers.
  assert (B34 : Beside s3 s4) by apply Hothers. assert (B4 : Beside s4 seen) by apply Hothers. assert (B5 : Beside seen s) by apply Hothers.
  assert (Bl2 : Beside sl s2) by by etrans. assert (B3s : Beside s3 s) by (etrans; [exact B34|]; by etrans). assert (Bls : Beside sl s) by (etrans; [exact Bl2|]; by etrans).
  assert (HIs : Inv s) by by apply (bs_inv _ _ Bls).
  assert (Hscan : sc_stream scan = stream /\ sc_from scan = LWM sl stream /\ (newLWM <= N.max (LWM sl stream) clamp)%N
    /\ (newLWM <= NextOffset sl stream)%N).
  { unfold PolicyPruneScan, policyScan in Es. injection Es as <- _ _. split_and!; [done|done|apply (policy_walk_clamp stream p)|].
    etrans; [apply (policy_walk_head stream p _ _ _ (NextOffset sl stream))|cbn [pa_target]; pose proof (bounds_of sl stream HI Hst); lia].
    apply Forall_forall. intros [o x] Hx. apply elem_of_scanStream in Hx. cbn. lia. }
  destruct Hscan as (Hsc & Hfr & Hcl & Hhd). assert (Hv : scan_valid scan s).
  { pose proof (policy_scan_valid sl s2 s3 s stream now p (bs_later _ _ Bl2) (bs_later _ _ B23) (bs_later _ _ B3s) (proj2 (bounds_of sl stream HI Hst))) as Hv.
    by rewrite Es in Hv. }
  assert (Hplaced : forall oc, oc ∈ candidates -> (0 < oc_pos oc)%N).
  { intros oc [_ Hoc]%list_elem_of_filter. unfold cursorFloor, ProtectedCursors in Ef. injection Ef as _ _ <-.
    apply list_elem_of_fmap in Hoc as (ci & -> & (_ & (_ & Hci)%list_elem_of_filter)%list_elem_of_filter). apply elem_of_CursorSnapshot in Hci as [Hci _]. cbn.
    by eapply (bs_placed _ _ (Hothers 0 sl)). }
  pose proof (prune_plan_ok stream candidates drops Hplaced) as Hplan.
  assert (Hss : sc_stream scan ∈ streams) by by rewrite Hsc.
  destruct (PruneScanned_outcome _ _ _ _ _ _ HIs Hss Hv Hplan _ _ E) as [[-> ->]|(stats & Hstats & -> & Hu & Hs' & HI')]; [done|]. rewrite Hsc in *.
  exists stale, candidates, drops, s4, seen, s, stats. eexists _, newLWM, clamp. split.
  - split; [exists s1, b; split; [exact Ef|etrans; [exact B12|]; by etrans]|done|done|done|done|reflexivity| |exact (proj1 (bs_kept _ _ Bls stream))|exact Hs'|exact Hstats|done|exact Hplaced|exact Hhd|unfold reading_store; fold sl; by rewrite Ef].
    destruct (bs_kept _ _ Bls stream) as [Hl _]. rewrite Hl in Hu. destruct Hu as [Hu1 Hu2]. split_and!; [exact Hu1|apply (cursor_floor_le (db seen) stream)|done|exact Hu2].
  - f_equal. rewrite Hs', put_records_lwm, pruned_lwm, decide_True by done. done.
Qed.

(** The refresh a prune owes, joined with the one that was owed. *)
Lemma pruned_owes stream lo upTo stats from to s : exists a b,
  refreshPending (db (pruned stream lo upTo stats (Some (from, to)) s)) stream = Some (a, b) /\ (a <= from)%N /\ (to <= b)%N.
Proof.
  unfold refreshPending at 1. rewrite pruned_note by tag_in. unfold note_batch. rewrite !batch_at_app.
  rewrite (batch_at_untouched _ (journal_ops _ _ _)) by (apply journal_writes; tag_in).
  rewrite (batch_at_untouched _ [BSet (bytesKey _) _]) by (apply writes_set; tag_in).
  unfold refresh_batch. destruct (refreshPending (db s) stream) as [[a b]|]; unfold batch_at; simpl; rewrite decide_True by done.
  - exists (N.min from a), (N.max to b). split; [done|lia].
  - exists from, to. split; [done|lia].
Qed.

(** A cursor of the stream that the prune passed is one of the candidates. *)
Lemma passed_candidate stream e e' stale candidates drops s4 seen s stats upTo newLWM clamp name pos pos' :
  Pruned stream e e' stale candidates drops s4 seen s stats upTo newLWM clamp ->
  db (others 0 (eg_store e)) !! cursorKey name stream = Some (VU64 pos) ->
  db (eg_store e') !! cursorKey name stream = Some (VU64 pos') -> (pos' < upTo)%N ->
  (exists oc, oc ∈ passed_by (upTo - 1) candidates /\ oc_name oc = name /\ oc_pos oc = pos) /\ (pos <= pos')%N
  /\ is_stale now (rt_IgnoreCursorsAfter (EffectiveStream cfg stream)) (mkCursorInfo name stream pos (readU64 (db (others 0 (eg_store e))) (ctKey name stream) 0)) = true.
Proof.
  intros [(s1 & b & Hf & B14) Hc _ B4 B5 Hu Hbounds Hl Hstore _ _ _ _ _] Hpos Hpos' Hlt. cbv zeta in Hstore.
  pose proof (cursorFloor_spec _ _ _ _ _ _ _ _ Hf) as (B01 & _ & Hcase). specialize (Hcase name pos Hpos). cbv zeta in Hcase.
  assert (Bs : Beside (others 0 (eg_store e)) s) by (etrans; [exact B01|]; etrans; [exact B14|]; by etrans).
  destruct (bs_cursors _ _ Bs name stream pos Hpos) as (p2 & Hp2 & Hle).
  assert (Hsame : db (eg_store e') !! cursorKey name stream = db s !! cursorKey name stream).
  { rewrite Hstore, put_records_other by tag_in. by apply pruned_other; tag_in. }
  rewrite Hsame, Hp2 in Hpos'. injection Hpos' as ->. set (ci := mkCursorInfo _ _ _ _) in *. destruct (is_stale _ _ ci) eqn:Es.
  - split_and!; [|done|done]. destruct Hcase as (oc & Hin & Hn & Hp). exists oc. split; [|done]. apply list_elem_of_filter. split; [lia|].
    rewrite Hc. apply list_elem_of_filter. split; [lia|done].
  - exfalso. lia.
Qed.


(** ** The commands a prune takes away *)

Section drops.
Variables (s : Store) (upTo : N).
Context (HI : Inv s).

Abbreviation told_text who := ("dropped: retention pruned it before " +:+ who +:+ " received it").

(** What was gathered: one answer for every offset seen, each to the record there. *)
Record Gathered (acc : list queuedDrop * gset N) : Prop := {
  ga_seen : forall o, o ∈ snd acc -> exists d, d ∈ fst acc /\ qd_offset d = o;
  ga_answer : forall d, d ∈ fst acc -> (qd_cursorPos d <= qd_offset d)%N
    /\ exists rec who, record_at (db s) "commands" (qd_offset d) = Some rec /\ QueuedAnswer env c rec 410 (told_text who) = Some (qd_answer d);
}.

Definition grown (acc acc' : list queuedDrop * gset N) : Prop := snd acc ⊆ snd acc'.

Lemma grown_refl acc : grown acc acc.
Proof. unfold grown. reflexivity. Qed.

Lemma answered_any rec code m m' : is_Some (QueuedAnswer env c rec code m) -> is_Some (QueuedAnswer env c rec code m').
Proof. unfold QueuedAnswer. destruct (Parse _); [|done]. by case_bool_decide. Qed.

Lemma drop_step_spec cursorPos who acc o rec : Gathered acc -> record_at (db s) "commands" o = Some rec -> (cursorPos <= o)%N ->
  let acc' := drop_step env c upTo cursorPos who (told_text who) acc (storedRecord o rec) in
  Gathered acc' /\ grown acc acc' /\ ((o < upTo)%N -> is_Some (QueuedAnswer env c rec 410 (told_text who)) -> o ∈ snd acc').
Proof.
  intros [G1 G2] Hrec Hc. destruct acc as [out seen]. unfold drop_step. cbn [fst snd sr_Offset sr_rec storedRecord] in *. cbv zeta.
  destruct (N.leb_spec upTo o) as [Hu|Hu]; cbn [orb]; [split_and!; [by split|apply grown_refl|lia]|]. case_bool_decide as Hs; [split_and!; [by split|apply grown_refl|done]|].
  destruct (QueuedAnswer _ _ rec _ _) as [answer|] eqn:Ea; [|split_and!; [by split|apply grown_refl|by intros _ []]].
  split_and!; [|unfold grown; cbn; set_solver|set_solver]. split; cbn [fst snd].
  - intros x [-> %elem_of_singleton | Hx]%elem_of_union; [eexists; split; [apply elem_of_app; right; by left|done]|].
    destruct (G1 x Hx) as (d & Hd & Ho). exists d. split; [apply elem_of_app; by left|done].
  - intros d [Hd|Hd]%elem_of_app; [by apply G2|]. apply list_elem_of_singleton in Hd. subst d. cbn. split; [done|]. by exists rec, who.
Qed.

Lemma drop_steps_spec cursorPos who recs acc : Gathered acc ->
  Forall (fun x => record_at (db s) "commands" (fst x) = Some (snd x) /\ (cursorPos <= fst x)%N) recs ->
  let acc' := foldl (drop_step env c upTo cursorPos who (told_text who)) acc (Readers.stored <$> recs) in
  Gathered acc' /\ grown acc acc'
  /\ forall o rec, (o, rec) ∈ recs -> (o < upTo)%N -> is_Some (QueuedAnswer env c rec 410 (told_text who)) -> o ∈ snd acc'.
Proof.
  revert acc. induction recs as [|[o rec] recs IH]; intros acc Hg Hall; cbn [fmap list_fmap foldl]; [split_and!; [done|apply grown_refl|set_solver]|].
  apply Forall_cons in Hall as [[Hr Hc] Hall]. destruct (drop_step_spec cursorPos who acc o rec Hg Hr Hc) as (Hg1 & Hs1 & Hin1).
  destruct (IH _ Hg1 Hall) as (Hg2 & Hs2 & Hin2). change (Readers.stored (o, rec)) with (storedRecord o rec). split_and!; [exact Hg2|unfold grown in *; set_solver|].
  intros x y [[= -> ->] | Hx]%elem_of_cons Hu Ha; [apply Hs2; by apply Hin1|by eapply Hin2].
Qed.

Lemma drop_pages_spec fuel queued who cursorPos from acc : Gathered acc -> (cursorPos <= from)%N -> (upTo <= NextOffset s "commands")%N -> (from <= NextOffset s "commands")%N ->
  (N.to_nat (upTo - from) < fuel)%nat ->
  let acc' := drop_pages env c peeks fuel s "commands" queued who (told_text who) upTo cursorPos from acc in
  Gathered acc' /\ grown acc acc'
  /\ forall o rec, record_at (db s) "commands" o = Some rec -> (from <= o < upTo)%N -> queued (storedRecord o rec) = true ->
       is_Some (QueuedAnswer env c rec 410 (told_text who)) -> o ∈ snd acc'.
Proof.
  assert (Hst : "commands" ∈ streams) by tag_in. revert from acc. induction fuel as [|fuel IH]; intros from acc Hg Hc Hu Hfrom Hf; [lia|]. cbn [drop_pages].
  destruct (N.leb_spec upTo from) as [|Hlt]; [split_and!; [done|apply grown_refl|lia]|]. set (maxScan := N.min _ _).
  pose proof (bounded_reader peeks s "commands" 500 maxScan 0 None (Some queued) HI Hst ltac:(done) ltac:(lia) never) as Hpr.
  destruct (bounded_total peeks s "commands" 500 maxScan 0 None (Some queued) HI Hst from) as [[recs next] E]. rewrite E.
  destruct (page_exact from recs next Hfrom E) as [Hb ->]. set (page := base.filter _ _). destruct (drop_steps_spec cursorPos who page acc Hg) as (Hg1 & Hs1 & Hin1).
  { apply Forall_forall. intros [o rec] [_ Hx]%list_elem_of_filter. apply elem_of_scanStream in Hx as [Hx He]. cbn. split; [done|lia]. }
  assert (Hpage : forall o rec, record_at (db s) "commands" o = Some rec -> (from <= o < next)%N -> queued (storedRecord o rec) = true -> (o, rec) ∈ page).
  { intros o rec Hr Ho Hq. apply list_elem_of_filter. split; [done|]. apply elem_of_scanStream. split; [lia|done]. }
  destruct (N.leb_spec next from) as [Hn|Hn].
  - split_and!; [done|done|]. intros o rec Hr Ho Hq Ha. exfalso. destruct (page_moves from _ next ltac:(lia) E) as [|Hnone]; [lia|].
    assert (Hin : (o, rec) ∈ base.filter (wants_rec (Some queued)) (scanStream (db s) "commands" from (NextOffset s "commands"))).
    { apply list_elem_of_filter. split; [done|]. apply elem_of_scanStream. split; [lia|done]. }
    rewrite Hnone in Hin. by apply not_elem_of_nil in Hin.
  - destruct (IH next _ Hg1 ltac:(lia) Hu ltac:(lia) ltac:(lia)) as (Hg2 & Hs2 & Hin2). split_and!; [done|unfold grown in *; set_solver|].
    intros o rec Hr Ho Hq Ha. destruct (decide (o < next)%N) as [Hlo|Hhi]; [|apply Hin2 with rec; [done|lia|done|done]].
    apply Hs2, (Hin1 o rec); [apply Hpage; [done|lia|done]|lia|done].
Qed.

Lemma drop_cursor_spec e oc acc : eg_store e = s -> Gathered acc -> (oc_pos oc < upTo <= NextOffset s "commands")%N ->
  let acc' := drop_cursor env c List peeks "commands" upTo e acc oc in
  Gathered acc' /\ grown acc acc'
  /\ forall queued who o rec, QueuedFor env c List (oc_name oc) e = Some (queued, who) -> record_at (db s) "commands" o = Some rec ->
       (oc_pos oc <= o < upTo)%N -> queued (storedRecord o rec) = true -> is_Some (QueuedAnswer env c rec 410 "") -> o ∈ snd acc'.
Proof.
  intros He Hg Hu. unfold drop_cursor. destruct (QueuedFor _ _ _ _ e) as [[queued who]|]; [|split_and!; [done|apply grown_refl|done]]. rewrite He.
  destruct (drop_pages_spec (S (N.to_nat (upTo - oc_pos oc))) queued who (oc_pos oc) (oc_pos oc) acc Hg ltac:(lia) ltac:(lia) ltac:(lia) ltac:(lia)) as (Hg1 & Hs1 & Hin).
  split_and!; [exact Hg1|exact Hs1|]. intros q w o rec [= <- <-] Hr Ho Hq Ha. apply (Hin o rec); try done. by eapply answered_any.
Qed.

Lemma droppedCommands_spec e l : eg_store e = s -> Forall (fun oc => oc_pos oc < upTo <= NextOffset s "commands")%N l ->
  Gathered (droppedCommands env c List peeks "commands" l upTo e, ∅)
  /\ forall oc queued who o rec, oc ∈ l -> QueuedFor env c List (oc_name oc) e = Some (queued, who) -> record_at (db s) "commands" o = Some rec ->
       (oc_pos oc <= o < upTo)%N -> queued (storedRecord o rec) = true -> is_Some (QueuedAnswer env c rec 410 "") ->
       exists d, d ∈ droppedCommands env c List peeks "commands" l upTo e /\ qd_offset d = o.
Proof.
  intros He Hl. unfold droppedCommands. cbn [negb bool_decide]. assert (Hfold : forall acc, Gathered acc ->
    let acc' := foldl (drop_cursor env c List peeks "commands" upTo e) acc l in
    Gathered acc' /\ grown acc acc' /\ forall oc queued who o rec, oc ∈ l -> QueuedFor env c List (oc_name oc) e = Some (queued, who) ->
      record_at (db s) "commands" o = Some rec -> (oc_pos oc <= o < upTo)%N -> queued (storedRecord o rec) = true -> is_Some (QueuedAnswer env c rec 410 "") -> o ∈ snd acc').
  { induction Hl as [|oc l Hoc _ IH]; intros acc Hg; cbn [foldl]; [split_and!; [done|apply grown_refl|set_solver]|].
    destruct (drop_cursor_spec e oc acc He Hg Hoc) as (Hg1 & Hs1 & Hin1). destruct (IH _ Hg1) as (Hg2 & Hs2 & Hin2).
    split_and!; [exact Hg2|unfold grown in *; set_solver|]. intros oc0 queued who o rec [-> | Hx]%elem_of_cons Hq Hr Ho Hk Ha; [apply Hs2; by eapply Hin1|by eapply Hin2]. }
  destruct (Hfold ([], ∅)) as ([G1 G2] & _ & Hin); [split; cbn; set_solver|]. change (negb ("commands" == "commands")) with false. cbv iota. split.
  - split; [cbn; set_solver|exact G2].
  - intros oc queued who o rec Hoc Hq Hr Ho Hk Ha. by eapply G1, Hin.
Qed.

End drops.


(** C20: A command retention takes away is answered. Of the commands a pass removes while a
    delivery cursor it passed (a child node's downlink, or a machine's) still held them,
    every live one that carries a correlation id has a 410 ack, from this node to the
    command's own actor and at the command's own position, in the commands stream: it
    came in the same batch, so there is no crash after which the sender is not told. *)
Theorem dropped_are_answered e e' removed applied capped oc queued who o rec p :
  pruneCommit env c List peeks cfg others scanCap now fmark fprune "commands" e = (e', PassPruned removed applied capped) ->
  Inv (eg_store e) -> placed (eg_store e) -> oc ∈ applied ->
  QueuedFor env c List (oc_name oc) (set_store (reading_store "commands" e) e) = Some (queued, who) ->
  record_at (db (eg_store e)) "commands" o = Some rec -> (oc_pos oc <= o < LWM (eg_store e') "commands")%N ->
  queued (storedRecord o rec) = true -> Parse (e_Topic rec) = Ok p -> correlationID (e_Payload rec) <> "" ->
  exists o' ack who', record_at (db (eg_store e')) "commands" o' = Some ack /\ (LWM (eg_store e') "commands" <= o')%N
    /\ e_Topic ack = ackTopicFor p /\ e_WrittenBy ack = en_ULID env /\ e_ActorID ack = e_ActorID rec
    /\ e_Payload ack = json_outcome (plain_outcome (correlationID (e_Payload rec)) 410 ("dropped: retention pruned it before " +:+ who' +:+ " received it")).
Proof.
  intros E HI Hpl Hoc Hq Hrec Ho Hk Hp Hid. assert (Hst : "commands" ∈ streams) by tag_in.
  destruct (pruneCommit_pruned _ _ _ _ _ _ Hst HI Hpl E) as (stale & candidates & drops & s4 & seen & s & stats & upTo & newLWM & clamp & P & ->).
  pose proof P as [(s1 & b & Hf & B14) Hc Hd B4 B5 Hu (Hb1 & Hb2 & Hb3) Hl Hstore _ _ _ Hhd Hrd]. cbv zeta in Hstore.
  assert (Hlwm : LWM (eg_store e') "commands" = upTo) by (rewrite Hstore, put_records_lwm, pruned_lwm, decide_True by done; done). rewrite Hlwm in *.
  pose proof (cursorFloor_spec _ _ _ _ _ _ _ _ Hf) as (B01 & _ & _). assert (Bl4 : Beside (eg_store e) s4) by (etrans; [apply (Hothers 0)|]; by etrans).
  assert (HI4 : Inv s4) by by apply (bs_inv _ _ Bl4). apply list_elem_of_filter in Hoc as Hoc'. destruct Hoc' as [Hpos Hcand].
  assert (Hall : Forall (fun oc => oc_pos oc < newLWM <= NextOffset s4 "commands")%N candidates).
  { apply Forall_forall. intros x Hx. rewrite Hc in Hx. apply list_elem_of_filter in Hx as [Hx _]. destruct (bs_later _ _ Bl4 "commands") as (_ & _ & Hn & _). lia. }
  destruct (droppedCommands_spec s4 newLWM HI4 (set_store s4 e) candidates eq_refl Hall) as [[_ Hans] Hfound]. rewrite <- Hd in Hans, Hfound.
  rewrite <- Hrd in Hq. destruct (Hfound oc queued who o rec Hcand Hq) as (d & Hdin & Hdo); [by eapply beside_record|lia|done| |].
  { unfold QueuedAnswer. rewrite Hp, bool_decide_false by done. by eexists. }
  destruct (Hans d Hdin) as (Hcur & rec' & who' & Hrec' & Hanswer). rewrite Hdo in Hrec'. pose proof (beside_record _ _ _ _ _ Bl4 HI Hst Hrec) as Hrec4.
  rewrite Hrec4 in Hrec'. injection Hrec' as <-. unfold QueuedAnswer in Hanswer. rewrite Hp, bool_decide_false in Hanswer by done. injection Hanswer as Hanswer.
  unfold prune_plan in Hstore. cbn [ps_To prune_span] in Hstore. destruct (passed_by (upTo - 1) candidates) as [|x eff] eqn:Eeff; [by apply not_elem_of_nil in Hoc|].
  cbn [po_GapRecords po_Refresh] in Hstore. set (answered := base.filter _ drops) in Hstore. set (g := gap_record _ _ _ _) in Hstore. set (sp := pruned _ _ _ _ _ _) in Hstore.
  assert (Hda : d ∈ answered) by (apply list_elem_of_filter; split; [lia|done]). apply list_elem_of_lookup in Hda as [i Hi].
  assert (Hget : (g :: (qd_answer <$> answered)) !! S i = Some (qd_answer d)) by (change ((qd_answer <$> answered) !! i = Some (qd_answer d)); by rewrite list_lookup_fmap, Hi).
  exists (NextOffset sp "commands" + N.of_nat (S i))%N. eexists. exists who'. rewrite Hstore, (put_records_at _ _ _ _ _ Hget), <- Hanswer.
  split_and!; [reflexivity|change (NextOffset sp "commands") with (NextOffset s "commands"); lia|done..].
Qed.

End pass.

(** A stream kept forever is left alone, where its size has no bound. *)
Lemma forever_untouched `{Codec} `{CommandCodec} `{StateCodec} `{LedgerCodec} `{DoorCodec} `{PrunerCodec} env c List peeks cfg others scanCap now fmark fprune stream e :
  validate_retention cfg = Ok () -> rt_KeepForever (EffectiveStream cfg stream) = true -> rt_MaxBytes (EffectiveStream cfg stream) = 0%N ->
  pruneCommit env c List peeks cfg others scanCap now fmark fprune stream e = (e, PassNothing).
Proof. intros Hv Hk Hb. unfold pruneCommit. rewrite (proj2 (Z.leb_le _ _) (forever_no_age _ _ Hv Hk)). by rewrite Hb, bool_decide_true. Qed.

(** ** Examples *)

Section examples.
#[local] Existing Instances demo_codec demo_command_codec demo_ledger_codec demo_state_codec demo_door_codec.

(** A marker lists whom it names. *)
#[local] Instance demo_pruner_codec : PrunerCodec := {| json_gap g := String.concat "," (gp_OverriddenCursors g) |}.

(** Two commands for the machine "m1", and two signals for a reader; both have read the
    first one and were last seen at the beginning. *)
Definition demo_queue : list Rec :=
  [demo_rec "colca/v1/_CmdExec/m1/a" "c1" "" "" false; demo_rec "colca/v1/_CmdExec/m1/b" "c2" "" "" false].
Definition demo_state : list Rec := [demo_rec "colca/v1/_Signal/n1/a" "x" "a" "n1" false; demo_rec "colca/v1/_Signal/n1/b" "y" "b" "n1" false].
Definition demo_silent : Store :=
  fst (commitAcks no_faults 1 [mkAckRequest (CommandCursor demo_operator) "commands" 2 false "" 0; mkAckRequest "reader" "entities" 2 false "" 0]
    (put_records "entities" demo_state (put_records "commands" demo_queue demo_store))).
Definition demo_node : Engine := set_store demo_silent demo_engine.

(** Ten milliseconds are kept, and a cursor that is silent for a hundred is ignored. *)
Definition demo_retention : Retention :=
  mkRetention None {[ "commands" := mkStreamRetention 10 0 100 false []; "entities" := mkStreamRetention 10 0 100 false [] ]}.
Definition demo_pass (stream : string) : Engine * Pass :=
  pruneCommit demo_env (demo_call 0 no_faults) (Some [demo_operator]) demo_peeks demo_retention (fun _ s => s) 100 10000 no_faults no_faults stream demo_node.

(** Decided by going through the entries. *)
Definition placed_entry (x : Key * Val) : bool :=
  match parts (fst x), Keys.suffix (fst x), snd x with ["c"; _; _], None, VU64 pos => (0 <? pos)%N | _, _, _ => true end.

Lemma placed_entries s : forallb placed_entry (map_to_list (db s)) = true -> placed s.
Proof. intros Hall name st pos Hk. rewrite forallb_forall in Hall. apply elem_of_map_to_list, list_elem_of_In, Hall in Hk. by apply N.ltb_lt in Hk. Qed.

Lemma demo_silent_inv : Inv demo_silent.
Proof. apply commitAcks_inv, put_records_inv; [tag_in|]. apply put_records_inv; [tag_in|exact demo_store_inv]. Qed.

Lemma demo_silent_placed : placed demo_silent.
Proof. apply placed_entries. vm_compute. reflexivity. Qed.

Definition demo_passed (stream : string) : list overriddenCursor := match snd (demo_pass stream) with PassPruned _ applied _ => applied | _ => [] end.


(** What the machine's cursor holds when the pass reads the commands. *)
Definition demo_held : option ((StoredRecord -> bool) * string) :=
  QueuedFor demo_env (demo_call 0 no_faults) (Some [demo_operator]) (CommandCursor demo_operator)
    (set_store (reading_store demo_retention (fun _ s => s) 10000 no_faults "commands" demo_node) demo_node).
Definition demo_queued (r : StoredRecord) : bool := match demo_held with Some (queued, _) => queued r | None => false end.

Lemma demo_held_eq : demo_held = Some (demo_queued, "machine m1").
Proof. reflexivity. Qed.

Lemma dropped_are_answered_witness : oc_name <$> demo_passed "commands" = [CommandCursor demo_operator]
  /\ exists o ack, record_at (db (eg_store (fst (demo_pass "commands")))) "commands" o = Some ack /\ e_Topic ack = "colca/v1/_Ack/m1/b" /\ e_Payload ack = "c2".
Proof.
  split; [vm_compute; reflexivity|].
  destruct (dropped_are_answered demo_env (demo_call 0 no_faults) (Some [demo_operator]) demo_peeks demo_retention (fun _ s => s) 100 10000 no_faults no_faults
    (fun _ s => reflexivity s) demo_node (fst (demo_pass "commands")) 2 (demo_passed "commands") false (mkOverridden (CommandCursor demo_operator) 2 9999)
    demo_queued "machine m1" 2
    (default (encode_rec 0 (demo_rec "" "" "" "" false)) (record_at (db demo_silent) "commands" 2)) (mkParsed "colca" "v1" "_CmdExec" "m1" "b")) as (o & ack & who & Hr & _ & Ht & _ & _ & Hp).
  - replace (PassPruned 2 (demo_passed "commands") false) with (snd (demo_pass "commands")) by (vm_compute; reflexivity). apply surjective_pairing.
  - exact demo_silent_inv.
  - exact demo_silent_placed.
  - assert (E : demo_passed "commands" = [mkOverridden (CommandCursor demo_operator) 2 9999]) by (vm_compute; reflexivity). rewrite E. by left.
  - exact demo_held_eq.
  - vm_compute. reflexivity.
  - assert (Hl : LWM (eg_store (fst (demo_pass "commands"))) "commands" = 3%N) by (vm_compute; reflexivity). rewrite Hl. cbn. lia.
  - vm_compute. reflexivity.
  - vm_compute. reflexivity.
  - vm_compute. discriminate.
  - exists o, ack. split_and!; [exact Hr|rewrite Ht; vm_compute; reflexivity|rewrite Hp; vm_compute; reflexivity].
Defined.

(** Logs that are kept forever, in eighty bytes. *)
Definition demo_forever : Retention := mkRetention None {[ "logs" := mkStreamRetention 0 80 0 true [] ]}.
Definition demo_logs : Engine :=
  set_store (put_records "logs" [demo_rec "colca/v1/_Log/n1/a" "x" "" "" false; demo_rec "colca/v1/_Log/n1/b" "y" "" "" false; demo_rec "colca/v1/_Log/n1/c" "z" "" "" false] demo_store) demo_engine.
Definition demo_logs_pass : Engine * Pass :=
  pruneCommit demo_env (demo_call 0 no_faults) None demo_peeks demo_forever (fun _ s => s) 100 10000 no_faults no_faults "logs" demo_logs.

(** C34: What "keep forever" means. A stream kept forever is never touched by a pass, as
    long as it has no bound on its size. But validation accepts such a bound beside it,
    and the pass then prunes by size: here it removes a log record that was to be kept
    forever. *)
Theorem keep_forever_spec :
  (forall env c List peeks cfg others scanCap now fmark fprune stream e,
     validate_retention cfg = Ok () -> rt_KeepForever (EffectiveStream cfg stream) = true -> rt_MaxBytes (EffectiveStream cfg stream) = 0%N ->
     pruneCommit env c List peeks cfg others scanCap now fmark fprune stream e = (e, PassNothing))
  /\ validate_retention demo_forever = Ok () /\ rt_KeepForever (EffectiveStream demo_forever "logs") = true
  /\ snd demo_logs_pass = PassPruned 1 [] false
  /\ record_at (db (eg_store demo_logs)) "logs" 1 <> None /\ record_at (db (eg_store (fst demo_logs_pass))) "logs" 1 = None.
Proof.
  split; [intros; by apply forever_untouched|]. split_and!; [vm_compute; reflexivity..| |vm_compute; reflexivity]. vm_compute. discriminate.
Qed.

End examples.
