(* ===== verification/PrunerRefresh.v ===== *)
(** * The retention pruner: restating entities

    [refreshEntities] walks the current state in key order, a page at a time, while others
    write: every entity whose entry is in the range it was asked for is appended again,
    unless it was retired or superseded meanwhile. When it says it is done, no entity is
    left in the range; when it does not, the range is still owed. *)

From S2P Require Export PrunerSpec.
From S2P Require Import DoorsRun.

Open Scope string_scope.
Open Scope list_scope.
Open Scope go_scope.

Lemma same_bytes k1 k2 : wf_key k1 -> wf_key k2 -> Keys.encode k1 = Keys.encode k2 -> k1 = k2.
Proof. intros Hw1 Hw2 E. apply (f_equal Keys.decode) in E. rewrite !Keys.decode_encode in E by done. congruence. Qed.

Section refresh.
Context `{Codec}.

(** The current state is filed under the place its topic names. *)
Definition kv_named (s : Store) : Prop := forall path node topic kv, kvEntry (db s) path node topic = Some kv ->
  wf_key (kvKey path node topic) /\ exists p, Parse topic = Ok p /\ Path p = path /\ NodeID p = node.

(** What others may do to the current state below [to]: nothing but retire entries, and
    replace them at the head. *)
Record Restated (to : N) (s s' : Store) : Prop := {
  rs_inv : Inv s -> Inv s';
  rs_head : (NextOffset s "entities" <= NextOffset s' "entities")%N;
  rs_old : forall path node topic kv, kvEntry (db s') path node topic = Some kv -> (k_Offset kv < to)%N -> kvEntry (db s) path node topic = Some kv;
  rs_named : kv_named s -> kv_named s';
  rs_owed : refreshPending (db s') "entities" = refreshPending (db s) "entities";
}.

#[global] Instance Restated_preorder to : PreOrder (Restated to).
Proof.
  split.
  - intros s. by split.
  - intros s1 s2 s3 [A1 A2 A3 A4 A5] [B1 B2 B3 B4 B5]. split; [auto|lia| |auto|congruence]. intros path node topic kv Hk Hlt. eapply A3; [|done]. by apply B3.
Qed.

Lemma Restated_frame to s s' : Inv s' -> next s' = next s -> db s' = db s -> Restated to s s'.
Proof. intros HI Hn Hd. split; [done|unfold NextOffset; rewrite Hn; lia|by rewrite Hd|unfold kv_named; by rewrite Hd|by rewrite Hd]. Qed.

(** An append of one record that is projected. *)
Lemma append_one_kv f stream rec s s' first last : Inv s -> r_KVPath rec <> "" -> r_Delete rec = false -> appendLocked f stream [rec] s = (s', Ok (first, last)) ->
  exists l, forall path node topic, kvEntry (db s') path node topic
    = if decide (path = r_KVPath rec /\ node = r_KVNode rec /\ topic = r_Topic rec) then Some (encode_kv (NextOffset s stream) (with_local_only l rec))
      else kvEntry (db s) path node topic.
Proof.
  intros HI Hp Hdel E. unfold appendLocked in E. apply appendAdvancingLocked_eq in E as (ps & _ & lo & _ & _ & _ & _ & ->); [|by apply policies_ok_of_inv|done].
  destruct (decided_one rec lo) as [l El]. exists l. intros path node topic. unfold append_outcome, kvEntry. store_simpl. rewrite lookup_apply_batch.
  cbn [advance_batch]. unfold batch_at at 1. cbn [foldl]. rewrite El. change (put_records stream [with_local_only l rec] (set_policies ps s)) with (put_record stream (set_policies ps s) (with_local_only l rec)).
  rewrite lookup_put, record_ops_kv by tag_in. destruct rec; cbn in *. subst. case_decide as Hc; case_decide as Hc'; [done|naive_solver..|done].
Qed.

Lemma append_owed f stream recs s s' r st : recs <> [] -> Inv s -> appendLocked f stream recs s = (s', r) -> refreshPending (db s') st = refreshPending (db s) st.
Proof.
  intros Hne HI E. unfold appendLocked in E. apply appendAdvancingLocked_eq in E as (ps & _ & Hr); [|by apply policies_ok_of_inv|done].
  destruct r as [[first last]|err]; [|by subst]. destruct Hr as (lo & _ & _ & _ & _ & ->). unfold refreshPending, append_outcome. store_simpl.
  rewrite lookup_apply_batch. cbn [advance_batch]. unfold batch_at. cbn [foldl]. by rewrite put_records_other by tag_in.
Qed.

End refresh.

(** ** Pages of the current state *)

Section pages.
Context `{Codec}.

Abbreviation key_le := (fun x y : string * kvEnc => String.le (fst x) (fst y)).

#[local] Instance key_le_trans : Transitive key_le.
Proof. intros x y z Hxy Hyz. by transitivity (fst y). Qed.

#[local] Instance key_le_total : Total key_le.
Proof. intros x y. apply (total String.le). Qed.

Lemma listed_in_order {A} (R : A -> A -> Prop) (P : A -> Prop) `{!forall x, Decision (P x)} l : StronglySorted R l -> StronglySorted R (base.filter P l).
Proof.
  induction 1 as [|x l _ IH Hall]; [constructor|]. rewrite filter_cons. case_decide; [|done]. constructor; [done|].
  rewrite Forall_forall in *. intros y [_ Hy]%list_elem_of_filter. by apply Hall.
Qed.

Lemma nodup_fmap_filter {A B} (f : A -> B) (P : A -> Prop) `{!forall x, Decision (P x)} l : NoDup (f <$> l) -> NoDup (f <$> base.filter P l).
Proof.
  induction l as [|x l IH]; [done|]. rewrite fmap_cons. intros [Hnin Hl]%NoDup_cons. rewrite filter_cons. case_decide; [|by apply IH]. cbn. constructor; [|by apply IH].
  intros (y & Hy & [_ Hin]%list_elem_of_filter)%list_elem_of_fmap. apply Hnin. rewrite Hy. by apply list_elem_of_fmap_2.
Qed.

Lemma kv_items_sorted d after : StronglySorted key_le (kv_items d after).
Proof. apply listed_in_order, StronglySorted_merge_sort; apply _. Qed.

Lemma kv_item_eq k v x : kv_item (k, v) = Some x <-> exists path node topic, k = kvKey path node topic /\ v = VKV (snd x) /\ fst x = Keys.encode k.
Proof.
  unfold kv_item. cbn [fst snd]. split.
  - destruct k as [ps sfx]. cbn [parts suffix]. destruct ps as [|t [|path [|node [|topic [|]]]]]; try done. destruct sfx; [done|]. destruct v; try done.
    case_bool_decide; [|done]. subst. intros [= <-]. by exists path, node, topic.
  - destruct x as [y e]. intros (path & node & topic & -> & -> & Hy). cbn in Hy. by subst.
Qed.

Lemma elem_kv_items d after x : x ∈ kv_items d after
  <-> (after = "" \/ ~ String.le (fst x) after) /\ exists path node topic, fst x = Keys.encode (kvKey path node topic) /\ kvEntry d path node topic = Some (snd x).
Proof.
  unfold kv_items. rewrite list_elem_of_filter, merge_sort_Permutation, list_elem_of_omap. apply and_iff_compat_l. split.
  - intros ([k v] & Hin%elem_of_map_to_list & (path & node & topic & -> & -> & Hk)%kv_item_eq). exists path, node, topic. split; [done|]. unfold kvEntry. by rewrite Hin.
  - intros (path & node & topic & Hk & He). exists (kvKey path node topic, VKV (snd x)). split; [|apply kv_item_eq; by exists path, node, topic]. apply elem_of_map_to_list.
    unfold kvEntry in He. destruct (d !! _) as [v|]; [|done]. destruct v; try done. by injection He as ->.
Qed.

(** No key is listed twice. *)
Lemma kv_items_nodup s after : kv_named s -> NoDup (fst <$> kv_items (db s) after).
Proof.
  intros Hnm. unfold kv_items. set (l := omap kv_item (map_to_list (db s))). assert (Hl : NoDup (fst <$> l)).
  { subst l. assert (Hk : forall k v, (k, v) ∈ map_to_list (db s) -> db s !! k = Some v) by (intros k v; apply elem_of_map_to_list).
    pose proof (NoDup_fst_map_to_list (db s)) as Hnd. induction (map_to_list (db s)) as [|[k v] l IH]; [constructor|]. cbn in Hnd. apply NoDup_cons in Hnd as [Hnin Hnd].
    assert (IH' : NoDup (fst <$> omap kv_item l)) by (apply IH; [|done]; intros k' v' Hin; apply Hk; by right). cbn [omap list_omap]. destruct (kv_item (k, v)) as [x|] eqn:Ex; [|done].
    cbn. constructor; [|done]. intros ([y e] & Hy & ([k' v'] & Hin & Ex')%list_elem_of_omap)%list_elem_of_fmap. apply kv_item_eq in Ex as (p1 & n1 & t1 & -> & -> & Ex).
    apply kv_item_eq in Ex' as (p2 & n2 & t2 & -> & -> & Ex'). assert (Hkk : kvKey p1 n1 t1 = kvKey p2 n2 t2); [|rewrite Hkk in Hnin; apply Hnin, (list_elem_of_fmap_2 fst _ _ Hin)].
    apply same_bytes; [apply (Hnm p1 n1 t1 (snd x)); unfold kvEntry; by rewrite (Hk _ _ (list_elem_of_here _ _))|
      apply (Hnm p2 n2 t2 e); unfold kvEntry; by rewrite (Hk _ _ (list_elem_of_further _ _ _ Hin))|congruence]. }
  rewrite <- (merge_sort_Permutation key_le l) in Hl. by apply nodup_fmap_filter.
Qed.

(** A page, and where the next one starts. *)
Lemma KVScanPage_spec s after limit page token : kv_named s -> (0 < limit)%nat -> KVScanPage (db s) after limit = (page, token) ->
  exists rest, kv_items (db s) after = page ++ rest
  /\ (token = "" -> rest = [])
  /\ (token <> "" -> page <> [] /\ (forall x, x ∈ page -> String.le (fst x) token) /\ forall x, x ∈ kv_items (db s) after -> String.le (fst x) token -> x ∈ page).
Proof.
  intros Hnm Hl [= <- <-]. set (items := kv_items (db s) after). exists (drop limit items). split; [by rewrite take_drop|]. destruct (Nat.ltb_spec limit (length items)) as [Hlt|Hge].
  2: { split; [intros _; by apply drop_ge|done]. }
  destruct (last (take limit items)) as [z|] eqn:Ez; cbn.
  2: { apply last_None in Ez. apply (f_equal length) in Ez. rewrite length_take in Ez. cbn in Ez. lia. }
  apply last_Some in Ez as [l' Ez]. assert (Hz : z ∈ take limit items) by (rewrite Ez; set_solver). assert (Hzi : z ∈ items) by (rewrite <- (take_drop limit items); set_solver).
  pose proof (kv_items_sorted (db s) after) as Hs. fold items in Hs. rewrite <- (take_drop limit items) in Hs.
  split; [|intros _; split_and!; [rewrite Ez; by destruct l'| |]].
  - intros Hnil. apply elem_kv_items in Hzi as (_ & path & node & topic & Hk & _). rewrite Hnil in Hk. done.
  - intros x. apply StronglySorted_app_1_l in Hs. rewrite Ez in Hs |- *. intros [Hx | ->%list_elem_of_singleton]%elem_of_app; [|done].
    by apply (StronglySorted_app_1_elem_of _ _ _ _ _ Hs Hx), list_elem_of_singleton.
  - intros x Hx Hle. destruct (decide (x ∈ take limit items)) as [|Hnx]; [done|exfalso]. assert (Hxr : x ∈ drop limit items) by (rewrite <- (take_drop limit items) in Hx; set_solver).
    pose proof (StronglySorted_app_1_elem_of _ _ _ _ _ Hs Hz Hxr) as Hzx. cbn in Hzx.
    assert (Heq : fst x = fst z) by by apply (anti_symm String.le). pose proof (kv_items_nodup s after Hnm) as Hnd. fold items in Hnd. rewrite <- (take_drop limit items), fmap_app in Hnd.
    apply NoDup_app in Hnd as (_ & Hnd & _). apply (Hnd (fst z)); [by apply list_elem_of_fmap_2|]. rewrite <- Heq. by apply list_elem_of_fmap_2.
Qed.

End pages.

Section loop.
Context `{Codec} `{CommandCodec} `{StateCodec} `{LedgerCodec} `{DoorCodec} `{PrunerCodec}.
Variables (env : Env) (c : Call) (others : nat -> Store -> Store) (from to : N).
Context (Hothers : forall i s, Restated to s (others i s)).

Abbreviation entity p := (NeedsStateRefresh (class_of (en_contracts env) (Contract p)) = true).

(** A refresh: an error, an entry that is gone or superseded, or one append. *)
Lemma IngestRefresh_cases topic payload off e e' r p : Parse topic = Ok p -> entity p -> IngestRefresh env c topic payload off e = (e', r) ->
  (eg_store e' = eg_store e /\ match r with Ok _ => forall kv, kvEntry (db (eg_store e)) (Path p) (NodeID p) topic = Some kv -> k_Offset kv <> off | Err _ => True end)
  \/ exists f rec kv0 s r', kvEntry (db (eg_store e)) (Path p) (NodeID p) topic = Some kv0 /\ r_KVPath rec <> "" /\ r_Delete rec = false
      /\ (r_KVPath rec, r_KVNode rec, r_Topic rec) = (Path p, NodeID p, topic)
      /\ appendLocked f "entities" [rec] (eg_store e) = (s, r') /\ eg_store e' = s /\ match r with Ok _ => exists x, r' = Ok x | Err _ => exists x, r' = Err x end.
Proof.
  intros Hp Hcl. apply bool_decide_eq_true in Hcl. unfold IngestRefresh. rewrite Hp, Hcl.
  destruct (negb _); [intros [= <- <-]; by left|]. destruct (negb _); [intros [= <- <-]; by left|]. case_bool_decide; [intros [= <- <-]; by left|].
  case_bool_decide; [intros [= <- <-]; by left|]. set (rec := mkRec _ _ _ _ _ _ _ _ _ _ _ _ _ _ _ _ _ _). unfold AppendIfKVUnchanged. change (StreamFor ClassEntity) with "entities".
  case_bool_decide as Hpath; [intros [= <- <-]; by left|]. unfold kvOffsets. change (r_KVPath rec) with (Path p) in *. change (r_KVNode rec) with (NodeID p). change (r_Topic rec) with topic.
  destruct (kvEntry (db (eg_store e)) (Path p) (NodeID p) topic) as [kv0|] eqn:Ek; [|by intros [= <- <-]; left].
  case_bool_decide as Hoff; cbn [negb]; [|intros [= <- <-]; left; split; [done|]; by intros kv [= <-]].
  set (rec' := with_origin _ rec). destruct (appendLocked _ _ _ _) as [s [[first last]|err]] eqn:E; intros [= <- <-]; right; eexists _, rec', kv0, s, _; split_and!; try done; try eauto.
  unfold publish. by destruct (en_bus env).
Qed.

(** A refresh without an error leaves an entry that is another one, or stands at the head. *)
Lemma IngestRefresh_restates topic payload off e e' r p : Inv (eg_store e) -> kv_named (eg_store e) -> (to <= NextOffset (eg_store e) "entities")%N ->
  Parse topic = Ok p -> entity p -> IngestRefresh env c topic payload off e = (e', r) ->
  Restated to (eg_store e) (eg_store e')
  /\ match r with
     | Ok _ => forall kv, kvEntry (db (eg_store e')) (Path p) (NodeID p) topic = Some kv -> k_Offset kv <> off \/ (to <= k_Offset kv)%N
     | Err _ => True
     end.
Proof.
  intros HI Hnm Hto Hp Hcl E0. destruct (IngestRefresh_cases _ _ _ _ _ _ _ Hp Hcl E0) as [[-> Hr]|(f & rec & kv0 & s & r' & Ek & Hpath & Hdel & [= Hkp Hkn Hkt] & E & -> & Hr)].
  { split; [reflexivity|]. destruct r; [|done]. intros kv Hk. left. by apply Hr. }
  pose proof E as E2. unfold appendLocked in E2. apply append_grows in E2; [|done..]. destruct r' as [[first last]|err].
  2: { split; [|by destruct r; [destruct Hr|]]. unfold appendLocked in E. apply appendAdvancingLocked_eq in E as (ps & _ & ->); [|by apply policies_ok_of_inv|done].
       apply Restated_frame; [exact (gr_inv _ _ _ E2)|done..]. }
  destruct (append_one_kv _ _ rec _ _ _ _ HI Hpath Hdel E) as [l Hkv]. rewrite Hkp, Hkn, Hkt in Hkv. assert (Howe := append_owed _ _ [rec] _ _ _ "entities" ltac:(discriminate) HI E).
  destruct E2 as (Hg & Hfirst & _). split; [split; [intros _; exact (gr_inv _ _ _ Hg)| | | |exact Howe]|].
  - exact (gr_next _ _ _ Hg "entities").
  - intros path node t kv. rewrite Hkv. case_decide; [|done]. intros [= <-]. cbn. lia.
  - intros _ path node t kv. rewrite Hkv. case_decide as Hc; [|apply Hnm]. intros _. destruct Hc as (-> & -> & ->). by apply (Hnm _ _ _ kv0).
  - destruct r; [|done]. intros kv. rewrite Hkv, decide_True by done. intros [= <-]. right. cbn. lia.
Qed.

(** ** A page of entries *)

(** The entity filed there is not in the range. *)
Definition clean (s : Store) (path node topic : string) : Prop := forall kv p,
  kvEntry (db s) path node topic = Some kv -> Parse topic = Ok p -> entity p -> (k_Offset kv < from)%N \/ (to <= k_Offset kv)%N.

Lemma clean_later s s' path node topic : Restated to s s' -> clean s path node topic -> clean s' path node topic.
Proof.
  intros Hr Hc kv p Hk Hp He. destruct (decide (to <= k_Offset kv)%N) as [|Hlt]; [by right|]. apply (Hc kv p); [|done..].
  apply (rs_old _ _ _ Hr); [done|lia].
Qed.

Record Ready (s : Store) : Prop := { rd_inv : Inv s; rd_named : kv_named s; rd_head : (to <= NextOffset s "entities")%N }.

Lemma ready_later s s' : Restated to s s' -> Ready s -> Ready s'.
Proof. intros Hr [A1 A2 A3]. split; [by apply (rs_inv _ _ _ Hr)|by apply (rs_named _ _ _ Hr)|]. pose proof (rs_head _ _ _ Hr). lia. Qed.

Lemma kv_topic s path node topic kv : Inv s -> kvEntry (db s) path node topic = Some kv -> k_Topic kv = topic.
Proof.
  intros HI. unfold kvEntry. destruct (db s !! kvKey path node topic) as [v|] eqn:Ev; [|done]. destruct (kv_entries _ _ (inv_kv s HI) _ _ _ _ Ev) as (e & -> & Ht & _).
  by intros [= <-].
Qed.

(** The entries of the store a page was read from. *)
Definition filed (s0 : Store) (x : string * kvEnc) : Prop :=
  exists path node topic, fst x = Keys.encode (kvKey path node topic) /\ kvEntry (db s0) path node topic = Some (snd x).

(** One entry in the range, refreshed without an error, leaves it. *)
Lemma refreshed_clean s0 path node topic kv e e' r p : Ready s0 -> Restated to s0 (eg_store e) -> kvEntry (db s0) path node topic = Some kv -> Parse topic = Ok p -> entity p ->
  IngestRefresh env c topic (k_Payload kv) (k_Offset kv) e = (e', Ok r) -> Restated to (eg_store e) (eg_store e') /\ clean (eg_store e') path node topic.
Proof.
  intros [HI Hnm Hto] Hr Hk Hp Hcl E. assert (Hrd : Ready (eg_store e)) by by apply (ready_later s0). destruct Hrd as [HI1 Hnm1 Hto1].
  destruct (IngestRefresh_restates _ _ _ _ _ _ p HI1 Hnm1 Hto1 Hp Hcl E) as [Hr1 Hc]. split; [done|]. destruct (Hnm _ _ _ _ Hk) as (_ & q & Hq & <- & <-).
  rewrite Hp in Hq. injection Hq as <-. intros kv' q Hk' _ _. destruct (decide (to <= k_Offset kv')%N) as [|Hlt]; [by right|exfalso].
  assert (Hsame : kvEntry (db s0) (Path p) (NodeID p) topic = Some kv') by (apply (rs_old to s0 (eg_store e')); [by etrans|done|lia]).
  rewrite Hk in Hsame. injection Hsame as <-. destruct (Hc kv Hk'); [done|lia].
Qed.

Lemma refresh_entries_spec s0 entries i failed e e' i' failed' : Ready s0 -> Forall (filed s0) entries -> Restated to s0 (eg_store e) ->
  refresh_entries env c others from to entries i failed e = (e', i', failed') ->
  Restated to (eg_store e) (eg_store e') /\ failed <= failed'
  /\ (failed' = failed -> forall path node topic kv, kvEntry (db s0) path node topic = Some kv -> (Keys.encode (kvKey path node topic), kv) ∈ entries ->
       clean (eg_store e') path node topic).
Proof.
  intros Hrd Hall. revert i failed e. induction Hall as [|[k kv] entries (path & node & topic & Hkey & Hkv) _ IH]; intros i failed e Hr E; cbn [refresh_entries] in E.
  { injection E as <- <- <-. split_and!; [reflexivity|lia|]. intros _ path node topic kv _ Hin. by apply not_elem_of_nil in Hin. }
  cbn [fst snd] in Hkey, Hkv. subst k. pose proof (rd_inv _ Hrd) as HI. rewrite (kv_topic _ _ _ _ _ HI Hkv) in E.
  destruct (rd_named _ Hrd _ _ _ _ Hkv) as (Hwf & p & Hp & Hpath & Hnode).
  assert (Hskip : forall e1 i1 f1, Restated to (eg_store e) (eg_store e1) -> refresh_entries env c others from to entries i1 f1 e1 = (e', i', failed') ->
    failed <= f1 -> (f1 = failed -> clean (eg_store e1) path node topic) ->
    Restated to (eg_store e) (eg_store e') /\ failed <= failed'
    /\ (failed' = failed -> forall path' node' topic' kv', kvEntry (db s0) path' node' topic' = Some kv' ->
         (Keys.encode (kvKey path' node' topic'), kv') ∈ (Keys.encode (kvKey path node topic), kv) :: entries -> clean (eg_store e') path' node' topic')).
  { intros e1 i1 f1 Hr1 E1 Hf Hcl. destruct (IH i1 f1 e1) as (Hr2 & Hf2 & Hin); [by etrans|done|]. split_and!; [by etrans|lia|].
    intros Hff path' node' topic' kv' Hk' [Heq | Hx]%elem_of_cons; [|apply (Hin ltac:(lia) _ _ _ _ Hk' Hx)].
    destruct (rd_named _ Hrd _ _ _ _ Hk') as (Hwf' & _). assert (Hkk := same_bytes _ _ Hwf' Hwf (f_equal fst Heq)). injection Hkk as -> -> ->.
    apply (clean_later (eg_store e1)); [done|]. apply Hcl. lia. }
  destruct (_ || _) eqn:Hrange.
  { eapply Hskip; [reflexivity|exact E|lia|]. intros _. apply (clean_later s0); [done|]. intros kv' q Hk' _ _. rewrite Hkv in Hk'. injection Hk' as <-.
    apply orb_true_iff in Hrange as [?%N.ltb_lt | ?%N.leb_le]; lia. }
  rewrite Hp in E. destruct (NeedsStateRefresh _) eqn:Hent; cbn [negb] in E.
  2: { eapply Hskip; [reflexivity|exact E|lia|]. intros _ kv' q _ Hq Hq'. rewrite Hp in Hq. injection Hq as <-. congruence. }
  set (e0 := set_store (others i (eg_store e)) e) in E. assert (Hr0 : Restated to (eg_store e) (eg_store e0)) by apply (Hothers i (eg_store e)).
  assert (Hs0 : Restated to s0 (eg_store e0)) by by etrans. destruct (IngestRefresh _ _ _ _ _ e0) as [e1 [r|err]] eqn:Ei.
  - destruct (refreshed_clean s0 path node topic kv e0 e1 r p Hrd Hs0 Hkv Hp Hent Ei) as [Hr1 Hcl]. eapply Hskip; [by etrans|exact E|lia|done].
  - destruct (ready_later _ _ Hs0 Hrd) as [A1 A2 A3]. destruct (IngestRefresh_restates _ _ _ _ _ _ p A1 A2 A3 Hp Hent Ei) as [Hr1 _].
    eapply Hskip; [by etrans|exact E|lia|lia].
Qed.

(** ** The walk *)

Lemma refreshPage_pos : (0 < refreshPage)%nat.
Proof. unfold refreshPage. lia. Qed.

(** Every key up to the token is clean. *)
Definition swept (s : Store) (after : string) : Prop := forall path node topic, String.le (Keys.encode (kvKey path node topic)) after -> clean s path node topic.

Definition restated_all (s : Store) : Prop := forall path node topic, clean s path node topic.

Lemma swept_start s : swept s "".
Proof. intros path node topic. done. Qed.

Lemma filed_page s after limit page token : kv_named s -> (0 < limit)%nat -> KVScanPage (db s) after limit = (page, token) -> Forall (filed s) page.
Proof.
  intros Hnm Hl E. destruct (KVScanPage_spec _ _ _ _ _ Hnm Hl E) as (rest & Hi & _). apply Forall_forall. intros x Hx.
  assert (Hx' : x ∈ kv_items (db s) after) by (rewrite Hi; set_solver). by apply elem_kv_items in Hx' as [_ ?].
Qed.

(** One page leaves everything up to its end clean, unless an append failed. *)
Lemma refresh_page after limit page token i failed e e' i' failed' : Ready (eg_store e) -> (0 < limit)%nat -> KVScanPage (db (eg_store e)) after limit = (page, token) ->
  (failed = 0 -> swept (eg_store e) after) -> refresh_entries env c others from to page i failed e = (e', i', failed') ->
  Restated to (eg_store e) (eg_store e') /\ failed <= failed' /\ (failed' = 0 -> if token == "" then restated_all (eg_store e') else swept (eg_store e') token).
Proof.
  intros Hrd Hl Hpage Hsw E. pose proof (rd_named _ Hrd) as Hnm. destruct (refresh_entries_spec (eg_store e) page i failed e e' i' failed') as (Hr & Hf & Hin);
    [done|by eapply filed_page|reflexivity|done|]. split_and!; [done..|]. intros Hz. assert (Hz0 : failed = 0) by lia. specialize (Hsw Hz0). specialize (Hin ltac:(lia)).
  destruct (KVScanPage_spec _ _ _ _ _ Hnm Hl Hpage) as (rest & Hi & Hdone & Hmore).
  assert (Hcl : forall path node topic, (token = "" \/ String.le (Keys.encode (kvKey path node topic)) token) -> clean (eg_store e') path node topic).
  { intros path node topic Ht kv p Hk Hp Hent. destruct (decide (to <= k_Offset kv)%N) as [|Hlt]; [by right|].
    assert (Hold : kvEntry (db (eg_store e)) path node topic = Some kv) by (apply (rs_old _ _ _ Hr); [done|lia]).
    destruct (decide (String.le (Keys.encode (kvKey path node topic)) after)) as [Hle|Hgt]; [by apply (clean_later _ _ _ _ _ Hr (Hsw _ _ _ Hle) kv p)|].
    assert (Hx : (Keys.encode (kvKey path node topic), kv) ∈ kv_items (db (eg_store e)) after) by (apply elem_kv_items; split; [by right|by exists path, node, topic]).
    apply (Hin path node topic kv Hold) with p; [|done..]. destruct (decide (token = "")) as [Hnil|Hne].
    - rewrite Hi, (Hdone Hnil), app_nil_r in Hx. done.
    - destruct (Hmore Hne) as (_ & _ & Hm). apply Hm; [done|]. by destruct Ht. }
  case_bool_decide as Ht; intros path node topic; [apply Hcl; by left|intros Hle; apply Hcl; by right].
Qed.

Lemma refresh_loop_spec fuel after i failed e e' r : Ready (eg_store e) -> (failed = 0 -> swept (eg_store e) after) ->
  refresh_loop env c others fuel from to after i failed e = (e', r) -> Restated to (eg_store e) (eg_store e') /\ (r = Some true -> restated_all (eg_store e')).
Proof.
  revert after i failed e. induction fuel as [|fuel IH]; intros after i failed e Hrd Hsw; cbn [refresh_loop]; [by intros [= <- <-]|].
  destruct (KVScanPage _ _ _) as [page token] eqn:Ep. destruct (refresh_entries _ _ _ _ _ _ _ _ _) as [[e1 i1] f1] eqn:Ee.
  destruct (refresh_page after refreshPage page token _ _ _ _ _ _ Hrd refreshPage_pos Ep Hsw Ee) as (Hr & _ & Hdone). case_bool_decide as Ht.
  - intros [= <- <-]. split; [done|]. intros [= Hf%Nat.eqb_eq]. by apply Hdone.
  - intros E. destruct (IH _ _ _ _ (ready_later _ _ Hr Hrd) Hdone E) as [Hr2 Hall]. split; [by etrans|done].
Qed.

(** ** The walk ends *)

(** Nothing is filed anew. *)
Definition no_new (s s' : Store) : Prop := forall path node topic, is_Some (kvEntry (db s') path node topic) -> is_Some (kvEntry (db s) path node topic).

#[local] Instance no_new_preorder : PreOrder no_new.
Proof. split; [by intros s path node topic|]. intros s1 s2 s3 A B path node topic Hk. by apply A, B. Qed.

Lemma IngestRefresh_no_new topic payload off e e' r p : Inv (eg_store e) -> Parse topic = Ok p -> entity p -> IngestRefresh env c topic payload off e = (e', r) ->
  no_new (eg_store e) (eg_store e').
Proof.
  intros HI Hp Hcl E0. destruct (IngestRefresh_cases _ _ _ _ _ _ _ Hp Hcl E0) as [[-> _]|(f & rec & kv0 & s & r' & Ek & Hpath & Hdel & [= Hkp Hkn Hkt] & E & -> & _)]; [reflexivity|].
  destruct r' as [[first last]|err].
  - destruct (append_one_kv _ _ rec _ _ _ _ HI Hpath Hdel E) as [l Hkv]. rewrite Hkp, Hkn, Hkt in Hkv. intros path node t. rewrite Hkv. case_decide as Hc; [|done].
    destruct Hc as (-> & -> & ->). by rewrite Ek.
  - unfold appendLocked in E. apply appendAdvancingLocked_eq in E as (ps & _ & ->); [|by apply policies_ok_of_inv|done]. by intros path node t.
Qed.

Context (Hquiet : forall i s, no_new s (others i s)).

Lemma refresh_entries_quiet entries i failed e e' i' failed' : Ready (eg_store e) -> refresh_entries env c others from to entries i failed e = (e', i', failed') ->
  no_new (eg_store e) (eg_store e').
Proof.
  revert i failed e. induction entries as [|[k kv] entries IH]; intros i failed e Hrd E; cbn [refresh_entries] in E; [by injection E as <- <- <-|].
  destruct (_ || _); [by eapply IH|]. destruct (Parse (k_Topic kv)) as [p|] eqn:Hp; [|by eapply IH]. destruct (NeedsStateRefresh _) eqn:Hent; cbn [negb] in E; [|by eapply IH].
  set (e0 := set_store (others i (eg_store e)) e) in E. assert (Hr0 : Restated to (eg_store e) (eg_store e0)) by apply (Hothers i (eg_store e)).
  destruct (ready_later _ _ Hr0 Hrd) as [A1 A2 A3]. assert (Hn0 : no_new (eg_store e) (eg_store e0)) by apply (Hquiet i (eg_store e)).
  destruct (IngestRefresh _ _ _ _ _ e0) as [e1 r] eqn:Ei. destruct (IngestRefresh_restates _ _ _ _ _ _ p A1 A2 A3 Hp Hent Ei) as [Hr1 _].
  pose proof (IngestRefresh_no_new _ _ _ _ _ _ p A1 Hp Hent Ei) as Hn1. trans (eg_store e1); [by trans (eg_store e0)|].
  assert (Hrd1 : Ready (eg_store e1)) by (apply (ready_later (eg_store e)); [by etrans|done]). destruct r; by eapply IH.
Qed.

(** Each page leaves fewer keys ahead. *)
Lemma page_shrinks s s' after limit page token : kv_named s -> kv_named s' -> no_new s s' -> (0 < limit)%nat -> KVScanPage (db s) after limit = (page, token) -> token <> "" ->
  length (kv_items (db s') token) < length (kv_items (db s) after).
Proof.
  intros Hnm Hnm' Hn Hl Hpage Ht. destruct (KVScanPage_spec _ _ _ _ _ Hnm Hl Hpage) as (rest & Hi & _ & Hmore). destruct (Hmore Ht) as (Hne & Hup & _).
  assert (Hlen : length (fst <$> kv_items (db s') token) <= length (fst <$> rest)).
  { apply submseteq_length, NoDup_submseteq; [by apply kv_items_nodup|]. intros y (x & -> & Hx)%list_elem_of_fmap. apply elem_kv_items in Hx as (Hgt & path & node & topic & Hk & Hkv).
    destruct Hgt as [|Hgt]; [done|]. destruct (Hn path node topic) as [kv Hold]; [by rewrite Hkv|]. assert (Hin : (fst x, kv) ∈ kv_items (db s) after).
    - apply elem_kv_items. split; [|by exists path, node, topic]. right. cbn. intros Hle. destruct page as [|z page]; [done|]. assert (Hz : z ∈ kv_items (db s) after) by (rewrite Hi; set_solver).
      assert (Hzt := Hup z (list_elem_of_here _ _)). apply elem_kv_items in Hz as [[-> | Hza] _]; [by rewrite Hk in Hle|]. destruct (total String.le (fst z) after) as [|Haz]; [done|].
      apply Hgt. trans after; [done|]. by trans (fst z).
    - rewrite Hi in Hin. apply elem_of_app in Hin as [Hin|Hin]; [destruct (Hgt (Hup _ Hin))|]. exact (list_elem_of_fmap_2 fst _ _ Hin). }
  rewrite !length_fmap in Hlen. rewrite Hi, length_app. destruct page; [done|]. cbn. lia.
Qed.

Lemma refresh_loop_ends fuel after i failed e : Ready (eg_store e) -> length (kv_items (db (eg_store e)) after) < fuel ->
  snd (refresh_loop env c others fuel from to after i failed e) <> None.
Proof.
  revert after i failed e. induction fuel as [|fuel IH]; intros after i failed e Hrd Hfuel; [lia|]. cbn [refresh_loop].
  destruct (KVScanPage _ _ _) as [page token] eqn:Ep. destruct (refresh_entries _ _ _ _ _ _ _ _ _) as [[e1 i1] f1] eqn:Ee. case_bool_decide as Ht; [done|].
  pose proof (rd_named _ Hrd) as Hnm. destruct (refresh_entries_spec (eg_store e) page i failed e e1 i1 f1) as (Hr & _); [done|by eapply filed_page; [|apply refreshPage_pos|]|reflexivity|done|].
  pose proof (ready_later _ _ Hr Hrd) as Hrd1. apply IH; [done|].
  pose proof (page_shrinks _ _ _ _ _ _ Hnm (rd_named _ Hrd1) (refresh_entries_quiet _ _ _ _ _ _ _ Hrd Ee) refreshPage_pos Ep Ht). lia.
Qed.

End loop.

(** ** The obligation *)

Section completes.
Context `{Codec} `{CommandCodec} `{StateCodec} `{LedgerCodec} `{DoorCodec} `{PrunerCodec}.

(** C21: An owed refresh is given up only when it is done. While others write beside it
    (they may retire an entity, and what they write stands at the head), a run that
    reports success has left no entity whose current state is in the range owed, whatever
    the pages it read looked like when it reached them, and the obligation is gone if the
    store could remove it; a run that reports a failure has left the obligation as it was.
    If nothing new is filed meanwhile, a run over all the pages ends. *)
Theorem refresh_completes env c others fuel fclear e e' r from to :
  completePendingRefresh env c others fuel fclear e = (e', r) ->
  refreshPending (db (eg_store e)) "entities" = Some (from, to) ->
  (forall i s, Restated to s (others i s)) ->
  Inv (eg_store e) -> kv_named (eg_store e) -> (to <= NextOffset (eg_store e) "entities")%N ->
  Inv (eg_store e')
  /\ (r = Some true -> restated_all env from to (eg_store e')
        /\ (apply_fails fclear = false -> refreshPending (db (eg_store e')) "entities" = None))
  /\ (r <> Some true -> refreshPending (db (eg_store e')) "entities" = Some (from, to))
  /\ ((forall i s, no_new s (others i s)) -> length (kv_items (db (eg_store e)) "") < fuel -> r <> None).
Proof.
  intros E Hp Hothers HI Hnm Hto. unfold completePendingRefresh, refreshEntities in E. rewrite Hp in E. assert (Hrd : Ready to (eg_store e)) by by split.
  pose proof (refresh_loop_ends env c others from to Hothers) as Hends. destruct (refresh_loop env c others fuel from to "" 0 0 e) as [e1 r1] eqn:El.
  destruct (refresh_loop_spec env c others from to Hothers fuel "" 0 0 e e1 r1 Hrd (fun _ => swept_start env from to _) El) as [Hr Hall].
  assert (HI1 : Inv (eg_store e1)) by by apply (rs_inv _ _ _ Hr). assert (Hfin : (forall i s, no_new s (others i s)) -> length (kv_items (db (eg_store e)) "") < fuel -> r1 <> None).
  { intros Hq Hf. specialize (Hends Hq fuel "" 0 0 e Hrd Hf). by rewrite El in Hends. }
  destruct (decide (r1 = Some true)) as [-> | Hn].
  2: { assert (Er : (e', r) = (e1, r1)) by (destruct r1 as [[]|]; naive_solver). injection Er as -> ->. split_and!; [done|by intros|by intros _; rewrite (rs_owed _ _ _ Hr)|done]. }
  destruct (ClearRefreshPending fclear "entities" (eg_store e1)) as [s u] eqn:Ec. injection E as <- <-. pose proof (ClearRefreshPending_inv fclear "entities" _ HI1) as HI2. rewrite Ec in HI2.
  unfold ClearRefreshPending in Ec. split_and!; [exact HI2| |done|done]. intros _. specialize (Hall eq_refl). destruct (apply_fails fclear); injection Ec as <- <-; [done|].
  split; [|intros _; unfold refreshPending; cbn; by rewrite lookup_delete]. intros path node topic kv p Hk. apply (Hall path node topic kv p). revert Hk. unfold kvEntry. cbn. by rewrite lookup_delete_ne.
Qed.

End completes.

(** ** An example *)

Section examples.
#[local] Existing Instances demo_codec demo_command_codec demo_ledger_codec demo_state_codec demo_door_codec demo_pruner_codec.

(** The pass over the entities, then the refresh it owes. *)
Definition demo_owing : Engine := fst (demo_pass "entities").
Definition demo_refreshed : Engine * option bool := completePendingRefresh demo_env (demo_call 0 no_faults) (fun _ s => s) 3 no_faults demo_owing.

(** Decided by going through the entries. *)
Definition named_entry (x : Key * Val) : bool :=
  match parts (fst x) with
  | ["k"; path; node; topic] =>
      forallb (fun p => negb (has_byte nul p)) [path; node; topic] && match Parse topic with Ok p => (Path p == path) && (NodeID p == node) | Err _ => false end
  | _ => true
  end.

Lemma named_entries s : forallb named_entry (map_to_list (db s)) = true -> kv_named s.
Proof.
  intros Hall path node topic kv Hk. unfold kvEntry in Hk. destruct (db s !! kvKey path node topic) as [v|] eqn:Ev; [|done]. rewrite forallb_forall in Hall.
  apply elem_of_map_to_list, list_elem_of_In, Hall in Ev. unfold named_entry in Ev. cbn [fst parts kvKey forallb] in Ev. apply andb_true_iff in Ev as [Hb Hp].
  rewrite !andb_true_iff, !negb_true_iff in Hb. destruct Hb as (H1 & H2 & H3 & _). split.
  - split; [done|]. split; [|done]. by repeat constructor.
  - destruct (Parse topic) as [p|]; [|done]. apply andb_true_iff in Hp as [Hp1%bool_decide_eq_true Hp2%bool_decide_eq_true]. by exists p.
Qed.

Lemma demo_owing_inv : Inv (eg_store demo_owing).
Proof.
  destruct (pruneCommit_pruned demo_env (demo_call 0 no_faults) (Some [demo_operator]) demo_peeks demo_retention (fun _ s => s) 100 10000 no_faults no_faults
    (fun _ s => reflexivity s) "entities" demo_node demo_owing 2 (demo_passed "entities") false) as (? & ? & ? & ? & ? & ? & ? & ? & ? & ? & P & _).
  - tag_in.
  - exact demo_silent_inv.
  - exact demo_silent_placed.
  - replace (PassPruned 2 (demo_passed "entities") false) with (snd (demo_pass "entities")) by (vm_compute; reflexivity). apply surjective_pairing.
  - by destruct P as [_ _ _ _ _ _ _ _ _ _ [_ HI] _ _ _].
Qed.

Lemma refresh_completes_witness : refreshPending (db (eg_store demo_owing)) "entities" = Some (2, 3)%N
  /\ restated_all demo_env 2 3 (eg_store (fst demo_refreshed)) /\ refreshPending (db (eg_store (fst demo_refreshed))) "entities" = None.
Proof.
  assert (Hp : refreshPending (db (eg_store demo_owing)) "entities" = Some (2, 3)%N) by (vm_compute; reflexivity). split; [exact Hp|].
  destruct (refresh_completes demo_env (demo_call 0 no_faults) (fun _ s => s) 3 no_faults demo_owing (fst demo_refreshed) (Some true) 2 3) as (_ & Hdone & _).
  - replace (Some true) with (snd demo_refreshed) by (vm_compute; reflexivity). apply surjective_pairing.
  - exact Hp.
  - intros i s. reflexivity.
  - exact demo_owing_inv.
  - apply named_entries. vm_compute. reflexivity.
  - assert (Hn : NextOffset (eg_store demo_owing) "entities" = 4%N) by (vm_compute; reflexivity). rewrite Hn. lia.
  - destruct (Hdone eq_refl) as [Hr Hc]. split; [exact Hr|exact (Hc eq_refl)].
Defined.

End examples.
