(* ===== verification/StoreRegistry.v ===== *)
(** * The store: the registry family

    [internal/store/registry.go]: the entry of an identity and the record that says so are
    written in one batch, and taken away in one batch, with the records the identity
    authored and, when a child node is retired for good, with everything the child
    replicated and what is kept about it. The operations keep the invariant of the store,
    and [registryBatchLocked_eq] says what they write. *)

From S2P Require Export StoreOps.

Open Scope string_scope.
Open Scope list_scope.
Open Scope go_scope.

(** ** Keys *)

Definition regKey (ulid : string) : Key := mkKey ["r"; ulid] None.
Definition revokedKey (ulid : string) : Key := mkKey ["rv"; ulid] None.

Definition Revoked (s : Store) (ulid : string) : bool :=
  match db s !! revokedKey ulid with Some (VBytes v) => v != "" | _ => false end.

Definition reg_item (x : Key * Val) : option (string * string) :=
  match parts (fst x), suffix (fst x), snd x with
  | [t; ulid], None, VBytes v => if t == "r" then Some (ulid, v) else None
  | _, _, _ => None
  end.

(** [RegistryScan]: every entry, by its ULID. *)
Definition RegistryScan (d : DB) : gmap string string := list_to_map (omap reg_item (map_to_list d)).

(** [kvVisitKeys]: the keys of the current state, in key order. *)
Definition kv_key (x : Key * Val) : option (string * string * string) :=
  match parts (fst x), suffix (fst x) with
  | [t; path; node; topic], None => if t == "k" then Some (path, node, topic) else None
  | _, _ => None
  end.

Definition kvVisitKeys (d : DB) : list (string * string * string) :=
  merge_sort (fun x y => String.le (Keys.encode (kvKey x.1.1 x.1.2 x.2)) (Keys.encode (kvKey y.1.1 y.1.2 y.2))) (omap kv_key (map_to_list d)).

(** ** Batches *)

(** One stream's share of a batch. *)
Record streamRecords := mkStreamRecords { sb_stream : string; sb_recs : list Rec }.

Record ChildRetirement := mkChildRetirement {
  cr_Child : string;
  cr_StreamOf : string -> string -> string -> string;   (** of path, node and topic *)
  cr_TS : Z;
}.

(** A record without its place in the current state. *)
Definition without_kv (rec : Rec) : Rec :=
  mkRec (r_SourceLocalOnly rec) (r_Topic rec) (r_Payload rec) (r_TS rec) (r_WrittenBy rec) (r_OriginOffset rec) (r_ActorID rec) (r_ActorLabel rec)
    (r_ActorKind rec) (r_ActorGroups rec) (r_ActorClient rec) (r_ActorEmail rec) (r_ActorClasses rec) (r_ActorCredential rec) (r_Door rec) "" "" (r_Delete rec).

Definition tombstone (ts : Z) (path node topic : string) : Rec :=
  mkRec false topic "" ts "" 0 "" "" "" [] "" "" [] "" "" path node true.

Section registry.
Context `{Codec}.

Fixpoint registry_records (f : Faults) (s : Store) (batches : list streamRecords) (b : Batch) : result StoreErr (Batch * list (string * (N * N))) :=
  match batches with
  | [] => Ok (b, [])
  | sr :: batches =>
      let off := at_ (next s) (sb_stream sr) in
      if off == 0%N then Err (EUnknownStream (sb_stream sr))
      else
        let! (b, n, added) := write_all f (sb_stream sr) (sb_recs sr) off 0 b in
        let live := (at_ (bytes s) (sb_stream sr) + added)%N in
        let! b := setHead f (sb_stream sr) n b in
        let! b := bset f (bytesKey (sb_stream sr)) (VU64 live) b in
        let! (b, heads) := registry_records f s batches b in
        Ok (b, (sb_stream sr, (n, live)) :: heads)
  end.

(** The heads are published after the records. *)
Definition publish_head (s : Store) (head : string * (N * N)) : Store :=
  set_bytes (<[fst head := snd (snd head)]> (bytes s)) (set_next (<[fst head := fst (snd head)]> (next s)) s).

Definition registryBatchLocked (f : Faults) (batches : list streamRecords) (mut : Batch -> result StoreErr Batch) (s : Store) : Store * result StoreErr N :=
  match (let! (b, heads) := registry_records f s batches [] in
         let! b := mut b in
         let! d := commit f b (db s) in
         Ok (d, heads)) with
  | Err e => (s, Err e)
  | Ok (d, heads) => (foldl publish_head (set_db d s) heads, Ok (match batches with [] => 0%N | sr :: _ => at_ (next s) (sb_stream sr) end))
  end.

Definition registryBatch (f : Faults) (stream : string) (recs : list Rec) (mut : Batch -> result StoreErr Batch) (s : Store) : Store * result StoreErr N :=
  registryBatchLocked f [mkStreamRecords stream recs] mut s.

Definition RegistryPut (f : Faults) (ulid entry stream : string) (rec : Rec) (s : Store) : Store * result StoreErr N :=
  registryBatch f stream [rec] (fun b => let! b := bdelete f (revokedKey ulid) b in bset f (regKey ulid) (VBytes entry) b) s.

(** The identity's own entry of the current state. *)
Definition delete_own (f : Faults) (rec : Rec) (b : Batch) : result StoreErr Batch :=
  if r_KVPath rec != "" then deleteKV f (r_KVPath rec) (r_KVNode rec) (r_Topic rec) b else Ok b.

Definition byte_one : string := String one "".

Definition RegistryDelete (f : Faults) (ulid stream : string) (rec : Rec) (also : list Rec) (s : Store) : Store * result StoreErr N :=
  registryBatch f stream (without_kv rec :: also) (fun b =>
    let! b := delete_own f rec b in
    let! b := bset f (revokedKey ulid) (VBytes byte_one) b in
    bdelete f (regKey ulid) b) s.

(** What the walk selects: not the identity's own record, which is retired by itself. *)
Definition own_key (rec : Rec) (x : string * string * string) : bool :=
  (r_KVPath rec != "") && bool_decide (x = (r_KVPath rec, r_KVNode rec, r_Topic rec)).

Definition candidates (d : DB) (rec : Rec) (ret : ChildRetirement) : list (string * string * string) :=
  base.filter (fun x => own_key rec x = false /\ cr_StreamOf ret x.1.1 x.1.2 x.2 <> "") (kvVisitKeys d).

(** The tombstones of the entries that still exist, each with its stream. *)
Fixpoint tombstones (ret : ChildRetirement) (cands : list (string * string * string)) (s : Store) : Store * result StoreErr (list (string * Rec)) :=
  match cands with
  | [] => (s, Ok [])
  | (path, node, topic) :: cands =>
      match kvOffsets (db s) path node topic with
      | None => tombstones ret cands s
      | Some _ =>
          let target := cr_StreamOf ret path node topic in
          let tomb := tombstone (cr_TS ret) path node topic in
          let '(s, lo) := if target == "metrics" then metricSourceLocalOnly tomb s else (s, Ok false) in
          match lo with
          | Err e => (s, Err e)
          | Ok lo =>
              match tombstones ret cands s with
              | (s, Ok l) => (s, Ok ((target, with_local_only lo tomb) :: l))
              | r => r
              end
          end
      end
  end.

(** A tombstone joins its stream's share, or opens one. *)
Fixpoint place (batches : list streamRecords) (x : string * Rec) : list streamRecords :=
  match batches with
  | [] => [mkStreamRecords (fst x) [snd x]]
  | sr :: batches =>
      if sb_stream sr == fst x then mkStreamRecords (sb_stream sr) (sb_recs sr ++ [snd x]) :: batches
      else sr :: place batches x
  end.

(** [RegistryRetire]; [d] is what the walk over the keys, which takes no lock, sees. *)
Definition RegistryRetire (f : Faults) (d : DB) (ulid stream : string) (rec : Rec) (also : list Rec) (ret : ChildRetirement) (s : Store)
    : Store * result StoreErr (N * list Rec) :=
  match tombstones ret (candidates d rec ret) s with
  | (s, Err e) => (s, Err e)
  | (s, Ok tombs) =>
      match registryBatchLocked f (foldl place [mkStreamRecords stream (without_kv rec :: also)] tombs) (fun b =>
              let! b := delete_own f rec b in
              let b := b ++ [BDeleteRange (HwmRange (cr_Child ret))] in
              let! b := bdelete f (childStoreKey (cr_Child ret)) b in
              let! b := bset f (revokedKey ulid) (VBytes byte_one) b in
              bdelete f (regKey ulid) b) s with
      | (s, Err e) => (s, Err e)
      | (s, Ok off) =>
          let s := hwmsDropped (cr_Child ret) s in
          (set_adopted (delete (cr_Child ret) (adopted s)) s, Ok (off, snd <$> tombs))
      end
  end.

(** ** What a batch does *)

Definition put_share (s : Store) (sr : streamRecords) : Store := put_records (sb_stream sr) (sb_recs sr) s.

Definition share_ops (s : Store) (sr : streamRecords) : Batch :=
  let off := at_ (next s) (sb_stream sr) in
  records_ops (sb_stream sr) off (sb_recs sr)
  ++ head_batch (sb_stream sr) (off + N.of_nat (length (sb_recs sr))) (at_ (bytes s) (sb_stream sr) + costs (sb_stream sr) off (sb_recs sr)).

Definition share_head (s : Store) (sr : streamRecords) : string * (N * N) :=
  let off := at_ (next s) (sb_stream sr) in
  (sb_stream sr, (off + N.of_nat (length (sb_recs sr)), at_ (bytes s) (sb_stream sr) + costs (sb_stream sr) off (sb_recs sr))%N).

Lemma registry_records_Ok f s batches b b' heads : registry_records f s batches b = Ok (b', heads) ->
  b' = b ++ (batches ≫= share_ops s) /\ Forall (fun sr => NextOffset s (sb_stream sr) <> 0%N) batches
  /\ heads = share_head s <$> batches.
Proof.
  revert b heads. induction batches as [|sr batches IH]; intros b heads; cbn [registry_records]; [intros [= <- <-]; by rewrite app_nil_r|].
  case_bool_decide as Hz; [done|]. destruct (write_all f _ _ _ _ b) as [[[b1 n] added]|] eqn:Ew; [|done]. apply write_all_Ok in Ew as (-> & -> & ->).
  rewrite N.add_0_l. destruct (setHead f _ _ _) as [b1|] eqn:Eh; [|done]. apply setHead_Ok in Eh as ->. destruct (bset f _ _ _) as [b1|] eqn:Eb; [|done]. apply bset_Ok in Eb as ->.
  destruct (registry_records f s batches _) as [[b2 heads2]|] eqn:Er; [|done]. intros [= <- <-]. apply IH in Er as (-> & Hall & ->).
  split; [rewrite bind_cons; unfold share_ops at 2, head_batch; cbv zeta; by rewrite <- !app_assoc|]. split; [by constructor|done].
Qed.

Lemma put_share_eq s sr : sb_recs sr <> [] -> put_share s sr
  = publish_head (set_db (apply_batch (share_ops s sr) (db s)) s) (share_head s sr).
Proof. destruct sr as [stream [|rec recs]]; [done|]. intros _. unfold put_share. cbn [sb_stream sb_recs]. by rewrite put_records_eq. Qed.

Lemma shares_eq s batches s0 : NoDup (sb_stream <$> batches) -> Forall (fun sr => sb_recs sr <> []) batches ->
  (forall st, st ∈ sb_stream <$> batches -> at_ (next s0) st = at_ (next s) st /\ at_ (bytes s0) st = at_ (bytes s) st) ->
  foldl publish_head (set_db (apply_batch (batches ≫= share_ops s) (db s0)) s0)
    (share_head s <$> batches)
  = foldl put_share s0 batches.
Proof.
  revert s0. induction batches as [|sr batches IH]; intros s0 Hnd Hne Hsame; [by destruct s0|]. rewrite fmap_cons in Hnd. apply NoDup_cons in Hnd as [Hnin Hnd].
  inversion_clear Hne as [|? ? Hr Hrs]. rewrite bind_cons, fmap_cons. cbn [foldl]. destruct (Hsame (sb_stream sr)) as [Hn Hb]; [set_solver|].
  assert (Hops : share_ops s sr = share_ops s0 sr) by (unfold share_ops; by rewrite Hn, Hb). assert (Hhd : share_head s sr = share_head s0 sr) by (unfold share_head; by rewrite Hn, Hb). rewrite Hops, Hhd.
  rewrite apply_batch_app. rewrite <- (IH (put_share s0 sr) Hnd Hrs); rewrite put_share_eq by done.
  - by destruct s0.
  - intros st Hst. unfold publish_head. store_simpl. cbn [fst snd]. unfold at_. rewrite !lookup_insert_ne by (intros <-; done). apply Hsame. set_solver.
Qed.

(** A batch that commits is its records, stream by stream, and then its changes. *)
Lemma registryBatchLocked_eq f batches mut m s s' r : NoDup (sb_stream <$> batches) -> Forall (fun sr => sb_recs sr <> []) batches ->
  (forall b b', mut b = Ok b' -> b' = b ++ m) -> registryBatchLocked f batches mut s = (s', r) ->
  match r with
  | Err _ => s' = s
  | Ok off => Forall (fun sr => NextOffset s (sb_stream sr) <> 0%N) batches
      /\ off = match batches with [] => 0%N | sr :: _ => NextOffset s (sb_stream sr) end
      /\ s' = let s1 := foldl put_share s batches in set_db (apply_batch m (db s1)) s1
  end.
Proof.
  intros Hnd Hne Hm. unfold registryBatchLocked. destruct (registry_records f s batches []) as [[b heads]|] eqn:Er; [|by intros [= <- <-]].
  apply registry_records_Ok in Er as (-> & Hall & ->). cbn [app]. destruct (mut _) as [b'|] eqn:Em; [|by intros [= <- <-]]. apply Hm in Em as ->.
  unfold commit. destruct (apply_fails f); intros [= <- <-]; [done|]. split_and!; [done..|]. cbv zeta. rewrite <- (shares_eq s batches s Hnd Hne) by done.
  rewrite apply_batch_app. generalize (share_head s <$> batches).
  intros heads. assert (Hc : forall s1 d, foldl publish_head (set_db d s1) heads = set_db d (foldl publish_head s1 heads)).
  { clear. induction heads as [|h heads IH]; intros s1 d; [done|]. cbn [foldl]. rewrite <- IH. by destruct s1. }
  rewrite !Hc. by destruct (foldl publish_head s heads).
Qed.

(** ** The changes keep the invariant *)

Lemma put_shares_inv batches s : Forall (fun sr => sb_stream sr ∈ streams) batches -> Inv s -> Inv (foldl put_share s batches).
Proof. revert s. induction batches as [|sr batches IH]; intros s Hs HI; [done|]. inversion_clear Hs as [|? ? Hsr Hrest]. cbn [foldl]. apply (IH (put_share s sr) Hrest). exact (put_records_inv _ _ _ Hsr HI). Qed.

Lemma deleteKV_Ok f path node topic b b' : deleteKV f path node topic b = Ok b' -> b' = b ++ kv_del (path, node, topic).
Proof.
  intros E. assert (E' : delete_entries f [(path, node, topic)] b = Ok b') by (cbn [delete_entries]; by rewrite E).
  apply delete_entries_Ok in E'. by rewrite bind_cons, app_nil_r in E'.
Qed.

Lemma kv_del_inv path node topic s : Inv s -> Inv (set_db (apply_batch (kv_del (path, node, topic)) (db s)) s).
Proof.
  intros HI. pose proof (EvictKV_inv no_faults {[ kvKey path node topic := VEmpty ]} (fun _ => true) s HI) as HI'.
  assert (Hent : omap (doomed_entry (fun _ => true)) (map_to_list ({[ kvKey path node topic := VEmpty ]} : DB)) = [(path, node, topic)]) by (by rewrite map_to_list_singleton).
  unfold EvictKV in HI'. rewrite Hent in HI'. unfold kv_del. cbn -[apply_batch] in HI'. unfold deleteKV, bdelete in HI'. cbn -[apply_batch] in HI'.
  destruct (kvIndexKey path node topic); exact HI'.
Qed.

Lemma small_frame_inv d s : (forall k, tag k ∉ ["r"; "rv"] -> d !! k = db s !! k) -> Inv s -> Inv (set_db d s).
Proof. intros Hd HI. apply (Inv_frame s); [|done..]. intros k Hk. store_simpl. apply Hd. by apply (tags_disjoint ("i" :: inv_tags)). Qed.

(** What is kept about a child: its marks, and the store it replicated from. *)
Definition forget_child (child : string) (s : Store) : Store :=
  let s := hwmsDropped child (set_db (apply_batch [BDeleteRange (HwmRange child); BDelete (childStoreKey child)] (db s)) s) in
  set_adopted (delete child (adopted s)) s.

Lemma forget_lookup child d k : apply_batch [BDeleteRange (HwmRange child); BDelete (childStoreKey child)] d !! k
  = if decide (childStoreKey child = k) then None else if in_keys (HwmRange child) k then None else d !! k.
Proof. rewrite lookup_apply_batch. unfold batch_at. cbn [foldl flip op_at]. by destruct (in_keys _ _). Qed.

Lemma forget_other child d k : tag k <> "h" -> tag k <> "u" -> apply_batch [BDeleteRange (HwmRange child); BDelete (childStoreKey child)] d !! k = d !! k.
Proof.
  intros Hh Hu. rewrite forget_lookup, decide_False by (intros <-; done). destruct (in_keys (HwmRange child) k) eqn:Ek; [by apply in_hwm_range in Ek|done].
Qed.

Lemma forget_child_inv child s : Inv s -> Inv (forget_child child s).
Proof.
  intros [I1 I2 I3 I3' I4 I5 I6 [C1 C2 C3 C4]]. unfold forget_child. cbv zeta. set (d := apply_batch _ _).
  assert (Hd : forall T, Forall (fun t => t <> "h" /\ t <> "u") T -> same_tags T (db s) d).
  { intros T HT k Hk. rewrite Forall_forall in HT. destruct (HT _ Hk). by apply forget_other. }
  split; unfold hwmsDropped; store_simpl.
  - intros st Hst. apply (StreamInv_frame (db s)); [apply Hd; tag_in|by apply I1].
  - intros st Hst. destruct (I2 st Hst). split; store_simpl; [done|..]; (erewrite readCounter_frame; [done|]); by apply forget_other.
  - done.
  - done.
  - apply (KVInv_frame (db s)); [apply Hd; tag_in|done].
  - intros st Hst. apply (JournalInv_frame (db s)); [apply Hd; tag_in|by apply I5].
  - intros st v Hst. unfold d. rewrite forget_other by done. by apply I6.
  - split; store_simpl; [| |done|unfold d; by rewrite forget_other].
    + intros c st n [Hn Hc]%map_lookup_filter_Some. cbn in Hc. unfold readU64, d. rewrite forget_lookup, decide_False by done.
      assert (in_keys (HwmRange child) (hwmKey c st) = false) as -> by (cbn; by apply bool_decide_eq_false_2). by apply C1.
    + intros c i. rewrite lookup_delete_Some. intros [Hne Hc]. unfold d. rewrite forget_lookup, decide_False by (unfold childStoreKey; congruence). by apply C2.
Qed.

(** ** The three operations *)

Definition own_ops (rec : Rec) : Batch := if r_KVPath rec != "" then kv_del (r_KVPath rec, r_KVNode rec, r_Topic rec) else [].

Lemma delete_own_Ok f rec b b' : delete_own f rec b = Ok b' -> b' = b ++ own_ops rec.
Proof. unfold delete_own, own_ops. case_bool_decide; cbn [negb]; [intros [= <-]; by rewrite app_nil_r|apply deleteKV_Ok]. Qed.

Lemma RegistryPut_eq f ulid entry stream rec s s' r : RegistryPut f ulid entry stream rec s = (s', r) ->
  match r with
  | Err _ => s' = s
  | Ok off => NextOffset s stream <> 0%N /\ off = NextOffset s stream
      /\ s' = let s1 := put_record stream s rec in set_db (apply_batch [BDelete (revokedKey ulid); BSet (regKey ulid) (VBytes entry)] (db s1)) s1
  end.
Proof.
  unfold RegistryPut, registryBatch. intros E. eapply (registryBatchLocked_eq f _ _ [BDelete (revokedKey ulid); BSet (regKey ulid) (VBytes entry)]) in E.
  - destruct r; [|done]. destruct E as (Hall & -> & ->). inversion_clear Hall. done.
  - apply NoDup_singleton.
  - by constructor.
  - intros b b'. destruct (bdelete f _ b) as [b1|] eqn:E1; [|done]. apply bdelete_Ok in E1 as ->. intros ->%bset_Ok. by rewrite <- app_assoc.
Qed.

Definition delete_ops (ulid : string) (rec : Rec) : Batch := own_ops rec ++ [BSet (revokedKey ulid) (VBytes byte_one); BDelete (regKey ulid)].

Lemma RegistryDelete_eq f ulid stream rec also s s' r : RegistryDelete f ulid stream rec also s = (s', r) ->
  match r with
  | Err _ => s' = s
  | Ok off => NextOffset s stream <> 0%N /\ off = NextOffset s stream
      /\ s' = let s1 := put_records stream (without_kv rec :: also) s in set_db (apply_batch (delete_ops ulid rec) (db s1)) s1
  end.
Proof.
  unfold RegistryDelete, registryBatch. intros E. eapply (registryBatchLocked_eq f _ _ (delete_ops ulid rec)) in E.
  - destruct r; [|done]. destruct E as (Hall & -> & ->). inversion_clear Hall. done.
  - apply NoDup_singleton.
  - by constructor.
  - intros b b'. destruct (delete_own f rec b) as [b1|] eqn:E0; [|done]. apply delete_own_Ok in E0 as ->. destruct (bset f _ _ _) as [b1|] eqn:E1; [|done]. apply bset_Ok in E1 as ->.
    intros ->%bdelete_Ok. unfold delete_ops. by rewrite <- !app_assoc.
Qed.

(** The tombstones of a retirement. *)
Definition position_of (rec : Rec) : string * string * string := (r_KVPath rec, r_KVNode rec, r_Topic rec).

Lemma tombstones_eq ret cands s s' r : policies_ok (policies s) -> tombstones ret cands s = (s', r) ->
  exists ps, policies_ok ps /\ s' = set_policies ps s
  /\ match r with
     | Ok l => (fun x => position_of (snd x)) <$> l = base.filter (fun x => is_Some (kvEntry (db s) x.1.1 x.1.2 x.2)) cands
         /\ Forall (fun x => r_Delete (snd x) = true /\ r_Payload (snd x) = "" /\ fst x = cr_StreamOf ret (r_KVPath (snd x)) (r_KVNode (snd x)) (r_Topic (snd x))) l
     | Err _ => True
     end.
Proof.
  revert s s' r. induction cands as [|[[path node] topic] cands IH]; intros s s' r Hok; cbn [tombstones].
  { intros [= <- <-]. exists (policies s). by rewrite set_policies_id. }
  unfold kvOffsets. rewrite filter_cons. cbn [fst snd]. destruct (kvEntry (db s) path node topic) as [kv|] eqn:Ek.
  2: { intros E. rewrite decide_False by (by intros []). by apply IH. }
  rewrite decide_True by done. set (tomb := tombstone _ _ _ _).
  assert (Hlo : exists ps lo, (if cr_StreamOf ret path node topic == "metrics" then metricSourceLocalOnly tomb s else (s, Ok false)) = (set_policies ps s, lo) /\ policies_ok ps).
  { case_bool_decide; [|exists (policies s), (Ok false); by rewrite set_policies_id]. destruct (metricSourceLocalOnly_eq tomb s Hok) as (ps & E & Hps). eauto. }
  destruct Hlo as (ps & lo & -> & Hps). destruct lo as [lo|e]; [|intros [= <- <-]; by exists ps].
  destruct (tombstones ret cands (set_policies ps s)) as [s2 [l|e]] eqn:Et; intros [= <- <-]; apply IH in Et as (ps2 & Hps2 & -> & Hl); [|done| |done].
  - exists ps2. split; [done|]. split; [by destruct s|]. destruct Hl as [Hl Hf]. split; [rewrite fmap_cons, Hl; by destruct lo|]. constructor; [by destruct lo|done].
  - exists ps2. split; [done|]. by destruct s.
Qed.

(** The shares of a retirement: one per stream, none empty, together the records. *)
Definition shares_of (batches : list streamRecords) : list (string * Rec) := batches ≫= fun sr => (fun r => (sb_stream sr, r)) <$> sb_recs sr.

Record shares_ok (batches : list streamRecords) : Prop := { sh_once : NoDup (sb_stream <$> batches); sh_some : Forall (fun sr => sb_recs sr <> []) batches }.

Lemma place_streams batches x : sb_stream <$> place batches x = (sb_stream <$> batches) ++ (if decide (fst x ∈ sb_stream <$> batches) then [] else [fst x]).
Proof.
  induction batches as [|sr batches IH]; cbn [place fmap list_fmap]; [by rewrite decide_False by apply not_elem_of_nil|]. case_bool_decide as He; cbn [fmap list_fmap].
  - rewrite decide_True by (rewrite He; by left). by rewrite app_nil_r.
  - rewrite IH. cbn [app]. f_equal. f_equal. apply decide_ext. rewrite elem_of_cons. naive_solver.
Qed.

Lemma place_ok batches x : shares_ok batches -> shares_ok (place batches x).
Proof.
  intros [Hnd Hne]. split.
  - rewrite place_streams. apply NoDup_app. split_and!; [done| |case_decide; [apply NoDup_nil_2|apply NoDup_singleton]]. intros st Hst. case_decide; [apply not_elem_of_nil|].
    intros ->%list_elem_of_singleton. done.
  - clear Hnd. induction Hne as [|sr batches Hsr Hne IH]; cbn [place]; [by repeat constructor|]. case_bool_decide; constructor; cbn; [by destruct (sb_recs sr)|done..].
Qed.

Lemma place_shares batches x y : y ∈ shares_of (place batches x) <-> y ∈ shares_of batches \/ y = x.
Proof.
  unfold shares_of. induction batches as [|sr batches IH]; cbn [place].
  { rewrite bind_cons, app_nil_r. cbn. rewrite list_elem_of_singleton. destruct x. cbn. split; [by right|]. intros [Hn| ->]; [by apply not_elem_of_nil in Hn|done]. }
  case_bool_decide as He; rewrite !bind_cons, !elem_of_app; cbn [sb_stream sb_recs].
  - rewrite fmap_app, elem_of_app. cbn. rewrite list_elem_of_singleton, He. destruct x. cbn. tauto.
  - rewrite IH. tauto.
Qed.

Lemma place_all batches tombs : shares_ok batches -> shares_ok (foldl place batches tombs) /\ forall y, y ∈ shares_of (foldl place batches tombs) <-> y ∈ shares_of batches \/ y ∈ tombs.
Proof.
  revert batches. induction tombs as [|x tombs IH]; intros batches Hok; cbn [foldl]; [split; [done|]; intros y; rewrite elem_of_nil; tauto|].
  destruct (IH (place batches x) (place_ok _ _ Hok)) as [Hok' Hy]. split; [done|]. intros y. rewrite Hy, place_shares, elem_of_cons. tauto.
Qed.

Definition retire_ops (ulid : string) : Batch := [BSet (revokedKey ulid) (VBytes byte_one); BDelete (regKey ulid)].

(** A retirement that commits: its records, the identity's own entry, what was kept about
    the child, and the mark that the identity is revoked. *)
Lemma RegistryRetire_eq f d ulid stream rec also ret s s' r : Inv s -> RegistryRetire f d ulid stream rec also ret s = (s', r) ->
  match r with
  | Err _ => exists ps, policies_ok ps /\ s' = set_policies ps s
  | Ok (off, retired) => exists ps tombs batches, policies_ok ps /\ retired = snd <$> tombs /\ off = NextOffset s stream
      /\ (fun x => position_of (snd x)) <$> tombs = base.filter (fun x => is_Some (kvEntry (db s) x.1.1 x.1.2 x.2)) (candidates d rec ret)
      /\ Forall (fun x => r_Delete (snd x) = true /\ r_Payload (snd x) = "" /\ fst x = cr_StreamOf ret (r_KVPath (snd x)) (r_KVNode (snd x)) (r_Topic (snd x))) tombs
      /\ shares_ok batches /\ Forall (fun sr => sb_stream sr ∈ streams) batches
      /\ (forall y, y ∈ shares_of batches <-> y ∈ (fun r => (stream, r)) <$> without_kv rec :: also \/ y ∈ tombs)
      /\ (let s1 := foldl put_share (set_policies ps s) batches in
         let s2 := set_db (apply_batch (own_ops rec) (db s1)) s1 in
         let s3 := forget_child (cr_Child ret) s2 in
         s' = set_db (apply_batch (retire_ops ulid) (db s3)) s3)
  end.
Proof.
  intros HI. unfold RegistryRetire. destruct (tombstones ret _ s) as [s0 [tombs|e]] eqn:Et; apply tombstones_eq in Et as (ps & Hps & -> & Ht);
    [|by apply policies_ok_of_inv| |by apply policies_ok_of_inv].
  2: { intros [= <- <-]. by exists ps. }
  destruct Ht as [Ht Hf]. destruct (place_all [mkStreamRecords stream (without_kv rec :: also)] tombs) as [Hok Hsh]; [split; [apply NoDup_singleton|by repeat constructor]|].
  set (batches := foldl place _ tombs) in *. set (child := cr_Child ret). destruct (registryBatchLocked f batches _ _) as [s1 rb] eqn:E.
  eapply (registryBatchLocked_eq f batches _ (own_ops rec ++ [BDeleteRange (HwmRange child); BDelete (childStoreKey child)] ++ retire_ops ulid)) in E; [|apply Hok|apply Hok|].
  2: { intros b b'. destruct (delete_own f rec b) as [b1|] eqn:E0; [|done]. apply delete_own_Ok in E0 as ->. destruct (bdelete f _ _) as [b1|] eqn:E1; [|done]. apply bdelete_Ok in E1 as ->.
       destruct (bset f _ _ _) as [b1|] eqn:E2; [|done]. apply bset_Ok in E2 as ->. intros ->%bdelete_Ok. unfold retire_ops. by rewrite <- !app_assoc. }
  destruct rb as [off|e]; intros [= <- <-]; [|exists ps; by rewrite E]. destruct E as (Hall & Hoff & ->). exists ps, tombs, batches. split_and!; try done.
  - rewrite Hoff. assert (Hhd : exists sr rest, batches = sr :: rest /\ sb_stream sr = stream); [|destruct Hhd as (sr & rest & -> & <-); done].
    subst batches. clear. set (sr := mkStreamRecords stream _). assert (Hst : sb_stream sr = stream) by done. clearbody sr. generalize (@nil streamRecords) as rest. revert sr Hst.
    induction tombs as [|x tombs IH]; intros sr Hst rest; [by exists sr, rest|]. cbn [foldl place]. case_bool_decide; by apply IH.
  - rewrite Forall_forall in Hall |- *. intros sr Hsr. apply (known_stream s); [done|]. by apply Hall.
  - intros y. rewrite Hsh. unfold shares_of at 1. by rewrite bind_cons, app_nil_r.
  - cbv zeta. set (s1 := foldl put_share _ batches). rewrite !apply_batch_app. unfold forget_child, hwmsDropped. fold child. by destruct s1.
Qed.

(** *** The invariant *)

Lemma own_ops_inv rec s : Inv s -> Inv (set_db (apply_batch (own_ops rec) (db s)) s).
Proof. intros HI. unfold own_ops. case_bool_decide; cbn [negb]; [by destruct s|by apply kv_del_inv]. Qed.

Lemma small_ops_inv ops s : Forall (fun op => forall k, touches op k = true -> tag k ∈ ["r"; "rv"]) ops -> Inv s -> Inv (set_db (apply_batch ops (db s)) s).
Proof.
  intros Hops. apply small_frame_inv. intros k Hk. rewrite lookup_apply_batch. apply batch_at_untouched. rewrite Forall_forall in *. intros op Hop.
  destruct (touches op k) eqn:Et; [|done]. by apply (Hops op Hop) in Et.
Qed.

Lemma touches_set k v k' : touches (BSet k v) k' = true -> k' = k.
Proof. unfold touches. cbn. by intros ->%bool_decide_eq_true. Qed.
Lemma touches_delete k k' : touches (BDelete k) k' = true -> k' = k.
Proof. unfold touches. cbn. by intros ->%bool_decide_eq_true. Qed.

Lemma put_ops_small ulid entry : Forall (fun op => forall k, touches op k = true -> tag k ∈ ["r"; "rv"]) [BDelete (revokedKey ulid); BSet (regKey ulid) (VBytes entry)].
Proof. constructor; [intros k ->%touches_delete; tag_in|]. constructor; [intros k ->%touches_set; tag_in|constructor]. Qed.
Lemma retire_ops_small ulid : Forall (fun op => forall k, touches op k = true -> tag k ∈ ["r"; "rv"]) (retire_ops ulid).
Proof. constructor; [intros k ->%touches_set; tag_in|]. constructor; [intros k ->%touches_delete; tag_in|constructor]. Qed.

Lemma RegistryPut_inv f ulid entry stream rec s : Inv s -> Inv (fst (RegistryPut f ulid entry stream rec s)).
Proof.
  intros HI. destruct (RegistryPut f ulid entry stream rec s) as [s' r] eqn:E. apply RegistryPut_eq in E. cbn [fst]. destruct r; [|by subst]. destruct E as (Hk & _ & ->).
  apply small_ops_inv; [apply put_ops_small|]. apply put_record_inv; [by apply (known_stream s)|done].
Qed.

Lemma RegistryDelete_inv f ulid stream rec also s : Inv s -> Inv (fst (RegistryDelete f ulid stream rec also s)).
Proof.
  intros HI. destruct (RegistryDelete f ulid stream rec also s) as [s' r] eqn:E. apply RegistryDelete_eq in E. cbn [fst]. destruct r; [|by subst]. destruct E as (Hk & _ & ->).
  cbv zeta. unfold delete_ops. set (s1 := put_records _ _ _). assert (HI1 : Inv s1) by (apply put_records_inv; [by apply (known_stream s)|done]).
  rewrite apply_batch_app. pose proof (small_ops_inv (retire_ops ulid) _ (retire_ops_small ulid) (own_ops_inv rec _ HI1)) as HI2. by destruct s1.
Qed.

Lemma RegistryRetire_inv f d ulid stream rec also ret s : Inv s -> Inv (fst (RegistryRetire f d ulid stream rec also ret s)).
Proof.
  intros HI. destruct (RegistryRetire f d ulid stream rec also ret s) as [s' r] eqn:E. apply RegistryRetire_eq in E; [|done]. cbn [fst]. destruct r as [[off retired]|].
  2: { destruct E as (ps & Hps & ->). by apply set_policies_inv. }
  destruct E as (ps & tombs & batches & Hps & _ & _ & _ & _ & _ & Hst & _ & ->). cbv zeta. apply small_ops_inv; [apply retire_ops_small|]. apply forget_child_inv, own_ops_inv.
  apply put_shares_inv; [done|]. by apply set_policies_inv.
Qed.

(** *** Entries *)

Lemma registry_scan_Some d u v : RegistryScan d !! u = Some v <-> d !! regKey u = Some (VBytes v).
Proof.
  unfold RegistryScan. set (l := omap reg_item (map_to_list d)). assert (Hin : forall u v, (u, v) ∈ l <-> d !! regKey u = Some (VBytes v)).
  { intros u' v'. unfold l. rewrite list_elem_of_omap. split.
    - intros ([k x] & Hk%elem_of_map_to_list & E). unfold reg_item in E. cbn [fst snd] in E. destruct k as [ps sfx]. cbn in E. destruct ps as [|t [|w [|]]]; try done. destruct sfx; [done|]. destruct x; try done.
      case_bool_decide; [|done]. injection E as -> ->. by subst t.
    - intros Hk. exists (regKey u', VBytes v'). split; [by apply elem_of_map_to_list|done]. }
  assert (Hu : forall u v v', (u, v) ∈ l -> (u, v') ∈ l -> v = v') by (intros u' v1 v2; rewrite !Hin; congruence).
  rewrite <- Hin. clear Hin. clearbody l. induction l as [|[u' v'] l IH]; [rewrite elem_of_nil; split; [cbn; by rewrite lookup_empty|done]|].
  rewrite list_to_map_cons, lookup_insert, elem_of_cons. assert (Hrest : forall a b b', (a, b) ∈ l -> (a, b') ∈ l -> b = b') by (intros a b b' X Y; apply (Hu a); by right).
  case_decide as He; [subst u'|rewrite (IH Hrest); split; [by right|intros [[= -> ->]|]; done]]. split; [intros [= ->]; by left|]. intros [[= ->]|Hl]; [done|].
  f_equal. apply (Hu u); [by left|by right].
Qed.

Lemma small_lookup_put stream recs s k : tag k ∈ ["r"; "rv"] -> db (put_records stream recs s) !! k = db s !! k.
Proof. intros Hk. apply put_records_other; [by apply (tags_disjoint ["r"; "rv"] head_tags)|by apply (tags_disjoint ["r"; "rv"] record_tags)]. Qed.

Lemma own_ops_other rec d k : tag k ∉ ["k"; "x"] -> apply_batch (own_ops rec) d !! k = d !! k.
Proof.
  intros Hk. rewrite lookup_apply_batch. apply batch_at_untouched. unfold own_ops, kv_del. case_bool_decide; cbn [negb]; [constructor|].
  assert (Hne : forall k', tag k' ∈ ["k"; "x"] -> touches (BDelete k') k = false).
  { intros k' Hk'. destruct (touches _ k) eqn:Et; [|done]. apply touches_delete in Et. by subst. }
  constructor; [apply Hne; tag_in|]. destruct (kvIndexKey _ _ _) as [ik|] eqn:Ei; [|constructor]. constructor; [|constructor]. apply Hne. rewrite (kvIndexKey_tag _ _ _ _ Ei). tag_in.
Qed.

Lemma retire_ops_reg ulid d u : apply_batch (retire_ops ulid) d !! regKey u = if decide (u = ulid) then None else d !! regKey u.
Proof. rewrite lookup_apply_batch. unfold batch_at, retire_ops. cbn [foldl flip op_at]. rewrite (decide_False (P := revokedKey ulid = regKey u)) by done. unfold regKey. repeat case_decide; congruence. Qed.

Lemma RegistryPut_reg f ulid entry stream rec s s' off u : RegistryPut f ulid entry stream rec s = (s', Ok off) ->
  db s' !! regKey u = if decide (u = ulid) then Some (VBytes entry) else db s !! regKey u.
Proof.
  intros E. apply RegistryPut_eq in E as (_ & _ & ->). store_simpl. rewrite lookup_apply_batch. unfold batch_at. cbn [foldl flip op_at].
  rewrite (decide_False (P := revokedKey ulid = regKey u)) by done. change (put_record stream s rec) with (put_records stream [rec] s). rewrite small_lookup_put by tag_in. unfold regKey. repeat case_decide; congruence.
Qed.

Lemma RegistryDelete_reg f ulid stream rec also s s' off u : RegistryDelete f ulid stream rec also s = (s', Ok off) ->
  db s' !! regKey u = if decide (u = ulid) then None else db s !! regKey u.
Proof.
  intros E. apply RegistryDelete_eq in E as (_ & _ & ->). store_simpl. unfold delete_ops. rewrite apply_batch_app. fold (retire_ops ulid). rewrite retire_ops_reg.
  case_decide; [done|]. rewrite own_ops_other by tag_in. by rewrite small_lookup_put by tag_in.
Qed.

Lemma put_shares_small batches s k : tag k ∈ ["r"; "rv"] -> db (foldl put_share s batches) !! k = db s !! k.
Proof. intros Hk. revert s. induction batches as [|sr batches IH]; intros s; [done|]. cbn [foldl]. rewrite IH. exact (small_lookup_put (sb_stream sr) (sb_recs sr) s k Hk). Qed.

Lemma RegistryRetire_reg f d ulid stream rec also ret s s' x u : Inv s -> RegistryRetire f d ulid stream rec also ret s = (s', Ok x) ->
  db s' !! regKey u = if decide (u = ulid) then None else db s !! regKey u.
Proof.
  intros HI E. apply RegistryRetire_eq in E; [|done]. destruct x as [off retired]. destruct E as (ps & tombs & batches & _ & _ & _ & _ & _ & _ & _ & _ & ->). store_simpl.
  rewrite retire_ops_reg. case_decide; [done|]. unfold forget_child, hwmsDropped. store_simpl. rewrite forget_other by done. rewrite own_ops_other by tag_in. by rewrite put_shares_small by tag_in.
Qed.

Lemma revoked_after ulid d : apply_batch (retire_ops ulid) d !! revokedKey ulid = Some (VBytes byte_one).
Proof. rewrite lookup_apply_batch. unfold batch_at, retire_ops. cbn [foldl flip op_at]. rewrite (decide_False (P := regKey ulid = revokedKey ulid)) by done. by rewrite decide_True. Qed.

(** *** The current state *)

(** Records that only take entries away. *)
Definition taking (recs : list Rec) : Prop := Forall (fun r => r_KVPath r = "" \/ r_Delete r = true) recs.

Definition takes (recs : list Rec) (path node topic : string) : Prop := Exists (fun r => r_KVPath r <> "" /\ position_of r = (path, node, topic)) recs.

#[global] Instance takes_dec recs path node topic : Decision (takes recs path node topic).
Proof. unfold takes. apply _. Defined.

Lemma put_taking stream recs s path node topic : taking recs ->
  kvEntry (db (put_records stream recs s)) path node topic = if decide (takes recs path node topic) then None else kvEntry (db s) path node topic.
Proof.
  intros Ht. revert s. induction Ht as [|r recs Hr Ht IH]; intros s; [rewrite decide_False; [done|intros Hx; inversion Hx]|].
  change (put_records stream (r :: recs) s) with (put_records stream recs (put_record stream s r)). rewrite IH.
  assert (Hone : kvEntry (db (put_record stream s r)) path node topic = if decide (r_KVPath r <> "" /\ position_of r = (path, node, topic)) then None else kvEntry (db s) path node topic).
  { unfold kvEntry. rewrite lookup_put by tag_in. rewrite record_ops_kv. unfold position_of. destruct Hr as [Hz|Hd]; [rewrite !decide_False by naive_solver; done|]. rewrite Hd.
    repeat case_decide; try done; naive_solver. }
  rewrite Hone. unfold takes. destruct (decide (Exists _ recs)) as [He|He].
  - rewrite decide_True by (by apply Exists_cons_tl). done.
  - case_decide as Hc; [by rewrite decide_True by (by apply Exists_cons_hd)|]. rewrite decide_False; [done|]. rewrite Exists_cons. tauto.
Qed.

Lemma own_ops_kv rec d path node topic : kvEntry (apply_batch (own_ops rec) d) path node topic
  = if decide (r_KVPath rec <> "" /\ position_of rec = (path, node, topic)) then None else kvEntry d path node topic.
Proof.
  unfold kvEntry. rewrite lookup_apply_batch. unfold own_ops, position_of. case_bool_decide as Hp; cbn [negb]; [by rewrite decide_False by naive_solver|].
  unfold kv_del. assert (Hik : forall ik, kvIndexKey (r_KVPath rec) (r_KVNode rec) (r_Topic rec) = Some ik -> ik <> kvKey path node topic) by (intros ik Hi ->; by apply kvIndexKey_tag in Hi).
  unfold batch_at. destruct (kvIndexKey _ _ _) as [ik|]; cbn [foldl flip op_at]; [rewrite (decide_False (P := ik = _)) by (by apply Hik)|];
    (destruct (decide (kvKey _ _ _ = _)) as [Hq|Hne]; [injection Hq as Hq1 Hq2 Hq3; by rewrite decide_True by (split; congruence)|rewrite decide_False by (intros [_ [= Hq1 Hq2 Hq3]]; apply Hne; congruence); done]).
Qed.

Lemma small_ops_kv ops d path node topic : Forall (fun op => forall k, touches op k = true -> tag k ∈ ["r"; "rv"]) ops -> kvEntry (apply_batch ops d) path node topic = kvEntry d path node topic.
Proof.
  intros Hops. unfold kvEntry. rewrite lookup_apply_batch, batch_at_untouched; [done|]. rewrite Forall_forall in *. intros op Hop.
  destruct (touches op _) eqn:Et; [|done]. apply (Hops op Hop) in Et. revert Et. tag_in.
Qed.

Lemma takes_app l1 l2 path node topic : takes (l1 ++ l2) path node topic <-> takes l1 path node topic \/ takes l2 path node topic.
Proof. apply Exists_app. Qed.

Lemma put_shares_taking batches s path node topic : taking (snd <$> shares_of batches) ->
  kvEntry (db (foldl put_share s batches)) path node topic = if decide (takes (snd <$> shares_of batches) path node topic) then None else kvEntry (db s) path node topic.
Proof.
  revert s. induction batches as [|sr batches IH]; intros s Ht; [rewrite decide_False; [done|intros Hx; inversion Hx]|].
  assert (Hsh : snd <$> shares_of (sr :: batches) = sb_recs sr ++ (snd <$> shares_of batches)).
  { unfold shares_of. rewrite bind_cons, fmap_app. f_equal. rewrite <- list_fmap_compose. by rewrite list_fmap_id. }
  rewrite Hsh in *. apply Forall_app in Ht as [Ht1 Ht2]. cbn [foldl]. rewrite (IH _ Ht2). pose proof (put_taking (sb_stream sr) (sb_recs sr) s path node topic Ht1) as Hp. fold (put_share s sr) in Hp.
  rewrite Hp. pose proof (takes_app (sb_recs sr) (snd <$> shares_of batches) path node topic). repeat case_decide; try done; tauto.
Qed.

Lemma takes_in recs path node topic : takes recs path node topic <-> exists r, r ∈ recs /\ r_KVPath r <> "" /\ position_of r = (path, node, topic).
Proof. unfold takes. apply Exists_exists. Qed.

Lemma RegistryDelete_kv f ulid stream rec also s s' off path node topic : taking also -> RegistryDelete f ulid stream rec also s = (s', Ok off) ->
  kvEntry (db s') path node topic
  = if decide ((r_KVPath rec <> "" /\ position_of rec = (path, node, topic)) \/ takes also path node topic) then None else kvEntry (db s) path node topic.
Proof.
  intros Ht E. apply RegistryDelete_eq in E as (_ & _ & ->). store_simpl. unfold delete_ops. rewrite apply_batch_app. fold (retire_ops ulid). rewrite small_ops_kv by apply retire_ops_small.
  rewrite own_ops_kv. assert (Ht' : taking (without_kv rec :: also)) by (constructor; [by left|done]). rewrite (put_taking _ _ _ _ _ _ Ht').
  assert (Htk : takes (without_kv rec :: also) path node topic <-> takes also path node topic) by (unfold takes; rewrite Exists_cons; cbn; naive_solver).
  repeat case_decide; try done; naive_solver.
Qed.

Lemma elem_of_kvVisitKeys d path node topic : (path, node, topic) ∈ kvVisitKeys d <-> is_Some (d !! kvKey path node topic).
Proof.
  unfold kvVisitKeys. rewrite merge_sort_Permutation, list_elem_of_omap. split.
  - intros ([k v] & Hin%elem_of_map_to_list & E). unfold kv_key in E. cbn [fst] in E. destruct k as [ps sfx]. cbn in E. destruct ps as [|t [|p1 [|n1 [|t1 [|]]]]]; try done. destruct sfx; [done|].
    case_bool_decide; [|done]. injection E as -> -> ->. subst t. by exists v.
  - intros [v Hv]. exists (kvKey path node topic, v). split; [by apply elem_of_map_to_list|done].
Qed.

Lemma elem_of_candidates d rec ret path node topic :
  (path, node, topic) ∈ candidates d rec ret <-> is_Some (d !! kvKey path node topic) /\ own_key rec (path, node, topic) = false /\ cr_StreamOf ret path node topic <> "".
Proof.
  unfold candidates. rewrite list_elem_of_filter, elem_of_kvVisitKeys. cbn [fst snd]. naive_solver.
Qed.

(** What a retirement leaves of the current state: not the identity's own entry, not what
    it authored, and nothing the selection found and that was still there. *)
Lemma RegistryRetire_kv f d ulid stream rec also ret s s' x path node topic : Inv s -> taking also ->
  RegistryRetire f d ulid stream rec also ret s = (s', Ok x) ->
  kvEntry (db s') path node topic
  = if decide ((r_KVPath rec <> "" /\ position_of rec = (path, node, topic)) \/ takes also path node topic
        \/ path <> "" /\ is_Some (d !! kvKey path node topic) /\ cr_StreamOf ret path node topic <> "") then None else kvEntry (db s) path node topic.
Proof.
  intros HI Ht E. apply RegistryRetire_eq in E; [|done]. destruct x as [off retired]. destruct E as (ps & tombs & batches & _ & _ & _ & Hpos & Hf & _ & _ & Hsh & ->). store_simpl.
  rewrite small_ops_kv by apply retire_ops_small. unfold forget_child, hwmsDropped. store_simpl. unfold kvEntry at 1. rewrite forget_other by done. fold (kvEntry (apply_batch (own_ops rec) (db (foldl put_share (set_policies ps s) batches))) path node topic).
  rewrite own_ops_kv. set (recs := snd <$> shares_of batches). assert (Hin : forall r, r ∈ recs <-> r ∈ without_kv rec :: also \/ r ∈ snd <$> tombs).
  { intros r. unfold recs. rewrite list_elem_of_fmap. split.
    - intros ([st r'] & -> & [(r2 & [= -> ->] & Hr)%list_elem_of_fmap | Hr]%Hsh); [by left|]. right. apply list_elem_of_fmap. eauto.
    - intros [Hr | ([st r'] & -> & Hr)%list_elem_of_fmap]; [exists (stream, r); split; [done|]; apply Hsh; left; by apply list_elem_of_fmap_2|]. exists (st, r'). split; [done|]. apply Hsh. by right. }
  assert (Htk : taking recs).
  { apply Forall_forall. intros r [[-> | Hr]%elem_of_cons | (x & -> & Hx)%list_elem_of_fmap]%Hin; [by left| |]; [by apply (proj1 (Forall_forall _ _) Ht)|].
    right. apply (proj1 (Forall_forall _ _) Hf _ Hx). }
  rewrite (put_shares_taking _ _ _ _ _ Htk). store_simpl.
  assert (Htombs : (exists r, r ∈ snd <$> tombs /\ r_KVPath r <> "" /\ position_of r = (path, node, topic)) <-> path <> "" /\ is_Some (kvEntry (db s) path node topic) /\ (path, node, topic) ∈ candidates d rec ret).
  { assert (Hx : forall y, y ∈ (fun x => position_of (snd x)) <$> tombs <-> is_Some (kvEntry (db s) y.1.1 y.1.2 y.2) /\ y ∈ candidates d rec ret) by (intros y; rewrite Hpos, list_elem_of_filter; done).
    specialize (Hx (path, node, topic)). rewrite list_elem_of_fmap in Hx. setoid_rewrite list_elem_of_fmap. cbn in Hx. split.
    - intros (r & (x & -> & Hx1) & Hne & Hp). pose proof Hp as [= Hp1 _ _]. split; [congruence|]. apply Hx. by exists x.
    - intros (Hne & Hk). apply Hx in Hk as (x & Hx1 & Hx2). exists (snd x). split; [by exists x|]. split; [|done]. injection Hx1 as Hx1 _ _. congruence. }
  assert (Hall : takes recs path node topic <-> takes also path node topic \/ path <> "" /\ is_Some (kvEntry (db s) path node topic) /\ (path, node, topic) ∈ candidates d rec ret).
  { rewrite <- Htombs, !takes_in. setoid_rewrite Hin. setoid_rewrite elem_of_cons. split; [|naive_solver]. intros (r & [[-> | Hr] | Hr] & Hne & Hp); [done|left; eauto|right; eauto]. }
  rewrite elem_of_candidates in Hall. destruct (decide (r_KVPath rec <> "" /\ position_of rec = (path, node, topic))) as [Ho|Ho]; [by rewrite decide_True by (by left)|].
  assert (Hown : own_key rec (path, node, topic) = false).
  { unfold own_key. apply not_true_iff_false. rewrite andb_true_iff, negb_true_iff, bool_decide_eq_false, bool_decide_eq_true. intros [Hne Hq]. by apply Ho. }
  destruct (kvEntry (db s) path node topic) as [kv|] eqn:Ek; [|by repeat case_decide]. case_decide as Ha; case_decide as Hb; try done; exfalso; naive_solver.
Qed.

(** What was kept about a retired child is gone, and the identity is marked. *)
Lemma RegistryRetire_child f d ulid stream rec also ret s s' x : Inv s -> RegistryRetire f d ulid stream rec also ret s = (s', Ok x) ->
  (forall st, hwms s' !! (cr_Child ret, st) = None /\ db s' !! hwmKey (cr_Child ret) st = None) /\ adopted s' !! cr_Child ret = None /\ db s' !! childStoreKey (cr_Child ret) = None
  /\ db s' !! revokedKey ulid = Some (VBytes byte_one).
Proof.
  intros HI E. apply RegistryRetire_eq in E; [|done]. destruct x as [off retired]. destruct E as (ps & tombs & batches & _ & _ & _ & _ & _ & _ & _ & _ & ->). cbv zeta.
  set (s2 := set_db (apply_batch (own_ops rec) _) _). set (child := cr_Child ret).
  assert (Hk : forall k, tag k ∈ ["h"; "u"] -> apply_batch (retire_ops ulid) (db (forget_child child s2)) !! k = db (forget_child child s2) !! k).
  { intros k Hk. rewrite lookup_apply_batch. apply batch_at_untouched. pose proof (retire_ops_small ulid) as Hs. rewrite Forall_forall in *. intros op Hop. destruct (touches op k) eqn:Et; [|done].
    apply (Hs op Hop) in Et. by apply (tags_disjoint ["h"; "u"] ["r"; "rv"]) in Hk. }
  store_simpl. split_and!.
  - intros st. split.
    + change (hwms (set_db (apply_batch (retire_ops ulid) (db (forget_child child s2))) (forget_child child s2))) with (base.filter (fun kv => fst (fst kv) <> child) (hwms s2)).
      apply map_lookup_filter_None. right. intros n _. cbn. naive_solver.
    + rewrite Hk by tag_in. unfold forget_child, hwmsDropped. store_simpl. rewrite forget_lookup, decide_False by done.
      assert (in_keys (HwmRange child) (hwmKey child st) = true) as ->; [|done]. cbn. rewrite ?bool_decide_true by done. done.
  - unfold forget_child, hwmsDropped. store_simpl. by apply lookup_delete_None; left.
  - rewrite Hk by tag_in. unfold forget_child, hwmsDropped. store_simpl. rewrite forget_lookup. by rewrite decide_True.
  - apply revoked_after.
Qed.

End registry.
