(* ===== verification/Registry.v ===== *)
(** * The registry of identities

    [internal/registry]: who may use this node. The registry keeps its entries in the
    store ([StoreRegistry]) and in memory, by ULID, by public key and by name; it enrolls,
    drains, revokes and retires identities, each in one batch of the store, and lets a
    local service register itself. The elements an entry binds to are resolved by the
    element index, which also hears of the elements a retired child takes with it.

    The callbacks are outputs of an operation: the sessions to kick, and what is published
    on the bus. Reading the store is taken not to fail. *)

From S2P Require Export StoreRegistry Redelivery Elements.

Open Scope string_scope.
Open Scope list_scope.
Open Scope go_scope.

(** The encoding of an entry. An entry that was read from JSON is read back as itself, also
    when it has become a draining one. *)
Class RegistryCodec := {
  json_entry : string -> option Entry;
  enc_entry : Entry -> string;
  json_service_id : string -> option string;
  json_element_id : string -> option string;
  enc_entry_ok : forall j e, json_entry j = Some e -> json_entry (enc_entry e) = Some e;
  enc_draining_ok : forall j e, json_entry j = Some e -> json_entry (enc_entry (MarkDraining e)) = Some (MarkDraining e);
}.

(** ** State *)

Record Manager := mkManager {
  m_byID : gmap string Entry;
  m_byPK : gmap string string;
  m_byName : gmap string string;
}.

Definition no_identities : Manager := mkManager ∅ ∅ ∅.

(** The registry in its node: the store, what is in memory, the element index once there is
    one, and what the callbacks were told. *)
Record Reg := mkReg {
  rg_store : Store;
  rg_man : Manager;
  rg_ns : option ElementIndex;
  rg_kicks : list string;
  rg_bus : list Publication;
}.

Inductive RegErr :=
  | NotJSON
  | EntryInvalid (err : EntryError)
  | Conflict
  | UnknownElement
  | NotEnrolled
  | NotNode
  | NotChildNode
  | AlreadyDraining
  | NoServiceName
  | NotAuthored
  | StoreFailed (err : StoreErr)
  | Corrupt (ulid : string).

Definition set_rstore (s : Store) (r : Reg) : Reg := mkReg s (rg_man r) (rg_ns r) (rg_kicks r) (rg_bus r).
Definition set_man (m : Manager) (r : Reg) : Reg := mkReg (rg_store r) m (rg_ns r) (rg_kicks r) (rg_bus r).
Definition kick (ulid : string) (r : Reg) : Reg := mkReg (rg_store r) (rg_man r) (rg_ns r) (rg_kicks r ++ [ulid]) (rg_bus r).
Definition deliver (topic payload : string) (r : Reg) : Reg := mkReg (rg_store r) (rg_man r) (rg_ns r) (rg_kicks r) (rg_bus r ++ [mkPub topic payload true]).

Section registry.
Context `{Codec} `{RegistryCodec}.
Variables (nodeID : string) (classOf : string -> Class).

(** ** Indexes in memory *)

Definition index_key (key ulid : string) (m : gmap string string) : gmap string string := if key != "" then <[key := ulid]> m else m.
Definition unindex_key (key : string) (m : gmap string string) : gmap string string := if key != "" then delete key m else m.

Definition add_entry (e : Entry) (m : Manager) : Manager :=
  mkManager (<[ULID e := e]> (m_byID m)) (index_key (Pubkey e) (ULID e) (m_byPK m)) (index_key (Name e) (ULID e) (m_byName m)).

(** [New]: every persisted entry, or an error. *)
Definition load_entry (acc : result RegErr Manager) (x : string * string) : result RegErr Manager :=
  let! m := acc in
  match json_entry (snd x) with
  | None => Err (Corrupt (fst x))
  | Some e => match Validate e with Err err => Err (EntryInvalid err) | Ok _ => Ok (add_entry e m) end
  end.

Definition New (s : Store) : result RegErr Manager := foldl load_entry (Ok no_identities) (map_to_list (RegistryScan (db s))).

(** ** Placement *)

Definition mountOf (ns : option ElementIndex) (e : Entry) : option string :=
  if ElementOf e == "" then None else match ns with None => None | Some x => IndexPathOf x (ElementOf e) end.

Definition identity_path (e : Entry) : string := "_colca/identities/" +:+ ULID e.
Definition topicFor (e : Entry) : string := Prefix topic_root +:+ "_EnrolledIdentity/" +:+ nodeID +:+ "/" +:+ identity_path e.

Definition identity_record (ts : Z) (e : Entry) (payload : string) : Rec :=
  mkRec false (topicFor e) payload ts "" 0 "" "" "" [] "" "" [] "" "" (identity_path e) nodeID false.

(** ** Enroll *)

Definition bound_elsewhere (m : Manager) (e : Entry) : bool :=
  existsb (fun x => (ULID (snd x) != ULID e) && (ElementOf (snd x) == ElementOf e)) (map_to_list (m_byID m)).

(** The checks against the other entries. *)
Definition enroll_check (ns : option ElementIndex) (m : Manager) (e : Entry) : result RegErr () :=
  if (Pubkey e != "") && match m_byPK m !! Pubkey e with Some other => other != ULID e | None => false end then Err Conflict
  else if (Name e != "") && match m_byName m !! Name e with Some other => other != ULID e | None => false end then Err Conflict
  else if ElementOf e == "" then Ok ()
  else if bound_elsewhere m e then Err Conflict
  else match mountOf ns e with None => Err UnknownElement | Some _ => Ok () end.

(** Where delivery starts for an identity that is new here. *)
Definition seat (f : Faults) (ms : N) (may : bool) (cursor : string) (s : Store) : Store :=
  if (1 <? NextOffset s "commands")%N && may then fst (CursorSetIfAbsent f ms cursor "commands" (NextOffset s "commands") s) else s.

Definition reindex (e : Entry) (m : Manager) : Manager :=
  let m := match m_byID m !! ULID e with
           | Some prev => mkManager (m_byID m) (unindex_key (Pubkey prev) (m_byPK m)) (unindex_key (Name prev) (m_byName m))
           | None => m
           end in
  add_entry e m.

Definition Enroll (fput fdown fcmd : Faults) (ms : N) (ts : Z) (entryJSON : string) (r : Reg) : Reg * result RegErr (string * N) :=
  match json_entry entryJSON with
  | None => (r, Err NotJSON)
  | Some e =>
      match Validate e with
      | Err err => (r, Err (EntryInvalid err))
      | Ok _ =>
          match enroll_check (rg_ns r) (rg_man r) e with
          | Err err => (r, Err err)
          | Ok _ =>
              let canonical := enc_entry e in
              match RegistryPut fput (ULID e) canonical "entities" (identity_record ts e canonical) (rg_store r) with
              | (s, Err err) => (set_rstore s r, Err (StoreFailed err))
              | (s, Ok off) =>
                  let s := seat fdown ms (MayUseDoor (Some e) DoorRepl) (DownlinkCursorPrefix +:+ ULID e) s in
                  let s := seat fcmd ms (MayUseDoor (Some e) DoorMQTT) (CommandCursor e) s in
                  let existed := bool_decide (is_Some (m_byID (rg_man r) !! ULID e)) in
                  let r := set_man (reindex e (rg_man r)) (set_rstore s r) in
                  let r := if existed then kick (ULID e) r else r in
                  (deliver (topicFor e) canonical r, Ok (ULID e, off))
              end
          end
      end
  end.

(** ** Revoke and retire *)

Definition ServiceRecordAuthor (contract payload : string) : string :=
  if (contract != "_ServiceDetails") || (payload == "") then "" else default "" (json_service_id payload).

(** [authoredBy]: a tombstone for every record of this node that the identity wrote about
    itself, in key order. *)
Definition authored_one (ts : Z) (ulid : string) (s : Store) (x : string * string * string) : option Rec :=
  match kvEntry (db s) x.1.1 x.1.2 x.2 with
  | Some kv =>
      if x.1.2 != nodeID then None
      else match Parse (k_Topic kv) with
           | Ok p => if ServiceRecordAuthor (Contract p) (k_Payload kv) != ulid then None else Some (tombstone ts x.1.1 x.1.2 (k_Topic kv))
           | Err _ => None
           end
  | None => None
  end.

Definition authoredBy (ts : Z) (ulid : string) (s : Store) : list Rec := omap (authored_one ts ulid s) (kvVisitKeys (db s)).

(** [replicatedBy]: the stream of the tombstone of an entry the child or its subtree
    replicated, empty for every other entry. *)
Definition nested_mounts (ns : option ElementIndex) (m : Manager) (e : Entry) (mount : string) : list string :=
  omap (fun x : string * Entry =>
    if (ULID (snd x) == ULID e) || negb (ReplicatesUp (Some (snd x))) then None
    else match mountOf ns (snd x) with
         | Some om => if UnderMount om mount then Some om else None
         | None => None
         end) (map_to_list (m_byID m)).

Definition in_subtree (ns : option ElementIndex) (m : Manager) (e : Entry) (path node : string) : bool :=
  (node == ULID e)
  || match mountOf ns e with
     | Some mount => UnderMount path mount && negb (existsb (fun om => (path == om) || UnderMount path om) (nested_mounts ns m e mount))
     | None => false
     end.

Definition replicatedBy (ns : option ElementIndex) (m : Manager) (e : Entry) (path node topic : string) : string :=
  if node == nodeID then ""
  else if negb (in_subtree ns m e path node) then ""
  else match Parse topic with
       | Err _ => ""
       | Ok p => if IsNodePrivate (Contract p) then "" else if negb (IsOwnedState (classOf (Contract p))) then "" else StreamFor (classOf (Contract p))
       end.

(** The cursors that go with an identity. *)
Definition dead_cursors (retire : bool) (ulid : string) (e : Entry) (s : Store) : list (string * string) :=
  (DownlinkCursorPrefix +:+ ulid, "commands")
  :: (if MayUseDoor (Some e) DoorMQTT then [(CommandCursor e, "commands")] else [])
  ++ (if retire
      then (DownlinkDefCursorPrefix +:+ ulid, "definitions")
           :: ((fun c => (ci_Name c, ci_Stream c)) <$> base.filter (fun c => HasPrefix (ci_Name c) (CursorPrefix e) = true) (CursorSnapshot (db s)))
      else []).

Fixpoint delete_cursors (fs : string * string -> Faults) (dead : list (string * string)) (s : Store) : Store :=
  match dead with
  | [] => s
  | x :: dead => delete_cursors fs dead (fst (CursorDelete (fs x) (fst x) (snd x) s))
  end.

Definition remove_entry (ulid : string) (e : Entry) (m : Manager) : Manager :=
  mkManager (delete ulid (m_byID m)) (unindex_key (Pubkey e) (m_byPK m)) (unindex_key (Name e) (m_byName m)).

Definition observe_retired (ns : option ElementIndex) (rec : Rec) : option ElementIndex :=
  match ns, Parse (r_Topic rec) with
  | Some x, Ok p => Some (Observe json_element_id x (Contract p) (r_Topic rec) "")
  | _, _ => ns
  end.

(** [revoke], for good when [retire]; [seen] is the state the walk over the keys sees. The
    answer is the offset, whether the entry was draining, and how many replicated records
    were retired. *)
Definition revoke (fdel : Faults) (fcur : string * string -> Faults) (seen : DB) (ts : Z) (retire : bool) (ulid : string) (r : Reg)
    : Reg * result RegErr (N * bool * nat) :=
  match m_byID (rg_man r) !! ulid with
  | None => (r, Err NotEnrolled)
  | Some e =>
      if retire && negb (ReplicatesUp (Some e)) then (r, Err NotChildNode)
      else
        let authored := authoredBy ts ulid (rg_store r) in
        let identity := identity_record ts e "" in
        let '(s, out) :=
          if retire
          then RegistryRetire fdel seen ulid "entities" identity authored (mkChildRetirement ulid (replicatedBy (rg_ns r) (rg_man r) e) ts) (rg_store r)
          else match RegistryDelete fdel ulid "entities" identity authored (rg_store r) with
               | (s, Ok off) => (s, Ok (off, []))
               | (s, Err err) => (s, Err err)
               end in
        match out with
        | Err err => (set_rstore s r, Err (StoreFailed err))
        | Ok (off, retired) =>
            let r := set_man (remove_entry ulid e (rg_man r)) (set_rstore (delete_cursors fcur (dead_cursors retire ulid e s) s) r) in
            let r := deliver (topicFor e) "" (kick ulid r) in
            let r := foldl (fun r rec => deliver (r_Topic rec) "" r) r (authored ++ retired) in
            (mkReg (rg_store r) (rg_man r) (foldl observe_retired (rg_ns r) retired) (rg_kicks r) (rg_bus r),
             Ok (off, IsDraining (Some e), length retired))
        end
  end.

Definition Revoke fdel fcur ts ulid r := revoke fdel fcur (db (rg_store r)) ts false ulid r.
Definition Retire fdel fcur seen ts ulid r := revoke fdel fcur seen ts true ulid r.
(** ** Drain *)

Definition Drain (f : Faults) (ts : Z) (ulid : string) (r : Reg) : Reg * result RegErr N :=
  match m_byID (rg_man r) !! ulid with
  | None => (r, Err NotEnrolled)
  | Some e =>
      if negb (CanDrain (Some e)) then (r, Err NotNode)
      else if IsDraining (Some e) then (r, Err AlreadyDraining)
      else
        let updated := MarkDraining e in
        match Validate updated with
        | Err err => (r, Err (EntryInvalid err))
        | Ok _ =>
            let canonical := enc_entry updated in
            if (ElementOf updated != "") && bool_decide (mountOf (rg_ns r) updated = None) then (r, Err UnknownElement)
            else match RegistryPut f (ULID updated) canonical "entities" (identity_record ts updated canonical) (rg_store r) with
            | (s, Err err) => (set_rstore s r, Err (StoreFailed err))
            | (s, Ok off) =>
                let m := mkManager (<[ulid := updated]> (m_byID (rg_man r))) (m_byPK (rg_man r)) (m_byName (rg_man r)) in
                (deliver (topicFor updated) canonical (set_man m (set_rstore s r)), Ok off)
            end
        end
  end.

(** ** Lookups *)

Definition Get (m : Manager) (ulid : string) : option Entry := m_byID m !! ulid.
Definition ByPubkey (m : Manager) (pubkeyHex : string) : option Entry := match m_byPK m !! pubkeyHex with Some ulid => m_byID m !! ulid | None => None end.
Definition ByName (m : Manager) (name : string) : option Entry := match m_byName m !! name with Some ulid => m_byID m !! ulid | None => None end.

Definition DrainingMount (ns : option ElementIndex) (m : Manager) (path : string) : bool :=
  existsb (fun x => IsDraining (Some (snd x)) && match mountOf ns (snd x) with Some mount => UnderMount path mount | None => false end) (map_to_list (m_byID m)).

Definition RoutesUnder (ns : option ElementIndex) (m : Manager) (path : string) : bool :=
  existsb (fun x => MayUseDoor (Some (snd x)) DoorRepl && match mountOf ns (snd x) with Some mount => UnderMount path mount | None => false end) (map_to_list (m_byID m)).

(** [BoundTo]: sorted. *)
Definition BoundTo (m : Manager) (elementID : string) : list string :=
  if elementID == "" then []
  else merge_sort String.le (omap (fun x : string * Entry => if ElementOf (snd x) == elementID then Some (ULID (snd x)) else None) (map_to_list (m_byID m))).

Definition EntryOf (m : Manager) (ulid : string) : option (string * string) := (fun e => (CatalogueName e, ElementOf e)) <$> m_byID m !! ulid.

Definition List (m : Manager) : list Entry := merge_sort (fun x y => String.le (ULID x) (ULID y)) (snd <$> map_to_list (m_byID m)).

(** [ListPage]: a page after a ULID, and the ULID the next one starts after. *)
Definition ListPage (m : Manager) (after : string) (limit : nat) : list Entry * string :=
  let rest := base.filter (fun e => ~ String.le (ULID e) after) (List m) in
  let entries := take limit rest in
  (entries, if (limit <? length rest)%nat then default "" (ULID <$> last entries) else "").

(** ** Local services *)

(** [author] makes the element of a declared mount, where the node can. *)
Definition elementFor (author : option (string -> Reg -> Reg * option string)) (mount : string) (r : Reg) : Reg * result RegErr string :=
  if mount == "" then (r, Ok "")
  else match author with
  | None => (r, Err NotAuthored)
  | Some author => match author mount r with (r, Some id) => (r, Ok id) | (r, None) => (r, Err NotAuthored) end
  end.

(** [Register]: [minted] is the new ULID. A declared mount of a service that is known is
    only compared for the log. *)
Definition Register (author : option (string -> Reg -> Reg * option string)) (fput fdown fcmd : Faults) (ms : N) (ts : Z) (minted name declaredMount : string) (r : Reg)
    : Reg * result RegErr Entry :=
  if name == "" then (r, Err NoServiceName)
  else match ByName (rg_man r) name with
  | Some e => (r, Ok e)
  | None =>
      match elementFor author declaredMount r with
      | (r, Err err) => (r, Err err)
      | (r, Ok element) =>
          let entry := mkEntry minted "" KindLocal name element [] [] "" "" "" false "" "" in
          match Enroll fput fdown fcmd ms ts (enc_entry entry) r with
          | (r, Err err) => (r, Err err)
          | (r, Ok _) => (r, Ok entry)
          end
      end
  end.

End registry.
