(* ===== verification/RegistrySpec.v ===== *)
(** * The registry of identities: theorems

    The three indexes in memory say the same as the entries in the store, and no two
    entries share a key, a name or an element ([registry_runs]); a restart reads back the
    registry that was there ([registry_restart]); a revoked identity is gone with what it
    wrote about itself, and a retired child with everything it replicated and nothing else
    ([retire_exact]). *)

From S2P Require Export Registry.

Open Scope string_scope.
Open Scope list_scope.
Open Scope go_scope.

Section spec.
Context `{Codec} `{RegistryCodec}.
Variables (nodeID : string) (classOf : string -> Class).

(** ** The invariant *)

(** An index is the inverse of a field of the entries. *)
Definition indexes (field : Entry -> string) (ids : gmap string Entry) (ix : gmap string string) : Prop :=
  forall key ulid, ix !! key = Some ulid <-> key <> "" /\ exists e, ids !! ulid = Some e /\ field e = key.

Record ManInv (m : Manager) : Prop := {
  mi_entry : forall ulid e, m_byID m !! ulid = Some e -> ULID e = ulid /\ Validate e = Ok tt /\ json_entry (enc_entry e) = Some e;
  mi_key : indexes Pubkey (m_byID m) (m_byPK m);
  mi_name : indexes Name (m_byID m) (m_byName m);
  mi_element : forall u1 u2 e1 e2, m_byID m !! u1 = Some e1 -> m_byID m !! u2 = Some e2 -> ElementOf e1 = ElementOf e2 -> ElementOf e1 <> "" -> u1 = u2;
}.

Definition on_disk (s : Store) (m : Manager) : Prop := RegistryScan (db s) = enc_entry <$> m_byID m.

Record RegInv (r : Reg) : Prop := { ri_store : Inv (rg_store r); ri_man : ManInv (rg_man r); ri_disk : on_disk (rg_store r) (rg_man r) }.

Lemma no_identities_inv : ManInv no_identities.
Proof.
  split.
  - intros u e. cbn. by rewrite lookup_empty.
  - intros key u. cbn. rewrite lookup_empty. split; [done|]. intros (_ & e & He & _). by rewrite lookup_empty in He.
  - intros key u. cbn. rewrite lookup_empty. split; [done|]. intros (_ & e & He & _). by rewrite lookup_empty in He.
  - intros u1 u2 e1 e2. cbn. by rewrite lookup_empty.
Qed.

(** One entry of an index comes or goes with its entry. *)
Lemma indexes_remove field ids ix ulid e : indexes field ids ix -> ids !! ulid = Some e -> indexes field (delete ulid ids) (unindex_key (field e) ix).
Proof.
  intros Hix He key u. unfold unindex_key. assert (Hold := Hix key u). case_bool_decide as Hz; cbn [negb].
  - rewrite Hold. split.
    + intros (Hk & e' & He' & Hf). split; [done|]. exists e'. split; [|done]. rewrite lookup_delete_ne; [done|]. intros ->. rewrite He in He'. congruence.
    + intros (Hk & e' & He' & Hf). split; [done|]. exists e'. by apply lookup_delete_Some in He' as [_ He'].
  - rewrite lookup_delete_Some, Hold. split.
    + intros (Hne & Hk & e' & He' & Hf). split; [done|]. exists e'. split; [|done]. rewrite lookup_delete_ne; [done|]. intros ->. rewrite He in He'. congruence.
    + intros (Hk & e' & He' & Hf). apply lookup_delete_Some in He' as [Hu He']. split; [|split; [done|]; by exists e']. intros Hq. apply Hu.
      assert (H1 : ix !! key = Some u) by (apply Hix; eauto). assert (H2 : ix !! key = Some ulid) by (apply Hix; split; [done|]; by exists e). congruence.
Qed.

Lemma indexes_add field ids ix ulid e : indexes field ids ix -> ids !! ulid = None -> (forall u e', ids !! u = Some e' -> field e' = field e -> field e = "") ->
  indexes field (<[ulid := e]> ids) (index_key (field e) ulid ix).
Proof.
  intros Hix Hnew Hfree key u. unfold index_key. case_bool_decide as Hz; cbn [negb].
  - rewrite (Hix key u). split.
    + intros (Hk & e' & He' & Hf). split; [done|]. exists e'. split; [|done]. rewrite lookup_insert_ne; [done|]. intros ->. congruence.
    + intros (Hk & e' & He' & Hf). split; [done|]. apply lookup_insert_Some in He' as [[<- <-]|[Hne He']]; [congruence|by exists e'].
  - rewrite lookup_insert_Some, (Hix key u). split.
    + intros [[<- <-]|(Hne & Hk & e' & He' & Hf)]; [split; [done|]; exists e; by rewrite lookup_insert_eq|]. split; [done|]. exists e'. split; [|done].
      rewrite lookup_insert_ne; [done|]. intros ->. congruence.
    + intros (Hk & e' & He' & Hf). apply lookup_insert_Some in He' as [[<- <-]|[Hne He']]; [by left|]. right. split; [|split; [done|]; by exists e'].
      intros Hq. apply Hz. apply (Hfree u e'); [done|congruence].
Qed.

Lemma insert_over {A} (ids : gmap string A) ulid e : <[ulid := e]> ids = <[ulid := e]> (delete ulid ids).
Proof. apply map_eq. intros u. rewrite !lookup_insert, lookup_delete. by repeat case_decide. Qed.

(** Adding an entry that shares nothing with another. *)
Definition free (m : Manager) (e : Entry) : Prop := forall u e', u <> ULID e -> m_byID m !! u = Some e' ->
  (Pubkey e' = Pubkey e -> Pubkey e = "") /\ (Name e' = Name e -> Name e = "") /\ (ElementOf e' = ElementOf e -> ElementOf e = "").

Lemma add_entry_inv m e : ManInv m -> m_byID m !! ULID e = None -> Validate e = Ok tt -> json_entry (enc_entry e) = Some e -> free m e -> ManInv (add_entry e m).
Proof.
  intros [M1 M2 M3 M4] Hnew Hv Hj Hfree. assert (Hne : forall u e', m_byID m !! u = Some e' -> u <> ULID e) by (intros u e' He' ->; congruence).
  split; cbn [m_byID m_byPK m_byName add_entry].
  - intros u e' [[<- <-]|[_ He']]%lookup_insert_Some; [done|by apply M1].
  - apply indexes_add; [done..|]. intros u e' He'. by apply (Hfree u e' (Hne _ _ He') He').
  - apply indexes_add; [done..|]. intros u e' He'. by apply (Hfree u e' (Hne _ _ He') He').
  - intros u1 u2 e1 e2 [[<- <-]|[N1 E1]]%lookup_insert_Some [[<- <-]|[N2 E2]]%lookup_insert_Some Heq Hz; [done| | |by apply (M4 u1 u2 e1 e2)].
    + exfalso. apply Hz. by apply (Hfree u2 e2 (Hne _ _ E2) E2).
    + exfalso. apply Hz. rewrite Heq. by apply (Hfree u1 e1 (Hne _ _ E1) E1).
Qed.

Lemma remove_entry_inv m ulid e : ManInv m -> m_byID m !! ulid = Some e -> ManInv (remove_entry ulid e m).
Proof.
  intros [M1 M2 M3 M4] He. split; cbn [m_byID m_byPK m_byName remove_entry].
  - intros u e' [_ He']%lookup_delete_Some. by apply M1.
  - by apply indexes_remove.
  - by apply indexes_remove.
  - intros u1 u2 e1 e2 [_ E1]%lookup_delete_Some [_ E2]%lookup_delete_Some. by apply M4.
Qed.

Lemma reindex_eq e m : ManInv m -> reindex e m = add_entry e (match m_byID m !! ULID e with Some prev => remove_entry (ULID e) prev m | None => m end).
Proof.
  intros HM. unfold reindex. destruct (m_byID m !! ULID e) as [prev|]; [|done]. unfold add_entry, remove_entry. cbn [m_byID m_byPK m_byName]. f_equal. apply insert_over.
Qed.

Lemma enroll_check_free ns m e : ManInv m -> enroll_check ns m e = Ok () -> free m e.
Proof.
  intros [M1 M2 M3 M4] Hc u e' Hu He'. unfold enroll_check in Hc. destruct (_ && _) eqn:Ep; [done|]. destruct (_ && _) eqn:En in Hc; [done|]. split_and!.
  - intros Hk. destruct (decide (Pubkey e = "")) as [|Hz]; [done|exfalso]. assert (Hx : m_byPK m !! Pubkey e = Some u) by (apply M2; split; [done|]; by exists e').
    rewrite Hx in Ep. apply andb_false_iff in Ep. rewrite !negb_false_iff, !bool_decide_eq_true in Ep. naive_solver.
  - intros Hk. destruct (decide (Name e = "")) as [|Hz]; [done|exfalso]. assert (Hx : m_byName m !! Name e = Some u) by (apply M3; split; [done|]; by exists e').
    rewrite Hx in En. apply andb_false_iff in En. rewrite !negb_false_iff, !bool_decide_eq_true in En. naive_solver.
  - intros Hk. case_bool_decide as Hz; [done|exfalso]. destruct (bound_elsewhere m e) eqn:Eb; [done|]. unfold bound_elsewhere in Eb.
    apply not_true_iff_false in Eb. apply Eb. rewrite existsb_exists. exists (u, e'). split; [apply list_elem_of_In; by apply elem_of_map_to_list|]. cbn [snd].
    rewrite andb_true_iff, negb_true_iff, bool_decide_eq_false, bool_decide_eq_true. split; [|done]. destruct (M1 _ _ He') as [-> _]. done.
Qed.

Lemma reindex_inv ns m e : ManInv m -> Validate e = Ok tt -> json_entry (enc_entry e) = Some e -> enroll_check ns m e = Ok () -> ManInv (reindex e m).
Proof.
  intros HM Hv Hj Hc. pose proof (enroll_check_free _ _ _ HM Hc) as Hfree. rewrite reindex_eq by done. destruct (m_byID m !! ULID e) as [prev|] eqn:Ep; [|by apply add_entry_inv].
  apply add_entry_inv; [by apply remove_entry_inv|cbn; by apply lookup_delete_None; left|done..|]. intros u e' Hu He'. cbn in He'. apply lookup_delete_Some in He' as [_ He']. by apply (Hfree u e').
Qed.

(** ** Disk and memory *)

Lemma scan_lookup d u : RegistryScan d !! u = match d !! regKey u with Some (VBytes v) => Some v | _ => None end.
Proof.
  destruct (RegistryScan d !! u) as [v|] eqn:E; [by apply registry_scan_Some in E as ->|]. destruct (d !! regKey u) as [v|] eqn:Ev; [|done]. destruct v; try done.
  apply registry_scan_Some in Ev. congruence.
Qed.

Lemma scan_same d d' : (forall u, d' !! regKey u = d !! regKey u) -> RegistryScan d' = RegistryScan d.
Proof. intros Hd. apply map_eq. intros u. by rewrite !scan_lookup, Hd. Qed.

Lemma scan_insert d d' ulid v : (forall u, d' !! regKey u = if decide (u = ulid) then Some (VBytes v) else d !! regKey u) -> RegistryScan d' = <[ulid := v]> (RegistryScan d).
Proof. intros Hd. apply map_eq. intros u. rewrite lookup_insert, !scan_lookup, Hd. repeat case_decide; try done; congruence. Qed.

Lemma scan_delete d d' ulid : (forall u, d' !! regKey u = if decide (u = ulid) then None else d !! regKey u) -> RegistryScan d' = delete ulid (RegistryScan d).
Proof. intros Hd. apply map_eq. intros u. rewrite lookup_delete, !scan_lookup, Hd. repeat case_decide; try done; congruence. Qed.

(** What only moves cursors leaves the registry alone. *)
Lemma cursor_only_reg s s' u : cursor_only s s' -> db s' !! regKey u = db s !! regKey u.
Proof. intros (d & -> & Hd). store_simpl. apply Hd. apply (tags_disjoint ["r"] cursor_tags); [done|]. by left. Qed.

Lemma seat_only f ms may cursor s : cursor_only s (seat f ms may cursor s).
Proof. unfold seat. destruct (_ && _); [apply CursorSetIfAbsent_only|apply cursor_only_refl]. Qed.

Lemma cursor_only_trans s1 s2 s3 : cursor_only s1 s2 -> cursor_only s2 s3 -> cursor_only s1 s3.
Proof. intros (d1 & -> & H1') (d2 & -> & H2'). exists d2. split; [by destruct s1|]. intros k Hk. rewrite H2' by done. store_simpl. by apply H1'. Qed.

Lemma delete_cursors_only fs dead s : cursor_only s (delete_cursors fs dead s).
Proof.
  revert s. induction dead as [|x dead IH]; intros s; [apply cursor_only_refl|]. cbn [delete_cursors]. eapply cursor_only_trans; [apply CursorDelete_only|apply IH].
Qed.

(** ** Every operation keeps the invariant *)

Lemma Enroll_inv fput fdown fcmd ms ts j r : RegInv r -> RegInv (fst (Enroll nodeID fput fdown fcmd ms ts j r)).
Proof.
  intros [HI HM HD]. unfold Enroll. destruct (json_entry j) as [e|] eqn:Ej; [|done]. destruct (Validate e) as [[]|] eqn:Ev; [|done].
  destruct (enroll_check (rg_ns r) (rg_man r) e) as [[]|] eqn:Ec; [|done]. pose proof (enc_entry_ok _ _ Ej) as Hj.
  pose proof (RegistryPut_inv fput (ULID e) (enc_entry e) "entities" (identity_record nodeID ts e (enc_entry e)) _ HI) as HI1.
  destruct (RegistryPut _ _ _ _ _ _) as [s [off|err]] eqn:Ep; cbn [fst] in HI1.
  2: { apply RegistryPut_eq in Ep as ->. by destruct r. }
  cbn [fst]. set (s2 := seat fcmd _ _ _ _). assert (Hc : cursor_only s s2) by (eapply cursor_only_trans; apply seat_only).
  assert (Hs : rg_store (deliver (topicFor nodeID e) (enc_entry e) (if bool_decide (is_Some (m_byID (rg_man r) !! ULID e)) then kick (ULID e) (set_man (reindex e (rg_man r)) (set_rstore s2 r)) else set_man (reindex e (rg_man r)) (set_rstore s2 r))) = s2
    /\ rg_man (deliver (topicFor nodeID e) (enc_entry e) (if bool_decide (is_Some (m_byID (rg_man r) !! ULID e)) then kick (ULID e) (set_man (reindex e (rg_man r)) (set_rstore s2 r)) else set_man (reindex e (rg_man r)) (set_rstore s2 r))) = reindex e (rg_man r)) by (by case_bool_decide).
  destruct Hs as [Hs Hm]. split; rewrite ?Hs, ?Hm.
  - by apply (cursor_only_inv s).
  - by apply (reindex_inv (rg_ns r)).
  - unfold on_disk. rewrite (scan_same (db s)) by (intros u; by apply cursor_only_reg). rewrite (scan_insert (db (rg_store r)) (db s) (ULID e) (enc_entry e)) by (intros u; by eapply RegistryPut_reg).
    rewrite HD, reindex_eq by done. destruct (m_byID (rg_man r) !! ULID e) as [prev|]; cbn [m_byID add_entry remove_entry]; [rewrite <- insert_over|]; by rewrite fmap_insert.
Qed.

Lemma draining_index (field : Entry -> string) (ids : gmap string Entry) ulid e key u : ids !! ulid = Some e -> field (MarkDraining e) = field e ->
  (key <> "" /\ (exists x, ids !! u = Some x /\ field x = key)) <-> (key <> "" /\ (exists x, <[ulid := MarkDraining e]> ids !! u = Some x /\ field x = key)).
Proof.
  intros He Hf. apply and_iff_compat_l. setoid_rewrite lookup_insert. case_decide as Hu; [subst u|done]. rewrite He. split; [intros (x & [= <-] & Hx)|intros (x & [= <-] & Hx)]; eexists; split; [done|congruence|done|congruence].
Qed.

Lemma Drain_inv f ts ulid r : RegInv r -> RegInv (fst (Drain nodeID f ts ulid r)).
Proof.
  intros [HI HM HD]. unfold Drain. destruct (m_byID (rg_man r) !! ulid) as [e|] eqn:Ee; [|done]. destruct (negb _); [done|]. destruct (IsDraining _); [done|].
  destruct (Validate (MarkDraining e)) as [[]|] eqn:Ev; [|done]. destruct (_ && _); [done|]. set (e' := MarkDraining e) in *.
  pose proof (RegistryPut_inv f (ULID e') (enc_entry e') "entities" (identity_record nodeID ts e' (enc_entry e')) _ HI) as HI1.
  destruct (RegistryPut _ _ _ _ _ _) as [s [off|err]] eqn:Ep; cbn [fst] in HI1.
  2: { apply RegistryPut_eq in Ep as ->. by destruct r. }
  destruct (mi_entry _ HM _ _ Ee) as (Hu & _ & Hj). change (ULID e') with (ULID e) in *. rewrite Hu in *. cbn [fst]. split; cbn [rg_store rg_man deliver set_man set_rstore].
  - done.
  - destruct HM as [M1 M2 M3 M4]. split; cbn [m_byID m_byPK m_byName].
    + intros u x [[<- <-]|[_ Hx]]%lookup_insert_Some; [|by apply M1]. split_and!; [done..|]. by apply (enc_draining_ok _ _ Hj).
    + intros key u. rewrite (M2 key u). apply (draining_index Pubkey _ _ _ _ _ Ee). done.
    + intros key u. rewrite (M3 key u). apply (draining_index Name _ _ _ _ _ Ee). done.
    + intros u1 u2 e1 e2 E1 E2 Heq Hz. assert (Hold : forall u x, <[ulid := e']> (m_byID (rg_man r)) !! u = Some x -> exists y, m_byID (rg_man r) !! u = Some y /\ ElementOf y = ElementOf x).
      { intros u x [[<- <-]|[_ Hx]]%lookup_insert_Some; [by exists e|by exists x]. }
      destruct (Hold _ _ E1) as (y1 & Y1 & Z1), (Hold _ _ E2) as (y2 & Y2 & Z2). apply (M4 u1 u2 y1 y2); [done..|congruence|congruence].
  - unfold on_disk. cbn [m_byID]. rewrite (scan_insert (db (rg_store r)) (db s) ulid (enc_entry e')) by (intros u; by apply (RegistryPut_reg _ _ _ _ _ _ _ _ u Ep)).
    by rewrite HD, fmap_insert.
Qed.

Lemma foldl_deliver recs r : rg_store (foldl (fun r rec => deliver (r_Topic rec) "" r) r recs) = rg_store r /\ rg_man (foldl (fun r rec => deliver (r_Topic rec) "" r) r recs) = rg_man r
  /\ rg_ns (foldl (fun r rec => deliver (r_Topic rec) "" r) r recs) = rg_ns r.
Proof. revert r. induction recs as [|rec recs IH]; intros r; [done|]. cbn [foldl]. destruct (IH (deliver (r_Topic rec) "" r)) as (-> & -> & ->). done. Qed.

Lemma revoke_inv fdel fcur seen ts retire ulid r : RegInv r -> RegInv (fst (revoke nodeID classOf fdel fcur seen ts retire ulid r)).
Proof.
  intros [HI HM HD]. unfold revoke. destruct (m_byID (rg_man r) !! ulid) as [e|] eqn:Ee; [|done]. destruct (_ && _); [done|]. cbv zeta.
  set (authored := authoredBy _ _ _ _). set (identity := identity_record _ _ _ _). set (ret := mkChildRetirement _ _ _).
  assert (Hone : forall s out, (if retire then RegistryRetire fdel seen ulid "entities" identity authored ret (rg_store r)
      else match RegistryDelete fdel ulid "entities" identity authored (rg_store r) with (s, Ok off) => (s, Ok (off, [])) | (s, Err err) => (s, Err err) end) = (s, out) ->
      Inv s /\ forall u, db s !! regKey u = match out with Ok _ => if decide (u = ulid) then None else db (rg_store r) !! regKey u | Err _ => db (rg_store r) !! regKey u end).
  { intros s out. destruct retire.
    - intros E. pose proof (RegistryRetire_inv fdel seen ulid "entities" identity authored ret _ HI) as HI1. rewrite E in HI1. split; [exact HI1|]. intros u. destruct out as [x|err].
      + by apply (RegistryRetire_reg _ _ _ _ _ _ _ _ _ _ u HI E).
      + apply RegistryRetire_eq in E as (ps & _ & ->); [|done]. done.
    - pose proof (RegistryDelete_inv fdel ulid "entities" identity authored _ HI) as HI1. destruct (RegistryDelete _ _ _ _ _ _) as [s0 [off|err]] eqn:E; intros [= <- <-]; (split; [exact HI1|]); intros u.
      + by apply (RegistryDelete_reg _ _ _ _ _ _ _ _ u E).
      + by apply RegistryDelete_eq in E as ->. }
  destruct (if retire then _ else _) as [s out] eqn:E. destruct (Hone s out eq_refl) as [HI1 Hreg]. destruct out as [[off retired]|err]; cbn [fst].
  2: { split; cbn [rg_store rg_man set_rstore]; [done..|]. unfold on_disk. by rewrite (scan_same (db (rg_store r))). }
  set (r1 := deliver _ _ _). destruct (foldl_deliver (authored ++ retired) r1) as (Hst & Hmn & _). pose proof (delete_cursors_only fcur (dead_cursors retire ulid e s) s) as Hc.
  split; cbn [rg_store rg_man]; rewrite ?Hst, ?Hmn; cbn [rg_store rg_man deliver kick set_man set_rstore r1].
  - by apply (cursor_only_inv s).
  - by apply remove_entry_inv.
  - unfold on_disk. rewrite (scan_same (db s)) by (intros u; by apply cursor_only_reg). rewrite (scan_delete (db (rg_store r)) (db s) ulid) by done. cbn [m_byID remove_entry].
    by rewrite HD, fmap_delete.
Qed.

(** ** A restart *)

Lemma indexes_unique field ids ix1 ix2 : indexes field ids ix1 -> indexes field ids ix2 -> ix1 = ix2.
Proof.
  intros I1 I2. apply map_eq. intros key. destruct (ix1 !! key) as [u|] eqn:E1.
  - symmetry. apply I2, I1, E1.
  - destruct (ix2 !! key) as [u|] eqn:E2; [|done]. apply I2, I1 in E2. congruence.
Qed.

Lemma man_unique m1 m2 : ManInv m1 -> ManInv m2 -> m_byID m1 = m_byID m2 -> m1 = m2.
Proof.
  intros [_ K1 N1 _] [_ K2 N2 _] Heq. destruct m1 as [i1 k1 n1], m2 as [i2 k2 n2]. cbn in *. subst i2. f_equal; by eapply indexes_unique.
Qed.

(** Two entries of one registry share nothing. *)
Lemma man_free M m u e : ManInv M -> (forall u e, m_byID m !! u = Some e -> m_byID M !! u = Some e) -> m_byID M !! u = Some e -> free m e.
Proof.
  intros [M1 M2 M3 M4] Hsub He u' e' Hne He'. apply Hsub in He'. destruct (M1 _ _ He) as [Hu _]. split_and!; intros Hf.
  - destruct (decide (Pubkey e = "")) as [|Hz]; [done|]. exfalso. apply Hne. rewrite Hu.
    assert (A : m_byPK M !! Pubkey e = Some u) by (apply M2; split; [done|]; by exists e). assert (B : m_byPK M !! Pubkey e = Some u') by (apply M2; split; [done|]; by exists e'). congruence.
  - destruct (decide (Name e = "")) as [|Hz]; [done|]. exfalso. apply Hne. rewrite Hu.
    assert (A : m_byName M !! Name e = Some u) by (apply M3; split; [done|]; by exists e). assert (B : m_byName M !! Name e = Some u') by (apply M3; split; [done|]; by exists e'). congruence.
  - destruct (decide (ElementOf e = "")) as [|Hz]; [done|]. exfalso. apply Hne. rewrite Hu. apply (M4 u' u e' e); [done..|congruence].
Qed.

Lemma load_all M l m : ManInv M -> NoDup (fst <$> l) -> (forall x, x ∈ l -> exists e, m_byID M !! fst x = Some e /\ snd x = enc_entry e) -> ManInv m ->
  (forall u e, m_byID m !! u = Some e -> m_byID M !! u = Some e /\ u ∉ fst <$> l) ->
  exists m', foldl load_entry (Ok m) l = Ok m' /\ ManInv m' /\ forall u, m_byID m' !! u = if decide (u ∈ fst <$> l) then m_byID M !! u else m_byID m !! u.
Proof.
  intros HM. revert m. induction l as [|[u raw] l IH]; intros m Hnd Hl Hm Hsub; [by exists m|]. rewrite fmap_cons in Hnd. apply NoDup_cons in Hnd as [Hnin Hnd]. cbn [fst] in Hnin.
  destruct (Hl (u, raw)) as (e & He & Hraw); [by left|]. cbn [fst snd] in He, Hraw. subst raw. destruct (mi_entry _ HM _ _ He) as (Hu & Hv & Hj).
  assert (Hnew : m_byID m !! ULID e = None).
  { rewrite Hu. destruct (m_byID m !! u) as [x|] eqn:Ex; [|done]. apply Hsub in Ex as [_ Ex]. exfalso. apply Ex. by left. }
  assert (Hadd : ManInv (add_entry e m)) by (apply add_entry_inv; [done..|]; apply (man_free M m u e); [done| |done]; intros u' e' He'; by apply Hsub).
  destruct (IH (add_entry e m) Hnd) as (m' & Hm' & HI' & Hlook).
  - intros x Hx. apply Hl. by right.
  - done.
  - intros u' e' He'. cbn in He'. apply lookup_insert_Some in He' as [[<- <-]|[Hne He']]; [by rewrite Hu|]. apply Hsub in He' as [He' Hn]. split; [done|]. rewrite fmap_cons, not_elem_of_cons in Hn. by destruct Hn.
  - exists m'. split; [cbn [foldl load_entry snd]; by rewrite Hj, Hv|]. split; [done|]. intros u'. rewrite Hlook, fmap_cons. cbn [m_byID add_entry fst]. rewrite lookup_insert, Hu.
    destruct (decide (u' ∈ fst <$> l)) as [Hin|Hin]; [by rewrite decide_True by (by right)|]. case_decide as Hq; [subst u'; by rewrite decide_True by (by left)|].
    rewrite decide_False; [done|]. rewrite elem_of_cons. naive_solver.
Qed.

(** What was there is read back. *)
Lemma New_ok r : RegInv r -> New (rg_store r) = Ok (rg_man r).
Proof.
  intros [HI HM HD]. unfold New. rewrite HD. destruct (load_all (rg_man r) (map_to_list (enc_entry <$> m_byID (rg_man r))) no_identities) as (m' & -> & HM' & Hlook).
  - done.
  - apply NoDup_fst_map_to_list.
  - intros [u raw] Hx%elem_of_map_to_list. cbn [fst snd]. apply lookup_fmap_Some in Hx as (e & <- & He). by exists e.
  - apply no_identities_inv.
  - intros u e. cbn. by rewrite lookup_empty.
  - f_equal. apply man_unique; [done..|]. apply map_eq. intros u. rewrite Hlook. case_decide as Hin; [done|]. cbn. rewrite lookup_empty. destruct (m_byID (rg_man r) !! u) as [e|] eqn:Ee; [|done].
    exfalso. apply Hin. apply list_elem_of_fmap. exists (u, enc_entry e). split; [done|]. apply elem_of_map_to_list. by rewrite lookup_fmap, Ee.
Qed.

(** ** Runs *)

(** Authoring an element writes to the store, and not to the registry. *)
Definition author_ok (author : string -> Reg -> Reg * option string) : Prop := forall mount r, Inv (rg_store r) ->
  Inv (rg_store (fst (author mount r))) /\ rg_man (fst (author mount r)) = rg_man r
  /\ forall u, db (rg_store (fst (author mount r))) !! regKey u = db (rg_store r) !! regKey u.

Lemma same_registry_inv r r' : RegInv r -> Inv (rg_store r') -> rg_man r' = rg_man r -> (forall u, db (rg_store r') !! regKey u = db (rg_store r) !! regKey u) -> RegInv r'.
Proof. intros [HI HM HD] HI' Hm Hd. split; [done|by rewrite Hm|]. unfold on_disk. by rewrite Hm, (scan_same (db (rg_store r))). Qed.

Lemma Register_inv author fput fdown fcmd ms ts minted name mount r : (forall f, author = Some f -> author_ok f) -> RegInv r ->
  RegInv (fst (Register nodeID author fput fdown fcmd ms ts minted name mount r)).
Proof.
  intros Ha HR. unfold Register. case_bool_decide; [done|]. destruct (ByName _ _); [done|].
  assert (HR1 : RegInv (fst (elementFor author mount r))).
  { unfold elementFor. case_bool_decide; [done|]. destruct author as [f|]; [|done]. destruct (Ha f eq_refl mount r) as (A1 & A2 & A3); [apply HR|].
    assert (HRf : RegInv (fst (f mount r))) by by apply (same_registry_inv r). by destruct (f mount r) as [r1 [x|]]. }
  destruct (elementFor author mount r) as [r1 [el|err]]; [|done]. cbn [fst] in HR1. set (j := enc_entry _).
  pose proof (Enroll_inv fput fdown fcmd ms ts j r1 HR1) as HR2. by destruct (Enroll _ _ _ _ _ _ j r1) as [r2 [x|err]].
Qed.

(** A call of the registry, anything else the node does, or a restart of the process. *)
Inductive rstep : Reg -> Reg -> Prop :=
  | step_enroll fput fdown fcmd ms ts j r : rstep r (fst (Enroll nodeID fput fdown fcmd ms ts j r))
  | step_register author fput fdown fcmd ms ts minted name mount r : (forall f, author = Some f -> author_ok f) ->
      rstep r (fst (Register nodeID author fput fdown fcmd ms ts minted name mount r))
  | step_drain f ts ulid r : rstep r (fst (Drain nodeID f ts ulid r))
  | step_revoke fdel fcur ts ulid r : rstep r (fst (Revoke nodeID classOf fdel fcur ts ulid r))
  | step_retire fdel fcur seen ts ulid r : rstep r (fst (Retire nodeID classOf fdel fcur seen ts ulid r))
  | step_node s ns r : Inv s -> (forall u, db s !! regKey u = db (rg_store r) !! regKey u) -> rstep r (mkReg s (rg_man r) ns (rg_kicks r) (rg_bus r))
  | step_restart f mint s m r : Open f mint (db (rg_store r)) = Ok s -> New s = Ok m -> rstep r (mkReg s m None [] []).

Lemma restart_same f mint r : RegInv r -> exists s, Open f mint (db (rg_store r)) = Ok s /\ New s = Ok (rg_man r) /\ RegInv (mkReg s (rg_man r) None [] []).
Proof.
  intros HR. destruct (Open_ok f mint (rg_store r) (ri_store _ HR)) as (s & E & Hd & _ & _ & HI & _). exists s. split; [done|].
  assert (HR' : RegInv (mkReg s (rg_man r) None [] [])) by (apply (same_registry_inv r); [done..|cbn; by rewrite Hd]). split; [apply (New_ok _ HR')|done].
Qed.

Lemma rstep_inv r r' : rstep r r' -> RegInv r -> RegInv r'.
Proof.
  intros Hs HR. destruct Hs; [by apply Enroll_inv|by apply Register_inv|by apply Drain_inv|by apply revoke_inv|by apply revoke_inv|by apply (same_registry_inv r)|].
  match goal with Ho : Open f mint _ = Ok s, Hn : New s = Ok m |- _ => destruct (restart_same f mint r HR) as (s1 & E1 & E2 & HR1); rewrite Ho in E1; injection E1 as <-; rewrite Hn in E2; by injection E2 as -> end.
Qed.

Lemma runs_inv r r' : rtc rstep r r' -> RegInv r -> RegInv r'.
Proof. induction 1 as [|r1 r2 r3 Hs _ IH]; [done|]. intros HR. apply IH. by apply (rstep_inv r1). Qed.

Definition fresh_registry (mint : string) (ns : option ElementIndex) : Reg := mkReg (StoreOpen.fresh mint) no_identities ns [] [].

Lemma fresh_registry_inv mint ns : RegInv (fresh_registry mint ns).
Proof.
  split; cbn; [apply fresh_inv|apply no_identities_inv|]. unfold on_disk. cbn. rewrite fmap_empty. apply map_eq. intros u. rewrite scan_lookup, lookup_empty, fresh_lookup.
  by rewrite decide_False.
Qed.

(** C17: In every run of a registry from its first start (enrolments, self-registrations,
    drains, revocations and retirements in any order, failing writes, whatever else the
    node stores meanwhile, restarts) the registry is consistent: an entry is found under
    its own ULID, its key and its name and under nothing else; no two identities share a
    key, a name or an element; every entry is valid; and reopening the store gives exactly
    this registry back. *)
Theorem registry_runs mint ns r : rtc rstep (fresh_registry mint ns) r ->
  (forall u e, Get (rg_man r) u = Some e -> ULID e = u /\ Validate e = Ok tt
     /\ (Pubkey e <> "" -> ByPubkey (rg_man r) (Pubkey e) = Some e) /\ (Name e <> "" -> ByName (rg_man r) (Name e) = Some e))
  /\ (forall pk e, ByPubkey (rg_man r) pk = Some e -> Pubkey e = pk /\ pk <> "" /\ Get (rg_man r) (ULID e) = Some e)
  /\ (forall name e, ByName (rg_man r) name = Some e -> Name e = name /\ name <> "" /\ Get (rg_man r) (ULID e) = Some e)
  /\ (forall u1 u2 e1 e2, Get (rg_man r) u1 = Some e1 -> Get (rg_man r) u2 = Some e2 -> u1 <> u2 ->
        (Pubkey e1 = Pubkey e2 -> Pubkey e1 = "") /\ (Name e1 = Name e2 -> Name e1 = "") /\ (ElementOf e1 = ElementOf e2 -> ElementOf e1 = ""))
  /\ forall f mint', exists s, Open f mint' (db (rg_store r)) = Ok s /\ New s = Ok (rg_man r).
Proof.
  intros Hr. pose proof (runs_inv _ _ Hr (fresh_registry_inv mint ns)) as HR. pose proof (ri_man _ HR) as HM. pose proof HM as [M1 M2 M3 M4].
  assert (Hpk : forall u e key, Get (rg_man r) u = Some e -> key = Pubkey e -> key <> "" -> m_byPK (rg_man r) !! key = Some u) by (intros u e key He -> Hz; apply M2; split; [done|]; by exists e).
  assert (Hnm : forall u e key, Get (rg_man r) u = Some e -> key = Name e -> key <> "" -> m_byName (rg_man r) !! key = Some u) by (intros u e key He -> Hz; apply M3; split; [done|]; by exists e).
  split_and!.
  - intros u e He. destruct (M1 _ _ He) as (Hu & Hv & _). split_and!; [done..| |]; intros Hz; [unfold ByPubkey; by rewrite (Hpk _ _ _ He eq_refl Hz)|unfold ByName; by rewrite (Hnm _ _ _ He eq_refl Hz)].
  - intros pk e. unfold ByPubkey. destruct (m_byPK (rg_man r) !! pk) as [u|] eqn:Eu; [|done]. intros He. apply M2 in Eu as (Hz & e' & He' & Hf). destruct (M1 _ _ He) as (-> & _). split_and!; [congruence|done|exact He].
  - intros name e. unfold ByName. destruct (m_byName (rg_man r) !! name) as [u|] eqn:Eu; [|done]. intros He. apply M3 in Eu as (Hz & e' & He' & Hf). destruct (M1 _ _ He) as (-> & _). split_and!; [congruence|done|exact He].
  - intros u1 u2 e1 e2 E1 E2 Hne. destruct (M1 _ _ E1) as (Hu1 & _). destruct (man_free (rg_man r) (rg_man r) u1 e1 HM (fun _ _ x => x) E1 u2 e2) as (A & B & C); [congruence|done|]. split_and!; intros Heq; [apply A|apply B|apply C]; congruence.
  - intros f mint'. destruct (restart_same f mint' r HR) as (s & E1 & E2 & _). by exists s.
Qed.

(** What the registry promises to the readers of cursors: two of its identities never own
    one cursor, where ULIDs are single segments other than the head of local cursors. *)
Lemma registered_isolated r u1 u2 e1 e2 cursor : RegInv r -> Get (rg_man r) u1 = Some e1 -> Get (rg_man r) u2 = Some e2 -> segment_identity e1 -> segment_identity e2 ->
  OwnsCursor (Some e1) cursor = true -> OwnsCursor (Some e2) cursor = true -> u1 = u2.
Proof.
  intros HR E1 E2 S1 S2 O1 O2. pose proof (cursor_isolation _ _ _ S1 S2 O1 O2) as Hp. destruct (ri_man _ HR) as [M1 M2 M3 M4]. destruct (M1 _ _ E1) as (U1 & V1 & _), (M1 _ _ E2) as (U2 & V2 & _).
  destruct (CursorPrefix_Split _ _ S1 (OwnsCursor_prefix _ _ O1)) as (l1 & _ & Hs1), (CursorPrefix_Split _ _ S2 (OwnsCursor_prefix _ _ O2)) as (l2 & _ & Hs2). rewrite Hs1 in Hs2.
  unfold segment_identity, CursorPrefix in *. case_bool_decide as K1; case_bool_decide as K2; cbn in Hs2; [|destruct S2; congruence|destruct S1; congruence|congruence].
  assert (Hn : Name e1 = Name e2) by congruence. assert (Hz : Name e1 <> "").
  { unfold Validate in V1. case_bool_decide; [done|]. destruct (validate_kind e1) as [[]|] eqn:Hk; [|done]. apply validate_kind_Ok in Hk as (_ & _ & Hk). by apply Hk. }
  assert (A : m_byName (rg_man r) !! Name e1 = Some u1) by (apply M3; split; [done|]; by exists e1). assert (B : m_byName (rg_man r) !! Name e1 = Some u2) by (apply M3; split; [done|]; by exists e2). congruence.
Qed.

(** ** Retiring a child *)

(** A record of this node that the identity wrote about itself. *)
Definition wrote (s : Store) (ulid path node topic : string) : Prop := node = nodeID /\ exists kv p, kvEntry (db s) path node topic = Some kv
  /\ Parse topic = Ok p /\ ServiceRecordAuthor (Contract p) (k_Payload kv) = ulid.

Lemma kv_own_topic s path node topic kv : Inv s -> kvEntry (db s) path node topic = Some kv -> k_Topic kv = topic.
Proof.
  intros HI. unfold kvEntry. destruct (db s !! kvKey path node topic) as [v|] eqn:Ev; [|done]. destruct (kv_entries _ _ (inv_kv s HI) _ _ _ _ Ev) as (e & -> & Ht & _). by intros [= <-].
Qed.

Lemma authored_taking ts ulid s : taking (authoredBy nodeID ts ulid s).
Proof.
  apply Forall_forall. intros rec ([[path node] topic] & _ & E)%list_elem_of_omap. unfold authored_one in E. destruct (kvEntry _ _ _ _) as [kv|]; [|done].
  destruct (negb _); [done|]. destruct (Parse _); [|done]. destruct (negb _); [done|]. injection E as <-. by right.
Qed.

Lemma authored_takes ts ulid s path node topic : Inv s -> takes (authoredBy nodeID ts ulid s) path node topic <-> path <> "" /\ wrote s ulid path node topic.
Proof.
  intros HI. rewrite takes_in. unfold authoredBy. setoid_rewrite list_elem_of_omap. split.
  - intros (rec & ([[p0 n0] t0] & _ & E) & Hz & Hpos). unfold authored_one in E. cbn [fst snd] in E. destruct (kvEntry (db s) p0 n0 t0) as [kv|] eqn:Ek; [|done]. pose proof (kv_own_topic _ _ _ _ _ HI Ek) as Ht.
    case_bool_decide as Hn; [|done]. cbn [negb] in E. rewrite Ht in E. destruct (Parse t0) as [p|] eqn:Ep; [|done]. case_bool_decide as Hw; [|done]. cbn [negb] in E. injection E as <-.
    injection Hpos as -> -> ->. split; [done|]. split; [done|]. by exists kv, p.
  - intros (Hz & -> & kv & p & Ek & Ep & Hw). exists (tombstone ts path nodeID topic). split; [|by split]. exists (path, nodeID, topic). pose proof (kv_own_topic _ _ _ _ _ HI Ek) as Ht. split.
    + apply elem_of_kvVisitKeys. unfold kvEntry in Ek. by destruct (db s !! kvKey path nodeID topic).
    + unfold authored_one. cbn [fst snd]. rewrite Ek, bool_decide_true by done. cbn [negb]. rewrite Ht, Ep, Hw, bool_decide_true by done. done.
Qed.

(** What a child and the nodes below it replicated here: state of the classes a parent
    keeps, not this node's own, written by the child itself or standing below its mount,
    unless it stands at or below the mount of another child that is mounted there. *)
Definition shadowed (r : Reg) (e : Entry) (mount path : string) : Prop := exists u other om,
  Get (rg_man r) u = Some other /\ u <> ULID e /\ Kind other = KindNode /\ mountOf (rg_ns r) other = Some om /\ UnderMount om mount = true /\ (path = om \/ UnderMount path om = true).

Definition belongs (r : Reg) (e : Entry) (path node topic : string) : Prop :=
  node <> nodeID
  /\ (node = ULID e \/ exists mount, mountOf (rg_ns r) e = Some mount /\ UnderMount path mount = true /\ ~ shadowed r e mount path)
  /\ exists p, Parse topic = Ok p /\ IsNodePrivate (Contract p) = false /\ (classOf (Contract p) = ClassData \/ classOf (Contract p) = ClassEntity).

Lemma in_nested r e mount om : RegInv r -> om ∈ nested_mounts (rg_ns r) (rg_man r) e mount
  <-> exists u other, Get (rg_man r) u = Some other /\ u <> ULID e /\ Kind other = KindNode /\ mountOf (rg_ns r) other = Some om /\ UnderMount om mount = true.
Proof.
  intros HR. unfold nested_mounts. rewrite list_elem_of_omap. split.
  - intros ([u other] & Hin%elem_of_map_to_list & E). cbn [snd] in E. destruct (mi_entry _ (ri_man _ HR) _ _ Hin) as (Hu & _). destruct (_ || _) eqn:Eb; [done|].
    apply orb_false_iff in Eb as [Hne%bool_decide_eq_false Hk%negb_false_iff%bool_decide_eq_true]. destruct (mountOf (rg_ns r) other) as [om'|] eqn:Em; [|done].
    destruct (UnderMount om' mount) eqn:Eu; [|done]. injection E as <-. exists u, other. by split_and!; [|congruence|..].
  - intros (u & other & Hg & Hne & Hk & Hm & Hu). exists (u, other). split; [by apply elem_of_map_to_list|]. cbn [snd]. destruct (mi_entry _ (ri_man _ HR) _ _ Hg) as (Hq & _).
    rewrite bool_decide_false by congruence. cbn [ReplicatesUp with_entry]. rewrite bool_decide_true by done. cbn [orb negb]. by rewrite Hm, Hu.
Qed.

Lemma in_subtree_spec r e path node : RegInv r -> in_subtree (rg_ns r) (rg_man r) e path node = true
  <-> node = ULID e \/ exists mount, mountOf (rg_ns r) e = Some mount /\ UnderMount path mount = true /\ ~ shadowed r e mount path.
Proof.
  intros HR. unfold in_subtree. rewrite orb_true_iff, bool_decide_eq_true. apply or_iff_compat_l. destruct (mountOf (rg_ns r) e) as [mount|]; [|split; [done|by intros (? & ? & _)]].
  rewrite andb_true_iff, negb_true_iff. assert (Hsh : existsb (fun om => (path == om) || UnderMount path om) (nested_mounts (rg_ns r) (rg_man r) e mount) = true <-> shadowed r e mount path).
  { rewrite existsb_exists. unfold shadowed. split.
    - intros (om & Hin%list_elem_of_In & Hb). apply (in_nested r e mount om HR) in Hin as (u & other & ? & ? & ? & ? & ?). rewrite orb_true_iff, bool_decide_eq_true in Hb. by exists u, other, om.
    - intros (u & other & om & ? & ? & ? & ? & ? & Hb). exists om. split; [apply list_elem_of_In, (in_nested r e mount om HR); by exists u, other|]. by rewrite orb_true_iff, bool_decide_eq_true. }
  rewrite <- not_true_iff_false, Hsh. naive_solver.
Qed.

Lemma replicatedBy_spec r e path node topic : RegInv r -> replicatedBy nodeID classOf (rg_ns r) (rg_man r) e path node topic <> "" <-> belongs r e path node topic.
Proof.
  intros HR. unfold replicatedBy, belongs. rewrite <- (in_subtree_spec r e path node HR). case_bool_decide as Hn; [naive_solver|]. destruct (in_subtree _ _ _ _ _); cbn [negb]; [|naive_solver].
  destruct (Parse topic) as [p|]; [|split; [done|]; by intros (_ & _ & p & ? & _)]. destruct (IsNodePrivate (Contract p)) eqn:Ep; [split; [done|]; intros (_ & _ & q & [= <-] & Hq & _); congruence|].
  unfold IsOwnedState. destruct (classOf (Contract p)) eqn:Ec; cbn; (split; [intros ?; split_and!; [done..|]; exists p; split_and!; [done..|]; try done; naive_solver|intros (_ & _ & q & [= <-] & _ & Hq); rewrite Ec in Hq; naive_solver]).
Qed.

(** What a retirement takes from the current state. *)
Definition goes (seen : DB) (r : Reg) (ulid : string) (e : Entry) (path node topic : string) : Prop :=
  (path, node, topic) = (identity_path e, nodeID, topicFor nodeID e)
  \/ path <> "" /\ (wrote (rg_store r) ulid path node topic
                    \/ is_Some (seen !! kvKey path node topic) /\ belongs r e path node topic).

Lemma Retire_eq fdel fcur seen ts ulid r r' off was n e : Get (rg_man r) ulid = Some e -> Retire nodeID classOf fdel fcur seen ts ulid r = (r', Ok (off, was, n)) ->
  exists s retired, RegistryRetire fdel seen ulid "entities" (identity_record nodeID ts e "") (authoredBy nodeID ts ulid (rg_store r))
    (mkChildRetirement ulid (replicatedBy nodeID classOf (rg_ns r) (rg_man r) e) ts) (rg_store r) = (s, Ok (off, retired)) /\ n = length retired
  /\ rg_store r' = delete_cursors fcur (dead_cursors true ulid e s) s /\ rg_man r' = remove_entry ulid e (rg_man r) /\ rg_ns r' = foldl (observe_retired) (rg_ns r) retired.
Proof.
  unfold Get, Retire, revoke. intros ->. destruct (_ && _); [done|]. cbv zeta. destruct (RegistryRetire _ _ _ _ _ _ _ _) as [s [[off' retired]|err]] eqn:E; [|done].
  intros [= <- <- _ <-]. exists s, retired. set (r1 := deliver _ _ _). destruct (foldl_deliver (authoredBy nodeID ts ulid (rg_store r) ++ retired) r1) as (Hs & Hm & Hn).
  cbn [rg_store rg_man rg_ns]. rewrite Hs, Hm, Hn. done.
Qed.

Lemma cursor_only_kv s s' path node topic : cursor_only s s' -> kvEntry (db s') path node topic = kvEntry (db s) path node topic.
Proof. intros (d & -> & Hd). unfold kvEntry. store_simpl. rewrite Hd; [done|]. apply (tags_disjoint ["k"] cursor_tags); [done|]. by left. Qed.

Lemma delete_cursors_old fs dead s k v : db (delete_cursors fs dead s) !! k = Some v -> db s !! k = Some v.
Proof.
  revert s. induction dead as [|x dead IH]; intros s; [done|]. cbn [delete_cursors]. intros Hk%IH. revert Hk. unfold CursorDelete, bdelete, commit. cbv zeta. do 2 (destruct (write_fails _ _); [done|]).
  destruct (apply_fails _); [done|]. cbn. rewrite lookup_apply_batch. unfold batch_at. cbn [foldl flip op_at]. by repeat case_decide.
Qed.

Lemma delete_cursors_gone fs dead s name stream : (forall x, fs x = no_faults) -> (name, stream) ∈ dead -> db (delete_cursors fs dead s) !! cursorKey name stream = None.
Proof.
  intros Hf. revert s. induction dead as [|x dead IH]; intros s; [by intros Hx%not_elem_of_nil|]. cbn [delete_cursors].
  assert (Hk : forall s1, db s1 !! cursorKey name stream = None -> db (delete_cursors fs dead s1) !! cursorKey name stream = None).
  { clear IH. induction dead as [|y dead IH']; intros s1 H1'; [done|]. cbn [delete_cursors]. apply IH'. unfold CursorDelete. rewrite Hf. cbn. rewrite lookup_apply_batch. unfold batch_at. cbn [foldl flip op_at].
    by repeat case_decide. }
  intros [<- | Hx]%elem_of_cons; [|by apply IH]. apply Hk. unfold CursorDelete. rewrite Hf. cbn. rewrite lookup_apply_batch. unfold batch_at. cbn [foldl flip op_at]. rewrite decide_False by done. by rewrite decide_True.
Qed.

(** C18: Retiring a child node is complete and takes nothing else. When it succeeds, the
    identity is gone from the registry and marked as revoked, and every other identity is
    as it was; the marks of its replication and its store are forgotten; of the current
    state exactly these entries are gone: the identity's own record, the records of this
    node it wrote about itself, and what the child and the nodes below its mount had
    replicated when the keys were walked, without what belongs to another child mounted
    below; and, if the deletions succeed, no cursor of the child holds retention back. *)
Theorem retire_exact fdel fcur seen ts ulid r r' off was n e : RegInv r -> Get (rg_man r) ulid = Some e ->
  Retire nodeID classOf fdel fcur seen ts ulid r = (r', Ok (off, was, n)) ->
  Get (rg_man r') ulid = None /\ Revoked (rg_store r') ulid = true /\ (forall u, u <> ulid -> Get (rg_man r') u = Get (rg_man r) u)
  /\ (forall stream, snd (HWMGet ulid stream (rg_store r')) = 0%N) /\ ChildStore ulid (rg_store r') = ""
  /\ (forall path node topic, (goes seen r ulid e path node topic -> kvEntry (db (rg_store r')) path node topic = None)
       /\ (~ goes seen r ulid e path node topic -> kvEntry (db (rg_store r')) path node topic = kvEntry (db (rg_store r)) path node topic))
  /\ ((forall x, fcur x = no_faults) -> forall name stream pos,
        (name = DownlinkCursorPrefix +:+ ulid /\ stream = "commands") \/ (name = DownlinkDefCursorPrefix +:+ ulid /\ stream = "definitions") \/ HasPrefix name (CursorPrefix e) = true ->
        db (rg_store r') !! cursorKey name stream <> Some (VU64 pos)).
Proof.
  intros HR Hg E. pose proof (ri_store _ HR) as HI. destruct (Retire_eq _ _ _ _ _ _ _ _ _ _ _ Hg E) as (s & retired & Er & _ & Hs & Hm & _). rewrite Hs, Hm.
  pose proof (delete_cursors_only fcur (dead_cursors true ulid e s) s) as Hc. destruct (RegistryRetire_child _ _ _ _ _ _ _ _ _ _ HI Er) as (Hh & Ha & Hu & Hv). cbn [cr_Child] in *.
  assert (Hdb : forall k, tag k ∉ cursor_tags -> db (delete_cursors fcur (dead_cursors true ulid e s) s) !! k = db s !! k) by (intros k Hk; destruct Hc as (d & -> & Hd); by apply Hd).
  assert (Hmem : hwms (delete_cursors fcur (dead_cursors true ulid e s) s) = hwms s /\ adopted (delete_cursors fcur (dead_cursors true ulid e s) s) = adopted s) by (by destruct Hc as (d & -> & _)).
  destruct Hmem as [Hhw Had]. split_and!.
  - unfold Get. cbn. by apply lookup_delete_None; left.
  - unfold Revoked. rewrite Hdb by tag_in. by rewrite Hv.
  - intros u Hne. unfold Get. cbn. by rewrite lookup_delete_ne.
  - intros stream. unfold HWMGet. rewrite Hhw. destruct (Hh stream) as [H1' H2']. rewrite H1'. cbn [snd]. unfold readU64. rewrite Hdb by tag_in. by rewrite H2'.
  - unfold ChildStore. rewrite Had, Ha, Hdb by tag_in. by rewrite Hu.
  - intros path node topic. rewrite (cursor_only_kv s _ _ _ _ Hc). rewrite (RegistryRetire_kv _ _ _ _ _ _ _ _ _ _ path node topic HI (authored_taking _ _ _) Er).
    pose proof (authored_takes ts ulid _ path node topic HI) as Htk. unfold goes. rewrite <- (replicatedBy_spec r e path node topic HR). change (position_of (identity_record nodeID ts e "")) with (identity_path e, nodeID, topicFor nodeID e).
    cbn [cr_StreamOf]. split; [intros Hgo|intros Hgo]; [rewrite decide_True; [done|]|rewrite decide_False; [done|]].
    + rewrite Htk. destruct Hgo as [Hq|(Hz & [Hw|[H1' H2']])]; [left; split; [done|by symmetry]|tauto|tauto].
    + rewrite Htk. intros [[_ Hq]|[[Hz Hw]|(Hz & H1' & H2')]]; apply Hgo; [left; by symmetry|tauto|tauto].
  - intros Hf name stream pos Hn Hpos. assert (Hin : (name, stream) ∈ dead_cursors true ulid e s); [|by rewrite (delete_cursors_gone _ _ _ _ _ Hf Hin) in Hpos].
    unfold dead_cursors. destruct Hn as [[-> ->]|[[-> ->]|Hpre]]; [by left|right; apply elem_of_app; right; by left|].
    right. apply elem_of_app. right. right. apply list_elem_of_fmap. exists (mkCursorInfo name stream pos (readU64 (db s) (ctKey name stream) 0)). split; [done|]. apply list_elem_of_filter. split; [done|].
    apply elem_of_CursorSnapshot. split; [|done]. by apply (delete_cursors_old fcur (dead_cursors true ulid e s)).
Qed.

End spec.

(** ** Examples *)

Section examples.
#[local] Existing Instance demo_codec.

(** A child node and a machine; [demo_hex] is a public key. *)
Definition demo_hex : string := "0123456789abcdef0123456789abcdef0123456789abcdef0123456789abcdef".
Definition demo_child : Entry := mkEntry "ch1" demo_hex KindNode "" "el1" [] [] "" "" "" false "" "".

#[local] Instance Entry_eq_dec : EqDecision Entry.
Proof. solve_decision. Defined.

(** Two documents: the child, and the child that drains. *)
Definition demo_json (j : string) : option Entry := if j == "child" then Some demo_child else if j == "draining" then Some (MarkDraining demo_child) else None.
Definition demo_enc (e : Entry) : string := if e == demo_child then "child" else if e == MarkDraining demo_child then "draining" else "".

Lemma demo_read j e : demo_json j = Some e -> e = demo_child \/ e = MarkDraining demo_child.
Proof. unfold demo_json. destruct (j == "child"); [|destruct (j == "draining"); [|done]]; intros [= <-]; auto. Qed.

Lemma demo_enc_ok j e : demo_json j = Some e -> demo_json (demo_enc e) = Some e.
Proof. intros [-> | ->]%demo_read; vm_compute; reflexivity. Qed.

Lemma demo_draining_ok j e : demo_json j = Some e -> demo_json (demo_enc (MarkDraining e)) = Some (MarkDraining e).
Proof. intros [-> | ->]%demo_read; vm_compute; reflexivity. Qed.

#[local] Instance demo_registry_codec : RegistryCodec := {|
  json_entry := demo_json;
  enc_entry := demo_enc;
  json_service_id := Some;
  json_element_id := Some;
  enc_entry_ok := demo_enc_ok;
  enc_draining_ok := demo_draining_ok;
|}.

Definition demo_ns : ElementIndex := mkIndex true {[ "el1" := "line1" ]} {[ "line1" := "el1" ]}.
Definition demo_r0 : Reg := fresh_registry "n0-store" (Some demo_ns).
Definition demo_r1 : Reg := fst (Enroll "n0" no_faults no_faults no_faults 1 7 "child" demo_r0).

(** The child replicates a signal below its mount; another one stands beside it. *)
Definition demo_replicated : list Rec :=
  [demo_rec "colca/v1/_Signal/ch1/line1/a" "x" "line1/a" "ch1" false; demo_rec "colca/v1/_Signal/n0/line2/b" "y" "line2/b" "n0" false].
Definition demo_r2 : Reg := mkReg (put_records "entities" demo_replicated (rg_store demo_r1)) (rg_man demo_r1) (rg_ns demo_r1) (rg_kicks demo_r1) (rg_bus demo_r1).
Definition demo_retire : Reg * result RegErr (N * bool * nat) := Retire "n0" ClassOf no_faults (fun _ => no_faults) (db (rg_store demo_r2)) 9 "ch1" demo_r2.

Lemma registry_runs_witness : ByPubkey (rg_man demo_r1) demo_hex = Some demo_child /\ exists s, Open no_faults "other" (db (rg_store demo_r1)) = Ok s /\ New s = Ok (rg_man demo_r1).
Proof.
  destruct (registry_runs "n0" ClassOf "n0-store" (Some demo_ns) demo_r1) as (Hg & _ & _ & _ & Hr).
  - apply rtc_once. apply (step_enroll "n0" ClassOf no_faults no_faults no_faults 1 7 "child" demo_r0).
  - split; [|apply (Hr no_faults "other")]. apply (Hg "ch1" demo_child); [vm_compute; reflexivity|discriminate].
Defined.

Lemma demo_r1_inv : RegInv demo_r1.
Proof. unfold demo_r1. apply (Enroll_inv "n0" ClassOf). apply fresh_registry_inv. Qed.

Lemma demo_r2_inv : RegInv demo_r2.
Proof.
  pose proof demo_r1_inv as HR. unfold demo_r2. destruct demo_r1 as [s1 m ns ks bus]. apply (same_registry_inv _ _ HR); cbn [rg_store rg_man].
  - apply put_records_inv; [tag_in|apply HR].
  - reflexivity.
  - intros u. apply small_lookup_put. tag_in.
Qed.

Lemma retire_exact_witness : Get (rg_man (fst demo_retire)) "ch1" = None /\ Revoked (rg_store (fst demo_retire)) "ch1" = true
  /\ kvEntry (db (rg_store (fst demo_retire))) "line1/a" "ch1" "colca/v1/_Signal/ch1/line1/a" = None.
Proof.
  destruct (retire_exact "n0" ClassOf no_faults (fun _ => no_faults) (db (rg_store demo_r2)) 9 "ch1" demo_r2 (fst demo_retire) 4 false 1 demo_child) as (Hg & Hv & _ & _ & _ & Hk & _).
  - exact demo_r2_inv.
  - vm_compute. reflexivity.
  - replace (Ok (4%N, false, 1)) with (snd demo_retire) by (vm_compute; reflexivity). apply surjective_pairing.
  - split; [exact Hg|]. split; [exact Hv|]. apply Hk. right. split; [discriminate|]. right. split; [exists (VKV (encode_kv 2 (demo_rec "colca/v1/_Signal/ch1/line1/a" "x" "line1/a" "ch1" false))); vm_compute; reflexivity|].
    split; [discriminate|]. split; [by left|]. exists (mkParsed "colca" "v1" "_Signal" "ch1" "line1/a"). split; [vm_compute; reflexivity|]. split; [vm_compute; reflexivity|]. right. vm_compute. reflexivity.
Defined.

End examples.
